(* ===== verification/_CoqProject ===== *)
-Q . S2P
Prelude.v
Channels.v
Bytes.v
StdIo.v
Config.v
Errors.v
Paths.v
Format.v
Reference.v
FormatSpec.v
Bench.v
World.v
Steps.v
Filesystem.v
Windows.v
Backend.v
ReferenceFs.v
FilesystemLemmas.v
FilesystemSpec.v
LoadSpec.v
MaintenanceSpec.v
BackendTheorems.v
Fixtures.v
Operation.v
BackendSteps.v
BackendSpec.v
Refinement.v
Interference.v
UnixRefinement.v
UnixInterference.v
Workers.v
Scheduler.v
SchedulerLemmas.v
SchedulerInv.v
SchedulerTrace.v
SchedulerWork.v
SchedulerOrder.v
SchedulerAnswers.v
SchedulerPool.v
Engine.v
EngineSteps.v
EngineInv.v
EngineTheorems.v
System.v
Liveness.v
SystemRefinement.v
Linearizability.v
Recovery.v
Shutdown.v
Blocking.v
Tokio.v
FacadeSpec.v
Streams.v
Sessions.v
StreamedSaves.v
FacadeTheorems.v
WindowsPaths.v
WindowsLaws.v
WindowsSpec.v
WindowsRuns.v
WindowsCleanup.v
ReferenceWindows.v
WindowsTheorems.v
WindowsRefinement.v
WindowsInterference.v
WindowsSystem.v
