(* ===== verification/Prelude.v ===== *)
(** * Verification of [atomic-blob-store]

    A Rust library that keeps one file per key in a namespace directory.  A key
    is any byte string; its file is the 64 hexadecimal digits of its BLAKE3
    digest and the suffix of the format.  A file is an envelope: an identity, a
    version, the length, the payload, and a CRC-32C of everything before it.

    ** The program

    - [src/src/config.rs]: the identity of a format and the options of a store;
    - [src/src/error.rs]: results, errors and the names in diagnostics;
    - [src/src/path.rs]: canonical names and the rule for namespaces;
    - [src/src/format.rs]: encoding and decoding envelopes, in one piece and in
      chunks, and the two loads;
    - [src/src/filesystem/mod.rs]: opening, saving, clearing, inspecting,
      quarantining, cleaning up, on Unix and on Windows;
    - [src/src/engine/]: the handle ([mod.rs]) admits calls under the mutex of
      the lifecycle and sends them to the coordinator thread ([scheduler.rs]),
      which keeps one queue per key, runs at most one operation of a key and a
      bounded number in all on a lazily started pool ([workers.rs]), and treats
      maintenance, flushes and closes as barriers; [operation.rs] runs one
      operation and answers its caller;
    - [src/src/blocking.rs], [src/src/tokio.rs]: the two facades of the handle.

    ** The development

    The environment:
    - [Bytes], [StdIo], [World]: byte strings, [std::io] and [std::fs] as the
      crate uses them.  A [World] is a map from paths to nodes together with
      what the environment will answer: failures of system calls, how readers
      split their bytes, entropy, the current directory.  Every system call is
      logged with the filesystem it leaves, so that a theorem about the log
      ([passes]) speaks of every point at which the process can be killed.
    - [Paths], [Format], [Filesystem] also declare the classes for the crates
      that are not part of the sources: [Blake3], [Crc32c], [AtomicWriteFile],
      [Rustix], and [Target] for the platform's constants; [Windows] declares
      [WindowsApi] for the calls of [windows_sys], [AbsolutePath] for
      [std::path::absolute] and [DirectoryListing] for what [read_dir] yields.
      Their laws ([Blake3Laws], [Crc32cLaws], [AtomicWriteFileLaws],
      [RustixLaws], [WindowsApiLaws], [DirectoryListingLaws]) state what is
      documented.  [Reference], [ReferenceFs] and [ReferenceWindows] give
      instances that satisfy the laws and compute; the witnesses run on them.

    The components, each a translation of its source file:
    - [Config], [Errors], [Paths], [Format] ([Format] has the codecs; the loads
      of [format.rs] are in [Filesystem], which has the Unix backend);
    - [Windows]: the [cfg(windows)] items of [filesystem/mod.rs].  A path is a
      WTF-8 byte string as in an [OsStr], a file handle the entry it was opened
      for, a call of the system a run on the same [World] as on Unix.  The names
      of the source that both systems share have a [windows_] prefix;
    - [Backend]: the items that [src/src/lib.rs] imports from [filesystem] for the
      engine, as a class with the instances [unix_backend] and
      [windows_backend]; [StdPath] is the part of [std::path] that differs;
    - [Operation], [Workers], [Scheduler], [Engine]: the engine.  A channel of a
      caller is a number, and what is sent on it is recorded ([sent]); the
      coordinator's own channel is the list [receiver]; the pool is its list of
      jobs.  One event of the coordinator is one step ([coordinator_turn]): the
      calls that arrive during a turn are admitted under the lifecycle's mutex,
      so they can be placed before or after it.  [HashMapOrder] is the unknown
      iteration order of [HashMap]; what [spawn] answers is a plan in the pool.
    - [EngineSteps]: callers, coordinator and workers in any interleaving;
    - [Steps], [BackendSteps]: the operations of both systems once more, as
      programs that show every system call ([prog]).  [steps_are_the_operation]:
      a program that nobody interrupts is the function;
    - [System]: the whole store.  A worker that received a job is a [Thread]; one
      call of one thread is one step, so the calls of the operations in flight,
      the turns of the coordinator and the calls of the users interleave in every
      way.  A maintenance job is one step, because nothing else runs with it
      ([maintenance_alone]).  [sys_work] is what the threads do by themselves,
      [external] what callers do, [replans] what the environment does;
    - [Bench]: the codec as the benchmarks call it ([src/src/lib.rs]);
    - [Blocking], [Tokio]: the facades.  A streaming call is split where the
      other side acts: what is submitted ([Blocking_save_from]), a pump that
      reads and sends ([Pump], [Verdict]) and what the verdict makes of the
      pending result.  The sends that a worker still takes, a result that comes
      early and an [await] at which the future is dropped ([Turn], [Await]) are
      arguments; [Streams] has both ends of a stream at work.

    The proofs:
    - [FormatSpec]: the decoder against a specification of the format, round
      trips, the streaming codecs against the one-piece ones, damaged files;
      [Fixtures]: the model on the immutable inputs of the repository's tests;
    - [FilesystemLemmas], [FilesystemSpec], [LoadSpec], [MaintenanceSpec],
      [BackendTheorems]: what every operation of the backend does at every point
      of its run, under any failures;
    - [WindowsPaths], [WindowsLaws], [WindowsSpec], [WindowsRuns],
      [WindowsCleanup], [WindowsTheorems]: the same for the Windows backend,
      whose every call is a step of [passes]; a store whose paths the calls
      resolve as written is a [windows_store];
    - [BackendSpec]: the abstract map from keys to entries, and [BackendLaws],
      what a backend promises to the engine; [Refinement]: on such a backend an
      operation is a step of the map, and a sequence of operations is a history
      of it; [UnixRefinement] and [WindowsRefinement] discharge the promise;
    - [Interference]: rely and guarantee.  [BackendInterference] is the promise
      that the programs of a backend leave the files of other keys alone, show
      only certain entries of their own key ([moment]), and end in a step of the
      map, while other keys' files change between their calls;
      [UnixInterference] and [WindowsInterference] discharge it;
    - [SchedulerLemmas], [SchedulerInv]: the invariant of the coordinator;
      [SchedulerTrace]: calls are neither lost nor duplicated, and keys keep
      their order; [SchedulerWork]: a measure that every step decreases;
      [SchedulerOrder]: barriers; [SchedulerAnswers]: where answers come from;
      [SchedulerPool]: jobs stay in the pool, one of each key, maintenance alone;
    - [EngineInv], [EngineTheorems]: these facts for every reachable state of
      the engine; [System]: every answer is the result of a run; [Liveness]: the
      store comes to rest, with every call answered exactly once;
    - [SystemRefinement]: with operations in flight the whole store refines the
      map, no crash tears it, and acknowledged saves last; [Linearizability]: the
      answered calls are a sequential history that respects real time, and a call
      that was turned away never ran; [Recovery]: acknowledged saves also survive
      any number of kills of the process at any moment; [Shutdown]: a store that
      was stopped and opened again goes on from the same map; [WindowsSystem]:
      the same on Windows.  All but the statements for one system are proved against
      [BackendLaws] and [BackendInterference];
    - [Channels]: a thread that sends and a thread that receives over a bounded
      channel, interleaved; they come to what each does alone; [Streams]: so the
      arguments of the streaming calls stand for every interleaving of the loops
      of facade and worker;
    - [Sessions]: both threads of a streaming call to their end, with the channel
      of the chunks, the acknowledgement and the result, and who holds which end
      of them; they never wait for each other and they end;
      [StreamedSaves]: what a streaming save stores and answers depends on the
      reader and not on the interleaving;
    - [FacadeSpec], [FacadeTheorems]: what a facade sends for a reader and
      writes for a stored blob, which step of the map a streaming save comes to
      ([save_from_is_a_map_step]), and that the two facades agree.

    ** Bounds and fuel

    Sizes are in [N] with Rust's widths written where the code checks them
    ([checked_add], [try_from]); [Target] has the width of [usize].  Loops that
    the source bounds by their data run with that bound ([run_loop] with a
    decreasing measure, [run_loop_rule]), so an exhausted fuel never shows.  The
    unbounded loops, which try random names until one is free, have their fuel
    as an argument, an answer for an exhausted fuel, and the theorems
    [quarantine_terminates] and [windows_retries_terminate], which bound the
    turns by the number of taken names.  In [System] a worker chooses its fuel
    when it begins; [Liveness] tells a worker that used it up apart.

    ** What is not modelled

    - How the writes through one handle on Windows are split: the log of the call
      that writes shows the file with every number of its first bytes
      ([writing_states]), while the threads of other keys, which do not read it,
      act before and after.  Sharing violations and other processes: the
      documentation of the crate excludes a second writer.
    - Readers that claim to have read more than their buffer holds, and the
      [Pin] and [Waker] machinery of the futures.
    - Test hooks ([cfg(test)]) and the events of the benchmarks, which are
      compiled out of a release; the variants for targets that are neither Unix
      nor Windows, where opening answers [UnsupportedPlatform]; [Debug] and
      message texts.
    - A loss of power.  A crash is a kill of the process, which leaves what the
      system calls did; which files were synced, and after what, is in the log
      ([synced_last]), but not what an unsynced disk may show.
    - What happens between the system calls that a crate makes by itself: a call
      of [atomic_write_file] or [rustix] is one step of a thread, whose log
      ([passes]) shows the states in between.
    - Opening a directory in place of a blob on Windows: the model fails at the
      first read and not at the open, with an error either way.
    - Poisoned mutexes: no code panics while it holds one. *)
From Stdlib Require Export ZArith NArith Lia.
From stdpp Require Export base tactics option list list_numbers gmap strings.

Declare Scope blob_scope.
Delimit Scope blob_scope with blob.

(** ** Rust's [Result] *)

Inductive result (A E : Type) : Type :=
| Ok (a : A)
| Err (e : E).
Arguments Ok {A E} a.
Arguments Err {A E} e.

Definition is_ok {A E} (r : result A E) : bool :=
  match r with Ok _ => true | Err _ => false end.

Definition map_ok {A B E} (f : A -> B) (r : result A E) : result B E :=
  match r with Ok a => Ok (f a) | Err e => Err e end.

Definition map_err {A E F} (f : E -> F) (r : result A E) : result A F :=
  match r with Ok a => Ok a | Err e => Err (f e) end.

Definition ok_or {A E} (o : option A) (e : E) : result A E :=
  match o with Some a => Ok a | None => Err e end.

(** [let? x := c in k] is Rust's [let x = c?; k]. *)
Notation "'let?' x ':=' c 'in' k" :=
  (match c with Ok x => k | Err err => Err err end)
  (at level 10, x pattern, c at level 100, k at level 200) : blob_scope.

(** ** Effects: explicit state passing with an error result *)

Definition eff (S E A : Type) : Type := S -> result A E * S.

Definition ret {S E A} (a : A) : eff S E A := fun s => (Ok a, s).
Definition throw {S E A} (e : E) : eff S E A := fun s => (Err e, s).
Definition lift {S E A} (r : result A E) : eff S E A := fun s => (r, s).

Definition bind {S E A B} (c : eff S E A) (k : A -> eff S E B) : eff S E B :=
  fun s => match c s with
           | (Ok a, s') => k a s'
           | (Err e, s') => (Err e, s')
           end.

(** Runs [c] and hands its whole result to [k]: a Rust [match] on a call. *)
Definition bind_result {S E F A B} (c : eff S E A) (k : result A E -> eff S F B) : eff S F B :=
  fun s => let (r, s') := c s in k r s'.

Definition eff_map_err {S E F A} (f : E -> F) (c : eff S E A) : eff S F A :=
  fun s => let (r, s') := c s in (map_err f r, s').

Notation "'do?' x '<-' c ';' k" := (bind c (fun x => k))
  (at level 10, x pattern, c at level 100, k at level 200) : blob_scope.
Notation "'do!' x '<-' c ';' k" := (bind_result c (fun x => k))
  (at level 10, x pattern, c at level 100, k at level 200) : blob_scope.

(** ** Loops

    [loop fuel step s] iterates [step]; [inl s'] continues with [s'] and
    [inr r] leaves the loop with [r].  [run_loop] adds a value for an exhausted
    fuel; the rules below only apply when the fuel bounds a decreasing measure,
    so that value never shows in a theorem. *)

Fixpoint loop {S R} (fuel : nat) (step : S -> S + R) (s : S) : S + R :=
  match fuel with
  | O => inl s
  | Datatypes.S fuel' =>
      match step s with
      | inl s' => loop fuel' step s'
      | inr r => inr r
      end
  end.

Definition run_loop {S R} (fuel : nat) (step : S -> S + R) (spent : S -> R) (s : S) : R :=
  match loop fuel step s with
  | inl s' => spent s'
  | inr r => r
  end.

(** ** Automation *)

(** Case analysis on every [match] of the goal or of a hypothesis, with the
    equation kept. *)
Ltac break_goal :=
  match goal with
  | |- context [match ?x with _ => _ end] => destruct x eqn:?
  end.

Ltac break_hyp :=
  match goal with
  | H : context [match ?x with _ => _ end] |- _ => destruct x eqn:?
  end.

Ltac break := repeat (break_hyp || break_goal); simplify_eq/=.

(** Proves a decidable proposition by running its decision procedure. *)
Ltac decided :=
  match goal with |- ?P => apply (bool_decide_unpack P); vm_compute; exact I end.

(** Turns boolean tests in the context into propositions. *)
Ltac reflect_bools :=
  repeat match goal with
  | H : (_ && _)%bool = true |- _ => apply andb_prop in H; destruct H
  | H : (_ <? _)%N = true |- _ => apply N.ltb_lt in H
  | H : (_ <? _)%N = false |- _ => apply N.ltb_ge in H
  | H : (_ <=? _)%N = true |- _ => apply N.leb_le in H
  | H : (_ <=? _)%N = false |- _ => apply N.leb_gt in H
  | H : (_ =? _)%N = true |- _ => apply N.eqb_eq in H
  | H : (_ =? _)%N = false |- _ => apply N.eqb_neq in H
  | H : (_ <? _)%nat = true |- _ => apply Nat.ltb_lt in H
  | H : (_ <? _)%nat = false |- _ => apply Nat.ltb_ge in H
  | H : (_ <=? _)%nat = true |- _ => apply Nat.leb_le in H
  | H : (_ <=? _)%nat = false |- _ => apply Nat.leb_gt in H
  | H : (_ =? _)%nat = true |- _ => apply Nat.eqb_eq in H
  | H : (_ =? _)%nat = false |- _ => apply Nat.eqb_neq in H
  | H : bool_decide _ = true |- _ => apply bool_decide_eq_true in H
  | H : bool_decide _ = false |- _ => apply bool_decide_eq_false in H
  | H : negb _ = true |- _ => apply negb_true_iff in H
  | H : negb _ = false |- _ => apply negb_false_iff in H
  end.

(** Rewriting rules of the library: lengths of the encodings, monad laws. *)
Create HintDb blob discriminated.
Create Rewrite HintDb blob.

(** ** Lemmas on effects *)

Section Effects.
Context {S E A B C : Type}.

Lemma bind_ret (a : A) (k : A -> eff S E B) s : bind (ret a) k s = k a s.
Proof. done. Qed.

Lemma bind_throw (e : E) (k : A -> eff S E B) s : bind (throw e) k s = (Err e, s).
Proof. done. Qed.

Lemma bind_ok (c : eff S E A) (k : A -> eff S E B) s a s' :
  c s = (Ok a, s') -> bind c k s = k a s'.
Proof. unfold bind. by intros ->. Qed.

Lemma bind_err (c : eff S E A) (k : A -> eff S E B) s e s' :
  c s = (Err e, s') -> bind c k s = (Err e, s').
Proof. unfold bind. by intros ->. Qed.

Lemma bind_inv_ok (c : eff S E A) (k : A -> eff S E B) s b s2 :
  bind c k s = (Ok b, s2) -> exists a s1, c s = (Ok a, s1) /\ k a s1 = (Ok b, s2).
Proof. unfold bind. destruct (c s) as [[a|e] s1]; naive_solver. Qed.

Lemma bind_assoc (c : eff S E A) (k : A -> eff S E B) (k' : B -> eff S E C) s :
  bind (bind c k) k' s = bind c (fun a => bind (k a) k') s.
Proof. unfold bind. by destruct (c s) as [[a|e] s1]. Qed.
End Effects.

(** ** Lemmas on loops *)

Section Loops.
Context {S R : Type} (step : S -> S + R) (spent : S -> R).

Lemma run_loop_0 s : run_loop 0 step spent s = spent s.
Proof. done. Qed.

Lemma run_loop_S fuel s :
  run_loop (Datatypes.S fuel) step spent s =
  match step s with
  | inl s' => run_loop fuel step spent s'
  | inr r => r
  end.
Proof. unfold run_loop; simpl. by destruct (step s). Qed.

(** The loop rule: an invariant with a decreasing measure below the fuel. *)
Lemma run_loop_rule (Inv : S -> Prop) (m : S -> nat) (Q : R -> Prop) fuel s :
  (forall s, Inv s ->
     match step s with inl s' => Inv s' /\ m s' < m s | inr r => Q r end) ->
  Inv s -> m s < fuel -> Q (run_loop fuel step spent s).
Proof.
  intros Hstep. revert s. induction fuel as [|fuel IH]; intros s Hs Hm; [lia|].
  rewrite run_loop_S. specialize (Hstep s Hs).
  destruct (step s) as [s'|r]; [|done].
  destruct Hstep. apply IH; [done|lia].
Qed.

(** With enough fuel the loop leaves by itself. *)
Lemma loop_terminates (Inv : S -> Prop) (m : S -> nat) fuel s :
  (forall s s', Inv s -> step s = inl s' -> Inv s' /\ m s' < m s) ->
  Inv s -> m s < fuel -> exists r, loop fuel step s = inr r.
Proof.
  intros Hstep. revert s. induction fuel as [|fuel IH]; intros s Hs Hm; [lia|].
  simpl. destruct (step s) as [s'|r] eqn:E; [|eauto].
  destruct (Hstep _ _ Hs E). apply IH; [done|lia].
Qed.

(** More fuel than the measure changes nothing. *)
Lemma run_loop_fuel (m : S -> nat) f1 f2 s :
  (forall s s', step s = inl s' -> m s' < m s) ->
  m s < f1 -> m s < f2 -> run_loop f1 step spent s = run_loop f2 step spent s.
Proof.
  intros Hstep. revert f2 s. induction f1 as [|f1 IH]; intros f2 s H1 H2; [lia|].
  destruct f2 as [|f2]; [lia|]. rewrite !run_loop_S.
  destruct (step s) as [s'|r] eqn:E; [|done].
  apply Hstep in E. apply IH; lia.
Qed.
End Loops.

(** ** Lists *)

Lemma take_drop_app_eq {A} (l : list A) n a b :
  take n l = a -> drop n l = b -> l = a ++ b.
Proof. intros <- <-. by rewrite take_drop. Qed.

Lemma app_length_inj {A} (a b c d : list A) :
  length a = length c -> a ++ b = c ++ d -> a = c /\ b = d.
Proof. intros Hl H. by apply app_inj_1. Qed.

Lemma concat_snoc {A} (ls : list (list A)) l : concat (ls ++ [l]) = concat ls ++ l.
Proof. rewrite concat_app. simpl. by rewrite app_nil_r. Qed.

Lemma pair_snd {A B} (x : A * B) a : fst x = a -> x = (a, snd x).
Proof. by destruct x; intros <-. Qed.
