(* ===== verification/Channels.v ===== *)
(** * Bounded channels between two threads

    The streaming calls run on two threads with a channel between them: a sender
    that blocks while the channel is full and is refused once the receiver is
    gone, and a receiver that blocks while the channel is empty and is told when
    the sender is gone too.  [link_step] interleaves them; a thread may also be
    lost with its end ([link_lost]).  Whatever the interleaving, the two threads
    are a sender that meets a list of accepted sends and a receiver of the
    messages that were sent ([link_runs]). *)
From S2P Require Export Prelude.

(** What a sender does next. *)
Inductive SenderAct (M P RP : Type) :=
| Offer (m : M) (k : bool -> P)          (* [send]: [false] when the receiver is gone *)
| Leave (r : RP).                        (* the sender is dropped *)
Arguments Offer {M P RP}.
Arguments Leave {M P RP}.

Section Channel.
Context {M P RP C RC : Type}.
Context (send_next : P -> SenderAct M P RP).
(** The receiver takes a message, or learns that there will be none. *)
Context (receive : C -> option M -> C + RC).
(** A receiver that stops waiting for a message. *)
Context (gives_up : C -> option RC).
Context (capacity : nat).

(** ** The two threads *)

(** [None] is a thread that was lost. *)
Inductive SenderEnd := Sends (p : P) | SenderGone (r : option RP).
Inductive ReceiverEnd := Receives (c : C) | ReceiverGone (r : option RC).

Record Link := { lk_sender : SenderEnd; lk_queue : list M; lk_receiver : ReceiverEnd }.

Definition received (x : C + RC) : ReceiverEnd :=
  match x with inl c => Receives c | inr r => ReceiverGone (Some r) end.

Inductive link_step : Link -> Link -> Prop :=
| link_send p m k q c :
    send_next p = Offer m k -> (length q < capacity)%nat ->
    link_step (Build_Link (Sends p) q (Receives c)) (Build_Link (Sends (k true)) (q ++ [m]) (Receives c))
| link_refused p m k q r :
    send_next p = Offer m k ->
    link_step (Build_Link (Sends p) q (ReceiverGone r)) (Build_Link (Sends (k false)) q (ReceiverGone r))
| link_leave p r q c :
    send_next p = Leave r ->
    link_step (Build_Link (Sends p) q c) (Build_Link (SenderGone (Some r)) q c)
| link_receive s m q c :
    link_step (Build_Link s (m :: q) (Receives c)) (Build_Link s q (received (receive c (Some m))))
| link_disconnected r c :
    link_step (Build_Link (SenderGone r) [] (Receives c))
      (Build_Link (SenderGone r) [] (received (receive c None)))
| link_gives_up s q c r :
    gives_up c = Some r ->
    link_step (Build_Link s q (Receives c)) (Build_Link s q (ReceiverGone (Some r))).

Inductive link_lost : Link -> Link -> Prop :=
| lost_sender p q c : link_lost (Build_Link (Sends p) q c) (Build_Link (SenderGone None) q c)
| lost_receiver s q c : link_lost (Build_Link s q (Receives c)) (Build_Link s q (ReceiverGone None)).

Definition link_moves (l l' : Link) : Prop := link_step l l' \/ link_lost l l'.

Definition linked (p : P) (c : C) : Link := Build_Link (Sends p) [] (Receives c).

(** ** One thread after the other *)

(** The sender with its sends accepted or refused as in the list, the messages
    it sent, and its result. *)
Inductive offers : P -> list bool -> list M -> RP -> Prop :=
| offers_leave p r : send_next p = Leave r -> offers p [] [] r
| offers_sent p m k bs ms r :
    send_next p = Offer m k -> offers (k true) bs ms r -> offers p (true :: bs) (m :: ms) r
| offers_refused p m k bs ms r :
    send_next p = Offer m k -> offers (k false) bs ms r -> offers p (false :: bs) ms r.

(** The receiver of a list of messages, and the messages that it left. *)
Inductive drains : C -> list M -> RC -> list M -> Prop :=
| drains_end c r : receive c None = inr r -> drains c [] r []
| drains_stop c m ms r : receive c (Some m) = inr r -> drains c (m :: ms) r ms
| drains_gives_up c ms r : gives_up c = Some r -> drains c ms r ms
| drains_more c m ms c' r rest :
    receive c (Some m) = inl c' -> drains c' ms r rest -> drains c (m :: ms) r rest.

Lemma offers_inv p bs ms r :
  offers p bs ms r ->
  match send_next p with
  | Leave r' => bs = [] /\ ms = [] /\ r = r'
  | Offer m k => exists b bs' ms', bs = b :: bs' /\ ms = (if b then m :: ms' else ms') /\ offers (k b) bs' ms' r
  end.
Proof.
  intros [p1 r1 E|p1 m k bs1 ms1 r1 E H|p1 m k bs1 ms1 r1 E H]; rewrite E; [done|..].
  - by exists true, bs1, ms1.
  - by exists false, bs1, ms1.
Qed.

(** The same, as far as the threads have come. *)
Inductive offered : P -> list bool -> list M -> P -> Prop :=
| offered_start p : offered p [] [] p
| offered_sent p bs ms p' m k :
    offered p bs ms p' -> send_next p' = Offer m k -> offered p (bs ++ [true]) (ms ++ [m]) (k true)
| offered_refused p bs ms p' m k :
    offered p bs ms p' -> send_next p' = Offer m k -> offered p (bs ++ [false]) ms (k false).

Inductive drained : C -> list M -> C -> Prop :=
| drained_start c : drained c [] c
| drained_more c ms c' m c2 :
    drained c ms c' -> receive c' (Some m) = inl c2 -> drained c (ms ++ [m]) c2.

Lemma offered_offers p bs ms p' bs' ms' r :
  offered p bs ms p' -> offers p' bs' ms' r -> offers p (bs ++ bs') (ms ++ ms') r.
Proof.
  intros H. revert bs' ms'. induction H as [|p bs ms p' m k _ IH E|p bs ms p' m k _ IH E];
    intros bs' ms' Ho; [done|..]; rewrite <-!app_assoc; apply IH.
  - by eapply offers_sent.
  - by eapply offers_refused.
Qed.

Lemma drained_drains c ms c' ms' r rest :
  drained c ms c' -> drains c' ms' r rest -> drains c (ms ++ ms') r rest.
Proof.
  intros H. revert ms'. induction H as [|c ms c' m c2 _ IH E]; intros ms' Hd; [done|].
  rewrite <-app_assoc. apply IH. by eapply drains_more.
Qed.

(** ** Every interleaving is one of these *)

(** The receiver ended while the sender was there. *)
Definition ends_early (r : RC) : Prop :=
  (exists c m, receive c (Some m) = inr r) \/ (exists c, gives_up c = Some r).

Definition sender_matches (p : P) (bs : list bool) (ms : list M) (s : SenderEnd) : Prop :=
  match s with
  | Sends p' => offered p bs ms p'
  | SenderGone (Some r) => offers p bs ms r
  | SenderGone None => exists p', offered p bs ms p'
  end.

Definition receiver_matches (c : C) (bs : list bool) (ms q : list M) (s : SenderEnd) (e : ReceiverEnd) : Prop :=
  match e with
  | Receives c' => Forall (eq true) bs /\ exists got, ms = got ++ q /\ drained c got c'
  | ReceiverGone (Some r) =>
      drains c ms r q /\ ((Forall (eq true) bs /\ exists x, s = SenderGone x) \/ ends_early r)
  | ReceiverGone None => exists got c', ms = got ++ q /\ drained c got c'
  end.

Definition matches (p : P) (c : C) (l : Link) : Prop :=
  exists bs ms, sender_matches p bs ms (lk_sender l) /\
    receiver_matches c bs ms (lk_queue l) (lk_sender l) (lk_receiver l).

Context (receive_none : forall c, exists r, receive c None = inr r).

Lemma send_matches p c bs ms p' m k q c' :
  sender_matches p bs ms (Sends p') -> receiver_matches c bs ms q (Sends p') (Receives c') ->
  send_next p' = Offer m k -> matches p c (Build_Link (Sends (k true)) (q ++ [m]) (Receives c')).
Proof.
  intros Hs [Hb (got & -> & Hd)] E. exists (bs ++ [true]), ((got ++ q) ++ [m]). split; [by eapply offered_sent|].
  cbn. split; [apply Forall_app; by split; [|constructor]|]. exists got. by rewrite app_assoc.
Qed.

Lemma receive_matches c bs ms m q s c' :
  receiver_matches c bs ms (m :: q) s (Receives c') ->
  receiver_matches c bs ms q s (received (receive c' (Some m))).
Proof.
  intros [Hb (got & -> & Hd)]. destruct (receive c' (Some m)) as [c2|r] eqn:E; cbn.
  - split; [done|]. exists (got ++ [m]). rewrite <-app_assoc. split; [done|]. by eapply drained_more.
  - split; [|right; left; by eauto]. eapply drained_drains; [done|]. by apply drains_stop.
Qed.

Lemma moves_match p c l l' : link_moves l l' -> matches p c l -> matches p c l'.
Proof.
  intros [Hst|Hst] (bs & ms & Hs & Hr).
  - destruct Hst as [p' m k q c' E Hq|p' m k q r E|p' r q c' E|s m q c'|r c'|s q c' r E];
      cbn [lk_sender lk_queue lk_receiver] in *.
    + by eapply send_matches.
    + exists (bs ++ [false]), ms. split; [by eapply offered_refused|]. cbn [lk_sender lk_queue lk_receiver].
      destruct r as [r|]; [|done]. destruct Hr as [Hd [[_ [x Hx]]|He]]; [done|]. split; [done|by right].
    + exists bs, ms. split.
      { cbn. rewrite <-(app_nil_r bs), <-(app_nil_r ms). by eapply offered_offers; [|apply offers_leave]. }
      cbn. destruct c' as [c'|[r'|]]; [done| |done].
      destruct Hr as [Hd [[_ [x Hx]]|He]]; [done|]. split; [done|by right].
    + exists bs, ms. split; [done|]. by apply receive_matches.
    + exists bs, ms. split; [done|]. cbn. destruct Hr as [Hb (got & -> & Hd)].
      destruct (receive_none c') as [r' E]. rewrite E. cbn. split; [|left; by eauto].
      eapply drained_drains; [done|]. by apply drains_end.
    + exists bs, ms. split; [done|]. destruct Hr as [Hb (got & -> & Hd)]. split; [|right; right; by eauto].
      eapply drained_drains; [done|]. by apply drains_gives_up.
  - destruct Hst as [p' q c'|s q c']; exists bs, ms; cbn in *.
    + split; [by exists p'|]. destruct c' as [c'|[r'|]]; [done| |done].
      destruct Hr as [Hd [[_ [x Hx]]|He]]; [done|]. split; [done|by right].
    + destruct Hr as [_ (got & -> & Hd)]. split; [done|by eauto].
Qed.

(** Where the two threads can be: the sender sent what a sender alone sends when
    its sends are accepted as in [bs], and the receiver did with it what it does
    alone. *)
Lemma link_runs p c l : rtc link_moves (linked p c) l -> matches p c l.
Proof.
  intros H. assert (H0 : matches p c (linked p c)).
  { exists [], []. split; [apply offered_start|]. split; [done|]. exists []. split; [done|apply drained_start]. }
  revert H0. induction H as [|l l1 l2 Hst _ IH]; [done|]. intros H0. apply IH. by eapply moves_match.
Qed.

(** A schedule that prefers the receiver. *)
Definition link_next (l : Link) : option Link :=
  match lk_sender l, lk_queue l, lk_receiver l with
  | s, m :: q, Receives c => Some (Build_Link s q (received (receive c (Some m))))
  | SenderGone r, [], Receives c => Some (Build_Link (SenderGone r) [] (received (receive c None)))
  | Sends p, q, e =>
      match send_next p, e with
      | Leave r, _ => Some (Build_Link (SenderGone (Some r)) q e)
      | Offer m k, Receives _ =>
          if decide (length q < capacity)%nat then Some (Build_Link (Sends (k true)) (q ++ [m]) e) else None
      | Offer _ k, ReceiverGone _ => Some (Build_Link (Sends (k false)) q e)
      end
  | SenderGone _, _, ReceiverGone _ => None
  end.

Fixpoint link_run (fuel : nat) (l : Link) : Link :=
  match fuel with
  | O => l
  | S fuel => match link_next l with Some l' => link_run fuel l' | None => l end
  end.

Lemma link_next_step l l' : link_next l = Some l' -> link_step l l'.
Proof.
  destruct l as [[p|r] [|m q] [c|r']]; unfold link_next; cbn [lk_sender lk_queue lk_receiver];
    try done; try (intros [= <-]; constructor).
  all: destruct (send_next p) as [m' k|r] eqn:E; [|intros [= <-]; by apply link_leave].
  - case_decide as Hc; [|done]. intros [= <-]. by apply (link_send p m' k []).
  - intros [= <-]. by eapply link_refused.
  - intros [= <-]. by eapply link_refused.
Qed.

Lemma link_run_moves fuel l : rtc link_moves l (link_run fuel l).
Proof.
  revert l; induction fuel as [|fuel IH]; intros l; [done|]. cbn.
  destruct (link_next l) as [l'|] eqn:E; [|done]. eapply rtc_l; [left; by apply link_next_step|apply IH].
Qed.

End Channel.
