(* ===== verification/Bytes.v ===== *)
(** * Bytes and machine integers

    Byte strings ([Vec<u8>], [&[u8]], [OsStr], [str]), the widths of Rust's
    unsigned integers, the big-endian encodings of [to_be_bytes] and
    [from_be_bytes], and lowercase hexadecimal. *)
From Stdlib Require Import Init.Byte Strings.Byte.
From S2P Require Export Prelude.

Local Open Scope N_scope.

Abbreviation byte := Byte.byte.
Abbreviation bytes := (list Byte.byte).

(** The bytes of an ASCII literal, Rust's [b"..."] and ["..."]. *)
Definition bstr (s : string) : bytes := String.list_byte_of_string s.

Definition byte_val (b : byte) : N := Byte.to_N b.

(** Truncation [as u8]. *)
Definition byte_of (n : N) : byte := default Byte.x00 (Byte.of_N (n mod 256)).

(** ** Widths *)

Definition U16_MAX : N := 2 ^ 16 - 1.
Definition U32_MAX : N := 2 ^ 32 - 1.
Definition U64_MAX : N := 2 ^ 64 - 1.

(** The pointer widths the crate compiles for: [STREAM_CHUNK_SIZE] is a [usize]
    constant that 16 bits do not hold. *)
Inductive PointerWidth := W32 | W64.

Definition usize_MAX (pw : PointerWidth) : N :=
  match pw with
  | W32 => 2 ^ 32 - 1
  | W64 => 2 ^ 64 - 1
  end.

Definition checked_add (max a b : N) : option N :=
  if (a + b <=? max) then Some (a + b) else None.

Definition checked_mul (max a b : N) : option N :=
  if (a * b <=? max) then Some (a * b) else None.

(** [u64::try_from] of a [usize]. *)
Definition u64_try_from (n : N) : option N :=
  if (n <=? U64_MAX) then Some n else None.

(** [usize::try_from] of a [u64]. *)
Definition usize_try_from (pw : PointerWidth) (n : N) : option N :=
  if (n <=? usize_MAX pw) then Some n else None.

(** The length of a slice, as the [u64] that [u64::try_from(len)] gives. *)
Definition blen (bs : bytes) : N := N.of_nat (length bs).

(** ** Big-endian encodings *)

Fixpoint be_bytes (n : nat) (v : N) : bytes :=
  match n with
  | O => []
  | S m => be_bytes m (v / 256) ++ [byte_of v]
  end.

Definition from_be (bs : bytes) : N :=
  fold_left (fun acc b => acc * 256 + byte_val b) bs 0.

(** ** Lowercase hexadecimal *)

Definition HEX_DIGITS : bytes := bstr "0123456789abcdef".

Definition hex_digit (n : N) : byte := nth (N.to_nat n) HEX_DIGITS Byte.x00.

(** [byte >> 4] and [byte & 0x0f], each looked up in [HEX_DIGITS]. *)
Definition hex_byte (b : byte) : bytes :=
  [hex_digit (N.shiftr (byte_val b) 4); hex_digit (N.land (byte_val b) 15)].

Definition hex_encode (bs : bytes) : bytes := concat (map hex_byte bs).

Definition is_ascii_lowercase (b : byte) : bool :=
  (97 <=? byte_val b) && (byte_val b <=? 122).
Definition is_ascii_uppercase (b : byte) : bool :=
  (65 <=? byte_val b) && (byte_val b <=? 90).
Definition is_ascii_digit (b : byte) : bool :=
  (48 <=? byte_val b) && (byte_val b <=? 57).
Definition is_ascii_hexdigit (b : byte) : bool :=
  is_ascii_digit b ||
  ((97 <=? byte_val b) && (byte_val b <=? 102)) ||
  ((65 <=? byte_val b) && (byte_val b <=? 70)).
Definition is_ascii (b : byte) : bool := (byte_val b <=? 127).

(** What [blake3::Hash::to_hex] and [random_identifier] produce, and what
    [is_owned_temporary_filename] looks for. *)
Definition is_lower_hex (b : byte) : bool :=
  is_ascii_hexdigit b && negb (is_ascii_uppercase b).

(** ** Instances *)

#[export] Instance byte_eq_dec : EqDecision byte := Byte.byte_eq_dec.

Lemma byte_of_to_N b : Byte.of_N (Byte.to_N b) = Some b.
Proof. apply Byte.of_to_N. Qed.

#[export] Program Instance byte_countable : Countable byte :=
  inj_countable Byte.to_N Byte.of_N byte_of_to_N.

#[export] Instance pointer_width_eq_dec : EqDecision PointerWidth.
Proof. solve_decision. Defined.

(** ** Bytes *)

Lemma byte_val_lt b : byte_val b < 256.
Proof. unfold byte_val. pose proof (Byte.to_N_bounded b). lia. Qed.

Lemma byte_val_of n : byte_val (byte_of n) = n mod 256.
Proof.
  unfold byte_val, byte_of. destruct (Byte.of_N (n mod 256)) as [b|] eqn:E; simpl.
  - by apply Byte.to_of_N in E.
  - apply Byte.of_N_None_iff in E. pose proof (N.mod_lt n 256). lia.
Qed.

Lemma byte_of_val b : byte_of (byte_val b) = b.
Proof.
  unfold byte_of. rewrite N.mod_small by apply byte_val_lt.
  unfold byte_val. by rewrite Byte.of_to_N.
Qed.

Lemma byte_val_inj a b : byte_val a = byte_val b -> a = b.
Proof. intros H. rewrite <-(byte_of_val a), <-(byte_of_val b). by rewrite H. Qed.

(** A boolean property of bytes holds when it holds of the 256 bytes. *)
Lemma byte_forallb (P : byte -> bool) :
  forallb (fun n => P (byte_of (N.of_nat n))) (seq 0 256) = true -> forall b, P b = true.
Proof.
  intros H b. rewrite forallb_forall in H.
  rewrite <-(byte_of_val b), <-(N2Nat.id (byte_val b)). apply H, in_seq.
  pose proof (byte_val_lt b). lia.
Qed.

Lemma blen_app a b : blen (a ++ b) = blen a + blen b.
Proof. unfold blen. rewrite length_app. lia. Qed.

Lemma blen_nil : blen [] = 0.
Proof. done. Qed.

Lemma blen_0 bs : blen bs = 0 -> bs = [].
Proof. unfold blen. destruct bs; [done|]. simpl. lia. Qed.

Lemma length_blen bs : length bs = N.to_nat (blen bs).
Proof. unfold blen. lia. Qed.

(** ** Big-endian encodings *)

Lemma length_be_bytes n v : length (be_bytes n v) = n.
Proof. revert v; induction n; intros v; simpl; [done|]. rewrite length_app, IHn. simpl. lia. Qed.

Lemma from_be_snoc bs b : from_be (bs ++ [b]) = from_be bs * 256 + byte_val b.
Proof. unfold from_be. by rewrite fold_left_app. Qed.

Lemma pow256_pos n : 0 < 256 ^ N.of_nat n.
Proof. apply N.neq_0_lt_0, N.pow_nonzero. lia. Qed.

(** [from_be_bytes (to_be_bytes v)] is [v] modulo the width. *)
Lemma from_be_be_bytes_mod n v : from_be (be_bytes n v) = v mod 256 ^ N.of_nat n.
Proof.
  revert v; induction n as [|n IH]; intros v.
  - simpl be_bytes. by rewrite N.mod_1_r.
  - simpl be_bytes. rewrite from_be_snoc, IH, byte_val_of.
    rewrite Nat2N.inj_succ, N.pow_succ_r by lia.
    rewrite N.Div0.mod_mul_r. lia.
Qed.

Lemma from_be_be_bytes n v : v < 256 ^ N.of_nat n -> from_be (be_bytes n v) = v.
Proof. intros H. by rewrite from_be_be_bytes_mod, N.mod_small. Qed.

Lemma from_be_lt bs : from_be bs < 256 ^ blen bs.
Proof.
  induction bs as [|b bs IH] using rev_ind; [done|].
  rewrite from_be_snoc, blen_app. change (blen [b]) with 1.
  rewrite N.pow_add_r. pose proof (byte_val_lt b). nia.
Qed.

Lemma be_bytes_from_be n bs : length bs = n -> be_bytes n (from_be bs) = bs.
Proof.
  revert bs; induction n as [|n IH]; intros bs Hl.
  - by destruct bs.
  - destruct bs as [|b bs _] using rev_ind; [done|].
    rewrite length_app in Hl; simpl in Hl.
    simpl be_bytes. rewrite from_be_snoc. pose proof (byte_val_lt b).
    replace ((from_be bs * 256 + byte_val b) / 256) with (from_be bs)
      by (rewrite N.div_add_l by lia; rewrite N.div_small by lia; lia).
    rewrite IH by lia. do 2 f_equal.
    unfold byte_of. rewrite N.add_comm, N.Div0.mod_add, N.mod_small by lia.
    unfold byte_val. by rewrite Byte.of_to_N.
Qed.

Lemma be_bytes_inj n v w :
  v < 256 ^ N.of_nat n -> w < 256 ^ N.of_nat n -> be_bytes n v = be_bytes n w -> v = w.
Proof. intros Hv Hw H. rewrite <-(from_be_be_bytes n v), <-(from_be_be_bytes n w) by done. by rewrite H. Qed.

(** ** Hexadecimal *)

Lemma length_hex_encode bs : length (hex_encode bs) = (2 * length bs)%nat.
Proof. unfold hex_encode. induction bs; simpl in *; [done|]. lia. Qed.

Lemma hex_byte_lower b : forallb is_lower_hex (hex_byte b) = true.
Proof. revert b. apply byte_forallb. by vm_compute. Qed.

Lemma hex_encode_cons b bs : hex_encode (b :: bs) = hex_byte b ++ hex_encode bs.
Proof. done. Qed.

Lemma hex_encode_lower bs : forallb is_lower_hex (hex_encode bs) = true.
Proof.
  induction bs as [|b bs IH]; [done|].
  by rewrite hex_encode_cons, forallb_app, hex_byte_lower, IH.
Qed.

(** Reads a pair of digits back; only used to invert [hex_byte]. *)
Definition unhex_digit (d : byte) : N :=
  if is_ascii_digit d then byte_val d - 48 else byte_val d - 87.

Lemma hex_byte_unhex b :
  match hex_byte b with
  | [h; l] => byte_of (16 * unhex_digit h + unhex_digit l) = b
  | _ => False
  end.
Proof.
  set (P b := match hex_byte b with
              | [h; l] => bool_decide (byte_of (16 * unhex_digit h + unhex_digit l) = b)
              | _ => false end).
  assert (H : forall b, P b = true) by (apply byte_forallb; by vm_compute).
  specialize (H b). unfold P in H. destruct (hex_byte b) as [|h [|l [|]]]; try done.
  by apply bool_decide_eq_true in H.
Qed.

Lemma hex_byte_inj a b : hex_byte a = hex_byte b -> a = b.
Proof.
  intros H. pose proof (hex_byte_unhex a) as Ha. pose proof (hex_byte_unhex b) as Hb.
  rewrite H in Ha. destruct (hex_byte b) as [|h [|l [|]]]; try done. congruence.
Qed.

Lemma hex_encode_inj a b : hex_encode a = hex_encode b -> a = b.
Proof.
  revert b; induction a as [|x a IH]; intros [|y b] H; try done.
  rewrite !hex_encode_cons in H. apply app_length_inj in H as [H1 H2]; [|done].
  f_equal; [by apply hex_byte_inj|by apply IH].
Qed.

#[export] Hint Rewrite length_be_bytes blen_app blen_nil @length_app length_hex_encode : blob.
