(* ===== verification/StdIo.v ===== *)
(** * [std::io] as the crate uses it

    Errors, the [Read] and [Write] traits, [read_exact] and [write_all].

    An [impl Read] is given by the finite sequence of answers it has for the
    caller ([reader]); [read] consumes it, and the end of the sequence is the
    end of the input.  Short reads, interrupted calls and errors at any point
    are all such sequences.  An [impl Write] is given by the bytes it has
    accepted and by what its next [write_all] calls answer. *)
From S2P Require Export Bytes.

Local Open Scope N_scope.
Local Open Scope blob_scope.

(** [io::ErrorKind]; [KindOther] stands for the kinds the crate never tests. *)
Inductive ErrorKind :=
| NotFound
| PermissionDenied
| AlreadyExists
| NotADirectory
| IsADirectory
| DirectoryNotEmpty
| UnexpectedEof
| Interrupted
| WriteZero
| StorageFull
| KindOther.

#[export] Instance error_kind_eq_dec : EqDecision ErrorKind.
Proof. solve_decision. Defined.

(** [io::Error]: a kind and, for an error of the operating system, its code. *)
Record io_error := IoError {
  kind : ErrorKind;
  raw_os_error : option Z;
}.

#[export] Instance io_error_eq_dec : EqDecision io_error.
Proof. solve_decision. Defined.

(** [std::io::Error::READ_EXACT_EOF], what [read_exact] returns on early EOF. *)
Definition READ_EXACT_EOF : io_error := IoError UnexpectedEof None.

(** ** [Read] *)

Inductive read_event :=
| RData (bs : bytes)      (* these bytes are available now *)
| RFail (e : io_error).   (* the next call fails *)

Abbreviation reader := (list read_event).

(** The bytes left in the head of the sequence after a call took some. *)
Definition push_data (bs : bytes) (r : reader) : reader :=
  match bs with [] => r | _ => RData bs :: r end.

(** [Read::read] with a buffer of [n] bytes: the bytes stored in the buffer. *)
Definition read (n : N) (r : reader) : result bytes io_error * reader :=
  match r with
  | [] => (Ok [], [])
  | RData bs :: r' =>
      (Ok (take (N.to_nat (N.min n (blen bs))) bs),
       push_data (drop (N.to_nat (N.min n (blen bs))) bs) r')
  | RFail e :: r' => (Err e, r')
  end.

(** [Read::read_exact], the provided method of the trait: reads until the
    buffer of [n] bytes is full, retrying interrupted calls. *)
Fixpoint read_exact_aux (r : reader) (n : N) (acc : bytes) : result bytes io_error * reader :=
  if (n =? 0) then (Ok acc, r)
  else match r with
       | [] => (Err READ_EXACT_EOF, [])
       | RData bs :: r' =>
           if (blen bs =? 0) then (Err READ_EXACT_EOF, r')
           else if (n <=? blen bs)
           then (Ok (acc ++ take (N.to_nat n) bs), push_data (drop (N.to_nat n) bs) r')
           else read_exact_aux r' (n - blen bs) (acc ++ bs)
       | RFail e :: r' =>
           if bool_decide (kind e = Interrupted) then read_exact_aux r' n acc else (Err e, r')
       end.

Definition read_exact (n : N) : eff reader io_error bytes := fun r => read_exact_aux r n [].

(** The bytes a reader delivers before its end. *)
Definition reader_data (r : reader) : bytes :=
  concat (map (fun ev => match ev with RData bs => bs | RFail _ => [] end) r).

(** Readers without a failure other than interruption and without a premature
    end: the readers of the caller's side that behave. *)
Definition read_event_ok (ev : read_event) : bool :=
  match ev with
  | RData bs => negb (blen bs =? 0)
  | RFail e => bool_decide (kind e = Interrupted)
  end.

Definition reader_ok (r : reader) : bool := forallb read_event_ok r.

(** Readers that never fail at all. *)
Definition read_event_calm (ev : read_event) : bool :=
  match ev with RData bs => negb (blen bs =? 0) | RFail _ => false end.

Definition reader_calm (r : reader) : bool := forallb read_event_calm r.

(** Readers without a premature end: no call answers [Ok(0)] before the end. *)
Definition read_event_dense (ev : read_event) : bool :=
  match ev with RData bs => negb (blen bs =? 0) | RFail _ => true end.

Definition reader_dense (r : reader) : bool := forallb read_event_dense r.

(** ** [Write] *)

(** [wr_plan] lists what the next calls of [write_all] do: [None] is success,
    [Some (n, e)] stores [n] bytes and fails with [e]; past its end every call
    succeeds. *)
Record writer := Writer {
  wr_data : bytes;
  wr_plan : list (option (N * io_error));
}.

Definition write_all (bs : bytes) : eff writer io_error unit := fun w =>
  match wr_plan w with
  | Some (n, e) :: plan => (Err e, Writer (wr_data w ++ take (N.to_nat n) bs) plan)
  | None :: plan => (Ok tt, Writer (wr_data w ++ bs) plan)
  | [] => (Ok tt, Writer (wr_data w ++ bs) [])
  end.

(** A writer with no failure ahead. *)
Definition writer_ok (w : writer) : bool :=
  forallb (fun o => match o with None => true | Some _ => false end) (wr_plan w).

(** ** Lemmas on readers *)

Lemma reader_data_cons ev r :
  reader_data (ev :: r) = match ev with RData bs => bs | RFail _ => [] end ++ reader_data r.
Proof. done. Qed.

Lemma reader_data_push bs r : reader_data (push_data bs r) = bs ++ reader_data r.
Proof. by destruct bs. Qed.

Lemma reader_ok_push bs r : reader_ok r = true -> reader_ok (push_data bs r) = true.
Proof. by destruct bs. Qed.

Lemma reader_calm_push bs r : reader_calm r = true -> reader_calm (push_data bs r) = true.
Proof. by destruct bs. Qed.

Lemma reader_dense_push bs r : reader_dense r = true -> reader_dense (push_data bs r) = true.
Proof. by destruct bs. Qed.

Lemma reader_calm_ok r : reader_calm r = true -> reader_ok r = true.
Proof.
  unfold reader_calm, reader_ok. rewrite !forallb_forall. intros H x Hx.
  specialize (H x Hx). by destruct x.
Qed.

Lemma reader_calm_tail ev r : reader_calm (ev :: r) = true -> reader_calm r = true.
Proof. intros H. by apply andb_prop in H as [_ ?]. Qed.

(** A call of [read] takes a prefix of the data. *)
Lemma read_prefix n r bs r' :
  read n r = (Ok bs, r') -> reader_data r = bs ++ reader_data r' /\ blen bs <= n.
Proof.
  destruct r as [|[d|e] r]; simpl; intros; simplify_eq; [split; [done|unfold blen; simpl; lia]| ].
  rewrite reader_data_push, app_assoc, take_drop. split; [done|].
  unfold blen. rewrite length_take. lia.
Qed.

Lemma read_calm n r :
  reader_calm r = true -> 0 < n ->
  exists bs r', read n r = (Ok bs, r') /\ reader_data r = bs ++ reader_data r' /\
    reader_calm r' = true /\ blen bs <= n /\ (bs = [] <-> reader_data r = []).
Proof.
  destruct r as [|[d|e] r]; simpl; intros H Hn;
    [exists [], []; repeat split; try done; unfold blen; simpl; lia| |done].
  apply andb_prop in H as [Hd Hr]. apply negb_true_iff, N.eqb_neq in Hd.
  eexists _, _. split; [done|].
  rewrite reader_data_push, app_assoc, take_drop. split; [done|].
  split; [by apply reader_calm_push|].
  split; [unfold blen; rewrite length_take; lia|].
  rewrite reader_data_cons. unfold blen in *.
  split; intros E; apply (f_equal length) in E;
    rewrite ?length_app, ?length_take in E; simpl in E; lia.
Qed.

(** At the end of its data a calm reader answers [Ok(0)]. *)
Lemma read_calm_end n r :
  reader_calm r = true -> reader_data r = [] -> read n r = (Ok [], []).
Proof.
  destruct r as [|[d|e] r]; simpl; intros H E; [done| |done].
  apply andb_prop in H as [Hd _]. apply negb_true_iff, N.eqb_neq in Hd.
  rewrite reader_data_cons in E. apply app_nil in E as [-> _]. done.
Qed.

Lemma read_calm_more n r :
  reader_calm r = true -> 0 < n -> reader_data r <> [] ->
  exists bs r', read n r = (Ok bs, r') /\ reader_data r = bs ++ reader_data r' /\
    reader_calm r' = true /\ 0 < blen bs <= n.
Proof.
  intros H Hn Hd. destruct (read_calm n r H Hn) as (bs & r' & E & D & C & L & I).
  exists bs, r'. repeat split; try done.
  destruct bs; [by destruct Hd; apply I|]. unfold blen. simpl. lia.
Qed.

(** *** [read_exact] *)

(** The equation of the provided method: one call of [read], then the rest. *)
Lemma read_exact_aux_unfold r n acc :
  read_exact_aux r n acc =
    if (n =? 0) then (Ok acc, r)
    else match read n r with
         | (Ok bs, r') =>
             if (blen bs =? 0) then (Err READ_EXACT_EOF, r')
             else read_exact_aux r' (n - blen bs) (acc ++ bs)
         | (Err e, r') =>
             if bool_decide (kind e = Interrupted) then read_exact_aux r' n acc else (Err e, r')
         end.
Proof.
  destruct r as [|[bs|e] r]; cbn -[N.eqb N.leb blen reader_data reader_calm]; destruct (n =? 0) eqn:E0; try done.
  apply N.eqb_neq in E0. destruct (blen bs =? 0) eqn:E1; reflect_bools.
  - apply blen_0 in E1; subst. by rewrite take_nil, drop_nil.
  - destruct (n <=? blen bs) eqn:E2; reflect_bools.
    + rewrite N.min_l by done.
      assert (blen (take (N.to_nat n) bs) = n) as ->.
      { unfold blen in *. rewrite length_take. lia. }
      destruct (n =? 0) eqn:?; reflect_bools; [lia|]. rewrite N.sub_diag.
      by destruct (push_data _ r) as [|[]].
    + rewrite N.min_r by lia. rewrite take_ge, drop_ge by (unfold blen in *; lia).
      destruct (blen bs =? 0) eqn:?; reflect_bools; [lia|]. done.
Qed.

(** On success exactly [n] bytes, the next ones, have been read. *)
Lemma read_exact_aux_ok r n acc bs r' :
  read_exact_aux r n acc = (Ok bs, r') ->
  exists d, bs = acc ++ d /\ reader_data r = d ++ reader_data r' /\ blen d = n.
Proof.
  revert n acc; induction r as [|[d|e] r IH]; intros n acc; cbn -[N.eqb N.leb blen reader_data reader_calm];
    destruct (n =? 0) eqn:E0; intros H; reflect_bools; simplify_eq;
    try (exists []; by rewrite app_nil_r).
  - destruct (blen d =? 0) eqn:E1; [done|]. destruct (n <=? blen d) eqn:E2; reflect_bools.
    + simplify_eq. exists (take (N.to_nat n) d). split; [done|].
      rewrite reader_data_push, app_assoc, take_drop. split; [done|].
      unfold blen in *. rewrite length_take. lia.
    + apply IH in H as (d' & -> & Hr & Hl). exists (d ++ d').
      rewrite reader_data_cons, Hr, !app_assoc. repeat split; try done.
      rewrite blen_app. lia.
  - destruct (bool_decide _); [|done]. by apply IH in H.
Qed.

(** Behaved readers: enough data is read, too little is an early EOF. *)
Lemma read_exact_aux_some r n acc :
  reader_ok r = true -> n <= blen (reader_data r) ->
  exists r', read_exact_aux r n acc = (Ok (acc ++ take (N.to_nat n) (reader_data r)), r') /\
    reader_data r' = drop (N.to_nat n) (reader_data r) /\ reader_ok r' = true /\
    (reader_calm r = true -> reader_calm r' = true).
Proof.
  revert n acc; induction r as [|[d|e] r IH]; intros n acc H Hn; cbn -[N.eqb N.leb blen reader_data reader_calm];
    destruct (n =? 0) eqn:E0; reflect_bools; subst;
    try (eexists; split; [by rewrite app_nil_r|done]).
  - change (blen (reader_data [])) with 0 in Hn. lia.
  - simpl in H. apply andb_prop in H as [Hd Hr]. apply negb_true_iff in Hd. rewrite Hd.
    rewrite reader_data_cons in *. rewrite blen_app in Hn.
    destruct (n <=? blen d) eqn:E2; reflect_bools.
    + eexists. split; [|split; [|split]].
      * rewrite take_app_le by (unfold blen in *; lia). done.
      * rewrite reader_data_push, drop_app_le by (unfold blen in *; lia). done.
      * by apply reader_ok_push.
      * intros C. by apply reader_calm_push, (reader_calm_tail (RData d)).
    + destruct (IH (n - blen d) (acc ++ d) Hr) as (r' & -> & Hd' & Hok & Hc); [lia|].
      exists r'. rewrite Hd'. repeat split; try done.
      * rewrite take_app_ge by (unfold blen in *; lia).
        rewrite app_assoc. unfold blen in *. do 4 f_equal. lia.
      * rewrite drop_app_ge by (unfold blen in *; lia). f_equal. unfold blen in *. lia.
      * eauto using reader_calm_tail.
  - simpl in H. apply andb_prop in H as [He Hr]. rewrite He.
    destruct (IH n acc Hr) as (r' & -> & Hd' & Hok & Hc); [done|].
    exists r'. rewrite reader_data_cons. repeat split; eauto using reader_calm_tail.
Qed.

Lemma read_exact_aux_eof r n acc :
  reader_ok r = true -> blen (reader_data r) < n ->
  read_exact_aux r n acc = (Err READ_EXACT_EOF, []).
Proof.
  revert n acc; induction r as [|[d|e] r IH]; intros n acc H Hn; cbn -[N.eqb N.leb blen reader_data reader_calm];
    destruct (n =? 0) eqn:E0; reflect_bools; subst; try lia; try done.
  - simpl in H. apply andb_prop in H as [Hd Hr]. apply negb_true_iff in Hd. rewrite Hd.
    rewrite reader_data_cons, blen_app in Hn.
    destruct (n <=? blen d) eqn:E2; reflect_bools; [lia|]. apply IH; [done|lia].
  - simpl in H. apply andb_prop in H as [He Hr]. rewrite He. by apply IH.
Qed.

Lemma read_exact_aux_0 r acc : read_exact_aux r 0 acc = (Ok acc, r).
Proof. by destruct r as [|[]]. Qed.

(** One piece of data, whole or partly used. *)
Lemma read_exact_aux_data d r n acc :
  read_exact_aux (push_data d r) n acc =
    if (n <=? blen d) then (Ok (acc ++ take (N.to_nat n) d), push_data (drop (N.to_nat n) d) r)
    else read_exact_aux r (n - blen d) (acc ++ d).
Proof.
  destruct (decide (d = [])) as [->|Hd].
  - change (blen []) with 0. rewrite take_nil, drop_nil, app_nil_r, N.sub_0_r. simpl push_data.
    destruct (n <=? 0) eqn:E; reflect_bools; [|done].
    assert (n = 0) as -> by lia. apply read_exact_aux_0.
  - assert (push_data d r = RData d :: r) as -> by by destruct d.
    assert (Hb : blen d <> 0) by (intros E; by apply blen_0 in E).
    cbn -[N.eqb N.leb blen]. destruct (n =? 0) eqn:E0; reflect_bools.
    + subst. destruct (0 <=? blen d) eqn:?; reflect_bools; [|lia].
      simpl. rewrite app_nil_r. by destruct d.
    + by destruct (blen d =? 0) eqn:?; reflect_bools.
Qed.

(** Reading [a + b] bytes at once is reading [a] and then [b]. *)
Lemma read_exact_aux_split r a b acc :
  read_exact_aux r (a + b) acc =
    match read_exact_aux r a acc with
    | (Ok bs, r') => read_exact_aux r' b bs
    | (Err e, r') => (Err e, r')
    end.
Proof.
  revert a acc; induction r as [|[d|e] r IH]; intros a acc;
    destruct (decide (a = 0)) as [->|Ha]; try by rewrite read_exact_aux_0, N.add_0_l.
  - cbn -[N.eqb N.add]. destruct (a =? 0) eqn:?, (a + b =? 0) eqn:?; reflect_bools; done || lia.
  - destruct (decide (d = [])) as [->|Hd].
    { cbn -[N.eqb N.add]. by destruct (a =? 0) eqn:?, (a + b =? 0) eqn:?; reflect_bools; try lia. }
    assert (RData d :: r = push_data d r) as -> by by destruct d.
    rewrite !read_exact_aux_data. destruct (a <=? blen d) eqn:?; reflect_bools.
    + rewrite read_exact_aux_data, <-!app_assoc. unfold blen in *. rewrite length_drop.
      destruct (a + b <=? _) eqn:?, (b <=? N.of_nat (length d - _)) eqn:?; reflect_bools; try lia.
      * replace (N.to_nat (a + b)) with (N.to_nat a + N.to_nat b)%nat by lia.
        by rewrite take_take_drop, drop_drop.
      * rewrite take_drop. f_equal. lia.
    + destruct (a + b <=? blen d) eqn:?; reflect_bools; [lia|].
      replace (a + b - blen d) with (a - blen d + b) by lia. apply IH.
  - cbn -[N.eqb N.add]. destruct (a =? 0) eqn:?, (a + b =? 0) eqn:?; reflect_bools; try lia.
    destruct (bool_decide _); [apply IH|done].
Qed.

Lemma read_exact_aux_acc r n acc :
  read_exact_aux r n acc = let (x, r') := read_exact_aux r n [] in (map_ok (app acc) x, r').
Proof.
  assert (H : forall acc acc', read_exact_aux r n (acc ++ acc') =
    let (x, r') := read_exact_aux r n acc' in (map_ok (app acc) x, r')).
  { revert n; induction r as [|[d|e] r IH]; intros n a a'; cbn -[N.eqb N.leb blen reader_data reader_calm];
      destruct (n =? 0); try done.
    - destruct (blen d =? 0); [done|]. destruct (n <=? blen d).
      + simpl. by rewrite app_assoc.
      + rewrite <-app_assoc. apply IH.
    - destruct (bool_decide _); [apply IH|done]. }
  rewrite <-(app_nil_r acc) at 1. apply H.
Qed.

Lemma read_exact_aux_dense r n acc :
  reader_dense r = true -> reader_dense (snd (read_exact_aux r n acc)) = true.
Proof.
  revert n acc; induction r as [|[d|e] r IH]; intros n acc H;
    cbn -[N.eqb N.leb blen reader_dense]; destruct (n =? 0); try done;
    apply andb_prop in H as [Hd Hr].
  - destruct (blen d =? 0); [done|]. destruct (n <=? blen d); [|by apply IH].
    by apply reader_dense_push.
  - destruct (bool_decide _); [by apply IH|done].
Qed.

Lemma read_dense_end n r r' :
  reader_dense r = true -> 0 < n -> read n r = (Ok [], r') -> r = [] /\ r' = [].
Proof.
  destruct r as [|[d|e] r]; simpl; intros H Hn E; simplify_eq; [done|].
  apply andb_prop in H as [Hd _]. apply negb_true_iff, N.eqb_neq in Hd.
  match goal with E : take _ _ = [] |- _ => apply (f_equal length) in E;
    rewrite length_take in E; unfold blen in *; simpl in E; lia end.
Qed.

(** *** [read_exact], the interface the format layer uses *)

Lemma read_exact_ok n r bs r' :
  read_exact n r = (Ok bs, r') -> reader_data r = bs ++ reader_data r' /\ blen bs = n.
Proof. intros H. apply read_exact_aux_ok in H as (d & -> & H1 & H2). done. Qed.

Lemma read_exact_app r d rest :
  reader_ok r = true -> reader_data r = d ++ rest ->
  exists r', read_exact (blen d) r = (Ok d, r') /\ reader_data r' = rest /\
    reader_ok r' = true /\ (reader_calm r = true -> reader_calm r' = true).
Proof.
  intros H E. unfold read_exact.
  destruct (read_exact_aux_some r (blen d) [] H) as (r' & -> & Hd & Hok & Hc).
  { rewrite E, blen_app. lia. }
  exists r'. rewrite E in *. unfold blen in *. rewrite Nat2N.id in *.
  rewrite take_app_length. rewrite drop_app_length in Hd. done.
Qed.

Lemma read_exact_eof n r :
  reader_ok r = true -> blen (reader_data r) < n ->
  read_exact n r = (Err READ_EXACT_EOF, []).
Proof. apply read_exact_aux_eof. Qed.

Lemma read_exact_0 r : read_exact 0 r = (Ok [], r).
Proof. by destruct r as [|[]]. Qed.

Lemma read_exact_split r a b :
  read_exact (a + b) r =
    match read_exact a r with
    | (Ok bs, r') => let (x, r'') := read_exact b r' in (map_ok (app bs) x, r'')
    | (Err e, r') => (Err e, r')
    end.
Proof.
  unfold read_exact. rewrite read_exact_aux_split.
  destruct (read_exact_aux r a []) as [[bs|e] r']; [|done]. apply read_exact_aux_acc.
Qed.

(** ** Lemmas on writers *)

Lemma write_all_ok bs w :
  writer_ok w = true ->
  exists w', write_all bs w = (Ok tt, w') /\ wr_data w' = wr_data w ++ bs /\ writer_ok w' = true.
Proof.
  unfold write_all, writer_ok. destruct (wr_plan w) as [|[[n e]|] plan]; intros H; try done;
    eexists; split; done.
Qed.

(** Success appends everything, failure a prefix. *)
Lemma write_all_result bs w x w' :
  write_all bs w = (x, w') ->
  match x with
  | Ok _ => wr_data w' = wr_data w ++ bs
  | Err _ => exists n, wr_data w' = wr_data w ++ take n bs
  end.
Proof.
  unfold write_all. destruct (wr_plan w) as [|[[n e]|] plan]; intros; simplify_eq/=; eauto.
Qed.
