(* ===== verification/Config.v ===== *)
(** * Store configuration ([src/src/config.rs])

    Constants, the format identity with its validation, the store options and
    the configuration errors. *)
From S2P Require Export Bytes.

Local Open Scope N_scope.
Local Open Scope blob_scope.

Definition DOMAIN_TAG_LEN : N := 8.
Definition ENVELOPE_VERSION_V1 : N := 1.
Definition MAX_FILENAME_SUFFIX_LEN : N := 32.
Definition HEADER_LEN : N := 18.
Definition CHECKSUM_LEN : N := 4.
Definition STREAM_CHUNK_SIZE : N := 64 * 1024.
Definition STREAM_CHANNEL_CAPACITY : N := 2.
Definition DEFAULT_MAX_BLOB_SIZE : N := 64 * 1024 * 1024.
Definition DEFAULT_MAX_CONCURRENT_OPERATIONS : positive := 4.

Inductive AtomicBlobStoreConfigError :=
| InvalidDomainTagLength (found : N)
| InvalidFilenameSuffix
| UnsupportedConfiguredEnvelopeVersion (found : N)
| InvalidNamespace
| InvalidMaximumBlobSize (maximum : N).

#[export] Instance config_error_eq_dec : EqDecision AtomicBlobStoreConfigError.
Proof. solve_decision. Defined.

Record BlobFormatIdentity := {
  domain_tag : bytes;
  filename_suffix : bytes;
  envelope_version : N;
}.

#[export] Instance format_eq_dec : EqDecision BlobFormatIdentity.
Proof. solve_decision. Defined.

(** The byte test of [validate_suffix]: [a-z], [0-9], [_] or [-]. *)
Definition suffix_byte (b : byte) : bool :=
  is_ascii_lowercase b || is_ascii_digit b ||
  bool_decide (b = Byte.x5f) || bool_decide (b = Byte.x2d).

Definition starts_with (prefix s : bytes) : bool :=
  bool_decide (take (length prefix) s = prefix).

Definition valid_suffix (suffix : bytes) : bool :=
  ((2 <=? blen suffix) && (blen suffix <=? MAX_FILENAME_SUFFIX_LEN)) &&
  starts_with (bstr ".") suffix && forallb suffix_byte (drop 1 suffix).

Definition validate_suffix (suffix : bytes) : result unit AtomicBlobStoreConfigError :=
  if valid_suffix suffix then Ok tt else Err InvalidFilenameSuffix.

(** [BlobFormatIdentity::new]. *)
Definition BlobFormatIdentity_new (domain suffix : bytes) (version : N)
    : result BlobFormatIdentity AtomicBlobStoreConfigError :=
  if negb (blen domain =? DOMAIN_TAG_LEN) then Err (InvalidDomainTagLength (blen domain))
  else
    let? _ := validate_suffix suffix in
    if negb (version =? ENVELOPE_VERSION_V1)
    then Err (UnsupportedConfiguredEnvelopeVersion version)
    else Ok {| domain_tag := domain; filename_suffix := suffix; envelope_version := version |}.

(** [NonZeroUsize] is [positive]; the bound of [usize] is in [valid_options]. *)
Record AtomicBlobStoreOptions := {
  options_format : BlobFormatIdentity;
  max_blob_size : N;
  max_concurrent_operations : positive;
}.

(** [AtomicBlobStoreOptions::new] and the two builders. *)
Definition AtomicBlobStoreOptions_new (format : BlobFormatIdentity) : AtomicBlobStoreOptions :=
  {| options_format := format;
     max_blob_size := DEFAULT_MAX_BLOB_SIZE;
     max_concurrent_operations := DEFAULT_MAX_CONCURRENT_OPERATIONS |}.

Definition with_max_blob_size (maximum : N) (o : AtomicBlobStoreOptions) : AtomicBlobStoreOptions :=
  {| options_format := options_format o;
     max_blob_size := maximum;
     max_concurrent_operations := max_concurrent_operations o |}.

Definition with_max_concurrent_operations (maximum : positive) (o : AtomicBlobStoreOptions)
    : AtomicBlobStoreOptions :=
  {| options_format := options_format o;
     max_blob_size := max_blob_size o;
     max_concurrent_operations := maximum |}.

(** The invariant of every [BlobFormatIdentity] value: the fields are private
    and [new] is the only constructor. *)
Definition valid_format (f : BlobFormatIdentity) : Prop :=
  blen (domain_tag f) = DOMAIN_TAG_LEN /\
  valid_suffix (filename_suffix f) = true /\
  envelope_version f = ENVELOPE_VERSION_V1.

#[export] Instance valid_format_dec f : Decision (valid_format f).
Proof. unfold valid_format. apply _. Defined.

Lemma format_new_ok d s v f :
  BlobFormatIdentity_new d s v = Ok f ->
  valid_format f /\ domain_tag f = d /\ filename_suffix f = s /\ envelope_version f = v.
Proof.
  unfold BlobFormatIdentity_new, validate_suffix, valid_format. intros H. break.
  reflect_bools. done.
Qed.

Lemma valid_format_version f : valid_format f -> envelope_version f < 2 ^ 16.
Proof. intros (_ & _ & ->). done. Qed.

(** A valid suffix is a dot and then safe bytes, none of them a dot, a slash
    or a NUL. *)
Lemma valid_suffix_shape s :
  valid_suffix s = true ->
  exists t, s = Byte.x2e :: t /\ forallb suffix_byte t = true /\ t <> [] /\ (length t <= 31)%nat.
Proof.
  unfold valid_suffix, starts_with, MAX_FILENAME_SUFFIX_LEN.
  change (bstr ".") with [Byte.x2e]. intros H. reflect_bools.
  destruct s as [|b t]; [done|]. unfold blen in *. cbn [length take drop] in *.
  simplify_eq. exists t. split_and!; try done; [|lia]. intros ->. cbn [length] in *. lia.
Qed.

Lemma suffix_byte_spec b :
  suffix_byte b = true -> b <> Byte.x2e /\ b <> Byte.x2f /\ b <> Byte.x00 /\ is_ascii b = true.
Proof.
  set (P b := negb (suffix_byte b) || (negb (bool_decide (b = Byte.x2e)) &&
    negb (bool_decide (b = Byte.x2f)) && negb (bool_decide (b = Byte.x00)) && is_ascii b)).
  assert (H : forall b, P b = true) by (apply byte_forallb; by vm_compute).
  specialize (H b). unfold P in H. intros E. rewrite E in H. simpl in H.
  reflect_bools. done.
Qed.

(** Exactly the documented identities are accepted, and the first failing
    rule, in the order domain, suffix, version, names the error. *)
Theorem format_new_spec d s v :
  BlobFormatIdentity_new d s v =
    if decide (blen d <> 8) then Err (InvalidDomainTagLength (blen d))
    else if decide (valid_suffix s = false) then Err InvalidFilenameSuffix
    else if decide (v <> 1) then Err (UnsupportedConfiguredEnvelopeVersion v)
    else Ok {| domain_tag := d; filename_suffix := s; envelope_version := v |}.
Proof.
  unfold BlobFormatIdentity_new, validate_suffix, DOMAIN_TAG_LEN, ENVELOPE_VERSION_V1.
  destruct (blen d =? 8) eqn:?, (valid_suffix s) eqn:?, (v =? 1) eqn:?; reflect_bools;
    repeat case_decide; simpl; done.
Qed.
