(* ===== verification/Errors.v ===== *)
(** * Results and errors of the store ([src/src/error.rs])

    The public result records, the failing operation of an I/O error, the
    envelope sections and the error type every layer above reports. *)
From S2P Require Export Config StdIo.

Local Open Scope N_scope.
Local Open Scope blob_scope.

(** A point in time, in nanoseconds since the Unix epoch. *)
Abbreviation SystemTime := Z (only parsing).
(** A [Duration], in nanoseconds. *)
Abbreviation Duration := N (only parsing).

(** A path as the bytes of its [OsStr]. *)
Abbreviation Path := (list Byte.byte) (only parsing).

(** [getrandom::Error]: a code of a crate outside the repository. *)
Abbreviation getrandom_error := N (only parsing).

Inductive BlobState := Absent | Present.

Record BlobInspection := {
  inspection_state : BlobState;
  inspection_size : option N;
  inspection_modified : option SystemTime;
}.

Record BlobMetadata := { payload_len : N }.

Record QuarantineInfo := {
  identifier : bytes;
  diagnostic_path : Path;
}.

Record CleanupFailure := {
  failure_identifier : bytes;
  failure_source : io_error;
}.

Record CleanupReport := {
  removed : list bytes;
  skipped : list bytes;
  failures : list CleanupFailure;
}.

Definition CleanupReport_default : CleanupReport :=
  {| removed := []; skipped := []; failures := [] |}.

Inductive StoreOperation :=
| ResolveCurrentDirectory
| NormalizeRoot
| StartInitialization
| StartCoordinator
| InspectRoot
| InspectNamespace
| CreateNamespace
| OpenRootDirectory
| SyncRootDirectory
| OpenBlob
| ReadEnvelope
| OpenAtomicWriter
| WriteEnvelope
| RemoveBlob
| OpenNamespaceDirectory
| SyncNamespaceDirectory
| InspectBlob
| QuarantineBlob
| GenerateIdentifier
| EnumerateTemporaryFiles
| RemoveTemporaryFile
| RefreshClearStagingAge.

(** [impl Display for StoreOperation]. *)
Definition StoreOperation_fmt (o : StoreOperation) : bytes :=
  bstr match o with
  | ResolveCurrentDirectory => "resolve the current directory"
  | NormalizeRoot => "normalize the configured root path"
  | StartInitialization => "start store initialization"
  | StartCoordinator => "start the blob-store coordinator"
  | InspectRoot => "inspect configured root"
  | InspectNamespace => "inspect namespace directory"
  | CreateNamespace => "create namespace directory"
  | OpenRootDirectory => "open configured root directory"
  | SyncRootDirectory => "synchronize configured root directory"
  | OpenBlob => "open blob"
  | ReadEnvelope => "read blob envelope"
  | OpenAtomicWriter => "open atomic blob writer"
  | WriteEnvelope => "write blob envelope"
  | RemoveBlob => "remove blob"
  | OpenNamespaceDirectory => "open namespace directory"
  | SyncNamespaceDirectory => "synchronize namespace directory"
  | InspectBlob => "inspect blob"
  | QuarantineBlob => "quarantine blob"
  | GenerateIdentifier => "generate a diagnostic identifier"
  | EnumerateTemporaryFiles => "enumerate owned temporary files"
  | RemoveTemporaryFile => "remove an owned temporary file"
  | RefreshClearStagingAge => "refresh clear-staging age"
  end%string.

Inductive EnvelopeSection := Magic | Version | PayloadLength | Payload | Checksum.

(** [impl Display for EnvelopeSection]. *)
Definition EnvelopeSection_fmt (s : EnvelopeSection) : bytes :=
  bstr match s with
  | Magic => "magic"
  | Version => "version"
  | PayloadLength => "payload length"
  | Payload => "payload"
  | Checksum => "checksum"
  end%string.

Inductive AtomicBlobStoreError :=
| Configuration (e : AtomicBlobStoreConfigError)
| Io (operation : StoreOperation) (source : io_error)
| AtomicCommit (source : io_error)
| RootDoesNotExist
| RootIsNotDirectory
| NamespacePathIsNotDirectory
| InvalidEnvelopeDomain (expected found : bytes)
| UnsupportedEnvelopeVersion (found : N)
| TruncatedEnvelope (section : EnvelopeSection)
| BlobTooLarge (size maximum : N)
| InvalidPayloadLength (declared : N)
| TrailingData
| ChecksumMismatch (expected actual : N)
| InputEndedEarly (declared actual : N)
| InputHasTrailingData (declared : N)
| InputIo (source : io_error)
| OutputIo (source : io_error)
| StreamCancelled
| UnsupportedPlatform (platform : bytes)
| CoordinationFailure
| StoreClosed
| EngineFailed
| WorkerUnavailable
| ShutdownFailure
| QuarantineSourceMissing
| QuarantineCommit (source : io_error)
| QuarantineNamespaceSync (quarantine : QuarantineInfo) (source : io_error)
| CleanupUnsupported (platform : bytes)
| InvalidCleanupAge
| IdentifierGeneration (source : getrandom_error)
| UnexpectedFileType
| MaintenanceCoordinationFailure.

(** What the crate reads of its compilation target. *)
Class Target := {
  pointer_width : PointerWidth;
  target_os : bytes;   (* [std::env::consts::OS] *)
}.

#[export] Instance blob_state_eq_dec : EqDecision BlobState.
Proof. solve_decision. Defined.
#[export] Instance quarantine_info_eq_dec : EqDecision QuarantineInfo.
Proof. solve_decision. Defined.
#[export] Instance store_operation_eq_dec : EqDecision StoreOperation.
Proof. solve_decision. Defined.
#[export] Instance envelope_section_eq_dec : EqDecision EnvelopeSection.
Proof. solve_decision. Defined.
#[export] Instance store_error_eq_dec : EqDecision AtomicBlobStoreError.
Proof. solve_decision. Defined.

(** Every value of the two enumerations, in declaration order. *)
Definition store_operations : list StoreOperation :=
  [ResolveCurrentDirectory; NormalizeRoot; StartInitialization; StartCoordinator;
   InspectRoot; InspectNamespace; CreateNamespace; OpenRootDirectory; SyncRootDirectory;
   OpenBlob; ReadEnvelope; OpenAtomicWriter; WriteEnvelope; RemoveBlob;
   OpenNamespaceDirectory; SyncNamespaceDirectory; InspectBlob; QuarantineBlob;
   GenerateIdentifier; EnumerateTemporaryFiles; RemoveTemporaryFile; RefreshClearStagingAge].

Lemma store_operations_complete o : o ∈ store_operations.
Proof. destruct o; unfold store_operations; set_solver. Qed.

(** The diagnostic names tell the operations apart. *)
Lemma StoreOperation_fmt_inj o1 o2 : StoreOperation_fmt o1 = StoreOperation_fmt o2 -> o1 = o2.
Proof.
  assert (H : forallb (fun a => forallb (fun b =>
    bool_decide (StoreOperation_fmt a = StoreOperation_fmt b -> a = b)) store_operations)
    store_operations = true) by by vm_compute.
  rewrite forallb_forall in H.
  specialize (H o1 (proj1 (list_elem_of_In _ _) (store_operations_complete o1))).
  rewrite forallb_forall in H.
  specialize (H o2 (proj1 (list_elem_of_In _ _) (store_operations_complete o2))).
  by apply bool_decide_eq_true in H.
Qed.
