(* ===== verification/Paths.v ===== *)
(** * Paths and names ([src/src/path.rs])

    [std::path] on Unix as the crate uses it (components, join, file stem,
    conversion to UTF-8), the BLAKE3 interface, the canonical blob name and the
    namespace rule. *)
From S2P Require Export Errors.

Local Open Scope N_scope.
Local Open Scope blob_scope.

(** ** [std::path] on Unix *)

Definition SLASH : byte := Byte.x2f.
Definition DOT : byte := Byte.x2e.

Definition is_sep (b : byte) : bool := bool_decide (b = SLASH).

(** Splits at every separator, as [[u8]::split] does: never empty. *)
Fixpoint split_slash (p : bytes) : list bytes :=
  match p with
  | [] => [[]]
  | b :: p' =>
      if is_sep b then [] :: split_slash p'
      else match split_slash p' with
           | seg :: segs => (b :: seg) :: segs
           | [] => [[b]]
           end
  end.

Inductive Component := RootDir | CurDir | ParentDir | Normal (c : bytes).

#[export] Instance component_eq_dec : EqDecision Component.
Proof. solve_decision. Defined.

Definition has_root (p : Path) : bool :=
  match p with b :: _ => is_sep b | [] => false end.

(** A segment after the first: empty segments and [.] disappear. *)
Definition parse_component (seg : bytes) : option Component :=
  if decide (seg = []) then None
  else if decide (seg = [DOT]) then None
  else if decide (seg = [DOT; DOT]) then Some ParentDir
  else Some (Normal seg).

(** [Path::components]: a leading [.] of a relative path is kept. *)
Definition components (p : Path) : list Component :=
  match split_slash p with
  | [] => []
  | seg :: segs =>
      (if has_root p then [RootDir]
       else if decide (seg = [DOT]) then [CurDir]
       else match parse_component seg with Some c => [c] | None => [] end)
      ++ omap parse_component segs
  end.

Definition is_relative (p : Path) : bool := negb (has_root p).

(** [Path::join], that is [PathBuf::push] on a copy. *)
Definition path_join (base p : Path) : Path :=
  if has_root p then p
  else match last base with
       | Some b => if is_sep b then base ++ p else base ++ [SLASH] ++ p
       | None => p
       end.

(** [std::path] differs between the systems.  [std_join] is [Path::join], and
    [sole_component] the name of a path with one component, which is normal. *)
Class StdPath := {
  std_join : Path -> Path -> Path;
  sole_component : Path -> option bytes;
}.

Definition unix_path : StdPath := {|
  std_join := path_join;
  sole_component p := match components p with [Normal c] => Some c | _ => None end;
|}.

(** [Path::file_name]. *)
Definition file_name (p : Path) : option bytes :=
  match last (components p) with Some (Normal c) => Some c | _ => None end.

(** The part of a name before its last dot, and the part after it. *)
Fixpoint rsplit_dot (name : bytes) : option (bytes * bytes) :=
  match name with
  | [] => None
  | b :: rest =>
      match rsplit_dot rest with
      | Some (before, after) => Some (b :: before, after)
      | None => if decide (b = DOT) then Some ([], rest) else None
      end
  end.

(** [Path::file_stem], by way of std's [rsplit_file_at_dot]. *)
Definition file_stem (p : Path) : option bytes :=
  match file_name p with
  | None => None
  | Some name =>
      if decide (name = [DOT; DOT]) then Some name
      else match rsplit_dot name with
           | Some ([], _) | None => Some name
           | Some (before, _) => Some before
           end
  end.

(** [str::from_utf8], as far as [OsStr::to_str] needs it. *)
Definition cont_byte (b : byte) : bool := (128 <=? byte_val b) && (byte_val b <=? 191).
Definition in_range (lo hi : N) (b : byte) : bool := (lo <=? byte_val b) && (byte_val b <=? hi).

Fixpoint utf8_valid (s : bytes) : bool :=
  match s with
  | [] => true
  | b :: s1 =>
      if is_ascii b then utf8_valid s1
      else match s1 with
      | b2 :: s2 =>
          if in_range 194 223 b then cont_byte b2 && utf8_valid s2
          else match s2 with
          | b3 :: s3 =>
              if in_range 224 239 b then
                (if byte_val b =? 224 then in_range 160 191 b2
                 else if byte_val b =? 237 then in_range 128 159 b2
                 else cont_byte b2) && cont_byte b3 && utf8_valid s3
              else match s3 with
              | b4 :: s4 =>
                  in_range 240 244 b &&
                  (if byte_val b =? 240 then in_range 144 191 b2
                   else if byte_val b =? 244 then in_range 128 143 b2
                   else cont_byte b2) && cont_byte b3 && cont_byte b4 && utf8_valid s4
              | [] => false
              end
          | [] => false
          end
      | [] => false
      end
  end.

Definition to_str (s : bytes) : option bytes := if utf8_valid s then Some s else None.

(** ** BLAKE3

    The [blake3] crate: [blake3::hash(key).as_bytes()] and the hexadecimal
    rendering [Hash::to_hex] of such a digest. *)
Class Blake3 := {
  blake3_hash : bytes -> bytes;
  blake3_to_hex : bytes -> bytes;
}.

(** What the crate documents: 32-byte digests, rendered as 64 lowercase
    hexadecimal characters, one rendering per digest. *)
Class Blake3Laws `{Blake3} : Prop := {
  blake3_hash_length k : length (blake3_hash k) = 32%nat;
  blake3_hex_length d : length d = 32%nat -> length (blake3_to_hex d) = 64%nat;
  blake3_hex_lower d : length d = 32%nat -> forallb is_lower_hex (blake3_to_hex d) = true;
  blake3_hex_inj d1 d2 : length d1 = 32%nat -> length d2 = 32%nat ->
    blake3_to_hex d1 = blake3_to_hex d2 -> d1 = d2;
}.

(** ** [src/src/path.rs] *)

Definition key_hash `{Blake3} (canonical_key : bytes) : bytes := blake3_hash canonical_key.

Definition blob_filename `{Blake3} (format : BlobFormatIdentity) (canonical_key : bytes) : bytes :=
  blake3_to_hex (blake3_hash canonical_key) ++ filename_suffix format.

Definition validate_namespace {SP : StdPath} (namespace : Path) : result Path AtomicBlobStoreError :=
  match sole_component namespace with
  | Some component =>
      if decide (component = []) then Err (Configuration InvalidNamespace) else Ok component
  | None => Err (Configuration InvalidNamespace)
  end.

(** A name that is one component of a path. *)
Definition plain_name (c : bytes) : Prop :=
  c <> [] /\ c <> [DOT] /\ c <> [DOT; DOT] /\ SLASH ∉ c.

#[export] Instance plain_name_dec c : Decision (plain_name c).
Proof. unfold plain_name. apply _. Defined.

(** ** Lemmas on components *)

Lemma split_slash_nonempty p : split_slash p <> [].
Proof. destruct p as [|b p]; [done|]. simpl. destruct (is_sep b); [done|]. by destruct (split_slash p). Qed.

Lemma split_slash_no_sep p seg : seg ∈ split_slash p -> SLASH ∉ seg.
Proof.
  revert seg; induction p as [|b p IH]; intros seg; simpl.
  - intros ->%list_elem_of_singleton. apply not_elem_of_nil.
  - unfold is_sep. case_bool_decide as Hb.
    + intros [->|H]%elem_of_cons; [apply not_elem_of_nil|by apply IH].
    + destruct (split_slash p) as [|s ss] eqn:E; [by destruct (split_slash_nonempty p)|].
      intros [->|H]%elem_of_cons.
      * apply not_elem_of_cons. split; [done|]. apply IH. by left.
      * apply IH. by right.
Qed.

Lemma split_slash_plain c : SLASH ∉ c -> split_slash c = [c].
Proof.
  induction c as [|b c IH]; intros H; [done|]. apply not_elem_of_cons in H as [Hb Hc].
  simpl. unfold is_sep. rewrite bool_decide_eq_false_2 by done. by rewrite IH.
Qed.

Lemma split_slash_app_sep a b : split_slash (a ++ SLASH :: b) = split_slash a ++ split_slash b.
Proof.
  induction a as [|x a IH]; simpl.
  - done.
  - destruct (is_sep x); [by rewrite IH|]. rewrite IH.
    destruct (split_slash a) as [|s ss] eqn:E; [by destruct (split_slash_nonempty a)|]. done.
Qed.

Lemma parse_component_normal seg c :
  parse_component seg = Some (Normal c) -> SLASH ∉ seg -> c = seg /\ plain_name c.
Proof. unfold parse_component, plain_name. repeat case_decide; intros; by simplify_eq. Qed.

Lemma parse_component_plain c : plain_name c -> parse_component c = Some (Normal c).
Proof. intros (H1 & H2 & H3 & _). unfold parse_component. by rewrite !decide_False. Qed.

Lemma components_normal p c : Normal c ∈ components p -> plain_name c.
Proof.
  unfold components. intros H. destruct (split_slash p) as [|seg segs] eqn:E; [set_solver|].
  assert (Hs : forall s, s ∈ seg :: segs -> SLASH ∉ s).
  { intros s. rewrite <-E. apply split_slash_no_sep. }
  apply elem_of_app in H as [H|H].
  - destruct (has_root p); [by apply list_elem_of_singleton in H|].
    case_decide; [by apply list_elem_of_singleton in H|].
    destruct (parse_component seg) eqn:Ep; [|by apply not_elem_of_nil in H].
    apply list_elem_of_singleton in H as <-.
    by apply parse_component_normal in Ep as [_ ?]; [|apply Hs; left].
  - apply list_elem_of_omap in H as (s & Hin & Ep).
    by apply parse_component_normal in Ep as [_ ?]; [|apply Hs; right].
Qed.

Lemma plain_name_no_slash c : plain_name c -> SLASH ∉ c.
Proof. by intros (_ & _ & _ & H). Qed.

Lemma plain_name_not_dot c : plain_name c -> c <> [DOT].
Proof. by intros (_ & H & _). Qed.

Lemma plain_name_not_nil c : plain_name c -> c <> [].
Proof. by intros (H & _). Qed.

Lemma plain_name_no_root c : plain_name c -> has_root c = false.
Proof.
  intros (H1 & _ & _ & H2). destruct c as [|b c]; [done|]. simpl. unfold is_sep.
  apply not_elem_of_cons in H2 as [H2 _]. by rewrite bool_decide_eq_false_2.
Qed.

Lemma components_plain c : plain_name c -> components c = [Normal c].
Proof.
  intros Hc. unfold components. rewrite split_slash_plain by by apply plain_name_no_slash.
  rewrite plain_name_no_root by done. rewrite decide_False by by apply plain_name_not_dot.
  by rewrite parse_component_plain.
Qed.

(** Joining a plain name appends exactly one component: it never leaves the
    directory. *)
Lemma components_join base c :
  base <> [] -> plain_name c -> components (path_join base c) = components base ++ [Normal c].
Proof.
  intros Hb Hc. unfold path_join. rewrite plain_name_no_root by done.
  destruct (exists_last Hb) as (base' & b & ->). rewrite last_snoc.
  assert (Hroot : forall s, has_root ((base' ++ [b]) ++ s) = has_root (base' ++ [b]))
    by (intros; by destruct base').
  unfold is_sep at 1. case_bool_decide as E.
  - subst b. unfold components.
    rewrite <-app_assoc. cbn [app]. rewrite split_slash_app_sep.
    rewrite (split_slash_app_sep base' []). rewrite (split_slash_plain c) by by apply plain_name_no_slash.
    change (SLASH :: c) with ([SLASH] ++ c). rewrite app_assoc, Hroot.
    destruct (split_slash base') as [|s ss] eqn:Es; [by destruct (split_slash_nonempty base')|].
    cbn [app split_slash]. rewrite !omap_app. cbn [omap list_omap].
    rewrite (parse_component_plain c) by done. change (parse_component []) with (@None Component).
    cbn. by rewrite !app_nil_r, app_assoc.
  - unfold components. change ([SLASH] ++ c) with (SLASH :: c). rewrite split_slash_app_sep.
    rewrite (split_slash_plain c) by by apply plain_name_no_slash. rewrite Hroot.
    destruct (split_slash (base' ++ [b])) as [|s ss] eqn:Es;
      [by destruct (split_slash_nonempty (base' ++ [b]))|].
    cbn [app]. rewrite !omap_app. cbn [omap list_omap].
    rewrite (parse_component_plain c) by done. by rewrite app_assoc.
Qed.

Lemma file_name_join base c : base <> [] -> plain_name c -> file_name (path_join base c) = Some c.
Proof. intros Hb Hc. unfold file_name. by rewrite components_join, last_snoc. Qed.

Lemma path_join_inj base c d : plain_name c -> plain_name d -> path_join base c = path_join base d -> c = d.
Proof.
  intros Hc Hd. unfold path_join. rewrite (plain_name_no_root c), (plain_name_no_root d) by done.
  destruct (last base) as [b|]; [|done]. destruct (is_sep b); intros H; by simplify_list_eq.
Qed.

Lemma path_join_ne_base base c : plain_name c -> path_join base c <> base.
Proof.
  intros Hc. unfold path_join. rewrite plain_name_no_root by done.
  apply plain_name_not_nil in Hc.
  destruct base as [|b base _] using rev_ind; [done|]. rewrite last_snoc.
  destruct (is_sep b); intros H; apply (f_equal length) in H;
    rewrite ?length_app in H; simpl in H; destruct c; simpl in H; (done || lia).
Qed.

(** *** File stems *)

Lemma rsplit_dot_none t : DOT ∉ t -> rsplit_dot t = None.
Proof.
  induction t as [|b t IH]; intros H; [done|]. apply not_elem_of_cons in H as [Hb Ht].
  simpl. rewrite IH by done. by rewrite decide_False.
Qed.

Lemma rsplit_dot_app a t : DOT ∉ t -> rsplit_dot (a ++ DOT :: t) = Some (a, t).
Proof.
  intros H. induction a as [|b a IH]; simpl.
  - by rewrite rsplit_dot_none.
  - by rewrite IH.
Qed.

(** The names of the store: 64 hexadecimal digits and a valid suffix, possibly
    followed by more. *)
Lemma lower_hex_spec b :
  is_lower_hex b = true -> b <> DOT /\ b <> SLASH /\ is_ascii b = true.
Proof.
  set (P b := negb (is_lower_hex b) || (negb (bool_decide (b = DOT)) &&
    negb (bool_decide (b = SLASH)) && is_ascii b)).
  assert (H : forall b, P b = true) by (apply byte_forallb; by vm_compute).
  specialize (H b). unfold P in H. intros E. rewrite E in H. simpl in H. reflect_bools. done.
Qed.

Lemma forallb_not_elem (P : byte -> bool) b s : forallb P s = true -> P b = false -> b ∉ s.
Proof. rewrite forallb_forall. intros H Hb Hin%list_elem_of_In. apply H in Hin. congruence. Qed.

Lemma utf8_ascii s : forallb is_ascii s = true -> utf8_valid s = true.
Proof. induction s as [|b s IH]; simpl; [done|]. intros H. reflect_bools. by rewrite H, IH. Qed.

Lemma hex_suffix_plain h s :
  length h = 64%nat -> forallb is_lower_hex h = true -> SLASH ∉ s -> plain_name (h ++ s).
Proof.
  intros Hl Hh Hs. unfold plain_name.
  assert (Hlen : (length (h ++ s) >= 64)%nat) by (rewrite length_app; lia).
  split_and!; try (intros E; rewrite E in Hlen; simpl in Hlen; lia).
  rewrite elem_of_app. intros [H|H]; [|done].
  by apply (forallb_not_elem _ SLASH) in Hh.
Qed.

Lemma valid_suffix_no_slash s : valid_suffix s = true -> SLASH ∉ s.
Proof.
  intros (t & -> & Ht & _)%valid_suffix_shape. apply not_elem_of_cons. split; [done|].
  by apply (forallb_not_elem suffix_byte).
Qed.

Lemma file_stem_hex base h s :
  base <> [] -> length h = 64%nat -> forallb is_lower_hex h = true -> valid_suffix s = true ->
  file_stem (path_join base (h ++ s)) = Some h /\ to_str h = Some h.
Proof.
  intros Hb Hl Hh Hs. split.
  - unfold file_stem. rewrite file_name_join by auto using hex_suffix_plain, valid_suffix_no_slash.
    apply valid_suffix_shape in Hs as (t & -> & Ht & Hne & _).
    rewrite decide_False.
    + rewrite rsplit_dot_app; [by destruct h|]. by apply (forallb_not_elem suffix_byte).
    + intros E. apply (f_equal length) in E. rewrite length_app in E. simpl in E. lia.
  - unfold to_str. rewrite utf8_ascii; [done|].
    rewrite forallb_forall in *. intros b Hin. by apply lower_hex_spec, Hh.
Qed.

Section Names.
Context `{Blake3Laws}.

Lemma blob_filename_plain f k : valid_format f -> plain_name (blob_filename f k).
Proof.
  intros (_ & Hs & _). unfold blob_filename. pose proof (blake3_hash_length k).
  apply hex_suffix_plain; auto using blake3_hex_length, blake3_hex_lower, valid_suffix_no_slash.
Qed.

(** Different digests have different canonical names. *)
Lemma blob_filename_inj f k1 k2 :
  blob_filename f k1 = blob_filename f k2 -> key_hash k1 = key_hash k2.
Proof.
  unfold blob_filename, key_hash. intros E. apply app_inv_tail in E.
  apply blake3_hex_inj in E; auto using blake3_hash_length.
Qed.
End Names.

(** ** Properties *)

(** Exactly the names that are one normal component, up to redundant
    separators and dots, are namespaces. *)
Theorem validate_namespace_spec ns c :
  validate_namespace (SP := unix_path) ns = Ok c <-> components ns = [Normal c].
Proof.
  unfold validate_namespace. cbn [sole_component unix_path]. split.
  - destruct (components ns) as [|[| | |c'] [|]]; try done. case_decide; intros; by simplify_eq.
  - intros E. rewrite E, decide_False; [done|].
    assert (Hc : plain_name c) by (apply (components_normal ns); rewrite E; by left).
    by apply plain_name_not_nil.
Qed.

(** An accepted namespace stays directly under the root. *)
Theorem namespace_confined root ns c :
  root <> [] -> validate_namespace (SP := unix_path) ns = Ok c ->
  plain_name c /\ components (path_join root c) = components root ++ [Normal c].
Proof.
  intros Hr H. assert (Hc : plain_name c).
  { unfold validate_namespace in H. cbn [sole_component unix_path] in H. apply (components_normal ns).
    destruct (components ns) as [|[| | |c'] [|]]; try done. case_decide; simplify_eq. by left. }
  split; [done|]. by apply components_join.
Qed.

Lemma namespace_confined_witness :
  plain_name (bstr "cache") /\
  components (path_join (bstr "/srv") (bstr "cache")) = components (bstr "/srv") ++ [Normal (bstr "cache")].
Proof. apply (namespace_confined (bstr "/srv") (bstr "cache/.")); [done|by vm_compute]. Defined.
