(* ===== verification/Format.v ===== *)
(** * The envelope format ([src/src/format.rs])

    Encoding a payload in one piece or from a stream of chunks, decoding and
    validating an envelope from any reader, and the reference specification of
    version 1 ([FORMAT.md]) the codecs are proved against. *)
From S2P Require Export Errors.

Local Open Scope N_scope.
Local Open Scope blob_scope.

(** ** Types of the engine the codec takes *)

(** [StoreConfig] of [src/src/engine/mod.rs]. *)
Record StoreConfig := {
  namespace : Path;
  format : BlobFormatIdentity;
  maximum : N;
  config_max_concurrent_operations : N;
}.

(** [SaveStreamMessage] of [src/src/engine/operation.rs].  A [Receiver] of
    messages is the sequence of messages its [recv] calls return before the
    senders are gone. *)
Inductive SaveStreamMessage :=
| Chunk (chunk : bytes)
| Complete.

(** ** CRC-32C: the [crc32c] crate *)
Class Crc32c := {
  crc32c : bytes -> N;
  crc32c_append : N -> bytes -> N;
}.

(** Its documentation: [crc32c_append(crc32c(a), b)] is the checksum of [a]
    followed by [b]; checksums are [u32]. *)
Class Crc32cLaws `{Crc32c} : Prop := {
  crc32c_append_app a b : crc32c_append (crc32c a) b = crc32c (a ++ b);
  crc32c_lt a : crc32c a < 2 ^ 32;
}.

Section Codec.
Context {Crc : Crc32c} {Tgt : Target}.

(** ** Encoding *)

Definition envelope_header (f : BlobFormatIdentity) (size max : N)
    : result bytes AtomicBlobStoreError :=
  if (max <? size) then Err (BlobTooLarge size max)
  else Ok (domain_tag f ++ be_bytes 2 (envelope_version f) ++ be_bytes 8 size).

Definition envelope_parts (f : BlobFormatIdentity) (payload : bytes) (max : N)
    : result (bytes * bytes) AtomicBlobStoreError :=
  let? size := ok_or (u64_try_from (blen payload)) (InvalidPayloadLength U64_MAX) in
  let? header := envelope_header f size max in
  let checksum := be_bytes 4 (crc32c_append (crc32c header) payload) in
  Ok (header, checksum).

Definition encode_envelope (f : BlobFormatIdentity) (payload : bytes) (max : N)
    : result bytes AtomicBlobStoreError :=
  let? (header, checksum) := envelope_parts f payload max in
  Ok (header ++ payload ++ checksum).

(** *** Streaming *)

Definition write_section (bs : bytes) : eff writer AtomicBlobStoreError unit :=
  eff_map_err (Io WriteEnvelope) (write_all bs).

(** The [while let Ok(message) = chunks.recv()] loop; the messages that were
    not received are returned beside the writer. *)
Fixpoint write_stream_loop (declared_len : N) (chunks : list SaveStreamMessage)
    (checksum written : N) (w : writer)
    : result unit AtomicBlobStoreError * (writer * list SaveStreamMessage) :=
  match chunks with
  | [] => (Err StreamCancelled, (w, []))
  | Chunk chunk :: chunks' =>
      let count := blen chunk in
      let fits := match checked_add U64_MAX written count with
                  | Some total => total <=? declared_len
                  | None => false
                  end in
      if negb fits then (Err (InputHasTrailingData declared_len), (w, chunks'))
      else match write_section chunk w with
           | (Err e, w') => (Err e, (w', chunks'))
           | (Ok _, w') =>
               write_stream_loop declared_len chunks' (crc32c_append checksum chunk)
                 (written + count) w'
           end
  | Complete :: chunks' =>
      if negb (written =? declared_len)
      then (Err (InputEndedEarly declared_len written), (w, chunks'))
      else match write_section (be_bytes 4 checksum) w with
           | (Err e, w') => (Err e, (w', chunks'))
           | (Ok _, w') => (Ok tt, (w', chunks'))
           end
  end.

Definition write_stream_envelope (config : StoreConfig) (declared_len : N)
    : eff (writer * list SaveStreamMessage) AtomicBlobStoreError unit :=
  fun '(w, chunks) =>
    match envelope_header (format config) declared_len (maximum config) with
    | Err e => (Err e, (w, chunks))
    | Ok header =>
        match write_section header w with
        | (Err e, w') => (Err e, (w', chunks))
        | (Ok _, w') => write_stream_loop declared_len chunks (crc32c header) 0 w'
        end
    end.

(** ** Decoding *)

Definition read_section (n : N) (section : EnvelopeSection)
    : eff reader AtomicBlobStoreError bytes :=
  eff_map_err (fun error =>
    if decide (kind error = UnexpectedEof) then TruncatedEnvelope section
    else Io ReadEnvelope error) (read_exact n).

(** The one-byte read after the checksum. *)
Definition expect_end : eff reader AtomicBlobStoreError unit := fun r =>
  match read 1 r with
  | (Ok [], r') => (Ok tt, r')
  | (Ok _, r') => (Err TrailingData, r')
  | (Err source, r') => (Err (Io ReadEnvelope source), r')
  end.

(** [usize::try_from(remaining).unwrap_or(usize::MAX).min(STREAM_CHUNK_SIZE)]. *)
Definition chunk_request (remaining : N) : N :=
  N.min (default (usize_MAX pointer_width) (usize_try_from pointer_width remaining))
    STREAM_CHUNK_SIZE.

(** One turn of the validating loop: remaining bytes, checksum so far, reader. *)
Definition validate_step (s : N * N * reader)
    : (N * N * reader) + (result N AtomicBlobStoreError * reader) :=
  let '(remaining, actual, r) := s in
  if (remaining =? 0) then inr (Ok actual, r)
  else
    let requested := chunk_request remaining in
    match read_section requested Payload r with
    | (Err e, r') => inr (Err e, r')
    | (Ok buffer, r') => inl (remaining - requested, crc32c_append actual buffer, r')
    end.

(** The number of chunks, plus the turn that leaves the loop. *)
Definition chunk_fuel (remaining : N) : nat := S (S (N.to_nat (remaining / STREAM_CHUNK_SIZE))).

Definition validate_payload (declared actual : N) : eff reader AtomicBlobStoreError N :=
  fun r => run_loop (chunk_fuel declared) validate_step
    (fun '(_, actual, r) => (Ok actual, r)) (declared, actual, r).

Definition validate_envelope_reader (f : BlobFormatIdentity) (max : N)
    : eff reader AtomicBlobStoreError BlobMetadata :=
  do? found <- read_section DOMAIN_TAG_LEN Magic;
  if decide (found <> domain_tag f) then throw (InvalidEnvelopeDomain (domain_tag f) found) else
  do? version_bytes <- read_section 2 Version;
  let version := from_be version_bytes in
  if negb (version =? envelope_version f) then throw (UnsupportedEnvelopeVersion version) else
  do? length_bytes <- read_section 8 PayloadLength;
  let declared := from_be length_bytes in
  if (max <? declared) then throw (BlobTooLarge declared max) else
  do? actual <- validate_payload declared (crc32c (found ++ version_bytes ++ length_bytes));
  do? checksum <- read_section CHECKSUM_LEN Checksum;
  do? _ <- expect_end;
  let expected := from_be checksum in
  if negb (expected =? actual) then throw (ChecksumMismatch expected actual) else
  ret {| payload_len := declared |}.

Definition decode_reader_with_usize_limit (f : BlobFormatIdentity) (max usize_limit : N)
    : eff reader AtomicBlobStoreError bytes :=
  do? magic <- read_section 8 Magic;
  if decide (magic <> domain_tag f) then throw (InvalidEnvelopeDomain (domain_tag f) magic) else
  do? version_bytes <- read_section 2 Version;
  let version := from_be version_bytes in
  if negb (version =? envelope_version f) then throw (UnsupportedEnvelopeVersion version) else
  do? length_bytes <- read_section 8 PayloadLength;
  let declared := from_be length_bytes in
  if (max <? declared) then throw (BlobTooLarge declared max) else
  if (usize_limit <? declared) then throw (InvalidPayloadLength declared) else
  do? payload_len <- lift (ok_or
    (size ← usize_try_from pointer_width declared;
     _ ← checked_add (usize_MAX pointer_width) size (HEADER_LEN + CHECKSUM_LEN);
     Some size) (InvalidPayloadLength declared));
  do? payload <- read_section payload_len Payload;
  do? checksum <- read_section 4 Checksum;
  do? _ <- expect_end;
  let actual := crc32c_append (crc32c_append (crc32c_append (crc32c (domain_tag f))
    (be_bytes 2 (envelope_version f))) (be_bytes 8 declared)) payload in
  let expected := from_be checksum in
  if negb (expected =? actual) then throw (ChecksumMismatch expected actual) else
  ret payload.

Definition decode_reader (f : BlobFormatIdentity) (max : N)
    : eff reader AtomicBlobStoreError bytes :=
  decode_reader_with_usize_limit f max (usize_MAX pointer_width).

(** [validate_maximum] of [src/src/engine/mod.rs]. *)
Definition validate_maximum (max : N) : result unit AtomicBlobStoreError :=
  match checked_add U64_MAX max (HEADER_LEN + CHECKSUM_LEN) with
  | None => Err (Configuration (InvalidMaximumBlobSize max))
  | Some _ => Ok tt
  end.

(** ** The specification of version 1

    The bytes of an envelope, and what reading a byte string must answer. *)

Definition header_of (f : BlobFormatIdentity) (size : N) : bytes :=
  domain_tag f ++ be_bytes 2 (envelope_version f) ++ be_bytes 8 size.

Definition envelope (f : BlobFormatIdentity) (payload : bytes) : bytes :=
  let h := header_of f (blen payload) in
  h ++ payload ++ be_bytes 4 (crc32c (h ++ payload)).

(** Splits [n] bytes off the front of [bs]. *)
Definition cut (n : N) (section : EnvelopeSection) (bs : bytes)
    : result (bytes * bytes) AtomicBlobStoreError :=
  if (blen bs <? n) then Err (TruncatedEnvelope section)
  else Ok (take (N.to_nat n) bs, drop (N.to_nat n) bs).

Definition decode_spec (f : BlobFormatIdentity) (max : N) (bs : bytes)
    : result bytes AtomicBlobStoreError :=
  let? (magic, bs) := cut 8 Magic bs in
  if decide (magic <> domain_tag f) then Err (InvalidEnvelopeDomain (domain_tag f) magic) else
  let? (v, bs) := cut 2 Version bs in
  if decide (from_be v <> envelope_version f) then Err (UnsupportedEnvelopeVersion (from_be v)) else
  let? (l, bs) := cut 8 PayloadLength bs in
  let declared := from_be l in
  if decide (max < declared) then Err (BlobTooLarge declared max) else
  let? (payload, bs) := cut declared Payload bs in
  let? (sum, bs) := cut 4 Checksum bs in
  if decide (bs <> []) then Err TrailingData else
  let actual := crc32c (header_of f declared ++ payload) in
  if decide (from_be sum <> actual) then Err (ChecksumMismatch (from_be sum) actual) else
  Ok payload.

(** The limit a store has on every target it was opened on with 64-bit
    pointers, and the condition under which 32-bit targets never answer
    [InvalidPayloadLength]. *)
Definition fits_usize (max : N) : Prop := max + HEADER_LEN + CHECKSUM_LEN <= usize_MAX pointer_width.

End Codec.
