(* ===== verification/Reference.v ===== *)
(** * Concrete instances of the third-party interfaces

    The definitions of the development take the crates it calls as parameters.
    These instances satisfy the documented laws and compute, so that the
    definitions can be evaluated: CRC-32C (Castagnoli), a digest that pads its
    key, and a 64-bit Linux target. *)
From S2P Require Export Paths Format.

Local Open Scope N_scope.

(** The reflected Castagnoli polynomial. *)
Definition CASTAGNOLI : N := 2197175160.

Definition crc_bit (c : N) : N :=
  if N.odd c then N.lxor (N.shiftr c 1) CASTAGNOLI else N.shiftr c 1.

Definition crc_byte (c : N) (b : byte) : N :=
  Nat.iter 8 crc_bit (N.lxor c (byte_val b)).

Definition castagnoli_append (c : N) (bs : bytes) : N :=
  N.lxor (fold_left crc_byte bs (N.lxor c U32_MAX)) U32_MAX.

#[export] Instance reference_crc32c : Crc32c := {
  crc32c := castagnoli_append 0;
  crc32c_append := castagnoli_append;
}.

#[export] Instance reference_blake3 : Blake3 := {
  blake3_hash k := take 32 (k ++ repeat Byte.x00 32);
  blake3_to_hex := hex_encode;
}.

#[export] Instance reference_target : Target := {
  pointer_width := W64;
  target_os := bstr "linux";
}.

(** The identity of the repository's fixtures. *)
Definition fixture_format : BlobFormatIdentity :=
  {| domain_tag := bstr "BLOBTEST"; filename_suffix := bstr ".blob"; envelope_version := 1 |}.

Lemma lxor_lt a b n : a < 2 ^ n -> b < 2 ^ n -> N.lxor a b < 2 ^ n.
Proof.
  intros Ha Hb. destruct (N.eq_dec (N.lxor a b) 0) as [->|Hne].
  - apply N.neq_0_lt_0, N.pow_nonzero. lia.
  - destruct (N.eq_dec n 0) as [->|Hn].
    { change (2 ^ 0) with 1 in *. assert (a = 0) as -> by lia. by assert (b = 0) as -> by lia. }
    apply N.log2_lt_pow2; [lia|]. eapply N.le_lt_trans; [apply N.log2_lxor|].
    apply N.max_lub_lt.
    + destruct (N.eq_dec a 0) as [->|]; [simpl; lia|]. apply N.log2_lt_pow2; [lia|done].
    + destruct (N.eq_dec b 0) as [->|]; [simpl; lia|]. apply N.log2_lt_pow2; [lia|done].
Qed.

Lemma crc_bit_lt c : c < 2 ^ 32 -> crc_bit c < 2 ^ 32.
Proof.
  intros Hc. assert (N.shiftr c 1 < 2 ^ 32).
  { rewrite N.shiftr_div_pow2. change (2 ^ 1) with 2.
    eapply N.le_lt_trans; [apply N.Div0.div_le_upper_bound with (q := c); lia|done]. }
  unfold crc_bit. destruct (N.odd c); [|done]. by apply lxor_lt.
Qed.

Lemma crc_byte_lt c b : c < 2 ^ 32 -> crc_byte c b < 2 ^ 32.
Proof.
  intros Hc. unfold crc_byte. cbn -[crc_bit N.pow N.lt].
  do 8 apply crc_bit_lt. apply lxor_lt; [done|]. pose proof (byte_val_lt b). lia.
Qed.

Lemma crc_fold_lt bs c : c < 2 ^ 32 -> fold_left crc_byte bs c < 2 ^ 32.
Proof. revert c; induction bs; intros c Hc; simpl; [done|]. auto using crc_byte_lt. Qed.

#[export] Instance reference_crc32c_laws : Crc32cLaws.
Proof.
  split.
  - intros a b. simpl. unfold castagnoli_append.
    rewrite N.lxor_assoc, N.lxor_nilpotent, N.lxor_0_r. by rewrite fold_left_app.
  - intros a. simpl. unfold castagnoli_append. apply lxor_lt; [|done].
    apply crc_fold_lt. done.
Qed.

#[export] Instance reference_blake3_laws : Blake3Laws.
Proof.
  split; simpl.
  - intros k. rewrite length_take, length_app. cbn [length]. lia.
  - intros d Hd. rewrite length_hex_encode. lia.
  - intros d _. apply hex_encode_lower.
  - intros d1 d2 _ _. apply hex_encode_inj.
Qed.

(** The check value of the CRC catalogue for CRC-32C. *)
Example castagnoli_check : crc32c (bstr "123456789") = 3808858755.
Proof. by vm_compute. Qed.
