(* ===== verification/FormatSpec.v ===== *)
(** * Correctness of the envelope codecs

    The encoder against the format of [FORMAT.md], the decoder against
    [decode_spec], the streaming codecs against the one-piece ones, and what
    damaged envelopes give. *)
From S2P Require Export Format Reference.

Local Open Scope N_scope.
Local Open Scope blob_scope.

Section CodecTheory.
Context {Crc : Crc32c} {CrcL : Crc32cLaws} {Tgt : Target}.

(** ** Sections of a calm reader *)

Lemma cut_ok n s bs a b : cut n s bs = Ok (a, b) -> bs = a ++ b /\ blen a = n.
Proof.
  unfold cut. destruct (blen bs <? n) eqn:E; [done|]. intros; simplify_eq. reflect_bools.
  rewrite take_drop. split; [done|]. unfold blen in *. rewrite length_take. lia.
Qed.

Lemma cut_app n s a b : blen a = n -> cut n s (a ++ b) = Ok (a, b).
Proof.
  intros <-. unfold cut. rewrite blen_app. destruct (_ <? _) eqn:?; reflect_bools; [lia|].
  unfold blen. by rewrite Nat2N.id, take_app_length, drop_app_length.
Qed.

Lemma cut_short n s bs : blen bs < n -> cut n s bs = Err (TruncatedEnvelope s).
Proof. intros. unfold cut. by destruct (_ <? _) eqn:?; reflect_bools; [|lia]. Qed.

Lemma read_section_cut n s r :
  reader_calm r = true ->
  match cut n s (reader_data r) with
  | Err e => read_section n s r = (Err e, [])
  | Ok (a, b) => exists r', read_section n s r = (Ok a, r') /\ reader_data r' = b /\
      reader_calm r' = true
  end.
Proof.
  intros Hc. pose proof (reader_calm_ok _ Hc) as Hr. unfold read_section, eff_map_err.
  destruct (cut n s (reader_data r)) as [[a b]|e] eqn:E.
  - apply cut_ok in E as [E <-].
    destruct (read_exact_app r a b Hr E) as (r' & -> & ? & _ & ?). eauto.
  - unfold cut in E. destruct (_ <? _) eqn:?; [|done]. simplify_eq. reflect_bools.
    by rewrite read_exact_eof.
Qed.

Lemma read_section_data n s r a r' :
  read_section n s r = (Ok a, r') -> reader_data r = a ++ reader_data r' /\ blen a = n.
Proof.
  unfold read_section, eff_map_err. destruct (read_exact n r) as [[x|e] r0] eqn:E; [|done].
  intros; simplify_eq/=. by apply read_exact_ok.
Qed.

Lemma expect_end_calm r :
  reader_calm r = true ->
  expect_end r = if decide (reader_data r <> []) then
                   (Err TrailingData, snd (read 1 r)) else (Ok tt, []).
Proof.
  intros Hc. unfold expect_end. case_decide as E.
  - destruct (read_calm_more 1 r Hc) as (bs & r' & -> & _ & _ & ?); [lia|done|].
    destruct bs; [unfold blen in *; simpl in *; lia|done].
  - assert (reader_data r = []) by (by destruct (reader_data r)). by rewrite read_calm_end.
Qed.

(** ** The chunked loop is one read *)

Lemma chunk_request_eq remaining : chunk_request remaining = N.min remaining STREAM_CHUNK_SIZE.
Proof.
  unfold chunk_request, usize_try_from, STREAM_CHUNK_SIZE.
  destruct (remaining <=? _) eqn:E; [done|]. reflect_bools. cbn [default].
  destruct pointer_width; unfold usize_MAX in *; lia.
Qed.

Lemma read_section_split a b s r :
  read_section (a + b) s r =
    match read_section a s r with
    | (Ok bs, r') => let (x, r'') := read_section b s r' in (map_ok (app bs) x, r'')
    | (Err e, r') => (Err e, r')
    end.
Proof.
  unfold read_section, eff_map_err. rewrite read_exact_split.
  destruct (read_exact a r) as [[bs|e] r']; simpl; [|done].
  by destruct (read_exact b r') as [[x|e] r''].
Qed.

Lemma read_section_0 s r : read_section 0 s r = (Ok [], r).
Proof. unfold read_section, eff_map_err. by rewrite read_exact_0. Qed.

(** The fuel of the chunk loops lasts: one chunk costs one unit. *)
Lemma chunk_fuel_step remaining fuel :
  (N.to_nat (remaining / STREAM_CHUNK_SIZE) + 1 < S fuel)%nat ->
  (N.to_nat ((remaining - N.min remaining STREAM_CHUNK_SIZE) / STREAM_CHUNK_SIZE) + 1 < fuel)%nat \/
  remaining - N.min remaining STREAM_CHUNK_SIZE = 0 /\ (0 < fuel)%nat.
Proof.
  intros Hf. unfold STREAM_CHUNK_SIZE in *. destruct (N.le_gt_cases (64 * 1024) remaining).
  - left. rewrite N.min_r by done.
    assert (remaining / (64 * 1024) = (remaining - 64 * 1024) / (64 * 1024) + 1) as E1.
    { replace remaining with (remaining - 64 * 1024 + 1 * (64 * 1024)) at 1 by lia.
      by rewrite N.div_add. }
    rewrite E1 in Hf. lia.
  - right. split; [lia|]. revert Hf. generalize (N.to_nat (remaining / (64 * 1024))). lia.
Qed.

Lemma validate_loop_read fuel spent remaining pre r :
  (N.to_nat (remaining / STREAM_CHUNK_SIZE) + 1 < fuel)%nat ->
  run_loop fuel validate_step spent (remaining, crc32c pre, r) =
    match read_section remaining Payload r with
    | (Ok bs, r') => (Ok (crc32c (pre ++ bs)), r')
    | (Err e, r') => (Err e, r')
    end.
Proof.
  revert remaining pre r. induction fuel as [|fuel IH]; intros remaining pre r Hf;
    [by apply Nat.nlt_0_r in Hf|].
  rewrite run_loop_S. unfold validate_step at 1.
  destruct (remaining =? 0) eqn:E; reflect_bools.
  { subst. by rewrite read_section_0, app_nil_r. }
  rewrite chunk_request_eq.
  set (n := N.min remaining STREAM_CHUNK_SIZE).
  assert (read_section remaining Payload r = read_section (n + (remaining - n)) Payload r) as ->
    by (f_equal; subst n; lia).
  rewrite read_section_split.
  destruct (read_section n Payload r) as [[bs|e] r']; [|done].
  rewrite crc32c_append_app.
  destruct (chunk_fuel_step remaining fuel Hf) as [Hf'|[E0 Hf0]]; fold n in Hf' || fold n in E0.
  - rewrite IH by done. destruct (read_section _ _ r') as [[x|e] r'']; simpl; by rewrite ?app_assoc.
  - rewrite E0, read_section_0. destruct fuel as [|fuel]; [lia|]. rewrite run_loop_S. simpl. by rewrite app_nil_r.
Qed.

Lemma validate_payload_read declared pre r :
  validate_payload declared (crc32c pre) r =
    match read_section declared Payload r with
    | (Ok bs, r') => (Ok (crc32c (pre ++ bs)), r')
    | (Err e, r') => (Err e, r')
    end.
Proof. apply validate_loop_read. unfold chunk_fuel. lia. Qed.

(** ** Encoding *)

Lemma encode_envelope_ok f p max e :
  encode_envelope f p max = Ok e -> e = envelope f p /\ blen p <= max /\ blen p <= U64_MAX.
Proof.
  unfold encode_envelope, envelope_parts, envelope_header, u64_try_from, envelope.
  intros H'. break. reflect_bools. rewrite crc32c_append_app. done.
Qed.

Lemma encode_envelope_fits f p max :
  blen p <= max -> max <= U64_MAX -> encode_envelope f p max = Ok (envelope f p).
Proof.
  intros H1 H2. unfold encode_envelope, envelope_parts, envelope_header, u64_try_from, envelope.
  destruct (blen p <=? U64_MAX) eqn:?; reflect_bools; [|lia]. simpl.
  destruct (max <? blen p) eqn:?; reflect_bools; [lia|]. by rewrite crc32c_append_app.
Qed.

Lemma length_header f n : valid_format f -> blen (header_of f n) = 18.
Proof.
  intros (Hd & _). unfold header_of. rewrite !blen_app, Hd. unfold blen.
  by rewrite !length_be_bytes.
Qed.

Lemma u64_width : 2 ^ 64 = 256 ^ N.of_nat 8.
Proof. done. Qed.

(** ** Decoding, any reader *)

(** [decode_reader] with the two [usize] tests known to pass. *)
Lemma usize_tests_pass max declared :
  fits_usize max -> declared <= max ->
  (usize_MAX pointer_width <? declared) = false /\
  (size ← usize_try_from pointer_width declared;
   _ ← checked_add (usize_MAX pointer_width) size (HEADER_LEN + CHECKSUM_LEN); Some size)
  = Some declared.
Proof.
  unfold fits_usize, usize_try_from, checked_add, HEADER_LEN, CHECKSUM_LEN.
  set (m := usize_MAX pointer_width). intros H1 H2. split; [apply N.ltb_ge; lia|].
  destruct (declared <=? m) eqn:?; reflect_bools; [|lia]. simpl.
  change (18 + 4) with 22. by destruct (declared + 22 <=? m) eqn:?; reflect_bools; [|lia].
Qed.

Lemma decode_crc f declared payload :
  crc32c_append (crc32c_append (crc32c_append (crc32c (domain_tag f))
    (be_bytes 2 (envelope_version f))) (be_bytes 8 declared)) payload
  = crc32c (header_of f declared ++ payload).
Proof. rewrite !crc32c_append_app. unfold header_of. by rewrite !app_assoc. Qed.

(** The bytes read for an accepted header are the header. *)
Lemma header_read f found v l :
  blen v = 2 -> blen l = 8 -> found = domain_tag f -> from_be v = envelope_version f ->
  found ++ v ++ l = header_of f (from_be l).
Proof.
  intros Hv Hl -> Hver. unfold header_of. rewrite <-Hver.
  by rewrite (be_bytes_from_be 2 v), (be_bytes_from_be 8 l) by (unfold blen in *; lia).
Qed.

Lemma bind_map_err_ok {S E A B} (c : eff S E A) (k : A -> eff S E B) s :
  bind c k s = match c s with (Ok a, s') => k a s' | (Err e, s') => (Err e, s') end.
Proof. done. Qed.

(** The validator does what the decoder does, on every reader, failing ones
    included: same answer, same error, same bytes consumed. *)
Lemma validate_decode f max r :
  fits_usize max ->
  validate_envelope_reader f max r =
    let (x, r') := decode_reader f max r in
    (map_ok (fun p => {| payload_len := blen p |}) x, r').
Proof.
  intros Hmax. unfold validate_envelope_reader, decode_reader, decode_reader_with_usize_limit.
  rewrite !bind_map_err_ok. change DOMAIN_TAG_LEN with 8.
  destruct (read_section 8 Magic r) as [[found|e] r1]; [|done].
  case_decide as Hd; [done|].
  rewrite !bind_map_err_ok.
  destruct (read_section 2 Version r1) as [[v|e] r2] eqn:Ev; [|done].
  destruct (negb (from_be v =? envelope_version f)) eqn:Hv; [done|]. reflect_bools.
  rewrite !bind_map_err_ok.
  destruct (read_section 8 PayloadLength r2) as [[l|e] r3] eqn:El; [|done].
  destruct (max <? from_be l) eqn:Hm; [done|]. reflect_bools.
  destruct (usize_tests_pass max (from_be l)) as [-> ->]; [done|done|].
  apply read_section_data in Ev as [_ Hv2]. apply read_section_data in El as [_ Hl8].
  rewrite (header_read f) by done.
  rewrite !bind_map_err_ok, validate_payload_read. simpl ok_or. unfold lift at 1.
  rewrite !bind_map_err_ok.
  destruct (read_section (from_be l) Payload r3) as [[p|e] r4] eqn:Ep; [|done].
  apply read_section_data in Ep as [_ Hp].
  rewrite !bind_map_err_ok. change CHECKSUM_LEN with 4.
  destruct (read_section 4 Checksum r4) as [[sum|e] r5]; [|done].
  rewrite !bind_map_err_ok. destruct (expect_end r5) as [[[]|e] r6]; [|done].
  rewrite decode_crc. destruct (negb _); [done|]. simpl. by rewrite Hp.
Qed.

Lemma read_section_dense n s r a r' :
  read_section n s r = (Ok a, r') -> reader_dense r = true -> reader_dense r' = true.
Proof.
  unfold read_section, eff_map_err. intros E Hd.
  pose proof (read_exact_aux_dense r n [] Hd) as H. unfold read_exact in E.
  destruct (read_exact_aux r n []) as [[x|e] r0]; by simplify_eq/=.
Qed.

Lemma expect_end_dense r r' :
  expect_end r = (Ok tt, r') -> reader_dense r = true -> r = [].
Proof.
  unfold expect_end. intros E Hd. destruct (read 1 r) as [[[|b bs]|e] r0] eqn:Er; try done.
  apply read_dense_end in Er; [by destruct Er|done|lia].
Qed.

(** A payload decoded from any reader without a premature end, failures and
    interruptions included: the data of the reader was its envelope. *)
Lemma decode_reader_ok f max r p r' :
  reader_dense r = true -> decode_reader f max r = (Ok p, r') ->
  reader_data r = envelope f p /\ blen p <= max.
Proof.
  intros Hd. unfold decode_reader, decode_reader_with_usize_limit. rewrite !bind_map_err_ok.
  destruct (read_section 8 Magic r) as [[found|e] r1] eqn:E1; [|done].
  case_decide as Hdom; [done|]. rewrite !bind_map_err_ok.
  destruct (read_section 2 Version r1) as [[v|e] r2] eqn:E2; [|done].
  destruct (negb (from_be v =? envelope_version f)) eqn:Hv; [done|]. reflect_bools.
  rewrite !bind_map_err_ok.
  destruct (read_section 8 PayloadLength r2) as [[l|e] r3] eqn:E3; [|done].
  destruct (max <? from_be l) eqn:Hm; [done|].
  destruct (usize_MAX pointer_width <? from_be l); [done|]. reflect_bools.
  unfold lift. rewrite bind_map_err_ok. cbn [ok_or].
  destruct (usize_try_from _ _) as [n|] eqn:En; [|done].
  cbn [mbind option_bind]. destruct (checked_add _ _ _); [|done]. cbn [mbind option_bind ok_or].
  assert (n = from_be l) as ->.
  { unfold usize_try_from in En. by destruct (_ <=? _); simplify_eq. }
  rewrite !bind_map_err_ok.
  destruct (read_section (from_be l) Payload r3) as [[q|e] r4] eqn:E4; [|done].
  rewrite !bind_map_err_ok.
  destruct (read_section 4 Checksum r4) as [[sum|e] r5] eqn:E5; [|done].
  rewrite !bind_map_err_ok. destruct (expect_end r5) as [[[]|e] r6] eqn:E6; [|done].
  rewrite decode_crc. destruct (negb _) eqn:Hs; [done|]. unfold ret. intros; simplify_eq. reflect_bools.
  pose proof (read_section_dense _ _ _ _ _ E1 Hd) as D1.
  pose proof (read_section_dense _ _ _ _ _ E2 D1) as D2.
  pose proof (read_section_dense _ _ _ _ _ E3 D2) as D3.
  pose proof (read_section_dense _ _ _ _ _ E4 D3) as D4.
  pose proof (read_section_dense _ _ _ _ _ E5 D4) as D5.
  apply (expect_end_dense _ _ E6) in D5 as ->.
  apply read_section_data in E1 as [-> L1], E2 as [-> L2], E3 as [-> L3], E4 as [-> L4], E5 as [-> L5].
  split; [|lia]. change (reader_data []) with (@nil byte). unfold envelope.
  rewrite L4, <-Hs, <-(header_read f (domain_tag f) v l) by done.
  rewrite be_bytes_from_be by (unfold blen in *; lia). by rewrite app_nil_r, <-!app_assoc.
Qed.

(** ** Decoding, calm readers *)

Lemma decode_reader_calm f max r :
  reader_calm r = true -> fits_usize max ->
  fst (decode_reader f max r) = decode_spec f max (reader_data r).
Proof.
  intros Hc Hmax. unfold decode_reader, decode_reader_with_usize_limit, decode_spec.
  pose proof (read_section_cut 8 Magic r Hc) as H1. rewrite bind_map_err_ok.
  destruct (cut 8 Magic (reader_data r)) as [[a1 b1]|e1]; [|by rewrite H1].
  destruct H1 as (r1 & -> & <- & C1). case_decide as Hd; [done|].
  pose proof (read_section_cut 2 Version r1 C1) as H2. rewrite bind_map_err_ok.
  destruct (cut 2 Version (reader_data r1)) as [[a2 b2]|e2]; [|by rewrite H2].
  destruct H2 as (r2 & -> & <- & C2).
  destruct (from_be a2 =? envelope_version f) eqn:Hv; reflect_bools; cbn [negb];
    [rewrite decide_False by tauto|by rewrite decide_True].
  pose proof (read_section_cut 8 PayloadLength r2 C2) as H3. rewrite bind_map_err_ok.
  destruct (cut 8 PayloadLength (reader_data r2)) as [[a3 b3]|e3]; [|by rewrite H3].
  destruct H3 as (r3 & -> & <- & C3).
  destruct (max <? from_be a3) eqn:Hm; reflect_bools;
    [by rewrite decide_True|rewrite decide_False by lia].
  destruct (usize_tests_pass max (from_be a3)) as [-> ->]; [done|done|].
  simpl ok_or. unfold lift at 1. rewrite !bind_map_err_ok.
  pose proof (read_section_cut (from_be a3) Payload r3 C3) as H4.
  destruct (cut _ Payload (reader_data r3)) as [[a4 b4]|e4]; [|by rewrite H4].
  destruct H4 as (r4 & -> & <- & C4). rewrite bind_map_err_ok.
  pose proof (read_section_cut 4 Checksum r4 C4) as H5.
  destruct (cut 4 Checksum (reader_data r4)) as [[a5 b5]|e5]; [|by rewrite H5].
  destruct H5 as (r5 & -> & <- & C5). rewrite bind_map_err_ok, expect_end_calm by done.
  case_decide; [done|]. rewrite decode_crc.
  destruct (from_be a5 =? _) eqn:Hs; reflect_bools; cbn [negb];
    [by rewrite decide_False by tauto|by rewrite decide_True].
Qed.

(** Whatever byte string is accepted is the envelope of the payload. *)
Lemma decode_spec_ok f max bs p :
  valid_format f -> decode_spec f max bs = Ok p -> bs = envelope f p /\ blen p <= max.
Proof.
  intros Hf. unfold decode_spec.
  destruct (cut 8 Magic bs) as [[a1 b1]|] eqn:E1; [|done]. case_decide as Hd; [done|].
  destruct (cut 2 Version b1) as [[a2 b2]|] eqn:E2; [|done]. case_decide as Hv; [done|].
  destruct (cut 8 PayloadLength b2) as [[a3 b3]|] eqn:E3; [|done]. case_decide as Hm; [done|].
  destruct (cut _ Payload b3) as [[a4 b4]|] eqn:E4; [|done].
  destruct (cut 4 Checksum b4) as [[a5 b5]|] eqn:E5; [|done]. case_decide as Ht; [done|].
  case_decide as Hs; [done|]. intros; simplify_eq.
  apply cut_ok in E1 as [-> L1], E2 as [-> L2], E3 as [-> L3], E4 as [-> L4], E5 as [-> L5].
  split; [|lia]. unfold envelope. rewrite L4, <-Hs, <-(header_read f (domain_tag f) a2 a3) by done.
  rewrite be_bytes_from_be by (unfold blen in *; lia).
  by rewrite app_nil_r, <-!app_assoc.
Qed.

(** The header of an envelope is accepted, whatever follows it. *)
Lemma decode_spec_header f max n rest :
  valid_format f -> n <= max -> n <= U64_MAX ->
  decode_spec f max (header_of f n ++ rest) =
    (let? (payload, bs) := cut n Payload rest in
     let? (sum, bs) := cut 4 Checksum bs in
     if decide (bs <> []) then Err TrailingData else
     let actual := crc32c (header_of f n ++ payload) in
     if decide (from_be sum <> actual) then Err (ChecksumMismatch (from_be sum) actual) else
     Ok payload).
Proof.
  intros Hf Hn Hu. pose proof (valid_format_version f Hf) as Hv. destruct Hf as (Hd & _ & _).
  unfold decode_spec, header_of at 1. rewrite <-!app_assoc.
  rewrite cut_app by done. rewrite decide_False by tauto.
  rewrite cut_app by (unfold blen; by rewrite length_be_bytes).
  rewrite from_be_be_bytes by (change (256 ^ N.of_nat 2) with (2 ^ 16); lia).
  rewrite decide_False by tauto.
  rewrite cut_app by (unfold blen; by rewrite length_be_bytes).
  rewrite from_be_be_bytes by (rewrite <-u64_width; unfold U64_MAX in Hu; lia).
  by rewrite decide_False by lia.
Qed.

Lemma decode_spec_envelope f max p :
  valid_format f -> blen p <= max -> blen p <= U64_MAX ->
  decode_spec f max (envelope f p) = Ok p.
Proof.
  intros Hf Hp Hu. unfold envelope. rewrite decode_spec_header by done.
  rewrite cut_app by done. rewrite <-(app_nil_r (be_bytes 4 _)).
  rewrite cut_app by (unfold blen; by rewrite length_be_bytes).
  rewrite decide_False by tauto.
  rewrite from_be_be_bytes by (change (256 ^ N.of_nat 4) with (2 ^ 32); apply crc32c_lt).
  by rewrite decide_False by tauto.
Qed.

(** ** Interrupted readers *)

Lemma read_section_push n s a b tail :
  blen a = n -> read_section n s (push_data (a ++ b) tail) = (Ok a, push_data b tail).
Proof.
  intros <-. unfold read_section, eff_map_err, read_exact. rewrite read_exact_aux_data.
  rewrite blen_app. destruct (_ <=? _) eqn:?; reflect_bools; [|lia].
  unfold blen. by rewrite Nat2N.id, take_app_length, drop_app_length.
Qed.

Lemma decode_interrupted_first f max err r :
  kind err = Interrupted -> decode_reader f max (RFail err :: r) = decode_reader f max r.
Proof.
  intros Hk. unfold decode_reader, decode_reader_with_usize_limit. rewrite !bind_map_err_ok.
  assert (read_section 8 Magic (RFail err :: r) = read_section 8 Magic r) as ->; [|done].
  unfold read_section, eff_map_err, read_exact. cbn -[read_exact_aux]. cbn.
  by rewrite bool_decide_eq_true_2.
Qed.

Lemma envelope_nonempty f p : valid_format f -> envelope f p <> [].
Proof.
  intros Hf E. apply (f_equal blen) in E. unfold envelope in E.
  rewrite blen_app, length_header in E by done. change (blen []) with 0 in E. lia.
Qed.

(** An envelope in one piece is decoded; the probe then reads what follows. *)
Lemma decode_data_tail f max p tail :
  valid_format f -> fits_usize max -> blen p <= max ->
  decode_reader f max (push_data (envelope f p) tail) =
    match expect_end tail with
    | (Ok _, r) => (Ok p, r)
    | (Err e, r) => (Err e, r)
    end.
Proof.
  intros Hf Hm Hp. pose proof (valid_format_version f Hf) as Hv.
  assert (Hu : blen p <= U64_MAX).
  { unfold fits_usize in Hm. assert (usize_MAX pointer_width <= U64_MAX) by by destruct pointer_width.
    lia. }
  unfold decode_reader, decode_reader_with_usize_limit, envelope, header_of.
  rewrite <-!app_assoc.
  rewrite !bind_map_err_ok, read_section_push by by destruct Hf. rewrite decide_False by tauto.
  rewrite !bind_map_err_ok, read_section_push by (unfold blen; by rewrite length_be_bytes).
  rewrite from_be_be_bytes by (change (256 ^ N.of_nat 2) with (2 ^ 16); lia).
  rewrite N.eqb_refl. cbn [negb].
  rewrite !bind_map_err_ok, read_section_push by (unfold blen; by rewrite length_be_bytes).
  rewrite from_be_be_bytes by (rewrite <-u64_width; unfold U64_MAX in Hu; lia).
  destruct (max <? blen p) eqn:?; reflect_bools; [lia|].
  destruct (usize_tests_pass max (blen p)) as [-> ->]; [done|done|].
  cbn [ok_or]. unfold lift at 1.
  rewrite !bind_map_err_ok, read_section_push by done.
  rewrite <-(app_nil_r (be_bytes 4 _)).
  rewrite !bind_map_err_ok, read_section_push by (unfold blen; by rewrite length_be_bytes).
  cbn [push_data]. rewrite !bind_map_err_ok. destruct (expect_end tail) as [[[]|e] r]; [|done].
  rewrite decode_crc, from_be_be_bytes
    by (change (256 ^ N.of_nat 4) with (2 ^ 32); apply crc32c_lt).
  unfold header_of. rewrite <-!app_assoc. by rewrite N.eqb_refl.
Qed.

(** ** Streaming *)

Lemma write_section_ok bs w :
  writer_ok w = true ->
  exists w', write_section bs w = (Ok tt, w') /\ wr_data w' = wr_data w ++ bs /\ writer_ok w' = true.
Proof.
  intros Hw. destruct (write_all_ok bs w Hw) as (w' & E & Hd & Hok).
  exists w'. unfold write_section, eff_map_err. by rewrite E.
Qed.

Lemma write_section_inv bs w w' :
  write_section bs w = (Ok tt, w') -> wr_data w' = wr_data w ++ bs.
Proof.
  unfold write_section, eff_map_err. destruct (write_all bs w) as [[[]|e] w0] eqn:E; [|done].
  intros; simplify_eq/=. by apply (write_all_result _ _ (Ok tt)).
Qed.

(** Every sequence of messages is some chunks, then nothing or a completion. *)
Lemma messages_split msgs :
  exists cs tail, msgs = map Chunk cs ++ tail /\ (tail = [] \/ exists rest, tail = Complete :: rest).
Proof.
  induction msgs as [|[c|] msgs (cs & tail & -> & Ht)].
  - exists [], []. eauto.
  - exists (c :: cs), tail. eauto.
  - exists [], (Complete :: map Chunk cs ++ tail). eauto.
Qed.

(** What a stream of messages must answer, given its chunks and its tail. *)
Definition stream_answer (declared : N) (total : N) (tail : list SaveStreamMessage)
    : result unit AtomicBlobStoreError :=
  if decide (declared < total) then Err (InputHasTrailingData declared)
  else match tail with
       | [] => Err StreamCancelled
       | _ => if decide (total = declared) then Ok tt else Err (InputEndedEarly declared total)
       end.

Lemma write_stream_loop_answer declared cs tail pre written w :
  declared <= U64_MAX -> written <= declared -> writer_ok w = true ->
  (tail = [] \/ exists rest, tail = Complete :: rest) ->
  fst (write_stream_loop declared (map Chunk cs ++ tail) (crc32c pre) written w)
  = stream_answer declared (written + blen (concat cs)) tail.
Proof.
  intros Hd. revert pre written w. induction cs as [|c cs IH]; intros pre written w Hwr Hw Ht.
  - cbn [map concat app]. change (blen []) with 0. rewrite N.add_0_r. unfold stream_answer.
    rewrite decide_False by lia. destruct Ht as [->|[rest ->]]; [done|]. cbn [write_stream_loop].
    destruct (written =? declared) eqn:E; reflect_bools; cbn [negb].
    + destruct (write_section_ok (be_bytes 4 (crc32c pre)) w Hw) as (w' & -> & _).
      by rewrite decide_True.
    + by rewrite decide_False.
  - cbn [map concat app write_stream_loop]. rewrite blen_app. unfold checked_add.
    destruct (written + blen c <=? U64_MAX) eqn:E1; reflect_bools.
    2: { cbn. unfold stream_answer. rewrite decide_True by lia. done. }
    destruct (written + blen c <=? declared) eqn:E2; reflect_bools; cbn [negb].
    + destruct (write_section_ok c w Hw) as (w' & -> & _ & Hw').
      rewrite crc32c_append_app, IH by done. by rewrite N.add_assoc.
    + unfold stream_answer. rewrite decide_True by lia. done.
Qed.

(** Success, whatever the writer: exactly the declared bytes were streamed and
    completed, and they are followed by their checksum. *)
Lemma write_stream_loop_ok declared msgs pre written w w' rest :
  write_stream_loop declared msgs (crc32c pre) written w = (Ok tt, (w', rest)) ->
  exists cs, msgs = map Chunk cs ++ Complete :: rest /\ written + blen (concat cs) = declared /\
    wr_data w' = wr_data w ++ concat cs ++ be_bytes 4 (crc32c (pre ++ concat cs)).
Proof.
  revert pre written w. induction msgs as [|[c|] msgs IH]; intros pre written w E; [done| |].
  - cbn [write_stream_loop] in E. destruct (negb _); [done|].
    destruct (write_section c w) as [[[]|] w1] eqn:E1; [|done].
    rewrite crc32c_append_app in E. apply IH in E as (cs & -> & Hl & Hd).
    exists (c :: cs). cbn [map concat app]. rewrite blen_app.
    split_and!; [done|lia|]. rewrite Hd, (write_section_inv _ _ _ E1). by rewrite <-!app_assoc.
  - cbn [write_stream_loop] in E. destruct (written =? declared) eqn:E0; [|done]. cbn [negb] in E.
    destruct (write_section _ w) as [[[]|] w1] eqn:E1; [|done]. simplify_eq. reflect_bools.
    exists []. cbn. rewrite !app_nil_r. change (blen []) with 0.
    split_and!; [done|lia|by apply write_section_inv].
Qed.

Lemma write_stream_envelope_ok config declared w msgs w' rest :
  write_stream_envelope config declared (w, msgs) = (Ok tt, (w', rest)) ->
  exists cs, msgs = map Chunk cs ++ Complete :: rest /\ blen (concat cs) = declared /\
    declared <= maximum config /\
    wr_data w' = wr_data w ++ envelope (format config) (concat cs).
Proof.
  unfold write_stream_envelope, envelope_header. intros E.
  destruct (maximum config <? declared) eqn:Em; [done|]. reflect_bools.
  destruct (write_section _ w) as [[[]|] w1] eqn:E1; [|done].
  apply write_stream_loop_ok in E as (cs & -> & Hl & Hd). exists cs.
  rewrite N.add_0_l in Hl. split_and!; [done|done|done|].
  rewrite Hd, (write_section_inv _ _ _ E1), <-!app_assoc. unfold envelope, header_of.
  rewrite Hl. by rewrite <-!app_assoc.
Qed.

Lemma write_stream_envelope_answer config declared w cs tail :
  maximum config <= U64_MAX -> writer_ok w = true ->
  (tail = [] \/ exists rest, tail = Complete :: rest) ->
  fst (write_stream_envelope config declared (w, map Chunk cs ++ tail)) =
    if decide (maximum config < declared) then Err (BlobTooLarge declared (maximum config))
    else stream_answer declared (blen (concat cs)) tail.
Proof.
  intros Hm Hw Ht. unfold write_stream_envelope, envelope_header.
  destruct (maximum config <? declared) eqn:Em; reflect_bools;
    [by rewrite decide_True|rewrite decide_False by lia].
  destruct (write_section_ok (domain_tag (format config) ++
    be_bytes 2 (envelope_version (format config)) ++ be_bytes 8 declared) w Hw) as (w1 & -> & _ & Hw1).
  rewrite write_stream_loop_answer by first [done|lia]. by rewrite N.add_0_l.
Qed.

End CodecTheory.

(** ** Properties *)

Section Properties.
Context {Crc : Crc32c} {CrcL : Crc32cLaws} {Tgt : Target}.

(** C32: the decoder's answer on every branch.  On a reader that delivers [bs]
    in any pieces, [decode_reader] answers what the specification of version 1
    says about [bs], errors included. *)
Theorem decode_reader_spec f max r :
  reader_calm r = true -> fits_usize max ->
  fst (decode_reader f max r) = decode_spec f max (reader_data r).
Proof. apply decode_reader_calm. Qed.

(** C33: round trip.  What [encode_envelope] writes is decoded to the payload,
    and validated with its length, however the reader splits it. *)
Theorem encode_decode_roundtrip f max p e r :
  valid_format f -> fits_usize max -> encode_envelope f p max = Ok e ->
  reader_calm r = true -> reader_data r = e ->
  fst (decode_reader f max r) = Ok p /\
  fst (validate_envelope_reader f max r) = Ok {| payload_len := blen p |}.
Proof.
  intros Hf Hm He Hc Hr. apply encode_envelope_ok in He as (-> & Hp & Hu).
  pose proof (decode_reader_calm f max r Hc Hm) as Hd.
  rewrite Hr, decode_spec_envelope in Hd by done. split; [done|].
  rewrite validate_decode by done. destruct (decode_reader f max r). by simplify_eq/=.
Qed.

(** Only envelopes are accepted.  A byte string that decodes to a payload is
    the one envelope the encoder produces for that payload, within the limit. *)
Theorem decode_accepts_only_envelopes f max r p :
  valid_format f -> fits_usize max -> reader_calm r = true ->
  fst (decode_reader f max r) = Ok p ->
  encode_envelope f p max = Ok (reader_data r) /\ blen p <= max.
Proof.
  intros Hf Hm Hc Hd. rewrite decode_reader_calm in Hd by done.
  apply decode_spec_ok in Hd as [-> Hp]; [|done]. split; [|done].
  unfold fits_usize, HEADER_LEN, CHECKSUM_LEN in Hm.
  assert (usize_MAX pointer_width <= U64_MAX) by by destruct pointer_width.
  apply encode_envelope_fits; lia.
Qed.

(** The bounded-memory validator and the allocating decoder are
    interchangeable.  On every reader, failing and interrupted ones included,
    they consume the same input, report the same errors, and accept together. *)
Theorem validate_agrees_with_decode f max r :
  fits_usize max ->
  validate_envelope_reader f max r =
    let (x, r') := decode_reader f max r in
    (map_ok (fun p => {| payload_len := blen p |}) x, r').
Proof. apply validate_decode. Qed.

Lemma cut_prefix n s bs t x rest :
  bs ++ t = x ++ rest -> blen x = n ->
  cut n s bs = Err (TruncatedEnvelope s) \/ exists b, cut n s bs = Ok (x, b) /\ b ++ t = rest.
Proof.
  intros E Hn. destruct (N.lt_ge_cases (blen bs) n) as [Hlt|Hge].
  - left. by apply cut_short.
  - right. exists (drop (length x) bs).
    assert (Hl : (length x <= length bs)%nat) by (unfold blen in *; lia).
    assert (take (length x) bs = x) as Hx.
    { apply (f_equal (take (length x))) in E. by rewrite take_app_le, take_app_length in E. }
    split.
    + unfold cut. destruct (_ <? _) eqn:?; reflect_bools; [lia|].
      subst n. unfold blen. by rewrite Nat2N.id, Hx.
    + apply (f_equal (drop (length x))) in E. by rewrite drop_app_le, drop_app_length in E.
Qed.

(** Incomplete and oversized files fail closed.  Every strict prefix of an
    envelope is reported as truncated, and every extension as trailing data. *)
Theorem damaged_envelopes_rejected f max p bs t :
  valid_format f -> fits_usize max -> blen p <= max -> t <> [] ->
  (bs ++ t = envelope f p ->
     exists section, decode_spec f max bs = Err (TruncatedEnvelope section)) /\
  decode_spec f max (envelope f p ++ t) = Err TrailingData.
Proof.
  intros Hf Hm Hp Ht. pose proof (valid_format_version f Hf) as Hv.
  assert (Hu : blen p <= U64_MAX).
  { unfold fits_usize in Hm. assert (usize_MAX pointer_width <= U64_MAX) by by destruct pointer_width.
    lia. }
  split.
  - unfold envelope, header_of. rewrite <-!app_assoc. intros E. unfold decode_spec.
    destruct (cut_prefix 8 Magic _ _ _ _ E) as [->|(b1 & -> & E1)]; [by destruct Hf|eauto|].
    rewrite decide_False by tauto.
    destruct (cut_prefix 2 Version _ _ _ _ E1) as [->|(b2 & -> & E2)];
      [unfold blen; by rewrite length_be_bytes|eauto|].
    rewrite from_be_be_bytes by (change (256 ^ N.of_nat 2) with (2 ^ 16); lia).
    rewrite decide_False by tauto.
    destruct (cut_prefix 8 PayloadLength _ _ _ _ E2) as [->|(b3 & -> & E3)];
      [unfold blen; by rewrite length_be_bytes|eauto|].
    rewrite from_be_be_bytes by (rewrite <-u64_width; unfold U64_MAX in Hu; lia).
    rewrite decide_False by lia.
    destruct (cut_prefix _ Payload _ _ _ _ E3 eq_refl) as [->|(b4 & -> & E4)]; [eauto|].
    rewrite <-(app_nil_r (be_bytes 4 _)) in E4.
    destruct (cut_prefix 4 Checksum _ _ _ _ E4) as [->|(b5 & -> & E5)];
      [unfold blen; by rewrite length_be_bytes|eauto|].
    apply app_nil in E5 as [_ ->]. done.
  - unfold envelope. rewrite <-app_assoc. rewrite decode_spec_header by done.
    rewrite <-app_assoc, cut_app by done.
    rewrite cut_app by (unfold blen; by rewrite length_be_bytes). by rewrite decide_True.
Qed.

(** Streaming does not change the encoding.  When [write_stream_envelope]
    succeeds, the messages were chunks and a completion, the chunks had exactly
    the declared length, and the writer holds what [encode_envelope] gives for
    their concatenation, whatever the writer did on the way. *)
Theorem stream_writes_envelope config declared w msgs w' rest :
  maximum config <= U64_MAX ->
  write_stream_envelope config declared (w, msgs) = (Ok tt, (w', rest)) ->
  exists cs e, msgs = map Chunk cs ++ Complete :: rest /\ blen (concat cs) = declared /\
    encode_envelope (format config) (concat cs) (maximum config) = Ok e /\
    wr_data w' = wr_data w ++ e.
Proof.
  intros Hm E. apply write_stream_envelope_ok in E as (cs & -> & Hl & Hd & Hw).
  exists cs, (envelope (format config) (concat cs)). split_and!; try done.
  apply encode_envelope_fits; [by rewrite Hl|done].
Qed.

(** The answer of a streaming save on every branch: too large, more data
    than declared, less data at the completion, or no completion at all
    (cancelled), and success exactly when the declared length was streamed. *)
Theorem stream_answer_spec config declared w cs tail :
  maximum config <= U64_MAX -> writer_ok w = true ->
  (tail = [] \/ exists rest, tail = Complete :: rest) ->
  fst (write_stream_envelope config declared (w, map Chunk cs ++ tail)) =
    if decide (maximum config < declared) then Err (BlobTooLarge declared (maximum config))
    else if decide (declared < blen (concat cs)) then Err (InputHasTrailingData declared)
    else match tail with
         | [] => Err StreamCancelled
         | _ => if decide (blen (concat cs) = declared) then Ok tt
                else Err (InputEndedEarly declared (blen (concat cs)))
         end.
Proof. apply write_stream_envelope_answer. Qed.

(** Interruptions.  A section is read across interrupted calls, but the
    end-of-file probe after the checksum does not retry: a whole envelope
    followed by one interrupted call is reported as an I/O error. *)
Theorem interrupted_probe_is_an_error f max p err :
  valid_format f -> fits_usize max -> blen p <= max -> kind err = Interrupted ->
  fst (decode_reader f max [RFail err; RData (envelope f p)]) = Ok p /\
  fst (decode_reader f max [RData (envelope f p); RFail err]) = Err (Io ReadEnvelope err).
Proof.
  intros Hf Hm Hp Hk. pose proof (envelope_nonempty f p Hf) as Hne.
  assert (forall tail, RData (envelope f p) :: tail = push_data (envelope f p) tail) as E
    by (intros; by destruct (envelope f p)).
  rewrite decode_interrupted_first, !E, !decode_data_tail by done. done.
Qed.
End Properties.

(** ** Evaluations *)

Lemma fits_usize_witness : fits_usize 1024.
Proof. by vm_compute. Qed.

Definition fixture_envelope : bytes := envelope fixture_format (bstr "abc").

Lemma decode_reader_spec_witness :
  fst (decode_reader fixture_format 1024 [RData (take 5 fixture_envelope); RData (drop 5 fixture_envelope)])
  = decode_spec fixture_format 1024 fixture_envelope.
Proof.
  apply (decode_reader_spec fixture_format 1024
    [RData (take 5 fixture_envelope); RData (drop 5 fixture_envelope)]); by vm_compute.
Defined.

Lemma encode_decode_roundtrip_witness :
  fst (decode_reader fixture_format 1024 [RData fixture_envelope]) = Ok (bstr "abc") /\
  fst (validate_envelope_reader fixture_format 1024 [RData fixture_envelope]) = Ok {| payload_len := 3 |}.
Proof.
  apply (encode_decode_roundtrip fixture_format 1024 (bstr "abc") fixture_envelope
    [RData fixture_envelope]); by vm_compute.
Defined.

Lemma decode_accepts_only_envelopes_witness :
  encode_envelope fixture_format (bstr "abc") 1024 = Ok fixture_envelope /\ 3 <= 1024.
Proof.
  apply (decode_accepts_only_envelopes fixture_format 1024 [RData fixture_envelope] (bstr "abc"));
    by vm_compute.
Defined.

Lemma validate_agrees_with_decode_witness :
  validate_envelope_reader fixture_format 1024 [RData (take 20 fixture_envelope)] =
  (Err (TruncatedEnvelope Payload), []).
Proof.
  rewrite (validate_agrees_with_decode fixture_format 1024) by by vm_compute. by vm_compute.
Defined.

Lemma damaged_envelopes_rejected_witness :
  (exists section, decode_spec fixture_format 1024 (take 22 fixture_envelope)
     = Err (TruncatedEnvelope section)) /\
  decode_spec fixture_format 1024 (fixture_envelope ++ drop 22 fixture_envelope) = Err TrailingData.
Proof.
  destruct (damaged_envelopes_rejected fixture_format 1024 (bstr "abc") (take 22 fixture_envelope)
    (drop 22 fixture_envelope)) as [Ha Hb]; try by vm_compute.
  split; [by apply Ha; vm_compute|exact Hb].
Defined.

Definition fixture_config : StoreConfig :=
  {| namespace := bstr "/srv/cache"; format := fixture_format; maximum := 1024;
     config_max_concurrent_operations := 4 |}.

Lemma stream_writes_envelope_witness :
  exists cs e, [Chunk (bstr "ab"); Chunk (bstr "c"); Complete] = map Chunk cs ++ [Complete] /\
    blen (concat cs) = 3 /\
    encode_envelope fixture_format (concat cs) 1024 = Ok e /\ fixture_envelope = [] ++ e.
Proof.
  apply (stream_writes_envelope fixture_config 3 (Writer [] [])
    [Chunk (bstr "ab"); Chunk (bstr "c"); Complete] (Writer fixture_envelope []) []); by vm_compute.
Defined.

Lemma stream_answer_spec_witness :
  fst (write_stream_envelope fixture_config 3 (Writer [] [], [Chunk (bstr "ab"); Complete]))
  = Err (InputEndedEarly 3 2).
Proof.
  apply (stream_answer_spec fixture_config 3 (Writer [] []) [bstr "ab"] [Complete]);
    [by vm_compute|by vm_compute|right; by exists []].
Defined.

Lemma interrupted_probe_is_an_error_witness :
  fst (decode_reader fixture_format 1024
    [RFail (IoError Interrupted (Some 4%Z)); RData fixture_envelope]) = Ok (bstr "abc") /\
  fst (decode_reader fixture_format 1024
    [RData fixture_envelope; RFail (IoError Interrupted (Some 4%Z))])
  = Err (Io ReadEnvelope (IoError Interrupted (Some 4%Z))).
Proof.
  apply (interrupted_probe_is_an_error fixture_format 1024 (bstr "abc")
    (IoError Interrupted (Some 4%Z))); by vm_compute.
Defined.

(** The fixtures under [tests/fixtures/v1]: the header of a 3-byte payload, the
    payload and its checksum. *)
Definition fixture_header : bytes := bstr "BLOBTEST" ++ be_bytes 2 1 ++ be_bytes 8 3.
Definition fixture_valid : bytes := fixture_header ++ bstr "abc" ++ be_bytes 4 3082456079.

(** The immutable fixtures of version 1.  The valid one is what the encoder
    writes and decodes to [abc]; the six damaged ones are rejected, each with
    its own error. *)
Theorem fixtures_define_compatibility :
  let decode bs := fst (decode_reader fixture_format 1024 [RData bs]) in
  encode_envelope fixture_format (bstr "abc") 1024 = Ok fixture_valid /\
  decode fixture_valid = Ok (bstr "abc") /\
  decode (take 24 fixture_valid) = Err (TruncatedEnvelope Checksum) /\
  decode (bstr "BLOBTEST" ++ be_bytes 2 1 ++ be_bytes 8 1025) = Err (BlobTooLarge 1025 1024) /\
  decode (fixture_header ++ bstr "abc" ++ be_bytes 4 3082456078)
    = Err (ChecksumMismatch 3082456078 3082456079) /\
  decode (fixture_valid ++ [Byte.x00]) = Err TrailingData /\
  decode (bstr "CLOBTEST" ++ drop 8 fixture_valid)
    = Err (InvalidEnvelopeDomain (bstr "BLOBTEST") (bstr "CLOBTEST")) /\
  decode (bstr "BLOBTEST" ++ be_bytes 2 2 ++ drop 10 fixture_valid)
    = Err (UnsupportedEnvelopeVersion 2).
Proof. by vm_compute. Qed.
