(* ===== verification/Bench.v ===== *)
(** * The codec that the benchmarks measure

    [bench_instrumentation] of [src/src/lib.rs]: the encoder and the decoder of the
    store under other names, and the sizes that a benchmark needs.  The events
    that the instrumented code emits are not modelled. *)
From S2P Require Export FormatSpec.

Local Open Scope N_scope.
Local Open Scope blob_scope.

Section Bench.
Context {Crc : Crc32c} {CrcL : Crc32cLaws} {Tgt : Target}.

Definition ENVELOPE_OVERHEAD : N := HEADER_LEN + CHECKSUM_LEN.
Definition STREAM_CHUNK_BYTES : N := STREAM_CHUNK_SIZE.

Definition encode (format : BlobFormatIdentity) (payload : bytes) (maximum : N)
    : result bytes AtomicBlobStoreError := encode_envelope format payload maximum.

Definition decode (format : BlobFormatIdentity) (maximum : N)
    : eff reader AtomicBlobStoreError bytes := decode_reader format maximum.

(** What is measured is the codec of the store: the overhead is exact, and an
    encoded payload decodes to itself. *)
Theorem measured_codec_roundtrip f maximum payload e r :
  valid_format f -> fits_usize maximum -> encode f payload maximum = Ok e ->
  reader_calm r = true -> reader_data r = e ->
  blen e = blen payload + ENVELOPE_OVERHEAD /\ fst (decode f maximum r) = Ok payload.
Proof.
  intros Hf Hm He Hc Hr. apply encode_envelope_ok in He as (-> & Hp & Hu). split.
  - unfold envelope. rewrite blen_app, blen_app, length_header by done.
    unfold ENVELOPE_OVERHEAD, HEADER_LEN, CHECKSUM_LEN, blen. rewrite length_be_bytes. lia.
  - pose proof (decode_reader_calm f maximum r Hc Hm) as Hd.
    by rewrite Hr, decode_spec_envelope in Hd.
Qed.

End Bench.

Lemma measured_codec_roundtrip_witness :
  fst (decode fixture_format 1024 [RData fixture_envelope]) = Ok (bstr "abc").
Proof.
  by apply (measured_codec_roundtrip fixture_format 1024 (bstr "abc") fixture_envelope [RData fixture_envelope]);
    vm_compute.
Defined.
