(* ===== verification/World.v ===== *)
(** * The filesystem and the process environment

    [std::fs] as the crate uses it, over a map from paths to nodes.  A [World]
    also holds what the environment answers: the failures of the next system
    calls, how the next opened files deliver their bytes, the entropy source
    and the current directory.  Every system call is recorded in a log with the
    filesystem it leaves, so that the log of a run is the sequence of states in
    which the process can be interrupted. *)
From S2P Require Export Paths.

Local Open Scope N_scope.
Local Open Scope blob_scope.

Inductive Node :=
| Regular (content : bytes) (mtime : option Z)
| Directory
| Symlink (target : Path)
| Special.

#[export] Instance node_eq_dec : EqDecision Node.
Proof. solve_decision. Defined.

Abbreviation FsMap := (gmap Path Node).

Inductive Syscall :=
| SysMetadata (p : Path)
| SysSymlinkMetadata (p : Path)
| SysCreateDir (p : Path)
| SysOpen (p : Path)
| SysSync (p : Path)
| SysRemoveFile (p : Path)
| SysRename (source destination : Path)
| SysReadDir (p : Path)
| SysWrite (p : Path)
| SysSetTimes (p : Path)
| SysExtern (p : Path).

(** How an opened file answers its reads: a short read, or a failure; past the
    end of the plan the rest is available at once. *)
Inductive plan_event :=
| PShort (n : positive)
| PFail (e : io_error).

Record World := mkWorld {
  w_fs : FsMap;
  w_faults : list (option io_error);     (* the next system calls; past its end, none fails *)
  w_reads : list (list plan_event);      (* the next opened files *)
  w_entropy : nat -> result bytes N;     (* the answers of [getrandom::fill] *)
  w_entropy_used : nat;
  w_now : Z;
  w_cwd : result Path io_error;          (* [std::env::current_dir] *)
  w_extern : list (option io_error);     (* for the instances of external crates *)
  w_log : list (Syscall * FsMap);           (* newest first *)
}.

Definition set_fs (fs : FsMap) (w : World) : World :=
  mkWorld fs (w_faults w) (w_reads w) (w_entropy w) (w_entropy_used w) (w_now w) (w_cwd w)
    (w_extern w) (w_log w).
Definition set_faults (l : list (option io_error)) (w : World) : World :=
  mkWorld (w_fs w) l (w_reads w) (w_entropy w) (w_entropy_used w) (w_now w) (w_cwd w)
    (w_extern w) (w_log w).
Definition set_reads (l : list (list plan_event)) (w : World) : World :=
  mkWorld (w_fs w) (w_faults w) l (w_entropy w) (w_entropy_used w) (w_now w) (w_cwd w)
    (w_extern w) (w_log w).
Definition set_entropy_used (n : nat) (w : World) : World :=
  mkWorld (w_fs w) (w_faults w) (w_reads w) (w_entropy w) n (w_now w) (w_cwd w)
    (w_extern w) (w_log w).
Definition set_extern (l : list (option io_error)) (w : World) : World :=
  mkWorld (w_fs w) (w_faults w) (w_reads w) (w_entropy w) (w_entropy_used w) (w_now w) (w_cwd w)
    l (w_log w).
Definition log_call (c : Syscall) (w : World) : World :=
  mkWorld (w_fs w) (w_faults w) (w_reads w) (w_entropy w) (w_entropy_used w) (w_now w) (w_cwd w)
    (w_extern w) ((c, w_fs w) :: w_log w).

(** Several states, newest first. *)
Definition log_states (states : list (Syscall * FsMap)) (w : World) : World :=
  mkWorld (w_fs w) (w_faults w) (w_reads w) (w_entropy w) (w_entropy_used w) (w_now w) (w_cwd w)
    (w_extern w) (states ++ w_log w).

(** ** Errors of the operating system *)

Definition ENOENT : io_error := IoError NotFound (Some 2%Z).
Definition EEXIST : io_error := IoError AlreadyExists (Some 17%Z).
Definition ENOTDIR : io_error := IoError NotADirectory (Some 20%Z).
Definition EISDIR : io_error := IoError IsADirectory (Some 21%Z).
Definition ELOOP : io_error := IoError KindOther (Some 40%Z).

(** [io::Error::from_raw_os_error] on Unix. *)
Definition from_raw_os_error (code : Z) : io_error :=
  IoError
    (if decide (code = 2%Z) then NotFound
     else if decide (code = 1%Z \/ code = 13%Z) then PermissionDenied
     else if decide (code = 17%Z) then AlreadyExists
     else if decide (code = 20%Z) then NotADirectory
     else if decide (code = 21%Z) then IsADirectory
     else if decide (code = 39%Z) then DirectoryNotEmpty
     else if decide (code = 4%Z) then Interrupted
     else if decide (code = 28%Z) then StorageFull
     else KindOther)
    (Some code).

(** ** System calls *)

(** Runs one call: an injected failure leaves the filesystem as it is. *)
Definition syscall {A} (c : Syscall) (op : FsMap -> result A io_error * FsMap) : eff World io_error A :=
  fun w =>
    match w_faults w with
    | Some e :: faults => (Err e, log_call c (set_faults faults w))
    | faults =>
        let (r, fs) := op (w_fs w) in
        (r, log_call c (set_fs fs (set_faults (tail faults) w)))
    end.

(** The directory that holds the entry of [p]: what precedes its last slash. *)
Fixpoint rsplit_slash (p : bytes) : option (bytes * bytes) :=
  match p with
  | [] => None
  | b :: rest =>
      match rsplit_slash rest with
      | Some (before, after) => Some (b :: before, after)
      | None => if is_sep b then Some ([], rest) else None
      end
  end.

Definition parent_dir (p : Path) : Path :=
  match rsplit_slash p with
  | Some ([], _) => [SLASH]
  | Some (d, _) => d
  | None => []
  end.

(** The error for a path that has no entry: a parent that is not a directory
    gives [ENOTDIR]. *)
Definition absent_error (fs : FsMap) (p : Path) : io_error :=
  match fs !! parent_dir p with
  | Some (Regular _ _) | Some Special => ENOTDIR
  | _ => ENOENT
  end.

(** Follows symbolic links, as [metadata] and [open] do. *)
Fixpoint resolve (fuel : nat) (fs : FsMap) (p : Path) : result Node io_error :=
  match fs !! p with
  | None => Err (absent_error fs p)
  | Some (Symlink target) =>
      match fuel with O => Err ELOOP | S fuel' => resolve fuel' fs target end
  | Some n => Ok n
  end.

Definition SYMLINK_MAX : nat := 40.

Definition fs_metadata (p : Path) : eff World io_error Node :=
  syscall (SysMetadata p) (fun fs => (resolve SYMLINK_MAX fs p, fs)).

Definition fs_symlink_metadata (p : Path) : eff World io_error Node :=
  syscall (SysSymlinkMetadata p) (fun fs => (ok_or (fs !! p) (absent_error fs p), fs)).

Definition fs_create_dir (p : Path) : eff World io_error unit :=
  syscall (SysCreateDir p) (fun fs =>
    match fs !! p with
    | Some _ => (Err EEXIST, fs)
    | None =>
        match resolve SYMLINK_MAX fs (parent_dir p) with
        | Ok Directory => (Ok tt, <[p := Directory]> fs)
        | Ok _ => (Err ENOTDIR, fs)
        | Err e => (Err e, fs)
        end
    end).

Definition fs_remove_file (p : Path) : eff World io_error unit :=
  syscall (SysRemoveFile p) (fun fs =>
    match fs !! p with
    | None => (Err (absent_error fs p), fs)
    | Some Directory => (Err EISDIR, fs)
    | Some _ => (Ok tt, delete p fs)
    end).

(** ** Files *)

(** An open file: the node it refers to, which later renames and removals do
    not touch, and the reader it is at the current position. *)
Record File := {
  f_node : Node;
  f_reader : reader;
}.

Fixpoint plan_reader (plan : list plan_event) (data : bytes) : reader :=
  match plan with
  | [] => push_data data []
  | PShort n :: plan' =>
      push_data (take (Pos.to_nat n) data) (plan_reader plan' (drop (Pos.to_nat n) data))
  | PFail e :: plan' => RFail e :: plan_reader plan' data
  end.

(** Reading a directory fails; a special file has nothing to read here. *)
Definition node_reader (plan : list plan_event) (position : N) (n : Node) : reader :=
  match n with
  | Regular content _ => plan_reader plan (drop (N.to_nat position) content)
  | Directory => [RFail EISDIR]
  | _ => []
  end.

Definition fs_open (p : Path) : eff World io_error File := fun w =>
  let (r, w') := syscall (SysOpen p) (fun fs => (resolve SYMLINK_MAX fs p, fs)) w in
  match r with
  | Err e => (Err e, w')
  | Ok n => (Ok {| f_node := n; f_reader := node_reader (default [] (head (w_reads w'))) 0 n |},
             set_reads (tail (w_reads w')) w')
  end.

(** [Seek::seek(SeekFrom::Start(position))]. *)
Definition fs_seek (position : N) (f : File) : eff World io_error File := fun w =>
  match w_faults w with
  | Some e :: faults => (Err e, set_faults faults w)
  | faults =>
      (Ok {| f_node := f_node f;
             f_reader := node_reader (default [] (head (w_reads w))) position (f_node f) |},
       set_reads (tail (w_reads w)) (set_faults (tail faults) w))
  end.

(** [File::sync_all] on the file opened at [p]. *)
Definition fs_sync_all (p : Path) : eff World io_error unit :=
  syscall (SysSync p) (fun fs => (Ok tt, fs)).

(** ** The environment *)

(** The [getrandom] crate: [fill] on a 32-byte buffer, as the environment
    answers it. *)
Definition getrandom_fill : eff World N bytes := fun w =>
  (w_entropy w (w_entropy_used w), set_entropy_used (S (w_entropy_used w)) w).

Definition current_dir : eff World io_error Path := fun w => (w_cwd w, w).

(** ** Observations *)

Definition not_directory (n : Node) : Prop := n <> Directory.

(** No failure is scheduled and every file can be read. *)
Definition plan_event_calm (ev : plan_event) : bool :=
  match ev with PShort _ => true | PFail _ => false end.

Definition calm (w : World) : Prop :=
  forallb (fun o => match o with None => true | Some _ => false end) (w_faults w) = true /\
  forallb (forallb plan_event_calm) (w_reads w) = true.

(** A failure that the environment injects is not a statement about the
    entries: calls that fail with [NotFound] or [AlreadyExists] looked. *)
Definition honest_error (e : io_error) : bool :=
  bool_decide (kind e <> NotFound) && bool_decide (kind e <> AlreadyExists).

Definition honest (w : World) : Prop :=
  forallb (fun o => match o with None => true | Some e => honest_error e end) (w_faults w) = true.

(** [fs'] differs from [fs] at most on [X]. *)
Definition agree_off (X : Path -> Prop) (fs fs' : FsMap) : Prop :=
  forall p, ~ X p -> fs' !! p = fs !! p.

(** The run from [w] to [w'] went through states that satisfy [P] only, the
    last one included, and kept the clock, the entropy and the directory. *)
Record passes (P : FsMap -> Prop) (w w' : World) : Prop := {
  passes_log : exists new, w_log w' = new ++ w_log w /\ Forall (fun '(_, fs) => P fs) new;
  passes_last : P (w_fs w');
  passes_entropy : w_entropy w' = w_entropy w;
  passes_now : w_now w' = w_now w;
  passes_cwd : w_cwd w' = w_cwd w;
  passes_calm : calm w -> calm w';
  passes_honest : honest w -> honest w';
}.

(** ** Lemmas *)

Lemma honest_error_kind e : honest_error e = true -> kind e <> NotFound /\ kind e <> AlreadyExists.
Proof. unfold honest_error. intros H. by reflect_bools. Qed.

Lemma agree_off_refl X fs : agree_off X fs fs.
Proof. by intros p. Qed.

Lemma agree_off_trans X fs1 fs2 fs3 :
  agree_off X fs1 fs2 -> agree_off X fs2 fs3 -> agree_off X fs1 fs3.
Proof. intros H1 H2 p Hp. by rewrite H2, H1. Qed.

Lemma agree_off_mono (X Y : Path -> Prop) fs fs' :
  (forall p, X p -> Y p) -> agree_off X fs fs' -> agree_off Y fs fs'.
Proof. intros H Ha p Hp. apply Ha. auto. Qed.

Lemma agree_off_insert (X : Path -> Prop) fs p n : X p -> agree_off X fs (<[p := n]> fs).
Proof. intros Hp q Hq. apply lookup_insert_ne. by intros ->. Qed.

Lemma agree_off_delete (X : Path -> Prop) fs p : X p -> agree_off X fs (delete p fs).
Proof. intros Hp q Hq. apply lookup_delete_ne. by intros ->. Qed.

Lemma passes_refl (P : FsMap -> Prop) w : P (w_fs w) -> passes P w w.
Proof. intros. split; try done. by exists []. Qed.

Lemma passes_mono (P Q : FsMap -> Prop) w w' :
  (forall fs, P fs -> Q fs) -> passes P w w' -> passes Q w w'.
Proof.
  intros HPQ [(new & Hl & Hf) HL He Hn Hc Hk Hh]. split; try done; [|by apply HPQ].
  exists new. split; [done|]. eapply Forall_impl; [done|]. intros []; apply HPQ.
Qed.

Lemma passes_trans P w1 w2 w3 : passes P w1 w2 -> passes P w2 w3 -> passes P w1 w3.
Proof.
  intros [(n1 & L1 & F1) ??????] [(n2 & L2 & F2) ??????]. split; try (congruence || eauto).
  exists (n2 ++ n1). split; [by rewrite L2, L1, app_assoc|by apply Forall_app].
Qed.

Lemma calm_tail w : calm w -> forallb (fun o => match o with None => true | Some _ => false end)
  (tail (w_faults w)) = true.
Proof. intros [H _]. destruct (w_faults w); [done|]. by apply andb_prop in H as [_ ?]. Qed.

Lemma honest_tail w : honest w -> forallb (fun o => match o with None => true | Some e => honest_error e end)
  (tail (w_faults w)) = true.
Proof. unfold honest. destruct (w_faults w); [done|]. intros H. by apply andb_prop in H as [_ ?]. Qed.

Lemma calm_honest w : calm w -> honest w.
Proof.
  intros [H _]. unfold honest. rewrite forallb_forall in *. intros o Ho. apply H in Ho. by destruct o.
Qed.

(** A system call: its failure changes nothing, its success is the operation. *)
Lemma syscall_passes {A} (c : Syscall) (op : FsMap -> result A io_error * FsMap) (w : World) (P : FsMap -> Prop) :
  P (w_fs w) -> P (snd (op (w_fs w))) -> passes P w (snd (syscall c op w)).
Proof.
  intros H1 H2.
  assert (Hgen : forall fs, P fs -> passes P w (log_call c (set_fs fs (set_faults (tail (w_faults w)) w)))).
  { intros fs Hfs. split; simpl; try done; [by exists [(c, fs)]; split; [|apply Forall_singleton]| |].
    - intros Hc. split; [by apply calm_tail|apply Hc].
    - apply honest_tail. }
  unfold syscall. destruct (w_faults w) as [|[e|] faults] eqn:E; simpl in Hgen.
  2: by apply (Hgen (w_fs w)).
  all: destruct (op (w_fs w)) as [r fs]; simpl in *; auto.
Qed.

Lemma syscall_calm {A} (c : Syscall) (op : FsMap -> result A io_error * FsMap) (w : World) :
  calm w ->
  fst (syscall c op w) = fst (op (w_fs w)) /\
  w_fs (snd (syscall c op w)) = snd (op (w_fs w)) /\
  w_reads (snd (syscall c op w)) = w_reads w /\
  calm (snd (syscall c op w)).
Proof.
  intros [Hf Hr]. unfold syscall. destruct (w_faults w) as [|[e|] faults] eqn:E; [|done|];
    destruct (op (w_fs w)) as [r fs]; repeat split; try done; simpl.
Qed.

(** An honest call that fails says what its operation says, or that the
    environment interfered. *)
Lemma syscall_err {A} (c : Syscall) (op : FsMap -> result A io_error * FsMap) (w : World) e w' :
  honest w -> syscall c op w = (Err e, w') ->
  honest_error e = true \/ fst (op (w_fs w)) = Err e.
Proof.
  unfold honest, syscall. intros Hh E. destruct (w_faults w) as [|[e'|] faults].
  - destruct (op (w_fs w)) as [r fs]. simplify_eq. by right.
  - simplify_eq. left. by apply andb_prop in Hh as [? _].
  - destruct (op (w_fs w)) as [r fs]. simplify_eq. by right.
Qed.

Lemma syscall_ok {A} (c : Syscall) (op : FsMap -> result A io_error * FsMap) (w : World) a w' :
  syscall c op w = (Ok a, w') ->
  fst (op (w_fs w)) = Ok a /\ w_fs w' = snd (op (w_fs w)) /\ w_log w' = (c, w_fs w') :: w_log w.
Proof.
  unfold syscall. intros E. destruct (w_faults w) as [|[e'|] faults]; try done;
    destruct (op (w_fs w)) as [r fs]; by simplify_eq/=.
Qed.

Lemma plan_reader_data plan data : reader_data (plan_reader plan data) = data.
Proof.
  revert data; induction plan as [|[n|e] plan IH]; intros data; simpl.
  - by rewrite reader_data_push, app_nil_r.
  - by rewrite reader_data_push, IH, take_drop.
  - by rewrite reader_data_cons, IH.
Qed.

Lemma plan_reader_calm plan data :
  forallb plan_event_calm plan = true -> reader_calm (plan_reader plan data) = true.
Proof.
  revert data; induction plan as [|[n|e] plan IH]; intros data H; simpl; [| |done].
  - by apply reader_calm_push.
  - by apply reader_calm_push, IH.
Qed.

Lemma resolve_plain fs p n :
  fs !! p = Some n -> (forall t, n <> Symlink t) -> resolve SYMLINK_MAX fs p = Ok n.
Proof. intros H Hs. unfold SYMLINK_MAX. simpl. rewrite H. destruct n; try done. by destruct (Hs target). Qed.

Lemma resolve_absent fs p : fs !! p = None -> resolve SYMLINK_MAX fs p = Err (absent_error fs p).
Proof. intros H. unfold SYMLINK_MAX. simpl. by rewrite H. Qed.

Lemma absent_error_dir fs p :
  fs !! parent_dir p = Some Directory -> absent_error fs p = ENOENT.
Proof. intros H. unfold absent_error. by rewrite H. Qed.

Lemma rsplit_slash_plain c : SLASH ∉ c -> rsplit_slash c = None.
Proof.
  induction c as [|b c IH]; intros H; [done|]. apply not_elem_of_cons in H as [Hb Hc].
  simpl. rewrite IH by done. unfold is_sep. by rewrite bool_decide_eq_false_2.
Qed.

Lemma rsplit_slash_app a c : SLASH ∉ c -> rsplit_slash (a ++ SLASH :: c) = Some (a, c).
Proof.
  intros H. induction a as [|b a IH]; simpl; [by rewrite rsplit_slash_plain|by rewrite IH].
Qed.

(** The parent of an entry of a directory is the directory, written without a
    trailing slash. *)
Definition plain_dir (d : Path) : Prop :=
  exists d' b, d = d' ++ [b] /\ is_sep b = false.

Lemma parent_dir_join d c : plain_dir d -> plain_name c -> parent_dir (path_join d c) = d.
Proof.
  intros (d' & b & -> & Hb) Hc. unfold path_join, parent_dir.
  rewrite plain_name_no_root, last_snoc, Hb by done. cbn [app].
  rewrite rsplit_slash_app by by apply plain_name_no_slash.
  by destruct d'.
Qed.

Lemma plain_dir_join d c : plain_name c -> plain_dir (path_join d c).
Proof.
  intros Hc. pose proof (plain_name_not_nil _ Hc) as Hn.
  destruct (exists_last Hn) as (c' & b & ->).
  assert (Hb : is_sep b = false).
  { unfold is_sep. apply bool_decide_eq_false. intros ->.
    apply plain_name_no_slash in Hc. set_solver. }
  unfold path_join. rewrite plain_name_no_root by done.
  destruct (last d) as [x|]; [destruct (is_sep x)|]; unfold plain_dir.
  - exists (d ++ c'), b. by rewrite app_assoc.
  - exists (d ++ [SLASH] ++ c'), b. by rewrite !app_assoc.
  - by exists c', b.
Qed.

#[global] Arguments resolve : simpl never.
