(* ===== verification/Steps.v ===== *)
(** * Programs as sequences of system calls

    The functions of the backends pass a [World] along, so that a run of one is
    a single step.  A [prog] makes the calls visible: it ends with a value or
    makes a call, after which other threads may act.  [exec] runs a program
    alone; [safe] is what it keeps and promises when other threads change the
    world between its calls. *)
From S2P Require Export World.

Local Open Scope blob_scope.

Inductive prog (A : Type) : Type :=
| Done (a : A)
| Step (call : World -> prog A * World).
Arguments Done {A} a.
Arguments Step {A} call.

(** No other thread runs. *)
Fixpoint exec {A} (p : prog A) (w : World) : A * World :=
  match p with
  | Done a => (a, w)
  | Step call => let (p, w) := call w in exec p w
  end.

Fixpoint prog_bind {A B} (p : prog A) (k : A -> prog B) : prog B :=
  match p with
  | Done a => k a
  | Step call => Step (fun w => let (p, w) := call w in (prog_bind p k, w))
  end.

(** One call, during which no other thread acts. *)
Definition do_call {A} (call : World -> A * World) : prog A :=
  Step (fun w => let (a, w) := call w in (Done a, w)).

(** [x?] of the source. *)
Definition prog_try {A B E} (p : prog (result A E)) (k : A -> prog (result B E))
    : prog (result B E) :=
  prog_bind p (fun r => match r with Ok a => k a | Err e => Done (Err e) end).

Definition prog_map {A B} (f : A -> B) (p : prog A) : prog B := prog_bind p (fun a => Done (f a)).

Notation "'step!' x '<-' p ';' k" := (prog_bind p (fun x => k))
  (at level 10, x pattern, p at level 100, k at level 200) : blob_scope.
Notation "'step?' x '<-' p ';' k" := (prog_try p (fun x => k))
  (at level 10, x pattern, p at level 100, k at level 200) : blob_scope.

(** The loops that try names: [inl] is a loop that still tries. *)
Fixpoint prog_loop {S R} (fuel : nat) (turn : S -> prog (S + R)) (s : S) : prog (S + R) :=
  match fuel with
  | O => Done (inl s)
  | Datatypes.S fuel =>
      step! x <- turn s;
      match x with inl s => prog_loop fuel turn s | inr r => Done (inr r) end
  end.

(** ** Running alone *)

Lemma prog_induction {A} (P : prog A -> Prop) :
  (forall a, P (Done a)) -> (forall call, (forall w, P (fst (call w))) -> P (Step call)) ->
  forall p, P p.
Proof.
  intros Hd Hs. fix IH 1. intros [a|call]; [apply Hd|]. apply Hs. intros w.
  destruct (call w) as [p w']. apply IH.
Qed.

Lemma exec_bind {A B} (p : prog A) (k : A -> prog B) w :
  exec (prog_bind p k) w = let (a, w) := exec p w in exec (k a) w.
Proof.
  revert w; induction p as [a|call IH] using prog_induction; intros w; [done|]. cbn.
  specialize (IH w). by destruct (call w) as [p w'].
Qed.

Lemma exec_call {A} (call : World -> A * World) w : exec (do_call call) w = call w.
Proof. cbn. by destruct (call w). Qed.

Lemma exec_try {A B E} (p : prog (result A E)) (k : A -> prog (result B E)) w :
  exec (prog_try p k) w =
    match exec p w with (Ok a, w) => exec (k a) w | (Err e, w) => (Err e, w) end.
Proof. unfold prog_try. rewrite exec_bind. by destruct (exec p w) as [[a|e] w']. Qed.

(** A program that does what a function of the backend does. *)
Definition does {A} (p : prog A) (f : World -> A * World) : Prop := forall w, exec p w = f w.

Lemma does_done {A} (a : A) : does (Done a) (fun w => (a, w)).
Proof. by intros w. Qed.

Lemma does_call {A} (call : World -> A * World) : does (do_call call) call.
Proof. intros w. apply exec_call. Qed.

Lemma does_bind {A B} (p : prog A) f (k : A -> prog B) (g : A -> World -> B * World) :
  does p f -> (forall a, does (k a) (g a)) ->
  does (prog_bind p k) (fun w => let (a, w) := f w in g a w).
Proof. intros Hp Hk w. rewrite exec_bind, Hp. destruct (f w). apply Hk. Qed.

Lemma does_try {A B E} (p : prog (result A E)) f (k : A -> prog (result B E)) g :
  does p f -> (forall a, does (k a) (g a)) -> does (prog_try p k) (bind f g).
Proof.
  intros Hp Hk w. rewrite exec_try, Hp. unfold bind. destruct (f w) as [[a|e] w']; [apply Hk|done].
Qed.

Lemma does_match {A B E F} (p : prog (result A E)) f (k : result A E -> prog (result B F)) g :
  does p f -> (forall r, does (k r) (g r)) -> does (prog_bind p k) (bind_result f g).
Proof. intros Hp Hk. by apply (does_bind p f k g). Qed.

(** ** Among other threads *)

Section Safety.
Context (rely guarantee : World -> World -> Prop).

(** Before a call others may have acted as [rely] allows; the call keeps the
    [guarantee], and the value at the end satisfies [Q]. *)
Fixpoint safe {A} (p : prog A) (Q : A -> World -> Prop) (w : World) : Prop :=
  match p with
  | Done a => Q a w
  | Step call => forall w1, rely w w1 ->
      let (p, w2) := call w1 in guarantee w1 w2 /\ safe p Q w2
  end.

Lemma safe_mono {A} (p : prog A) (Q Q' : A -> World -> Prop) w :
  (forall a w, Q a w -> Q' a w) -> safe p Q w -> safe p Q' w.
Proof.
  intros HQ. revert w; induction p as [a|call IH] using prog_induction; intros w; [apply HQ|].
  intros H w1 Hr. specialize (H w1 Hr). specialize (IH w1). destruct (call w1) as [p w2].
  destruct H. split; [done|by apply IH].
Qed.

Lemma safe_bind {A B} (p : prog A) (k : A -> prog B) (Q : B -> World -> Prop) w :
  safe p (fun a => safe (k a) Q) w -> safe (prog_bind p k) Q w.
Proof.
  revert w; induction p as [a|call IH] using prog_induction; intros w; [done|].
  intros H w1 Hr. specialize (H w1 Hr). specialize (IH w1). destruct (call w1) as [p w2].
  destruct H. split; [done|by apply IH].
Qed.

Lemma safe_call {A} (call : World -> A * World) (Q : A -> World -> Prop) w :
  (forall w1, rely w w1 -> let (a, w2) := call w1 in guarantee w1 w2 /\ Q a w2) ->
  safe (do_call call) Q w.
Proof. intros H w1 Hr. specialize (H w1 Hr). by destruct (call w1). Qed.

Lemma safe_map_err {A E F} (f : E -> F) (call : World -> result A E * World) (Q : result A F -> World -> Prop) w :
  safe (do_call call) (fun r w => Q (map_err f r) w) w -> safe (do_call (eff_map_err f call)) Q w.
Proof.
  intros H. apply safe_call. intros w1 Hr. specialize (H w1 Hr). cbn in H. unfold eff_map_err.
  by destruct (call w1).
Qed.

Lemma safe_try {A B E} (p : prog (result A E)) (k : A -> prog (result B E)) Q w :
  safe p (fun r w => match r with Ok a => safe (k a) Q w | Err e => Q (Err e) w end) w ->
  safe (prog_try p k) Q w.
Proof. intros H. apply safe_bind. eapply safe_mono, H. by intros [a|e] w'. Qed.

Lemma safe_loop {S R} (Inv : S -> World -> Prop) (Q : S + R -> World -> Prop) (turn : S -> prog (S + R)) :
  (forall s w, Inv s w -> Q (inl s) w) ->
  (forall s w, Inv s w -> safe (turn s) (fun x w => match x with inl s => Inv s w | inr r => Q (inr r) w end) w) ->
  forall fuel s w, Inv s w -> safe (prog_loop fuel turn s) Q w.
Proof.
  intros H0 Ht. induction fuel as [|fuel IH]; intros s w Hs; [by apply H0|].
  cbn [prog_loop]. apply safe_bind. eapply safe_mono, Ht, Hs. intros [s'|r] w' H; [by apply IH|done].
Qed.

(** Others may act before the first call as well, and after the last. *)
Lemma safe_rely {A} (p : prog A) (Q : A -> World -> Prop) w w1 :
  (forall w w1 w2, rely w w1 -> rely w1 w2 -> rely w w2) ->
  (forall a w w1, rely w w1 -> Q a w -> Q a w1) ->
  rely w w1 -> safe p Q w -> safe p Q w1.
Proof.
  intros Ht HQ Hr. destruct p as [a|call]; [by apply HQ|].
  intros H w2 Hr2. apply H. by eapply Ht.
Qed.

End Safety.
