(* ===== verification/Filesystem.v ===== *)
(** * The filesystem backend ([src/src/filesystem/mod.rs], [src/src/format.rs])

    What both platforms share (opening a store, loading, streaming a load,
    inspecting, random identifiers) and the Unix backend (save, streaming save,
    clear, quarantine, cleanup).  [path] is always the canonical path of a key. *)
From S2P Require Export World Format.

Local Open Scope N_scope.
Local Open Scope blob_scope.

(** ** The [atomic-write-file] and [rustix] crates *)

Record OpenOptions := {
  mode : N;
  preserve_mode : bool;
  preserve_owner : bool;
}.

(** [OpenOptions::open], [AtomicWriteFile::commit], and dropping a file that
    was not committed. *)
Class AtomicWriteFile := {
  awf_open : OpenOptions -> Path -> eff World io_error writer;
  awf_commit : Path -> writer -> eff World io_error unit;
  awf_drop : Path -> writer -> World -> World;
}.

(** [renameat_with] between two paths with [RenameFlags::NOREPLACE]; the error
    is an [Errno]. *)
Class Rustix := {
  rename_noreplace : Path -> Path -> eff World Z unit;
}.

Definition Errno_NOENT : Z := 2.
Definition Errno_EXIST : Z := 17.

(** The names [atomic-write-file] keeps to itself while it writes [path]:
    dot-files of the same directory. *)
Definition awf_temporary (path p : Path) : Prop :=
  exists name, components p = removelast (components path) ++ [Normal (DOT :: name)].

(** [p] has its old node or the complete new content. *)
Definition old_or_new (fs : FsMap) (path : Path) (content : bytes) (fs' : FsMap) : Prop :=
  fs' !! path = fs !! path \/ exists t, fs' !! path = Some (Regular content t).

(** The documentation of [atomic-write-file]: before the commit the file at the
    path is untouched; the commit replaces it atomically, so that at any point
    the path has its old or its complete new content; after a successful commit
    it has the new one. *)
Class AtomicWriteFileLaws {A : AtomicWriteFile} : Prop := {
  awf_open_passes o path w :
    passes (agree_off (awf_temporary path) (w_fs w)) w (snd (awf_open o path w));
  awf_open_empty o path w f w' : awf_open o path w = (Ok f, w') -> wr_data f = [];
  awf_drop_passes path f w :
    passes (agree_off (awf_temporary path) (w_fs w)) w (awf_drop path f w);
  awf_commit_passes path f w :
    passes (fun fs => agree_off (fun p => p = path \/ awf_temporary path p) (w_fs w) fs /\
              old_or_new (w_fs w) path (wr_data f) fs) w (snd (awf_commit path f w));
  awf_commit_ok path f w w' :
    awf_commit path f w = (Ok tt, w') -> exists t, w_fs w' !! path = Some (Regular (wr_data f) t);
}.

(** [renameat2] with [RENAME_NOREPLACE]: one step that moves an entry to a name
    that was free, or an error that changes nothing. *)
Class RustixLaws {R : Rustix} : Prop := {
  rename_noreplace_spec src dst w :
    match rename_noreplace src dst w with
    | (Ok _, w') =>
        exists n, w_fs w !! src = Some n /\ w_fs w !! dst = None /\
          w_fs w' = <[dst := n]> (delete src (w_fs w)) /\
          passes (fun fs => fs = w_fs w \/ fs = <[dst := n]> (delete src (w_fs w))) w w'
    | (Err code, w') =>
        passes (fun fs => fs = w_fs w) w w' /\
        (code = Errno_EXIST -> w_fs w !! dst <> None)
    end;
  rename_noreplace_entropy src dst w :
    w_entropy_used (snd (rename_noreplace src dst w)) = w_entropy_used w;
}.

Section Backend.
Context {Crc : Crc32c} {Tgt : Target} {Awf : AtomicWriteFile} {Rx : Rustix}.

Definition io_op {A} (operation : StoreOperation) (c : eff World io_error A)
    : eff World AtomicBlobStoreError A :=
  eff_map_err (Io operation) c.

Definition is_dir (n : Node) : bool := match n with Directory => true | _ => false end.

(** ** Opening *)

Definition sync_directory (path : Path) (open_operation sync_operation : StoreOperation)
    : eff World AtomicBlobStoreError unit :=
  do? _ <- io_op open_operation (fs_open path);
  io_op sync_operation (fs_sync_all path).

Definition initialize_platform (root namespace_component : Path) (f : BlobFormatIdentity)
    (max max_concurrent : N) : eff World AtomicBlobStoreError StoreConfig :=
  do? root <-
    (if is_relative root then
       do? current_directory <- io_op ResolveCurrentDirectory current_dir;
       ret (path_join current_directory root)
     else ret root);
  do! metadata <- fs_metadata root;
  match metadata with
  | Err error =>
      if decide (kind error = NotFound) then throw RootDoesNotExist
      else throw (Io InspectRoot error)
  | Ok metadata =>
      if negb (is_dir metadata) then throw RootIsNotDirectory else
      let ns := path_join root namespace_component in
      do! created <- fs_create_dir ns;
      do? _ <-
        match created with
        | Ok _ => sync_directory root OpenRootDirectory SyncRootDirectory
        | Err error =>
            if decide (kind error = AlreadyExists) then
              do? metadata <- io_op InspectNamespace (fs_metadata ns);
              if negb (is_dir metadata) then throw NamespacePathIsNotDirectory else ret tt
            else throw (Io CreateNamespace error)
        end;
      ret {| namespace := ns; format := f; maximum := max;
             config_max_concurrent_operations := max_concurrent |}
  end.

Definition ensure_namespace_available (config : StoreConfig) : eff World AtomicBlobStoreError unit :=
  do! metadata <- fs_metadata (namespace config);
  match metadata with
  | Ok n => if is_dir n then ret tt else throw NamespacePathIsNotDirectory
  | Err source => throw (Io InspectNamespace source)
  end.

(** ** Loading ([src/src/format.rs]) *)

Definition load_blob (config : StoreConfig) (path : Path)
    : eff World AtomicBlobStoreError (option bytes) :=
  do! opened <- fs_open path;
  match opened with
  | Ok file =>
      lift (map_ok Some (fst (decode_reader (format config) (maximum config) (f_reader file))))
  | Err error =>
      if decide (kind error = NotFound) then
        do? _ <- ensure_namespace_available config;
        ret None
      else throw (Io OpenBlob error)
  end.

(** The receiving end of a streaming load: which of the next chunks it still
    takes (all, past the end of the list), and whether it acknowledges. *)
Record chunk_sink := {
  accepts : list bool;
  acknowledges : bool;
}.

(** One turn of the delivery loop: remaining bytes, reader, the answers of the
    next sends, the chunks sent. *)
Definition deliver_step (s : N * reader * list bool * list bytes)
    : (N * reader * list bool * list bytes) + (result unit AtomicBlobStoreError * list bytes) :=
  let '(remaining, r, acc, sent) := s in
  if (remaining =? 0) then inr (Ok tt, sent)
  else
    let requested := chunk_request remaining in
    match read_section requested Payload r with
    | (Err e, _) => inr (Err e, sent)
    | (Ok chunk, r') =>
        if default true (head acc)
        then inl (remaining - requested, r', tail acc, sent ++ [chunk])
        else inr (Err StreamCancelled, sent)
    end.

Definition deliver_payload (remaining : N) (r : reader) (acc : list bool)
    : result unit AtomicBlobStoreError * list bytes :=
  run_loop (chunk_fuel remaining) deliver_step (fun '(_, _, _, sent) => (Ok tt, sent))
    (remaining, r, acc, []).

(** The result, the chunks handed to the channel, and the world. *)
Definition load_blob_into_sender (config : StoreConfig) (path : Path) (sink : chunk_sink) (w : World)
    : (result (option BlobMetadata) AtomicBlobStoreError * list bytes) * World :=
  let (opened, w1) := fs_open path w in
  match opened with
  | Err error =>
      if decide (kind error = NotFound) then
        let (available, w2) := ensure_namespace_available config w1 in
        ((map_ok (fun _ => None) available, []), w2)
      else ((Err (Io OpenBlob error), []), w1)
  | Ok file =>
      match fst (validate_envelope_reader (format config) (maximum config) (f_reader file)) with
      | Err e => ((Err e, []), w1)
      | Ok metadata =>
          match fs_seek HEADER_LEN file w1 with
          | (Err source, w2) => ((Err (Io ReadEnvelope source), []), w2)
          | (Ok file, w2) =>
              let (delivered, sent) :=
                deliver_payload (payload_len metadata) (f_reader file) (accepts sink) in
              match delivered with
              | Err e => ((Err e, sent), w2)
              | Ok _ =>
                  ((if acknowledges sink then Ok (Some metadata) else Err StreamCancelled, sent), w2)
              end
          end
      end
  end.

(** ** Saving *)

Fixpoint write_sections (sections : list bytes) : eff writer AtomicBlobStoreError unit :=
  match sections with
  | [] => ret tt
  | s :: sections' => do? _ <- write_section s; write_sections sections'
  end.

Definition atomic_options : OpenOptions :=
  {| mode := 384 (* 0o600 *); preserve_mode := false; preserve_owner := false |}.

Definition save_blob (config : StoreConfig) (path : Path) (payload : bytes)
    : eff World AtomicBlobStoreError unit :=
  do? (header, checksum) <- lift (envelope_parts (format config) payload (maximum config));
  do? file <- io_op OpenAtomicWriter (awf_open atomic_options path);
  fun w =>
    match write_sections [header; payload; checksum] file with
    | (Err e, file') => (Err e, awf_drop path file' w)
    | (Ok _, file') => eff_map_err AtomicCommit (awf_commit path file') w
    end.

(** The messages left in the channel are returned with the result. *)
Definition save_blob_from_receiver (config : StoreConfig) (path : Path) (declared_len : N)
    (chunks : list SaveStreamMessage) (w : World)
    : (result unit AtomicBlobStoreError * list SaveStreamMessage) * World :=
  match envelope_header (format config) declared_len (maximum config) with
  | Err e => ((Err e, chunks), w)
  | Ok _ =>
      match io_op OpenAtomicWriter (awf_open atomic_options path) w with
      | (Err e, w1) => ((Err e, chunks), w1)
      | (Ok file, w1) =>
          match write_stream_envelope config declared_len (file, chunks) with
          | (Err e, (file', chunks')) => ((Err e, chunks'), awf_drop path file' w1)
          | (Ok _, (file', chunks')) =>
              let (r, w2) := eff_map_err AtomicCommit (awf_commit path file') w1 in
              ((r, chunks'), w2)
          end
      end
  end.

(** ** Clearing, inspecting, quarantining *)

Definition clear_blob (config : StoreConfig) (path : Path) : eff World AtomicBlobStoreError unit :=
  do! removed <- fs_remove_file path;
  match removed with
  | Ok _ => sync_directory (namespace config) OpenNamespaceDirectory SyncNamespaceDirectory
  | Err error =>
      if decide (kind error = NotFound) then ensure_namespace_available config
      else throw (Io RemoveBlob error)
  end.

Definition inspect_blob (config : StoreConfig) (path : Path)
    : eff World AtomicBlobStoreError BlobInspection :=
  do! metadata <- fs_symlink_metadata path;
  match metadata with
  | Ok (Regular content mtime) =>
      ret {| inspection_state := Present; inspection_size := Some (blen content);
             inspection_modified := mtime |}
  | Ok _ => throw UnexpectedFileType
  | Err error =>
      if decide (kind error = NotFound) then
        do? _ <- ensure_namespace_available config;
        ret {| inspection_state := Absent; inspection_size := None; inspection_modified := None |}
      else throw (Io InspectBlob error)
  end.

Definition random_identifier : eff World AtomicBlobStoreError bytes :=
  do? bytes <- eff_map_err IdentifierGeneration getrandom_fill;
  ret (hex_encode bytes).

Definition sync_quarantine_namespace (config : StoreConfig) (quarantine : QuarantineInfo)
    : eff World AtomicBlobStoreError unit :=
  do? _ <- eff_map_err (QuarantineNamespaceSync quarantine) (fs_open (namespace config));
  eff_map_err (QuarantineNamespaceSync quarantine) (fs_sync_all (namespace config)).

Definition quarantine_name (hash suffix identifier : bytes) : bytes :=
  hash ++ suffix ++ bstr ".quarantine-v1." ++ identifier.

(** One turn of the [loop]: continues when the random name was taken. *)
Definition quarantine_step (config : StoreConfig) (path : Path) (hash : bytes) (w : World)
    : World + (result QuarantineInfo AtomicBlobStoreError * World) :=
  match random_identifier w with
  | (Err e, w1) => inr (Err e, w1)
  | (Ok identifier, w1) =>
      let destination := path_join (namespace config)
        (quarantine_name hash (filename_suffix (format config)) identifier) in
      match rename_noreplace path destination w1 with
      | (Ok _, w2) =>
          let quarantine := {| identifier := identifier; diagnostic_path := destination |} in
          inr ((do? _ <- sync_quarantine_namespace config quarantine; ret quarantine) w2)
      | (Err code, w2) =>
          if decide (code = Errno_NOENT) then
            inr ((do? _ <- ensure_namespace_available config; throw QuarantineSourceMissing) w2)
          else if decide (code = Errno_EXIST) then inl w2
          else inr (Err (QuarantineCommit (from_raw_os_error code)), w2)
      end
  end.

(** The [loop] has no bound in the source: [inl] is a run that is still trying
    names after [fuel] turns. *)
Definition quarantine_blob (fuel : nat) (config : StoreConfig) (path : Path) (w : World)
    : World + (result QuarantineInfo AtomicBlobStoreError * World) :=
  match file_stem path ≫= to_str with
  | None => inr (Err UnexpectedFileType, w)
  | Some hash => loop fuel (quarantine_step config path hash) w
  end.

Definition cleanup_stale_files (config : StoreConfig) (minimum_age : Duration)
    : eff World AtomicBlobStoreError CleanupReport :=
  throw (CleanupUnsupported target_os).

End Backend.
