(* ===== verification/Windows.v ===== *)
(** * The Windows backend ([src/src/filesystem/mod.rs], the [cfg(windows)] items)

    Saving by an exclusive staging file and a write-through move, clearing by a
    move and a removal, quarantining by a move, and the cleanup of staging files
    that a crash left behind.  Loads, inspections and [random_identifier] are
    those of [Filesystem].  Paths are WTF-8 byte strings, as in an [OsStr]. *)
From S2P Require Export Filesystem.

Local Open Scope N_scope.
Local Open Scope blob_scope.

(** ** [std::path], [std::ffi] and [str] on Windows *)

Definition BACKSLASH : byte := Byte.x5c.

Definition is_win_sep (b : byte) : bool := bool_decide (b = BACKSLASH) || bool_decide (b = SLASH).

(** [Path::join] of an absolute path, normalised if it is verbatim, and a name
    without separators. *)
Definition win_join (base name : Path) : Path :=
  match last base with
  | Some b => if is_win_sep b then base ++ name else base ++ [BACKSLASH] ++ name
  | None => name
  end.

(** The name of a path with one component, which is normal: a path that begins
    with a separator or with a drive has a root or a prefix, and in any other one
    the two separators mean the same. *)
Definition win_sole_component (p : Path) : option bytes :=
  match p with
  | b :: rest =>
      if is_win_sep b then None
      else if (is_ascii_lowercase b || is_ascii_uppercase b)
              && bool_decide (head rest = Some Byte.x3a) then None
      else match components (map (fun x => if decide (x = BACKSLASH) then SLASH else x) p) with
           | [Normal c] => Some c
           | _ => None
           end
  | [] => None
  end.

Definition windows_path : StdPath := {|
  std_join := win_join;
  sole_component := win_sole_component;
|}.

(** What precedes the last separator, and what follows it. *)
Fixpoint win_rsplit (p : bytes) : option (bytes * bytes) :=
  match p with
  | [] => None
  | b :: rest =>
      match win_rsplit rest with
      | Some (before, after) => Some (b :: before, after)
      | None => if is_win_sep b then Some ([], rest) else None
      end
  end.

Definition win_parent (p : Path) : Path :=
  match win_rsplit p with Some (d, _) => d | None => [] end.

(** [Path::file_name] of a path that ends in a name. *)
Definition win_file_name (p : Path) : option bytes :=
  match parse_component (match win_rsplit p with Some (_, n) => n | None => p end) with
  | Some (Normal n) => Some n
  | _ => None
  end.

(** [Path::file_stem]. *)
Definition win_file_stem (p : Path) : option bytes :=
  name ← win_file_name p;
  match rsplit_dot name with
  | Some ([], _) | None => Some name
  | Some (before, _) => Some before
  end.

(** [OsStrExt::encode_wide]: WTF-8 to UTF-16, lone surrogates included. *)
Definition cont (b : byte) : N := byte_val b mod 64.

Fixpoint encode_wide (s : bytes) : list N :=
  match s with
  | [] => []
  | b0 :: s1 =>
      if (byte_val b0 <? 128) then byte_val b0 :: encode_wide s1
      else match s1 with
      | [] => []
      | b1 :: s2 =>
          if (byte_val b0 <? 224) then (byte_val b0 mod 32 * 64 + cont b1) :: encode_wide s2
          else match s2 with
          | [] => []
          | b2 :: s3 =>
              if (byte_val b0 <? 240)
              then (byte_val b0 mod 16 * 4096 + cont b1 * 64 + cont b2) :: encode_wide s3
              else match s3 with
              | [] => []
              | b3 :: s4 =>
                  let code := byte_val b0 mod 8 * 262144 + cont b1 * 4096 + cont b2 * 64 + cont b3
                              - 65536 in
                  (55296 + code / 1024) :: (56320 + code mod 1024) :: encode_wide s4
              end
          end
      end
  end.

(** [OsStr::to_string_lossy]: every lone surrogate becomes U+FFFD. *)
Fixpoint to_string_lossy (s : bytes) : bytes :=
  match s with
  | [] => []
  | b0 :: s1 =>
      match s1 with
      | b1 :: _ :: s3 =>
          if (byte_val b0 =? 237) && (160 <=? byte_val b1)
          then [Byte.xef; Byte.xbf; Byte.xbd] ++ to_string_lossy s3
          else b0 :: to_string_lossy s1
      | _ => b0 :: to_string_lossy s1
      end
  end.

(** [str::split_once]: at the first occurrence of [marker]. *)
Fixpoint split_once (marker s : bytes) : option (bytes * bytes) :=
  if starts_with marker s then Some ([], drop (length marker) s)
  else match s with
       | [] => None
       | b :: s' => '(before, after) ← split_once marker s'; Some (b :: before, after)
       end.

(** ** [wide_path] *)

Definition SEPARATOR : N := 92.
Definition ALTERNATE_SEPARATOR : N := 47.
Definition VERBATIM_PREFIX : list N := [SEPARATOR; SEPARATOR; 63; SEPARATOR].
Definition DEVICE_PREFIX : list N := [SEPARATOR; SEPARATOR; 46; SEPARATOR].
Definition UNC_PREFIX : list N := [SEPARATOR; SEPARATOR; 63; SEPARATOR; 85; 78; 67; SEPARATOR].

Definition wide_starts_with (prefix path : list N) : bool :=
  bool_decide (take (length prefix) path = prefix).

Definition wide_path (path : Path) : list N :=
  let path := encode_wide path in
  let '(prefix, remainder) :=
    if wide_starts_with VERBATIM_PREFIX path || wide_starts_with DEVICE_PREFIX path
    then ([], path)
    else if wide_starts_with [SEPARATOR; SEPARATOR] path then (UNC_PREFIX, drop 2 path)
    else (VERBATIM_PREFIX, path) in
  prefix ++ map (fun unit => if unit =? ALTERNATE_SEPARATOR then SEPARATOR else unit) remainder ++ [0].

(** ** The [windows_sys] crate *)

Definition GENERIC_WRITE : N := 1073741824.
Definition FILE_WRITE_ATTRIBUTES : N := 256.
Definition FILE_SHARE_READ : N := 1.
Definition FILE_SHARE_WRITE : N := 2.
Definition FILE_SHARE_DELETE : N := 4.
Definition CREATE_NEW : N := 1.
Definition OPEN_EXISTING : N := 3.
Definition FILE_ATTRIBUTE_NORMAL : N := 128.
Definition FILE_FLAG_WRITE_THROUGH : N := 2147483648.
Definition FILE_FLAG_BACKUP_SEMANTICS : N := 33554432.
Definition MOVEFILE_REPLACE_EXISTING : N := 1.
Definition MOVEFILE_WRITE_THROUGH : N := 8.
Definition ERROR_FILE_EXISTS : N := 80.
Definition ERROR_ALREADY_EXISTS : N := 183.

(** An open handle: the entry it was opened for, and what the next writes
    through it will answer. *)
Record Handle := {
  h_file : Path;
  h_plan : list (option (N * io_error));
}.

(** An error is what [io::Error::last_os_error] gives after a call that
    returned 0 or [INVALID_HANDLE_VALUE].  [file_of] is the entry that a
    NUL-terminated wide path leads to.  [SetFileTime] sets the last write. *)
Class WindowsApi := {
  file_of : list N -> Path;
  CreateFileW (name : list N) (access share disposition flags : N) : eff World io_error Handle;
  FlushFileBuffers : Handle -> eff World io_error unit;
  SetFileTime (handle : Handle) (dwLowDateTime dwHighDateTime : N) : eff World io_error unit;
  MoveFileExW (source destination : list N) (flags : N) : eff World io_error unit;
  DeleteFileW : list N -> eff World io_error unit;
}.

(** [std::path::absolute], which asks the operating system. *)
Class AbsolutePath := { path_absolute : Path -> eff World io_error Path }.

(** What [std::fs::read_dir] yields for a directory with these names: in which
    order, and where it reports an error instead. *)
Class DirectoryListing := { listing : list bytes -> list (result bytes io_error) }.

(** [File::from_raw_handle], as a writer at the start of an empty file. *)
Definition File_from_raw_handle (h : Handle) : writer := Writer [] (h_plan h).

(** The filesystem with [content] in the file of the handle. *)
Definition file_shows (h : Handle) (content : bytes) (w : World) : FsMap :=
  <[h_file h := Regular content (Some (w_now w))]> (w_fs w).

(** The states of the file while the bytes of [f] were written through its
    handle, newest first: however the writes were split, it had some of the first
    bytes. *)
Definition writing_states (h : Handle) (f : writer) (w : World) : list (Syscall * FsMap) :=
  map (fun n => (SysWrite (h_file h), file_shows h (take n (wr_data f)) w))
    (rev (seq 0 (S (length (wr_data f))))).

(** The file shows what was written through its handle. *)
Definition file_written (h : Handle) (f : writer) (w : World) : World :=
  log_states (writing_states h f w) (set_fs (file_shows h (wr_data f) w) w).

(** The names in a directory. *)
Definition child_name (d q : Path) : option bytes :=
  let prefix := win_join d [] in
  let n := drop (length prefix) q in
  if starts_with prefix q && negb (existsb is_win_sep n) && negb (bool_decide (n = []))
  then Some n else None.

Definition directory_names (fs : FsMap) (d : Path) : list bytes :=
  omap (fun x => child_name d (fst x)) (map_to_list fs).

Section Windows.
Context {Crc : Crc32c} {Tgt : Target} {Api : WindowsApi} {Abs : AbsolutePath}
  {Lst : DirectoryListing}.

Definition fs_read_dir (p : Path) : eff World io_error (list (result bytes io_error)) :=
  syscall (SysReadDir p) (fun fs =>
    match resolve SYMLINK_MAX fs p with
    | Ok Directory => (Ok (listing (directory_names fs p)), fs)
    | Ok _ => (Err ENOTDIR, fs)
    | Err e => (Err e, fs)
    end).

(** [std::fs::create_dir], with the parent of a Windows path. *)
Definition win_create_dir (p : Path) : eff World io_error unit :=
  syscall (SysCreateDir p) (fun fs =>
    match fs !! p with
    | Some _ => (Err (IoError AlreadyExists (Some 183%Z)), fs)
    | None =>
        match resolve SYMLINK_MAX fs (win_parent p) with
        | Ok Directory => (Ok tt, <[p := Directory]> fs)
        | _ => (Err (IoError NotFound (Some 3%Z)), fs)
        end
    end).

(** ** Opening *)

Definition windows_initialize_platform (root namespace_component : Path) (f : BlobFormatIdentity)
    (max max_concurrent : N) : eff World AtomicBlobStoreError StoreConfig :=
  do? root <- io_op NormalizeRoot (path_absolute root);
  do! metadata <- fs_metadata root;
  match metadata with
  | Err error =>
      if decide (kind error = NotFound) then throw RootDoesNotExist
      else throw (Io InspectRoot error)
  | Ok metadata =>
      if negb (is_dir metadata) then throw RootIsNotDirectory else
      let ns := win_join root namespace_component in
      do! created <- win_create_dir ns;
      do? _ <-
        match created with
        | Ok _ => ret tt
        | Err error =>
            if decide (kind error = AlreadyExists) then
              do? metadata <- io_op InspectNamespace (fs_metadata ns);
              if negb (is_dir metadata) then throw NamespacePathIsNotDirectory else ret tt
            else throw (Io CreateNamespace error)
        end;
      ret {| namespace := ns; format := f; maximum := max;
             config_max_concurrent_operations := max_concurrent |}
  end.

(** ** The calls *)

Definition move_file (source destination : Path) (flags : N) : eff World io_error unit :=
  MoveFileExW (wide_path source) (wide_path destination) flags.

Definition delete_file (path : Path) : eff World io_error unit := DeleteFileW (wide_path path).

Definition sync_windows_directory (config : StoreConfig) : eff World io_error unit :=
  do? handle <- CreateFileW (wide_path (namespace config)) GENERIC_WRITE
    (N.lor (N.lor FILE_SHARE_READ FILE_SHARE_WRITE) FILE_SHARE_DELETE) OPEN_EXISTING
    FILE_FLAG_BACKUP_SEMANTICS;
  FlushFileBuffers handle.

Definition staging_flags : N := N.lor FILE_ATTRIBUTE_NORMAL FILE_FLAG_WRITE_THROUGH.

Definition create_windows_staging (path : Path) (header payload checksum : bytes)
    : eff World AtomicBlobStoreError unit :=
  do? handle <- io_op OpenAtomicWriter
    (CreateFileW (wide_path path) GENERIC_WRITE 0 CREATE_NEW staging_flags);
  fun w =>
    match write_sections [header; payload; checksum] (File_from_raw_handle handle) with
    | (Err e, file) => (Err e, file_written handle file w)
    | (Ok _, file) => io_op WriteEnvelope (FlushFileBuffers handle) (file_written handle file w)
    end.

(** The messages left in the channel are returned with the result. *)
Definition create_windows_streaming_staging (config : StoreConfig) (path : Path) (declared_len : N)
    (chunks : list SaveStreamMessage) (w : World)
    : (result unit AtomicBlobStoreError * list SaveStreamMessage) * World :=
  match io_op OpenAtomicWriter
          (CreateFileW (wide_path path) GENERIC_WRITE 0 CREATE_NEW staging_flags) w with
  | (Err e, w) => ((Err e, chunks), w)
  | (Ok handle, w) =>
      match write_stream_envelope config declared_len (File_from_raw_handle handle, chunks) with
      | (Err e, (file, chunks)) => ((Err e, chunks), file_written handle file w)
      | (Ok _, (file, chunks)) =>
          let (r, w) := io_op WriteEnvelope (FlushFileBuffers handle) (file_written handle file w) in
          ((r, chunks), w)
      end
  end.

(** ** The age of a cleared file *)

Definition WINDOWS_EPOCH_OFFSET_100NS : N := 116444736000000000.
Definition HUNDRED_NS_PER_SECOND : N := 10000000.

(** [io::Error::other]. *)
Definition io_other : io_error := IoError KindOther None.

(** [w_now] is the system time in nanoseconds since the Unix epoch. *)
Definition file_time_ticks (now : Z) : result N io_error :=
  let? elapsed := if (now <? 0)%Z then Err io_other else Ok (Z.to_N now) in
  let as_secs := elapsed / 1000000000 in
  let subsec_nanos := elapsed mod 1000000000 in
  ok_or (ticks ← checked_mul U64_MAX as_secs HUNDRED_NS_PER_SECOND;
         ticks ← checked_add U64_MAX ticks (subsec_nanos / 100);
         checked_add U64_MAX ticks WINDOWS_EPOCH_OFFSET_100NS) io_other.

Definition le_bytes (n : nat) (v : N) : bytes := rev (be_bytes n v).
Definition from_le (bs : bytes) : N := from_be (rev bs).

(** [FILETIME]: the low and the high half of the eight bytes. *)
Definition file_time (ticks : N) : N * N :=
  let b := le_bytes 8 ticks in (from_le (take 4 b), from_le (drop 4 b)).

Definition refresh_windows_clear_age (path : Path) : eff World io_error unit := fun w =>
  match file_time_ticks (w_now w) with
  | Err e => (Err e, w)
  | Ok ticks =>
      let (low, high) := file_time ticks in
      (do? handle <- CreateFileW (wide_path path) (N.lor GENERIC_WRITE FILE_WRITE_ATTRIBUTES) 0
         OPEN_EXISTING staging_flags;
       do? _ <- SetFileTime handle low high;
       FlushFileBuffers handle) w
  end.

(** ** Saving *)

Definition staging_name (hash suffix marker identifier : bytes) : bytes :=
  hash ++ suffix ++ marker ++ identifier.

Definition SAVE_MARKER : bytes := bstr ".tmp-v1.save.".
Definition CLEAR_MARKER : bytes := bstr ".tmp-v1.clear.".

(** [matches!(error.raw_os_error(), Some(code) if ...)]. *)
Definition target_exists (error : io_error) : bool :=
  match raw_os_error error with
  | Some code =>
      let code := Z.to_N (code mod 2 ^ 32) in
      (code =? ERROR_FILE_EXISTS) || (code =? ERROR_ALREADY_EXISTS)
  | None => false
  end.

(** The move of a complete staging file to the canonical path, and the sync. *)
Definition commit_staging (config : StoreConfig) (staging path : Path)
    : eff World AtomicBlobStoreError unit :=
  do! initial <- move_file staging path MOVEFILE_WRITE_THROUGH;
  do? _ <-
    match initial with
    | Ok _ => ret tt
    | Err error =>
        if target_exists error
        then eff_map_err AtomicCommit
               (move_file staging path (N.lor MOVEFILE_REPLACE_EXISTING MOVEFILE_WRITE_THROUGH))
        else throw (AtomicCommit error)
    end;
  io_op SyncNamespaceDirectory (sync_windows_directory config).

(** [Err(Io { source, .. }) if source.kind() == AlreadyExists]. *)
Definition name_taken (error : AtomicBlobStoreError) : bool :=
  match error with
  | Io _ source => bool_decide (kind source = AlreadyExists)
  | _ => false
  end.

(** One turn of the [loop]: continues when the random name was taken. *)
Definition windows_save_step (config : StoreConfig) (path : Path) (hash header payload checksum : bytes)
    (w : World) : World + (result unit AtomicBlobStoreError * World) :=
  match random_identifier w with
  | (Err e, w) => inr (Err e, w)
  | (Ok identifier, w) =>
      let staging := win_join (namespace config)
        (staging_name hash (filename_suffix (format config)) SAVE_MARKER identifier) in
      match create_windows_staging staging header payload checksum w with
      | (Err error, w) => if name_taken error then inl w else inr (Err error, w)
      | (Ok _, w) => inr (commit_staging config staging path w)
      end
  end.

(** [inl] is a run that is still trying names after [fuel] turns. *)
Definition windows_save_blob (fuel : nat) (config : StoreConfig) (path : Path) (payload : bytes)
    (w : World) : World + (result unit AtomicBlobStoreError * World) :=
  match envelope_parts (format config) payload (maximum config) with
  | Err e => inr (Err e, w)
  | Ok (header, checksum) =>
      match win_file_stem path ≫= to_str with
      | None => inr (Err UnexpectedFileType, w)
      | Some hash => loop fuel (windows_save_step config path hash header payload checksum) w
      end
  end.

(** The messages left in the channel belong to the state of the loop. *)
Definition windows_save_stream_step (config : StoreConfig) (path : Path) (hash : bytes)
    (declared_len : N) (s : list SaveStreamMessage * World)
    : (list SaveStreamMessage * World) +
      ((result unit AtomicBlobStoreError * list SaveStreamMessage) * World) :=
  let (chunks, w) := s in
  match random_identifier w with
  | (Err e, w) => inr ((Err e, chunks), w)
  | (Ok identifier, w) =>
      let staging := win_join (namespace config)
        (staging_name hash (filename_suffix (format config)) SAVE_MARKER identifier) in
      match create_windows_streaming_staging config staging declared_len chunks w with
      | ((Err error, chunks), w) =>
          if name_taken error then inl (chunks, w)
          else let (_, w) := delete_file staging w in inr ((Err error, chunks), w)
      | ((Ok _, chunks), w) =>
          let (r, w) := commit_staging config staging path w in inr ((r, chunks), w)
      end
  end.

Definition windows_save_blob_from_receiver (fuel : nat) (config : StoreConfig) (path : Path)
    (declared_len : N) (chunks : list SaveStreamMessage) (w : World)
    : (list SaveStreamMessage * World) +
      ((result unit AtomicBlobStoreError * list SaveStreamMessage) * World) :=
  match envelope_header (format config) declared_len (maximum config) with
  | Err e => inr ((Err e, chunks), w)
  | Ok _ =>
      match win_file_stem path ≫= to_str with
      | None => inr ((Err UnexpectedFileType, chunks), w)
      | Some hash => loop fuel (windows_save_stream_step config path hash declared_len) (chunks, w)
      end
  end.

(** ** Clearing *)

Definition windows_clear_step (config : StoreConfig) (path : Path) (hash : bytes) (w : World)
    : World + (result unit AtomicBlobStoreError * World) :=
  match random_identifier w with
  | (Err e, w) => inr (Err e, w)
  | (Ok identifier, w) =>
      let staging := win_join (namespace config)
        (staging_name hash (filename_suffix (format config)) CLEAR_MARKER identifier) in
      match move_file path staging MOVEFILE_WRITE_THROUGH w with
      | (Ok _, w) =>
          inr ((do? _ <- io_op SyncNamespaceDirectory (sync_windows_directory config);
                io_op RemoveTemporaryFile (delete_file staging)) w)
      | (Err error, w) =>
          if decide (kind error = NotFound) then inr (ensure_namespace_available config w)
          else if decide (kind error = AlreadyExists) then inl w
          else inr (Err (Io RemoveBlob error), w)
      end
  end.

Definition windows_clear_blob (fuel : nat) (config : StoreConfig) (path : Path) (w : World)
    : World + (result unit AtomicBlobStoreError * World) :=
  match win_file_stem path ≫= to_str with
  | None => inr (Err UnexpectedFileType, w)
  | Some hash =>
      match refresh_windows_clear_age path w with
      | (Ok _, w) => loop fuel (windows_clear_step config path hash) w
      | (Err source, w) =>
          if decide (kind source = NotFound) then inr (ensure_namespace_available config w)
          else inr (Err (Io RefreshClearStagingAge source), w)
      end
  end.

(** ** Quarantining *)

Definition windows_quarantine_step (config : StoreConfig) (path : Path) (hash : bytes) (w : World)
    : World + (result QuarantineInfo AtomicBlobStoreError * World) :=
  match random_identifier w with
  | (Err e, w) => inr (Err e, w)
  | (Ok identifier, w) =>
      let destination := win_join (namespace config)
        (quarantine_name hash (filename_suffix (format config)) identifier) in
      match move_file path destination MOVEFILE_WRITE_THROUGH w with
      | (Ok _, w) =>
          let quarantine := {| identifier := identifier; diagnostic_path := destination |} in
          inr ((do? _ <- eff_map_err (QuarantineNamespaceSync quarantine)
                           (sync_windows_directory config);
                ret quarantine) w)
      | (Err error, w) =>
          if decide (kind error = NotFound) then
            inr ((do? _ <- ensure_namespace_available config; throw QuarantineSourceMissing) w)
          else if decide (kind error = AlreadyExists) then inl w
          else inr (Err (QuarantineCommit error), w)
      end
  end.

Definition windows_quarantine_blob (fuel : nat) (config : StoreConfig) (path : Path) (w : World)
    : World + (result QuarantineInfo AtomicBlobStoreError * World) :=
  match win_file_stem path ≫= to_str with
  | None => inr (Err UnexpectedFileType, w)
  | Some hash => loop fuel (windows_quarantine_step config path hash) w
  end.

(** ** Cleanup *)

Definition owned_hex (s : bytes) : bool :=
  (blen s =? 64) && forallb (fun byte => is_ascii_hexdigit byte && negb (is_ascii_uppercase byte)) s.

Definition is_owned_temporary_filename (name suffix : bytes) : bool :=
  let marker := suffix ++ bstr ".tmp-v1." in
  match split_once marker name with
  | None => false
  | Some (hash, rest) =>
      if negb (owned_hex hash) then false
      else match split_once (bstr ".") rest with
           | None => false
           | Some (kind, identifier) =>
               (bool_decide (kind = bstr "save") || bool_decide (kind = bstr "clear"))
               && owned_hex identifier
           end
  end.

Definition failure_of (name : bytes) (source : io_error) : CleanupFailure :=
  {| failure_identifier := name; failure_source := source |}.

Definition add_removed (name : bytes) (r : CleanupReport) : CleanupReport :=
  {| removed := removed r ++ [name]; skipped := skipped r; failures := failures r |}.
Definition add_skipped (name : bytes) (r : CleanupReport) : CleanupReport :=
  {| removed := removed r; skipped := skipped r ++ [name]; failures := failures r |}.
Definition add_failure (name : bytes) (source : io_error) (r : CleanupReport) : CleanupReport :=
  {| removed := removed r; skipped := skipped r; failures := failures r ++ [failure_of name source] |}.

(** [now.duration_since(modified).ok().is_some_and(|age| age >= minimum_age)]. *)
Definition old_enough (now : Z) (modified : option Z) (minimum_age : Duration) : bool :=
  match modified with
  | Some time => (0 <=? now - time)%Z && (minimum_age <=? Z.to_N (now - time))
  | None => false
  end.

(** One turn of [for entry in entries]. *)
Definition cleanup_entry (config : StoreConfig) (minimum_age : Duration) (now : Z)
    (entry : result bytes io_error) (report : CleanupReport) (w : World) : CleanupReport * World :=
  match entry with
  | Err source => (add_failure (bstr "<directory-entry>") source report, w)
  | Ok file_name =>
      let name := to_string_lossy file_name in
      if negb (is_owned_temporary_filename name (filename_suffix (format config))) then (report, w)
      else
        let path := win_join (namespace config) file_name in
        match fs_symlink_metadata path w with
        | (Err source, w) => (add_failure name source report, w)
        | (Ok (Regular _ modified), w) =>
            if negb (old_enough now modified minimum_age) then (add_skipped name report, w)
            else match delete_file path w with
                 | (Ok _, w) => (add_removed name report, w)
                 | (Err source, w) => (add_failure name source report, w)
                 end
        | (Ok _, w) => (add_failure name io_other report, w)
        end
  end.

Fixpoint cleanup_entries (config : StoreConfig) (minimum_age : Duration) (now : Z)
    (entries : list (result bytes io_error)) (report : CleanupReport) (w : World)
    : CleanupReport * World :=
  match entries with
  | [] => (report, w)
  | entry :: entries =>
      let (report, w) := cleanup_entry config minimum_age now entry report w in
      cleanup_entries config minimum_age now entries report w
  end.

Definition windows_cleanup_stale_files (config : StoreConfig) (minimum_age : Duration)
    : eff World AtomicBlobStoreError CleanupReport := fun w =>
  let now := w_now w in
  match io_op EnumerateTemporaryFiles (fs_read_dir (namespace config)) w with
  | (Err e, w) => (Err e, w)
  | (Ok entries, w) =>
      let (report, w) := cleanup_entries config minimum_age now entries CleanupReport_default w in
      (Ok report, w)
  end.

End Windows.
