(* ===== verification/Backend.v ===== *)
(** * The interface of the filesystem backends

    The items of [src/src/filesystem/mod.rs] that the engine imports
    ([src/src/lib.rs]) and that [cfg(unix)] and [cfg(windows)] define differently,
    with [std::path].  Loads and inspections are the same on both systems.  The
    engine and the facades are written against this interface. *)
From S2P Require Export Windows.

Local Open Scope N_scope.

(** The [fuel] bounds the random names that are tried; [inl] is a run that still
    tries names. *)
Class Backend := {
  backend_path :: StdPath;
  backend_initialize (root namespace_component : Path) (f : BlobFormatIdentity)
    (max max_concurrent : N) : eff World AtomicBlobStoreError StoreConfig;
  backend_save (fuel : nat) (config : StoreConfig) (path : Path) (payload : bytes) (w : World)
    : World + (result unit AtomicBlobStoreError * World);
  backend_save_from_receiver (fuel : nat) (config : StoreConfig) (path : Path) (declared_len : N)
    (chunks : list SaveStreamMessage) (w : World)
    : (list SaveStreamMessage * World) +
      ((result unit AtomicBlobStoreError * list SaveStreamMessage) * World);
  backend_clear (fuel : nat) (config : StoreConfig) (path : Path) (w : World)
    : World + (result unit AtomicBlobStoreError * World);
  backend_quarantine (fuel : nat) (config : StoreConfig) (path : Path) (w : World)
    : World + (result QuarantineInfo AtomicBlobStoreError * World);
  backend_cleanup (config : StoreConfig) (minimum_age : Duration)
    : eff World AtomicBlobStoreError CleanupReport;
}.

#[export] Instance unix_backend {Crc : Crc32c} {Tgt : Target} {Awf : AtomicWriteFile} {Rx : Rustix}
    : Backend := {|
  backend_path := unix_path;
  backend_initialize := initialize_platform;
  backend_save _ config path payload w := inr (save_blob config path payload w);
  backend_save_from_receiver _ config path declared_len chunks w :=
    inr (save_blob_from_receiver config path declared_len chunks w);
  backend_clear _ config path w := inr (clear_blob config path w);
  backend_quarantine := quarantine_blob;
  backend_cleanup := cleanup_stale_files;
|}.

#[export] Instance windows_backend {Crc : Crc32c} {Tgt : Target} {Api : WindowsApi}
    {Abs : AbsolutePath} {Lst : DirectoryListing} : Backend := {|
  backend_path := windows_path;
  backend_initialize := windows_initialize_platform;
  backend_save := windows_save_blob;
  backend_save_from_receiver := windows_save_blob_from_receiver;
  backend_clear := windows_clear_blob;
  backend_quarantine := windows_quarantine_blob;
  backend_cleanup := windows_cleanup_stale_files;
|}.
