(* ===== verification/ReferenceFs.v ===== *)
(** * Concrete instances of the file crates

    An atomic writer with an unlinked temporary file (what [atomic-write-file]
    does with [O_TMPFILE]) and a [renameat2] over the model of the filesystem.
    They satisfy the laws the theorems assume, and the witnesses run on them. *)
From S2P Require Export Filesystem Reference.

Local Open Scope N_scope.
Local Open Scope blob_scope.

#[export] Instance reference_awf : AtomicWriteFile := {
  awf_open _ path := syscall (SysExtern path) (fun fs =>
    match fs !! parent_dir path with
    | Some Directory => (Ok (Writer [] []), fs)
    | _ => (Err ENOENT, fs)
    end);
  awf_commit path file := syscall (SysRename path path) (fun fs =>
    match fs !! path with
    | Some Directory => (Err EISDIR, fs)
    | _ => (Ok tt, <[path := Regular (wr_data file) None]> fs)
    end);
  awf_drop _ _ w := w;
}.

#[export] Instance reference_awf_laws : AtomicWriteFileLaws.
Proof.
  split; simpl.
  - intros o path w. apply syscall_passes; [apply agree_off_refl|].
    destruct (w_fs w !! _) as [[]|]; apply agree_off_refl.
  - intros o path w f w' E. apply syscall_ok in E as [E _].
    by destruct (w_fs w !! _) as [[]|]; simplify_eq/=.
  - intros path f w. apply passes_refl, agree_off_refl.
  - intros path f w. apply syscall_passes; [split; [apply agree_off_refl|by left]|].
    assert (Hi : agree_off (fun p => p = path \/ awf_temporary path p) (w_fs w)
      (<[path := Regular (wr_data f) None]> (w_fs w)))
      by (apply agree_off_insert; by left).
    assert (Hn : old_or_new (w_fs w) path (wr_data f) (<[path := Regular (wr_data f) None]> (w_fs w)))
      by (right; exists None; apply lookup_insert_eq).
    destruct (w_fs w !! path) as [[]|]; simpl; (split; [try done; apply agree_off_refl|]);
      try done; by left.
  - intros path f w w' E. apply syscall_ok in E as (E & Hf & _). rewrite Hf. exists None.
    destruct (w_fs w !! path) as [[]|]; simplify_eq/=; apply lookup_insert_eq.
Qed.

(** An injected failure is not about the names: it is reported as [EIO]. *)
Definition reference_rename (src dst : Path) : eff World Z unit := fun w =>
  match w_faults w with
  | Some _ :: faults => (Err 5%Z, set_faults faults w)
  | faults =>
      let w' := set_faults (tail faults) w in
      match w_fs w !! src, w_fs w !! dst with
      | None, _ => (Err Errno_NOENT, w')
      | Some _, Some _ => (Err Errno_EXIST, w')
      | Some n, None =>
          (Ok tt, log_call (SysRename src dst) (set_fs (<[dst := n]> (delete src (w_fs w))) w'))
      end
  end.

#[export] Instance reference_rustix : Rustix := { rename_noreplace := reference_rename }.

Lemma set_faults_tail_passes (P : FsMap -> Prop) (w : World) :
  P (w_fs w) -> passes P w (set_faults (tail (w_faults w)) w).
Proof.
  intros H. split; simpl; try done; [by exists []| |].
  - intros Hc. split; [by apply calm_tail|apply Hc].
  - apply honest_tail.
Qed.

#[export] Instance reference_rustix_laws : RustixLaws.
Proof.
  split; simpl; intros src dst w.
  - pose proof (set_faults_tail_passes (fun fs => fs = w_fs w) w eq_refl) as Ht.
    unfold reference_rename. destruct (w_faults w) as [|[e|] faults]; cbn [tail] in *.
    2: by split.
    all: destruct (w_fs w !! src) as [n|] eqn:Es; [|by split].
    all: destruct (w_fs w !! dst) as [m|] eqn:Ed; [by split|].
    all: exists n; split_and!; try done; eapply passes_trans; [eapply passes_mono, Ht; intros; by left|].
    all: destruct Ht as [_ _ _ _ _ Hc Hh]; split; simpl; try done; [|by right].
    all: eexists [_]; split; [done|]; apply Forall_singleton; by right.
  - unfold reference_rename. destruct (w_faults w) as [|[e|] faults]; [|done|].
    all: destruct (w_fs w !! src), (w_fs w !! dst); done.
Qed.
