(* ===== verification/FilesystemLemmas.v ===== *)
(** * Lemmas on the filesystem backend

    What each call of the backend may do to the filesystem at any point of its
    run ([passes]), and what it leaves when it succeeds. *)
From S2P Require Export Filesystem FormatSpec.

Local Open Scope N_scope.
Local Open Scope blob_scope.

(** ** Canonical paths *)

Definition hex_name (h : bytes) : Prop := length h = 64%nat /\ forallb is_lower_hex h = true.

#[export] Instance hex_name_dec h : Decision (hex_name h).
Proof. unfold hex_name. apply _. Defined.

Definition valid_config (c : StoreConfig) : Prop :=
  valid_format (format c) /\ plain_dir (namespace c).

(** The file of the key whose digest renders as [h]. *)
Definition blob_file (c : StoreConfig) (h : bytes) : Path :=
  path_join (namespace c) (h ++ filename_suffix (format c)).

Definition canonical (c : StoreConfig) (p : Path) : Prop :=
  exists h, hex_name h /\ p = blob_file c h.

Lemma plain_dir_nonempty d : plain_dir d -> d <> [].
Proof. intros (d' & b & -> & _). by destruct d'. Qed.

Lemma blob_name_plain c h : valid_config c -> hex_name h -> plain_name (h ++ filename_suffix (format c)).
Proof. intros [(_ & Hs & _) _] [H1 H2]. apply hex_suffix_plain; auto using valid_suffix_no_slash. Qed.

Lemma blob_file_components c h :
  valid_config c -> hex_name h ->
  components (blob_file c h) =
    components (namespace c) ++ [Normal (h ++ filename_suffix (format c))].
Proof.
  intros Hc Hh. apply components_join; [by apply plain_dir_nonempty, Hc|by apply blob_name_plain].
Qed.

Lemma blob_file_inj c h1 h2 :
  valid_config c -> hex_name h1 -> hex_name h2 -> blob_file c h1 = blob_file c h2 -> h1 = h2.
Proof.
  intros Hc H1 H2 E. apply path_join_inj in E; auto using blob_name_plain.
  by apply app_inv_tail in E.
Qed.

Lemma blob_file_temporary c h p :
  valid_config c -> hex_name h ->
  awf_temporary (blob_file c h) p ->
  exists name, components p = components (namespace c) ++ [Normal (DOT :: name)].
Proof. intros Hc Hh [name E]. exists name. by rewrite blob_file_components, removelast_last in E. Qed.

Lemma hex_name_head h : hex_name h -> exists d t, h = d :: t /\ d <> DOT.
Proof.
  intros [Hl Hh]. destruct h as [|d t]; [done|]. exists d, t. split; [done|].
  apply andb_prop in Hh as [Hd _]. by apply lower_hex_spec.
Qed.

(** No canonical file, nor the namespace, is a temporary name. *)
Lemma canonical_not_temporary c h1 h2 :
  valid_config c -> hex_name h1 -> hex_name h2 -> ~ awf_temporary (blob_file c h1) (blob_file c h2).
Proof.
  intros Hc H1 H2 Ht. apply blob_file_temporary in Ht as [name E]; [|done..].
  rewrite blob_file_components in E by done. simplify_list_eq.
  destruct (hex_name_head h2 H2) as (d & t & -> & Hd). by simplify_eq/=.
Qed.

Lemma namespace_not_temporary c h :
  valid_config c -> hex_name h -> ~ awf_temporary (blob_file c h) (namespace c).
Proof.
  intros Hc Hh Ht. apply blob_file_temporary in Ht as [name E]; [|done..].
  apply (f_equal length) in E. rewrite length_app in E. simpl in E. lia.
Qed.

Lemma blob_file_not_namespace c h : valid_config c -> hex_name h -> blob_file c h <> namespace c.
Proof. intros Hc Hh. by apply path_join_ne_base, blob_name_plain. Qed.

Lemma blob_file_parent c h :
  valid_config c -> hex_name h -> parent_dir (blob_file c h) = namespace c.
Proof. intros Hc Hh. apply parent_dir_join; [apply Hc|by apply blob_name_plain]. Qed.

(** ** Runs *)

Lemma bind_passes {E A B : Type} (P : FsMap -> Prop) (c : eff World E A) (k : A -> eff World E B) (w : World) :
  passes P w (snd (c w)) ->
  (forall a w1, c w = (Ok a, w1) -> P (w_fs w1) -> passes P w1 (snd (k a w1))) ->
  passes P w (snd (bind c k w)).
Proof.
  intros H1 H2. unfold bind. destruct (c w) as [[a|e] w1] eqn:E1; simpl in *; [|done].
  eapply passes_trans; [done|]. apply H2; [done|by apply (passes_last P w)].
Qed.

Lemma bind_result_passes {E F A B : Type} (P : FsMap -> Prop) (c : eff World E A)
    (k : result A E -> eff World F B) (w : World) :
  passes P w (snd (c w)) ->
  (forall r w1, c w = (r, w1) -> P (w_fs w1) -> passes P w1 (snd (k r w1))) ->
  passes P w (snd (bind_result c k w)).
Proof.
  intros H1 H2. unfold bind_result. destruct (c w) as [r w1] eqn:E1; simpl in *.
  eapply passes_trans; [done|]. apply H2; [done|by apply (passes_last P w)].
Qed.

Lemma map_err_passes {E F A : Type} (P : FsMap -> Prop) (f : E -> F) (c : eff World E A) (w : World) :
  passes P w (snd (c w)) -> passes P w (snd (eff_map_err f c w)).
Proof. unfold eff_map_err. by destruct (c w). Qed.

Lemma ret_passes {E A : Type} (P : FsMap -> Prop) (a : A) w : P (w_fs w) -> passes P w (snd (ret (E := E) a w)).
Proof. apply passes_refl. Qed.

Lemma throw_passes {E A : Type} (P : FsMap -> Prop) (e : E) w : P (w_fs w) -> passes P w (snd (throw (A := A) e w)).
Proof. apply passes_refl. Qed.

Lemma lift_passes {E A : Type} (P : FsMap -> Prop) (r : result A E) w : P (w_fs w) -> passes P w (snd (lift r w)).
Proof. apply passes_refl. Qed.

Lemma set_reads_passes (P : FsMap -> Prop) l (w : World) :
  P (w_fs w) -> (calm w -> forallb (forallb plan_event_calm) l = true) -> passes P w (set_reads l w).
Proof.
  intros H Hl. split; simpl; try done; [by exists []|]. intros Hc. split; [apply Hc|auto].
Qed.

Lemma calm_reads_tail w : calm w -> forallb (forallb plan_event_calm) (tail (w_reads w)) = true.
Proof. intros [_ H]. destruct (w_reads w); [done|]. by apply andb_prop in H as [_ ?]. Qed.

Lemma calm_reads_head w : calm w -> forallb plan_event_calm (default [] (head (w_reads w))) = true.
Proof. intros [_ H]. destruct (w_reads w); [done|]. by apply andb_prop in H as [? _]. Qed.

(** *** System calls that change nothing *)

Section ReadOnly.
Context (P : FsMap -> Prop) (w : World) (HP : P (w_fs w)).

Lemma metadata_passes p : passes P w (snd (fs_metadata p w)).
Proof. by apply syscall_passes. Qed.

Lemma symlink_metadata_passes p : passes P w (snd (fs_symlink_metadata p w)).
Proof. by apply syscall_passes. Qed.

Lemma sync_all_passes p : passes P w (snd (fs_sync_all p w)).
Proof. by apply syscall_passes. Qed.

Lemma open_passes p : passes P w (snd (fs_open p w)).
Proof.
  unfold fs_open.
  pose proof (syscall_passes (SysOpen p) (fun fs => (resolve SYMLINK_MAX fs p, fs)) w P HP HP) as H.
  destruct (syscall _ _ w) as [[n|e] w'] eqn:E; simpl in *; [|done].
  eapply passes_trans; [done|]. apply set_reads_passes; [by apply (passes_last P w)|].
  apply calm_reads_tail.
Qed.

Lemma seek_passes n f : passes P w (snd (fs_seek n f w)).
Proof.
  unfold fs_seek. pose proof (calm_tail w) as Ht. pose proof (calm_reads_tail w) as Hr.
  pose proof (honest_tail w) as Hh.
  destruct (w_faults w) as [|[e|] faults]; split; simpl in *; try done;
    try (by exists []); intros Hc; split; simpl; try apply Hc; auto.
Qed.

Lemma getrandom_passes : passes P w (snd (getrandom_fill w)).
Proof. split; simpl; try done. by exists []. Qed.

Lemma current_dir_passes : passes P w (snd (current_dir w)).
Proof. by apply passes_refl. Qed.
End ReadOnly.

Lemma remove_file_passes (P : FsMap -> Prop) p (w : World) :
  P (w_fs w) -> P (delete p (w_fs w)) -> passes P w (snd (fs_remove_file p w)).
Proof. intros H1 H2. apply syscall_passes; [done|]. by destruct (w_fs w !! p) as [[]|]. Qed.

Lemma create_dir_passes (P : FsMap -> Prop) p (w : World) :
  P (w_fs w) -> P (<[p := Directory]> (w_fs w)) -> passes P w (snd (fs_create_dir p w)).
Proof.
  intros H1 H2. apply syscall_passes; [done|]. destruct (w_fs w !! p); [done|].
  by destruct (resolve _ _ _) as [[]|].
Qed.

#[export] Hint Resolve metadata_passes symlink_metadata_passes sync_all_passes open_passes
  seek_passes getrandom_passes current_dir_passes ret_passes throw_passes lift_passes : blob.

(** Steps through a run whose calls change nothing the invariant looks at. *)
Ltac run_passes :=
  repeat (match goal with
  | |- passes _ _ (snd (bind _ _ _)) => apply bind_passes; [|intros ? ? ? ?]
  | |- passes _ _ (snd (bind_result _ _ _)) => apply bind_result_passes; [|intros ? ? ? ?]
  | |- passes _ _ (snd (eff_map_err _ _ _)) => apply map_err_passes
  | |- passes _ _ (snd (io_op _ _ _)) => apply map_err_passes
  | |- passes _ _ (snd ((match ?x with _ => _ end) _)) => destruct x eqn:?
  | |- passes _ _ (snd (match ?x with _ => _ end)) => destruct x eqn:?
  end; try (solve [auto with blob])).

Section BackendRuns.
Context {Crc : Crc32c} {Tgt : Target} {Awf : AtomicWriteFile} {Rx : Rustix}.

Lemma sync_directory_passes (P : FsMap -> Prop) p o1 o2 (w : World) :
  P (w_fs w) -> passes P w (snd (sync_directory p o1 o2 w)).
Proof. intros. unfold sync_directory. run_passes. Qed.

Lemma ensure_namespace_passes (P : FsMap -> Prop) c (w : World) :
  P (w_fs w) -> passes P w (snd (ensure_namespace_available c w)).
Proof. intros. unfold ensure_namespace_available. run_passes. Qed.

Hint Resolve sync_directory_passes ensure_namespace_passes : blob.

Lemma load_blob_passes (P : FsMap -> Prop) c p (w : World) :
  P (w_fs w) -> passes P w (snd (load_blob c p w)).
Proof. intros. unfold load_blob. run_passes. Qed.

Lemma inspect_blob_passes (P : FsMap -> Prop) c p (w : World) :
  P (w_fs w) -> passes P w (snd (inspect_blob c p w)).
Proof. intros. unfold inspect_blob. run_passes. Qed.

Lemma load_blob_into_sender_passes (P : FsMap -> Prop) c p sink (w : World) :
  P (w_fs w) -> passes P w (snd (load_blob_into_sender c p sink w)).
Proof.
  intros HP. unfold load_blob_into_sender.
  pose proof (open_passes P w HP p) as Ho. destruct (fs_open p w) as [[f|e] w1]; simpl in Ho.
  - destruct (fst (validate_envelope_reader _ _ _)); [|done].
    pose proof (seek_passes P w1 (passes_last _ _ _ Ho) HEADER_LEN f) as Hs.
    destruct (fs_seek HEADER_LEN f w1) as [[f'|e] w2]; simpl in Hs; [|by eapply passes_trans].
    destruct (deliver_payload _ _ _) as [[|] sent]; by eapply passes_trans.
  - case_decide; [|done].
    pose proof (ensure_namespace_passes P c w1 (passes_last _ _ _ Ho)) as He.
    destruct (ensure_namespace_available c w1); by eapply passes_trans.
Qed.

Lemma clear_blob_passes (P : FsMap -> Prop) c p (w : World) :
  P (w_fs w) -> P (delete p (w_fs w)) -> passes P w (snd (clear_blob c p w)).
Proof. intros. unfold clear_blob. run_passes. by apply remove_file_passes. Qed.

End BackendRuns.

#[export] Hint Resolve sync_directory_passes ensure_namespace_passes load_blob_passes
  inspect_blob_passes clear_blob_passes : blob.
