(* ===== verification/FilesystemSpec.v ===== *)
(** * What the filesystem backend guarantees

    Saving, streaming a save and clearing are atomic at the canonical path at
    every point where the process can stop; loads answer with stored payloads
    only; quarantining moves a file to a name of its own; opening a store leaves
    the namespace directory.  The external crates enter through
    [AtomicWriteFileLaws] and [RustixLaws]. *)
From S2P Require Export FilesystemLemmas.

Local Open Scope N_scope.
Local Open Scope blob_scope.

(** ** Writing through [atomic-write-file] *)

Section Saves.
Context {Crc : Crc32c} {CrcL : Crc32cLaws} {Tgt : Target} {Awf : AtomicWriteFile}
  {AwfL : AtomicWriteFileLaws}.

(** The states of a save of [payload] under [h] that began in [fs0]: nothing but
    the canonical file and the temporary names of the writer differs, and the
    canonical file is the old one or the complete new envelope. *)
Definition published (c : StoreConfig) (h payload : bytes) (fs0 fs : FsMap) : Prop :=
  agree_off (fun p => p = blob_file c h \/ awf_temporary (blob_file c h) p) fs0 fs /\
  old_or_new fs0 (blob_file c h) (envelope (format c) payload) fs.

(** Nothing but temporary names differs. *)
Definition unpublished (c : StoreConfig) (h : bytes) : FsMap -> FsMap -> Prop :=
  agree_off (awf_temporary (blob_file c h)).

Lemma unpublished_canonical c h fs fs' :
  valid_config c -> hex_name h -> unpublished c h fs fs' ->
  forall h', hex_name h' -> fs' !! blob_file c h' = fs !! blob_file c h'.
Proof. intros Hc Hh H h' Hh'. by apply H, canonical_not_temporary. Qed.

Lemma unpublished_published c h payload fs fs' :
  valid_config c -> hex_name h -> unpublished c h fs fs' -> published c h payload fs fs'.
Proof.
  intros Hc Hh H. split.
  - eapply agree_off_mono, H. auto.
  - left. by eapply unpublished_canonical.
Qed.

Lemma write_sections_ok ss f f' :
  write_sections ss f = (Ok tt, f') -> wr_data f' = wr_data f ++ concat ss.
Proof.
  revert f; induction ss as [|s ss IH]; intros f E; simpl in E.
  - unfold ret in E. simplify_eq/=. by rewrite app_nil_r.
  - apply bind_inv_ok in E as ([] & f1 & E1%write_section_inv & E2%IH).
    by rewrite E2, E1, <-app_assoc.
Qed.

Lemma open_unpublished c h o (w : World) :
  passes (unpublished c h (w_fs w)) w (snd (awf_open o (blob_file c h) w)).
Proof. apply awf_open_passes. Qed.

Lemma write_sections_err ss f e f' :
  write_sections ss f = (Err e, f') -> exists source, e = Io WriteEnvelope source.
Proof.
  revert f; induction ss as [|s ss IH]; intros f E; simpl in E; [done|].
  rewrite bind_map_err_ok in E. unfold write_section, eff_map_err in E.
  destruct (write_all s f) as [[[]|e1] f1]; cbn [map_err] in E; [by eapply IH|].
  simplify_eq. eauto.
Qed.

(** Dropping the writer after a failure publishes nothing. *)
Lemma drop_unpublished c h o f f0 (w w1 : World) :
  awf_open o (blob_file c h) w = (Ok f0, w1) ->
  passes (unpublished c h (w_fs w)) w (awf_drop (blob_file c h) f w1).
Proof.
  intros E. pose proof (open_unpublished c h o w) as H1. rewrite E in H1. simpl in H1.
  eapply passes_trans; [done|]. eapply passes_mono; [|apply awf_drop_passes].
  intros fs H. eapply agree_off_trans; [apply (passes_last _ _ _ H1)|done].
Qed.

Lemma commit_published c h o f f0 payload (w w1 : World) :
  valid_config c -> hex_name h ->
  awf_open o (blob_file c h) w = (Ok f0, w1) ->
  wr_data f = envelope (format c) payload ->
  passes (published c h payload (w_fs w)) w (snd (awf_commit (blob_file c h) f w1)).
Proof.
  intros Hc Hh E Hd. pose proof (open_unpublished c h o w) as H1. rewrite E in H1. simpl in H1.
  pose proof (passes_last _ _ _ H1) as Hu. eapply passes_trans.
  - eapply passes_mono, H1. intros; by apply unpublished_published.
  - eapply passes_mono; [|apply awf_commit_passes]. intros fs [Ha Ho]. split.
    + eapply agree_off_trans; [|done]. eapply agree_off_mono, Hu. auto.
    + rewrite <-Hd. destruct Ho as [Ho|Ho]; [left|by right].
      rewrite Ho. by eapply unpublished_canonical.
Qed.

(** A result of a save: what it says of the file. *)
Definition save_outcome (c : StoreConfig) (h : bytes) (payload : option bytes) (fs : FsMap)
    (r : result unit AtomicBlobStoreError) (fs' : FsMap) : Prop :=
  match r with
  | Ok _ => exists p t, payload = Some p /\ blen p <= maximum c /\
      fs' !! blob_file c h = Some (Regular (envelope (format c) p) t)
  | Err (AtomicCommit _) => True
  | Err _ => unpublished c h fs fs'
  end.

Lemma save_blob_run c h payload (w : World) :
  valid_config c -> hex_name h ->
  let (r, w') := save_blob c (blob_file c h) payload w in
  passes (published c h payload (w_fs w)) w w' /\
  save_outcome c h (Some payload) (w_fs w) r (w_fs w').
Proof.
  intros Hc Hh. unfold save_blob.
  assert (Hid : unpublished c h (w_fs w) (w_fs w)) by apply agree_off_refl.
  assert (Hdone : forall w', passes (unpublished c h (w_fs w)) w w' ->
    passes (published c h payload (w_fs w)) w w').
  { intros w'. apply passes_mono. intros; by apply unpublished_published. }
  rewrite bind_map_err_ok. unfold lift.
  destruct (envelope_parts _ _ _) as [[header checksum]|e] eqn:Ep.
  2:{ split; [by apply Hdone, passes_refl|]. unfold envelope_parts in Ep.
      destruct (u64_try_from _); cbn in Ep; [|by simplify_eq].
      unfold envelope_header in Ep. destruct (_ <? _); by simplify_eq. }
  assert (He : encode_envelope (format c) payload (maximum c) = Ok (header ++ payload ++ checksum))
    by (unfold encode_envelope; by rewrite Ep).
  apply encode_envelope_ok in He as (He & Hmax & _).
  rewrite bind_map_err_ok. unfold io_op, eff_map_err.
  pose proof (open_unpublished c h atomic_options w) as Ho.
  destruct (awf_open _ _ w) as [[f|e] w1] eqn:Eo; simpl in Ho; cbn [map_err].
  2:{ split; [by apply Hdone|by apply (passes_last _ _ _ Ho)]. }
  destruct (write_sections _ f) as [[[]|e] f'] eqn:Ew.
  2:{ pose proof (drop_unpublished c h _ f' f w w1 Eo) as Hd. split; [by apply Hdone|].
      assert (exists e', e = Io WriteEnvelope e') as [e' ->].
      { by eapply write_sections_err. }
      apply (passes_last _ _ _ Hd). }
  apply write_sections_ok in Ew. rewrite (awf_open_empty _ _ _ _ _ Eo) in Ew.
  cbn [concat] in Ew. rewrite app_nil_r, app_nil_l in Ew. rewrite <-Ew in He.
  pose proof (commit_published c h _ f' f payload w w1 Hc Hh Eo He) as Hp.
  destruct (awf_commit _ f' w1) as [[[]|e] w2] eqn:Ec; (split; [done|]); cbn [map_err]; [|done].
  apply awf_commit_ok in Ec as [t Et]. exists payload, t. by rewrite Et, <-He.
Qed.

(** The chunks of a stream up to its completion; [None] when it has none. *)
Fixpoint stream_payload (msgs : list SaveStreamMessage) : option bytes :=
  match msgs with
  | [] => None
  | Complete :: _ => Some []
  | Chunk c :: msgs' => app c <$> stream_payload msgs'
  end.

Lemma stream_payload_chunks cs rest : stream_payload (map Chunk cs ++ Complete :: rest) = Some (concat cs).
Proof. induction cs as [|c cs IH]; [done|]. simpl. by rewrite IH. Qed.

Lemma save_blob_from_receiver_run c h declared msgs (w : World) :
  valid_config c -> hex_name h ->
  let '((r, rest), w') := save_blob_from_receiver c (blob_file c h) declared msgs w in
  passes (fun fs => unpublished c h (w_fs w) fs \/
    exists p, stream_payload msgs = Some p /\ blen p = declared /\ published c h p (w_fs w) fs) w w' /\
  save_outcome c h (stream_payload msgs) (w_fs w) r (w_fs w').
Proof.
  intros Hc Hh. unfold save_blob_from_receiver.
  assert (Hid : unpublished c h (w_fs w) (w_fs w)) by apply agree_off_refl.
  destruct (envelope_header _ _ _) as [hd|e] eqn:Eh.
  2:{ unfold envelope_header in Eh. destruct (_ <? _); simplify_eq. split; [|done].
      apply passes_refl; auto. }
  unfold io_op, eff_map_err. pose proof (open_unpublished c h atomic_options w) as Ho.
  destruct (awf_open _ _ w) as [[f|e] w1] eqn:Eo; simpl in Ho; cbn [map_err].
  2:{ split; [eapply passes_mono, Ho; auto|apply (passes_last _ _ _ Ho)]. }
  destruct (write_stream_envelope _ _ _) as [[[]|e] [f' rest]] eqn:Ew.
  2:{ pose proof (drop_unpublished c h _ f' f w w1 Eo) as Hd.
      split; [eapply passes_mono, Hd; auto|].
      apply passes_last in Hd. by destruct e. }
  apply write_stream_envelope_ok in Ew as (cs & -> & Hl & Hm & Hd).
  rewrite (awf_open_empty _ _ _ _ _ Eo), app_nil_l in Hd. rewrite stream_payload_chunks.
  pose proof (commit_published c h _ f' f (concat cs) w w1 Hc Hh Eo Hd) as Hp.
  destruct (awf_commit _ f' w1) as [[[]|e] w2] eqn:Ec; cbn [map_err].
  all: split; [eapply passes_mono, Hp; intros fs Hfs; right; by exists (concat cs)|].
  - apply awf_commit_ok in Ec as [t Et]. exists (concat cs), t. rewrite Et, Hd. split_and!; [done|lia|done].
  - done.
Qed.

(** A stream that was saved had the declared length. *)
Lemma save_stream_length c path n msgs (w : World) rest w' q :
  save_blob_from_receiver c path n msgs w = ((Ok tt, rest), w') ->
  stream_payload msgs = Some q -> blen q = n.
Proof.
  unfold save_blob_from_receiver. destruct (envelope_header _ _ _); [|done].
  destruct (io_op _ _ w) as [[f|e] w1]; [|done].
  destruct (write_stream_envelope _ _ _) as [[[]|e] [f' rest']] eqn:Ew; [|done].
  apply write_stream_envelope_ok in Ew as (cs & -> & Hl & _). intros _.
  rewrite stream_payload_chunks. by intros [= <-].
Qed.

End Saves.
