(* ===== verification/LoadSpec.v ===== *)
(** * What loading guarantees

    A load answers with the payload of the envelope that the path holds, and
    says that there is none only when the namespace directory is there; a
    streaming load hands over the chunks of a payload that was validated from
    end to end first. *)
From S2P Require Export FilesystemSpec.

Local Open Scope N_scope.
Local Open Scope blob_scope.

Lemma plan_reader_dense plan data : reader_dense (plan_reader plan data) = true.
Proof.
  revert data; induction plan as [|[n|e] plan IH]; intros data; simpl.
  - by apply reader_dense_push.
  - by apply reader_dense_push, IH.
  - unfold reader_dense. simpl. apply IH.
Qed.

Lemma node_reader_dense plan position n : reader_dense (node_reader plan position n) = true.
Proof. destruct n; try done. apply plan_reader_dense. Qed.

(** What a node has to read from a position on. *)
Definition node_data (position : N) (n : Node) : bytes :=
  match n with Regular content _ => drop (N.to_nat position) content | _ => [] end.

Lemma node_reader_data plan position n : reader_data (node_reader plan position n) = node_data position n.
Proof. destruct n; try done. apply plan_reader_data. Qed.

Lemma node_reader_calm plan position n :
  n <> Directory -> forallb plan_event_calm plan = true ->
  reader_calm (node_reader plan position n) = true.
Proof. destruct n; try done. intros _. apply plan_reader_calm. Qed.

(** ** Opening and looking *)

Lemma fs_open_inv p (w : World) f w' :
  fs_open p w = (Ok f, w') ->
  resolve SYMLINK_MAX (w_fs w) p = Ok (f_node f) /\ w_fs w' = w_fs w /\
  exists plan, f_reader f = node_reader plan 0 (f_node f).
Proof.
  unfold fs_open. destruct (syscall _ _ w) as [[n|e] w1] eqn:E; [|done].
  apply syscall_ok in E as (H1 & H2 & _). intros; simplify_eq/=. eauto.
Qed.

Lemma fs_open_err p (w : World) e w' :
  honest w -> fs_open p w = (Err e, w') ->
  (honest_error e = true \/ resolve SYMLINK_MAX (w_fs w) p = Err e) /\ w_fs w' = w_fs w /\ honest w'.
Proof.
  intros Hh E. pose proof (open_passes (fun fs => fs = w_fs w) w eq_refl p) as Hp.
  rewrite E in Hp. destruct Hp as [_ Hf _ _ _ _ Hh']. split_and!; [|done|by apply Hh'].
  unfold fs_open in E. destruct (syscall _ _ w) as [[n|e1] w1] eqn:E1; [done|].
  apply syscall_err in E1; [|done]. by simplify_eq/=.
Qed.

Lemma fs_open_calm p (w : World) :
  calm w ->
  match resolve SYMLINK_MAX (w_fs w) p with
  | Ok n => exists plan w', fs_open p w = (Ok {| f_node := n; f_reader := node_reader plan 0 n |}, w') /\
      forallb plan_event_calm plan = true /\ w_fs w' = w_fs w /\ calm w'
  | Err e => exists w', fs_open p w = (Err e, w') /\ w_fs w' = w_fs w /\ calm w'
  end.
Proof.
  intros Hc. pose proof (open_passes (fun fs => fs = w_fs w) w eq_refl p) as Hp.
  destruct (syscall_calm (SysOpen p) (fun fs => (resolve SYMLINK_MAX fs p, fs)) w Hc)
    as (E1 & E2 & E3 & E4).
  unfold fs_open in *. destruct (syscall _ _ w) as [r w1]; simpl in *. subst r.
  destruct (resolve SYMLINK_MAX (w_fs w) p) as [n|e].
  - simpl in Hp. exists (default [] (head (w_reads w1))). eexists. split; [done|].
    split; [by apply calm_reads_head|]. split; [apply (passes_last _ _ _ Hp)|by apply (passes_calm _ _ _ Hp)].
  - by exists w1.
Qed.

Lemma fs_metadata_calm p (w : World) :
  calm w -> exists w', fs_metadata p w = (resolve SYMLINK_MAX (w_fs w) p, w') /\
    w_fs w' = w_fs w /\ calm w'.
Proof.
  intros Hc. destruct (syscall_calm (SysMetadata p) (fun fs => (resolve SYMLINK_MAX fs p, fs)) w Hc)
    as (E1 & E2 & E3 & E4).
  unfold fs_metadata. destruct (syscall _ _ w) as [r w1]; simpl in *. subst r. by exists w1.
Qed.

Section Loads.
Context {Crc : Crc32c} {CrcL : Crc32cLaws} {Tgt : Target}.

Lemma fits_u64 max : fits_usize max -> max <= U64_MAX.
Proof.
  unfold fits_usize. assert (usize_MAX pointer_width <= U64_MAX) by by destruct pointer_width. lia.
Qed.

Lemma ensure_namespace_ok c (w : World) w' :
  ensure_namespace_available c w = (Ok tt, w') ->
  resolve SYMLINK_MAX (w_fs w) (namespace c) = Ok Directory.
Proof.
  unfold ensure_namespace_available, bind_result.
  destruct (fs_metadata _ w) as [[n|e] w1] eqn:E; [|done].
  apply syscall_ok in E as [E _]. simpl in E. by destruct n.
Qed.

(** What [ensure_namespace_available] says without failures. *)
Definition namespace_status (c : StoreConfig) (fs : FsMap) : result unit AtomicBlobStoreError :=
  match resolve SYMLINK_MAX fs (namespace c) with
  | Ok Directory => Ok tt
  | Ok _ => Err NamespacePathIsNotDirectory
  | Err e => Err (Io InspectNamespace e)
  end.

Lemma ensure_namespace_errors c (w : World) e w' :
  ensure_namespace_available c w = (Err e, w') ->
  e = NamespacePathIsNotDirectory \/ exists s, e = Io InspectNamespace s.
Proof.
  unfold ensure_namespace_available, bind_result. destruct (fs_metadata _ w) as [[m|e1] w1];
    [destruct (is_dir m)|]; unfold ret, throw; intros; simplify_eq; eauto.
Qed.

Lemma ensure_namespace_calm c (w : World) :
  calm w -> exists w', ensure_namespace_available c w = (namespace_status c (w_fs w), w') /\
    w_fs w' = w_fs w /\ calm w'.
Proof.
  intros Hc. destruct (fs_metadata_calm (namespace c) w Hc) as (w' & E & Hf & Hc').
  exists w'. split; [|done]. unfold ensure_namespace_available, bind_result, namespace_status.
  rewrite E. by destruct (resolve _ _ _) as [[]|].
Qed.

(** ** Loading at once *)

(** What a load answers from the filesystem alone. *)
Definition load_answer (c : StoreConfig) (path : Path) (fs : FsMap)
    : result (option bytes) AtomicBlobStoreError :=
  match resolve SYMLINK_MAX fs path with
  | Ok Directory => Err (Io ReadEnvelope EISDIR)
  | Ok n => map_ok Some (decode_spec (format c) (maximum c) (node_data 0 n))
  | Err e => if decide (kind e = NotFound) then map_ok (fun _ => None) (namespace_status c fs)
             else Err (Io OpenBlob e)
  end.

Lemma decode_directory f max :
  decode_reader f max [RFail EISDIR] = (Err (Io ReadEnvelope EISDIR), []).
Proof. done. Qed.

Lemma load_blob_calm c path (w : World) :
  calm w -> fits_usize (maximum c) -> fst (load_blob c path w) = load_answer c path (w_fs w).
Proof.
  intros Hc Hm. pose proof (fs_open_calm path w Hc) as Ho. unfold load_blob, load_answer, bind_result.
  destruct (resolve SYMLINK_MAX (w_fs w) path) as [n|e].
  - destruct Ho as (plan & w' & -> & Hp & Hf & Hc'). unfold lift. cbn [f_reader fst].
    destruct (decide (n = Directory)) as [->|Hd]; [by rewrite decode_directory|].
    rewrite decode_reader_calm by (try done; by apply node_reader_calm).
    rewrite node_reader_data. by destruct n.
  - destruct Ho as (w' & -> & Hf & Hc'). case_decide; [|done].
    destruct (ensure_namespace_calm c w' Hc') as (w2 & E & _ & _).
    unfold bind. rewrite E, Hf. by destruct (namespace_status c (w_fs w)) as [[]|].
Qed.

Lemma load_blob_inv c path (w : World) r w' :
  honest w -> load_blob c path w = (Ok r, w') ->
  match r with
  | Some p => exists n, resolve SYMLINK_MAX (w_fs w) path = Ok n /\
      node_data 0 n = envelope (format c) p /\ blen p <= maximum c
  | None => (exists e, resolve SYMLINK_MAX (w_fs w) path = Err e /\ kind e = NotFound) /\
      resolve SYMLINK_MAX (w_fs w) (namespace c) = Ok Directory
  end.
Proof.
  intros Hh. unfold load_blob, bind_result. destruct (fs_open path w) as [[f|e] w1] eqn:Eo.
  - apply fs_open_inv in Eo as (Hr & _ & plan & Hpl). unfold lift.
    destruct (decode_reader _ _ _) as [[p|] r'] eqn:Ed; cbn; intros; simplify_eq.
    apply decode_reader_ok in Ed as [Hd Hm]; [|rewrite Hpl; apply node_reader_dense].
    exists (f_node f). by rewrite <-Hd, Hpl, node_reader_data.
  - apply fs_open_err in Eo as (He & Hf & _); [|done]. case_decide as Hk; [|done].
    unfold bind. destruct (ensure_namespace_available c w1) as [[[]|] w2] eqn:En; [|done].
    unfold ret. intros; simplify_eq. apply ensure_namespace_ok in En. rewrite Hf in En.
    split; [|done]. exists e. destruct He as [He|He]; [|done].
    unfold honest_error in He. apply andb_prop in He as [He _]. by apply bool_decide_eq_true in He.
Qed.

(** ** Streaming a load *)

Definition stream_chunk (chunk : bytes) : Prop := 0 < blen chunk <= STREAM_CHUNK_SIZE.

(** The delivery loop hands over non-empty chunks of at most 64 KiB, which
    together are a prefix of the data, and ends with [Ok] only after the last
    of the [remaining] bytes. *)
Lemma deliver_loop fuel spent remaining r acc sent :
  (N.to_nat (remaining / STREAM_CHUNK_SIZE) + 1 < fuel)%nat ->
  let (res, out) := run_loop fuel deliver_step spent (remaining, r, acc, sent) in
  exists new rest, out = sent ++ new /\ Forall stream_chunk new /\
    reader_data r = concat new ++ rest /\ blen (concat new) <= remaining /\
    (res = Ok tt -> blen (concat new) = remaining).
Proof.
  revert remaining r acc sent. induction fuel as [|fuel IH]; intros remaining r acc sent Hf;
    [by apply Nat.nlt_0_r in Hf|].
  assert (Hnil : forall e, exists new rest, sent = sent ++ new /\ Forall stream_chunk new /\
    reader_data r = concat new ++ rest /\ blen (concat new) <= remaining /\
    (Err e = @Ok unit AtomicBlobStoreError tt -> blen (concat new) = remaining)).
  { intros e. exists [], (reader_data r). rewrite app_nil_r. split_and!; try done. apply N.le_0_l. }
  rewrite run_loop_S. unfold deliver_step at 1.
  destruct (remaining =? 0) eqn:E; reflect_bools.
  { exists [], (reader_data r). rewrite app_nil_r. split_and!; try done. apply N.le_0_l. }
  rewrite chunk_request_eq. pose proof (chunk_fuel_step remaining fuel Hf) as Hs.
  set (n := N.min remaining STREAM_CHUNK_SIZE) in *.
  destruct (read_section n Payload r) as [[chunk|e] r'] eqn:Er; [|by apply Hnil].
  apply read_section_data in Er as [Hd Hl].
  assert (Hn : 0 < n <= STREAM_CHUNK_SIZE) by (unfold n, STREAM_CHUNK_SIZE; lia).
  destruct (default true (head acc)); [|by apply Hnil].
  assert (Hrec : let (res, out) :=
    run_loop fuel deliver_step spent (remaining - n, r', tail acc, sent ++ [chunk]) in
    exists new rest, out = (sent ++ [chunk]) ++ new /\ Forall stream_chunk new /\
      reader_data r' = concat new ++ rest /\ blen (concat new) <= remaining - n /\
      (res = Ok tt -> blen (concat new) = remaining - n)).
  { destruct Hs as [Hs|[E0 Hs]]; [by apply IH|]. rewrite E0. destruct fuel as [|fuel]; [lia|].
    rewrite run_loop_S. exists [], (reader_data r'). rewrite app_nil_r. by split_and!. }
  destruct (run_loop _ _ _ _) as [res out]. destruct Hrec as (new & rest & -> & Hc & Hr & Hle & Hok).
  exists (chunk :: new), rest. cbn [concat]. rewrite blen_app, Hd, Hr, <-!app_assoc.
  split_and!; [done| |done|lia|intros; rewrite Hok by done; lia].
  constructor; [unfold stream_chunk; lia|done].
Qed.

(** Without failures and with a receiver that takes every chunk, it ends well. *)
Lemma deliver_loop_calm fuel spent remaining r sent :
  (N.to_nat (remaining / STREAM_CHUNK_SIZE) + 1 < fuel)%nat ->
  reader_calm r = true -> remaining <= blen (reader_data r) ->
  fst (run_loop fuel deliver_step spent (remaining, r, [], sent)) = Ok tt.
Proof.
  revert remaining r sent. induction fuel as [|fuel IH]; intros remaining r sent Hf Hc Hd;
    [by apply Nat.nlt_0_r in Hf|].
  rewrite run_loop_S. unfold deliver_step at 1.
  destruct (remaining =? 0) eqn:E; reflect_bools; [done|].
  rewrite chunk_request_eq. pose proof (chunk_fuel_step remaining fuel Hf) as Hs.
  set (n := N.min remaining STREAM_CHUNK_SIZE) in *.
  pose proof (read_section_cut n Payload r Hc) as Hr. unfold cut in Hr.
  assert ((blen (reader_data r) <? n) = false) as Hn by (apply N.ltb_ge; lia).
  rewrite Hn in Hr. destruct Hr as (r' & -> & Hd' & Hc'). cbn [default head tail].
  assert (Hl : remaining - n <= blen (reader_data r')).
  { rewrite Hd'. unfold blen in *. rewrite length_drop. lia. }
  destruct Hs as [Hs|[E0 Hs]]; [by apply IH|]. rewrite E0. destruct fuel as [|fuel]; [lia|done].
Qed.

Lemma envelope_payload_at f p :
  valid_format f -> exists sum, drop (N.to_nat HEADER_LEN) (envelope f p) = p ++ sum.
Proof.
  intros Hv. exists (be_bytes 4 (crc32c (header_of f (blen p) ++ p))). unfold envelope.
  pose proof (length_header f (blen p) Hv) as Hl.
  replace (N.to_nat HEADER_LEN) with (length (header_of f (blen p)))
    by (unfold blen at 1 in Hl; unfold HEADER_LEN; lia).
  apply drop_app_length.
Qed.

Lemma fs_seek_inv position f (w : World) f' w' :
  fs_seek position f w = (Ok f', w') ->
  f_node f' = f_node f /\ exists plan, f_reader f' = node_reader plan position (f_node f).
Proof. unfold fs_seek. destruct (w_faults w) as [|[e|] l]; intros; simplify_eq; eauto. Qed.

Lemma app_prefix_le {A} (a b p q : list A) :
  a ++ b = p ++ q -> (length a <= length p)%nat -> exists rest, p = a ++ rest.
Proof.
  intros E Hl. exists (drop (length a) p). apply (f_equal (take (length a))) in E.
  rewrite take_app_length, take_app_le in E by done. by rewrite E at 1; rewrite take_drop.
Qed.

(** The file at [path] holds the envelope of [p]. *)
Definition holds (c : StoreConfig) (path : Path) (fs : FsMap) (p : bytes) : Prop :=
  exists n, resolve SYMLINK_MAX fs path = Ok n /\ node_data 0 n = envelope (format c) p /\
    blen p <= maximum c.

Lemma validated_holds c path (w : World) f w1 m :
  fits_usize (maximum c) -> fs_open path w = (Ok f, w1) ->
  fst (validate_envelope_reader (format c) (maximum c) (f_reader f)) = Ok m ->
  exists p, resolve SYMLINK_MAX (w_fs w) path = Ok (f_node f) /\
    node_data 0 (f_node f) = envelope (format c) p /\ blen p <= maximum c /\ payload_len m = blen p.
Proof.
  intros Hm Ho Hv. apply fs_open_inv in Ho as (Hr & _ & plan & Hpl). rewrite validate_decode in Hv by done.
  destruct (decode_reader _ _ _) as [[p|] r'] eqn:Ed; cbn in Hv; simplify_eq.
  apply decode_reader_ok in Ed as [Hd Hb]; [|rewrite Hpl; apply node_reader_dense].
  exists p. split_and!; try done. by rewrite <-Hd, Hpl, node_reader_data.
Qed.

(** What is delivered of a file that was validated, whenever it is read again. *)
Lemma delivered_holds c path (w w1 w2 w3 : World) f m f' acc :
  valid_format (format c) -> fits_usize (maximum c) ->
  fs_open path w = (Ok f, w1) ->
  fst (validate_envelope_reader (format c) (maximum c) (f_reader f)) = Ok m ->
  fs_seek HEADER_LEN f w2 = (Ok f', w3) ->
  let (res, sent) := deliver_payload (payload_len m) (f_reader f') acc in
  Forall stream_chunk sent /\
  (exists p rest, holds c path (w_fs w) p /\ p = concat sent ++ rest) /\
  (res = Ok tt -> holds c path (w_fs w) (concat sent) /\ payload_len m = blen (concat sent)).
Proof.
  intros Hf Hm Eo Ev Es.
  destruct (validated_holds _ _ _ _ _ _ Hm Eo Ev) as (p & Hr & Hd & Hb & Hl).
  apply fs_seek_inv in Es as (Hn & plan & Hp).
  pose proof (deliver_loop (chunk_fuel (payload_len m)) (fun '(_, _, _, sent) => (Ok tt, sent))
    (payload_len m) (f_reader f') acc []) as Hdl.
  unfold deliver_payload. destruct (run_loop _ _ _ _) as [res sent].
  destruct Hdl as (new & rest & -> & Hc & Hdata & Hle & Hok); [unfold chunk_fuel; lia|].
  rewrite Hp, node_reader_data in Hdata. cbn [app].
  assert (exists rest', p = concat new ++ rest') as [rest' Hpre].
  { destruct (envelope_payload_at (format c) p Hf) as [sum Hsum].
    assert (node_data HEADER_LEN (f_node f) = p ++ sum) as E.
    { rewrite <-Hsum, <-Hd. destruct (f_node f); try done. }
    rewrite E in Hdata. symmetry in Hdata. eapply app_prefix_le; [done|].
    rewrite Hl in Hle. unfold blen in Hle. lia. }
  assert (Hholds : holds c path (w_fs w) p) by (by exists (f_node f)).
  split_and!; [done|by exists p, rest'|]. intros ->.
  assert (rest' = []) as ->.
  { specialize (Hok eq_refl). rewrite Hl, Hpre, blen_app in Hok. unfold blen in Hok.
    destruct rest'; [done|]. simpl in Hok. lia. }
  rewrite app_nil_r in Hpre. by rewrite <-Hpre.
Qed.

Lemma load_blob_into_sender_inv c path sink (w : World) :
  valid_format (format c) -> fits_usize (maximum c) ->
  let '((r, sent), _) := load_blob_into_sender c path sink w in
  Forall stream_chunk sent /\
  (sent <> [] -> exists p rest, holds c path (w_fs w) p /\ p = concat sent ++ rest) /\
  (forall m, r = Ok (Some m) ->
     holds c path (w_fs w) (concat sent) /\ payload_len m = blen (concat sent)).
Proof.
  intros Hf Hm. unfold load_blob_into_sender.
  destruct (fs_open path w) as [[f|e] w1] eqn:Eo.
  2:{ case_decide; [|done]. by destruct (ensure_namespace_available c w1) as [[[]|] w2]. }
  destruct (fst (validate_envelope_reader _ _ _)) as [m|e] eqn:Ev; [|done].
  destruct (fs_seek HEADER_LEN f w1) as [[f'|e] w2] eqn:Es; [|done].
  pose proof (delivered_holds c path w w1 w1 w2 f m f' (accepts sink) Hf Hm Eo Ev Es) as H.
  destruct (deliver_payload _ _ _) as [res sent]. destruct H as (Hc & Hp & Hok).
  destruct res as [[]|e]; (split_and!; [done|done|]); [|done].
  intros m' E. destruct (acknowledges sink); [injection E as <-; by apply Hok|done].
Qed.

Lemma fs_seek_calm position f (w : World) :
  calm w -> exists plan w', fs_seek position f w =
    (Ok {| f_node := f_node f; f_reader := node_reader plan position (f_node f) |}, w') /\
    forallb plan_event_calm plan = true.
Proof.
  intros Hc. pose proof (calm_reads_head w Hc) as Hr. destruct Hc as [Hf _]. unfold fs_seek.
  destruct (w_faults w) as [|[e|] l]; [|done|]; exists (default [] (head (w_reads w))); by eexists.
Qed.

(** A receiver that takes every chunk and acknowledges. *)
Definition willing (sink : chunk_sink) : Prop := accepts sink = [] /\ acknowledges sink = true.

Definition metadata_of (p : bytes) : BlobMetadata := {| payload_len := blen p |}.

Lemma validate_calm f max plan n :
  fits_usize max -> forallb plan_event_calm plan = true ->
  fst (validate_envelope_reader f max (node_reader plan 0 n)) =
    if decide (n = Directory) then Err (Io ReadEnvelope EISDIR)
    else map_ok metadata_of (decode_spec f max (node_data 0 n)).
Proof.
  intros Hm Hp. rewrite validate_decode by done. case_decide as Hn.
  - subst n. cbn [node_reader]. by rewrite decode_directory.
  - pose proof (decode_reader_calm f max (node_reader plan 0 n)) as Hd.
    rewrite node_reader_data in Hd. rewrite <-Hd by (try done; by apply node_reader_calm).
    by destruct (decode_reader _ _ _).
Qed.

Lemma load_blob_into_sender_calm c path sink (w : World) :
  calm w -> valid_format (format c) -> fits_usize (maximum c) -> willing sink ->
  fst (fst (load_blob_into_sender c path sink w)) =
    map_ok (fmap metadata_of) (load_answer c path (w_fs w)).
Proof.
  intros Hc Hf Hm [Ha Hack]. pose proof (fs_open_calm path w Hc) as Ho.
  unfold load_blob_into_sender, load_answer.
  destruct (resolve SYMLINK_MAX (w_fs w) path) as [n|e] eqn:Er.
  - destruct Ho as (plan & w1 & -> & Hp & Hfs & Hc1). cbn [f_reader].
    rewrite validate_calm by done. case_decide as Hn; [by subst n|].
    destruct (decode_spec (format c) (maximum c) (node_data 0 n)) as [p|e] eqn:Ed; cbn [map_ok];
      [|by destruct n].
    destruct (fs_seek_calm HEADER_LEN {| f_node := n; f_reader := node_reader plan 0 n |} w1 Hc1)
      as (plan' & w2 & -> & Hp'). cbn [f_node f_reader payload_len metadata_of]. unfold deliver_payload.
    rewrite Ha. pose proof (deliver_loop_calm (chunk_fuel (blen p))
      (fun '(_, _, _, sent) => (Ok tt, sent)) (blen p) (node_reader plan' HEADER_LEN n) []) as Hdl.
    apply decode_spec_ok in Ed as [Ed Hb]; [|done].
    destruct (run_loop _ _ _ _) as [res sent]. cbn [fst] in Hdl. rewrite Hdl, Hack;
      [by destruct n|unfold chunk_fuel; lia|by apply node_reader_calm|].
    rewrite node_reader_data. destruct (envelope_payload_at (format c) p Hf) as [sum Hsum].
    assert (node_data HEADER_LEN n = p ++ sum) as -> by (rewrite <-Hsum, <-Ed; by destruct n).
    rewrite blen_app. lia.
  - destruct Ho as (w1 & -> & Hfs & Hc1). case_decide; [|done].
    destruct (ensure_namespace_calm c w1 Hc1) as (w2 & -> & _ & _). rewrite Hfs.
    by destruct (namespace_status c (w_fs w)) as [[]|].
Qed.

Lemma load_blob_into_sender_none c path sink (w : World) sent w' :
  honest w -> load_blob_into_sender c path sink w = ((Ok None, sent), w') ->
  exists e, resolve SYMLINK_MAX (w_fs w) path = Err e /\ kind e = NotFound.
Proof.
  intros Hh. unfold load_blob_into_sender. destruct (fs_open path w) as [[f|e] w1] eqn:Eo.
  - destruct (fst (validate_envelope_reader _ _ _)) as [m|e]; [|done].
    destruct (fs_seek _ f w1) as [[f'|e] w2]; [|done].
    destruct (deliver_payload _ _ _) as [[|e] out]; [|done]. by destruct (acknowledges sink).
  - apply fs_open_err in Eo as (He & _ & _); [|done]. case_decide as Hk; [|done]. intros _.
    exists e. destruct He as [He|He]; [|done].
    unfold honest_error in He. apply andb_prop in He as [He _]. by apply bool_decide_eq_true in He.
Qed.

End Loads.
