(* ===== verification/MaintenanceSpec.v ===== *)
(** * What clearing, inspecting, quarantining and opening guarantee *)
From S2P Require Export LoadSpec.

Local Open Scope N_scope.
Local Open Scope blob_scope.

(** ** Clearing *)

(** The last thing a run did to the disk was to sync [dir]. *)
Definition synced_last (dir : Path) (w : World) : Prop :=
  exists log, w_log w = (SysSync dir, w_fs w) :: log.

Section Clearing.
Context {Tgt : Target}.

Lemma sync_directory_ok dir o1 o2 (w : World) w' :
  sync_directory dir o1 o2 w = (Ok tt, w') -> w_fs w' = w_fs w /\ synced_last dir w'.
Proof.
  unfold sync_directory. intros E. apply bind_inv_ok in E as (f & w1 & E1 & E2).
  unfold io_op, eff_map_err in *.
  destruct (fs_open dir w) as [[f'|e] w1'] eqn:Eo; simplify_eq/=.
  destruct (fs_sync_all dir w1) as [[[]|e] w2] eqn:Es; simplify_eq/=.
  apply fs_open_inv in Eo as (_ & Hf & _). apply syscall_ok in Es as (_ & Hf2 & Hl).
  cbn [snd] in Hf2. split; [congruence|]. by exists (w_log w1).
Qed.

Lemma fs_remove_file_inv p (w : World) r w' :
  honest w -> fs_remove_file p w = (r, w') ->
  match r with
  | Ok _ => w_fs w !! p <> None /\ w_fs w' = delete p (w_fs w)
  | Err e => w_fs w' = w_fs w /\ (kind e = NotFound -> w_fs w !! p = None)
  end.
Proof.
  intros Hh E. destruct r as [[]|e].
  - apply syscall_ok in E as (E & Hf & _). rewrite Hf.
    destruct (w_fs w !! p) as [[]|] eqn:Ep; by simplify_eq/=.
  - split.
    + unfold fs_remove_file, syscall in E. destruct (w_faults w) as [|[]]; simplify_eq/=; try done;
        destruct (w_fs w !! p) as [[]|]; by simplify_eq/=.
    + intros Hk. apply syscall_err in E as [E|E]; [| |done].
      * unfold honest_error in E. apply andb_prop in E as [E _].
        by apply bool_decide_eq_true in E.
      * by destruct (w_fs w !! p) as [[]|] eqn:Ep; simplify_eq/=.
Qed.

Lemma clear_blob_inv c path (w : World) r w' :
  honest w -> clear_blob c path w = (r, w') ->
  match r with
  | Ok _ => w_fs w' = delete path (w_fs w) /\
      (w_fs w !! path = None /\ resolve SYMLINK_MAX (w_fs w) (namespace c) = Ok Directory \/
       w_fs w !! path <> None /\ synced_last (namespace c) w')
  | Err (Io RemoveBlob _) => w_fs w' = w_fs w
  | Err _ => w_fs w' = delete path (w_fs w)
  end.
Proof.
  intros Hh. unfold clear_blob, bind_result.
  destruct (fs_remove_file path w) as [removed w1] eqn:Er. apply fs_remove_file_inv in Er; [|done].
  destruct removed as [[]|e].
  - destruct Er as [Hp Hf]. intros E.
    pose proof (sync_directory_passes (fun fs => fs = w_fs w1) (namespace c) OpenNamespaceDirectory
      SyncNamespaceDirectory w1 eq_refl) as Hs. rewrite E in Hs. apply passes_last in Hs. cbn [snd] in Hs.
    destruct r as [[]|e].
    + apply sync_directory_ok in E as [_ Hl]. rewrite Hs. split; [done|by right].
    + unfold sync_directory, io_op, eff_map_err, bind in E.
      destruct (fs_open _ w1) as [[f|e1] w2]; simplify_eq/=; [|congruence].
      destruct (fs_sync_all _ w2) as [[]]; simplify_eq/=; congruence.
  - destruct Er as [Hf Hk]. case_decide as Hd; [|unfold throw; intros; by simplify_eq/=].
    apply Hk in Hd as Hp. intros E. rewrite <-(delete_id (w_fs w) path Hp) in Hf.
    pose proof (ensure_namespace_passes (fun fs => fs = w_fs w1) c w1 eq_refl) as Hs.
    rewrite E in Hs. apply passes_last in Hs. cbn [snd] in Hs.
    destruct r as [[]|e1].
    + apply ensure_namespace_ok in E. rewrite Hs, Hf. split; [done|]. left.
      split; [done|]. by rewrite Hf, delete_id in E.
    + unfold ensure_namespace_available, bind_result in E.
      destruct (fs_metadata _ w1) as [[n|e2] w2]; [destruct (is_dir n)|]; unfold ret, throw in E;
        simplify_eq/=; congruence.
Qed.

End Clearing.

(** ** Inspecting *)

Section Inspecting.
Context {Tgt : Target}.

Definition inspect_answer (c : StoreConfig) (path : Path) (fs : FsMap)
    : result BlobInspection AtomicBlobStoreError :=
  match fs !! path with
  | Some (Regular content mtime) =>
      Ok {| inspection_state := Present; inspection_size := Some (blen content);
            inspection_modified := mtime |}
  | Some _ => Err UnexpectedFileType
  | None =>
      if decide (kind (absent_error fs path) = NotFound) then
        map_ok (fun _ => {| inspection_state := Absent; inspection_size := None;
                            inspection_modified := None |}) (namespace_status c fs)
      else Err (Io InspectBlob (absent_error fs path))
  end.

Lemma inspect_blob_calm c path (w : World) :
  calm w -> fst (inspect_blob c path w) = inspect_answer c path (w_fs w).
Proof.
  intros Hc. unfold inspect_blob, inspect_answer, bind_result.
  destruct (syscall_calm (SysSymlinkMetadata path)
    (fun fs => (ok_or (fs !! path) (absent_error fs path), fs)) w Hc) as (E1 & E2 & _ & Hc1).
  unfold fs_symlink_metadata. destruct (syscall _ _ w) as [r w1]. cbn [fst snd] in *. subst r.
  destruct (w_fs w !! path) as [[]|]; cbn [ok_or]; try done.
  case_decide; [|done]. destruct (ensure_namespace_calm c w1 Hc1) as (w2 & E & _ & _).
  unfold bind. rewrite E, E2. by destruct (namespace_status c (w_fs w)) as [[]|].
Qed.

Lemma inspect_blob_inv c path (w : World) i w' :
  honest w -> inspect_blob c path w = (Ok i, w') ->
  match inspection_state i with
  | Present => exists content t, w_fs w !! path = Some (Regular content t) /\
      inspection_size i = Some (blen content) /\ inspection_modified i = t
  | Absent => w_fs w !! path = None /\ inspection_size i = None /\ inspection_modified i = None /\
      resolve SYMLINK_MAX (w_fs w) (namespace c) = Ok Directory
  end.
Proof.
  intros Hh. unfold inspect_blob, bind_result. destruct (fs_symlink_metadata path w) as [[n|e] w1] eqn:E.
  - apply syscall_ok in E as [E _]. cbn in E.
    destruct (w_fs w !! path) eqn:Ep; simplify_eq/=. destruct n; unfold ret, throw; intros; simplify_eq/=; eauto.
  - pose proof (symlink_metadata_passes (fun fs => fs = w_fs w) w eq_refl path) as Hs.
    rewrite E in Hs. apply passes_last in Hs. cbn [snd] in Hs.
    case_decide as Hk; [|done]. unfold bind.
    destruct (ensure_namespace_available c w1) as [[[]|] w2] eqn:En; [|done].
    unfold ret. intros; simplify_eq/=. apply ensure_namespace_ok in En. rewrite Hs in En.
    split_and!; try done. apply syscall_err in E as [E|E]; [| |done].
    + unfold honest_error in E. apply andb_prop in E as [E _]. by apply bool_decide_eq_true in E.
    + cbn in E. by destruct (w_fs w !! path).
Qed.

End Inspecting.

(** ** Quarantining *)

Section Quarantining.
Context {Tgt : Target} {Rx : Rustix} {RxL : RustixLaws}.

(** [getrandom::fill] fills its 32-byte buffer. *)
Definition entropy_fills (w : World) : Prop :=
  forall k bs, w_entropy w k = Ok bs -> length bs = 32%nat.

Definition quarantine_path (c : StoreConfig) (h identifier : bytes) : Path :=
  path_join (namespace c) (quarantine_name h (filename_suffix (format c)) identifier).

(** The entry of [path] was moved to the free name of [q]; nothing else differs. *)
Definition quarantined (path destination : Path) (fs fs' : FsMap) : Prop :=
  exists n, fs !! path = Some n /\ fs !! destination = None /\
    fs' = <[destination := n]> (delete path fs).

Definition fresh_quarantine (c : StoreConfig) (h : bytes) (q : QuarantineInfo) : Prop :=
  hex_name (identifier q) /\ diagnostic_path q = quarantine_path c h (identifier q).

(** A result of a quarantine: what it says of the filesystem. *)
Definition quarantine_outcome (c : StoreConfig) (h : bytes) (path : Path) (fs : FsMap)
    (r : result QuarantineInfo AtomicBlobStoreError) (w' : World) : Prop :=
  match r with
  | Ok q => fresh_quarantine c h q /\ quarantined path (diagnostic_path q) fs (w_fs w') /\
      synced_last (namespace c) w'
  | Err (QuarantineNamespaceSync q _) =>
      fresh_quarantine c h q /\ quarantined path (diagnostic_path q) fs (w_fs w')
  | Err _ => w_fs w' = fs
  end.

Definition quarantine_states (c : StoreConfig) (h : bytes) (path : Path) (fs fs' : FsMap) : Prop :=
  fs' = fs \/ exists q, fresh_quarantine c h q /\ quarantined path (diagnostic_path q) fs fs'.

Lemma random_identifier_inv (w : World) r w' :
  entropy_fills w -> random_identifier w = (r, w') ->
  passes (fun fs => fs = w_fs w) w w' /\ w_entropy_used w' = S (w_entropy_used w) /\
  match r with
  | Ok identifier => hex_name identifier /\
      exists bs, w_entropy w (w_entropy_used w) = Ok bs /\ identifier = hex_encode bs
  | Err e => exists code, w_entropy w (w_entropy_used w) = Err code /\ e = IdentifierGeneration code
  end.
Proof.
  intros He. unfold random_identifier, bind, eff_map_err, getrandom_fill.
  pose proof (getrandom_passes (fun fs => fs = w_fs w) w eq_refl) as Hp. cbn [getrandom_fill snd] in Hp.
  destruct (w_entropy w (w_entropy_used w)) as [bs|e] eqn:E; cbn [map_err]; unfold ret;
    intros; simplify_eq; (split; [done|split; [done|]]); [|by eexists].
  split; [|by exists bs]. split; [|apply hex_encode_lower].
  rewrite length_hex_encode. apply He in E. lia.
Qed.

Lemma sync_quarantine_inv c q (w : World) :
  let (r, w') := sync_quarantine_namespace c q w in
  passes (fun fs => fs = w_fs w) w w' /\
  match r with
  | Ok _ => synced_last (namespace c) w'
  | Err e => exists source, e = QuarantineNamespaceSync q source
  end.
Proof.
  pose proof (open_passes (fun fs => fs = w_fs w) w eq_refl (namespace c)) as Ho.
  unfold sync_quarantine_namespace, bind, eff_map_err.
  destruct (fs_open (namespace c) w) as [[f|e] w1]; cbn [map_err snd] in *; [|by eauto].
  pose proof (passes_last _ _ _ Ho) as Hf. cbn beta in Hf.
  pose proof (sync_all_passes (fun fs => fs = w_fs w) w1 Hf (namespace c)) as Hs.
  destruct (fs_sync_all (namespace c) w1) as [[[]|e] w2] eqn:Es; cbn [map_err snd] in *;
    (split; [by eapply passes_trans|]); [|by eauto].
  apply syscall_ok in Es as (_ & _ & Hl). by exists (w_log w1).
Qed.

Lemma quarantine_step_inv c h path (w0 w : World) :
  entropy_fills w -> w_fs w = w_fs w0 ->
  match quarantine_step c path h w with
  | inl w' => passes (fun fs => fs = w_fs w0) w w' /\ w_entropy_used w' = S (w_entropy_used w) /\
      exists bs, w_entropy w (w_entropy_used w) = Ok bs /\
        w_fs w0 !! quarantine_path c h (hex_encode bs) <> None
  | inr (r, w') => passes (quarantine_states c h path (w_fs w0)) w w' /\
      quarantine_outcome c h path (w_fs w0) r w'
  end.
Proof.
  intros He Hw. unfold quarantine_step.
  destruct (random_identifier w) as [r1 w1] eqn:Er.
  apply random_identifier_inv in Er as (Hp1 & Hu1 & Hr1); [|done]. rewrite Hw in Hp1.
  pose proof (passes_last _ _ _ Hp1) as Hf1. cbn beta in Hf1.
  assert (Hsame : forall w', passes (fun fs => fs = w_fs w0) w w' ->
    passes (quarantine_states c h path (w_fs w0)) w w')
    by (intros w'; apply passes_mono; by left).
  destruct r1 as [identifier|e].
  2:{ destruct Hr1 as (code & _ & ->). auto. }
  destruct Hr1 as (Hid & bs & Ebs & ->). fold (quarantine_path c h (hex_encode bs)).
  set (dst := quarantine_path c h (hex_encode bs)).
  pose proof (rename_noreplace_spec path dst w1) as Hn.
  pose proof (rename_noreplace_entropy path dst w1) as Hu2.
  destruct (rename_noreplace path dst w1) as [[[]|code] w2]; cbn [snd] in Hu2.
  - destruct Hn as (n & Hs & Hd & Hf2 & Hp2). rewrite Hf1 in *.
    set (q := {| identifier := hex_encode bs; diagnostic_path := dst |}).
    assert (Hq : fresh_quarantine c h q /\ quarantined path (diagnostic_path q) (w_fs w0) (w_fs w2))
      by (split; [done|by exists n]).
    assert (Hp : passes (quarantine_states c h path (w_fs w0)) w w2).
    { eapply passes_trans; [by apply Hsame|]. eapply passes_mono, Hp2.
      intros fs [->| ->]; [by left|right]. exists q. split; [done|]. by exists n. }
    pose proof (sync_quarantine_inv c q w2) as Hsync. rewrite bind_map_err_ok.
    destruct (sync_quarantine_namespace c q w2) as [[[]|e] w3]; unfold ret; destruct Hsync as [Hp3 Hr3].
    all: pose proof (passes_last _ _ _ Hp3) as Hf3; cbn beta in Hf3.
    all: split; [eapply passes_trans; [done|eapply passes_mono, Hp3; intros fs ->; right; by exists q]|].
    + split; [apply Hq|]. split; [rewrite Hf3; apply Hq|done].
    + destruct Hr3 as [source ->]. split; [apply Hq|]. rewrite Hf3. apply Hq.
  - destruct Hn as [Hp2 Hexist]. rewrite Hf1 in *.
    assert (Hp : passes (fun fs => fs = w_fs w0) w w2) by by eapply passes_trans.
    pose proof (passes_last _ _ _ Hp) as Hf2. cbn beta in Hf2.
    case_decide as Hno; [|case_decide as Hex].
    + pose proof (ensure_namespace_passes (fun fs => fs = w_fs w0) c w2 Hf2) as He2.
      rewrite bind_map_err_ok.
      assert (Hq : passes (fun fs => fs = w_fs w0) w (snd (ensure_namespace_available c w2)))
        by by eapply passes_trans.
      destruct (ensure_namespace_available c w2) as [[[]|e] w3] eqn:En; cbn [snd] in Hq;
        (split; [by apply Hsame|]); unfold throw; pose proof (passes_last _ _ _ Hq) as Hf3; [done|].
      unfold ensure_namespace_available, bind_result in En.
      destruct (fs_metadata _ w2) as [[m|e2] w4]; [destruct (is_dir m)|];
        unfold ret, throw in En; by simplify_eq/=.
    + split; [done|]. split; [congruence|]. exists bs. auto.
    + split; [by apply Hsame|done].
Qed.

Lemma quarantine_loop_run fuel c h path (w0 w : World) :
  entropy_fills w -> w_fs w = w_fs w0 ->
  match loop fuel (quarantine_step c path h) w with
  | inl w' => passes (fun fs => fs = w_fs w0) w w'
  | inr (r, w') => passes (quarantine_states c h path (w_fs w0)) w w' /\
      quarantine_outcome c h path (w_fs w0) r w'
  end.
Proof.
  revert w; induction fuel as [|fuel IH]; intros w He Hw; cbn [loop]; [by apply passes_refl|].
  pose proof (quarantine_step_inv c h path w0 w He Hw) as Hs.
  destruct (quarantine_step c path h w) as [w1|[r w1]]; [|done].
  destruct Hs as (Hp & _ & _). pose proof (passes_last _ _ _ Hp) as Hf1. cbn beta in Hf1.
  assert (He1 : entropy_fills w1) by (intros k bs E; rewrite (passes_entropy _ _ _ Hp) in E; by eapply He).
  specialize (IH w1 He1 Hf1). destruct (loop _ _ w1) as [w2|[r w2]].
  - by eapply passes_trans.
  - destruct IH as [IH1 IH2]. split; [|done]. eapply passes_trans; [|done].
    eapply passes_mono, Hp. by left.
Qed.

(** The entropy source eventually fails or names a free file. *)
Definition name_comes (c : StoreConfig) (h : bytes) (w : World) (k : nat) : Prop :=
  match w_entropy w (w_entropy_used w + k)%nat with
  | Err _ => True
  | Ok bs => w_fs w !! quarantine_path c h (hex_encode bs) = None
  end.

Lemma quarantine_loop_ends k fuel c h path (w0 w : World) :
  entropy_fills w -> w_fs w = w_fs w0 -> name_comes c h w k -> (k < fuel)%nat ->
  exists r, loop fuel (quarantine_step c path h) w = inr r.
Proof.
  revert k w; induction fuel as [|fuel IH]; intros k w He Hw Hk Hlt; [lia|]. cbn [loop].
  pose proof (quarantine_step_inv c h path w0 w He Hw) as Hs.
  destruct (quarantine_step c path h w) as [w1|r]; [|by eexists].
  destruct Hs as (Hp & Hu & bs & Ebs & Hbs). pose proof (passes_last _ _ _ Hp) as Hf1. cbn beta in Hf1.
  destruct k as [|k].
  { unfold name_comes in Hk. rewrite Nat.add_0_r, Ebs, Hw in Hk. done. }
  apply (IH k); [|done| |lia].
  - intros k' bs' E. rewrite (passes_entropy _ _ _ Hp) in E. by eapply He.
  - unfold name_comes in *. rewrite (passes_entropy _ _ _ Hp), Hu, Hf1, <-Hw.
    by replace (S (w_entropy_used w) + k)%nat with (w_entropy_used w + S k)%nat by lia.
Qed.

(** The hash is read back from the canonical path. *)
Lemma blob_stem c h :
  valid_config c -> hex_name h -> file_stem (blob_file c h) ≫= to_str = Some h.
Proof.
  intros [Hv Hp] [Hl Hh].
  destruct (file_stem_hex (namespace c) h (filename_suffix (format c))) as [Hf Hs];
    [by apply plain_dir_nonempty|done|done|apply Hv|]. fold (blob_file c h) in Hf.
  rewrite Hf. cbn [mbind option_bind]. by rewrite Hs.
Qed.

Lemma quarantine_blob_loop fuel c h (w : World) :
  valid_config c -> hex_name h ->
  quarantine_blob fuel c (blob_file c h) w = loop fuel (quarantine_step c (blob_file c h) h) w.
Proof. intros. unfold quarantine_blob. by rewrite blob_stem. Qed.

Lemma quarantine_name_plain c h identifier :
  valid_config c -> hex_name h -> hex_name identifier ->
  plain_name (quarantine_name h (filename_suffix (format c)) identifier).
Proof.
  intros Hc [Hl Hx] [_ Hi]. unfold quarantine_name. apply hex_suffix_plain; [done..|].
  destruct Hc as [(_ & Hs & _) _]. apply valid_suffix_no_slash in Hs.
  rewrite !elem_of_app. intros [H|[H|H]]; [done| |].
  - revert H. by apply (bool_decide_unpack (SLASH ∉ bstr ".quarantine-v1.")); vm_compute.
  - rewrite forallb_forall in Hi. apply list_elem_of_In, Hi in H. done.
Qed.

(** A quarantined file is not a canonical one. *)
Lemma quarantine_path_not_canonical c h identifier h' :
  valid_config c -> hex_name h -> hex_name identifier -> hex_name h' ->
  quarantine_path c h identifier <> blob_file c h'.
Proof.
  intros Hc Hh Hi Hh' E.
  pose proof (quarantine_name_plain c h identifier Hc Hh Hi) as Hpl.
  apply path_join_inj in E; [|done|by apply blob_name_plain].
  apply (f_equal length) in E. unfold quarantine_name in E. rewrite !length_app in E.
  destruct Hh as [Hl _], Hh' as [Hl' _].
  assert (length (bstr ".quarantine-v1.") = 15%nat) by done. lia.
Qed.

End Quarantining.

(** ** Opening *)

Section Opening.
Context {Tgt : Target}.

(** The root as [initialize_platform] uses it. *)
Definition absolute_root (root : Path) (w : World) : result Path io_error :=
  if is_relative root then map_ok (fun cwd => path_join cwd root) (w_cwd w) else Ok root.

(** The namespace directory was created and the root synced, or was there. *)
Definition namespace_made (root ns : Path) (fs : FsMap) (w' : World) : Prop :=
  fs !! ns = None /\ w_fs w' = <[ns := Directory]> fs /\ synced_last root w' \/
  resolve SYMLINK_MAX fs ns = Ok Directory /\ w_fs w' = fs.

Definition opening_states (ns : Path) (fs fs' : FsMap) : Prop :=
  fs' = fs \/ fs !! ns = None /\ fs' = <[ns := Directory]> fs.

Lemma fs_create_dir_inv p (w : World) r w' :
  fs_create_dir p w = (r, w') ->
  match r with
  | Ok _ => w_fs w !! p = None /\ w_fs w' = <[p := Directory]> (w_fs w)
  | Err _ => w_fs w' = w_fs w
  end.
Proof.
  unfold fs_create_dir, syscall. intros E.
  destruct (w_faults w) as [|[]]; simplify_eq/=; try done.
  all: destruct (w_fs w !! p); simplify_eq/=; [done|].
  all: destruct (resolve _ _ _) as [[]|]; by simplify_eq/=.
Qed.

Lemma fs_create_dir_passes (ns : Path) (w : World) (fs0 : FsMap) :
  w_fs w = fs0 -> passes (opening_states ns fs0) w (snd (fs_create_dir ns w)).
Proof.
  intros <-. apply syscall_passes; [by left|]. destruct (w_fs w !! ns) eqn:E; [by left|].
  destruct (resolve _ _ _) as [[]|]; try (by left). by right.
Qed.

(** The root that the run works with. *)
Lemma resolve_root_inv root (w : World) :
  (if is_relative root then
     do? current_directory <- io_op ResolveCurrentDirectory current_dir;
     ret (path_join current_directory root)
   else ret root) w =
  (map_err (Io ResolveCurrentDirectory) (absolute_root root w), w).
Proof.
  unfold absolute_root. destruct (is_relative root); [|done].
  unfold bind, io_op, eff_map_err, current_dir. by destruct (w_cwd w).
Qed.

Lemma initialize_platform_inv root component f max n (w : World) r w' :
  initialize_platform root component f max n w = (r, w') ->
  passes (fun fs => forall root', absolute_root root w = Ok root' ->
    opening_states (path_join root' component) (w_fs w) fs) w w' /\
  forall c, r = Ok c -> exists root', absolute_root root w = Ok root' /\
    c = {| namespace := path_join root' component; format := f; maximum := max;
           config_max_concurrent_operations := n |} /\
    resolve SYMLINK_MAX (w_fs w) root' = Ok Directory /\
    namespace_made root' (namespace c) (w_fs w) w'.
Proof.
  unfold initialize_platform. rewrite bind_map_err_ok, resolve_root_inv.
  destruct (absolute_root root w) as [root'|e]; cbn [map_err];
    [|intros; simplify_eq; split; [by apply passes_refl|done]].
  set (ns := path_join root' component).
  set (P fs := forall root'0, Ok root' = @Ok _ io_error root'0 ->
    opening_states (path_join root'0 component) (w_fs w) fs).
  assert (HP0 : P (w_fs w)) by (intros ? [= <-]; by left).
  assert (HP : forall fs, opening_states ns (w_fs w) fs -> P fs) by (intros fs H ? [= <-]; done).
  unfold bind_result at 1. pose proof (metadata_passes P w HP0 root') as Hm.
  pose proof (metadata_passes (fun fs => fs = w_fs w) w eq_refl root') as Hm'.
  destruct (fs_metadata root' w) as [[node|e] w1] eqn:Em; cbn [snd] in *.
  2:{ case_decide; unfold throw; intros; by simplify_eq. }
  apply syscall_ok in Em as (Em & _ & _). cbn in Em. pose proof (passes_last _ _ _ Hm') as Hf1.
  cbn beta in Hf1. destruct (is_dir node) eqn:Edir; cbn [negb];
    [|unfold throw; intros; by simplify_eq].
  assert (node = Directory) as -> by by destruct node.
  unfold bind_result. pose proof (fs_create_dir_passes ns w1 _ Hf1) as Hc.
  destruct (fs_create_dir ns w1) as [created w2] eqn:Ec. cbn [snd] in Hc.
  assert (H2 : passes P w w2) by (eapply passes_trans; [done|]; eapply passes_mono, Hc; done).
  apply fs_create_dir_inv in Ec. rewrite Hf1 in Ec. pose proof (passes_last _ _ _ H2) as HP2.
  rewrite bind_map_err_ok. destruct created as [[]|error].
  - pose proof (sync_directory_passes P root' OpenRootDirectory SyncRootDirectory w2 HP2) as Hs.
    destruct (sync_directory _ _ _ w2) as [[[]|e] w3] eqn:Es; cbn [snd] in Hs; unfold ret;
      intros; simplify_eq; (split; [by eapply passes_trans|]); [|done].
    intros c [= <-]. exists root'. split_and!; try done. left. destruct Ec as [? Ef].
    apply sync_directory_ok in Es as [Hf3 Hl]. by rewrite Hf3.
  - case_decide; [|unfold throw; intros; by simplify_eq]. rewrite bind_map_err_ok.
    unfold io_op, eff_map_err. pose proof (metadata_passes P w2 HP2 ns) as Hn.
    destruct (fs_metadata ns w2) as [[node|e] w3] eqn:En; cbn [map_err snd] in *;
      [|intros; simplify_eq; split; [by eapply passes_trans|done]].
    apply syscall_ok in En as (En & Ef & _). cbn in En, Ef. rewrite Ec in En, Ef.
    destruct (is_dir node) eqn:Ed; cbn [negb]; unfold throw, ret; intros; simplify_eq;
      (split; [by eapply passes_trans|]); [|done].
    assert (node = Directory) as -> by by destruct node.
    intros c [= <-]. exists root'. split_and!; try done. by right.
Qed.

End Opening.
