(* ===== verification/BackendTheorems.v ===== *)
(** * The theorems on the filesystem backend

    Each one with a witness that runs the backend on a concrete world. *)
From S2P Require Export MaintenanceSpec ReferenceFs.

Local Open Scope N_scope.
Local Open Scope blob_scope.

(** The namespace is a directory and no canonical path is a symbolic link. *)
Definition is_symlink (o : option Node) : bool :=
  match o with Some (Symlink _) => true | _ => false end.

Definition plain_store (c : StoreConfig) (fs : FsMap) : Prop :=
  fs !! namespace c = Some Directory /\
  forall h, hex_name h -> is_symlink (fs !! blob_file c h) = false.

Lemma resolve_entry fs p :
  is_symlink (fs !! p) = false -> resolve SYMLINK_MAX fs p = ok_or (fs !! p) (absent_error fs p).
Proof.
  intros Hs. destruct (fs !! p) as [n|] eqn:E; cbn [ok_or]; [|by apply resolve_absent].
  apply resolve_plain; [done|]. by intros t ->.
Qed.

Lemma blob_file_absent c h fs :
  valid_config c -> hex_name h -> plain_store c fs -> absent_error fs (blob_file c h) = ENOENT.
Proof. intros Hc Hh [Hn _]. apply absent_error_dir. by rewrite blob_file_parent. Qed.

Section Keys.
Context {Crc : Crc32c} {CrcL : Crc32cLaws} {Tgt : Target} {Awf : AtomicWriteFile}
  {AwfL : AtomicWriteFileLaws}.

(** The answer of a load in a plain store depends on the entry of its key. *)
Definition entry_answer (c : StoreConfig) (n : option Node) : result (option bytes) AtomicBlobStoreError :=
  match n with
  | Some Directory => Err (Io ReadEnvelope EISDIR)
  | Some n => map_ok Some (decode_spec (format c) (maximum c) (node_data 0 n))
  | None => Ok None
  end.

Lemma load_answer_entry c h fs :
  valid_config c -> hex_name h -> plain_store c fs ->
  load_answer c (blob_file c h) fs = entry_answer c (fs !! blob_file c h).
Proof.
  intros Hc Hh Hp. unfold load_answer, namespace_status. rewrite resolve_entry by by apply Hp.
  rewrite blob_file_absent by done. destruct Hp as [Hn _].
  destruct (fs !! blob_file c h) as [[]|]; cbn [ok_or]; try done.
  by rewrite (resolve_plain _ _ _ Hn).
Qed.

Lemma published_plain c h p fs fs' :
  valid_config c -> hex_name h -> plain_store c fs -> published c h p fs fs' -> plain_store c fs'.
Proof.
  intros Hc Hh [Hn Hb] [Ha Ho]. split.
  - rewrite Ha; [done|]. intros [E|E].
    + by apply (blob_file_not_namespace c h Hc Hh).
    + by apply (namespace_not_temporary c h Hc Hh).
  - intros h' Hh'. destruct (decide (h' = h)) as [->|Hne].
    + destruct Ho as [->|[t ->]]; [by apply Hb|done].
    + rewrite Ha; [by apply Hb|]. intros [E|E].
      * by apply Hne, (blob_file_inj c).
      * by apply (canonical_not_temporary c h h').
Qed.

Lemma published_other c h p fs fs' h' :
  valid_config c -> hex_name h -> hex_name h' -> h' <> h -> published c h p fs fs' ->
  fs' !! blob_file c h' = fs !! blob_file c h'.
Proof.
  intros Hc Hh Hh' Hne [Ha _]. apply Ha. intros [E|E].
  - by apply Hne, (blob_file_inj c).
  - by apply (canonical_not_temporary c h h').
Qed.

(** C10: a save is crash-safe.  At every system call of a save, and at its end,
    the canonical file is the old one or the complete new envelope, and nothing
    but the temporary names of the writer differs elsewhere; a save that
    answers [Ok] has published the envelope, and one that fails before the
    commit has not touched the file. *)
Theorem save_is_crash_safe c h payload (w : World) :
  valid_config c -> hex_name h ->
  let (r, w') := save_blob c (blob_file c h) payload w in
  passes (published c h payload (w_fs w)) w w' /\
  match r with
  | Ok _ => blen payload <= maximum c /\
      exists t, w_fs w' !! blob_file c h = Some (Regular (envelope (format c) payload) t)
  | Err (AtomicCommit _) => True
  | Err _ => unpublished c h (w_fs w) (w_fs w')
  end.
Proof.
  intros Hc Hh. pose proof (save_blob_run c h payload w Hc Hh) as H.
  destruct (save_blob _ _ _ _) as [[[]|e] w']; destruct H as [Hp Ho]; split; try done.
  destruct Ho as (p & t & [= <-] & Hm & E). eauto.
Qed.

(** A streaming save publishes the announced payload or nothing.  A stream
    without its completion message, or whose chunks do not have the declared
    length, leaves the canonical file alone at every point of the run; otherwise
    the file is the old one or the envelope of the chunks at every point, and
    [Ok] means that it is the latter. *)
Theorem stream_save_is_crash_safe c h declared msgs (w : World) :
  valid_config c -> hex_name h ->
  let '((r, rest), w') := save_blob_from_receiver c (blob_file c h) declared msgs w in
  passes (fun fs => unpublished c h (w_fs w) fs \/
    exists p, stream_payload msgs = Some p /\ blen p = declared /\ published c h p (w_fs w) fs) w w' /\
  match r with
  | Ok _ => exists p t, stream_payload msgs = Some p /\ blen p <= maximum c /\
      w_fs w' !! blob_file c h = Some (Regular (envelope (format c) p) t)
  | Err (AtomicCommit _) => True
  | Err _ => unpublished c h (w_fs w) (w_fs w')
  end.
Proof. intros Hc Hh. by apply save_blob_from_receiver_run. Qed.

(** C22: what was saved is loaded.  After a save that answered [Ok], a load of the
    key gives the payload, and a load of any other key answers as before. *)
Theorem saved_blob_is_loaded c h payload (w w' : World) :
  valid_config c -> hex_name h -> fits_usize (maximum c) -> plain_store c (w_fs w) ->
  calm w -> save_blob c (blob_file c h) payload w = (Ok tt, w') ->
  fst (load_blob c (blob_file c h) w') = Ok (Some payload) /\
  forall h', hex_name h' -> h' <> h ->
    fst (load_blob c (blob_file c h') w') = fst (load_blob c (blob_file c h') w).
Proof.
  intros Hc Hh Hm Hp Hw E. pose proof (save_blob_run c h payload w Hc Hh) as H. rewrite E in H.
  destruct H as [Hr (p & t & [= <-] & Hb & Ef)].
  pose proof (passes_last _ _ _ Hr) as Hpub. cbn beta in Hpub.
  pose proof (published_plain _ _ _ _ _ Hc Hh Hp Hpub) as Hp'.
  pose proof (passes_calm _ _ _ Hr Hw) as Hw'.
  split.
  - rewrite load_blob_calm, load_answer_entry by done. rewrite Ef. cbn [entry_answer node_data].
    rewrite drop_0, decode_spec_envelope; [done|apply Hc|done|].
    pose proof (fits_u64 _ Hm). lia.
  - intros h' Hh' Hne. rewrite !load_blob_calm, !load_answer_entry by done.
    by rewrite (published_other c h payload (w_fs w)).
Qed.

End Keys.

Section LoadsAndMaintenance.
Context {Crc : Crc32c} {CrcL : Crc32cLaws} {Tgt : Target}.

(** C21: loads are exact.  Under any schedule of short reads and failures a load
    that answers a payload answers the one whose envelope the file holds, one
    that answers [None] does so for an absent file in an existing namespace, and
    no load changes the filesystem; without failures the answer is a function
    of the entry. *)
Theorem load_is_exact c h (w : World) :
  valid_config c -> hex_name h -> fits_usize (maximum c) -> honest w -> plain_store c (w_fs w) ->
  let (r, w') := load_blob c (blob_file c h) w in
  passes (fun fs => fs = w_fs w) w w' /\
  (forall p, r = Ok (Some p) -> exists n, w_fs w !! blob_file c h = Some n /\
     node_data 0 n = envelope (format c) p /\ blen p <= maximum c) /\
  (r = Ok None -> w_fs w !! blob_file c h = None) /\
  (calm w -> r = entry_answer c (w_fs w !! blob_file c h)).
Proof.
  intros Hc Hh Hm Hw Hp.
  pose proof (load_blob_passes (fun fs => fs = w_fs w) c (blob_file c h) w eq_refl) as Hpass.
  pose proof (load_blob_inv c (blob_file c h) w) as Hinv.
  pose proof (load_blob_calm c (blob_file c h) w) as Hcalm.
  assert (Hr : resolve SYMLINK_MAX (w_fs w) (blob_file c h) = ok_or (w_fs w !! blob_file c h)
    (absent_error (w_fs w) (blob_file c h))) by by apply resolve_entry, Hp.
  destruct (load_blob c _ w) as [r w']. cbn [fst snd] in *. split_and!; [done| | |].
  - intros p ->. destruct (Hinv _ _ Hw eq_refl) as (n & Hn & Hd & Hb). exists n. split; [|done].
    rewrite Hr in Hn. by destruct (w_fs w !! blob_file c h); simplify_eq/=.
  - intros ->. destruct (Hinv _ _ Hw eq_refl) as [(e & He & _) _]. rewrite Hr in He.
    by destruct (w_fs w !! blob_file c h).
  - intros Hk. by rewrite (Hcalm Hk Hm), load_answer_entry.
Qed.

(** C29: a streaming load hands over validated bytes only.  A single chunk sent
    means that the file, at the moment it was opened, held an envelope that
    begins with the chunks sent, each of at most 64 KiB; the final metadata
    means that the chunks are the whole payload. *)
Theorem stream_load_is_validated c path sink (w : World) :
  valid_format (format c) -> fits_usize (maximum c) ->
  let '((r, sent), w') := load_blob_into_sender c path sink w in
  passes (fun fs => fs = w_fs w) w w' /\ Forall stream_chunk sent /\
  (sent <> [] -> exists p rest, holds c path (w_fs w) p /\ p = concat sent ++ rest) /\
  (forall m, r = Ok (Some m) ->
     holds c path (w_fs w) (concat sent) /\ payload_len m = blen (concat sent)).
Proof.
  intros Hf Hm.
  pose proof (load_blob_into_sender_passes (fun fs => fs = w_fs w) c path sink w eq_refl) as Hp.
  pose proof (load_blob_into_sender_inv c path sink w Hf Hm) as H.
  by destruct (load_blob_into_sender c path sink w) as [[r sent] w'].
Qed.

(** The two loads agree.  With a receiver that takes every chunk and
    acknowledges, and without failures, a streaming load answers what the load
    answers: the length of the same payload, or the same error. *)
Theorem streamed_load_agrees c path sink (w : World) :
  calm w -> valid_format (format c) -> fits_usize (maximum c) -> willing sink ->
  fst (fst (load_blob_into_sender c path sink w)) =
    map_ok (fmap metadata_of) (fst (load_blob c path w)).
Proof. intros. by rewrite load_blob_into_sender_calm, load_blob_calm. Qed.

(** C31: clearing is atomic and durable.  At every point of the run the
    filesystem is the old one or the old one without the file; after [Ok] the
    file is absent and, if it was there, the namespace directory was synced
    after the removal; a failed removal changes nothing. *)
Theorem clear_is_durable c path (w : World) :
  honest w ->
  let (r, w') := clear_blob c path w in
  passes (fun fs => fs = w_fs w \/ fs = delete path (w_fs w)) w w' /\
  match r with
  | Ok _ => w_fs w' !! path = None /\ (w_fs w !! path <> None -> synced_last (namespace c) w')
  | Err (Io RemoveBlob _) => w_fs w' = w_fs w
  | Err _ => w_fs w' !! path = None
  end.
Proof.
  intros Hh. pose proof (clear_blob_passes (fun fs => fs = w_fs w \/ fs = delete path (w_fs w))
    c path w (or_introl eq_refl) (or_intror eq_refl)) as Hp.
  destruct (clear_blob c path w) as [r w'] eqn:E. apply clear_blob_inv in E; [|done].
  split; [done|]. destruct r as [[]|e].
  - destruct E as [-> E]. split; [apply lookup_delete_eq|]. intros Hn. by destruct E as [[? _]|[_ ?]].
  - destruct e; try (rewrite E; apply lookup_delete_eq).
    destruct operation; try (rewrite E; apply lookup_delete_eq); done.
Qed.

(** An inspection reports the directory entry, under failures too. *)
Theorem inspection_is_exact c path (w : World) :
  honest w ->
  let (r, w') := inspect_blob c path w in
  passes (fun fs => fs = w_fs w) w w' /\
  (forall i, r = Ok i ->
     match inspection_state i with
     | Present => exists content t, w_fs w !! path = Some (Regular content t) /\
         inspection_size i = Some (blen content) /\ inspection_modified i = t
     | Absent => w_fs w !! path = None /\ inspection_size i = None /\ inspection_modified i = None
     end) /\
  (calm w -> r = inspect_answer c path (w_fs w)).
Proof.
  intros Hh. pose proof (inspect_blob_passes (fun fs => fs = w_fs w) c path w eq_refl) as Hp.
  pose proof (inspect_blob_calm c path w) as Hc.
  destruct (inspect_blob c path w) as [r w'] eqn:E. split_and!; [done| |by intros; rewrite <-Hc].
  intros i ->. apply inspect_blob_inv in E; [|done]. destruct (inspection_state i); [by destruct E as (? & ? & ? & _)|done].
Qed.

(** C34: opening a store.  Opening with a validated namespace component leaves a
    configuration whose namespace is a directory below the root, for which the
    canonical files of different keys are different; the only change ever made
    is that directory, and it is durable. *)
Theorem opened_store_is_valid root component f max n (w : World) c w' :
  valid_format f -> plain_name component ->
  initialize_platform root component f max n w = (Ok c, w') ->
  valid_config c /\ format c = f /\ maximum c = max /\ config_max_concurrent_operations c = n /\
  resolve SYMLINK_MAX (w_fs w') (namespace c) = Ok Directory /\
  exists root', absolute_root root w = Ok root' /\ namespace c = path_join root' component /\
    resolve SYMLINK_MAX (w_fs w) root' = Ok Directory /\
    passes (opening_states (namespace c) (w_fs w)) w w' /\
    (w_fs w' <> w_fs w -> synced_last root' w').
Proof.
  intros Hf Hn E. apply initialize_platform_inv in E as [Hp Hc].
  destruct (Hc c eq_refl) as (root' & Hr & -> & Hd & Hm). cbn [format maximum namespace] in *.
  split_and!; try done.
  - split; [done|]. by apply plain_dir_join.
  - destruct Hm as [(_ & -> & _)|[Hm ->]]; [|done].
    apply resolve_plain; [apply lookup_insert_eq|done].
  - exists root'. split_and!; try done; [|by destruct Hm as [(_ & _ & ?)|[_ ?]]].
    eapply passes_mono, Hp. auto.
Qed.

End LoadsAndMaintenance.

Section Quarantines.
Context {Tgt : Target} {Rx : Rustix} {RxL : RustixLaws}.

(** C30: quarantining is one atomic move to a fresh name.  However many names
    were taken, at every point the filesystem is the old one or has the file
    moved; [Ok] reports where it went, after a sync of the namespace; a failed
    sync after the move is told apart from a quarantine that did not happen;
    and the entry of no other key changes. *)
Theorem quarantine_is_atomic fuel c h (w : World) :
  valid_config c -> hex_name h -> entropy_fills w ->
  match quarantine_blob fuel c (blob_file c h) w with
  | inl w' => passes (fun fs => fs = w_fs w) w w'
  | inr (r, w') =>
      passes (quarantine_states c h (blob_file c h) (w_fs w)) w w' /\
      quarantine_outcome c h (blob_file c h) (w_fs w) r w' /\
      forall h', hex_name h' -> h' <> h ->
        w_fs w' !! blob_file c h' = w_fs w !! blob_file c h'
  end.
Proof.
  intros Hc Hh He. rewrite quarantine_blob_loop by done.
  pose proof (quarantine_loop_run fuel c h (blob_file c h) w w He eq_refl) as H.
  destruct (loop _ _ w) as [w'|[r w']]; [done|]. destruct H as [Hp Ho]. split_and!; [done..|].
  intros h' Hh' Hne. apply passes_last in Hp.
  destruct Hp as [->|(q & [Hq ->] & n & _ & _ & ->)]; [done|].
  rewrite lookup_insert_ne by by apply quarantine_path_not_canonical.
  apply lookup_delete_ne. intros E. apply Hne. symmetry. by apply (blob_file_inj c).
Qed.

(** Quarantining ends as soon as a name is free.  The source retries without
    a bound; if the [k]-th next name is free, or the entropy source fails then,
    [k + 1] turns are enough. *)
Theorem quarantine_terminates k c h (w : World) :
  valid_config c -> hex_name h -> entropy_fills w -> name_comes c h w k ->
  exists r, quarantine_blob (S k) c (blob_file c h) w = inr r.
Proof.
  intros Hc Hh He Hk. rewrite quarantine_blob_loop by done.
  apply (quarantine_loop_ends k (S k) c h (blob_file c h) w); [done..|lia].
Qed.

End Quarantines.

(** ** Witnesses *)

Definition zero_hex : bytes := hex_encode (repeat Byte.x00 32).
Definition one_hex : bytes := hex_encode (repeat Byte.x01 32).

Definition fixture_world (fs : FsMap) (faults : list (option io_error)) : World :=
  mkWorld fs faults [] (fun k => Ok (repeat (byte_of (N.of_nat k)) 32)) 0 0 (Ok (bstr "/srv")) [] [].

Definition empty_store : FsMap := {[ bstr "/srv" := Directory; bstr "/srv/cache" := Directory ]}.

Definition full_store : FsMap :=
  <[blob_file fixture_config zero_hex := Regular fixture_envelope None]> empty_store.

Lemma fixture_valid_config : valid_config fixture_config.
Proof. split; [decided|]. by exists (bstr "/srv/cach"), Byte.x65. Defined.

Lemma zero_hex_name : hex_name zero_hex.
Proof. decided. Defined.

Lemma lookup_only (fs : FsMap) n p :
  map_Forall (fun q m => is_symlink (Some m) = false) fs -> fs !! p = n -> is_symlink n = false.
Proof. intros H <-. destruct (fs !! p) eqn:E; [by apply (H p)|done]. Defined.

Lemma empty_store_plain : plain_store fixture_config empty_store.
Proof.
  split; [by vm_compute|]. intros h _. eapply lookup_only; [|done].
  decided.
Defined.

Lemma full_store_plain : plain_store fixture_config full_store.
Proof.
  split; [by vm_compute|]. intros h _. eapply lookup_only; [|done].
  decided.
Defined.

Lemma fixture_entropy fs faults : entropy_fills (fixture_world fs faults).
Proof. intros k bs [= <-]. done. Defined.

(** A save whose commit fails leaves the old blob; one that succeeds replaces it. *)
Lemma save_is_crash_safe_witness :
  let run faults := save_blob fixture_config (blob_file fixture_config zero_hex) (bstr "new")
    (fixture_world full_store faults) in
  let (r, w') := run [None; Some EISDIR] in
  r = Err (AtomicCommit EISDIR) /\
  passes (published fixture_config zero_hex (bstr "new") full_store) (fixture_world full_store [None; Some EISDIR]) w' /\
  fst (run []) = Ok tt.
Proof.
  pose proof (save_is_crash_safe fixture_config zero_hex (bstr "new")
    (fixture_world full_store [None; Some EISDIR]) fixture_valid_config zero_hex_name) as H.
  cbv beta zeta. destruct (save_blob _ _ _ (fixture_world full_store [None; Some EISDIR])) as [r w'] eqn:E.
  split; [|split; [apply H|by vm_compute]]. apply (f_equal fst) in E. vm_compute in E. by subst r.
Defined.

(** A stream that ends early publishes nothing. *)
Lemma stream_save_is_crash_safe_witness :
  let '((r, rest), w') := save_blob_from_receiver fixture_config (blob_file fixture_config zero_hex) 3
    [Chunk (bstr "ab"); Complete] (fixture_world full_store []) in
  r = Err (InputEndedEarly 3 2) /\ unpublished fixture_config zero_hex full_store (w_fs w').
Proof.
  pose proof (stream_save_is_crash_safe fixture_config zero_hex 3 [Chunk (bstr "ab"); Complete]
    (fixture_world full_store []) fixture_valid_config zero_hex_name) as H.
  destruct (save_blob_from_receiver _ _ _ _ _) as [[r rest] w'] eqn:E.
  assert (Hr : r = Err (InputEndedEarly 3 2))
    by (apply (f_equal (fun x => fst (fst x))) in E; by vm_compute in E).
  subst r. split; [done|apply H].
Defined.

Lemma saved_blob_is_loaded_witness :
  let w := fixture_world full_store [] in
  let w' := snd (save_blob fixture_config (blob_file fixture_config zero_hex) (bstr "new") w) in
  fst (load_blob fixture_config (blob_file fixture_config zero_hex) w') = Ok (Some (bstr "new")) /\
  fst (load_blob fixture_config (blob_file fixture_config one_hex) w') = Ok None.
Proof.
  cbv zeta. destruct (saved_blob_is_loaded fixture_config zero_hex (bstr "new")
    (fixture_world full_store [])
    (snd (save_blob fixture_config (blob_file fixture_config zero_hex) (bstr "new") (fixture_world full_store []))))
    as [H1 H2]; [apply fixture_valid_config|apply zero_hex_name|by vm_compute|apply full_store_plain
    |done|apply pair_snd; by vm_compute|].
  split; [done|]. rewrite H2; [by vm_compute|decided
    |decided].
Defined.

Lemma load_is_exact_witness :
  fst (load_blob fixture_config (blob_file fixture_config zero_hex) (fixture_world full_store []))
    = Ok (Some (bstr "abc")) /\
  exists n, full_store !! blob_file fixture_config zero_hex = Some n /\
    node_data 0 n = envelope fixture_format (bstr "abc").
Proof.
  pose proof (load_is_exact fixture_config zero_hex (fixture_world full_store []) fixture_valid_config
    zero_hex_name) as H.
  destruct (load_blob _ _ _) as [r w'] eqn:E.
  assert (Hr : r = Ok (Some (bstr "abc"))) by (apply (f_equal fst) in E; by vm_compute in E).
  split; [done|]. destruct H as (_ & H & _); [by vm_compute|done|apply full_store_plain|].
  destruct (H _ Hr) as (n & Hn & Hd & _). exists n. split; [exact Hn|exact Hd].
Defined.

Lemma stream_load_is_validated_witness :
  let '((r, sent), w') := load_blob_into_sender fixture_config (blob_file fixture_config zero_hex)
    {| accepts := []; acknowledges := true |} (fixture_world full_store []) in
  sent = [bstr "abc"] /\ holds fixture_config (blob_file fixture_config zero_hex) full_store (bstr "abc").
Proof.
  pose proof (stream_load_is_validated fixture_config (blob_file fixture_config zero_hex)
    {| accepts := []; acknowledges := true |} (fixture_world full_store [])) as H.
  destruct (load_blob_into_sender _ _ _ _) as [[r sent] w'] eqn:E.
  assert (Hr : (r, sent) = (Ok (Some {| payload_len := 3 |}), [bstr "abc"]))
    by (apply (f_equal fst) in E; by vm_compute in E).
  injection Hr as Hr Hs. split; [exact Hs|].
  destruct H as (_ & _ & _ & H); [by apply fixture_valid_config|by vm_compute|].
  destruct (H _ Hr) as [Hh _]. rewrite Hs in Hh. exact Hh.
Defined.

Lemma streamed_load_agrees_witness :
  fst (fst (load_blob_into_sender fixture_config (blob_file fixture_config zero_hex)
    {| accepts := []; acknowledges := true |} (fixture_world full_store [])))
  = Ok (Some {| payload_len := 3 |}).
Proof.
  rewrite streamed_load_agrees; [by vm_compute|done|by apply fixture_valid_config|by vm_compute|done].
Defined.

Lemma clear_is_durable_witness :
  let (r, w') := clear_blob fixture_config (blob_file fixture_config zero_hex) (fixture_world full_store []) in
  r = Ok tt /\ w_fs w' !! blob_file fixture_config zero_hex = None /\ synced_last (bstr "/srv/cache") w'.
Proof.
  pose proof (clear_is_durable fixture_config (blob_file fixture_config zero_hex)
    (fixture_world full_store [])) as H.
  destruct (clear_blob _ _ _) as [r w'] eqn:E.
  assert (Hr : r = Ok tt) by (apply (f_equal fst) in E; by vm_compute in E). subst r.
  destruct H as (_ & H & Hs); [done|]. split; [done|]. split; [done|]. apply Hs. by vm_compute.
Defined.

Lemma inspection_is_exact_witness :
  fst (inspect_blob fixture_config (blob_file fixture_config zero_hex) (fixture_world full_store []))
  = Ok {| inspection_state := Present; inspection_size := Some 25; inspection_modified := None |}.
Proof.
  pose proof (inspection_is_exact fixture_config (blob_file fixture_config zero_hex)
    (fixture_world full_store [])) as H.
  destruct (inspect_blob _ _ _) as [r w']. destruct H as (_ & _ & H); [done|].
  cbn [fst]. rewrite H by done. by vm_compute.
Defined.

Lemma opened_store_is_valid_witness :
  let w := fixture_world {[ bstr "/srv" := Directory ]} [] in
  let (r, w') := initialize_platform (bstr "/srv") (bstr "cache") fixture_format 1024 4 w in
  r = Ok fixture_config /\ synced_last (bstr "/srv") w'.
Proof.
  cbv zeta. destruct (initialize_platform _ _ _ _ _ _) as [r w'] eqn:E.
  assert (Hr : r = Ok fixture_config) by (apply (f_equal fst) in E; by vm_compute in E). subst r.
  assert (Hd : w_fs w' !! bstr "/srv/cache" = Some Directory)
    by (apply (f_equal (fun x => w_fs (snd x) !! bstr "/srv/cache")) in E; by vm_compute in E).
  assert (Hf : w_fs w' <> {[ bstr "/srv" := Directory ]})
    by (intros Hn; rewrite Hn in Hd; by vm_compute in Hd).
  split; [done|]. apply opened_store_is_valid in E as (_ & _ & _ & _ & _ & root' & Hr & _ & _ & _ & Hs);
    [|by apply fixture_valid_config|decided].
  injection Hr as <-. by apply Hs.
Defined.

(** The first name is taken; the second one is used. *)
Definition taken_store : FsMap :=
  <[quarantine_path fixture_config zero_hex zero_hex := Regular [] None]> full_store.

Definition quarantine_result {A : Type} (x : World + (A * World)) : option A :=
  match x with inr (r, _) => Some r | inl _ => None end.

Lemma quarantine_is_atomic_witness :
  match quarantine_blob 2 fixture_config (blob_file fixture_config zero_hex) (fixture_world taken_store []) with
  | inl _ => False
  | inr (r, w') => r = Ok {| identifier := one_hex;
                             diagnostic_path := quarantine_path fixture_config zero_hex one_hex |} /\
      quarantined (blob_file fixture_config zero_hex) (quarantine_path fixture_config zero_hex one_hex)
        taken_store (w_fs w')
  end.
Proof.
  pose proof (quarantine_is_atomic 2 fixture_config zero_hex (fixture_world taken_store [])
    fixture_valid_config zero_hex_name (fixture_entropy _ _)) as H.
  assert (Hr : quarantine_result (quarantine_blob 2 fixture_config (blob_file fixture_config zero_hex)
    (fixture_world taken_store [])) = Some (Ok {| identifier := one_hex;
      diagnostic_path := quarantine_path fixture_config zero_hex one_hex |})) by by vm_compute.
  destruct (quarantine_blob _ _ _ _) as [w'|[r w']]; [done|]. injection Hr as ->.
  split; [reflexivity|]. destruct H as (_ & Ho & _). apply Ho.
Defined.

Lemma quarantine_terminates_witness :
  exists r, quarantine_blob 2 fixture_config (blob_file fixture_config zero_hex)
    (fixture_world taken_store []) = inr r.
Proof.
  apply (quarantine_terminates 1); [apply fixture_valid_config|apply zero_hex_name
    |apply fixture_entropy|by vm_compute].
Defined.

(** An opening whose sync of the root fails has created the namespace; the next
    one finds it and answers [Ok] without syncing the root. *)
Definition open_fixture : eff World AtomicBlobStoreError StoreConfig :=
  initialize_platform (bstr "/srv") (bstr "cache") fixture_format 1024 4.

Lemma reopened_root_is_not_synced :
  let first := open_fixture (fixture_world {[ bstr "/srv" := Directory ]} [None; None; None; Some EISDIR]) in
  let second := open_fixture (snd first) in
  fst first = Err (Io SyncRootDirectory EISDIR) /\ fst second = Ok fixture_config /\
  map fst (w_log (snd second)) =
    [SysMetadata (bstr "/srv/cache"); SysCreateDir (bstr "/srv/cache"); SysMetadata (bstr "/srv")] ++
    map fst (w_log (snd first)).
Proof. by vm_compute. Qed.
