(* ===== verification/Fixtures.v ===== *)
(** * The immutable fixtures

    The inputs of [src/tests/fixtures/v1], on which the repository's own tests pin
    the format ([src/tests/format_compatibility.rs]), run through the model with the
    CRC-32C of [Reference].  The valid one is what the encoder writes and what a
    streaming load delivers; each of the others is an error of its own, and nothing
    of it is delivered. *)
From S2P Require Export BackendTheorems.

Local Open Scope N_scope.
Local Open Scope blob_scope.

(** The value of a lowercase digit. *)
Definition hex_value (b : Byte.byte) : N :=
  let v := byte_val b in if v <? 97 then v - 48 else v - 87.

(** [decode_hex] of the tests. *)
Fixpoint decode_hex (source : bytes) : bytes :=
  match source with
  | high :: low :: rest => byte_of (16 * hex_value high + hex_value low) :: decode_hex rest
  | _ => []
  end.

Definition valid : bytes := decode_hex (bstr "424c4f425445535400010000000000000003616263b7ba8c0f").
Definition truncated : bytes := decode_hex (bstr "424c4f425445535400010000000000000003616263b7ba8c").
Definition oversized : bytes := decode_hex (bstr "424c4f425445535400010000000000000401").
Definition checksum_invalid : bytes := decode_hex (bstr "424c4f425445535400010000000000000003616263b7ba8c0e").
Definition trailing_data : bytes := decode_hex (bstr "424c4f425445535400010000000000000003616263b7ba8c0f00").
Definition wrong_domain : bytes := decode_hex (bstr "434c4f425445535400010000000000000003616263b7ba8c0f").
Definition unsupported_version : bytes := decode_hex (bstr "424c4f425445535400020000000000000003616263b7ba8c0f").

(** [load_fixture] of the tests: a streaming load of the file, up to 1024 bytes,
    with what it delivers. *)
Definition load_fixture (file : bytes) : result (option BlobMetadata) AtomicBlobStoreError * list bytes :=
  let path := blob_file fixture_config zero_hex in
  fst (load_blob_into_sender fixture_config path {| Filesystem.accepts := []; acknowledges := true |}
    (fixture_world (<[path := Regular file None]> empty_store) [])).

(** The same file through a load. *)
Definition decode_fixture (file : bytes) : result bytes AtomicBlobStoreError :=
  fst (decode_reader fixture_format 1024 [RData file]).

Example valid_is_written : encode_envelope fixture_format (bstr "abc") 1024 = Ok valid.
Proof. by vm_compute. Qed.

Example valid_is_loaded :
  load_fixture valid = (Ok (Some {| payload_len := 3 |}), [bstr "abc"]) /\ decode_fixture valid = Ok (bstr "abc").
Proof. split; by vm_compute. Qed.

(** Both codecs find the same error. *)
Definition rejected (file : bytes) (e : AtomicBlobStoreError) : Prop :=
  load_fixture file = (Err e, []) /\ decode_fixture file = Err e.

Example truncated_is_rejected : rejected truncated (TruncatedEnvelope Checksum).
Proof. split; by vm_compute. Qed.

Example oversized_is_rejected : rejected oversized (BlobTooLarge 1025 1024).
Proof. split; by vm_compute. Qed.

Example checksum_invalid_is_rejected : rejected checksum_invalid (ChecksumMismatch 3082456078 3082456079).
Proof. split; by vm_compute. Qed.

Example trailing_data_is_rejected : rejected trailing_data TrailingData.
Proof. split; by vm_compute. Qed.

Example wrong_domain_is_rejected :
  rejected wrong_domain (InvalidEnvelopeDomain (bstr "BLOBTEST") (bstr "CLOBTEST")).
Proof. split; by vm_compute. Qed.

Example unsupported_version_is_rejected : rejected unsupported_version (UnsupportedEnvelopeVersion 2).
Proof. split; by vm_compute. Qed.
