(* ===== verification/Operation.v ===== *)
(** * Operations of one key ([src/src/engine/operation.rs])

    The operations a caller submits, running one of them on its canonical path,
    and handing its result, or an error, to the caller's channel.  A channel is
    named by a number; what is sent is a [Reply]. *)
From S2P Require Export Backend.

Local Open Scope N_scope.
Local Open Scope blob_scope.

(** The name of a bounded channel of capacity one that a caller waits on. *)
Abbreviation Channel := N (only parsing).

(** The ends of the streaming channels that an operation owns are what it will
    meet there: which sends are accepted and whether the acknowledgement comes
    ([LoadStream]), the messages to receive ([SaveStream]). *)
Inductive Operation :=
| Load (sender : Channel)
| LoadStream (chunks : option (list bool)) (acknowledgement : option bool) (sender : Channel)
| Save (payload : bytes) (sender : Channel)
| SaveStream (declared_len : N) (chunks : list SaveStreamMessage) (sender : Channel)
| Clear (sender : Channel)
| Inspect (sender : Channel)
| Quarantine (sender : Channel).

Inductive BlockingResult :=
| RLoad (r : result (option bytes) AtomicBlobStoreError)
| RLoadStream (r : result (option BlobMetadata) AtomicBlobStoreError)
| RSave (r : result unit AtomicBlobStoreError)
| RSaveStream (r : result unit AtomicBlobStoreError)
| RClear (r : result unit AtomicBlobStoreError)
| RInspect (r : result BlobInspection AtomicBlobStoreError)
| RQuarantine (r : result QuarantineInfo AtomicBlobStoreError).

(** What travels on a caller's channel; the source has one channel type each. *)
Inductive Reply :=
| ReplyLoad (r : result (option bytes) AtomicBlobStoreError)
| ReplyMetadata (r : result (option BlobMetadata) AtomicBlobStoreError)
| ReplyUnit (r : result unit AtomicBlobStoreError)
| ReplyInspection (r : result BlobInspection AtomicBlobStoreError)
| ReplyQuarantine (r : result QuarantineInfo AtomicBlobStoreError)
| ReplyCleanup (r : result CleanupReport AtomicBlobStoreError).

Definition op_sender (o : Operation) : Channel :=
  match o with
  | Load s | LoadStream _ _ s | Save _ s | SaveStream _ _ s | Clear s | Inspect s | Quarantine s => s
  end.

(** ** Running *)

Section Running.
Context {Crc : Crc32c} {Tgt : Target} {Bk : Backend}.

(** A run that returned: the operation with its consumed ends, the result (or
    [None] after a panic) and the chunks a streaming load sent. *)
Record Finished := {
  fin_outcome : option (Operation * BlockingResult);
  fin_sent : list bytes;
}.

Definition finished (o : Operation) (r : BlockingResult) : Finished :=
  {| fin_outcome := Some (o, r); fin_sent := [] |}.

(** [inl] is a run that still tries names after [fuel] turns. *)
Definition run_owned_operation (fuel : nat) (config : StoreConfig) (path : Path)
    (operation : Operation) (w : World) : World + (Finished * World) :=
  match operation with
  | Load sender =>
      let (r, w') := load_blob config path w in inr (finished (Load sender) (RLoad r), w')
  | LoadStream chunks acknowledgement sender =>
      match chunks, acknowledgement with
      | Some acc, Some ack =>
          let '((r, sent), w') :=
            load_blob_into_sender config path {| accepts := acc; acknowledges := ack |} w in
          inr ({| fin_outcome := Some (LoadStream None None sender, RLoadStream r);
                  fin_sent := sent |}, w')
      | _, _ => inr ({| fin_outcome := None; fin_sent := [] |}, w)
      end
  | Save payload sender =>
      match backend_save fuel config path payload w with
      | inl w' => inl w'
      | inr (r, w') => inr (finished (Save payload sender) (RSave r), w')
      end
  | SaveStream declared_len chunks sender =>
      match backend_save_from_receiver fuel config path declared_len chunks w with
      | inl (_, w') => inl w'
      | inr ((r, chunks'), w') => inr (finished (SaveStream declared_len chunks' sender) (RSaveStream r), w')
      end
  | Clear sender =>
      match backend_clear fuel config path w with
      | inl w' => inl w'
      | inr (r, w') => inr (finished (Clear sender) (RClear r), w')
      end
  | Inspect sender =>
      let (r, w') := inspect_blob config path w in inr (finished (Inspect sender) (RInspect r), w')
  | Quarantine sender =>
      match backend_quarantine fuel config path w with
      | inl w' => inl w'
      | inr (r, w') => inr (finished (Quarantine sender) (RQuarantine r), w')
      end
  end.

End Running.

(** ** Answering *)

(** [None] is the [unreachable!] of the source. *)
Definition deliver (operation : Operation) (r : BlockingResult) : option (Channel * Reply) :=
  match operation, r with
  | Load sender, RLoad r => Some (sender, ReplyLoad r)
  | LoadStream _ _ sender, RLoadStream r => Some (sender, ReplyMetadata r)
  | Save _ sender, RSave r => Some (sender, ReplyUnit r)
  | SaveStream _ _ sender, RSaveStream r => Some (sender, ReplyUnit r)
  | Clear sender, RClear r => Some (sender, ReplyUnit r)
  | Inspect sender, RInspect r => Some (sender, ReplyInspection r)
  | Quarantine sender, RQuarantine r => Some (sender, ReplyQuarantine r)
  | _, _ => None
  end.

Definition deliver_error (operation : Operation) (error : AtomicBlobStoreError) : Channel * Reply :=
  match operation with
  | Load sender => (sender, ReplyLoad (Err error))
  | LoadStream _ _ sender => (sender, ReplyMetadata (Err error))
  | Save _ sender | SaveStream _ _ sender | Clear sender => (sender, ReplyUnit (Err error))
  | Inspect sender => (sender, ReplyInspection (Err error))
  | Quarantine sender => (sender, ReplyQuarantine (Err error))
  end.

(** ** Lemmas *)

(** The operation and the result that a run returns belong together. *)
Definition matching (o : Operation) (r : BlockingResult) : bool :=
  match deliver o r with Some _ => true | None => false end.

Lemma deliver_sender o r ch reply : deliver o r = Some (ch, reply) -> ch = op_sender o.
Proof. destruct o, r; intros; by simplify_eq/=. Qed.

Lemma deliver_error_sender o e : fst (deliver_error o e) = op_sender o.
Proof. by destruct o. Qed.

(** An operation that owns its streaming ends. *)
Definition owns_ends (o : Operation) : bool :=
  match o with
  | LoadStream (Some _) (Some _) _ => true
  | LoadStream _ _ _ => false
  | _ => true
  end.

Section RunningLemmas.
Context {Crc : Crc32c} {Tgt : Target} {Bk : Backend}.

Lemma run_owned_operation_matching fuel c path o w fin w' :
  run_owned_operation fuel c path o w = inr (fin, w') ->
  (owns_ends o = true -> fin_outcome fin <> None) /\
  forall o' r, fin_outcome fin = Some (o', r) -> matching o' r = true /\ op_sender o' = op_sender o.
Proof.
  unfold run_owned_operation, finished.
  destruct o as [s|[acc|] [ack|] s|p s|n ms s|s|s|s]; intros E.
  all: repeat match goal with
  | E : context [let '(_, _) := ?x in _] |- _ => destruct x eqn:?
  | E : context [match ?x with inl _ => _ | inr _ => _ end] |- _ => destruct x eqn:?
  end; simplify_eq/=; split; intros; by simplify_eq/=.
Qed.

End RunningLemmas.
