(* ===== verification/BackendSteps.v ===== *)
(** * The operations as sequences of system calls

    The programs of the operations of both backends ([src/src/filesystem/mod.rs],
    [src/src/format.rs]), call by call, and of [run_owned_operation].  Every
    program [does], alone, what the function of the same source does. *)
From S2P Require Export Operation Steps.

Local Open Scope N_scope.
Local Open Scope blob_scope.

(** What a loop over worlds returns: [pack] puts the state of a turn and the
    world together. *)
Definition ends {S R T} (pack : S -> World -> T) (x : (S + R) * World) : T + (R * World) :=
  let (x, w) := x in match x with inl s => inl (pack s w) | inr r => inr (r, w) end.

(** The state of a loop is the world only. *)
Definition only_world (_ : unit) (w : World) : World := w.

Lemma loop_ends {S R T} (pack : S -> World -> T) (turn : S -> prog (S + R)) f fuel s w :
  (forall s w, ends pack (exec (turn s) w) = f (pack s w)) ->
  ends pack (exec (prog_loop fuel turn s) w) = loop fuel f (pack s w).
Proof.
  intros Ht. revert s w; induction fuel as [|fuel IH]; intros s w; [done|].
  cbn [prog_loop loop]. rewrite exec_bind, <-Ht. destruct (exec (turn s) w) as [[s'|r] w']; [apply IH|done].
Qed.

(** Unfolds what a program does, call by call. *)
Ltac run_steps :=
  repeat first
    [ progress cbn [exec ends]
    | rewrite exec_call
    | rewrite exec_bind
    | rewrite exec_try ].

(** ** What both systems share *)

Section Shared.
Context {Crc : Crc32c} {Tgt : Target}.

Definition load_blob_steps (config : StoreConfig) (path : Path)
    : prog (result (option bytes) AtomicBlobStoreError) :=
  step! opened <- do_call (fs_open path);
  match opened with
  | Ok file =>
      Done (map_ok Some (fst (decode_reader (format config) (maximum config) (f_reader file))))
  | Err error =>
      if decide (kind error = NotFound) then
        step? _ <- do_call (ensure_namespace_available config);
        Done (Ok None)
      else Done (Err (Io OpenBlob error))
  end.

Definition load_blob_into_sender_steps (config : StoreConfig) (path : Path) (sink : chunk_sink)
    : prog (result (option BlobMetadata) AtomicBlobStoreError * list bytes) :=
  step! opened <- do_call (fs_open path);
  match opened with
  | Err error =>
      if decide (kind error = NotFound) then
        step! available <- do_call (ensure_namespace_available config);
        Done (map_ok (fun _ => None) available, [])
      else Done (Err (Io OpenBlob error), [])
  | Ok file =>
      match fst (validate_envelope_reader (format config) (maximum config) (f_reader file)) with
      | Err e => Done (Err e, [])
      | Ok metadata =>
          step! sought <- do_call (fs_seek HEADER_LEN file);
          match sought with
          | Err source => Done (Err (Io ReadEnvelope source), [])
          | Ok file =>
              let (delivered, sent) :=
                deliver_payload (payload_len metadata) (f_reader file) (accepts sink) in
              match delivered with
              | Err e => Done (Err e, sent)
              | Ok _ => Done (if acknowledges sink then Ok (Some metadata) else Err StreamCancelled, sent)
              end
          end
      end
  end.

Definition inspect_blob_steps (config : StoreConfig) (path : Path)
    : prog (result BlobInspection AtomicBlobStoreError) :=
  step! metadata <- do_call (fs_symlink_metadata path);
  match metadata with
  | Ok (Regular content mtime) =>
      Done (Ok {| inspection_state := Present; inspection_size := Some (blen content);
                  inspection_modified := mtime |})
  | Ok _ => Done (Err UnexpectedFileType)
  | Err error =>
      if decide (kind error = NotFound) then
        step? _ <- do_call (ensure_namespace_available config);
        Done (Ok {| inspection_state := Absent; inspection_size := None; inspection_modified := None |})
      else Done (Err (Io InspectBlob error))
  end.

Lemma load_blob_steps_do config path : does (load_blob_steps config path) (load_blob config path).
Proof.
  intros w. unfold load_blob_steps, load_blob, bind_result, bind, throw, ret, lift. run_steps.
  destruct (fs_open path w) as [[file|e] w1]; [done|]. case_decide; [|done]. run_steps.
  by destruct (ensure_namespace_available config w1) as [[]].
Qed.

Lemma load_blob_into_sender_steps_do config path sink :
  does (load_blob_into_sender_steps config path sink) (load_blob_into_sender config path sink).
Proof.
  intros w. unfold load_blob_into_sender_steps, load_blob_into_sender. run_steps.
  destruct (fs_open path w) as [[file|e] w1].
  - destruct (fst (validate_envelope_reader _ _ _)); [|done]. run_steps.
    destruct (fs_seek _ _ _) as [[f|e] w2]; [|done].
    by destruct (deliver_payload _ _ _) as [[]].
  - case_decide; [|done]. run_steps. by destruct (ensure_namespace_available config w1).
Qed.

Lemma inspect_blob_steps_do config path : does (inspect_blob_steps config path) (inspect_blob config path).
Proof.
  intros w. unfold inspect_blob_steps, inspect_blob, bind_result, bind, throw, ret. run_steps.
  destruct (fs_symlink_metadata path w) as [[[]|e] w1]; try done. case_decide; [|done]. run_steps.
  by destruct (ensure_namespace_available config w1) as [[]].
Qed.

End Shared.

(** ** Unix *)

Section Unix.
Context {Crc : Crc32c} {Tgt : Target} {Awf : AtomicWriteFile} {Rx : Rustix}.

Definition sync_directory_steps (path : Path) (open_operation sync_operation : StoreOperation)
    : prog (result unit AtomicBlobStoreError) :=
  step? _ <- do_call (io_op open_operation (fs_open path));
  do_call (io_op sync_operation (fs_sync_all path)).

Definition save_blob_steps (config : StoreConfig) (path : Path) (payload : bytes)
    : prog (result unit AtomicBlobStoreError) :=
  match envelope_parts (format config) payload (maximum config) with
  | Err e => Done (Err e)
  | Ok (header, checksum) =>
      step? file <- do_call (io_op OpenAtomicWriter (awf_open atomic_options path));
      match write_sections [header; payload; checksum] file with
      | (Err e, file') => do_call (fun w => (Err e, awf_drop path file' w))
      | (Ok _, file') => do_call (eff_map_err AtomicCommit (awf_commit path file'))
      end
  end.

Definition save_blob_from_receiver_steps (config : StoreConfig) (path : Path) (declared_len : N)
    (chunks : list SaveStreamMessage)
    : prog (result unit AtomicBlobStoreError * list SaveStreamMessage) :=
  match envelope_header (format config) declared_len (maximum config) with
  | Err e => Done (Err e, chunks)
  | Ok _ =>
      step! opened <- do_call (io_op OpenAtomicWriter (awf_open atomic_options path));
      match opened with
      | Err e => Done (Err e, chunks)
      | Ok file =>
          match write_stream_envelope config declared_len (file, chunks) with
          | (Err e, (file', chunks')) => do_call (fun w => ((Err e, chunks'), awf_drop path file' w))
          | (Ok _, (file', chunks')) =>
              step! r <- do_call (eff_map_err AtomicCommit (awf_commit path file'));
              Done (r, chunks')
          end
      end
  end.

Definition clear_blob_steps (config : StoreConfig) (path : Path)
    : prog (result unit AtomicBlobStoreError) :=
  step! removed <- do_call (fs_remove_file path);
  match removed with
  | Ok _ => sync_directory_steps (namespace config) OpenNamespaceDirectory SyncNamespaceDirectory
  | Err error =>
      if decide (kind error = NotFound) then do_call (ensure_namespace_available config)
      else Done (Err (Io RemoveBlob error))
  end.

Definition sync_quarantine_steps (config : StoreConfig) (quarantine : QuarantineInfo)
    : prog (result unit AtomicBlobStoreError) :=
  step? _ <- do_call (eff_map_err (QuarantineNamespaceSync quarantine) (fs_open (namespace config)));
  do_call (eff_map_err (QuarantineNamespaceSync quarantine) (fs_sync_all (namespace config))).

Definition quarantine_turn_steps (config : StoreConfig) (path : Path) (hash : bytes)
    : prog (unit + result QuarantineInfo AtomicBlobStoreError) :=
  step! drawn <- do_call random_identifier;
  match drawn with
  | Err e => Done (inr (Err e))
  | Ok identifier =>
      let destination := path_join (namespace config)
        (quarantine_name hash (filename_suffix (format config)) identifier) in
      step! renamed <- do_call (rename_noreplace path destination);
      match renamed with
      | Ok _ =>
          let quarantine := {| identifier := identifier; diagnostic_path := destination |} in
          prog_map inr (step? _ <- sync_quarantine_steps config quarantine; Done (Ok quarantine))
      | Err code =>
          if decide (code = Errno_NOENT) then
            prog_map inr (step? _ <- do_call (ensure_namespace_available config);
                          Done (Err QuarantineSourceMissing))
          else if decide (code = Errno_EXIST) then Done (inl tt)
          else Done (inr (Err (QuarantineCommit (from_raw_os_error code))))
      end
  end.

Definition quarantine_blob_steps (fuel : nat) (config : StoreConfig) (path : Path)
    : prog (unit + result QuarantineInfo AtomicBlobStoreError) :=
  match file_stem path ≫= to_str with
  | None => Done (inr (Err UnexpectedFileType))
  | Some hash => prog_loop fuel (fun _ => quarantine_turn_steps config path hash) tt
  end.

Lemma save_blob_steps_do config path payload :
  does (save_blob_steps config path payload) (save_blob config path payload).
Proof.
  intros w. unfold save_blob_steps, save_blob, bind, lift.
  destruct (envelope_parts _ _ _) as [[header checksum]|e]; [|done]. run_steps.
  destruct (io_op _ _ w) as [[f|e] w1]; [|done].
  destruct (write_sections _ f) as [[]]; by run_steps.
Qed.

Lemma save_blob_from_receiver_steps_do config path n chunks :
  does (save_blob_from_receiver_steps config path n chunks) (save_blob_from_receiver config path n chunks).
Proof.
  intros w. unfold save_blob_from_receiver_steps, save_blob_from_receiver.
  destruct (envelope_header _ _ _) as [header|e]; [|done]. run_steps.
  destruct (io_op _ _ w) as [[f|e] w1]; [|done].
  destruct (write_stream_envelope _ _ _) as [[] [f' rest]]; run_steps; [|done].
  by destruct (eff_map_err _ _ w1).
Qed.

Lemma clear_blob_steps_do config path : does (clear_blob_steps config path) (clear_blob config path).
Proof.
  intros w. unfold clear_blob_steps, clear_blob, bind_result, throw. run_steps.
  destruct (fs_remove_file path w) as [[[]|e] w1].
  - unfold sync_directory_steps, sync_directory, bind. run_steps.
    destruct (io_op _ _ w1) as [[]]; by run_steps.
  - case_decide; by run_steps.
Qed.

Lemma quarantine_turn_steps_end config path hash w :
  ends only_world (exec (quarantine_turn_steps config path hash) w) = quarantine_step config path hash w.
Proof.
  unfold quarantine_turn_steps, quarantine_step. run_steps.
  destruct (random_identifier w) as [[i|e] w1]; [|done]. run_steps.
  destruct (rename_noreplace _ _ w1) as [[[]|code] w2].
  - unfold prog_map, sync_quarantine_steps, bind, sync_quarantine_namespace, bind, ret. run_steps.
    destruct (eff_map_err _ (fs_open _) w2) as [[] w3]; run_steps; [|done].
    by destruct (eff_map_err _ _ w3) as [[[]|]].
  - case_decide; [|by case_decide]. unfold prog_map, bind, throw. run_steps.
    by destruct (ensure_namespace_available config w2) as [[[]|]].
Qed.

Lemma quarantine_blob_steps_end fuel config path w :
  ends only_world (exec (quarantine_blob_steps fuel config path) w) = quarantine_blob fuel config path w.
Proof.
  unfold quarantine_blob_steps, quarantine_blob. destruct (file_stem path ≫= to_str); [|done].
  apply (loop_ends only_world _ _ fuel tt). intros s' w'. apply quarantine_turn_steps_end.
Qed.

End Unix.

(** ** Windows *)

Section Windows.
Context {Crc : Crc32c} {Tgt : Target} {Api : WindowsApi} {Abs : AbsolutePath} {Lst : DirectoryListing}.

Definition sync_windows_directory_steps (config : StoreConfig) : prog (result unit io_error) :=
  step? handle <- do_call (CreateFileW (wide_path (namespace config)) GENERIC_WRITE
    (N.lor (N.lor FILE_SHARE_READ FILE_SHARE_WRITE) FILE_SHARE_DELETE) OPEN_EXISTING
    FILE_FLAG_BACKUP_SEMANTICS);
  do_call (FlushFileBuffers handle).

Definition create_windows_staging_steps (path : Path) (header payload checksum : bytes)
    : prog (result unit AtomicBlobStoreError) :=
  step? handle <- do_call (io_op OpenAtomicWriter
    (CreateFileW (wide_path path) GENERIC_WRITE 0 CREATE_NEW staging_flags));
  match write_sections [header; payload; checksum] (File_from_raw_handle handle) with
  | (Err e, file) => do_call (fun w => (Err e, file_written handle file w))
  | (Ok _, file) =>
      step! _ <- do_call (fun w => (tt, file_written handle file w));
      do_call (io_op WriteEnvelope (FlushFileBuffers handle))
  end.

Definition create_windows_streaming_staging_steps (config : StoreConfig) (path : Path)
    (declared_len : N) (chunks : list SaveStreamMessage)
    : prog (result unit AtomicBlobStoreError * list SaveStreamMessage) :=
  step! opened <- do_call (io_op OpenAtomicWriter
    (CreateFileW (wide_path path) GENERIC_WRITE 0 CREATE_NEW staging_flags));
  match opened with
  | Err e => Done (Err e, chunks)
  | Ok handle =>
      match write_stream_envelope config declared_len (File_from_raw_handle handle, chunks) with
      | (Err e, (file, chunks)) => do_call (fun w => ((Err e, chunks), file_written handle file w))
      | (Ok _, (file, chunks)) =>
          step! _ <- do_call (fun w => (tt, file_written handle file w));
          step! r <- do_call (io_op WriteEnvelope (FlushFileBuffers handle));
          Done (r, chunks)
      end
  end.

Definition refresh_windows_clear_age_steps (path : Path) : prog (result unit io_error) :=
  step? ticks <- do_call (fun w => (file_time_ticks (w_now w), w));
  let (low, high) := file_time ticks in
  step? handle <- do_call (CreateFileW (wide_path path) (N.lor GENERIC_WRITE FILE_WRITE_ATTRIBUTES) 0
    OPEN_EXISTING staging_flags);
  step? _ <- do_call (SetFileTime handle low high);
  do_call (FlushFileBuffers handle).

Definition commit_staging_steps (config : StoreConfig) (staging path : Path)
    : prog (result unit AtomicBlobStoreError) :=
  step! initial <- do_call (move_file staging path MOVEFILE_WRITE_THROUGH);
  step? _ <-
    match initial with
    | Ok _ => Done (Ok tt)
    | Err error =>
        if target_exists error
        then do_call (eff_map_err AtomicCommit
               (move_file staging path (N.lor MOVEFILE_REPLACE_EXISTING MOVEFILE_WRITE_THROUGH)))
        else Done (Err (AtomicCommit error))
    end;
  prog_map (map_err (Io SyncNamespaceDirectory)) (sync_windows_directory_steps config).

Definition windows_save_turn_steps (config : StoreConfig) (path : Path) (hash header payload checksum : bytes)
    : prog (unit + result unit AtomicBlobStoreError) :=
  step! drawn <- do_call random_identifier;
  match drawn with
  | Err e => Done (inr (Err e))
  | Ok identifier =>
      let staging := win_join (namespace config)
        (staging_name hash (filename_suffix (format config)) SAVE_MARKER identifier) in
      step! created <- create_windows_staging_steps staging header payload checksum;
      match created with
      | Err error => Done (if name_taken error then inl tt else inr (Err error))
      | Ok _ => prog_map inr (commit_staging_steps config staging path)
      end
  end.

Definition windows_save_blob_steps (fuel : nat) (config : StoreConfig) (path : Path) (payload : bytes)
    : prog (unit + result unit AtomicBlobStoreError) :=
  match envelope_parts (format config) payload (maximum config) with
  | Err e => Done (inr (Err e))
  | Ok (header, checksum) =>
      match win_file_stem path ≫= to_str with
      | None => Done (inr (Err UnexpectedFileType))
      | Some hash =>
          prog_loop fuel (fun _ => windows_save_turn_steps config path hash header payload checksum) tt
      end
  end.

Definition windows_save_stream_turn_steps (config : StoreConfig) (path : Path) (hash : bytes)
    (declared_len : N) (chunks : list SaveStreamMessage)
    : prog (list SaveStreamMessage + (result unit AtomicBlobStoreError * list SaveStreamMessage)) :=
  step! drawn <- do_call random_identifier;
  match drawn with
  | Err e => Done (inr (Err e, chunks))
  | Ok identifier =>
      let staging := win_join (namespace config)
        (staging_name hash (filename_suffix (format config)) SAVE_MARKER identifier) in
      step! created <- create_windows_streaming_staging_steps config staging declared_len chunks;
      match created with
      | (Err error, chunks) =>
          if name_taken error then Done (inl chunks)
          else step! _ <- do_call (delete_file staging); Done (inr (Err error, chunks))
      | (Ok _, chunks) =>
          prog_map (fun r => inr (r, chunks)) (commit_staging_steps config staging path)
      end
  end.

Definition windows_save_blob_from_receiver_steps (fuel : nat) (config : StoreConfig) (path : Path)
    (declared_len : N) (chunks : list SaveStreamMessage)
    : prog (list SaveStreamMessage + (result unit AtomicBlobStoreError * list SaveStreamMessage)) :=
  match envelope_header (format config) declared_len (maximum config) with
  | Err e => Done (inr (Err e, chunks))
  | Ok _ =>
      match win_file_stem path ≫= to_str with
      | None => Done (inr (Err UnexpectedFileType, chunks))
      | Some hash => prog_loop fuel (windows_save_stream_turn_steps config path hash declared_len) chunks
      end
  end.

Definition windows_clear_turn_steps (config : StoreConfig) (path : Path) (hash : bytes)
    : prog (unit + result unit AtomicBlobStoreError) :=
  step! drawn <- do_call random_identifier;
  match drawn with
  | Err e => Done (inr (Err e))
  | Ok identifier =>
      let staging := win_join (namespace config)
        (staging_name hash (filename_suffix (format config)) CLEAR_MARKER identifier) in
      step! moved <- do_call (move_file path staging MOVEFILE_WRITE_THROUGH);
      match moved with
      | Ok _ =>
          prog_map inr
            (step? _ <- prog_map (map_err (Io SyncNamespaceDirectory)) (sync_windows_directory_steps config);
             do_call (io_op RemoveTemporaryFile (delete_file staging)))
      | Err error =>
          if decide (kind error = NotFound) then prog_map inr (do_call (ensure_namespace_available config))
          else if decide (kind error = AlreadyExists) then Done (inl tt)
          else Done (inr (Err (Io RemoveBlob error)))
      end
  end.

Definition windows_clear_blob_steps (fuel : nat) (config : StoreConfig) (path : Path)
    : prog (unit + result unit AtomicBlobStoreError) :=
  match win_file_stem path ≫= to_str with
  | None => Done (inr (Err UnexpectedFileType))
  | Some hash =>
      step! refreshed <- refresh_windows_clear_age_steps path;
      match refreshed with
      | Ok _ => prog_loop fuel (fun _ => windows_clear_turn_steps config path hash) tt
      | Err source =>
          if decide (kind source = NotFound) then prog_map inr (do_call (ensure_namespace_available config))
          else Done (inr (Err (Io RefreshClearStagingAge source)))
      end
  end.

Definition windows_quarantine_turn_steps (config : StoreConfig) (path : Path) (hash : bytes)
    : prog (unit + result QuarantineInfo AtomicBlobStoreError) :=
  step! drawn <- do_call random_identifier;
  match drawn with
  | Err e => Done (inr (Err e))
  | Ok identifier =>
      let destination := win_join (namespace config)
        (quarantine_name hash (filename_suffix (format config)) identifier) in
      step! moved <- do_call (move_file path destination MOVEFILE_WRITE_THROUGH);
      match moved with
      | Ok _ =>
          let quarantine := {| identifier := identifier; diagnostic_path := destination |} in
          prog_map inr
            (step? _ <- prog_map (map_err (QuarantineNamespaceSync quarantine))
                          (sync_windows_directory_steps config);
             Done (Ok quarantine))
      | Err error =>
          if decide (kind error = NotFound) then
            prog_map inr (step? _ <- do_call (ensure_namespace_available config);
                          Done (Err QuarantineSourceMissing))
          else if decide (kind error = AlreadyExists) then Done (inl tt)
          else Done (inr (Err (QuarantineCommit error)))
      end
  end.

Definition windows_quarantine_blob_steps (fuel : nat) (config : StoreConfig) (path : Path)
    : prog (unit + result QuarantineInfo AtomicBlobStoreError) :=
  match win_file_stem path ≫= to_str with
  | None => Done (inr (Err UnexpectedFileType))
  | Some hash => prog_loop fuel (fun _ => windows_quarantine_turn_steps config path hash) tt
  end.

Lemma sync_windows_directory_steps_do config :
  does (sync_windows_directory_steps config) (sync_windows_directory config).
Proof.
  intros w. unfold sync_windows_directory_steps, sync_windows_directory, bind. run_steps.
  destruct (CreateFileW _ _ _ _ _ w) as [[]]; by run_steps.
Qed.

Lemma exec_map {A B} (f : A -> B) (p : prog A) w :
  exec (prog_map f p) w = let (a, w) := exec p w in (f a, w).
Proof. unfold prog_map. rewrite exec_bind. by destruct (exec p w). Qed.

Lemma create_windows_staging_steps_do path header payload checksum :
  does (create_windows_staging_steps path header payload checksum)
    (create_windows_staging path header payload checksum).
Proof.
  intros w. unfold create_windows_staging_steps, create_windows_staging, bind. run_steps.
  destruct (io_op _ _ w) as [[handle|e] w1]; [|done]. destruct (write_sections _ _) as [[]]; by run_steps.
Qed.

Lemma create_windows_streaming_staging_steps_do config path n chunks :
  does (create_windows_streaming_staging_steps config path n chunks)
    (create_windows_streaming_staging config path n chunks).
Proof.
  intros w. unfold create_windows_streaming_staging_steps, create_windows_streaming_staging. run_steps.
  destruct (io_op _ _ w) as [[handle|e] w1]; [|done].
  destruct (write_stream_envelope _ _ _) as [[] [file rest]]; run_steps; [|done].
  by destruct (io_op _ _ _).
Qed.

Lemma refresh_windows_clear_age_steps_do path :
  does (refresh_windows_clear_age_steps path) (refresh_windows_clear_age path).
Proof.
  intros w. unfold refresh_windows_clear_age_steps, refresh_windows_clear_age, bind. run_steps.
  destruct (file_time_ticks _) as [ticks|e]; [|done]. destruct (file_time ticks). run_steps.
  destruct (CreateFileW _ _ _ _ _ w) as [[handle|e] w1]; [|done]. run_steps.
  by destruct (SetFileTime _ _ _ w1) as [[]]; run_steps.
Qed.

Lemma commit_staging_steps_do config staging path :
  does (commit_staging_steps config staging path) (commit_staging config staging path).
Proof.
  intros w. unfold commit_staging_steps, commit_staging, bind_result, bind, ret, throw. run_steps.
  destruct (move_file _ _ _ w) as [[[]|e] w1]; run_steps.
  - by rewrite exec_map, sync_windows_directory_steps_do.
  - destruct (target_exists e); run_steps; [|done].
    destruct (eff_map_err _ _ w1) as [[]]; [|done]. by rewrite exec_map, sync_windows_directory_steps_do.
Qed.

Lemma windows_save_turn_steps_end config path hash header payload checksum w :
  ends only_world (exec (windows_save_turn_steps config path hash header payload checksum) w) =
    windows_save_step config path hash header payload checksum w.
Proof.
  unfold windows_save_turn_steps, windows_save_step. run_steps.
  destruct (random_identifier w) as [[i|e] w1]; [|done]. rewrite exec_bind, create_windows_staging_steps_do.
  destruct (create_windows_staging _ _ _ _ w1) as [[[]|e] w2].
  - rewrite exec_map, commit_staging_steps_do. by destruct (commit_staging _ _ _ w2).
  - run_steps. by destruct (name_taken e).
Qed.

Lemma windows_save_blob_steps_end fuel config path payload w :
  ends only_world (exec (windows_save_blob_steps fuel config path payload) w) =
    windows_save_blob fuel config path payload w.
Proof.
  unfold windows_save_blob_steps, windows_save_blob.
  destruct (envelope_parts _ _ _) as [[header checksum]|e]; [|done].
  destruct (win_file_stem path ≫= to_str); [|done].
  apply (loop_ends only_world _ _ fuel tt). intros s' w'. apply windows_save_turn_steps_end.
Qed.

Lemma windows_save_stream_turn_steps_end config path hash n chunks w :
  ends pair (exec (windows_save_stream_turn_steps config path hash n chunks) w) =
    windows_save_stream_step config path hash n (chunks, w).
Proof.
  unfold windows_save_stream_turn_steps, windows_save_stream_step. run_steps.
  destruct (random_identifier w) as [[i|e] w1]; [|done].
  rewrite exec_bind, create_windows_streaming_staging_steps_do.
  destruct (create_windows_streaming_staging _ _ _ _ w1) as [[[[]|e] rest] w2].
  - rewrite exec_map, commit_staging_steps_do. by destruct (commit_staging _ _ _ w2).
  - destruct (name_taken e); run_steps; [done|]. by destruct (delete_file _ w2).
Qed.

Lemma windows_save_blob_from_receiver_steps_end fuel config path n chunks w :
  ends pair (exec (windows_save_blob_from_receiver_steps fuel config path n chunks) w) =
    windows_save_blob_from_receiver fuel config path n chunks w.
Proof.
  unfold windows_save_blob_from_receiver_steps, windows_save_blob_from_receiver.
  destruct (envelope_header _ _ _) as [header|e]; [|done].
  destruct (win_file_stem path ≫= to_str); [|done].
  apply (loop_ends pair). intros chunks' w'. apply windows_save_stream_turn_steps_end.
Qed.

Lemma windows_clear_turn_steps_end config path hash w :
  ends only_world (exec (windows_clear_turn_steps config path hash) w) = windows_clear_step config path hash w.
Proof.
  unfold windows_clear_turn_steps, windows_clear_step. run_steps.
  destruct (random_identifier w) as [[i|e] w1]; [|done]. run_steps.
  destruct (move_file _ _ _ w1) as [[[]|e] w2].
  - rewrite exec_map. run_steps. rewrite exec_map, sync_windows_directory_steps_do.
    unfold bind, io_op, eff_map_err. destruct (sync_windows_directory config w2) as [[[]|e] w3]; [|done].
    cbn [map_err]. run_steps. by destruct (delete_file _ w3).
  - case_decide; [|by case_decide]. rewrite exec_map. run_steps.
    by destruct (ensure_namespace_available config w2).
Qed.

Lemma windows_clear_blob_steps_end fuel config path w :
  ends only_world (exec (windows_clear_blob_steps fuel config path) w) = windows_clear_blob fuel config path w.
Proof.
  unfold windows_clear_blob_steps, windows_clear_blob.
  destruct (win_file_stem path ≫= to_str); [|done].
  rewrite exec_bind, refresh_windows_clear_age_steps_do.
  destruct (refresh_windows_clear_age path w) as [[[]|e] w1].
  - apply (loop_ends only_world _ _ fuel tt). intros s' w'. apply windows_clear_turn_steps_end.
  - case_decide; [|done]. rewrite exec_map. run_steps. by destruct (ensure_namespace_available config w1).
Qed.

Lemma windows_quarantine_turn_steps_end config path hash w :
  ends only_world (exec (windows_quarantine_turn_steps config path hash) w) =
    windows_quarantine_step config path hash w.
Proof.
  unfold windows_quarantine_turn_steps, windows_quarantine_step. run_steps.
  destruct (random_identifier w) as [[i|e] w1]; [|done]. run_steps.
  destruct (move_file _ _ _ w1) as [[[]|e] w2].
  - rewrite exec_map. run_steps. rewrite exec_map, sync_windows_directory_steps_do.
    unfold bind, ret, eff_map_err. by destruct (sync_windows_directory config w2) as [[[]|e] w3].
  - case_decide; [|by case_decide]. rewrite exec_map. run_steps. unfold bind, throw.
    by destruct (ensure_namespace_available config w2) as [[[]|]].
Qed.

Lemma windows_quarantine_blob_steps_end fuel config path w :
  ends only_world (exec (windows_quarantine_blob_steps fuel config path) w) =
    windows_quarantine_blob fuel config path w.
Proof.
  unfold windows_quarantine_blob_steps, windows_quarantine_blob.
  destruct (win_file_stem path ≫= to_str); [|done].
  apply (loop_ends only_world _ _ fuel tt). intros s' w'. apply windows_quarantine_turn_steps_end.
Qed.

End Windows.

(** ** Any backend *)

(** The programs of a backend do what its functions do. *)
Class BackendSteps {Bk : Backend} := {
  save_steps : nat -> StoreConfig -> Path -> bytes -> prog (unit + result unit AtomicBlobStoreError);
  save_from_receiver_steps : nat -> StoreConfig -> Path -> N -> list SaveStreamMessage ->
    prog (list SaveStreamMessage + (result unit AtomicBlobStoreError * list SaveStreamMessage));
  clear_steps : nat -> StoreConfig -> Path -> prog (unit + result unit AtomicBlobStoreError);
  quarantine_steps : nat -> StoreConfig -> Path -> prog (unit + result QuarantineInfo AtomicBlobStoreError);
  save_steps_end fuel config path payload w :
    ends only_world (exec (save_steps fuel config path payload) w) = backend_save fuel config path payload w;
  save_from_receiver_steps_end fuel config path n chunks w :
    ends pair (exec (save_from_receiver_steps fuel config path n chunks) w) =
      backend_save_from_receiver fuel config path n chunks w;
  clear_steps_end fuel config path w :
    ends only_world (exec (clear_steps fuel config path) w) = backend_clear fuel config path w;
  quarantine_steps_end fuel config path w :
    ends only_world (exec (quarantine_steps fuel config path) w) = backend_quarantine fuel config path w;
}.

(** A program without a loop. *)
Lemma ends_inr {S A T} (pack : S -> World -> T) (p : prog A) f w :
  does p f -> ends pack (exec (prog_map inr p) w) = inr (f w).
Proof. intros H. rewrite exec_map, H. by destruct (f w). Qed.

#[export] Instance unix_steps {Crc : Crc32c} {Tgt : Target} {Awf : AtomicWriteFile} {Rx : Rustix}
    : BackendSteps (Bk := unix_backend).
Proof.
  refine {|
    save_steps _ config path payload := prog_map inr (save_blob_steps config path payload);
    save_from_receiver_steps _ config path n chunks :=
      prog_map inr (save_blob_from_receiver_steps config path n chunks);
    clear_steps _ config path := prog_map inr (clear_blob_steps config path);
    quarantine_steps := quarantine_blob_steps;
  |}; intros.
  - apply ends_inr, save_blob_steps_do.
  - apply ends_inr, save_blob_from_receiver_steps_do.
  - apply ends_inr, clear_blob_steps_do.
  - apply quarantine_blob_steps_end.
Defined.

#[export] Instance windows_steps {Crc : Crc32c} {Tgt : Target} {Api : WindowsApi} {Abs : AbsolutePath}
    {Lst : DirectoryListing} : BackendSteps (Bk := windows_backend).
Proof.
  refine {|
    save_steps := windows_save_blob_steps;
    save_from_receiver_steps := windows_save_blob_from_receiver_steps;
    clear_steps := windows_clear_blob_steps;
    quarantine_steps := windows_quarantine_blob_steps;
  |}; intros.
  - apply windows_save_blob_steps_end.
  - apply windows_save_blob_from_receiver_steps_end.
  - apply windows_clear_blob_steps_end.
  - apply windows_quarantine_blob_steps_end.
Defined.

Section Operations.
Context {Crc : Crc32c} {Tgt : Target} {Bk : Backend} {BkS : BackendSteps}.

(** The result of a loop that ended. *)
Definition ended {S A B} (f : A -> B) (x : S + A) : option B :=
  match x with inl _ => None | inr a => Some (f a) end.

(** [run_owned_operation]; [None] is a run that still tries names. *)
Definition operation_steps (fuel : nat) (config : StoreConfig) (path : Path) (operation : Operation)
    : prog (option Finished) :=
  match operation with
  | Load sender =>
      prog_map (fun r => Some (finished (Load sender) (RLoad r))) (load_blob_steps config path)
  | LoadStream chunks acknowledgement sender =>
      match chunks, acknowledgement with
      | Some acc, Some ack =>
          prog_map (fun '(r, sent) =>
              Some {| fin_outcome := Some (LoadStream None None sender, RLoadStream r); fin_sent := sent |})
            (load_blob_into_sender_steps config path {| accepts := acc; acknowledges := ack |})
      | _, _ => Done (Some {| fin_outcome := None; fin_sent := [] |})
      end
  | Save payload sender =>
      prog_map (ended (fun r => finished (Save payload sender) (RSave r)))
        (save_steps fuel config path payload)
  | SaveStream declared_len chunks sender =>
      prog_map (ended (fun '(r, chunks') => finished (SaveStream declared_len chunks' sender) (RSaveStream r)))
        (save_from_receiver_steps fuel config path declared_len chunks)
  | Clear sender =>
      prog_map (ended (fun r => finished (Clear sender) (RClear r))) (clear_steps fuel config path)
  | Inspect sender =>
      prog_map (fun r => Some (finished (Inspect sender) (RInspect r))) (inspect_blob_steps config path)
  | Quarantine sender =>
      prog_map (ended (fun r => finished (Quarantine sender) (RQuarantine r)))
        (quarantine_steps fuel config path)
  end.

(** A run by itself, in the form of [run_owned_operation]. *)
Definition run_alone (x : option Finished * World) : World + (Finished * World) :=
  let (fin, w) := x in match fin with Some fin => inr (fin, w) | None => inl w end.

(** The steps are the operation.  The calls of an operation, made one after
    the other without another thread between them, do what the operation does:
    the same result, the same world, and the same names still to try. *)
Theorem steps_are_the_operation fuel config path operation w :
  run_alone (exec (operation_steps fuel config path operation) w) =
    run_owned_operation fuel config path operation w.
Proof.
  destruct operation as [s|[acc|] [ack|] s|p s|n ms s|s|s|s]; cbn [operation_steps run_owned_operation];
    rewrite ?exec_map; try done.
  - rewrite load_blob_steps_do. by destruct (load_blob config path w).
  - rewrite load_blob_into_sender_steps_do. by destruct (load_blob_into_sender _ _ _ w) as [[]].
  - rewrite <-save_steps_end. by destruct (exec _ w) as [[[]|] w'].
  - rewrite <-save_from_receiver_steps_end. by destruct (exec _ w) as [[|[]] w'].
  - rewrite <-clear_steps_end. by destruct (exec _ w) as [[[]|] w'].
  - rewrite inspect_blob_steps_do. by destruct (inspect_blob config path w).
  - rewrite <-quarantine_steps_end. by destruct (exec _ w) as [[[]|] w'].
Qed.

(** The operations that look for a free name, which a run with little fuel may not
    find. *)
Definition seeks_a_name (o : Operation) : bool :=
  match o with
  | Save _ _ | SaveStream _ _ _ | Clear _ | Quarantine _ => true
  | Load _ | LoadStream _ _ _ | Inspect _ => false
  end.

(** The operation and the result that a run returns belong together, whatever
    other threads do. *)
Definition matching_end (o : Operation) (fin : option Finished) : Prop :=
  match fin with
  | Some f => (owns_ends o = true -> fin_outcome f <> None) /\
      forall o' r, fin_outcome f = Some (o', r) -> matching o' r = true /\ op_sender o' = op_sender o
  | None => seeks_a_name o = true
  end.

Definition anything (_ _ : World) : Prop := True.

Lemma safe_anything {A} (p : prog A) w : safe anything anything p (fun _ _ => True) w.
Proof.
  revert w; induction p as [a|call IH] using prog_induction; intros w; [done|].
  intros w1 _. specialize (IH w1). destruct (call w1). by split.
Qed.

Lemma operation_steps_matching fuel config path o w :
  safe anything anything (operation_steps fuel config path o) (fun fin _ => matching_end o fin) w.
Proof.
  assert (Hmap : forall A (f : A -> option Finished) (p : prog A), (forall a, matching_end o (f a)) ->
    safe anything anything (prog_map f p) (fun fin _ => matching_end o fin) w).
  { intros A f p Hf. apply safe_bind. eapply safe_mono, safe_anything. intros a w' _. apply Hf. }
  destruct o as [s|[acc|] [ack|] s|p s|n ms s|s|s|s]; cbn [operation_steps]; try apply Hmap.
  3-5: by split; [|intros; simplify_eq/=].
  all: intros a; unfold ended; repeat case_match; simplify_eq/=; try done.
  all: split; [done|intros; by simplify_eq/=].
Qed.

End Operations.
