(* ===== verification/BackendSpec.v ===== *)
(** * What a backend promises to the engine

    The abstract store has one entry per canonical name.  [BackendLaws] states
    that each operation which the systems implement differently refines a step on
    the entry of its key and leaves the other entries alone, whatever failures the
    environment injects; [UnixRefinement] and [WindowsRefinement] discharge it, and
    the engine is verified against it. *)
From S2P Require Export BackendTheorems Operation.

Local Open Scope N_scope.
Local Open Scope blob_scope.

(** What the abstract store has for a key. *)
Abbreviation entry := (option Node) (only parsing).

Section Store.
Context {Crc : Crc32c} {SP : StdPath}.
Context (c : StoreConfig).

(** The file of the key whose digest renders as [h]. *)
Definition key_file (h : bytes) : Path := std_join (namespace c) (h ++ filename_suffix (format c)).

(** The namespace is a directory and no file of a key is a symbolic link. *)
Definition plain_keys (fs : FsMap) : Prop :=
  fs !! namespace c = Some Directory /\
  forall h, hex_name h -> is_symlink (fs !! key_file h) = false.

(** ** The abstract store *)

(** The entry is a file with the envelope of [p]. *)
Definition stores (a : entry) (p : bytes) : Prop :=
  exists t, a = Some (Regular (envelope (format c) p) t).

(** The entries differ in the time of the last write at most. *)
Definition same_content (a a' : entry) : Prop :=
  a' = a \/ exists content t t', a = Some (Regular content t) /\ a' = Some (Regular content t').

(** What an operation with a result may do to the entry of its key. *)
Definition abstract_step (o : Operation) (r : BlockingResult) (a a' : entry) : Prop :=
  match o, r with
  | Load _, RLoad r =>
      a' = a /\ match r with
                | Ok (Some p) => stores a p
                | Ok None => a = None
                | Err _ => True
                end
  | LoadStream _ _ _, RLoadStream r =>
      a' = a /\ match r with
                | Ok (Some m) => exists p, stores a p /\ m = metadata_of p
                | Ok None => a = None
                | Err _ => True
                end
  | Save p _, RSave r =>
      match r with
      | Ok _ => stores a' p /\ blen p <= maximum c
      | Err (AtomicCommit _) | Err (Io SyncNamespaceDirectory _) => a' = a \/ stores a' p
      | Err _ => a' = a
      end
  | SaveStream n chunks _, RSaveStream r =>
      match r with
      | Ok _ => exists p, stream_payload chunks = Some p /\ blen p = n /\ stores a' p /\ n <= maximum c
      | Err (AtomicCommit _) | Err (Io SyncNamespaceDirectory _) =>
          a' = a \/ exists p, stream_payload chunks = Some p /\ blen p = n /\ stores a' p
      | Err _ => a' = a
      end
  | Clear _, RClear r =>
      match r with
      | Ok _ | Err (Io OpenNamespaceDirectory _) | Err (Io SyncNamespaceDirectory _)
      | Err (Io RemoveTemporaryFile _) => a' = None
      | Err _ => same_content a a'
      end
  | Inspect _, RInspect r =>
      a' = a /\ match r with
                | Ok i => inspection_size i =
                    match a with Some (Regular content _) => Some (blen content) | _ => None end
                | Err _ => True
                end
  | Quarantine _, RQuarantine r =>
      match r with
      | Ok _ | Err (QuarantineNamespaceSync _ _) => a <> None /\ a' = None
      | Err _ => a' = a
      end
  | _, _ => False
  end.

(** What the environment of a run keeps. *)
Record sound_world (w : World) : Prop := {
  sound_honest : honest w;
  sound_plain : plain_keys (w_fs w);
  sound_entropy : entropy_fills w;
}.

Lemma passes_sound P (w w' : World) :
  sound_world w -> passes P w w' -> plain_keys (w_fs w') -> sound_world w'.
Proof.
  intros [Hw Hp He] Hr Hp'. split; [by apply (passes_honest _ _ _ Hr)|done|].
  intros k bs E. rewrite (passes_entropy _ _ _ Hr) in E. by eapply He.
Qed.

(** The run changed the entry of [h] at most. *)
Definition local_change (h : bytes) (fs fs' : FsMap) : Prop :=
  plain_keys fs' /\ forall h', hex_name h' -> h' <> h -> fs' !! key_file h' = fs !! key_file h'.

Lemma same_fs_local h fs fs' : plain_keys fs -> fs' = fs -> local_change h fs fs'.
Proof. by intros Hp ->. Qed.

(** No entry changed. *)
Definition same_entries (fs fs' : FsMap) : Prop :=
  plain_keys fs' /\ forall h, hex_name h -> fs' !! key_file h = fs !! key_file h.

Lemma same_entries_refl fs : plain_keys fs -> same_entries fs fs.
Proof. done. Qed.

(** The entries agree off [h], and that of [h] is no symbolic link. *)
Lemma agree_local h fs fs' :
  plain_keys fs -> fs' !! namespace c = fs !! namespace c -> is_symlink (fs' !! key_file h) = false ->
  (forall h', hex_name h' -> h' <> h -> fs' !! key_file h' = fs !! key_file h') ->
  local_change h fs fs'.
Proof.
  intros [Hn Hp] Hns Hl Ho. split; [|done]. split; [by rewrite Hns|]. intros h' Hh'.
  destruct (decide (h' = h)) as [->|Hne]; [done|]. rewrite Ho by done. by apply Hp.
Qed.

(** A run of [o] that ended with [fin] refines a step of the abstract store. *)
Definition refines (h : bytes) (o : Operation) (w : World) (fin : Finished) (w' : World) : Prop :=
  sound_world w' /\ local_change h (w_fs w) (w_fs w') /\
  forall o' r, fin_outcome fin = Some (o', r) ->
    abstract_step o r (w_fs w !! key_file h) (w_fs w' !! key_file h).

Lemma refines_passes P h o w fin (w' : World) :
  sound_world w -> passes P w w' -> local_change h (w_fs w) (w_fs w') ->
  (forall o' r, fin_outcome fin = Some (o', r) ->
     abstract_step o r (w_fs w !! key_file h) (w_fs w' !! key_file h)) ->
  refines h o w fin w'.
Proof. intros Hw Hr Hl Ha. split; [by eapply passes_sound; [..|apply Hl]|done]. Qed.

Lemma refines_same h o w fin (w' : World) :
  sound_world w -> passes (fun fs => fs = w_fs w) w w' ->
  (forall o' r, fin_outcome fin = Some (o', r) ->
     abstract_step o r (w_fs w !! key_file h) (w_fs w !! key_file h)) ->
  refines h o w fin w'.
Proof.
  intros Hw Hr Ha. pose proof (passes_last _ _ _ Hr) as Hf. cbn beta in Hf.
  eapply refines_passes; [done|done| |by rewrite Hf]. by apply same_fs_local; [apply Hw|].
Qed.

End Store.

(** ** The promise *)

Class BackendLaws {Crc : Crc32c} {Tgt : Target} {Bk : Backend} := {
  backend_fit : StoreConfig -> Prop;
  fit_format c : backend_fit c -> valid_format (format c);
  save_refines fuel c h p s w r w' :
    backend_fit c -> hex_name h -> sound_world c w ->
    backend_save fuel c (key_file c h) p w = inr (r, w') ->
    refines c h (Save p s) w (finished (Save p s) (RSave r)) w';
  save_from_receiver_refines fuel c h n chunks s w r rest w' :
    backend_fit c -> hex_name h -> sound_world c w ->
    backend_save_from_receiver fuel c (key_file c h) n chunks w = inr ((r, rest), w') ->
    refines c h (SaveStream n chunks s) w (finished (SaveStream n rest s) (RSaveStream r)) w';
  clear_refines fuel c h s w r w' :
    backend_fit c -> hex_name h -> sound_world c w ->
    backend_clear fuel c (key_file c h) w = inr (r, w') ->
    refines c h (Clear s) w (finished (Clear s) (RClear r)) w';
  quarantine_refines fuel c h s w r w' :
    backend_fit c -> hex_name h -> sound_world c w ->
    backend_quarantine fuel c (key_file c h) w = inr (r, w') ->
    refines c h (Quarantine s) w (finished (Quarantine s) (RQuarantine r)) w';
  cleanup_keeps c minimum_age w r w' :
    backend_fit c -> sound_world c w -> backend_cleanup c minimum_age w = (r, w') ->
    passes (same_entries c (w_fs w)) w w';
  initialize_keeps root component f max n c w w' :
    sound_world c w -> backend_initialize root component f max n w = (Ok c, w') ->
    passes (fun fs => fs = w_fs w) w w';
}.
