(* ===== verification/Refinement.v ===== *)
(** * The store as a map from keys to payloads

    Every operation that the workers run refines a step of the abstract store, on
    any backend that keeps its promise; so does every sequence of operations. *)
From S2P Require Export BackendSpec.

Local Open Scope N_scope.
Local Open Scope blob_scope.

Section Refinement.
Context {Crc : Crc32c} {CrcL : Crc32cLaws} {Tgt : Target} {Bk : Backend} {BkL : BackendLaws}.
Context (c : StoreConfig).

(** ** One operation *)

Section OneKey.
Context (h : bytes) (Hc : backend_fit c) (Hh : hex_name h) (Hfits : fits_usize (maximum c)).

Abbreviation path := (key_file c h).

Lemma stores_node fs n p :
  resolve SYMLINK_MAX fs path = Ok n -> plain_keys c fs ->
  node_data 0 n = envelope (format c) p -> stores c (fs !! path) p.
Proof.
  intros Hr Hp Hd. rewrite resolve_entry in Hr by by apply Hp.
  destruct (fs !! path) as [m|] eqn:E; cbn [ok_or] in Hr; simplify_eq.
  assert (envelope (format c) p <> []) by by apply envelope_nonempty, fit_format.
  destruct n as [content t| | |]; cbn [node_data] in Hd; try by rewrite <-Hd in *.
  exists t. by rewrite <-Hd, drop_0.
Qed.

Lemma absent_node fs e :
  resolve SYMLINK_MAX fs path = Err e -> plain_keys c fs -> fs !! path = None.
Proof.
  intros Hr Hp. rewrite resolve_entry in Hr by by apply Hp. by destruct (fs !! path).
Qed.

Lemma load_refines s w :
  sound_world c w -> let (r, w') := load_blob c path w in
  refines c h (Load s) w (finished (Load s) (RLoad r)) w'.
Proof.
  intros Hw. pose proof (load_blob_passes (fun fs => fs = w_fs w) c path w eq_refl) as Hp.
  destruct (load_blob c path w) as [r w'] eqn:E. apply refines_same; [done..|].
  intros o' r' [= _ <-]. split; [done|]. destruct r as [[p|]|e]; [| |done].
  - apply load_blob_inv in E as (n & Hn & Hd & _); [|apply Hw]. by eapply stores_node; [| apply Hw|].
  - apply load_blob_inv in E as ((e & He & _) & _); [|apply Hw]. by eapply absent_node; [|apply Hw].
Qed.

Lemma load_stream_refines acc ack s w :
  sound_world c w ->
  let '((r, sent), w') := load_blob_into_sender c path {| accepts := acc; acknowledges := ack |} w in
  refines c h (LoadStream (Some acc) (Some ack) s) w
    {| fin_outcome := Some (LoadStream None None s, RLoadStream r); fin_sent := sent |} w'.
Proof.
  intros Hw. set (sink := {| accepts := acc; acknowledges := ack |}).
  pose proof (load_blob_into_sender_passes (fun fs => fs = w_fs w) c path sink w eq_refl) as Hp.
  pose proof (load_blob_into_sender_inv c path sink w (fit_format c Hc) Hfits) as Hv.
  destruct (load_blob_into_sender c path sink w) as [[r sent] w'] eqn:E. apply refines_same; [done..|].
  intros o' r' [= _ <-]. split; [done|]. destruct r as [[m|]|e]; [| |done].
  - destruct Hv as (_ & _ & Hv). destruct (Hv m eq_refl) as [(n & Hn & Hd & _) Hm].
    exists (concat sent). split; [by eapply stores_node; [|apply Hw|]|]. unfold metadata_of.
    rewrite <-Hm. by destruct m.
  - apply load_blob_into_sender_none in E as (e & He & _); [|apply Hw]. by eapply absent_node; [|apply Hw].
Qed.

Lemma inspect_refines s w :
  sound_world c w -> let (r, w') := inspect_blob c path w in
  refines c h (Inspect s) w (finished (Inspect s) (RInspect r)) w'.
Proof.
  intros Hw. pose proof (inspect_blob_passes (fun fs => fs = w_fs w) c path w eq_refl) as Hp.
  destruct (inspect_blob c path w) as [r w'] eqn:E. apply refines_same; [done..|].
  intros o' r' [= _ <-]. split; [done|]. destruct r as [i|e]; [|done].
  apply inspect_blob_inv in E; [|apply Hw]. destruct (inspection_state i).
  - by destruct E as (-> & -> & _).
  - by destruct E as (content & t & -> & -> & _).
Qed.

Lemma run_refines fuel o w fin w' :
  sound_world c w -> run_owned_operation fuel c path o w = inr (fin, w') -> refines c h o w fin w'.
Proof.
  intros Hw. unfold run_owned_operation.
  destruct o as [s|[acc|] [ack|] s|p s|n chunks s|s|s|s].
  - pose proof (load_refines s w Hw) as H. destruct (load_blob _ _ _). intros; by simplify_eq.
  - pose proof (load_stream_refines acc ack s w Hw) as H.
    destruct (load_blob_into_sender _ _ _ _) as [[r sent] w1]. intros; by simplify_eq.
  - intros; simplify_eq. by apply refines_same; [|apply passes_refl|].
  - intros; simplify_eq. by apply refines_same; [|apply passes_refl|].
  - intros; simplify_eq. by apply refines_same; [|apply passes_refl|].
  - destruct (backend_save _ _ _ _ _) as [w1|[r w1]] eqn:E; [done|]. intros; simplify_eq.
    by eapply save_refines.
  - destruct (backend_save_from_receiver _ _ _ _ _ _) as [[ms w1]|[[r rest] w1]] eqn:E; [done|].
    intros; simplify_eq. by eapply save_from_receiver_refines.
  - destruct (backend_clear _ _ _ _) as [w1|[r w1]] eqn:E; [done|]. intros; simplify_eq.
    by eapply clear_refines.
  - pose proof (inspect_refines s w Hw) as H. destruct (inspect_blob _ _ _). intros; by simplify_eq.
  - destruct (backend_quarantine _ _ _ _) as [w1|[r w1]] eqn:E; [done|]. intros; simplify_eq.
    by eapply quarantine_refines.
Qed.

End OneKey.

(** ** Sequences of operations *)

(** The operations that ran, with the key of each and what it returned. *)
Abbreviation trace := (list (bytes * Operation * Finished)) (only parsing).

Inductive runs (fuel : nat) : World -> trace -> World -> Prop :=
| runs_nil w : runs fuel w [] w
| runs_cons w h o fin w1 t w2 :
    hex_name h ->
    run_owned_operation fuel c (key_file c h) o w = inr (fin, w1) ->
    runs fuel w1 t w2 -> runs fuel w ((h, o, fin) :: t) w2.

(** The same trace on the abstract store; a run that panicked says nothing of
    its entry. *)
Inductive abstract_runs : (bytes -> entry) -> trace -> (bytes -> entry) -> Prop :=
| abstract_nil a a' : (forall h, hex_name h -> a h = a' h) -> abstract_runs a [] a'
| abstract_cons a h o fin a1 t a2 :
    (forall o' r, fin_outcome fin = Some (o', r) -> abstract_step c o r (a h) (a1 h)) ->
    (forall h', hex_name h' -> h' <> h -> a1 h' = a h') ->
    abstract_runs a1 t a2 -> abstract_runs a ((h, o, fin) :: t) a2.

Definition view (w : World) : bytes -> entry := fun h => w_fs w !! key_file c h.

Lemma runs_refine fuel w t w' :
  backend_fit c -> fits_usize (maximum c) ->
  runs fuel w t w' -> sound_world c w -> sound_world c w' /\ abstract_runs (view w) t (view w').
Proof.
  intros Hc Hfits. induction 1 as [w|w h o fin w1 t w2 Hh E _ IH]; intros Hw.
  - split; [done|]. by constructor.
  - destruct (run_refines h Hc Hh Hfits fuel o w fin w1 Hw E) as (Hw1 & [_ Ho] & Ha).
    destruct (IH Hw1) as [Hw2 Hr]. split; [done|]. by apply (abstract_cons _ _ _ _ (view w1)).
Qed.

(** Every history of operations is a history of the map.  The results of any
    sequence of operations, over any keys, are those of the abstract store. *)
Theorem histories_refine_the_map fuel w t w' :
  backend_fit c -> fits_usize (maximum c) -> sound_world c w ->
  runs fuel w t w' -> abstract_runs (view w) t (view w').
Proof. intros Hc Hf Hw Hr. by apply (runs_refine fuel w t w'). Qed.

End Refinement.
