(* ===== verification/Interference.v ===== *)
(** * Operations among other operations

    While an operation of one key makes its system calls, operations of other
    keys make theirs.  [others_act] is what it relies on: the files that belong
    to its key stay as they are.  [keeps_to_itself] is what it guarantees at every
    point of every call: it leaves the files of other keys alone, and its own
    entry is one that the operation may show ([moment]).  [BackendInterference] is
    the promise of a backend that its programs do so and end in a step of the
    abstract store; loads and inspections keep it on any backend. *)
From S2P Require Export Refinement BackendSteps.

Local Open Scope N_scope.
Local Open Scope blob_scope.

Section Rely.
Context {Crc : Crc32c} {SP : StdPath}.
Context (c : StoreConfig).

(** The entries that an operation may show before it ends; [a0] is the entry
    that it found. *)
Definition moment (o : Operation) (a0 a : entry) : Prop :=
  match o with
  | Load _ | LoadStream _ _ _ | Inspect _ => a = a0
  | Save p _ => a = a0 \/ stores c a p
  | SaveStream n chunks _ =>
      a = a0 \/ exists p, stream_payload chunks = Some p /\ blen p = n /\ stores c a p
  | Clear _ => same_content a0 a \/ a = None
  | Quarantine _ => a = a0 \/ a = None
  end.

Lemma moment_refl o a : moment o a a.
Proof. destruct o; cbn; try done; left; try done; by left. Qed.

(** A save that failed before its commit left the entry alone. *)
Lemma save_failed p s e a0 a : a = a0 -> abstract_step c (Save p s) (RSave (Err e)) a0 a.
Proof.
  intros ->. destruct e as [|operation| | | | | | | | | | | | | | | | | | | | | | | | | | | | | |];
    try done; [destruct operation; try done|]; by left.
Qed.

Lemma save_stream_failed n chunks s e a0 a :
  a = a0 -> abstract_step c (SaveStream n chunks s) (RSaveStream (Err e)) a0 a.
Proof.
  intros ->. destruct e as [|operation| | | | | | | | | | | | | | | | | | | | | | | | | | | | | |];
    try done; [destruct operation; try done|]; by left.
Qed.

(** A quarantine that failed before the move left the entry alone. *)
Lemma quarantine_failed s e a0 a :
  a = a0 -> (forall q src, e <> QuarantineNamespaceSync q src) ->
  abstract_step c (Quarantine s) (RQuarantine (Err e)) a0 a.
Proof. intros -> He. destruct e; try done. by destruct (He quarantine source). Qed.

(** [own h] are the files that belong to the key of [h]. *)
Context (own : bytes -> Path -> Prop) (h : bytes).

Definition others_act (w w1 : World) : Prop :=
  sound_world c w1 /\ forall p, own h p -> w_fs w1 !! p = w_fs w !! p.

(** Nothing of another key differs. *)
Definition own_change (fs fs' : FsMap) : Prop :=
  plain_keys c fs' /\ forall h' p, hex_name h' -> h' <> h -> own h' p -> fs' !! p = fs !! p.

Definition keeps_to_itself (o : Operation) (a0 : entry) (w1 w2 : World) : Prop :=
  passes (fun fs => own_change (w_fs w1) fs /\ moment o a0 (fs !! key_file c h)) w1 w2.

Lemma others_act_refl w : sound_world c w -> others_act w w.
Proof. by intros. Qed.

Lemma others_act_trans w w1 w2 : others_act w w1 -> others_act w1 w2 -> others_act w w2.
Proof. intros [_ H1] [Hw H2]. split; [done|]. intros p Hp. by rewrite H2, H1. Qed.

Lemma others_act_entry w w1 :
  own h (key_file c h) -> others_act w w1 -> w_fs w1 !! key_file c h = w_fs w !! key_file c h.
Proof. intros Ho [_ H]. by apply H. Qed.

Lemma unchanged_sound (w w1 : World) :
  sound_world c w -> passes (fun fs => fs = w_fs w) w w1 -> sound_world c w1.
Proof.
  intros Hw Hp. eapply passes_sound; [done|done|]. pose proof (passes_last _ _ _ Hp) as Hf. cbn beta in Hf.
  rewrite Hf. apply Hw.
Qed.

Lemma unchanged_others (w w1 w2 : World) :
  others_act w w1 -> passes (fun fs => fs = w_fs w1) w1 w2 -> others_act w w2.
Proof.
  intros [Hw Ho] Hp. split; [by eapply unchanged_sound|]. intros p Hop.
  pose proof (passes_last _ _ _ Hp) as Hf. cbn beta in Hf. by rewrite Hf, Ho.
Qed.

Lemma unchanged_keeps o a0 (w1 w2 : World) :
  sound_world c w1 -> moment o a0 (w_fs w1 !! key_file c h) ->
  passes (fun fs => fs = w_fs w1) w1 w2 -> keeps_to_itself o a0 w1 w2.
Proof.
  intros Hw Hm Hp. eapply passes_mono, Hp. intros fs ->. split; [|done]. split; [apply Hw|done].
Qed.

Lemma keeps_sound o a0 (w1 w2 : World) :
  sound_world c w1 -> keeps_to_itself o a0 w1 w2 -> sound_world c w2.
Proof. intros Hw Hp. eapply passes_sound; [done|exact Hp|]. by destruct (passes_last _ _ _ Hp) as [[? _] _]. Qed.

(** A call that changes nothing. *)
Lemma safe_quiet {A} (call : World -> A * World) o a0 (Q : A -> World -> Prop) w :
  own h (key_file c h) -> moment o a0 (w_fs w !! key_file c h) ->
  (forall w1, passes (fun fs => fs = w_fs w1) w1 (snd (call w1))) ->
  (forall w1 a w2, others_act w w1 -> call w1 = (a, w2) -> others_act w w2 -> Q a w2) ->
  safe others_act (keeps_to_itself o a0) (do_call call) Q w.
Proof.
  intros Hown Hm Hp HQ. apply safe_call. intros w1 Hw1. specialize (Hp w1).
  destruct (call w1) as [a w2] eqn:E. cbn [snd] in Hp. split.
  - apply unchanged_keeps; [apply Hw1| |done]. by rewrite (others_act_entry _ _ Hown Hw1).
  - eapply HQ; [done..|]. by eapply unchanged_others.
Qed.

(** The world is sound, and the entry is [a]. *)
Definition shows (a : entry) (w : World) : Prop := sound_world c w /\ w_fs w !! key_file c h = a.

Lemma shows_others a w w1 : own h (key_file c h) -> shows a w -> others_act w w1 -> shows a w1.
Proof. intros Hown [_ Ha] [Hw1 Ho]. split; [done|]. by rewrite Ho. Qed.

Lemma shows_unchanged a (w w1 : World) :
  shows a w -> passes (fun fs => fs = w_fs w) w w1 -> shows a w1.
Proof.
  intros [Hw Ha] Hp. split; [by eapply unchanged_sound|]. pose proof (passes_last _ _ _ Hp) as Hf.
  cbn beta in Hf. by rewrite Hf.
Qed.

(** A call that changes nothing, at any moment of the operation. *)
Lemma safe_calm {A} (call : World -> A * World) o a0 a (Q : A -> World -> Prop) w :
  own h (key_file c h) -> shows a w -> moment o a0 a ->
  (forall w1, passes (fun fs => fs = w_fs w1) w1 (snd (call w1))) ->
  (forall w1 x w2, shows a w1 -> call w1 = (x, w2) -> shows a w2 -> Q x w2) ->
  safe others_act (keeps_to_itself o a0) (do_call call) Q w.
Proof.
  intros Hown Hs Hm Hp HQ. apply safe_quiet; [done|by destruct Hs as [_ ->]|done|].
  intros w1 x w2 Hw1 E Hw2. eapply HQ; [|exact E|]; by eapply shows_others.
Qed.

(** A call that changes files of its own. *)
Lemma safe_change {A} (call : World -> A * World) o a0 a (Q : A -> World -> Prop) w :
  own h (key_file c h) -> shows a w ->
  (forall w1, shows a w1 -> let (x, w2) := call w1 in
     keeps_to_itself o a0 w1 w2 /\ (sound_world c w2 -> Q x w2)) ->
  safe others_act (keeps_to_itself o a0) (do_call call) Q w.
Proof.
  intros Hown Hs Hcall. apply safe_call. intros w1 Hw1. pose proof (shows_others _ _ _ Hown Hs Hw1) as Hs1.
  specialize (Hcall w1 Hs1). destruct (call w1) as [x w2]. destruct Hcall as [Hk HQ].
  split; [done|]. apply HQ. by eapply keeps_sound; [apply Hs1|].
Qed.

End Rely.

(** ** The promise of a backend *)

Section Promise.
Context {Crc : Crc32c} {Tgt : Target} {Bk : Backend}.

(** The program ends in a step of the abstract store on the entry of its key. *)
Definition ends_in_step (c : StoreConfig) (h : bytes) (o : Operation) (a0 : entry)
    (r : BlockingResult) (w : World) : Prop :=
  abstract_step c o r a0 (w_fs w !! key_file c h).

(** The same for a run that may still try names, or that panicked. *)
Definition finishes_in_step (c : StoreConfig) (h : bytes) (o : Operation) (a0 : entry)
    (fin : option Finished) (w : World) : Prop :=
  forall f o' r, fin = Some f -> fin_outcome f = Some (o', r) -> ends_in_step c h o a0 r w.

Class BackendInterference {BkL : BackendLaws} {BkS : BackendSteps} := {
  own : StoreConfig -> bytes -> Path -> Prop;
  own_key_file c h : own c h (key_file c h);
  save_steps_safe fuel c h p s w :
    backend_fit c -> hex_name h -> sound_world c w ->
    let a0 := w_fs w !! key_file c h in
    safe (others_act c (own c) h) (keeps_to_itself c (own c) h (Save p s) a0)
      (save_steps fuel c (key_file c h) p)
      (fun x w => forall r, x = inr r -> ends_in_step c h (Save p s) a0 (RSave r) w) w;
  save_from_receiver_steps_safe fuel c h n chunks s w :
    backend_fit c -> hex_name h -> sound_world c w ->
    let a0 := w_fs w !! key_file c h in
    safe (others_act c (own c) h) (keeps_to_itself c (own c) h (SaveStream n chunks s) a0)
      (save_from_receiver_steps fuel c (key_file c h) n chunks)
      (fun x w => forall r rest, x = inr (r, rest) ->
         ends_in_step c h (SaveStream n chunks s) a0 (RSaveStream r) w) w;
  clear_steps_safe fuel c h s w :
    backend_fit c -> hex_name h -> sound_world c w ->
    let a0 := w_fs w !! key_file c h in
    safe (others_act c (own c) h) (keeps_to_itself c (own c) h (Clear s) a0)
      (clear_steps fuel c (key_file c h))
      (fun x w => forall r, x = inr r -> ends_in_step c h (Clear s) a0 (RClear r) w) w;
  quarantine_steps_safe fuel c h s w :
    backend_fit c -> hex_name h -> sound_world c w ->
    let a0 := w_fs w !! key_file c h in
    safe (others_act c (own c) h) (keeps_to_itself c (own c) h (Quarantine s) a0)
      (quarantine_steps fuel c (key_file c h))
      (fun x w => forall r, x = inr r -> ends_in_step c h (Quarantine s) a0 (RQuarantine r) w) w;
}.

End Promise.

(** ** Operations *)

Section Operations.
Context {Crc : Crc32c} {CrcL : Crc32cLaws} {Tgt : Target} {Bk : Backend} {BkL : BackendLaws}
  {BkS : BackendSteps} {BkI : BackendInterference}.
Context (c : StoreConfig) (h : bytes) (Hc : backend_fit c) (Hh : hex_name h)
  (Hfits : fits_usize (maximum c)).

Abbreviation path := (key_file c h).
Abbreviation others := (others_act c (own c) h).
Abbreviation keeps := (keeps_to_itself c (own c) h).

Lemma ensure_namespace_quiet (w : World) :
  passes (fun fs => fs = w_fs w) w (snd (ensure_namespace_available c w)).
Proof. by apply ensure_namespace_passes. Qed.

Lemma random_identifier_quiet (w : World) :
  passes (fun fs => fs = w_fs w) w (snd (random_identifier w)).
Proof. unfold random_identifier. run_passes. Qed.

Lemma absent_file (w : World) e w1 :
  sound_world c w -> fs_open path w = (Err e, w1) -> kind e = NotFound -> w_fs w !! path = None.
Proof.
  intros Hw E Hk. apply fs_open_err in E as ([He|He] & _ & _); [| |apply Hw].
  - by destruct (honest_error_kind _ He).
  - eapply (absent_node c h Hh); [exact He|apply Hw].
Qed.

Lemma same_entry w w1 : others w w1 -> w_fs w1 !! path = w_fs w !! path.
Proof. apply others_act_entry, own_key_file. Qed.

(** [safe_quiet] at a moment at which the entry is the one that the operation found. *)
Lemma safe_look {A} (call : World -> A * World) o (Q : A -> World -> Prop) w :
  (forall w1, passes (fun fs => fs = w_fs w1) w1 (snd (call w1))) ->
  (forall w1 a w2, others w w1 -> call w1 = (a, w2) -> others w w2 -> Q a w2) ->
  safe others (keeps o (w_fs w !! path)) (do_call call) Q w.
Proof. intros Hp HQ. apply safe_quiet; [apply own_key_file|apply moment_refl|done|done]. Qed.

(** What follows a look at an absent file. *)
Lemma safe_ensure {B} o a0 (k : unit -> prog (result B AtomicBlobStoreError)) (Q : _ -> World -> Prop) w :
  w_fs w !! path = a0 ->
  (forall w2, others w w2 -> safe others (keeps o a0) (k tt) Q w2) ->
  (forall e w2, others w w2 -> e = NamespacePathIsNotDirectory \/ (exists s, e = Io InspectNamespace s) ->
     Q (Err e) w2) ->
  safe others (keeps o a0) (prog_try (do_call (ensure_namespace_available c)) k) Q w.
Proof.
  intros <- Hk He. apply safe_try, safe_look; [apply ensure_namespace_quiet|].
  intros w1 [[]|e] w2 Hw1 E Hw2; [by apply Hk|]. apply He; [done|]. by eapply ensure_namespace_errors.
Qed.

Lemma safe_load s w :
  sound_world c w ->
  let a0 := w_fs w !! path in
  safe others (keeps (Load s) a0) (load_blob_steps c path)
    (fun r w => ends_in_step c h (Load s) a0 (RLoad r) w) w.
Proof.
  intros Hw a0. apply safe_bind, safe_look; [intros; by apply open_passes|].
  intros w1 [file|e] w2 Hw1 E Hw2; unfold ends_in_step.
  - cbn. split; [by apply same_entry|]. destruct (fst _) as [p|e] eqn:Ed; cbn; [|done].
    assert (El : load_blob c path w1 = (Ok (Some p), w2)).
    { unfold load_blob, bind_result, lift. by rewrite E, Ed. }
    apply load_blob_inv in El as (n & Hn & Hd & _); [|apply Hw1].
    unfold a0. rewrite <-(same_entry _ _ Hw1). by eapply (stores_node c h Hc Hh); [|apply Hw1|].
  - case_decide as Hk; [|cbn; split; [by apply same_entry|done]].
    assert (Ha : a0 = None) by (unfold a0; rewrite <-(same_entry _ _ Hw1); by eapply absent_file; [apply Hw1| |]).
    apply safe_ensure; [by apply same_entry| |].
    + intros w3 Hw3. cbn. by rewrite (same_entry _ _ Hw3), (same_entry _ _ Hw2).
    + intros e3 w3 Hw3 _. cbn. by rewrite (same_entry _ _ Hw3), (same_entry _ _ Hw2).
Qed.

Lemma safe_load_stream acc ack s w :
  sound_world c w ->
  let a0 := w_fs w !! path in
  let o := LoadStream (Some acc) (Some ack) s in
  safe others (keeps o a0)
    (load_blob_into_sender_steps c path {| accepts := acc; acknowledges := ack |})
    (fun '(r, _) w => ends_in_step c h o a0 (RLoadStream r) w) w.
Proof.
  intros Hw a0 o. apply safe_bind, safe_look; [intros; by apply open_passes|].
  intros w1 [file|e] w2 Hw1 E Hw2; unfold ends_in_step.
  - assert (Herr : forall (e : AtomicBlobStoreError) w3, others w2 w3 ->
      abstract_step c o (RLoadStream (Err e)) a0 (w_fs w3 !! path)).
    { intros e w3 Hw3. cbn. by rewrite (same_entry _ _ Hw3), (same_entry _ _ Hw2). }
    destruct (fst (validate_envelope_reader _ _ _)) as [m|e] eqn:Ev.
    2:{ apply Herr. split; [apply Hw2|done]. }
    apply safe_bind. unfold a0. rewrite <-(same_entry _ _ Hw2).
    apply safe_look; [intros; by apply seek_passes|]. intros w3 [f'|e] w4 Hw3 Es Hw4.
    2:{ cbn. by rewrite (same_entry _ _ Hw4). }
    pose proof (delivered_holds c path w1 w2 w3 w4 file m f' acc (fit_format c Hc) Hfits E Ev Es) as Hd.
    cbn [accepts acknowledges]. destruct (deliver_payload _ _ _) as [res sent]. destruct Hd as (_ & _ & Hd).
    destruct res as [[]|e]; [|cbn; by rewrite (same_entry _ _ Hw4)].
    destruct ack; [|cbn; by rewrite (same_entry _ _ Hw4)]. cbn. split; [by apply same_entry|].
    destruct (Hd eq_refl) as [(n & Hn & Hdata & _) Hm]. exists (concat sent).
    split; [|unfold metadata_of; rewrite <-Hm; by destruct m].
    rewrite (same_entry _ _ Hw2), <-(same_entry _ _ Hw1).
    by eapply (stores_node c h Hc Hh); [|apply Hw1|].
  - case_decide as Hk; [|cbn; split; [by apply same_entry|done]].
    assert (Ha : a0 = None) by (unfold a0; rewrite <-(same_entry _ _ Hw1); by eapply absent_file; [apply Hw1| |]).
    apply safe_bind. unfold a0. rewrite <-(same_entry _ _ Hw2).
    apply safe_look; [apply ensure_namespace_quiet|]. intros w3 r w4 _ _ Hw4.
    cbn. rewrite (same_entry _ _ Hw4), (same_entry _ _ Hw2). fold a0. by destruct r.
Qed.

Lemma safe_inspect s w :
  sound_world c w ->
  let a0 := w_fs w !! path in
  safe others (keeps (Inspect s) a0) (inspect_blob_steps c path)
    (fun r w => ends_in_step c h (Inspect s) a0 (RInspect r) w) w.
Proof.
  intros Hw a0. apply safe_bind, safe_look; [intros; by apply symlink_metadata_passes|].
  intros w1 [n|e] w2 Hw1 E Hw2; unfold ends_in_step.
  - apply syscall_ok in E as [E _]. cbn in E. rewrite (same_entry _ _ Hw1) in E. fold a0 in E.
    assert (Hs : w_fs w2 !! path = a0) by by apply same_entry.
    destruct a0; simplify_eq/=. destruct n; cbn; by rewrite Hs.
  - case_decide as Hk; [|cbn; split; [by apply same_entry|done]].
    assert (Ha : a0 = None).
    { unfold a0. rewrite <-(same_entry _ _ Hw1). apply syscall_err in E as [E|E]; [| |apply Hw1].
      - by destruct (honest_error_kind _ E).
      - cbn in E. by destruct (w_fs w1 !! path). }
    apply safe_ensure; [by apply same_entry| |].
    + intros w3 Hw3. cbn. rewrite (same_entry _ _ Hw3), (same_entry _ _ Hw2). fold a0. by rewrite Ha.
    + intros e3 w3 Hw3 _. cbn. by rewrite (same_entry _ _ Hw3), (same_entry _ _ Hw2).
Qed.

(** Every operation ends in a step on its entry, whatever other operations do
    between its calls. *)
Lemma operation_steps_safe fuel o w :
  sound_world c w ->
  let a0 := w_fs w !! path in
  safe others (keeps o a0) (operation_steps fuel c path o) (finishes_in_step c h o a0) w.
Proof.
  intros Hw a0.
  destruct o as [s|[acc|] [ack|] s|p s|n ms s|s|s|s]; cbn [operation_steps]; unfold prog_map;
    try (by intros f o' r [= <-]); apply safe_bind.
  - eapply safe_mono, safe_load, Hw. by intros r w' Hr f o' r' [= <-] [= <- <-].
  - eapply safe_mono, safe_load_stream, Hw. by intros [r sent] w' Hr f o' r' [= <-] [= <- <-].
  - eapply safe_mono, (save_steps_safe fuel c h p s w Hc Hh Hw).
    by intros [[]|r] w' Hr f o' r' [= <-] [= <- <-]; apply Hr.
  - eapply safe_mono, (save_from_receiver_steps_safe fuel c h n ms s w Hc Hh Hw).
    by intros [rest|[r rest]] w' Hr f o' r' [= <-] [= <- <-]; eapply Hr.
  - eapply safe_mono, (clear_steps_safe fuel c h s w Hc Hh Hw).
    by intros [[]|r] w' Hr f o' r' [= <-] [= <- <-]; apply Hr.
  - eapply safe_mono, safe_inspect, Hw. by intros r w' Hr f o' r' [= <-] [= <- <-].
  - eapply safe_mono, (quarantine_steps_safe fuel c h s w Hc Hh Hw).
    by intros [[]|r] w' Hr f o' r' [= <-] [= <- <-]; apply Hr.
Qed.

End Operations.
