(* ===== verification/UnixRefinement.v ===== *)
(** * The Unix backend keeps its promise

    [BackendLaws] for [unix_backend], from what [FilesystemSpec] and
    [MaintenanceSpec] show of each operation. *)
From S2P Require Export Refinement.

Local Open Scope N_scope.
Local Open Scope blob_scope.

Section Unix.
Context {Crc : Crc32c} {CrcL : Crc32cLaws} {Tgt : Target} {Awf : AtomicWriteFile}
  {AwfL : AtomicWriteFileLaws} {Rx : Rustix} {RxL : RustixLaws}.

(** The generic notions on Unix. *)
Lemma unix_key_file c h : key_file c h = blob_file c h.
Proof. done. Qed.

Lemma unix_plain c fs : plain_keys c fs <-> plain_store c fs.
Proof. done. Qed.

(** What a failed clear leaves. *)
Lemma clear_blob_err c path (w : World) e w' :
  honest w -> clear_blob c path w = (Err e, w') ->
  match e with
  | Io OpenNamespaceDirectory _ | Io SyncNamespaceDirectory _ => w_fs w' = delete path (w_fs w)
  | Io RemoveTemporaryFile _ => False
  | _ => w_fs w' = w_fs w
  end.
Proof.
  intros Hh. unfold clear_blob, bind_result.
  destruct (fs_remove_file path w) as [removed w1] eqn:Er. apply fs_remove_file_inv in Er; [|done].
  destruct removed as [[]|e1].
  - destruct Er as [_ Hf]. intros E.
    pose proof (sync_directory_passes (fun fs => fs = w_fs w1) (namespace c) OpenNamespaceDirectory
      SyncNamespaceDirectory w1 eq_refl) as Hs. rewrite E in Hs. apply passes_last in Hs. cbn [snd] in Hs.
    unfold sync_directory, io_op, eff_map_err, bind in E.
    destruct (fs_open _ w1) as [[f|e1] w2]; [|simplify_eq/=; congruence].
    destruct (fs_sync_all _ w2) as [[]]; simplify_eq/=; congruence.
  - destruct Er as [Hf _]. case_decide; [|unfold throw; intros; by simplify_eq].
    intros E. pose proof (ensure_namespace_passes (fun fs => fs = w_fs w1) c w1 eq_refl) as Hs.
    rewrite E in Hs. apply passes_last in Hs. cbn [snd] in Hs. rewrite <-Hf, <-Hs.
    unfold ensure_namespace_available, bind_result in E.
    destruct (fs_metadata _ w1) as [[n|e2] w2]; [destruct (is_dir n)|]; unfold ret, throw in E;
      by simplify_eq/=.
Qed.

Section OneKey.
Context (c : StoreConfig) (h : bytes) (Hc : valid_config c) (Hh : hex_name h).

Abbreviation path := (blob_file c h).

Lemma published_local fs fs' p :
  plain_keys c fs -> published c h p fs fs' -> local_change c h fs fs'.
Proof.
  intros Hp H. split; [by apply (published_plain c h p fs)|]. intros h' Hh' Hne. by apply (published_other c h p).
Qed.

Lemma published_entry fs fs' p :
  published c h p fs fs' -> fs' !! path = fs !! path \/ stores c (fs' !! path) p.
Proof. by intros [_ H]. Qed.

Lemma deleted_local fs : plain_keys c fs -> local_change c h fs (delete path fs).
Proof.
  intros Hp. assert (Hne : forall h', hex_name h' -> h' <> h -> delete path fs !! key_file c h' = fs !! key_file c h').
  { intros h' Hh' Hne. apply lookup_delete_ne. intros E. by apply Hne, (blob_file_inj c). }
  apply agree_local; [done| |by rewrite unix_key_file, lookup_delete_eq|done].
  apply lookup_delete_ne. by apply blob_file_not_namespace.
Qed.

(** A quarantine name is not the namespace. *)
Lemma quarantine_path_not_namespace identifier :
  hex_name identifier -> quarantine_path c h identifier <> namespace c.
Proof. intros Hi. apply path_join_ne_base. by apply quarantine_name_plain. Qed.

Lemma quarantined_local fs fs' q :
  plain_keys c fs -> fresh_quarantine c h q -> quarantined path (diagnostic_path q) fs fs' ->
  local_change c h fs fs' /\ fs !! path <> None /\ fs' !! path = None.
Proof.
  intros Hp [Hi ->] (n & Hn & _ & ->). pose proof (deleted_local fs Hp) as [[Hd Hb] Ho].
  assert (Hne : forall h', hex_name h' -> quarantine_path c h (identifier q) <> key_file c h')
    by (intros; by apply quarantine_path_not_canonical).
  split; [split; [split|]|split].
  - rewrite lookup_insert_ne; [done|]. by apply quarantine_path_not_namespace.
  - intros h' Hh'. rewrite lookup_insert_ne by auto. by apply Hb.
  - intros h' Hh' Hk. rewrite lookup_insert_ne by auto. by apply Ho.
  - by rewrite Hn.
  - rewrite lookup_insert_ne by by apply Hne. apply lookup_delete_eq.
Qed.

Lemma unix_save_refines p s w :
  sound_world c w -> let (r, w') := save_blob c path p w in
  refines c h (Save p s) w (finished (Save p s) (RSave r)) w'.
Proof.
  intros Hw. pose proof (save_blob_run c h p w Hc Hh) as H.
  destruct (save_blob c path p w) as [r w']. destruct H as [Hr Ho].
  pose proof (passes_last _ _ _ Hr) as Hl. cbn beta in Hl.
  apply (refines_passes c _ h _ w _ w' Hw Hr); [eapply published_local; [apply Hw|done]|].
  intros o' r' [= _ <-]. rewrite unix_key_file. destruct r as [[]|e]; cbn.
  - destruct Ho as (q & t & [= <-] & Hm & Ht). split; [by exists t|done].
  - assert (Hor := published_entry _ _ _ Hl).
    destruct e; try (by eapply unpublished_canonical); [|done].
    destruct operation; try (by eapply unpublished_canonical). done.
Qed.

Lemma unix_stream_refines n chunks s w :
  sound_world c w ->
  let '((r, rest), w') := save_blob_from_receiver c path n chunks w in
  refines c h (SaveStream n chunks s) w (finished (SaveStream n rest s) (RSaveStream r)) w'.
Proof.
  intros Hw. pose proof (save_blob_from_receiver_run c h n chunks w Hc Hh) as H.
  destruct (save_blob_from_receiver c path n chunks w) as [[r rest] w'] eqn:E. destruct H as [Hr Ho].
  pose proof (passes_last _ _ _ Hr) as Hl. cbn beta in Hl.
  apply (refines_passes c _ h _ w _ w' Hw Hr).
  { destruct Hl as [Hl|(q & _ & _ & Hl)]; (eapply published_local; [apply Hw|]); [|done].
    by apply (unpublished_published c h []). }
  intros o' r' [= _ <-]. rewrite unix_key_file. destruct r as [[]|e]; cbn.
  - destruct Ho as (q & t & Hq & Hm & Ht). exists q.
    assert (blen q = n) by by eapply save_stream_length.
    split_and!; [done..|by exists t|lia].
  - assert (Hor : w_fs w' !! path = w_fs w !! path \/ exists p, stream_payload chunks = Some p /\
      blen p = n /\ stores c (w_fs w' !! path) p).
    { destruct Hl as [Hl|(q & Hq & Hn & Hl)]; [left; by eapply unpublished_canonical|].
      destruct (published_entry _ _ _ Hl); [by left|right; by exists q]. }
    destruct e; try (by eapply unpublished_canonical); [|done].
    destruct operation; try (by eapply unpublished_canonical). done.
Qed.

Lemma unix_clear_refines s w :
  sound_world c w -> let (r, w') := clear_blob c path w in
  refines c h (Clear s) w (finished (Clear s) (RClear r)) w'.
Proof.
  intros Hw. pose proof (clear_blob_passes (fun fs => fs = w_fs w \/ fs = delete path (w_fs w))
    c path w (or_introl eq_refl) (or_intror eq_refl)) as Hr.
  destruct (clear_blob c path w) as [r w'] eqn:E.
  apply (refines_passes c _ h _ w _ w' Hw Hr).
  { apply passes_last in Hr as [Hf|Hf]; cbn [snd] in Hf; rewrite Hf.
    - by apply same_fs_local; [apply Hw|].
    - apply deleted_local, Hw. }
  intros o' r' [= _ <-]. rewrite unix_key_file. cbn.
  destruct r as [[]|e].
  - apply clear_blob_inv in E as [-> _]; [apply lookup_delete_eq|apply Hw].
  - apply clear_blob_err in E; [|apply Hw].
    destruct e; try (left; by rewrite E).
    destruct operation; try (left; by rewrite E); try done; rewrite E; apply lookup_delete_eq.
Qed.

Lemma unix_quarantine_refines fuel s w r w' :
  sound_world c w -> quarantine_blob fuel c path w = inr (r, w') ->
  refines c h (Quarantine s) w (finished (Quarantine s) (RQuarantine r)) w'.
Proof.
  intros Hw E. rewrite quarantine_blob_loop in E by done.
  pose proof (quarantine_loop_run fuel c h path w w (sound_entropy _ _ Hw) eq_refl) as H.
  rewrite E in H. destruct H as [Hr Ho]. pose proof (passes_last _ _ _ Hr) as Hl. cbn beta in Hl.
  apply (refines_passes c _ h _ w _ w' Hw Hr).
  { destruct Hl as [Hl|(q & Hq & Hl)]; [by apply same_fs_local; [apply Hw|]|].
    eapply quarantined_local; [apply Hw|done..]. }
  intros o' r' [= _ <-]. rewrite unix_key_file.
  assert (Hq : forall q, fresh_quarantine c h q ->
    quarantined path (diagnostic_path q) (w_fs w) (w_fs w') ->
    w_fs w !! path <> None /\ w_fs w' !! path = None)
    by (intros q H1 H2; eapply quarantined_local; [apply Hw|done..]).
  destruct r as [q|e]; cbn in *.
  - destruct Ho as (H1 & H2 & _). by eapply Hq.
  - destruct e; try (by rewrite Ho). destruct Ho as [H1 H2]. by eapply Hq.
Qed.

End OneKey.

#[export] Instance unix_backend_laws : BackendLaws (Bk := unix_backend).
Proof.
  refine {| backend_fit := valid_config |}.
  - by intros c [? _].
  - intros fuel c h p s w r w' Hc Hh Hw E. pose proof (unix_save_refines c h Hc Hh p s w Hw) as H.
    by replace (save_blob c (blob_file c h) p w) with (r, w') in H by (by injection E).
  - intros fuel c h n chunks s w r rest w' Hc Hh Hw E.
    pose proof (unix_stream_refines c h Hc Hh n chunks s w Hw) as H.
    by replace (save_blob_from_receiver c (blob_file c h) n chunks w) with ((r, rest), w') in H
      by (by injection E).
  - intros fuel c h s w r w' Hc Hh Hw E. pose proof (unix_clear_refines c h Hc Hh s w Hw) as H.
    by replace (clear_blob c (blob_file c h) w) with (r, w') in H by (by injection E).
  - intros fuel c h s w r w' Hc Hh Hw E. exact (unix_quarantine_refines c h Hc Hh fuel s w r w' Hw E).
  - intros c age w r w' _ Hw E. cbn in E. unfold cleanup_stale_files, throw, ret in E. simplify_eq.
    apply passes_refl, same_entries_refl, Hw.
  - intros root component f max n c w w' [_ [Hns _] _] E. apply initialize_platform_inv in E as [Hpass Hc].
    destruct (Hc c eq_refl) as (root' & Hroot & En & _). eapply passes_mono, Hpass.
    intros fs Hfs. destruct (Hfs root' Hroot) as [->|[Hno _]]; [done|].
    replace (path_join root' component) with (namespace c) in Hno by by rewrite En. by rewrite Hns in Hno.
Defined.

(** Every operation refines a step on its key.  Whatever failures the
    environment injects, an operation run on a plain store answers what the
    abstract store allows for the entry of its key, leaves the entries of the
    other keys alone, and keeps the store fit for the next operation. *)
Theorem operations_refine_the_map (c : StoreConfig) fuel h o w fin w' :
  valid_config c -> hex_name h -> fits_usize (maximum c) -> sound_world c w ->
  run_owned_operation fuel c (blob_file c h) o w = inr (fin, w') ->
  sound_world c w' /\
  (forall o' r, fin_outcome fin = Some (o', r) ->
     abstract_step c o r (w_fs w !! blob_file c h) (w_fs w' !! blob_file c h)) /\
  forall h', hex_name h' -> h' <> h -> w_fs w' !! blob_file c h' = w_fs w !! blob_file c h'.
Proof.
  intros Hc Hh Hf Hw E. by destruct (run_refines (BkL := unix_backend_laws) c h Hc Hh Hf fuel o w fin w' Hw E) as (H1 & [_ H2] & H3).
Qed.

End Unix.

(** ** Witnesses *)

Lemma full_store_sound : sound_world fixture_config (fixture_world full_store []).
Proof. split; [done|apply full_store_plain|apply fixture_entropy]. Defined.

Definition run_outcome (x : World + (Finished * World)) : option (Operation * BlockingResult) :=
  match x with inr (fin, _) => fin_outcome fin | inl _ => None end.

Lemma operations_refine_the_map_witness :
  let w := fixture_world full_store [] in
  match run_owned_operation 1 fixture_config (blob_file fixture_config zero_hex) (Save (bstr "xyz") 7) w with
  | inl _ => False
  | inr (fin, w') => fin_outcome fin = Some (Save (bstr "xyz") 7, RSave (Ok tt)) /\
      stores fixture_config (w_fs w' !! blob_file fixture_config zero_hex) (bstr "xyz")
  end.
Proof.
  cbv zeta. assert (Hf : run_outcome (run_owned_operation 1 fixture_config
    (blob_file fixture_config zero_hex) (Save (bstr "xyz") 7) (fixture_world full_store []))
    = Some (Save (bstr "xyz") 7, RSave (Ok tt))) by by vm_compute.
  destruct (run_owned_operation _ _ _ _ _) as [w'|[fin w']] eqn:E; [done|]. cbn [run_outcome] in Hf.
  split; [exact Hf|]. apply operations_refine_the_map in E as (_ & Ha & _);
    [by apply (Ha _ _ Hf)|apply fixture_valid_config|apply zero_hex_name|by vm_compute
    |apply full_store_sound].
Defined.

(** Two operations on two keys. *)
Lemma histories_refine_the_map_witness :
  exists t w', length t = 2%nat /\
    abstract_runs fixture_config (view fixture_config (fixture_world full_store [])) t
      (view fixture_config w').
Proof.
  set (w := fixture_world full_store []).
  destruct (run_owned_operation 1 fixture_config (blob_file fixture_config one_hex)
    (Save (bstr "xyz") 7) w) as [w1|[fin1 w1]] eqn:E1; [by cbn in E1|].
  destruct (run_owned_operation 1 fixture_config (blob_file fixture_config zero_hex)
    (Load 8) w1) as [w2|[fin2 w2]] eqn:E2.
  { exfalso. cbn in E2. by destruct (load_blob _ _ w1). }
  exists [(one_hex, Save (bstr "xyz") 7, fin1); (zero_hex, Load 8, fin2)], w2. split; [done|].
  apply (histories_refine_the_map fixture_config 1);
    [apply fixture_valid_config|by vm_compute|apply full_store_sound|].
  econstructor; [decided|exact E1|]. econstructor; [apply zero_hex_name|exact E2|constructor].
Defined.
