(* ===== verification/UnixInterference.v ===== *)
(** * The Unix backend among other operations

    [BackendInterference] for [unix_backend]: between any two calls of an
    operation other operations may change the files of their keys and any
    temporary name, and still the operation ends in a step of the abstract store
    on its own entry.  The file of a key is all that belongs to it. *)
From S2P Require Export Interference UnixRefinement.

Local Open Scope N_scope.
Local Open Scope blob_scope.

Section Unix.
Context {Crc : Crc32c} {CrcL : Crc32cLaws} {Tgt : Target} {Awf : AtomicWriteFile}
  {AwfL : AtomicWriteFileLaws} {Rx : Rustix} {RxL : RustixLaws}.

(** The file of a key is its own. *)
Definition unix_own (c : StoreConfig) (h : bytes) (p : Path) : Prop := p = blob_file c h.

Section OneKey.
Context (c : StoreConfig) (h : bytes) (Hc : valid_config c) (Hh : hex_name h).

Abbreviation path := (blob_file c h).
Abbreviation others := (others_act c (unix_own c) h).
Abbreviation keeps := (keeps_to_itself c (unix_own c) h).

Abbreviation shows := (shows c h).

Lemma local_own fs fs' : local_change c h fs fs' -> own_change c (unix_own c) h fs fs'.
Proof. intros [Hp Ho]. split; [done|]. intros h' p Hh' Hne ->. by apply Ho. Qed.

Lemma local_keeps o a0 (w1 w2 : World) :
  passes (fun fs => local_change c h (w_fs w1) fs /\ moment c o a0 (fs !! path)) w1 w2 -> keeps o a0 w1 w2.
Proof. apply passes_mono. intros fs [Hl Hm]. split; [by apply local_own|done]. Qed.

(** *** Saving *)

(** A call of the writer that publishes nothing. *)
Lemma unpublished_change o a (w1 w2 : World) :
  shows a w1 -> passes (unpublished c h (w_fs w1)) w1 w2 ->
  keeps o a w1 w2 /\ w_fs w2 !! path = a.
Proof.
  intros [Hw Ha] Hp.
  assert (He : forall fs, unpublished c h (w_fs w1) fs -> fs !! path = a).
  { intros fs Hu. by rewrite (unpublished_canonical c h _ _ Hc Hh Hu h Hh). }
  split; [|apply He, (passes_last _ _ _ Hp)].
  apply local_keeps. eapply passes_mono, Hp. intros fs Hu. split.
  - apply (published_local c h Hc Hh _ _ []); [apply Hw|]. by apply unpublished_published.
  - rewrite (He _ Hu). apply moment_refl.
Qed.

Lemma safe_open o op a (Q : _ -> World -> Prop) w :
  shows a w ->
  (forall f w2, shows a w2 -> wr_data f = [] -> Q (Ok f) w2) ->
  (forall e w2, shows a w2 -> Q (Err (Io op e)) w2) ->
  safe others (keeps o a) (do_call (io_op op (awf_open atomic_options path))) Q w.
Proof.
  intros Hs Hok Herr. eapply safe_change; [done|exact Hs|]. intros w1 Hs1. unfold io_op, eff_map_err.
  pose proof (open_unpublished c h atomic_options w1) as Hu.
  destruct (awf_open _ _ w1) as [r w2] eqn:E. destruct (unpublished_change o a w1 w2 Hs1 Hu) as [Hp Ha].
  split; [done|]. intros Hw2. destruct r as [f|e]; cbn; [|by apply Herr].
  apply Hok; [done|]. by eapply awf_open_empty.
Qed.

Lemma safe_drop {B} o a (r : B) f (Q : B -> World -> Prop) w :
  shows a w -> (forall w2, shows a w2 -> Q r w2) ->
  safe others (keeps o a) (do_call (fun w => (r, awf_drop path f w))) Q w.
Proof.
  intros Hs HQ. eapply safe_change; [done|exact Hs|]. intros w1 Hs1.
  destruct (unpublished_change o a w1 (awf_drop path f w1) Hs1 (awf_drop_passes path f w1)) as [Hp Ha].
  split; [done|]. intros Hw2. by apply HQ.
Qed.

Lemma safe_commit o a p f (Q : _ -> World -> Prop) w :
  shows a w -> wr_data f = envelope (format c) p ->
  moment c o a a -> (forall a', stores c a' p -> moment c o a a') ->
  (forall w2, stores c (w_fs w2 !! path) p -> Q (Ok tt) w2) ->
  (forall e w2, w_fs w2 !! path = a \/ stores c (w_fs w2 !! path) p -> Q (Err (AtomicCommit e)) w2) ->
  safe others (keeps o a) (do_call (eff_map_err AtomicCommit (awf_commit path f))) Q w.
Proof.
  intros Hs Hd Hm0 Hm Hok Herr. eapply safe_change; [done|exact Hs|]. intros w1 [Hw1 Ha]. unfold eff_map_err.
  pose proof (awf_commit_passes path f w1) as Hp. pose proof (awf_commit_ok path f w1) as Hk.
  rewrite Hd in Hp, Hk.
  assert (He : forall fs, published c h p (w_fs w1) fs -> fs !! path = a \/ stores c (fs !! path) p).
  { intros fs Hpub. rewrite <-Ha. by apply (published_entry c h). }
  destruct (awf_commit path f w1) as [[[]|e] w2]; cbn [snd map_err] in *.
  all: pose proof (He _ (passes_last _ _ _ Hp)) as Hl.
  all: split; [apply local_keeps; eapply passes_mono, Hp; intros fs Hpub; split;
    [apply (published_local c h Hc Hh _ _ p); [apply Hw1|done]|destruct (He _ Hpub) as [->|]; auto]|].
  - intros _. apply Hok. by apply Hk.
  - intros _. by apply Herr.
Qed.

Lemma unix_save_safe p s w :
  sound_world c w ->
  let a0 := w_fs w !! path in
  safe others (keeps (Save p s) a0) (save_blob_steps c path p)
    (fun r w => ends_in_step c h (Save p s) a0 (RSave r) w) w.
Proof.
  intros Hw a0. assert (Hs : shows a0 w) by done. unfold save_blob_steps.
  destruct (envelope_parts _ _ _) as [[header checksum]|e] eqn:Ep; [|by apply save_failed].
  apply safe_try, safe_open; [done| |intros e w1 [_ H1]; by apply save_failed].
  intros f w1 Hs1 Hf. destruct (write_sections _ f) as [[[]|e] f'] eqn:Ew.
  2:{ apply safe_drop with (a := a0); [done|]. intros w2 [_ H2]. by apply save_failed. }
  assert (He : encode_envelope (format c) p (maximum c) = Ok (header ++ p ++ checksum))
    by (unfold encode_envelope; by rewrite Ep).
  apply encode_envelope_ok in He as (He & Hmax & _). apply write_sections_ok in Ew.
  cbn [concat] in Ew. rewrite Hf, app_nil_r, app_nil_l, He in Ew.
  apply (safe_commit _ _ p); [done|done|by left|by right| |].
  - intros w2 H2. by split.
  - intros e w2 H2. exact H2.
Qed.

Lemma unix_stream_safe n chunks s w :
  sound_world c w ->
  let a0 := w_fs w !! path in
  let o := SaveStream n chunks s in
  safe others (keeps o a0) (save_blob_from_receiver_steps c path n chunks)
    (fun '(r, _) w => ends_in_step c h o a0 (RSaveStream r) w) w.
Proof.
  intros Hw a0 o. assert (Hs : shows a0 w) by done. unfold save_blob_from_receiver_steps.
  destruct (envelope_header _ _ _) as [header|e]; [|by apply save_stream_failed].
  apply safe_bind, safe_open; [done| |intros e w1 [_ H1]; by apply save_stream_failed].
  intros f w1 Hs1 Hf. destruct (write_stream_envelope _ _ _) as [[[]|e] [f' rest]] eqn:Ew.
  2:{ apply safe_drop with (a := a0); [done|]. intros w2 [_ H2]. by apply save_stream_failed. }
  apply write_stream_envelope_ok in Ew as (cs & Ecs & Hl & Hm & Hd). rewrite Hf, app_nil_l in Hd.
  assert (Hpay : stream_payload chunks = Some (concat cs)) by (rewrite Ecs; apply stream_payload_chunks).
  apply safe_bind. apply (safe_commit _ _ (concat cs)); [done|done|by left| | |].
  - intros a' Ha'. right. by exists (concat cs).
  - intros w2 H2. exists (concat cs). split_and!; [done..|lia].
  - intros e w2 [H2|H2]; [by left|right; by exists (concat cs)].
Qed.

(** *** Clearing *)

Lemma unix_clear_safe s w :
  sound_world c w ->
  let a0 := w_fs w !! path in
  safe others (keeps (Clear s) a0) (clear_blob_steps c path)
    (fun r w => ends_in_step c h (Clear s) a0 (RClear r) w) w.
Proof.
  intros Hw a0. assert (Hs : shows a0 w) by done.
  assert (Hid : same_content a0 a0) by by left.
  apply safe_bind. eapply safe_change; [done|exact Hs|]. intros w1 [Hw1 Ha1].
  pose proof (remove_file_passes (fun fs => fs = w_fs w1 \/ fs = delete path (w_fs w1)) path w1
    (or_introl eq_refl) (or_intror eq_refl)) as Hp.
  destruct (fs_remove_file path w1) as [r w2] eqn:Er. cbn [snd] in Hp.
  apply fs_remove_file_inv in Er; [|apply Hw1]. split.
  { apply local_keeps. eapply passes_mono, Hp. intros fs [->| ->].
    - split; [by apply same_fs_local; [apply Hw1|]|]. left. left. exact Ha1.
    - split; [apply (deleted_local c h Hc Hh), Hw1|]. right. apply lookup_delete_eq. }
  intros Hw2. destruct r as [[]|e].
  - destruct Er as [_ Ef]. assert (Hs2 : shows None w2) by (split; [done|rewrite Ef; apply lookup_delete_eq]).
    unfold sync_directory_steps. apply safe_try. eapply safe_calm; [done|exact Hs2|by right| |].
    { intros. by apply map_err_passes, open_passes. }
    intros w3 [f|e] w4 _ E Hs4; unfold io_op, eff_map_err in E.
    2:{ destruct (fs_open _ w3) as [[]]; simplify_eq/=. by destruct Hs4. }
    eapply safe_calm; [done|exact Hs4|by right|intros; by apply map_err_passes, sync_all_passes|].
    intros w5 r w6 _ E6 [_ H6]; unfold io_op, eff_map_err in E6.
    destruct (fs_sync_all _ w5) as [[[]|]]; by simplify_eq/=.
  - destruct Er as [Ef Hk]. assert (Hs2 : shows a0 w2) by (split; [done|by rewrite Ef]).
    case_decide as Hd; [|left; by destruct Hs2].
    eapply safe_calm; [done|exact Hs2|by left|apply ensure_namespace_quiet|].
    intros w3 [[]|e3] w4 _ E [_ H4]; unfold ends_in_step; rewrite H4.
    + cbn. rewrite unix_key_file in Ha1. by rewrite <-Ha1, (Hk Hd).
    + by apply ensure_namespace_errors in E as [->|[src ->]]; left.
Qed.

(** *** Quarantining *)

(** Syncing the namespace after the move. *)
Lemma safe_quarantine_sync q s a0 w :
  shows None w -> a0 <> None ->
  safe others (keeps (Quarantine s) a0) (step? _ <- sync_quarantine_steps c q; Done (Ok q))
    (fun r w => ends_in_step c h (Quarantine s) a0 (RQuarantine r) w) w.
Proof.
  intros Hs Ha. apply safe_try. unfold sync_quarantine_steps. apply safe_try.
  eapply safe_calm; [done|exact Hs|by right|intros; by apply map_err_passes, open_passes|].
  intros w1 [f|e] w2 _ E Hs2; unfold eff_map_err in E.
  2:{ destruct (fs_open _ w1) as [[]]; simplify_eq/=. by destruct Hs2. }
  eapply safe_calm; [done|exact Hs2|by right|intros; by apply map_err_passes, sync_all_passes|].
  intros w3 [[]|e] w4 _ E3 Hs4; unfold eff_map_err in E3;
    destruct (fs_sync_all _ w3) as [[[]|]]; simplify_eq/=; by destruct Hs4.
Qed.

Lemma unix_quarantine_turn_safe s a0 w :
  shows a0 w ->
  safe others (keeps (Quarantine s) a0) (quarantine_turn_steps c path h)
    (fun x w => match x with
                | inl _ => shows a0 w
                | inr r => ends_in_step c h (Quarantine s) a0 (RQuarantine r) w
                end) w.
Proof.
  intros Hs. apply safe_bind. eapply safe_calm; [done|exact Hs|by left|apply random_identifier_quiet|].
  intros w1 drawn w2 [Hw1 _] Er Hs2. apply random_identifier_inv in Er as (_ & _ & Hr); [|apply Hw1].
  destruct drawn as [i|e].
  2:{ destruct Hr as (code & _ & ->). by apply quarantine_failed; [apply Hs2|]. }
  destruct Hr as [Hi _]. fold (quarantine_path c h i).
  apply safe_bind. eapply safe_change; [done|exact Hs2|]. intros w3 [Hw3 Ha3].
  pose proof (rename_noreplace_spec path (quarantine_path c h i) w3) as Hn.
  destruct (rename_noreplace _ _ w3) as [[[]|code] w4].
  - destruct Hn as (n & Hn & Hd & Ef & Hp4).
    set (q := {| identifier := i; diagnostic_path := quarantine_path c h i |}).
    assert (Hq : quarantined path (diagnostic_path q) (w_fs w3) (w_fs w4)) by by exists n.
    destruct (quarantined_local c h Hc Hh (w_fs w3) (w_fs w4) q) as (Hl & Hne & Hgone); [apply Hw3|done|done|].
    split.
    + apply local_keeps. eapply passes_mono, Hp4. rewrite <-Ef. intros fs [->| ->].
      * split; [by apply same_fs_local; [apply Hw3|]|]. by left.
      * split; [done|]. by right.
    + intros Hw4. apply safe_bind. eapply safe_mono, safe_quarantine_sync; [done|by split|by rewrite <-Ha3].
  - destruct Hn as [Hp4 _]. assert (Hs4 : shows a0 w4) by (eapply shows_unchanged; [by split|exact Hp4]).
    split.
    { apply local_keeps. eapply passes_mono, Hp4. intros fs ->. split; [by apply same_fs_local; [apply Hw3|]|]. by left. }
    intros _. case_decide; [|case_decide; [done|by apply quarantine_failed; [apply Hs4|]]].
    apply safe_bind, safe_try. eapply safe_calm; [done|exact Hs4|by left|apply ensure_namespace_quiet|].
    intros w5 [[]|e5] w6 _ E [_ H6]; (apply quarantine_failed; [exact H6|]); [done|].
    by apply ensure_namespace_errors in E as [->|[src ->]].
Qed.

Lemma unix_quarantine_safe fuel s w :
  sound_world c w ->
  let a0 := w_fs w !! path in
  safe others (keeps (Quarantine s) a0) (quarantine_blob_steps fuel c path)
    (fun x w => forall r, x = inr r -> ends_in_step c h (Quarantine s) a0 (RQuarantine r) w) w.
Proof.
  intros Hw a0. unfold quarantine_blob_steps. rewrite blob_stem by done.
  apply (safe_loop _ _ (fun _ => shows a0)); [done| |done]. intros _ w1 Hs.
  eapply safe_mono, unix_quarantine_turn_safe, Hs. by intros [[]|r] w2 H; [|intros r' [= <-]].
Qed.

End OneKey.

#[export] Instance unix_interference : BackendInterference (Bk := unix_backend).
Proof.
  refine {| own := unix_own |}; [done|..]; intros; cbn [save_steps save_from_receiver_steps clear_steps
    quarantine_steps unix_steps]; [| | |by apply unix_quarantine_safe].
  all: apply safe_bind.
  - eapply safe_mono, unix_save_safe; [|done..]. by intros r w1 Hr r' [= <-].
  - eapply safe_mono, unix_stream_safe; [|done..]. by intros [r rest] w1 Hr r' rest' [= <- <-].
  - eapply safe_mono, unix_clear_safe; [|done..]. by intros r w1 Hr r' [= <-].
Defined.

End Unix.
