(* ===== verification/Workers.v ===== *)
(** * The worker pool ([src/src/engine/workers.rs])

    The threads that run jobs, and the unbounded channel that feeds them.  What
    the operating system answers to the next [spawn]s, and whether a thread will
    have panicked when it is joined, belong to the environment. *)
From S2P Require Export Errors.

Local Open Scope blob_scope.

Section Pool.
Context {WorkerJob : Type}.

Record WorkerPool := {
  pool_sender : bool;               (* [sender.is_some()] *)
  channel : list WorkerJob;         (* jobs sent and not finished *)
  handles : list bool;              (* the threads; [true]: its join is an error *)
  capacity : nat;
  spawns : list (option bool);      (* the next spawns; [None]: refused *)
}.

Definition WorkerPool_new (capacity : nat) (spawns : list (option bool)) : WorkerPool :=
  {| pool_sender := true; channel := []; handles := []; capacity := capacity; spawns := spawns |}.

(** [std::thread::Builder::spawn]; past the end of the plan it succeeds. *)
Definition spawn : eff WorkerPool AtomicBlobStoreError bool := fun p =>
  match spawns p with
  | None :: rest =>
      (Err WorkerUnavailable,
       {| pool_sender := pool_sender p; channel := channel p; handles := handles p;
          capacity := capacity p; spawns := rest |})
  | plan =>
      (Ok (default false (head plan ≫= id)),
       {| pool_sender := pool_sender p; channel := channel p; handles := handles p;
          capacity := capacity p; spawns := tail plan |})
  end.

Definition push_handle (handle : bool) (p : WorkerPool) : WorkerPool :=
  {| pool_sender := pool_sender p; channel := channel p; handles := handles p ++ [handle];
     capacity := capacity p; spawns := spawns p |}.

(** The [while] of [prepare], which adds one thread per turn. *)
Fixpoint prepare_loop (missing : nat) : eff WorkerPool AtomicBlobStoreError unit :=
  match missing with
  | O => ret tt
  | S missing' =>
      do? handle <- spawn;
      fun p => prepare_loop missing' (push_handle handle p)
  end.

Definition prepare (required_workers : nat) : eff WorkerPool AtomicBlobStoreError unit := fun p =>
  prepare_loop (Nat.min required_workers (capacity p) - length (handles p)) p.

(** The pool holds a receiver, so that a send fails only without the sender. *)
Definition execute (job : WorkerJob) : eff WorkerPool AtomicBlobStoreError unit := fun p =>
  if pool_sender p then
    (Ok tt, {| pool_sender := true; channel := channel p ++ [job]; handles := handles p;
               capacity := capacity p; spawns := spawns p |})
  else (Err WorkerUnavailable, p).

Definition prepare_dispatch : eff WorkerPool AtomicBlobStoreError unit := ret tt.

Definition shutdown : eff WorkerPool AtomicBlobStoreError unit := fun p =>
  (if existsb id (handles p) then Err ShutdownFailure else Ok tt,
   {| pool_sender := false; channel := channel p; handles := [];
      capacity := capacity p; spawns := spawns p |}).

(** A thread finished the job at position [i]. *)
Definition finish_job (i : nat) (p : WorkerPool) : WorkerPool :=
  {| pool_sender := pool_sender p; channel := delete i (channel p); handles := handles p;
     capacity := capacity p; spawns := spawns p |}.

(** ** Lemmas *)

(** What [prepare] keeps. *)
Record prepared (p p' : WorkerPool) : Prop := {
  prepared_sender : pool_sender p' = pool_sender p;
  prepared_channel : channel p' = channel p;
  prepared_capacity : capacity p' = capacity p;
  prepared_handles : length (handles p) <= length (handles p');
}.

Lemma length_push b p : length (handles (push_handle b p)) = S (length (handles p)).
Proof. cbn. rewrite length_app. cbn. lia. Qed.

Lemma prepare_loop_spec missing p :
  let (r, p') := prepare_loop missing p in
  prepared p p' /\ length (handles p') <= length (handles p) + missing /\
  (r = Ok tt -> length (handles p') = length (handles p) + missing) /\
  (forall e, r = Err e -> e = WorkerUnavailable).
Proof.
  revert p; induction missing as [|n IH]; intros p; cbn [prepare_loop].
  - cbn. split_and!; [by split|lia|lia|done].
  - unfold bind, spawn. destruct (spawns p) as [|[b|] rest]; cbn [default].
    2:{ specialize (IH (push_handle b {| pool_sender := pool_sender p; channel := channel p;
          handles := handles p; capacity := capacity p; spawns := rest |})).
        cbn [tail head mbind option_bind default id]. destruct (prepare_loop n _) as [r p'].
        destruct IH as ([H1 H2 H3 H4] & H5 & H6 & H7). rewrite length_push in H4, H5, H6. cbn in *.
        split_and!; [split; cbn; (done || lia)|lia|intros E; apply H6 in E; lia|done]. }
    + specialize (IH (push_handle false {| pool_sender := pool_sender p; channel := channel p;
        handles := handles p; capacity := capacity p; spawns := [] |})).
      cbn [tail head mbind option_bind default id]. destruct (prepare_loop n _) as [r p'].
      destruct IH as ([H1 H2 H3 H4] & H5 & H6 & H7). rewrite length_push in H4, H5, H6. cbn in *.
      split_and!; [split; cbn; (done || lia)|lia|intros E; apply H6 in E; lia|done].
    + cbn. split_and!; [by split|lia|done|by intros e [= <-]].
Qed.

(** [prepare] answers [Ok] with as many threads as it was asked for, up to the
    capacity, and never starts more than the capacity. *)
Lemma prepare_spec required p :
  let (r, p') := prepare required p in
  prepared p p' /\
  (length (handles p) <= capacity p -> length (handles p') <= capacity p) /\
  (r = Ok tt -> Nat.min required (capacity p) <= length (handles p')) /\
  (forall e, r = Err e -> e = WorkerUnavailable).
Proof.
  unfold prepare.
  pose proof (prepare_loop_spec (Nat.min required (capacity p) - length (handles p)) p) as H.
  destruct (prepare_loop _ p) as [r p']. destruct H as (H1 & H2 & H3 & H4).
  split_and!; [done|lia| |done]. intros E. apply H3 in E. lia.
Qed.

End Pool.

Arguments WorkerPool : clear implicits.
