(* ===== verification/Scheduler.v ===== *)
(** * The coordinator ([src/src/engine/scheduler.rs], [event.rs], [lifecycle.rs])

    The state of the coordinator thread and its handlers, one event at a time.
    The channel of events ([receiver]), the lifecycle behind its mutex and the
    channels of the callers ([sent]) are part of the state.  Every completion
    sender is a clone of the sender of [receiver], so it is left out of the
    submissions.  The iteration order of [HashMap] is a parameter. *)
From S2P Require Export Operation Workers.
From stdpp Require Export gmap.

Local Open Scope N_scope.
Local Open Scope blob_scope.

Abbreviation KeyHash := (list Byte.byte) (only parsing).

Inductive Lifecycle := Open | Closing | Closed | ShutdownFailed | Failed.

#[export] Instance lifecycle_eq_dec : EqDecision Lifecycle.
Proof. solve_decision. Defined.

Record Submission := {
  sub_key_hash : KeyHash;
  sub_operation : Operation;
}.

Record Completion := {
  comp_key_hash : KeyHash;
  comp_outcome : option (Operation * BlockingResult);
}.

Record MaintenanceSubmission := {
  maint_minimum_age : option Duration;
  maint_sender : Channel;
}.

Abbreviation MaintenanceOutcome := (Channel * result CleanupReport AtomicBlobStoreError)%type.

Inductive CoordinatorEvent :=
| EvSubmission (submission : Submission)
| EvCompletion (completion : Completion)
| EvMaintenance (submission : MaintenanceSubmission)
| EvMaintenanceCompletion (outcome : option MaintenanceOutcome)
| EvFlush (sender : Channel)
| EvClose (sender : Channel).

Inductive PendingEvent :=
| PeSubmission (submission : Submission)
| PeMaintenance (submission : MaintenanceSubmission)
| PeFlush (sender : Channel)
| PeClose (sender : Channel).

(** What the closures handed to the pool capture. *)
Inductive WorkerJob :=
| OperationJob (key_hash : KeyHash) (operation : Operation)
| MaintenanceJob (submission : MaintenanceSubmission).

(** The iteration order of the registry at its [turn]-th iteration. *)
Class HashMapOrder := {
  hash_iter : nat -> gmap KeyHash (list Operation) -> list (KeyHash * list Operation);
}.

Class HashMapOrderLaws {H : HashMapOrder} : Prop := {
  hash_iter_perm turn m : Permutation (hash_iter turn m) (map_to_list m);
}.

Record Scheduler := {
  queues : gmap KeyHash (list Operation);
  active : gset KeyHash;
  pending : list PendingEvent;
  maintenance_active : bool;
  worker_pool : WorkerPool WorkerJob;
  lifecycle : Lifecycle;
  receiver : list CoordinatorEvent;        (* the channel, oldest first *)
  sent : list (Channel * Reply);           (* the answers so far, oldest first *)
  taken : list (KeyHash * Operation);      (* the operations taken off the queues, oldest first *)
  turn : nat;                              (* iterations of the registry so far *)
}.

Definition set_queues q (s : Scheduler) : Scheduler :=
  {| queues := q; active := active s; pending := pending s;
     maintenance_active := maintenance_active s; worker_pool := worker_pool s;
     lifecycle := lifecycle s; receiver := receiver s; sent := sent s; taken := taken s;
     turn := turn s |}.
Definition set_active a (s : Scheduler) : Scheduler :=
  {| queues := queues s; active := a; pending := pending s;
     maintenance_active := maintenance_active s; worker_pool := worker_pool s;
     lifecycle := lifecycle s; receiver := receiver s; sent := sent s; taken := taken s;
     turn := turn s |}.
Definition set_pending p (s : Scheduler) : Scheduler :=
  {| queues := queues s; active := active s; pending := p;
     maintenance_active := maintenance_active s; worker_pool := worker_pool s;
     lifecycle := lifecycle s; receiver := receiver s; sent := sent s; taken := taken s;
     turn := turn s |}.
Definition set_maintenance b (s : Scheduler) : Scheduler :=
  {| queues := queues s; active := active s; pending := pending s;
     maintenance_active := b; worker_pool := worker_pool s;
     lifecycle := lifecycle s; receiver := receiver s; sent := sent s; taken := taken s;
     turn := turn s |}.
Definition set_pool p (s : Scheduler) : Scheduler :=
  {| queues := queues s; active := active s; pending := pending s;
     maintenance_active := maintenance_active s; worker_pool := p;
     lifecycle := lifecycle s; receiver := receiver s; sent := sent s; taken := taken s;
     turn := turn s |}.
Definition set_lifecycle l (s : Scheduler) : Scheduler :=
  {| queues := queues s; active := active s; pending := pending s;
     maintenance_active := maintenance_active s; worker_pool := worker_pool s;
     lifecycle := l; receiver := receiver s; sent := sent s; taken := taken s;
     turn := turn s |}.
Definition set_receiver r (s : Scheduler) : Scheduler :=
  {| queues := queues s; active := active s; pending := pending s;
     maintenance_active := maintenance_active s; worker_pool := worker_pool s;
     lifecycle := lifecycle s; receiver := r; sent := sent s; taken := taken s;
     turn := turn s |}.
Definition set_sent l (s : Scheduler) : Scheduler :=
  {| queues := queues s; active := active s; pending := pending s;
     maintenance_active := maintenance_active s; worker_pool := worker_pool s;
     lifecycle := lifecycle s; receiver := receiver s; sent := l; taken := taken s;
     turn := turn s |}.
Definition set_taken l (s : Scheduler) : Scheduler :=
  {| queues := queues s; active := active s; pending := pending s;
     maintenance_active := maintenance_active s; worker_pool := worker_pool s;
     lifecycle := lifecycle s; receiver := receiver s; sent := sent s; taken := l;
     turn := turn s |}.
Definition next_turn (s : Scheduler) : Scheduler :=
  {| queues := queues s; active := active s; pending := pending s;
     maintenance_active := maintenance_active s; worker_pool := worker_pool s;
     lifecycle := lifecycle s; receiver := receiver s; sent := sent s; taken := taken s;
     turn := S (turn s) |}.

(** [sender.send(...)] on a caller's channel; a caller that left is ignored. *)
Definition send (answer : Channel * Reply) (s : Scheduler) : Scheduler :=
  set_sent (sent s ++ [answer]) s.

(** [completion_sender.send(...)]: the coordinator's own channel. *)
Definition post (event : CoordinatorEvent) (s : Scheduler) : Scheduler :=
  set_receiver (receiver s ++ [event]) s.

Definition push_pending (event : PendingEvent) (s : Scheduler) : Scheduler :=
  set_pending (pending s ++ [event]) s.

(** Runs an operation of the pool. *)
Definition on_pool {A} (op : eff (WorkerPool WorkerJob) AtomicBlobStoreError A) (s : Scheduler)
    : result A AtomicBlobStoreError * Scheduler :=
  let (r, p) := op (worker_pool s) in (r, set_pool p s).

Definition is_nil {A} (l : list A) : bool := match l with [] => true | _ => false end.

Section Handlers.
Context {Order : HashMapOrder}.
Context (config : StoreConfig).

(** ** Dispatching *)

(** [queues.entry(key_hash).or_default().push_back(operation)]. *)
Definition enqueue (key_hash : KeyHash) (operation : Operation) (s : Scheduler) : Scheduler :=
  set_queues (<[key_hash := default [] (queues s !! key_hash) ++ [operation]]> (queues s)) s.

(** [if queues.get(&key_hash).is_some_and(VecDeque::is_empty) { queues.remove(&key_hash); }]. *)
Definition remove_if_empty (key_hash : KeyHash) (s : Scheduler) : Scheduler :=
  match queues s !! key_hash with
  | Some [] => set_queues (delete key_hash (queues s)) s
  | _ => s
  end.

Definition at_capacity (s : Scheduler) : bool :=
  config_max_concurrent_operations config <=? N.of_nat (size (active s)).

Definition dispatch_if_idle (key_hash : KeyHash) (s : Scheduler) : Scheduler :=
  if bool_decide (key_hash ∈ active s) || at_capacity s then s
  else match queues s !! key_hash with
       | Some (operation :: rest) =>
           let s := set_taken (taken s ++ [(key_hash, operation)])
                      (set_queues (<[key_hash := rest]> (queues s)) s) in
           match on_pool (prepare (size (active s) + 1)) s with
           | (Err error, s) => remove_if_empty key_hash (send (deliver_error operation error) s)
           | (Ok _, s) =>
               match on_pool prepare_dispatch s with
               | (Err error, s) => remove_if_empty key_hash (send (deliver_error operation error) s)
               | (Ok _, s) =>
                   let s := set_active ({[key_hash]} ∪ active s) s in
                   match on_pool (execute (OperationJob key_hash operation)) s with
                   | (Ok _, s) => s
                   | (Err _, s) =>
                       post (EvCompletion {| comp_key_hash := key_hash; comp_outcome := None |}) s
                   end
               end
           end
       | _ => s
       end.

(** The first key, in iteration order, with a queued operation and none active. *)
Definition find_available (s : Scheduler) : option KeyHash :=
  fst <$> head (filter (fun kq => negb (is_nil (snd kq)) && bool_decide (fst kq ∉ active s))
    (hash_iter (turn s) (queues s))).

Definition available_step (s : Scheduler) : Scheduler + Scheduler :=
  if at_capacity s then inr s
  else match find_available s with
       | None => inr s
       | Some key_hash => inl (dispatch_if_idle key_hash (next_turn s))
       end.

(** The operations that wait in the queues. *)
Definition queued (s : Scheduler) : list Operation := concat (map snd (map_to_list (queues s))).

(** Every turn takes one operation off the queues. *)
Definition dispatch_available (s : Scheduler) : Scheduler :=
  run_loop (S (length (queued s))) available_step id s.

Definition dispatch_maintenance (submission : MaintenanceSubmission) (s : Scheduler) : Scheduler :=
  match on_pool (prepare 1) s with
  | (Err error, s) =>
      post (EvMaintenanceCompletion None) (send (maint_sender submission, ReplyCleanup (Err error)) s)
  | (Ok _, s) =>
      match on_pool prepare_dispatch s with
      | (Err error, s) =>
          post (EvMaintenanceCompletion None) (send (maint_sender submission, ReplyCleanup (Err error)) s)
      | (Ok _, s) =>
          match on_pool (execute (MaintenanceJob submission)) s with
          | (Ok _, s) => s
          | (Err _, s) => post (EvMaintenanceCompletion None) s
          end
      end
  end.

(** [active.is_empty() && queues.values().all(VecDeque::is_empty)], the negation
    of what the barriers test. *)
Definition idle (s : Scheduler) : bool :=
  bool_decide (active s = ∅) && forallb (fun kq => is_nil (snd kq)) (map_to_list (queues s)).

Definition advance_step (s : Scheduler) : Scheduler + Scheduler :=
  match pending s with
  | PeMaintenance submission :: rest =>
      if idle s then
        inr (dispatch_maintenance submission (set_maintenance true (set_pending rest s)))
      else inr s
  | PeSubmission submission :: rest =>
      let key_hash := sub_key_hash submission in
      inl (dispatch_if_idle key_hash (enqueue key_hash (sub_operation submission) (set_pending rest s)))
  | PeFlush sender :: rest =>
      if idle s then inl (send (sender, ReplyUnit (Ok tt)) (set_pending rest s)) else inr s
  | PeClose _ :: _ => inr s
  | [] => inr s
  end.

(** Every turn takes one event off [pending]. *)
Definition advance_pending_if_ready (s : Scheduler) : Scheduler :=
  if maintenance_active s then s
  else run_loop (S (length (pending s))) advance_step id s.

(** ** Events *)

(** [Next] runs the test for a finished close after the event; [Continue] is the
    [continue] of the source, which skips it; [Panic] unwinds. *)
Inductive Handled :=
| Next (s : Scheduler)
| Continue (s : Scheduler)
| Panic (s : Scheduler).

Definition on_submission (submission : Submission) (s : Scheduler) : Handled :=
  if decide (lifecycle s <> Open) then
    Continue (send (deliver_error (sub_operation submission) StoreClosed) s)
  else if maintenance_active s || negb (is_nil (pending s)) then
    Continue (push_pending (PeSubmission submission) s)
  else
    let key_hash := sub_key_hash submission in
    let s := enqueue key_hash (sub_operation submission) s in
    let s := dispatch_if_idle key_hash s in
    Next (dispatch_available s).

Definition on_completion (completion : Completion) (s : Scheduler) : Handled :=
  let key_hash := comp_key_hash completion in
  let s := set_active (active s ∖ {[key_hash]}) s in
  let s := dispatch_if_idle key_hash s in
  let s := dispatch_available s in
  let s := if bool_decide (key_hash ∉ active s) then remove_if_empty key_hash s else s in
  match comp_outcome completion with
  | Some (operation, r) =>
      match deliver operation r with
      | Some answer => Next (advance_pending_if_ready (send answer s))
      | None => Panic s
      end
  | None => Next (advance_pending_if_ready s)
  end.

Definition on_maintenance (submission : MaintenanceSubmission) (s : Scheduler) : Handled :=
  if decide (lifecycle s <> Open) then
    Continue (send (maint_sender submission, ReplyCleanup (Err StoreClosed)) s)
  else Next (advance_pending_if_ready (push_pending (PeMaintenance submission) s)).

Definition on_maintenance_completion (outcome : option MaintenanceOutcome) (s : Scheduler) : Handled :=
  let s := set_maintenance false s in
  let s := match outcome with Some (sender, r) => send (sender, ReplyCleanup r) s | None => s end in
  Next (advance_pending_if_ready s).

Definition on_flush (sender : Channel) (s : Scheduler) : Handled :=
  if decide (lifecycle s <> Open) then
    Continue (send (sender, ReplyUnit (Err StoreClosed)) s)
  else Next (advance_pending_if_ready (push_pending (PeFlush sender) s)).

Definition on_close (sender : Channel) (s : Scheduler) : Handled :=
  let s :=
    match lifecycle s with
    | Open => push_pending (PeClose sender) (set_lifecycle Closing s)
    | Closing => push_pending (PeClose sender) s
    | Closed => send (sender, ReplyUnit (Ok tt)) s
    | ShutdownFailed | Failed => send (sender, ReplyUnit (Err ShutdownFailure)) s
    end in
  Next (advance_pending_if_ready s).

Definition handle_event (event : CoordinatorEvent) (s : Scheduler) : Handled :=
  match event with
  | EvSubmission submission => on_submission submission s
  | EvCompletion completion => on_completion completion s
  | EvMaintenance submission => on_maintenance submission s
  | EvMaintenanceCompletion outcome => on_maintenance_completion outcome s
  | EvFlush sender => on_flush sender s
  | EvClose sender => on_close sender s
  end.

(** ** Closing *)

Definition is_close (event : PendingEvent) : bool :=
  match event with PeClose _ => true | _ => false end.

Definition ready_to_close (s : Scheduler) : bool :=
  match pending s with
  | event :: _ => is_close event && idle s && negb (maintenance_active s)
  | [] => false
  end.

Definition close_reply (outcome : result unit AtomicBlobStoreError) : Reply :=
  ReplyUnit (match outcome with Ok _ => Ok tt | Err _ => Err ShutdownFailure end).

(** The [while] that answers the closes at the front of [pending]. *)
Fixpoint answer_closes (outcome : result unit AtomicBlobStoreError) (events : list PendingEvent)
    (s : Scheduler) : Scheduler :=
  match events with
  | PeClose sender :: rest =>
      answer_closes outcome rest (send (sender, close_reply outcome) (set_pending rest s))
  | _ => s
  end.

(** The answer to an event that was in the channel when the store closed. *)
Definition drain_event (outcome : result unit AtomicBlobStoreError) (event : CoordinatorEvent)
    : option (Channel * Reply) :=
  match event with
  | EvClose sender => Some (sender, close_reply outcome)
  | EvSubmission submission => Some (deliver_error (sub_operation submission) StoreClosed)
  | EvMaintenance submission => Some (maint_sender submission, ReplyCleanup (Err StoreClosed))
  | EvFlush sender => Some (sender, ReplyUnit (Err StoreClosed))
  | EvCompletion _ | EvMaintenanceCompletion _ => None
  end.

(** [while let Ok(event) = receiver.try_recv()]. *)
Definition drain (answer : CoordinatorEvent -> option (Channel * Reply)) (s : Scheduler) : Scheduler :=
  set_receiver [] (set_sent (sent s ++ omap answer (receiver s)) s).

Definition finish_close (s : Scheduler) : Scheduler :=
  let (outcome, s) := on_pool shutdown s in
  let s := set_lifecycle (match outcome with Ok _ => Closed | Err _ => ShutdownFailed end) s in
  let s := answer_closes outcome (pending s) s in
  drain (drain_event outcome) s.

(** ** The loop *)

(** What one iteration of the [while let Ok(event) = receiver.recv()] does. *)
Inductive Iteration :=
| Looped (s : Scheduler)
| Returned (s : Scheduler)
| Panicked (s : Scheduler).

Definition coordinator_turn (event : CoordinatorEvent) (s : Scheduler) : Iteration :=
  match handle_event event s with
  | Continue s => Looped s
  | Panic s => Panicked s
  | Next s => if ready_to_close s then Returned (finish_close s) else Looped s
  end.

(** The exit when every sender is gone. *)
Definition disconnected (s : Scheduler) : Scheduler :=
  let (_, s) := on_pool shutdown s in
  if decide (lifecycle s = Closed) then s else set_lifecycle Closed s.

(** [run_scheduler], as far as [fuel] iterations go: [inl] is a coordinator that
    waits for an event, or that still has events after [fuel] iterations. *)
Fixpoint run_scheduler (fuel : nat) (s : Scheduler) : Scheduler + Iteration :=
  match fuel, receiver s with
  | S fuel', event :: rest =>
      match coordinator_turn event (set_receiver rest s) with
      | Looped s' => run_scheduler fuel' s'
      | i => inr i
      end
  | _, _ => inl s
  end.

(** ** After a panic ([from_config] in [src/src/engine/mod.rs]) *)

Definition failed_event (event : CoordinatorEvent) : option (Channel * Reply) :=
  match event with
  | EvSubmission submission => Some (deliver_error (sub_operation submission) EngineFailed)
  | EvMaintenance submission => Some (maint_sender submission, ReplyCleanup (Err EngineFailed))
  | EvMaintenanceCompletion (Some (sender, _)) => Some (sender, ReplyCleanup (Err EngineFailed))
  | EvMaintenanceCompletion None => None
  | EvFlush sender => Some (sender, ReplyUnit (Err EngineFailed))
  | EvClose sender => Some (sender, ReplyUnit (Err ShutdownFailure))
  | EvCompletion completion =>
      match comp_outcome completion with
      | Some (operation, _) => Some (deliver_error operation EngineFailed)
      | None => None
      end
  end.

Definition fail_queued_after_coordinator_panic (s : Scheduler) : Scheduler := drain failed_event s.

(** The unwinding drops the registry, the pending events and the pool.  Dropping
    the pool joins its threads, which finish their jobs first: [s] is the state
    with the completions of these jobs in its channel. *)
Definition coordinator_panicked (s : Scheduler) : Scheduler :=
  let s := set_queues ∅ (set_active ∅ (set_pending [] s)) in
  let (_, s) := on_pool shutdown s in
  fail_queued_after_coordinator_panic (set_lifecycle Failed s).

End Handlers.

(** The state of a coordinator that was just spawned. *)
Definition Scheduler_new (config : StoreConfig) (spawns : list (option bool)) : Scheduler :=
  {| queues := ∅; active := ∅; pending := []; maintenance_active := false;
     worker_pool := WorkerPool_new (N.to_nat (config_max_concurrent_operations config)) spawns;
     lifecycle := Open; receiver := []; sent := []; taken := []; turn := 0 |}.
