(* ===== verification/SchedulerLemmas.v ===== *)
(** * Lemmas on the coordinator's steps

    What dispatching does to each part of the state, the loops of the
    coordinator as iterations of their step, and why their fuel is enough. *)
From S2P Require Export Scheduler.

Local Open Scope N_scope.
Local Open Scope blob_scope.

(** ** The registry *)

Section Registry.

Abbreviation registry := (gmap KeyHash (list Operation)) (only parsing).

Definition waiting (q : registry) : list Operation := concat (map snd (map_to_list q)).

Lemma waiting_insert (q : registry) k l :
  q !! k = None -> Permutation (waiting (<[k := l]> q)) (l ++ waiting q).
Proof. intros H. unfold waiting. by rewrite map_to_list_insert. Qed.

Lemma waiting_delete (q : registry) k :
  Permutation (waiting q) (default [] (q !! k) ++ waiting (delete k q)).
Proof.
  destruct (q !! k) as [l|] eqn:E; cbn [default].
  - rewrite <-(insert_delete_id q k l) at 1 by done. apply waiting_insert, lookup_delete_eq.
  - by rewrite delete_id.
Qed.

Lemma waiting_replace (q : registry) k l :
  Permutation (waiting (<[k := l]> q)) (l ++ waiting (delete k q)).
Proof. rewrite <-insert_delete_eq. apply waiting_insert, lookup_delete_eq. Qed.

Lemma waiting_nil (q : registry) k : waiting q = [] -> q !! k = None \/ q !! k = Some [].
Proof.
  intros H. pose proof (waiting_delete q k) as Hd. rewrite H in Hd.
  apply Permutation_nil_l in Hd. symmetry in Hd. apply app_nil in Hd as [Hd _].
  destruct (q !! k) as [l|]; [right|by left]. by cbn in Hd; subst l.
Qed.

(** A queue with an operation, if any operation waits. *)
Lemma waiting_cons (q : registry) op l :
  waiting q = op :: l -> exists k o rest, q !! k = Some (o :: rest).
Proof.
  intros H. assert (Hin : op ∈ waiting q) by (rewrite H; left).
  unfold waiting in Hin. apply list_elem_of_In, in_concat in Hin as (x & Hx & Ho).
  apply in_map_iff in Hx as ([k y] & <- & Hk). apply list_elem_of_In, elem_of_map_to_list in Hk.
  exists k. destruct y as [|o rest]; [done|]. by exists o, rest.
Qed.

Lemma all_empty (q : registry) :
  forallb (fun kq => is_nil (snd kq)) (map_to_list q) = true <-> waiting q = [].
Proof.
  unfold waiting. induction (map_to_list q) as [|[k l] xs IH]; cbn; [done|].
  destruct l; cbn; [done|]. by split.
Qed.

End Registry.

(** ** Dispatching one key *)

Section Dispatch.
Context {Order : HashMapOrder}.
Context (config : StoreConfig).

Abbreviation dispatch_if_idle := (dispatch_if_idle config).
Abbreviation at_capacity := (at_capacity config).

(** The operation taken off the queue of [k], with the pool after [prepare]. *)
Definition take_front k op rest p (s : Scheduler) : Scheduler :=
  set_pool p (set_taken (taken s ++ [(k, op)]) (set_queues (<[k := rest]> (queues s)) s)).

(** The operation runs. *)
Definition started k op rest p (s : Scheduler) : Scheduler :=
  set_pool (snd (execute (OperationJob k op) p))
    (set_active ({[k]} ∪ active s) (take_front k op rest p s)).

(** The pool had no thread for it. *)
Definition refused k op rest p (s : Scheduler) : Scheduler :=
  remove_if_empty k (send (deliver_error op WorkerUnavailable) (take_front k op rest p s)).

Definition has_front k (s : Scheduler) : bool :=
  match queues s !! k with Some (_ :: _) => true | _ => false end.

(** The three things that [dispatch_if_idle] does. *)
Inductive dispatches k (s : Scheduler) : Scheduler -> Prop :=
| dispatch_nothing :
    k ∈ active s \/ at_capacity s = true \/ has_front k s = false -> dispatches k s s
| dispatch_started op rest p :
    k ∉ active s -> at_capacity s = false -> queues s !! k = Some (op :: rest) ->
    prepared (worker_pool s) p ->
    (length (handles (worker_pool s)) <= capacity (worker_pool s) ->
       length (handles p) <= capacity (worker_pool s))%nat ->
    (Nat.min (size (active s) + 1) (capacity (worker_pool s)) <= length (handles p))%nat ->
    dispatches k s (started k op rest p s)
| dispatch_refused op rest p :
    k ∉ active s -> at_capacity s = false -> queues s !! k = Some (op :: rest) ->
    prepared (worker_pool s) p ->
    (length (handles (worker_pool s)) <= capacity (worker_pool s) ->
       length (handles p) <= capacity (worker_pool s))%nat ->
    dispatches k s (refused k op rest p s).

Lemma dispatch_if_idle_dispatches k s :
  pool_sender (worker_pool s) = true -> dispatches k s (dispatch_if_idle k s).
Proof.
  intros Hp. unfold Scheduler.dispatch_if_idle.
  destruct (bool_decide (k ∈ active s)) eqn:Ea; cbn [orb].
  { apply bool_decide_eq_true in Ea. constructor. by left. }
  apply bool_decide_eq_false in Ea.
  destruct (at_capacity s) eqn:Ec; [constructor; by right; left|].
  destruct (queues s !! k) as [[|op rest]|] eqn:Eq;
    try (constructor; right; right; unfold has_front; by rewrite Eq).
  pose proof (prepare_spec (size (active s) + 1) (worker_pool s)) as Hprep.
  unfold on_pool. cbn [worker_pool active set_taken set_queues].
  destruct (prepare (size (active s) + 1) (worker_pool s)) as [[[]|e] p].
  - destruct Hprep as (H1 & H2 & H3 & _). cbn [prepare_dispatch ret worker_pool set_pool set_active].
    assert (E : execute (OperationJob k op) p = (Ok tt, snd (execute (OperationJob k op) p))).
    { unfold execute. by rewrite (prepared_sender _ _ H1), Hp. }
    unfold prepare_dispatch, ret. cbn [worker_pool set_pool set_active]. rewrite E.
    by apply (dispatch_started k s op rest p); auto.
  - destruct Hprep as (H1 & H2 & _ & He). rewrite (He e eq_refl).
    by apply (dispatch_refused k s op rest p).
Qed.

(** An invariant of dispatching. *)
Lemma dispatch_if_idle_ind (I : Scheduler -> Prop) k s :
  pool_sender (worker_pool s) = true ->
  I s ->
  (forall op rest p, k ∉ active s -> at_capacity s = false -> queues s !! k = Some (op :: rest) ->
     prepared (worker_pool s) p ->
     (length (handles (worker_pool s)) <= capacity (worker_pool s) ->
        length (handles p) <= capacity (worker_pool s))%nat ->
     (Nat.min (size (active s) + 1) (capacity (worker_pool s)) <= length (handles p))%nat ->
     I (started k op rest p s)) ->
  (forall op rest p, k ∉ active s -> at_capacity s = false -> queues s !! k = Some (op :: rest) ->
     prepared (worker_pool s) p ->
     (length (handles (worker_pool s)) <= capacity (worker_pool s) ->
        length (handles p) <= capacity (worker_pool s))%nat ->
     I (refused k op rest p s)) ->
  I (dispatch_if_idle k s).
Proof.
  intros Hp H0 H1 H2. destruct (dispatch_if_idle_dispatches k s Hp); eauto.
Qed.

End Dispatch.

Lemma remove_if_empty_fields k s :
  active (remove_if_empty k s) = active s /\ pending (remove_if_empty k s) = pending s /\
  maintenance_active (remove_if_empty k s) = maintenance_active s /\
  worker_pool (remove_if_empty k s) = worker_pool s /\
  lifecycle (remove_if_empty k s) = lifecycle s /\ receiver (remove_if_empty k s) = receiver s /\
  sent (remove_if_empty k s) = sent s /\ taken (remove_if_empty k s) = taken s /\
  turn (remove_if_empty k s) = turn s.
Proof. unfold remove_if_empty. by destruct (queues s !! k) as [[]|]. Qed.

Lemma remove_if_empty_queues k s :
  queues (remove_if_empty k s) = match queues s !! k with
                                 | Some [] => delete k (queues s)
                                 | _ => queues s
                                 end.
Proof. unfold remove_if_empty. by destruct (queues s !! k) as [[]|]. Qed.

Lemma remove_if_empty_lookup k s k' :
  queues (remove_if_empty k s) !! k' =
    if decide (k' = k) then match queues s !! k with Some [] => None | x => x end
    else queues s !! k'.
Proof.
  rewrite remove_if_empty_queues. case_decide as H.
  - subst. destruct (queues s !! k) as [[]|] eqn:E; [apply lookup_delete_eq|done|done].
  - destruct (queues s !! k) as [[]|] eqn:E; [|done|done]. by rewrite lookup_delete_ne.
Qed.

Lemma remove_if_empty_waiting k s :
  Permutation (waiting (queues (remove_if_empty k s))) (waiting (queues s)).
Proof.
  rewrite remove_if_empty_queues. destruct (queues s !! k) as [[]|] eqn:E; try done.
  by rewrite (waiting_delete (queues s) k), E.
Qed.

(** ** The loops *)

Section LoopLemmas.
Context {Order : HashMapOrder} {OrderL : HashMapOrderLaws}.
Context (config : StoreConfig).

Abbreviation dispatch_if_idle := (dispatch_if_idle config).
Abbreviation at_capacity := (at_capacity config).

Lemma find_available_some k s : find_available s = Some k -> has_front k s = true /\ k ∉ active s.
Proof.
  unfold find_available. intros H. apply fmap_Some in H as ([k' q] & H & ->).
  apply head_Some_elem_of, list_elem_of_filter in H as [Hf Hin].
  rewrite hash_iter_perm in Hin. apply elem_of_map_to_list in Hin. cbn in *.
  apply Is_true_true, andb_prop in Hf as [H1 H2]. apply bool_decide_eq_true in H2.
  split; [|done]. unfold has_front. rewrite Hin. by destruct q.
Qed.

Lemma find_available_none s :
  find_available s = None -> forall k, has_front k s = true -> k ∈ active s.
Proof.
  unfold find_available. intros H k Hk. apply fmap_None, head_None in H.
  unfold has_front in Hk. destruct (queues s !! k) as [[|o l]|] eqn:E; try done.
  apply elem_of_map_to_list in E. rewrite <-(hash_iter_perm (turn s)) in E.
  destruct (decide (k ∈ active s)) as [|Hn]; [done|].
  assert (Hin : (k, o :: l) ∈ filter (fun kq : KeyHash * list Operation =>
    negb (is_nil (snd kq)) && bool_decide (fst kq ∉ active s)) (hash_iter (turn s) (queues s))).
  { apply list_elem_of_filter. split; [|done]. cbn. by rewrite bool_decide_eq_true_2. }
  rewrite H in Hin. by apply not_elem_of_nil in Hin.
Qed.

Lemma take_front_waiting k op rest p s :
  queues s !! k = Some (op :: rest) ->
  Permutation (waiting (queues s)) (op :: waiting (queues (take_front k op rest p s))).
Proof.
  intros E. cbn [queues take_front set_pool set_taken set_queues].
  by rewrite (waiting_delete (queues s) k), E, waiting_replace.
Qed.

Lemma refused_waiting k op rest p s :
  Permutation (waiting (queues (refused k op rest p s))) (waiting (queues (take_front k op rest p s))).
Proof. unfold refused. by rewrite remove_if_empty_waiting. Qed.

(** Dispatching a key that can be dispatched takes one operation. *)
Lemma dispatch_takes k s :
  pool_sender (worker_pool s) = true -> has_front k s = true -> k ∉ active s ->
  at_capacity s = false ->
  S (length (waiting (queues (dispatch_if_idle k s)))) = length (waiting (queues s)).
Proof.
  intros Hp Hf Ha Hc. destruct (dispatch_if_idle_dispatches config k s Hp) as [H|op rest p _ _ E|op rest p _ _ E].
  - destruct H as [H|[H|H]]; congruence || done.
  - apply (take_front_waiting k op rest p) in E. by rewrite E.
  - apply (take_front_waiting k op rest p) in E. by rewrite E, refused_waiting.
Qed.

(** An invariant of [dispatch_available], which ends with nothing available. *)
Lemma dispatch_available_ind (I : Scheduler -> Prop) s :
  (forall s, I s -> pool_sender (worker_pool s) = true) ->
  (forall k s, I s -> at_capacity s = false -> has_front k s = true -> k ∉ active s ->
     I (dispatch_if_idle k (next_turn s))) ->
  I s ->
  I (dispatch_available config s) /\
  (at_capacity (dispatch_available config s) = true \/
   forall k, has_front k (dispatch_available config s) = true ->
     k ∈ active (dispatch_available config s)).
Proof.
  intros Hpool Hstep Hs. unfold dispatch_available.
  apply (run_loop_rule (available_step config) id I (fun s => length (waiting (queues s))));
    [|done|unfold queued, waiting; lia].
  clear s Hs. intros s Hs. unfold available_step. destruct (at_capacity s) eqn:Ec; [by auto|].
  destruct (find_available s) as [k|] eqn:Ef.
  - apply find_available_some in Ef as [Hf Ha]. split; [by apply Hstep|].
    pose proof (dispatch_takes k (next_turn s) (Hpool _ Hs) Hf Ha Ec) as Ht. cbn in *. lia.
  - split; [done|]. right. by apply find_available_none.
Qed.

Lemma dispatch_if_idle_pending k s :
  pool_sender (worker_pool s) = true -> pending (dispatch_if_idle k s) = pending s.
Proof.
  intros Hp. destruct (dispatch_if_idle_dispatches config k s Hp) as [| |op rest p]; [done|done|].
  unfold refused. by destruct (remove_if_empty_fields k
    (send (deliver_error op WorkerUnavailable) (take_front k op rest p s))) as (_ & -> & _).
Qed.

(** The front of [pending] waits for something. *)
Definition blocked (s : Scheduler) : Prop :=
  match pending s with
  | [] => True
  | PeSubmission _ :: _ => maintenance_active s = true
  | (PeMaintenance _ | PeFlush _) :: _ => maintenance_active s = true \/ idle s = false
  | PeClose _ :: _ => True
  end.

(** An invariant of the loop of [advance_pending_if_ready]. *)
Lemma advance_ind (I J : Scheduler -> Prop) s :
  (forall s, I s -> pool_sender (worker_pool s) = true) ->
  (forall s submission rest, I s -> pending s = PeSubmission submission :: rest ->
     I (dispatch_if_idle (sub_key_hash submission)
          (enqueue (sub_key_hash submission) (sub_operation submission) (set_pending rest s)))) ->
  (forall s sender rest, I s -> pending s = PeFlush sender :: rest -> idle s = true ->
     I (send (sender, ReplyUnit (Ok tt)) (set_pending rest s))) ->
  (forall s submission rest, I s -> pending s = PeMaintenance submission :: rest -> idle s = true ->
     J (dispatch_maintenance submission (set_maintenance true (set_pending rest s)))) ->
  (forall s, I s -> blocked s -> J s) ->
  I s -> maintenance_active s = false -> J (advance_pending_if_ready config s).
Proof.
  intros Hpool Hsub Hflush Hmaint Hend Hs Hm. unfold advance_pending_if_ready. rewrite Hm.
  apply (run_loop_rule (advance_step config) id I (fun s => length (pending s)));
    [|done|lia].
  clear s Hs Hm. intros s Hs. unfold advance_step.
  destruct (pending s) as [|[sub|sub|ch|ch] rest] eqn:Ep.
  - apply Hend; [done|]. unfold blocked. by rewrite Ep.
  - split; [by apply Hsub|]. rewrite dispatch_if_idle_pending by by apply (Hpool s). cbn. lia.
  - destruct (idle s) eqn:Ei; [by apply Hmaint|]. apply Hend; [done|]. unfold blocked.
    rewrite Ep. by right.
  - destruct (idle s) eqn:Ei; [split; [by apply Hflush|cbn; lia]|].
    apply Hend; [done|]. unfold blocked. rewrite Ep. by right.
  - apply Hend; [done|]. unfold blocked. by rewrite Ep.
Qed.

End LoopLemmas.

(** ** The lifecycle *)

Section LifecycleLemmas.
Context {Order : HashMapOrder} (config : StoreConfig).

Lemma remove_if_empty_lifecycle k s : lifecycle (remove_if_empty k s) = lifecycle s.
Proof. apply remove_if_empty_fields. Qed.

Lemma dispatch_if_idle_lifecycle k s : lifecycle (dispatch_if_idle config k s) = lifecycle s.
Proof.
  unfold dispatch_if_idle, on_pool. repeat case_match; simplify_eq/=; try done;
    by rewrite remove_if_empty_lifecycle.
Qed.

Lemma dispatch_available_lifecycle s : lifecycle (dispatch_available config s) = lifecycle s.
Proof.
  unfold dispatch_available. generalize (S (length (queued s))). intros fuel. revert s.
  induction fuel as [|fuel IH]; intros s; [done|]. rewrite run_loop_S. unfold available_step at 1.
  destruct (at_capacity config s); [done|]. destruct (find_available s); [|done].
  by rewrite IH, dispatch_if_idle_lifecycle.
Qed.

Lemma dispatch_maintenance_lifecycle sub s : lifecycle (dispatch_maintenance sub s) = lifecycle s.
Proof. unfold dispatch_maintenance, on_pool. by repeat case_match; simplify_eq/=. Qed.

Lemma advance_lifecycle s : lifecycle (advance_pending_if_ready config s) = lifecycle s.
Proof.
  unfold advance_pending_if_ready. destruct (maintenance_active s); [done|].
  generalize (S (length (pending s))). intros fuel. revert s.
  induction fuel as [|fuel IH]; intros s; [done|]. rewrite run_loop_S. unfold advance_step at 1.
  destruct (pending s) as [|[sub|sub|ch|ch] rest]; try done.
  - by rewrite IH, dispatch_if_idle_lifecycle.
  - destruct (idle s); [|done]. by rewrite dispatch_maintenance_lifecycle.
  - destruct (idle s); [|done]. by rewrite IH.
Qed.

Lemma answer_closes_lifecycle outcome events s : lifecycle (answer_closes outcome events s) = lifecycle s.
Proof.
  revert s; induction events as [|[]]; intros s; try done. cbn. by match goal with IH : _ |- _ => rewrite IH end.
Qed.

(** Whatever the state of the coordinator, no event opens the store. *)
Lemma handled_closed event s :
  lifecycle s <> Open ->
  match handle_event config event s with
  | Next s' | Continue s' | Panic s' => lifecycle s' <> Open
  end.
Proof.
  intros Hl. destruct event as [sub|c|sub|o|ch|ch]; cbn.
  - unfold on_submission. by rewrite decide_True.
  - unfold on_completion.
    set (s1 := if bool_decide _ then _ else _). assert (E : lifecycle s1 = lifecycle s).
    { subst s1. case_bool_decide; rewrite ?remove_if_empty_lifecycle, dispatch_available_lifecycle;
        by rewrite dispatch_if_idle_lifecycle. }
    destruct (comp_outcome c) as [[op r]|]; [destruct (deliver op r)|]; rewrite ?advance_lifecycle; cbn; by rewrite E.
  - unfold on_maintenance. by rewrite decide_True.
  - rewrite advance_lifecycle. by destruct o as [[? ?]|].
  - unfold on_flush. by rewrite decide_True.
  - rewrite advance_lifecycle. destruct (lifecycle s) eqn:E; cbn; congruence.
Qed.

Lemma finish_close_lifecycle s : lifecycle (finish_close s) <> Open.
Proof.
  unfold finish_close, drain. destruct (on_pool shutdown s) as [o s']. cbn. rewrite answer_closes_lifecycle.
  by destruct o.
Qed.

Lemma turn_closed event s :
  lifecycle s <> Open ->
  match coordinator_turn config event s with
  | Looped s' | Returned s' | Panicked s' => lifecycle s' <> Open
  end.
Proof.
  intros Hl. pose proof (handled_closed event s Hl) as H. unfold coordinator_turn.
  destruct (handle_event config event s) as [s1|s1|s1]; [|done..].
  destruct (ready_to_close s1); [apply finish_close_lifecycle|done].
Qed.

Lemma disconnected_lifecycle s : lifecycle (disconnected s) = Closed.
Proof. unfold disconnected. destruct (on_pool shutdown s) as [o s']. by case_decide. Qed.

End LifecycleLemmas.
