(* ===== verification/SchedulerInv.v ===== *)
(** * The invariant of the coordinator

    One operation per key in flight, never more than the bound, a thread for
    each; maintenance alone; no empty queue left behind; no operation waiting
    while it could run; barriers that wait for what came before them. *)
From S2P Require Export SchedulerLemmas.

Local Open Scope N_scope.
Local Open Scope blob_scope.

(** ** What is in flight *)

Definition job_key (job : WorkerJob) : option KeyHash :=
  match job with OperationJob k _ => Some k | MaintenanceJob _ => None end.

Definition completion_key (event : CoordinatorEvent) : option KeyHash :=
  match event with EvCompletion c => Some (comp_key_hash c) | _ => None end.

(** The keys of the jobs of the pool and of the completions not yet seen. *)
Definition in_flight (s : Scheduler) : list KeyHash :=
  omap job_key (channel (worker_pool s)) ++ omap completion_key (receiver s).

Definition is_maintenance_job (job : WorkerJob) : bool :=
  match job with MaintenanceJob _ => true | _ => false end.

Definition is_maintenance_completion (event : CoordinatorEvent) : bool :=
  match event with EvMaintenanceCompletion _ => true | _ => false end.

Definition maintenance_in_flight (s : Scheduler) : nat :=
  length (List.filter is_maintenance_job (channel (worker_pool s))) +
  length (List.filter is_maintenance_completion (receiver s)).

(** A completion whose operation and result belong together. *)
Definition well_matched (event : CoordinatorEvent) : bool :=
  match event with
  | EvCompletion {| comp_outcome := Some (o, r) |} => matching o r
  | _ => true
  end.

(** ** The invariant *)

Section Invariant.
Context {Order : HashMapOrder} {OrderL : HashMapOrderLaws}.
Context (config : StoreConfig).

Abbreviation max := (config_max_concurrent_operations config).
Abbreviation dispatch_if_idle := (dispatch_if_idle config).
Abbreviation at_capacity := (at_capacity config).

Record Base (s : Scheduler) : Prop := {
  base_bound : N.of_nat (size (active s)) <= max;
  base_sender : pool_sender (worker_pool s) = true;
  base_capacity : capacity (worker_pool s) = N.to_nat max;
  base_handles : (length (handles (worker_pool s)) <= N.to_nat max)%nat;
  base_workers : (size (active s) <= length (handles (worker_pool s)))%nat;
  base_flight : Permutation (in_flight s) (elements (active s));
  base_maintenance : maintenance_in_flight s = if maintenance_active s then 1%nat else 0%nat;
  base_exclusive : maintenance_active s = true -> active s = ∅ /\ waiting (queues s) = [];
  base_matched : forallb well_matched (receiver s) = true;
}.

(** Only the keys in [K] may have an empty queue without being active. *)
Definition no_leak_but (K : KeyHash -> Prop) (s : Scheduler) : Prop :=
  forall k, queues s !! k = Some [] -> k ∈ active s \/ K k.

Definition no_leak (s : Scheduler) : Prop := forall k, queues s !! k = Some [] -> k ∈ active s.

(** An operation waits for its key or for a free slot only. *)
Definition busy (s : Scheduler) : Prop :=
  forall k, has_front k s = true -> k ∉ active s -> at_capacity s = true.

(** The closes are at the end of [pending], and the lifecycle knows of them. *)
Definition closes_last (s : Scheduler) : Prop :=
  exists before closes, pending s = before ++ map PeClose closes /\
    forallb (fun e => negb (is_close e)) before = true /\
    lifecycle s = match closes with [] => Open | _ => Closing end.

(** The state between two events. *)
Record Inv (s : Scheduler) : Prop := {
  inv_base : Base s;
  inv_no_leak : no_leak s;
  inv_busy : busy s;
  inv_closes : closes_last s;
  inv_blocked : blocked s;
  inv_not_ready : ready_to_close s = false;
}.

(** ** Dispatching keeps it *)

Lemma not_at_capacity s : at_capacity s = false -> N.of_nat (size (active s)) < max.
Proof. unfold Scheduler.at_capacity. intros H. reflect_bools. lia. Qed.

Lemma started_base k op rest p s :
  Base s -> maintenance_active s = false ->
  k ∉ active s -> at_capacity s = false -> prepared (worker_pool s) p ->
  (length (handles (worker_pool s)) <= capacity (worker_pool s) ->
     length (handles p) <= capacity (worker_pool s))%nat ->
  (Nat.min (size (active s) + 1) (capacity (worker_pool s)) <= length (handles p))%nat ->
  Base (started k op rest p s).
Proof.
  intros [B1 B2 B3 B4 B5 B6 B7 _ B9] Hm Hk Hc%not_at_capacity [P1 P2 P3 P4] Hh Hw.
  assert (Hs : size ({[k]} ∪ active s) = S (size (active s))).
  { rewrite size_union by set_solver. by rewrite size_singleton. }
  assert (He : execute (OperationJob k op) p = (Ok tt, snd (execute (OperationJob k op) p)))
    by (unfold execute; by rewrite P1, B2).
  unfold started, take_front. unfold execute in *. rewrite P1, B2 in *.
  split; unfold in_flight, maintenance_in_flight in *; cbn in *; try done.
  - rewrite Hs. lia.
  - by rewrite P3.
  - lia.
  - rewrite Hs. lia.
  - rewrite P2, omap_app. cbn. rewrite elements_union_singleton by done. rewrite <-B6.
    rewrite <-!app_assoc. cbn. by rewrite Permutation_middle.
  - rewrite P2, List.filter_app. cbn. rewrite length_app. cbn. by rewrite Nat.add_0_r.
  - by rewrite Hm.
Qed.

Lemma refused_base k op rest p s :
  Base s -> maintenance_active s = false -> prepared (worker_pool s) p ->
  (length (handles (worker_pool s)) <= capacity (worker_pool s) ->
     length (handles p) <= capacity (worker_pool s))%nat ->
  Base (refused k op rest p s).
Proof.
  intros [B1 B2 B3 B4 B5 B6 B7 B8 B9] Hm [P1 P2 P3 P4] Hh. unfold refused.
  destruct (remove_if_empty_fields k (send (deliver_error op WorkerUnavailable) (take_front k op rest p s)))
    as (E1 & E2 & E3 & E4 & E5 & E6 & _).
  split; unfold in_flight, maintenance_in_flight in *; rewrite ?E1, ?E3, ?E4, ?E6; cbn; try done.
  - by rewrite P1.
  - by rewrite P3.
  - lia.
  - lia.
  - by rewrite P2.
  - by rewrite P2.
  - by rewrite Hm.
Qed.

Lemma dispatch_base k s :
  Base s -> maintenance_active s = false ->
  Base (dispatch_if_idle k s) /\ maintenance_active (dispatch_if_idle k s) = false.
Proof.
  intros Hb Hm. destruct (dispatch_if_idle_dispatches config k s (base_sender _ Hb)).
  - done.
  - split; [by apply started_base|done].
  - split; [by apply refused_base|]. unfold refused.
    by destruct (remove_if_empty_fields k (send (deliver_error op WorkerUnavailable)
      (take_front k op rest p s))) as (_ & _ & -> & _).
Qed.

Lemma next_turn_base s : Base s -> Base (next_turn s).
Proof. by intros []. Qed.

Lemma refused_lookup k op rest p s k' :
  queues (refused k op rest p s) !! k' =
    if decide (k' = k) then match rest with [] => None | _ => Some rest end else queues s !! k'.
Proof.
  unfold refused. rewrite remove_if_empty_lookup. cbn. rewrite lookup_insert_eq.
  case_decide; [by destruct rest|]. by rewrite lookup_insert_ne.
Qed.

Lemma dispatch_no_leak K k s :
  pool_sender (worker_pool s) = true -> no_leak_but K s -> no_leak_but K (dispatch_if_idle k s).
Proof.
  intros Hp Hl. destruct (dispatch_if_idle_dispatches config k s Hp) as [H|op rest p Ha Hc Hq|op rest p Ha Hc Hq].
  - done.
  - intros k' Hk'. cbn in *. destruct (decide (k' = k)) as [->|Hne]; [left; set_solver|].
    rewrite lookup_insert_ne in Hk' by done. destruct (Hl k' Hk'); [left; set_solver|by right].
  - intros k' Hk'. rewrite refused_lookup in Hk'. unfold refused.
    destruct (remove_if_empty_fields k (send (deliver_error op WorkerUnavailable)
      (take_front k op rest p s))) as (-> & _). cbn. case_decide; [by destruct rest|by apply Hl].
Qed.

Lemma no_leak_but_none s : no_leak_but (fun _ => False) s <-> no_leak s.
Proof. split; intros H k Hk; [by destruct (H k Hk)|left; by apply H]. Qed.

(** Dispatching after one operation was queued keeps everything busy. *)
Lemma dispatch_enqueued_busy k op s :
  pool_sender (worker_pool s) = true -> busy s ->
  busy (dispatch_if_idle k (enqueue k op s)).
Proof.
  intros Hp Hb. set (s1 := enqueue k op s).
  assert (Hother : forall k', k' <> k -> has_front k' s1 = has_front k' s).
  { intros k' Hne. unfold has_front, s1. cbn. by rewrite lookup_insert_ne. }
  destruct (dispatch_if_idle_dispatches config k s1 Hp) as [H|o rest p Ha Hc Hq|o rest p Ha Hc Hq].
  - intros k' Hf Ha. destruct (decide (k' = k)) as [->|Hne].
    + destruct H as [H|[H|H]]; [done|done|congruence].
    + apply (Hb k'); [by rewrite <-Hother|done].
  - intros k' Hf Hn. cbn in Hn. assert (Hne : k' <> k) by set_solver.
    exfalso.
    assert (Hc' : at_capacity s = false) by done. assert (at_capacity s = true); [|congruence].
    apply (Hb k'); [|set_solver]. rewrite <-Hother by done.
    unfold has_front in *. cbn in *. by rewrite lookup_insert_ne in Hf by done.
  - intros k' Hf Hn. exfalso.
    assert (Hc' : at_capacity s = false) by done.
    unfold refused in Hn. destruct (remove_if_empty_fields k (send (deliver_error o WorkerUnavailable)
      (take_front k o rest p s1))) as (Eact & _). rewrite Eact in Hn. cbn in Hn.
    unfold has_front in Hf. rewrite refused_lookup in Hf. case_decide as Hd.
    + subst k'. assert (queues s !! k = None \/ queues s !! k = Some []) as Hempty.
      { destruct (queues s !! k) as [[|o' l]|] eqn:E; auto.
        assert (at_capacity s = true); [|congruence].
        apply (Hb k); [unfold has_front; by rewrite E|done]. }
      unfold s1 in Hq. cbn in Hq. rewrite lookup_insert_eq in Hq.
      destruct Hempty as [E|E]; rewrite E in Hq; cbn in Hq; by simplify_eq.
    + assert (at_capacity s = true); [|congruence]. apply (Hb k'); [|done].
      rewrite <-Hother by done. unfold has_front. exact Hf.
Qed.

(** ** Fields that dispatching leaves alone *)

Record same_front (s s' : Scheduler) : Prop := {
  same_pending : pending s' = pending s;
  same_lifecycle : lifecycle s' = lifecycle s;
  same_maintenance : maintenance_active s' = maintenance_active s;
  same_receiver : receiver s' = receiver s;
}.

Lemma same_front_refl s : same_front s s.
Proof. done. Qed.

Lemma same_front_trans s1 s2 s3 : same_front s1 s2 -> same_front s2 s3 -> same_front s1 s3.
Proof. intros [] []. split; congruence. Qed.

Lemma dispatch_same k s :
  pool_sender (worker_pool s) = true -> same_front s (dispatch_if_idle k s).
Proof.
  intros Hp. destruct (dispatch_if_idle_dispatches config k s Hp); [done|done|].
  unfold refused. destruct (remove_if_empty_fields k (send (deliver_error op WorkerUnavailable)
    (take_front k op rest p s))) as (E1 & E2 & E3 & E4 & E5 & E6 & _). by split.
Qed.

(** [dispatch_available] keeps the base and leaves everything busy. *)
Lemma available_inv K s :
  Base s -> maintenance_active s = false -> no_leak_but K s ->
  let s' := dispatch_available config s in
  Base s' /\ same_front s s' /\ no_leak_but K s' /\ busy s'.
Proof.
  intros Hb Hm Hl. cbv zeta.
  destruct (dispatch_available_ind config
    (fun t => Base t /\ same_front s t /\ no_leak_but K t) s) as [(H1 & H2 & H3) Hend].
  - intros t (Ht & _). apply Ht.
  - intros k t (Ht & Hs & Hk) _ _ _. assert (Hmt : maintenance_active t = false)
      by (rewrite (same_maintenance _ _ Hs); done).
    destruct (dispatch_base k (next_turn t) (next_turn_base _ Ht) Hmt) as [Ht' _].
    split_and!; [done| |by apply dispatch_no_leak; [apply Ht|]].
    eapply same_front_trans; [exact Hs|]. apply (same_front_trans _ (next_turn t)); [by split|].
    apply dispatch_same, Ht.
  - by split_and!.
  - split_and!; [done..|]. intros k Hf Ha. destruct Hend as [Hc|Hend]; [done|]. by destruct (Ha (Hend k Hf)).
Qed.

Lemma enqueue_base k op s : Base s -> maintenance_active s = false -> Base (enqueue k op s).
Proof. intros [B1 B2 B3 B4 B5 B6 B7 B8 B9] Hm. split; try done. cbn. by rewrite Hm. Qed.

Lemma enqueue_no_leak K k op s : no_leak_but K s -> no_leak_but K (enqueue k op s).
Proof.
  intros Hl k' Hk'. cbn in *. destruct (decide (k' = k)) as [->|Hne].
  - rewrite lookup_insert_eq in Hk'. injection Hk' as Hk'. by apply app_nil in Hk' as [_ ?].
  - rewrite lookup_insert_ne in Hk' by done. by apply Hl.
Qed.

(** ** Barriers *)

Lemma idle_spec s : idle s = true <-> active s = ∅ /\ waiting (queues s) = [].
Proof.
  unfold idle. rewrite andb_true_iff, bool_decide_eq_true. by rewrite all_empty.
Qed.

(** The invariant with the state of the barriers left out. *)
Record Core (s : Scheduler) : Prop := {
  core_base : Base s;
  core_no_leak : no_leak s;
  core_busy : busy s;
  core_closes : closes_last s;
}.

Lemma closes_pop s e rest : closes_last s -> pending s = e :: rest -> is_close e = false ->
  forall s', pending s' = rest -> lifecycle s' = lifecycle s -> closes_last s'.
Proof.
  intros (before & closes & E & Hb & Hl) Ep He s' Hp Hl'. rewrite E in Ep.
  destruct before as [|e' before]; cbn in Ep.
  - destruct closes; [done|]. cbn in Ep. by simplify_eq.
  - simplify_eq/=. apply andb_prop in Hb as [_ Hb]. exists before, closes.
    split_and!; [done..|]. by rewrite Hl'.
Qed.

Lemma maintenance_core submission rest s :
  0 < max -> Core s -> maintenance_active s = false ->
  pending s = PeMaintenance submission :: rest -> idle s = true ->
  let s' := dispatch_maintenance submission (set_maintenance true (set_pending rest s)) in
  Core s' /\ blocked s' /\ maintenance_active s' = true.
Proof.
  intros Hmax [Hb Hl Hbu Hc] Hm Ep Hi. apply idle_spec in Hi as [Ha Hw].
  assert (Hclose : forall s', pending s' = rest -> lifecycle s' = lifecycle s -> closes_last s')
    by (by eapply closes_pop).
  destruct Hb as [B1 B2 B3 B4 B5 B6 B7 B8 B9]. rewrite Hm in B7. cbv zeta.
  assert (Hblock : forall s', maintenance_active s' = true -> blocked s').
  { intros s' E. unfold blocked. destruct (pending s') as [|[]]; auto. }
  unfold dispatch_maintenance, on_pool. cbn [worker_pool set_maintenance set_pending].
  pose proof (prepare_spec 1 (worker_pool s)) as Hp.
  destruct (prepare 1 (worker_pool s)) as [[[]|e] p]; destruct Hp as ([P1 P2 P3 P4] & Hh & _ & _).
  - unfold prepare_dispatch, ret. cbn [worker_pool set_pool]. unfold execute. rewrite P1, B2.
    split_and!; [|by apply Hblock|done]. unfold in_flight, maintenance_in_flight in *.
    split; [split|..]; unfold in_flight, maintenance_in_flight; cbn; try done; try lia.
    + rewrite P2, omap_app. cbn. by rewrite app_nil_r.
    + rewrite P2, List.filter_app, length_app. cbn. lia.
    + by apply Hclose.
  - split_and!; [|by apply Hblock|done]. unfold in_flight, maintenance_in_flight in *.
    split; [split|..]; unfold in_flight, maintenance_in_flight; cbn; try done; try lia.
    + by rewrite P1.
    + rewrite P2, omap_app. cbn. by rewrite app_nil_r.
    + rewrite P2, List.filter_app, length_app. cbn. lia.
    + rewrite forallb_app. cbn. by rewrite B9.
    + by apply Hclose.
Qed.

Lemma requeue_core sub rest s :
  Core s -> maintenance_active s = false -> pending s = PeSubmission sub :: rest ->
  let s' := dispatch_if_idle (sub_key_hash sub)
    (enqueue (sub_key_hash sub) (sub_operation sub) (set_pending rest s)) in
  Core s' /\ maintenance_active s' = false.
Proof.
  intros [Hb Hl Hbu Hc] Hm Ep. cbv zeta. set (s0 := set_pending rest s).
  assert (Hb0 : Base (enqueue (sub_key_hash sub) (sub_operation sub) s0)).
  { apply enqueue_base; [by destruct Hb|done]. }
  destruct (dispatch_base (sub_key_hash sub) _ Hb0 Hm) as [Hb' Hm'].
  pose proof (dispatch_same (sub_key_hash sub) _ (base_sender _ Hb0)) as Hs1.
  split; [|done]. split; [done| | |].
  - apply no_leak_but_none, dispatch_no_leak; [apply Hb0|]. apply enqueue_no_leak. by apply no_leak_but_none.
  - apply dispatch_enqueued_busy; [apply Hb0|done].
  - eapply closes_pop; [exact Hc|exact Ep|done|by rewrite (same_pending _ _ Hs1)
      |by rewrite (same_lifecycle _ _ Hs1)].
Qed.

Lemma answer_flush_core sender rest s :
  Core s -> pending s = PeFlush sender :: rest ->
  Core (send (sender, ReplyUnit (Ok tt)) (set_pending rest s)).
Proof.
  intros [Hb Hl Hbu Hc] Ep. split; [by destruct Hb|done|done|by eapply closes_pop].
Qed.

(** [advance_ind] with the invariant at every turn of the loop. *)
Lemma advance_core_ind (I J : Scheduler -> Prop) s :
  (forall t sub rest, Core t -> maintenance_active t = false -> I t ->
     pending t = PeSubmission sub :: rest ->
     I (dispatch_if_idle (sub_key_hash sub)
          (enqueue (sub_key_hash sub) (sub_operation sub) (set_pending rest t)))) ->
  (forall t sender rest, Core t -> maintenance_active t = false -> I t ->
     pending t = PeFlush sender :: rest -> idle t = true ->
     I (send (sender, ReplyUnit (Ok tt)) (set_pending rest t))) ->
  (forall t sub rest, Core t -> maintenance_active t = false -> I t ->
     pending t = PeMaintenance sub :: rest -> idle t = true ->
     J (dispatch_maintenance sub (set_maintenance true (set_pending rest t)))) ->
  (forall t, Core t -> maintenance_active t = false -> I t -> blocked t -> J t) ->
  Core s -> I s -> maintenance_active s = false -> J (advance_pending_if_ready config s).
Proof.
  intros Hsub Hflush Hmaint Hend Hs Hi Hm.
  apply (advance_ind config (fun t => Core t /\ maintenance_active t = false /\ I t) J); [..|done].
  - intros t [[Ht _ _ _] _]. apply Ht.
  - intros t sub rest (Ht & Hmt & Hit) Ep. destruct (requeue_core sub rest t Ht Hmt Ep). auto.
  - intros t sender rest (Ht & Hmt & Hit) Ep Hid. split_and!; [by apply answer_flush_core|done|auto].
  - intros t sub rest (Ht & Hmt & Hit). auto.
  - intros t (Ht & Hmt & Hit). auto.
  - done.
Qed.

Lemma advance_core s :
  0 < max -> Core s -> Core (advance_pending_if_ready config s) /\
    blocked (advance_pending_if_ready config s).
Proof.
  intros Hmax Hs. destruct (maintenance_active s) eqn:Hm.
  { unfold advance_pending_if_ready. rewrite Hm. split; [done|]. unfold blocked.
    destruct (pending s) as [|[]]; auto. }
  apply (advance_core_ind (fun _ => True) (fun t => Core t /\ blocked t)); try done.
  intros t sub rest Ht Hmt _ Ep Hi. by destruct (maintenance_core sub rest t Hmax Ht Hmt Ep Hi) as (? & ? & _).
Qed.

(** ** Events *)

Lemma receive_base event rest s :
  Base s -> receiver s = event :: rest ->
  completion_key event = None -> is_maintenance_completion event = false ->
  Base (set_receiver rest s).
Proof.
  intros [B1 B2 B3 B4 B5 B6 B7 B8 B9] Er Hk Hm. unfold in_flight, maintenance_in_flight in *.
  rewrite Er in *. cbn in B6, B7, B9. rewrite Hk in B6. rewrite Hm in B7.
  apply andb_prop in B9 as [_ B9].
  by split; unfold in_flight, maintenance_in_flight.
Qed.

Lemma send_base answer s : Base s -> Base (send answer s).
Proof. by intros []. Qed.

Lemma push_pending_base e s : Base s -> Base (push_pending e s).
Proof. by intros []. Qed.

Lemma push_pending_closes e s :
  closes_last s -> lifecycle s = Open -> is_close e = false -> closes_last (push_pending e s).
Proof.
  intros (before & closes & Ep & Hb & Hl) Ho He. exists (before ++ [e]), []. destruct closes as [|c closes].
  - cbn. rewrite Ep, !app_nil_r. split_and!; [done| |done]. rewrite forallb_app, Hb. cbn. by rewrite He.
  - congruence.
Qed.

Lemma push_pending_blocked e s :
  blocked s -> pending s <> [] \/ maintenance_active s = true -> blocked (push_pending e s).
Proof.
  intros Hb Hn. unfold blocked in *. cbn. destruct (pending s) as [|f fs] eqn:Ep; cbn; [|done].
  destruct Hn as [Hn|Hn]; [done|]. destruct e; auto.
Qed.

Lemma push_pending_not_ready e s :
  ready_to_close s = false -> pending s <> [] \/ maintenance_active s = true ->
  ready_to_close (push_pending e s) = false.
Proof.
  unfold ready_to_close. cbn. intros Hr Hn. destruct (pending s) as [|f fs] eqn:Ep; cbn; [|done].
  destruct Hn as [Hn|Hn]; [done|]. rewrite Hn. cbn. by rewrite andb_false_r.
Qed.

(** What the handlers establish before the test for a finished close. *)
Definition handled (h : Handled) : Prop :=
  match h with
  | Next s => Core s /\ blocked s
  | Continue s => Inv s
  | Panic _ => False
  end.

Lemma on_submission_inv submission rest s :
  Inv s -> receiver s = EvSubmission submission :: rest ->
  handled (on_submission config submission (set_receiver rest s)).
Proof.
  intros [Hb Hl Hbu Hc Hbl Hn] Er.
  pose proof (receive_base _ _ _ Hb Er eq_refl eq_refl) as Hb0. unfold on_submission.
  cbn [lifecycle set_receiver maintenance_active pending].
  case_decide as Ho; [by split; [apply send_base|..]|].
  destruct (maintenance_active s || negb (is_nil (pending s))) eqn:Em.
  - assert (Hp : pending s <> [] \/ maintenance_active s = true)
      by (destruct (maintenance_active s); [by right|left; by destruct (pending s)]).
    split; [by apply push_pending_base|done|done|by apply (push_pending_closes _ s)
      |by apply (push_pending_blocked _ s)|by apply (push_pending_not_ready _ s)].
  - apply orb_false_elim in Em as [Em Ep]. cbn.
    set (k := sub_key_hash submission). set (s0 := set_receiver rest s).
    pose proof (enqueue_base k (sub_operation submission) s0 Hb0 Em) as He.
    destruct (dispatch_base k _ He Em) as [Hd Hmd].
    pose proof (dispatch_same k _ (base_sender _ He)) as Hsd.
    destruct (available_inv (fun _ => False) _ Hd Hmd) as (Ha & Hsa & Hla & Hba).
    { apply dispatch_no_leak; [apply He|]. apply enqueue_no_leak. by apply no_leak_but_none. }
    pose proof (same_front_trans _ _ _ Hsd Hsa) as Hs.
    assert (Hpend : pending s = []) by by destruct (pending s).
    split; [split; [done|by apply no_leak_but_none|done|]|].
    + exists [], []. rewrite (same_pending _ _ Hs), (same_lifecycle _ _ Hs). cbn. by rewrite Hpend.
    + unfold blocked. rewrite (same_pending _ _ Hs). cbn. by rewrite Hpend.
Qed.

Lemma complete_base c rest s :
  Base s -> receiver s = EvCompletion c :: rest ->
  comp_key_hash c ∈ active s /\ maintenance_active s = false /\
  Base (set_active (active s ∖ {[comp_key_hash c]}) (set_receiver rest s)).
Proof.
  intros [B1 B2 B3 B4 B5 B6 B7 B8 B9] Er. unfold in_flight, maintenance_in_flight in *.
  rewrite Er in *. cbn in B6, B7, B9. set (k := comp_key_hash c) in *.
  assert (Hk : k ∈ active s).
  { apply elem_of_elements. rewrite <-B6. apply elem_of_app. right. left. }
  assert (Hm : maintenance_active s = false).
  { destruct (maintenance_active s); [|done]. destruct (B8 eq_refl) as [E _]. clear -Hk E. set_solver. }
  assert (Hsub : active s = {[k]} ∪ active s ∖ {[k]}).
  { apply union_difference_L. clear -Hk. set_solver. }
  assert (Hsize : size (active s) = S (size (active s ∖ {[k]}))).
  { rewrite Hsub at 1. rewrite size_union by (clear; set_solver). by rewrite size_singleton. }
  split_and!; [done|done|].
  apply andb_prop in B9 as [_ B9].
  split; unfold in_flight, maintenance_in_flight; cbn; try done; try lia.
  - apply (Permutation_cons_inv (a := k)). rewrite Permutation_middle, B6.
    rewrite Hsub at 1. by rewrite elements_union_singleton by (clear; set_solver).
  - by rewrite Hm.
Qed.

Lemma remove_if_empty_base k s : Base s -> maintenance_active s = false -> Base (remove_if_empty k s).
Proof.
  intros [B1 B2 B3 B4 B5 B6 B7 B8 B9] Hm.
  destruct (remove_if_empty_fields k s) as (E1 & E2 & E3 & E4 & E5 & E6 & _).
  split; unfold in_flight, maintenance_in_flight in *; rewrite ?E1, ?E3, ?E4, ?E6; try done.
  by rewrite Hm.
Qed.

Lemma remove_if_empty_no_leak k s :
  no_leak_but (fun k' => k' = k) s ->
  no_leak (if bool_decide (k ∉ active s) then remove_if_empty k s else s).
Proof.
  intros Hl. case_bool_decide as Hk; intros k' Hk'.
  - destruct (remove_if_empty_fields k s) as (-> & _). rewrite remove_if_empty_lookup in Hk'.
    case_decide as Hd; [by destruct (queues s !! k) as [[]|]|]. by destruct (Hl k' Hk').
  - destruct (Hl k' Hk') as [| ->]; [done|]. done.
Qed.

Lemma remove_if_empty_front k s k' : has_front k' (remove_if_empty k s) = has_front k' s.
Proof.
  unfold has_front. rewrite remove_if_empty_lookup. case_decide; [|done]. subst.
  by destruct (queues s !! k) as [[]|].
Qed.

Lemma remove_if_empty_busy k s : busy s -> busy (remove_if_empty k s).
Proof.
  intros Hb k' Hf Ha. rewrite remove_if_empty_front in Hf.
  destruct (remove_if_empty_fields k s) as (E & _). rewrite E in Ha.
  unfold Scheduler.at_capacity. rewrite E. by apply (Hb k').
Qed.

(** The state of [on_completion] before the answer. *)
Definition completion_dispatched (c : Completion) (s : Scheduler) : Scheduler :=
  let k := comp_key_hash c in
  let s := dispatch_available config (dispatch_if_idle k (set_active (active s ∖ {[k]}) s)) in
  if bool_decide (k ∉ active s) then remove_if_empty k s else s.

Lemma send_core answer s : Core s -> Core (send answer s).
Proof. intros [C1 C2 C3 C4]. split; [by apply send_base|done..]. Qed.

Lemma completion_core c rest s :
  Inv s -> receiver s = EvCompletion c :: rest ->
  Core (completion_dispatched c (set_receiver rest s)) /\
  maintenance_active (completion_dispatched c (set_receiver rest s)) = false.
Proof.
  intros [Hb Hl Hbu Hc Hbl Hn] Er.
  destruct (complete_base c rest s Hb Er) as (Hk & Hm & Hb0). unfold completion_dispatched.
  cbn [active set_receiver]. set (k := comp_key_hash c) in *.
  set (s0 := set_active (active s ∖ {[k]}) (set_receiver rest s)) in *.
  assert (Hl0 : no_leak_but (fun k' => k' = k) s0).
  { intros k' Hk'. destruct (decide (k' = k)) as [->|Hne]; [by right|left].
    specialize (Hl k' Hk'). cbn. set_solver. }
  destruct (dispatch_base k s0 Hb0 Hm) as [Hd Hmd].
  pose proof (dispatch_same k _ (base_sender _ Hb0)) as Hsd.
  pose proof (dispatch_no_leak _ k s0 (base_sender _ Hb0) Hl0) as Hld.
  destruct (available_inv (fun k' => k' = k) _ Hd Hmd Hld) as (Ha & Hsa & Hla & Hba).
  set (s2 := dispatch_available config (dispatch_if_idle k s0)) in *.
  pose proof (same_front_trans _ _ _ Hsd Hsa) as Hs.
  set (s3 := if bool_decide (k ∉ active s2) then remove_if_empty k s2 else s2).
  assert (Hm2 : maintenance_active s2 = false) by by rewrite (same_maintenance _ _ Hs).
  assert (Hs3 : same_front s0 s3).
  { unfold s3. case_bool_decide; [|done]. destruct Hs.
    destruct (remove_if_empty_fields k s2) as (E1 & E2 & E3 & E4 & E5 & E6 & _). split; congruence. }
  split; [|by rewrite (same_maintenance _ _ Hs3)]. split; [|by apply remove_if_empty_no_leak| |].
  - unfold s3. case_bool_decide; [by apply remove_if_empty_base|done].
  - unfold s3. case_bool_decide; [by apply remove_if_empty_busy|done].
  - destruct Hc as (before & closes & Ep & Hbf & Hlc). exists before, closes.
    by rewrite (same_pending _ _ Hs3), (same_lifecycle _ _ Hs3).
Qed.

(** The answer of a completion, when its operation survived. *)
Definition completion_answer (c : Completion) : option (Channel * Reply) :=
  '(o, r) ← comp_outcome c; deliver o r.

Definition send_opt (answer : option (Channel * Reply)) (s : Scheduler) : Scheduler :=
  match answer with Some answer => send answer s | None => s end.

Lemma on_completion_next c s :
  well_matched (EvCompletion c) = true ->
  on_completion config c s =
    Next (advance_pending_if_ready config (send_opt (completion_answer c) (completion_dispatched c s))).
Proof.
  intros Hm. unfold on_completion. cbv zeta. fold (completion_dispatched c s). unfold completion_answer.
  destruct c as [k [[o r]|]]; cbn; [|done]. unfold well_matched, matching in Hm.
  by destruct (deliver o r).
Qed.

Lemma receive_matched event rest s : Inv s -> receiver s = event :: rest -> well_matched event = true.
Proof.
  intros Hs Er. pose proof (base_matched _ (inv_base _ Hs)) as Hm. rewrite Er in Hm.
  by apply andb_prop in Hm as [? _].
Qed.

Lemma on_completion_inv c rest s :
  0 < max -> Inv s -> receiver s = EvCompletion c :: rest ->
  handled (on_completion config c (set_receiver rest s)).
Proof.
  intros Hmax Hs Er. rewrite on_completion_next by by eapply receive_matched. apply advance_core; [done|].
  destruct (completion_core c rest s Hs Er) as [Hc _].
  destruct (completion_answer c); [by apply send_core|done].
Qed.

Lemma barrier_core e rest event s :
  Inv s -> receiver s = event :: rest ->
  completion_key event = None -> is_maintenance_completion event = false ->
  is_close e = false -> lifecycle s = Open ->
  Core (push_pending e (set_receiver rest s)).
Proof.
  intros [Hb Hl Hbu Hc Hbl Hn] Er H1 H2 He Ho.
  pose proof (receive_base _ _ _ Hb Er H1 H2) as Hb0.
  split; [by apply push_pending_base|done|done|by apply (push_pending_closes e s)].
Qed.

(** The state of [on_maintenance_completion] before the loop. *)
Definition maintenance_answered (outcome : option MaintenanceOutcome) (s : Scheduler) : Scheduler :=
  match outcome with
  | Some (sender, r) => send (sender, ReplyCleanup r) (set_maintenance false s)
  | None => set_maintenance false s
  end.

Lemma maintenance_completion_core outcome rest s :
  Inv s -> receiver s = EvMaintenanceCompletion outcome :: rest ->
  Core (maintenance_answered outcome (set_receiver rest s)).
Proof.
  intros [Hb Hl Hbu Hc Hbl Hn] Er. unfold maintenance_answered.
  assert (Hb0 : Base (set_maintenance false (set_receiver rest s))).
  { destruct Hb as [B1 B2 B3 B4 B5 B6 B7 B8 B9]. unfold in_flight, maintenance_in_flight in *.
    rewrite Er in *. cbn in B6, B7, B9.
    assert (Hm : maintenance_active s = true) by (destruct (maintenance_active s); [done|lia]).
    rewrite Hm in B7. split; unfold in_flight, maintenance_in_flight; cbn; try done. lia. }
  destruct outcome as [[sender r]|]; (split; [by try apply send_base|done|done|done]).
Qed.

(** The state of [on_close] before the loop, in a store that is not closed. *)
Definition close_queued (sender : Channel) (s : Scheduler) : Scheduler :=
  push_pending (PeClose sender) (set_lifecycle Closing s).

Lemma close_core sender rest s :
  Inv s -> receiver s = EvClose sender :: rest ->
  on_close config sender (set_receiver rest s) =
    Next (advance_pending_if_ready config (close_queued sender (set_receiver rest s))) /\
  Core (close_queued sender (set_receiver rest s)).
Proof.
  intros [Hb Hl Hbu Hc Hbl Hn] Er. unfold on_close.
  pose proof (receive_base _ _ _ Hb Er eq_refl eq_refl) as Hb0. cbn [lifecycle set_receiver].
  destruct Hc as (before & closes & Ep & Hbf & Hlc). split.
  - destruct (lifecycle s) eqn:El; try (by destruct closes). unfold close_queued.
    do 3 f_equal. destruct s. cbn in El. by subst.
  - split; [by destruct Hb0|done|done|]. exists before, (closes ++ [sender]). cbn. rewrite Ep, map_app. cbn.
    split_and!; [by rewrite app_assoc|done|by destruct closes].
Qed.

Lemma handle_event_inv event rest s :
  0 < max -> Inv s -> receiver s = event :: rest ->
  handled (handle_event config event (set_receiver rest s)).
Proof.
  intros Hmax Hs Er. destruct event as [sub|c|sub|outcome|ch|ch]; cbn [handle_event].
  - by apply on_submission_inv.
  - by apply on_completion_inv.
  - unfold on_maintenance. case_decide as Ho.
    + destruct Hs as [Hb Hl Hbu Hc Hbl Hn]. pose proof (receive_base _ _ _ Hb Er eq_refl eq_refl).
      by split; [apply send_base|..].
    + apply advance_core; [done|]. by eapply barrier_core.
  - unfold on_maintenance_completion. pose proof (maintenance_completion_core outcome rest s Hs Er).
    apply advance_core; [done|]. by destruct outcome as [[]|].
  - unfold on_flush. case_decide as Ho.
    + destruct Hs as [Hb Hl Hbu Hc Hbl Hn]. pose proof (receive_base _ _ _ Hb Er eq_refl eq_refl).
      by split; [apply send_base|..].
    + apply advance_core; [done|]. by eapply barrier_core.
  - destruct (close_core ch rest s Hs Er) as [-> H]. by apply advance_core.
Qed.

(** ** Closing and turns *)

(** A coordinator that returned after a close: nothing is left anywhere. *)
Record Finished_state (s : Scheduler) : Prop := {
  finished_active : active s = ∅;
  finished_waiting : waiting (queues s) = [];
  finished_pending : pending s = [];
  finished_maintenance : maintenance_active s = false;
  finished_channel : channel (worker_pool s) = [];
  finished_handles : handles (worker_pool s) = [];
  finished_receiver : receiver s = [];
  finished_lifecycle : lifecycle s = Closed \/ lifecycle s = ShutdownFailed;
}.

Lemma answer_closes_spec outcome closes s :
  answer_closes outcome (map PeClose closes) s =
    set_sent (sent s ++ map (fun ch => (ch, close_reply outcome)) closes)
      (set_pending (if closes is [] then pending s else []) s).
Proof.
  revert s; induction closes as [|ch closes IH]; intros s; cbn.
  - rewrite app_nil_r. by destruct s.
  - rewrite IH. cbn. rewrite <-app_assoc. cbn. by destruct closes.
Qed.

(** What holds when the test for a finished close succeeds. *)
Lemma ready_to_close_inv s :
  Core s -> ready_to_close s = true ->
  active s = ∅ /\ waiting (queues s) = [] /\ maintenance_active s = false /\
  (exists closes, closes <> [] /\ pending s = map PeClose closes) /\
  channel (worker_pool s) = [] /\
  omap completion_key (receiver s) = [] /\ List.filter is_maintenance_completion (receiver s) = [].
Proof.
  intros [Hb Hl Hbu (before & closes & Ep & Hbf & Hlc)]. unfold ready_to_close.
  destruct (pending s) as [|e rest] eqn:E; [done|]. intros H.
  apply andb_prop in H as [H Hm]. apply andb_prop in H as [He Hi]. apply negb_true_iff in Hm.
  apply idle_spec in Hi as [Ha Hw]. destruct Hb as [B1 B2 B3 B4 B5 B6 B7 B8 B9].
  unfold in_flight, maintenance_in_flight in *. rewrite Ha, elements_empty in B6. rewrite Hm in B7.
  apply Permutation_nil_r in B6. apply app_nil in B6 as [B6 B6'].
  assert (List.filter is_maintenance_job (channel (worker_pool s)) = [] /\
          List.filter is_maintenance_completion (receiver s) = []) as [F1 F2]
    by (split; apply length_zero_iff_nil; lia).
  split_and!; try done.
  - exists closes. destruct before as [|e' before].
    + cbn in Ep. split; [by intros ->|done].
    + cbn in Ep. simplify_eq. cbn in Hbf. by rewrite He in Hbf.
  - destruct (channel (worker_pool s)) as [|[k o|m] jobs]; done.
Qed.

Lemma finish_close_inv s :
  Core s -> ready_to_close s = true -> Finished_state (finish_close s).
Proof.
  intros Hc Hr. destruct (ready_to_close_inv s Hc Hr) as (Ha & Hw & Hm & (cl & Hne & Ep) & Hch & _ & _).
  unfold finish_close, on_pool, shutdown. cbn [worker_pool set_pool set_lifecycle].
  set (outcome := if existsb id (handles (worker_pool s)) then Err ShutdownFailure else Ok tt).
  cbn [pending set_pool set_lifecycle]. rewrite Ep, answer_closes_spec. destruct cl as [|c cl]; [done|].
  split; cbn; try done. unfold outcome. destruct (existsb _ _); [by right|by left].
Qed.

Lemma turn_inv event rest s :
  0 < max -> Inv s -> receiver s = event :: rest ->
  match coordinator_turn config event (set_receiver rest s) with
  | Looped s' => Inv s'
  | Returned s' => Finished_state s'
  | Panicked _ => False
  end.
Proof.
  intros Hmax Hs Er. pose proof (handle_event_inv event rest s Hmax Hs Er) as H.
  unfold coordinator_turn. destruct (handle_event config event (set_receiver rest s)) as [s'|s'|s'].
  - destruct H as [Hc Hb]. destruct (ready_to_close s') eqn:Hr; [by apply finish_close_inv|].
    by destruct Hc.
  - done.
  - done.
Qed.

(** ** What the invariant says *)

(** Something waits, so something runs. *)
Lemma inv_progress s :
  0 < max -> Inv s -> pending s <> [] \/ waiting (queues s) <> [] ->
  active s <> ∅ \/ maintenance_active s = true.
Proof.
  intros Hmax [Hb Hl Hbu Hc Hbl Hn] Hw.
  assert (Hq : waiting (queues s) <> [] -> active s <> ∅).
  { intros Hne. destruct (waiting (queues s)) as [|o l] eqn:Ew; [done|].
    destruct (waiting_cons _ _ _ Ew) as (k & op & rest & Ek).
    destruct (decide (k ∈ active s)) as [Hk|Hk]; [intros E; rewrite E in Hk; clear -Hk; set_solver|].
    assert (Hcap : at_capacity s = true) by (apply (Hbu k); [unfold has_front; by rewrite Ek|done]).
    unfold Scheduler.at_capacity in Hcap. reflect_bools. intros E. rewrite E, size_empty in Hcap. lia. }
  destruct (maintenance_active s) eqn:Hm; [by right|left].
  assert (Hi : idle s = false -> active s <> ∅).
  { intros Hi E. destruct (decide (waiting (queues s) = [])) as [Ew|Ew]; [|by apply Hq].
    assert (idle s = true) by (by apply idle_spec). congruence. }
  destruct Hw as [Hp|Hwq]; [|by apply Hq].
  unfold blocked in Hbl. unfold ready_to_close in Hn. rewrite Hm in *.
  destruct (pending s) as [|[sub|sub|ch|ch] rest]; [done|congruence|destruct Hbl; [congruence|auto]..|].
  apply Hi. cbn in Hn. by rewrite andb_true_r in Hn.
Qed.

Lemma new_inv spawns : Inv (Scheduler_new config spawns).
Proof.
  split; [split|..]; cbn; try done; try lia.
  - rewrite size_empty. lia.
  - by exists [], [].
Qed.

End Invariant.
