(* ===== verification/SchedulerTrace.v ===== *)
(** * What the coordinator does with the calls it accepted

    Two conservation laws.  Every accepted call is, at any time, in exactly one
    place: waiting, running, completed, or answered.  And for every key, the
    order in which operations leave the queue is the order in which they were
    accepted. *)
From S2P Require Export SchedulerInv.

Local Open Scope N_scope.
Local Open Scope blob_scope.

(** ** Shares of a channel *)

Definition cnt (ch : Channel) (l : list Channel) : nat := length (List.filter (N.eqb ch) l).

Lemma cnt_app ch l1 l2 : cnt ch (l1 ++ l2) = (cnt ch l1 + cnt ch l2)%nat.
Proof. unfold cnt. by rewrite List.filter_app, length_app. Qed.

Lemma cnt_cons ch x l : cnt ch (x :: l) = ((if (ch =? x)%N then 1 else 0) + cnt ch l)%nat.
Proof. unfold cnt. cbn. by destruct (ch =? x). Qed.

Lemma cnt_nil ch : cnt ch [] = 0%nat.
Proof. done. Qed.

Lemma cnt_perm ch l1 l2 : Permutation l1 l2 -> cnt ch l1 = cnt ch l2.
Proof.
  induction 1 as [|x l1 l2 _ IH|x y l|]; [done| | |congruence]; rewrite ?cnt_cons; [lia|].
  destruct (ch =? x), (ch =? y); lia.
Qed.

Lemma cnt_in ch l : (0 < cnt ch l)%nat <-> ch ∈ l.
Proof.
  unfold cnt. induction l as [|x l IH]; cbn; [split; [lia|set_solver]|].
  destruct (N.eqb_spec ch x) as [->|Hne]; cbn; [split; [left|lia]|].
  rewrite IH, elem_of_cons. by split; [right|intros [?|?]].
Qed.

Lemma cnt_nodup ch l : NoDup l -> (cnt ch l <= 1)%nat.
Proof.
  unfold cnt. induction 1 as [|x l Hx Hl IH]; cbn; [lia|].
  destruct (N.eqb_spec ch x) as [->|Hne]; [|done]. cbn.
  assert (~ (0 < cnt x l)%nat) by by rewrite cnt_in. unfold cnt in *. lia.
Qed.

#[global] Arguments cnt : simpl never.
#[global] Arguments waiting : simpl never.

Definition pending_sender (e : PendingEvent) : Channel :=
  match e with
  | PeSubmission sub => op_sender (sub_operation sub)
  | PeMaintenance sub => maint_sender sub
  | PeFlush ch | PeClose ch => ch
  end.

Definition job_sender (j : WorkerJob) : Channel :=
  match j with OperationJob _ op => op_sender op | MaintenanceJob sub => maint_sender sub end.

Definition event_sender (e : CoordinatorEvent) : option Channel :=
  match e with
  | EvSubmission sub => Some (op_sender (sub_operation sub))
  | EvCompletion c => op_sender ∘ fst <$> comp_outcome c
  | EvMaintenance sub => Some (maint_sender sub)
  | EvMaintenanceCompletion outcome => fst <$> outcome
  | EvFlush ch | EvClose ch => Some ch
  end.

(** The senders of the calls that still wait for their answer. *)
Definition owed (s : Scheduler) : list Channel :=
  map op_sender (waiting (queues s)) ++ map pending_sender (pending s) ++
  map job_sender (channel (worker_pool s)) ++ omap event_sender (receiver s).

(** How often a channel occurs among the calls owed and the answers sent. *)
Definition share (ch : Channel) (s : Scheduler) : nat :=
  (cnt ch (map op_sender (waiting (queues s))) + cnt ch (map pending_sender (pending s)) +
   cnt ch (map job_sender (channel (worker_pool s))) + cnt ch (omap event_sender (receiver s)) +
   cnt ch (map fst (sent s)))%nat.

Lemma share_owed ch s : share ch s = (cnt ch (owed s) + cnt ch (map fst (sent s)))%nat.
Proof. unfold share, owed. rewrite !cnt_app. lia. Qed.

(** ** Order of a key *)

Definition taken_of (k : KeyHash) (s : Scheduler) : list Operation :=
  omap (fun '(k', op) => if decide (k' = k) then Some op else None) (taken s).

Definition queue_of (k : KeyHash) (s : Scheduler) : list Operation := default [] (queues s !! k).

Definition pending_of (k : KeyHash) (s : Scheduler) : list Operation :=
  omap (fun e => match e with
    | PeSubmission sub => if decide (sub_key_hash sub = k) then Some (sub_operation sub) else None
    | _ => None
    end) (pending s).

Definition jobs_of (k : KeyHash) (jobs : list WorkerJob) : list Operation :=
  omap (fun j => match j with
    | OperationJob k' op => if decide (k' = k) then Some op else None
    | MaintenanceJob _ => None
    end) jobs.

(** The accepted operations of a key: those taken, then those waiting. *)
Definition pipeline (k : KeyHash) (s : Scheduler) : list Operation :=
  taken_of k s ++ queue_of k s ++ pending_of k s.

Section Conservation.
Context {Order : HashMapOrder} {OrderL : HashMapOrderLaws}.
Context (config : StoreConfig).

Abbreviation dispatch_if_idle := (dispatch_if_idle config).

(** The operations of a key in [l], which ran, and then its jobs in the pool are
    operations taken off the queue, in the order in which they were taken. *)
Definition in_order (l : list Operation) (k : KeyHash) (s : Scheduler) : Prop :=
  sublist (l ++ jobs_of k (channel (worker_pool s))) (taken_of k s).

(** Two states with the same calls in the same order. *)
Record conserves (s s' : Scheduler) : Prop := {
  conserves_share ch : share ch s' = share ch s;
  conserves_pipeline k : pipeline k s' = pipeline k s;
  conserves_jobs l k : in_order l k s -> in_order l k s';
}.

Lemma conserves_refl s : conserves s s.
Proof. done. Qed.

Lemma conserves_trans s1 s2 s3 : conserves s1 s2 -> conserves s2 s3 -> conserves s1 s3.
Proof. intros [] []. split; intros; [congruence|congruence|auto]. Qed.

(** What taking the front operation of [k] does to the two laws. *)
Lemma take_front_pipeline k op rest p s k' :
  queues s !! k = Some (op :: rest) -> pipeline k' (take_front k op rest p s) = pipeline k' s.
Proof.
  intros E. unfold pipeline, taken_of, queue_of, pending_of. cbn.
  rewrite omap_app. cbn. destruct (decide (k = k')) as [<-|Hne].
  - rewrite lookup_insert_eq, E. cbn. by rewrite <-!app_assoc.
  - rewrite lookup_insert_ne by done. by rewrite app_nil_r.
Qed.

Lemma take_front_share k op rest p s ch :
  queues s !! k = Some (op :: rest) -> channel p = channel (worker_pool s) ->
  (share ch (take_front k op rest p s) + (if (ch =? op_sender op)%N then 1 else 0) = share ch s)%nat.
Proof.
  intros E Hch. pose proof (take_front_waiting k op rest p s E) as Hw.
  apply (Permutation_map op_sender), (cnt_perm ch) in Hw. cbn [map] in Hw. rewrite cnt_cons in Hw.
  unfold share. cbn in *. rewrite Hch. lia.
Qed.

Lemma taken_snoc k k' op (l : list (KeyHash * Operation)) :
  omap (fun '(k'', o) => if decide (k'' = k') then Some o else None) (l ++ [(k, op)]) =
  omap (fun '(k'', o) => if decide (k'' = k') then Some o else None) l ++
    (if decide (k = k') then [op] else []).
Proof. rewrite omap_app. cbn. by case_decide. Qed.

Lemma taken_in_order l k op rest p s k' :
  channel p = channel (worker_pool s) -> in_order l k' s -> in_order l k' (take_front k op rest p s).
Proof.
  intros Hch Hj. unfold in_order, taken_of. cbn. rewrite Hch, taken_snoc. by apply sublist_inserts_r.
Qed.

Lemma started_in_order l k op rest p s k' :
  channel p = channel (worker_pool s) -> pool_sender p = true ->
  in_order l k' s -> in_order l k' (started k op rest p s).
Proof.
  intros Hch Hp Hj. unfold in_order, started, execute, taken_of. cbn. rewrite Hp. cbn.
  rewrite Hch, taken_snoc. unfold jobs_of. rewrite omap_app, app_assoc. apply sublist_app; [done|].
  cbn. by case_decide.
Qed.

Lemma dispatch_conserves k s :
  pool_sender (worker_pool s) = true -> conserves s (dispatch_if_idle k s).
Proof.
  intros Hp. destruct (dispatch_if_idle_dispatches config k s Hp) as
    [H|op rest p Ha Hc Hq [P1 P2 P3 P4] Hh Hw|op rest p Ha Hc Hq [P1 P2 P3 P4] Hh].
  - done.
  - split; [|intros k'; by apply (take_front_pipeline k op rest p s k')|].
    2:{ intros l k'. apply started_in_order; [done|by rewrite P1]. }
    intros ch. pose proof (take_front_share k op rest p s ch Hq P2) as Hs.
    unfold started, execute. rewrite P1, Hp. unfold share in *. cbn in *.
    rewrite map_app, cnt_app. cbn. rewrite cnt_cons, cnt_nil. cbn in *. lia.
  - pose proof (remove_if_empty_fields k (send (deliver_error op WorkerUnavailable)
      (take_front k op rest p s))) as (E1 & E2 & E3 & E4 & E5 & E6 & E7 & E8 & E9).
    split.
    + intros ch. pose proof (take_front_share k op rest p s ch Hq P2) as Hs. unfold refused, share in *.
      rewrite E2, E4, E6, E7. pose proof (remove_if_empty_waiting k (send (deliver_error op WorkerUnavailable)
        (take_front k op rest p s))) as Hw.
      apply (Permutation_map op_sender), (cnt_perm ch) in Hw. rewrite Hw. cbn in *.
      rewrite map_app, cnt_app. cbn. rewrite cnt_cons, cnt_nil, deliver_error_sender. cbn in *. lia.
    + intros k'. rewrite <-(take_front_pipeline k op rest p s k' Hq).
      unfold refused, pipeline, taken_of, queue_of, pending_of. rewrite E2, E8.
      rewrite remove_if_empty_lookup. cbn. do 2 f_equal. case_decide as Hd; [|done]. subst k'.
      rewrite lookup_insert_eq. by destruct rest.
    + intros l k' Hj. apply (taken_in_order l k op rest p s k' P2) in Hj. unfold in_order, taken_of, refused in *.
      by rewrite E4, E8.
Qed.

Lemma dispatch_sender k s :
  pool_sender (worker_pool s) = true -> pool_sender (worker_pool (dispatch_if_idle k s)) = true.
Proof.
  intros Hp. destruct (dispatch_if_idle_dispatches config k s Hp) as
    [H|op rest p Ha Hc Hq [P1 P2 P3 P4] Hh Hw|op rest p Ha Hc Hq [P1 P2 P3 P4] Hh]; [done| |].
  - unfold started, execute. cbn. rewrite P1. cbn. by rewrite Hp.
  - unfold refused. destruct (remove_if_empty_fields k (send (deliver_error op WorkerUnavailable)
      (take_front k op rest p s))) as (_ & _ & _ & -> & _). cbn. by rewrite P1.
Qed.

Lemma available_conserves_sender s :
  pool_sender (worker_pool s) = true ->
  pool_sender (worker_pool (dispatch_available config s)) = true /\
  conserves s (dispatch_available config s).
Proof.
  intros Hp. apply (dispatch_available_ind config
    (fun t => pool_sender (worker_pool t) = true /\ conserves s t) s); [by intros t []| |by split].
  intros k t [Ht Hc] _ _ _. split; [by apply dispatch_sender|].
  eapply conserves_trans; [exact Hc|]. apply (conserves_trans _ (next_turn t)); [done|].
  by apply dispatch_conserves.
Qed.

Lemma available_sender s :
  pool_sender (worker_pool s) = true -> pool_sender (worker_pool (dispatch_available config s)) = true.
Proof. apply available_conserves_sender. Qed.

Lemma available_conserves s :
  pool_sender (worker_pool s) = true -> conserves s (dispatch_available config s).
Proof. apply available_conserves_sender. Qed.

(** A state that gained an accepted operation of [k0], if any, and the
    shares in [l]. *)
Record gains (l : list Channel) (accepted : option (KeyHash * Operation)) (s s' : Scheduler) : Prop := {
  gains_share ch : share ch s' = (share ch s + cnt ch l)%nat;
  gains_pipeline k : pipeline k s' =
    pipeline k s ++ match accepted with
                    | Some (k', op) => if decide (k' = k) then [op] else []
                    | None => []
                    end;
  gains_jobs l k : in_order l k s -> in_order l k s';
}.

Lemma gains_then l a s1 s2 s3 : gains l a s1 s2 -> conserves s2 s3 -> gains l a s1 s3.
Proof. intros [A B J] [C D K]. split; intros; [by rewrite C, A|by rewrite D, B|auto]. Qed.

Lemma gains_after l a s1 s2 s3 : conserves s1 s2 -> gains l a s2 s3 -> gains l a s1 s3.
Proof. intros [A B J] [C D K]. split; intros; [by rewrite C, A|by rewrite D, B|auto]. Qed.

Lemma conserves_gains s s' : conserves s s' -> gains [] None s s'.
Proof. intros [H1 H2 H3]. split; intros; [by rewrite H1, Nat.add_0_r|by rewrite H2, app_nil_r|auto]. Qed.

Lemma send_gains answer s : gains [fst answer] None s (send answer s).
Proof.
  split; intros; [|by rewrite app_nil_r|done]. unfold share. cbn. rewrite map_app, cnt_app. cbn. lia.
Qed.

Lemma push_pending_gains e s :
  gains [pending_sender e]
    (match e with PeSubmission sub => Some (sub_key_hash sub, sub_operation sub) | _ => None end)
    s (push_pending e s).
Proof.
  split; intros.
  - unfold share. cbn. rewrite map_app, cnt_app. cbn. lia.
  - unfold pipeline, pending_of. cbn. rewrite omap_app, !app_assoc. f_equal. by destruct e; cbn; try case_decide.
  - done.
Qed.

Lemma enqueue_gains k op s :
  pending_of k s = [] -> gains [op_sender op] (Some (k, op)) s (enqueue k op s).
Proof.
  intros Hp. split.
  - intros ch. unfold share. cbn.
    pose proof (waiting_replace (queues s) k (default [] (queues s !! k) ++ [op])) as H1.
    pose proof (waiting_delete (queues s) k) as H2.
    apply (Permutation_map op_sender), (cnt_perm ch) in H1, H2. rewrite H1, H2.
    rewrite !map_app, !cnt_app. cbn. lia.
  - intros k'. unfold pipeline. change (taken_of k' (enqueue k op s)) with (taken_of k' s).
    change (pending_of k' (enqueue k op s)) with (pending_of k' s). unfold queue_of. cbn [queues enqueue set_queues].
    case_decide as Hd.
    + subst k'. rewrite lookup_insert_eq, Hp, !app_nil_r. cbn [default]. by rewrite <-?app_assoc.
    + rewrite lookup_insert_ne by done. by rewrite app_nil_r.
  - done.
Qed.

(** Moving the submission at the front of [pending] to its queue. *)
Lemma requeue_conserves sub rest s :
  pending s = PeSubmission sub :: rest ->
  conserves s (enqueue (sub_key_hash sub) (sub_operation sub) (set_pending rest s)).
Proof.
  intros Ep. set (k := sub_key_hash sub). set (op := sub_operation sub). split.
  - intros ch. unfold share. cbn. rewrite Ep. cbn. rewrite cnt_cons.
    pose proof (waiting_replace (queues s) k (default [] (queues s !! k) ++ [op])) as H1.
    pose proof (waiting_delete (queues s) k) as H2.
    apply (Permutation_map op_sender), (cnt_perm ch) in H1, H2. rewrite H1, H2.
    rewrite !map_app, !cnt_app. cbn. rewrite cnt_cons, cnt_nil. fold op. lia.
  - intros k'. unfold pipeline, queue_of, pending_of. cbn. rewrite Ep. cbn. fold k op.
    destruct (decide (k = k')) as [<-|Hne].
    + rewrite lookup_insert_eq. cbn. by rewrite <-!app_assoc.
    + by rewrite lookup_insert_ne.
  - done.
Qed.

Lemma pop_flush_conserves ch0 reply rest s :
  pending s = PeFlush ch0 :: rest -> conserves s (send (ch0, reply) (set_pending rest s)).
Proof.
  intros Ep. split.
  - intros ch. unfold share. cbn. rewrite Ep. cbn. rewrite map_app, cnt_app. cbn.
    rewrite !cnt_cons, cnt_nil. lia.
  - intros k. unfold pipeline, pending_of. cbn. by rewrite Ep.
  - done.
Qed.

Lemma dispatch_maintenance_conserves sub rest s :
  pool_sender (worker_pool s) = true -> pending s = PeMaintenance sub :: rest ->
  conserves s (dispatch_maintenance sub (set_maintenance true (set_pending rest s))).
Proof.
  intros Hp Ep. unfold dispatch_maintenance, on_pool. cbn [worker_pool set_maintenance set_pending].
  pose proof (prepare_spec 1 (worker_pool s)) as Hpr.
  destruct (prepare 1 (worker_pool s)) as [[[]|e] p]; destruct Hpr as ([P1 P2 P3 P4] & _).
  - unfold prepare_dispatch, ret. cbn [worker_pool set_pool]. unfold execute. rewrite P1, Hp. split.
    + intros ch. unfold share. cbn. rewrite Ep, P2, map_app, cnt_app. cbn. rewrite !cnt_cons, cnt_nil. lia.
    + intros k. unfold pipeline, pending_of. cbn. by rewrite Ep.
    + intros l k Hj. unfold in_order, jobs_of. cbn. rewrite P2, omap_app. cbn. by rewrite app_nil_r.
  - split.
    + intros ch. unfold share. cbn. rewrite Ep, P2, omap_app, map_app, !cnt_app. cbn.
      rewrite !cnt_cons, !cnt_nil. lia.
    + intros k. unfold pipeline, pending_of. cbn. by rewrite Ep.
    + intros l k Hj. unfold in_order. cbn. by rewrite P2.
Qed.

Lemma advance_conserves s :
  pool_sender (worker_pool s) = true -> conserves s (advance_pending_if_ready config s).
Proof.
  intros Hp. destruct (maintenance_active s) eqn:Hm.
  { unfold advance_pending_if_ready. by rewrite Hm. }
  apply (advance_ind config (fun t => pool_sender (worker_pool t) = true /\ conserves s t)
    (fun t => conserves s t)); [by intros t []| | | |by intros t []|by split|done].
  - intros t sub rest [Ht Hc] Ep. split.
    + by apply dispatch_sender.
    + eapply conserves_trans; [exact Hc|]. eapply conserves_trans; [by apply requeue_conserves|].
      by apply dispatch_conserves.
  - intros t ch rest [Ht Hc] Ep _. split; [done|]. eapply conserves_trans; [exact Hc|].
    by apply pop_flush_conserves.
  - intros t sub rest [Ht Hc] Ep _. eapply conserves_trans; [exact Hc|].
    by apply dispatch_maintenance_conserves.
Qed.

(** ** Events *)

Definition senders (o : option Channel) : list Channel := match o with Some ch => [ch] | None => [] end.

Lemma receive_share event rest s ch :
  receiver s = event :: rest ->
  share ch s = (share ch (set_receiver rest s) + cnt ch (senders (event_sender event)))%nat.
Proof.
  intros Er. unfold share. cbn. rewrite Er. cbn. destruct (event_sender event) as [c|]; cbn;
    rewrite ?cnt_cons, ?cnt_nil; lia.
Qed.

Lemma remove_if_empty_conserves k s : conserves s (remove_if_empty k s).
Proof.
  destruct (remove_if_empty_fields k s) as (E1 & E2 & E3 & E4 & E5 & E6 & E7 & E8 & E9). split.
  - intros ch. unfold share. rewrite E2, E4, E6, E7.
    pose proof (remove_if_empty_waiting k s) as Hw.
    apply (Permutation_map op_sender), (cnt_perm ch) in Hw. by rewrite Hw.
  - intros k'. unfold pipeline, taken_of, queue_of, pending_of. rewrite E2, E8, remove_if_empty_lookup.
    do 2 f_equal. case_decide; [subst|done]. by destruct (queues s !! k) as [[]|].
  - intros l k' Hj. unfold in_order, taken_of. by rewrite E4, E8.
Qed.

(** The operation that an event adds to the pipeline of its key. *)
Definition accepts_operation (event : CoordinatorEvent) (s : Scheduler) : option (KeyHash * Operation) :=
  match event with
  | EvSubmission sub =>
      if decide (lifecycle s = Open) then Some (sub_key_hash sub, sub_operation sub) else None
  | _ => None
  end.

Definition handled_state (h : Handled) : Scheduler :=
  match h with Next s | Continue s | Panic s => s end.

Lemma on_submission_gains sub s :
  pool_sender (worker_pool s) = true ->
  gains [op_sender (sub_operation sub)] (accepts_operation (EvSubmission sub) s) s
    (handled_state (on_submission config sub s)).
Proof.
  intros Hp. unfold on_submission, accepts_operation.
  destruct (decide (lifecycle s <> Open)) as [Ho|Ho];
    destruct (decide (lifecycle s = Open)) as [Ho'|Ho']; try done.
  - rewrite <-(deliver_error_sender (sub_operation sub) StoreClosed). apply send_gains.
  - destruct (maintenance_active s || negb (is_nil (pending s))) eqn:E; cbn [handled_state].
    + apply (push_pending_gains (PeSubmission sub)).
    + apply orb_false_elim in E as [_ E].
      assert (Hpend : pending s = []) by by destruct (pending s).
      eapply gains_then; [apply enqueue_gains; unfold pending_of; by rewrite Hpend|].
      eapply conserves_trans; [by apply dispatch_conserves|]. apply available_conserves.
      by apply dispatch_sender.
Qed.

Lemma completion_dispatched_conserves c s :
  pool_sender (worker_pool s) = true ->
  pool_sender (worker_pool (completion_dispatched config c s)) = true /\
  conserves s (completion_dispatched config c s).
Proof.
  intros Hp. unfold completion_dispatched. set (k := comp_key_hash c).
  set (s0 := set_active (active s ∖ {[k]}) s).
  assert (Hp1 : pool_sender (worker_pool (dispatch_if_idle k s0)) = true) by by apply dispatch_sender.
  pose proof (available_sender _ Hp1) as Hp2. set (s2 := dispatch_available _ _) in *.
  assert (H2 : conserves s s2).
  { apply (conserves_trans _ s0); [done|]. eapply conserves_trans; [by apply dispatch_conserves|].
    by apply available_conserves. }
  case_bool_decide; [|done]. destruct (remove_if_empty_fields k s2) as (_ & _ & _ & -> & _).
  split; [done|]. eapply conserves_trans; [exact H2|apply remove_if_empty_conserves].
Qed.

(** The state of [on_completion] before the loop. *)
Lemma completion_gains c s :
  pool_sender (worker_pool s) = true -> well_matched (EvCompletion c) = true ->
  gains (senders (event_sender (EvCompletion c))) None s
    (send_opt (completion_answer c) (completion_dispatched config c s)).
Proof.
  intros Hp Hm. destruct (completion_dispatched_conserves c s Hp) as [_ Hc].
  unfold completion_answer. destruct c as [k [[o r]|]]; cbn; [|by apply conserves_gains].
  unfold well_matched, matching in Hm. destruct (deliver o r) as [[ch reply]|] eqn:Ed; [|done].
  apply deliver_sender in Ed as <-. eapply gains_after; [exact Hc|apply (send_gains (ch, reply))].
Qed.

Lemma send_opt_sender answer s : worker_pool (send_opt answer s) = worker_pool s.
Proof. by destruct answer. Qed.

Lemma on_completion_gains c s :
  pool_sender (worker_pool s) = true -> well_matched (EvCompletion c) = true ->
  gains (senders (event_sender (EvCompletion c))) None s (handled_state (on_completion config c s)).
Proof.
  intros Hp Hm. rewrite on_completion_next by done. eapply gains_then; [by apply completion_gains|].
  apply advance_conserves. rewrite send_opt_sender. by apply completion_dispatched_conserves.
Qed.

Lemma barrier_gains e s :
  pool_sender (worker_pool s) = true ->
  (forall sub, e <> PeSubmission sub) ->
  gains [pending_sender e] None s (advance_pending_if_ready config (push_pending e s)).
Proof.
  intros Hp He. eapply gains_then; [|by apply advance_conserves].
  pose proof (push_pending_gains e s) as H. by destruct e; [destruct (He submission)|..].
Qed.

Lemma handle_event_gains event s :
  pool_sender (worker_pool s) = true -> well_matched event = true ->
  gains (senders (event_sender event)) (accepts_operation event s) s
    (handled_state (handle_event config event s)).
Proof.
  intros Hp Hm. destruct event as [sub|c|sub|outcome|ch|ch]; cbn [handle_event].
  - by apply on_submission_gains.
  - by apply on_completion_gains.
  - unfold on_maintenance. case_decide; cbn [handled_state].
    + apply (send_gains (maint_sender sub, _)).
    + by apply (barrier_gains (PeMaintenance sub)).
  - unfold on_maintenance_completion. cbn [handled_state]. eapply gains_then; [|apply advance_conserves].
    + destruct outcome as [[ch r]|]; cbn; [|by apply conserves_gains].
      apply (gains_after _ _ _ (set_maintenance false s)); [done|]. apply (send_gains (ch, _)).
    + by destruct outcome as [[]|].
  - unfold on_flush. case_decide; cbn [handled_state].
    + apply (send_gains (ch, _)).
    + by apply (barrier_gains (PeFlush ch)).
  - unfold on_close. cbn [handled_state]. eapply gains_then; [|apply advance_conserves; by destruct (lifecycle s)].
    destruct (lifecycle s); try apply (send_gains (ch, _)).
    + apply (gains_after _ _ _ (set_lifecycle Closing s)); [done|]. apply (push_pending_gains (PeClose ch)).
    + apply (push_pending_gains (PeClose ch)).
Qed.

(** A close answers everything that is left. *)
Lemma finish_close_conserves s :
  Core config s -> ready_to_close s = true -> conserves s (finish_close s).
Proof.
  intros Hc Hr. destruct (ready_to_close_inv config s Hc Hr) as (Ha & Hw & Hm & (cl & Hne & Ep) & Hch & Hk & Hmc).
  unfold finish_close, on_pool, shutdown. cbn [worker_pool set_pool set_lifecycle pending].
  set (outcome := if existsb id (handles (worker_pool s)) then Err ShutdownFailure else Ok tt).
  rewrite Ep, answer_closes_spec. destruct cl as [|c cl]; [done|]. split.
  - intros ch. unfold share. cbn [drain set_receiver set_sent set_pending sent receiver queues pending
      worker_pool channel set_lifecycle set_pool]. rewrite Ep, Hch.
    assert (Hd : map fst (omap (drain_event outcome) (receiver s)) = omap event_sender (receiver s)).
    { clear -Hk Hmc. induction (receiver s) as [|e l IH]; [done|].
      destruct e as [sub|k|sub|o|c|c]; cbn in *; try done; rewrite ?deliver_error_sender; f_equal; auto. }
    rewrite !map_app, Hd, !cnt_app, !map_map. cbn [map]. rewrite !cnt_cons. cbn [omap fst pending_sender].
    rewrite !cnt_nil. cbn. lia.
  - intros k. unfold pipeline, taken_of, queue_of, pending_of. cbn. rewrite Ep. do 2 f_equal.
    cbn. clear. induction cl; [done|]. by cbn.
  - intros l k Hj. exact Hj.
Qed.

(** One turn of the coordinator. *)
Lemma turn_conserves event rest s :
  0 < config_max_concurrent_operations config -> Inv config s -> receiver s = event :: rest ->
  match coordinator_turn config event (set_receiver rest s) with
  | Looped s' | Returned s' =>
      (forall ch, share ch s' = share ch s) /\
      (forall k, pipeline k s' = pipeline k s ++
         match accepts_operation event s with
         | Some (k', op) => if decide (k' = k) then [op] else []
         | None => []
         end) /\
      (forall l k, in_order l k s -> in_order l k s')
  | Panicked _ => False
  end.
Proof.
  intros Hmax Hs Er. pose proof (handle_event_inv config event rest s Hmax Hs Er) as Hh.
  pose proof (base_sender _ _ (inv_base _ _ Hs)) as Hp.
  assert (Hm : well_matched event = true).
  { pose proof (base_matched _ _ (inv_base _ _ Hs)) as Hm. rewrite Er in Hm. by apply andb_prop in Hm as [? _]. }
  destruct (handle_event_gains event (set_receiver rest s) Hp Hm) as [G1 G2 G3].
  assert (H1 : forall ch, share ch (handled_state (handle_event config event (set_receiver rest s))) = share ch s)
    by (intros ch; by rewrite G1, (receive_share event rest s ch Er)).
  change (accepts_operation event (set_receiver rest s)) with (accepts_operation event s) in G2.
  unfold coordinator_turn. destruct (handle_event config event (set_receiver rest s)) as [s'|s'|s'];
    cbn [handled_state] in *; [|by split_and!|done].
  destruct Hh as [Hc _]. destruct (ready_to_close s') eqn:Hr; [|by split_and!].
  destruct (finish_close_conserves s' Hc Hr) as [F1 F2 F3].
  split_and!; intros; [by rewrite F1|by rewrite F2, G2|auto].
Qed.

End Conservation.
