(* ===== verification/SchedulerWork.v ===== *)
(** * The work left to the coordinator

    A measure that every turn of the coordinator and every finished job
    decreases, and the fact that nothing waits when no thread has anything to
    do: together, every accepted call is answered after finitely many steps. *)
From S2P Require Export SchedulerTrace.

Local Open Scope N_scope.
Local Open Scope blob_scope.

Definition pending_work (e : PendingEvent) : nat :=
  match e with PeSubmission _ => 4 | PeMaintenance _ => 3 | PeFlush _ | PeClose _ => 1 end.

Definition event_work (e : CoordinatorEvent) : nat :=
  match e with
  | EvSubmission _ => 5
  | EvMaintenance _ => 4
  | EvFlush _ | EvClose _ => 2
  | EvCompletion _ | EvMaintenanceCompletion _ => 1
  end.

(** Steps of the coordinator and of the workers still to come, at most. *)
Definition work (s : Scheduler) : nat :=
  (3 * length (waiting (queues s)) + sum_list_with pending_work (pending s) +
   2 * length (channel (worker_pool s)) + sum_list_with event_work (receiver s))%nat.

Section Work.
Context {Order : HashMapOrder} {OrderL : HashMapOrderLaws}.
Context (config : StoreConfig).

Abbreviation dispatch_if_idle := (dispatch_if_idle config).

Lemma dispatch_work k s :
  pool_sender (worker_pool s) = true -> (work (dispatch_if_idle k s) <= work s)%nat.
Proof.
  intros Hp. destruct (dispatch_if_idle_dispatches config k s Hp) as
    [H|op rest p Ha Hc Hq [P1 P2 P3 P4] Hh Hw|op rest p Ha Hc Hq [P1 P2 P3 P4] Hh]; [done| |].
  - pose proof (Permutation_length (take_front_waiting k op rest p s Hq)) as Hl.
    unfold work, started, execute. cbn in *. rewrite P1, Hp. cbn. rewrite P2, length_app. cbn. lia.
  - pose proof (Permutation_length (take_front_waiting k op rest p s Hq)) as Hl.
    pose proof (Permutation_length (refused_waiting k op rest p s)) as Hl'.
    destruct (remove_if_empty_fields k (send (deliver_error op WorkerUnavailable)
      (take_front k op rest p s))) as (_ & E2 & _ & E4 & _ & E6 & _).
    unfold work. rewrite Hl'. unfold refused. rewrite E2, E4, E6. cbn in *. rewrite P2. lia.
Qed.

Lemma available_work s :
  pool_sender (worker_pool s) = true -> (work (dispatch_available config s) <= work s)%nat.
Proof.
  intros Hp. apply (dispatch_available_ind config
    (fun t => pool_sender (worker_pool t) = true /\ (work t <= work s)%nat) s); [by intros t []| |by split].
  intros k t [Ht Hw] _ _ _. split; [by apply dispatch_sender|].
  pose proof (dispatch_work k (next_turn t) Ht) as H. change (work (next_turn t)) with (work t) in H. lia.
Qed.

Lemma enqueue_work k op s : work (enqueue k op s) = (work s + 3)%nat.
Proof.
  unfold work. cbn.
  pose proof (Permutation_length (waiting_replace (queues s) k (default [] (queues s !! k) ++ [op]))) as H1.
  pose proof (Permutation_length (waiting_delete (queues s) k)) as H2.
  rewrite !length_app in *. cbn in *. lia.
Qed.

Lemma pop_work e rest s :
  pending s = e :: rest -> work s = (work (set_pending rest s) + pending_work e)%nat.
Proof. intros E. unfold work. rewrite E. cbn. lia. Qed.

Lemma push_pending_work e s : work (push_pending e s) = (work s + pending_work e)%nat.
Proof. unfold work. cbn. rewrite sum_list_with_app. cbn. lia. Qed.

Lemma dispatch_maintenance_work sub s :
  pool_sender (worker_pool s) = true -> (work (dispatch_maintenance sub s) <= work s + 2)%nat.
Proof.
  intros Hp. unfold dispatch_maintenance, on_pool. pose proof (prepare_spec 1 (worker_pool s)) as Hpr.
  destruct (prepare 1 (worker_pool s)) as [[[]|e] p]; destruct Hpr as ([P1 P2 P3 P4] & _).
  - unfold prepare_dispatch, ret. cbn [worker_pool set_pool]. unfold execute. rewrite P1, Hp.
    unfold work. cbn. rewrite P2, length_app. cbn. lia.
  - unfold work. cbn. rewrite P2, sum_list_with_app. cbn. lia.
Qed.

Lemma advance_work s :
  pool_sender (worker_pool s) = true -> (work (advance_pending_if_ready config s) <= work s)%nat.
Proof.
  intros Hp. destruct (maintenance_active s) eqn:Hm.
  { unfold advance_pending_if_ready. by rewrite Hm. }
  apply (advance_ind config (fun t => pool_sender (worker_pool t) = true /\ (work t <= work s)%nat)
    (fun t => (work t <= work s)%nat)); [by intros t []| | | |by intros t []|by split|done].
  - intros t sub rest [Ht Hw] Ep. split; [by apply dispatch_sender|].
    pose proof (dispatch_work (sub_key_hash sub)
      (enqueue (sub_key_hash sub) (sub_operation sub) (set_pending rest t)) Ht) as H.
    rewrite enqueue_work in H. pose proof (pop_work _ _ _ Ep) as E. cbn [pending_work] in E. lia.
  - intros t ch rest [Ht Hw] Ep _. split; [done|]. pose proof (pop_work _ _ _ Ep) as E. cbn [pending_work] in E.
    change (work (send (ch, ReplyUnit (Ok tt)) (set_pending rest t))) with (work (set_pending rest t)). lia.
  - intros t sub rest [Ht Hw] Ep _. pose proof (pop_work _ _ _ Ep) as E. cbn [pending_work] in E.
    pose proof (dispatch_maintenance_work sub (set_maintenance true (set_pending rest t)) Ht) as H.
    change (work (set_maintenance true (set_pending rest t))) with (work (set_pending rest t)) in H. lia.
Qed.

Lemma send_work answer s : work (send answer s) = work s.
Proof. done. Qed.

Lemma remove_if_empty_work k s : work (remove_if_empty k s) = work s.
Proof.
  destruct (remove_if_empty_fields k s) as (_ & E2 & _ & E4 & _ & E6 & _).
  unfold work. by rewrite E2, E4, E6, (Permutation_length (remove_if_empty_waiting k s)).
Qed.

Lemma completion_dispatched_work c s :
  pool_sender (worker_pool s) = true -> (work (completion_dispatched config c s) <= work s)%nat.
Proof.
  intros Hp. unfold completion_dispatched. set (k := comp_key_hash c).
  set (s0 := set_active (active s ∖ {[k]}) s).
  pose proof (dispatch_work k s0 Hp) as H1. change (work s0) with (work s) in H1.
  pose proof (available_work _ (dispatch_sender config k s0 Hp)) as H2.
  case_bool_decide; [rewrite remove_if_empty_work|]; lia.
Qed.

Lemma on_completion_work c s :
  pool_sender (worker_pool s) = true -> well_matched (EvCompletion c) = true ->
  (work (handled_state (on_completion config c s)) <= work s)%nat.
Proof.
  intros Hp Hm. rewrite on_completion_next by done. cbn [handled_state].
  pose proof (completion_dispatched_work c s Hp) as H1.
  destruct (completion_dispatched_conserves config c s Hp) as [Hp' _].
  assert (H2 : forall a, work (send_opt a (completion_dispatched config c s)) =
    work (completion_dispatched config c s)) by by intros [].
  specialize (H2 (completion_answer c)).
  set (s1 := send_opt (completion_answer c) (completion_dispatched config c s)) in *.
  assert (Hp1 : pool_sender (worker_pool s1) = true) by (unfold s1; by rewrite send_opt_sender).
  pose proof (advance_work s1 Hp1). lia.
Qed.

(** What an event leaves to do is less than the event itself. *)
Lemma handle_event_work event s :
  pool_sender (worker_pool s) = true -> well_matched event = true ->
  (work (handled_state (handle_event config event s)) < work s + event_work event)%nat.
Proof.
  intros Hp Hm.
  assert (Hadv : forall e, (work (advance_pending_if_ready config (push_pending e s)) <= work s + pending_work e)%nat).
  { intros e. pose proof (advance_work (push_pending e s) Hp) as H. by rewrite push_pending_work in H. }
  destruct event as [sub|c|sub|outcome|ch|ch]; cbn [handle_event event_work].
  - unfold on_submission. case_decide; [cbn [handled_state]; rewrite send_work; lia|].
    destruct (_ || _); cbn [handled_state]; [rewrite push_pending_work; cbn [pending_work]; lia|].
    set (s1 := enqueue (sub_key_hash sub) (sub_operation sub) s).
    pose proof (dispatch_work (sub_key_hash sub) s1 Hp) as H1.
    pose proof (available_work _ (dispatch_sender config (sub_key_hash sub) s1 Hp)) as H2.
    pose proof (enqueue_work (sub_key_hash sub) (sub_operation sub) s). unfold s1 in *. lia.
  - pose proof (on_completion_work c s Hp Hm). lia.
  - unfold on_maintenance. case_decide; cbn [handled_state]; [rewrite send_work; lia|].
    specialize (Hadv (PeMaintenance sub)). cbn [pending_work] in Hadv. lia.
  - unfold on_maintenance_completion. cbn [handled_state]. destruct outcome as [[ch r]|].
    + pose proof (advance_work (send (ch, ReplyCleanup r) (set_maintenance false s)) Hp) as H.
      rewrite send_work in H. change (work (set_maintenance false s)) with (work s) in H. lia.
    + pose proof (advance_work (set_maintenance false s) Hp) as H.
      change (work (set_maintenance false s)) with (work s) in H. lia.
  - unfold on_flush. case_decide; cbn [handled_state]; [rewrite send_work; lia|].
    specialize (Hadv (PeFlush ch)). cbn [pending_work] in Hadv. lia.
  - unfold on_close. cbn [handled_state].
    assert (Hsend : forall r, (work (advance_pending_if_ready config (send (ch, r) s)) < work s + 2)%nat).
    { intros r. pose proof (advance_work (send (ch, r) s) Hp) as H. rewrite send_work in H. lia. }
    destruct (lifecycle s); [| |apply Hsend..].
    + pose proof (advance_work (push_pending (PeClose ch) (set_lifecycle Closing s)) Hp) as H.
      rewrite push_pending_work in H. change (work (set_lifecycle Closing s)) with (work s) in H. cbn [pending_work] in H. lia.
    + specialize (Hadv (PeClose ch)). cbn [pending_work] in Hadv. lia.
Qed.

Lemma finished_work s : Finished_state s -> work s = 0%nat.
Proof.
  intros [F1 F2 F3 F4 F5 F6 F7 F8]. unfold work. by rewrite F2, F3, F5, F7.
Qed.

(** Every turn of the coordinator decreases the work. *)
Lemma turn_work event rest s :
  0 < config_max_concurrent_operations config -> Inv config s -> receiver s = event :: rest ->
  match coordinator_turn config event (set_receiver rest s) with
  | Looped s' | Returned s' | Panicked s' => (work s' < work s)%nat
  end.
Proof.
  intros Hmax Hs Er. pose proof (turn_inv config event rest s Hmax Hs Er) as Ht.
  pose proof (handle_event_work event (set_receiver rest s) (base_sender _ _ (inv_base _ _ Hs))
    (receive_matched _ _ _ _ Hs Er)) as H.
  assert (Hw : work s = (work (set_receiver rest s) + event_work event)%nat)
    by (unfold work; rewrite Er; cbn; lia).
  unfold coordinator_turn in *. destruct (handle_event config event (set_receiver rest s)) as [s'|s'|s'];
    cbn [handled_state] in H; [|lia|lia].
  destruct (ready_to_close s'); [|lia]. rewrite (finished_work _ Ht). lia.
Qed.

(** Nobody has anything to do: nobody waits. *)
Lemma quiescent s :
  0 < config_max_concurrent_operations config -> Inv config s ->
  receiver s = [] -> channel (worker_pool s) = [] ->
  waiting (queues s) = [] /\ pending s = [] /\ owed s = [].
Proof.
  intros Hmax Hs Hr Hc. pose proof (inv_base _ _ Hs) as Hb.
  assert (Ha : active s = ∅).
  { apply leibniz_equiv, elements_empty_inv. pose proof (base_flight _ _ Hb) as Hf. unfold in_flight in Hf.
    rewrite Hr, Hc in Hf. cbn in Hf. by apply Permutation_nil_l in Hf. }
  assert (Hm : maintenance_active s = false).
  { pose proof (base_maintenance _ _ Hb) as Hm. unfold maintenance_in_flight in Hm.
    rewrite Hr, Hc in Hm. by destruct (maintenance_active s). }
  assert (Hn : ~ (pending s <> [] \/ waiting (queues s) <> [])).
  { intros Hw. destruct (inv_progress config s Hmax Hs Hw); congruence. }
  assert (Hp : pending s = []) by (destruct (pending s); [done|exfalso; apply Hn; by left]).
  assert (Hw : waiting (queues s) = []) by (destruct (waiting (queues s)); [done|exfalso; apply Hn; by right]).
  split_and!; [done..|]. unfold owed. by rewrite Hw, Hp, Hr, Hc.
Qed.

End Work.
