(* ===== verification/SchedulerOrder.v ===== *)
(** * Barriers

    The calls that the coordinator has not dispatched yet stand in a line: the
    pending events, then the channel.  Turns take calls out of the line and
    never reorder it, and a flush is answered only when every call before it has
    left the engine. *)
From S2P Require Export SchedulerWork.

Local Open Scope N_scope.
Local Open Scope blob_scope.

(** ** The line *)

(** The sender of a call; completions are not calls. *)
Definition call_sender (e : CoordinatorEvent) : option Channel :=
  match e with EvCompletion _ | EvMaintenanceCompletion _ => None | _ => event_sender e end.

Definition is_own (e : CoordinatorEvent) : bool :=
  match e with EvCompletion _ | EvMaintenanceCompletion _ => true | _ => false end.

Definition line (s : Scheduler) : list Channel :=
  map pending_sender (pending s) ++ omap call_sender (receiver s).

(** The operations of a key in the channel. *)
Definition received_of (k : KeyHash) (events : list CoordinatorEvent) : list Operation :=
  omap (fun e => match e with
    | EvSubmission sub => if decide (sub_key_hash sub = k) then Some (sub_operation sub) else None
    | _ => None
    end) events.

Lemma own_received k l : forallb is_own l = true -> received_of k l = [].
Proof.
  induction l as [|e l IH]; [done|]. cbn. intros [He Hl]%andb_prop. destruct e; try done; by apply IH.
Qed.

Lemma own_line l : forallb is_own l = true -> omap call_sender l = [].
Proof.
  induction l as [|e l IH]; [done|]. cbn. intros [He Hl]%andb_prop. destruct e; try done; by apply IH.
Qed.

(** The flushes that wait in the line. *)
Definition flushes (s : Scheduler) : list Channel :=
  omap (fun e => match e with PeFlush ch => Some ch | _ => None end) (pending s) ++
  omap (fun e => match e with EvFlush ch => Some ch | _ => None end) (receiver s).

Lemma flushes_line s ch : ch ∈ flushes s -> ch ∈ line s.
Proof.
  unfold flushes, line. rewrite !elem_of_app, !list_elem_of_omap. intros [(e & He & E)|(e & He & E)].
  - left. apply list_elem_of_fmap. exists e. destruct e; by simplify_eq.
  - right. exists e. destruct e; by simplify_eq.
Qed.

Lemma line_owed s ch : ch ∈ line s -> ch ∈ owed s.
Proof.
  unfold line, owed. rewrite !elem_of_app, !list_elem_of_omap. intros [H|(e & He & E)]; [by auto|].
  do 3 right. exists e. split; [done|]. by destruct e.
Qed.

(** The line shrinks and nothing else enters the channel. *)
Record forward (s s' : Scheduler) : Prop := {
  forward_line : sublist (line s') (line s);
  forward_received k : received_of k (receiver s') = received_of k (receiver s);
  forward_lifecycle : lifecycle s' = lifecycle s;
  forward_sent : exists l, sent s' = sent s ++ l;
  forward_flushes ch : ch ∈ flushes s -> ch ∈ flushes s' \/ ch ∈ map fst (sent s');
}.

Lemma sent_grows (s s' : Scheduler) ch :
  (exists l, sent s' = sent s ++ l) -> ch ∈ map fst (sent s) -> ch ∈ map fst (sent s').
Proof. intros [l ->]. rewrite map_app, elem_of_app. by left. Qed.

Lemma forward_refl s : forward s s.
Proof. split; try done; [|by left]. exists []. by rewrite app_nil_r. Qed.

Lemma forward_trans s1 s2 s3 : forward s1 s2 -> forward s2 s3 -> forward s1 s3.
Proof.
  intros [A1 A2 A3 [l Hl] A5] [B1 B2 B3 [m Hm] B5]. split.
  - by etrans.
  - intros k. by rewrite B2.
  - by rewrite B3.
  - exists (l ++ m). by rewrite Hm, Hl, app_assoc.
  - intros ch Hch. destruct (A5 ch Hch) as [|Hs]; [by apply B5|right]. apply (sent_grows s2); [by exists m|done].
Qed.

Lemma forward_same s s' :
  pending s' = pending s -> receiver s' = receiver s -> lifecycle s' = lifecycle s ->
  (exists l, sent s' = sent s ++ l) -> forward s s'.
Proof.
  intros H1 H2 H3 H4. split; [unfold line; by rewrite H1, H2|by rewrite H2|done|done|].
  intros ch Hch. left. unfold flushes in *. by rewrite H1, H2.
Qed.

Lemma sent_same s s' : sent s' = sent s -> exists l, sent s' = sent s ++ l.
Proof. exists []. by rewrite app_nil_r. Qed.

Lemma send_forward answer s : forward s (send answer s).
Proof. apply forward_same; [done..|]. by exists [answer]. Qed.

(** A step that leaves the line and the answers as they are. *)
Lemma still_forward s s' :
  pending s' = pending s -> receiver s' = receiver s -> lifecycle s' = lifecycle s ->
  sent s' = sent s -> forward s s'.
Proof. intros. apply forward_same; [done..|]. by apply sent_same. Qed.

Definition is_flush (e : PendingEvent) : bool := match e with PeFlush _ => true | _ => false end.

Lemma pop_forward e rest s :
  pending s = e :: rest -> is_flush e = false -> forward s (set_pending rest s).
Proof.
  intros E He. split; [|done|done|by apply sent_same|].
  - unfold line. cbn. rewrite E. cbn. by apply sublist_cons.
  - intros ch. unfold flushes. cbn. rewrite E. cbn. left. by destruct e.
Qed.

Lemma pop_flush_forward ch r rest s :
  pending s = PeFlush ch :: rest -> forward s (send (ch, r) (set_pending rest s)).
Proof.
  intros E. split; [|done|done|by exists [(ch, r)]|].
  - unfold line. cbn. rewrite E. cbn. by apply sublist_cons.
  - intros ch'. unfold flushes. cbn. rewrite E. cbn. rewrite map_app, elem_of_cons.
    intros [->|H]; [right|by left]. apply elem_of_app. right. left.
Qed.

Lemma post_forward e s : is_own e = true -> forward s (post e s).
Proof.
  intros He. assert (Ho : forallb is_own [e] = true) by (cbn; by rewrite He). split.
  - unfold line. cbn. by rewrite omap_app, (own_line [e] Ho), app_nil_r.
  - intros k. cbn. unfold received_of. rewrite omap_app. fold (received_of k [e]).
    by rewrite (own_received k [e] Ho), app_nil_r.
  - done.
  - by apply sent_same.
  - intros ch H. left. unfold flushes in *. cbn. rewrite omap_app, app_assoc, elem_of_app. by left.
Qed.

Section Order.
Context {Order : HashMapOrder} {OrderL : HashMapOrderLaws}.
Context (config : StoreConfig).

Lemma dispatch_forward k s :
  pool_sender (worker_pool s) = true -> forward s (dispatch_if_idle config k s).
Proof.
  intros Hp. destruct (dispatch_if_idle_dispatches config k s Hp) as [_|op rest p|op rest p].
  - apply forward_refl.
  - by apply still_forward.
  - unfold refused. destruct (remove_if_empty_fields k (send (deliver_error op WorkerUnavailable)
      (take_front k op rest p s))) as (E1 & E2 & E3 & E4 & E5 & E6 & E7 & _).
    apply forward_same; [by rewrite E2|by rewrite E6|by rewrite E5|]. rewrite E7. by eexists.
Qed.

Lemma available_forward s :
  pool_sender (worker_pool s) = true -> forward s (dispatch_available config s).
Proof.
  intros Hp. apply (dispatch_available_ind config
    (fun t => pool_sender (worker_pool t) = true /\ forward s t) s); [by intros t []| |].
  - intros k t [Ht Hc] _ _ _. split; [by apply dispatch_sender|].
    eapply forward_trans; [exact Hc|]. apply (forward_trans _ (next_turn t)); [by apply still_forward|].
    by apply dispatch_forward.
  - split; [done|apply forward_refl].
Qed.

Lemma dispatch_maintenance_forward sub s :
  pool_sender (worker_pool s) = true -> forward s (dispatch_maintenance sub s).
Proof.
  intros Hp. unfold dispatch_maintenance, on_pool. pose proof (prepare_spec 1 (worker_pool s)) as Hpr.
  destruct (prepare 1 (worker_pool s)) as [[[]|e] p]; destruct Hpr as ([P1 P2 P3 P4] & _).
  - unfold prepare_dispatch, ret. cbn [worker_pool set_pool]. unfold execute. rewrite P1, Hp.
    by apply still_forward.
  - eapply forward_trans; [|by apply post_forward]. apply (forward_trans _ (set_pool p s)); [by apply still_forward|].
    apply send_forward.
Qed.

Lemma advance_forward s :
  pool_sender (worker_pool s) = true -> forward s (advance_pending_if_ready config s).
Proof.
  intros Hp. destruct (maintenance_active s) eqn:Hm.
  { unfold advance_pending_if_ready. rewrite Hm. apply forward_refl. }
  apply (advance_ind config (fun t => pool_sender (worker_pool t) = true /\ forward s t)
    (fun t => forward s t)); [by intros t []| | | |by intros t []|split; [done|apply forward_refl]|done].
  - intros t sub rest [Ht Hc] Ep. split; [by apply dispatch_sender|].
    eapply forward_trans; [exact Hc|]. eapply forward_trans; [exact (pop_forward _ _ _ Ep eq_refl)|].
    eapply forward_trans; [|by apply dispatch_forward]. by apply still_forward.
  - intros t ch rest [Ht Hc] Ep _. split; [done|]. eapply forward_trans; [exact Hc|].
    by apply pop_flush_forward.
  - intros t sub rest [Ht Hc] Ep _. eapply forward_trans; [exact Hc|].
    eapply forward_trans; [exact (pop_forward _ _ _ Ep eq_refl)|].
    apply (forward_trans _ (set_maintenance true (set_pending rest t))); [by apply still_forward|].
    by apply dispatch_maintenance_forward.
Qed.

(** ** Turns *)

(** [s'] comes after the event was taken off the channel of [s], and handled. *)
Record taken_in (event : CoordinatorEvent) (s s' : Scheduler) : Prop := {
  taken_line : sublist (line s')
    (map pending_sender (pending s) ++ senders (call_sender event) ++ omap call_sender (receiver s));
  taken_received k : received_of k (receiver s') = received_of k (receiver s);
  taken_lifecycle : lifecycle s' = Open -> lifecycle s = Open;
  taken_sent : exists l, sent s' = sent s ++ l;
  taken_flushes ch : ch ∈ flushes s \/ event = EvFlush ch -> ch ∈ flushes s' \/ ch ∈ map fst (sent s');
}.

Lemma forward_taken event s s' :
  (forall ch, event <> EvFlush ch) -> forward s s' -> taken_in event s s'.
Proof.
  intros He [H1 H2 H3 H4 H5]. split; [|done|congruence|done|].
  - etrans; [exact H1|]. unfold line. apply sublist_app; [done|]. by apply sublist_inserts_l.
  - intros ch [H|H]; [by apply H5|by destruct (He ch)].
Qed.

Lemma send_flush_taken ch r s : taken_in (EvFlush ch) s (send (ch, r) s).
Proof.
  split; [|done|done|by exists [(ch, r)]|].
  - apply sublist_app; [done|]. by apply sublist_cons.
  - intros ch' [H|[= ->]]; [by left|right]. cbn. rewrite map_app, elem_of_app. right. left.
Qed.

Lemma taken_then event s1 s2 s3 : taken_in event s1 s2 -> forward s2 s3 -> taken_in event s1 s3.
Proof.
  intros [A1 A2 A3 [l Hl] A5] [B1 B2 B3 [m Hm] B5]. split.
  - by etrans.
  - intros k. by rewrite B2.
  - intros E. apply A3. congruence.
  - exists (l ++ m). by rewrite Hm, Hl, app_assoc.
  - intros ch Hch. destruct (A5 ch Hch) as [|Hs]; [by apply B5|right]. apply (sent_grows s2); [by exists m|done].
Qed.

Lemma push_taken event e s s' :
  call_sender event = Some (pending_sender e) -> (forall ch, event = EvFlush ch -> e = PeFlush ch) ->
  s' = s \/ s' = set_lifecycle Closing s -> taken_in event s (push_pending e s').
Proof.
  intros E He Hs. split.
  - unfold line. rewrite E. destruct Hs as [-> | ->]; cbn; by rewrite map_app, <-app_assoc.
  - by destruct Hs as [-> | ->].
  - by destruct Hs as [-> | ->].
  - apply sent_same. by destruct Hs as [-> | ->].
  - intros ch Hch. left. unfold flushes in *.
    assert (Hp : pending (push_pending e s') = pending s ++ [e] /\ receiver (push_pending e s') = receiver s)
      by by destruct Hs as [-> | ->].
    destruct Hp as [-> ->]. rewrite omap_app, !elem_of_app in *. destruct Hch as [[H|H]|H]; [by auto..|].
    left. right. rewrite (He ch H). left.
Qed.

Lemma barrier_taken event e s :
  pool_sender (worker_pool s) = true -> call_sender event = Some (pending_sender e) ->
  (forall ch, event = EvFlush ch -> e = PeFlush ch) ->
  taken_in event s (advance_pending_if_ready config (push_pending e s)).
Proof.
  intros Hp E He. eapply taken_then; [apply (push_taken event e s s); auto|]. by apply advance_forward.
Qed.

Lemma completion_dispatched_forward c s :
  pool_sender (worker_pool s) = true -> forward s (completion_dispatched config c s).
Proof.
  intros Hp. unfold completion_dispatched. set (k := comp_key_hash c).
  set (s0 := set_active (active s ∖ {[k]}) s).
  assert (Hp1 : pool_sender (worker_pool (dispatch_if_idle config k s0)) = true) by by apply dispatch_sender.
  assert (H2 : forward s (dispatch_available config (dispatch_if_idle config k s0))).
  { apply (forward_trans _ s0); [by apply still_forward|].
    eapply forward_trans; [by apply dispatch_forward|by apply available_forward]. }
  set (s2 := dispatch_available _ _) in *. case_bool_decide; [|done].
  destruct (remove_if_empty_fields k s2) as (E1 & E2 & E3 & E4 & E5 & E6 & E7 & _).
  eapply forward_trans; [exact H2|]. by apply still_forward.
Qed.

Lemma completion_forward c s :
  pool_sender (worker_pool s) = true ->
  forward s (send_opt (completion_answer c) (completion_dispatched config c s)).
Proof.
  intros Hp. eapply forward_trans; [by apply completion_dispatched_forward|].
  destruct (completion_answer c); [apply send_forward|apply forward_refl].
Qed.

Lemma on_completion_forward c s :
  pool_sender (worker_pool s) = true -> well_matched (EvCompletion c) = true ->
  forward s (handled_state (on_completion config c s)).
Proof.
  intros Hp Hm. rewrite on_completion_next by done. eapply forward_trans; [by apply completion_forward|].
  apply advance_forward. rewrite send_opt_sender. by apply completion_dispatched_conserves.
Qed.

Lemma handle_event_taken event s :
  pool_sender (worker_pool s) = true -> well_matched event = true ->
  taken_in event s (handled_state (handle_event config event s)).
Proof.
  intros Hp Hm. destruct event as [sub|c|sub|outcome|ch|ch]; cbn [handle_event].
  - unfold on_submission. case_decide; cbn [handled_state].
    + by apply forward_taken, send_forward.
    + destruct (_ || _); cbn [handled_state]; [apply push_taken; auto; done|]. apply forward_taken; [done|].
      apply (forward_trans _ (enqueue (sub_key_hash sub) (sub_operation sub) s)); [by apply still_forward|].
      eapply forward_trans; [by apply dispatch_forward|]. apply available_forward. by apply dispatch_sender.
  - by apply forward_taken, on_completion_forward.
  - unfold on_maintenance. case_decide; cbn [handled_state];
      [by apply forward_taken, send_forward|by apply barrier_taken].
  - unfold on_maintenance_completion. cbn [handled_state]. apply forward_taken; [done|].
    eapply forward_trans; [|apply advance_forward; by destruct outcome as [[]|]].
    apply (forward_trans _ (set_maintenance false s)); [by apply still_forward|].
    destruct outcome as [[]|]; [apply send_forward|apply forward_refl].
  - unfold on_flush. case_decide; cbn [handled_state]; [apply send_flush_taken|].
    apply barrier_taken; [done..|]. by intros ch' [= ->].
  - unfold on_close. cbn [handled_state]. eapply taken_then; [|apply advance_forward; by destruct (lifecycle s)].
    destruct (lifecycle s).
    + apply push_taken; auto; done.
    + apply push_taken; auto; done.
    + by apply forward_taken, send_forward.
    + by apply forward_taken, send_forward.
    + by apply forward_taken, send_forward.
Qed.

(** ** Flushes *)

(** No new answer says [Ok] to a flush. *)
Definition quiet (s s' : Scheduler) : Prop :=
  exists l, sent s' = sent s ++ l /\ forall ch, (ch, ReplyUnit (Ok tt)) ∉ l.

Lemma quiet_same s s' : sent s' = sent s -> quiet s s'.
Proof. intros E. exists []. rewrite app_nil_r. split; [done|]. intros ch H. by apply not_elem_of_nil in H. Qed.

Lemma quiet_trans s1 s2 s3 : quiet s1 s2 -> quiet s2 s3 -> quiet s1 s3.
Proof.
  intros (l & Hl & Ql) (m & Hm & Qm). exists (l ++ m). rewrite Hm, Hl, app_assoc. split; [done|].
  intros ch [H|H]%elem_of_app; [by apply (Ql ch)|by apply (Qm ch)].
Qed.

Lemma quiet_send ch r s : r <> ReplyUnit (Ok tt) -> quiet s (send (ch, r) s).
Proof.
  intros Hr. exists [(ch, r)]. split; [done|]. intros ch' H%list_elem_of_singleton. congruence.
Qed.

Lemma quiet_error op e s : quiet s (send (deliver_error op e) s).
Proof.
  destruct (deliver_error op e) as [ch r] eqn:E. apply quiet_send. intros ->. by destruct op; simplify_eq/=.
Qed.

Lemma dispatch_quiet k s : pool_sender (worker_pool s) = true -> quiet s (dispatch_if_idle config k s).
Proof.
  intros Hp. destruct (dispatch_if_idle_dispatches config k s Hp) as [_|op rest p|op rest p];
    [by apply quiet_same|by apply quiet_same|].
  apply (quiet_trans _ (take_front k op rest p s)); [by apply quiet_same|].
  eapply quiet_trans; [apply quiet_error|]. apply quiet_same.
  unfold refused. by destruct (remove_if_empty_fields k (send (deliver_error op WorkerUnavailable)
    (take_front k op rest p s))) as (_ & _ & _ & _ & _ & _ & -> & _).
Qed.

Lemma dispatch_maintenance_quiet sub s :
  pool_sender (worker_pool s) = true -> quiet s (dispatch_maintenance sub s).
Proof.
  intros Hp. unfold dispatch_maintenance, on_pool. pose proof (prepare_spec 1 (worker_pool s)) as Hpr.
  destruct (prepare 1 (worker_pool s)) as [[[]|e] p]; destruct Hpr as ([P1 P2 P3 P4] & _).
  - unfold prepare_dispatch, ret. cbn [worker_pool set_pool]. unfold execute. rewrite P1, Hp.
    by apply quiet_same.
  - eapply quiet_trans; [|by apply quiet_same]. apply (quiet_trans _ (set_pool p s)); [by apply quiet_same|].
    by apply quiet_send.
Qed.

Lemma available_quiet s : pool_sender (worker_pool s) = true -> quiet s (dispatch_available config s).
Proof.
  intros Hp. apply (dispatch_available_ind config
    (fun t => pool_sender (worker_pool t) = true /\ quiet s t) s); [by intros t []| |].
  - intros k t [Ht Hc] _ _ _. split; [by apply dispatch_sender|].
    eapply quiet_trans; [exact Hc|]. apply (quiet_trans _ (next_turn t)); [by apply quiet_same|].
    by apply dispatch_quiet.
  - split; [done|by apply quiet_same].
Qed.

(** A flush of [s] that [t] answered with [Ok]: what is still owed comes after
    it in the line. *)
Definition barrier (s t : Scheduler) : Prop :=
  forall ch0, ch0 ∈ flushes s -> (ch0, ReplyUnit (Ok tt)) ∈ sent t ->
    exists l1 l2, line s = l1 ++ ch0 :: l2 /\ forall ch, ch ∈ owed t -> ch ∈ l2.

Lemma owed_shrinks (s t : Scheduler) :
  (forall ch, share ch t = share ch s) -> (exists l, sent t = sent s ++ l) ->
  forall ch, ch ∈ owed t -> ch ∈ owed s.
Proof.
  intros Hs [l Hl] ch. rewrite <-!cnt_in. specialize (Hs ch). rewrite !share_owed, Hl, map_app, cnt_app in Hs. lia.
Qed.

Lemma barrier_quiet s t t' :
  barrier s t -> quiet t t' -> (forall ch, share ch t' = share ch t) -> barrier s t'.
Proof.
  intros Hb (l & Hl & Ql) Hs ch0 Hf Ho.
  assert (Ho' : (ch0, ReplyUnit (Ok tt)) ∈ sent t).
  { rewrite Hl in Ho. apply elem_of_app in Ho as [Ho|Ho]; [done|by apply Ql in Ho]. }
  destruct (Hb ch0 Hf Ho') as (l1 & l2 & E & H). exists l1, l2. split; [done|].
  intros ch Hch. apply H. by apply (owed_shrinks t t'); [|exists l|].
Qed.

Lemma sublist_elem_of {A} (l k : list A) x : sublist l k -> x ∈ l -> x ∈ k.
Proof. intros H%sublist_submseteq Hx. by eapply elem_of_submseteq. Qed.

(** What follows [x] in a part of a list follows it in the list. *)
Lemma sublist_after {A} (x : A) l1 l2 before after :
  NoDup (before ++ x :: after) -> sublist (l1 ++ x :: l2) (before ++ x :: after) ->
  forall y, y ∈ l2 -> y ∈ after.
Proof.
  intros Hn H y Hy.
  assert (H' : sublist (x :: l2) (before ++ x :: after)) by (etrans; [|exact H]; by apply sublist_inserts_l).
  clear H. revert Hn H'. induction before as [|z before IH]; cbn; intros [Hz Hn]%NoDup_cons H'.
  - inversion H' as [|? ? ? Hs|? ? ? Hs]; subst; [by apply (sublist_elem_of _ _ _ Hs)|].
    destruct Hz. apply (sublist_elem_of _ _ _ Hs). left.
  - inversion H' as [|? ? ? Hs|? ? ? Hs]; subst; [|by apply IH].
    destruct Hz. apply elem_of_app. right. left.
Qed.

(** With nothing running, only the line is owed. *)
Lemma idle_owed s :
  Core config s -> maintenance_active s = false -> idle s = true ->
  owed s = line s.
Proof.
  intros [Hb _ _ _] Hm Hi. apply idle_spec in Hi as [Ha Hw].
  destruct Hb as [_ _ _ _ _ B6 B7 _ _]. unfold in_flight, maintenance_in_flight in *.
  rewrite Ha, elements_empty in B6. rewrite Hm in B7. apply Permutation_nil_r, app_nil in B6 as [B6 B6'].
  assert (List.filter is_maintenance_job (channel (worker_pool s)) = [] /\
          List.filter is_maintenance_completion (receiver s) = []) as [F1 F2]
    by (split; apply length_zero_iff_nil; lia).
  assert (Hch : channel (worker_pool s) = []) by (by destruct (channel (worker_pool s)) as [|[]]).
  unfold owed, line. rewrite Hw, Hch. cbn. f_equal. clear -B6' F2.
  induction (receiver s) as [|e l IH]; [done|]. destruct e; cbn in *; try done; f_equal; auto.
Qed.

(** What the loop of [advance_pending_if_ready] keeps. *)
Record in_line (s t : Scheduler) : Prop := {
  in_share ch : share ch t = share ch s;
  in_sublist : sublist (line t) (line s);
  in_barrier : barrier s t;
}.

Lemma in_line_quiet s t t' :
  in_line s t -> forward t t' -> quiet t t' -> conserves t t' -> in_line s t'.
Proof.
  intros [A1 A2 A3] [F1 _ _ _ _] Q [C1 _ _]. split.
  - intros ch. by rewrite C1.
  - by etrans.
  - by eapply barrier_quiet.
Qed.

Lemma in_line_flush s t ch rest :
  in_line s t -> Core config t -> maintenance_active t = false ->
  pending t = PeFlush ch :: rest -> idle t = true ->
  in_line s (send (ch, ReplyUnit (Ok tt)) (set_pending rest t)).
Proof.
  intros [A1 A2 A3] Hc Hm Ep Hi. set (t' := send (ch, ReplyUnit (Ok tt)) (set_pending rest t)).
  pose proof (pop_flush_conserves ch (ReplyUnit (Ok tt)) rest t Ep) as [C1 _ _]. fold t' in C1.
  assert (El : line t = ch :: line t') by (unfold line, t'; cbn; by rewrite Ep).
  assert (Eo : owed t = ch :: owed t').
  { rewrite (idle_owed t Hc Hm Hi), El. f_equal. symmetry. apply idle_owed; [by apply answer_flush_core|done..]. }
  split; [intros c; by rewrite C1| |].
  - etrans; [|exact A2]. rewrite El. by apply sublist_cons.
  - intros ch0 Hf. cbn [sent t' send set_sent]. intros [Ho|Ho%list_elem_of_singleton]%elem_of_app.
    + destruct (A3 ch0 Hf Ho) as (l1 & l2 & E & H). exists l1, l2. split; [done|].
      intros c Hcin. apply H. rewrite Eo. by right.
    + simplify_eq. rewrite El in A2. apply sublist_cons_l in A2 as (l1 & l2 & E & Hsub).
      exists l1, l2. split; [done|]. intros c Hcin.
      apply (sublist_elem_of _ _ _ Hsub). rewrite <-(idle_owed t'); [done|by apply answer_flush_core|done|done].
Qed.

Lemma advance_in_line s t :
  Core config t -> in_line s t -> in_line s (advance_pending_if_ready config t).
Proof.
  intros Hc Hi. destruct (maintenance_active t) eqn:Hm.
  { unfold advance_pending_if_ready. by rewrite Hm. }
  apply (advance_core_ind config (in_line s) (in_line s)); [..|done|done|done].
  - clear. intros t sub rest Hc _ Hi Ep. pose proof (base_sender _ _ (core_base _ _ Hc)) as Hp.
    set (u := enqueue (sub_key_hash sub) (sub_operation sub) (set_pending rest t)).
    apply (in_line_quiet s t); [done| | |].
    + eapply forward_trans; [exact (pop_forward _ _ _ Ep eq_refl)|]. apply (forward_trans _ u); [by apply still_forward|].
      by apply dispatch_forward.
    + apply (quiet_trans _ u); [by apply quiet_same|by apply dispatch_quiet].
    + apply (conserves_trans _ u); [by apply requeue_conserves|by apply dispatch_conserves].
  - clear. intros t ch rest Hc Hm Hi Ep Hid. by apply in_line_flush.
  - clear. intros t sub rest Hc Hm Hi Ep Hid. pose proof (base_sender _ _ (core_base _ _ Hc)) as Hp.
    set (u := set_maintenance true (set_pending rest t)).
    apply (in_line_quiet s t); [done| | |].
    + eapply forward_trans; [exact (pop_forward _ _ _ Ep eq_refl)|]. apply (forward_trans _ u); [by apply still_forward|].
      by apply dispatch_maintenance_forward.
    + apply (quiet_trans _ u); [by apply quiet_same|by apply dispatch_maintenance_quiet].
    + by apply dispatch_maintenance_conserves.
  - done.
Qed.

(** A state between the arrival of an event and the loop. *)
Lemma arrive_in_line event rest s s1 :
  (forall ch, (share ch s <= 1)%nat) -> receiver s = event :: rest ->
  gains (senders (event_sender event)) (accepts_operation event s) (set_receiver rest s) s1 ->
  taken_in event (set_receiver rest s) s1 ->
  (forall l, sent s1 = sent s ++ l -> forall ch0, ch0 ∈ flushes s -> (ch0, ReplyUnit (Ok tt)) ∉ l) ->
  in_line s s1.
Proof.
  intros H1 Er [G1 _ _] [T1 _ _ [l T4] _] Hl. split.
  - intros ch. by rewrite G1, (receive_share event rest s ch Er).
  - etrans; [exact T1|]. unfold line. rewrite Er. cbn. by destruct (call_sender event).
  - intros ch0 Hf. cbn [sent set_receiver] in T4. rewrite T4. intros [Ho|Ho]%elem_of_app; [|by destruct (Hl l T4 ch0 Hf)].
    apply flushes_line, line_owed, cnt_in in Hf.
    assert (Ho' : ch0 ∈ map fst (sent s)) by by (apply list_elem_of_fmap; by exists (ch0, ReplyUnit (Ok tt))).
    apply cnt_in in Ho'. specialize (H1 ch0). rewrite share_owed in H1. lia.
Qed.

(** New answers that are no [Ok] for a flush. *)
Lemma quiet_answers s s1 :
  quiet s s1 ->
  forall l, sent s1 = sent s ++ l -> forall ch0, ch0 ∈ flushes s -> (ch0, ReplyUnit (Ok tt)) ∉ l.
Proof. intros (m & Hm & Qm) l Hl ch0 _. rewrite Hm in Hl. apply app_inv_head in Hl as <-. apply Qm. Qed.

Lemma completion_answers c rest s :
  (forall ch, (share ch s <= 1)%nat) -> receiver s = EvCompletion c :: rest ->
  pool_sender (worker_pool s) = true ->
  let s1 := send_opt (completion_answer c) (completion_dispatched config c (set_receiver rest s)) in
  forall l, sent s1 = sent s ++ l -> forall ch0, ch0 ∈ flushes s -> (ch0, ReplyUnit (Ok tt)) ∉ l.
Proof.
  intros H1 Er Hp s1 l Hl ch0 Hf.
  assert (Hq : quiet (set_receiver rest s) (completion_dispatched config c (set_receiver rest s))).
  { unfold completion_dispatched. set (k := comp_key_hash c). cbn [active set_receiver].
    set (s0 := set_active (active s ∖ {[k]}) (set_receiver rest s)).
    assert (H2 : quiet (set_receiver rest s) (dispatch_available config (dispatch_if_idle config k s0))).
    { apply (quiet_trans _ s0); [by apply quiet_same|].
      eapply quiet_trans; [by apply dispatch_quiet|]. apply available_quiet. by apply dispatch_sender. }
    set (s2 := dispatch_available _ _) in *. case_bool_decide; [|done].
    destruct (remove_if_empty_fields k s2) as (_ & _ & _ & _ & _ & _ & E7 & _).
    eapply quiet_trans; [exact H2|]. by apply quiet_same. }
  destruct Hq as (m & Hm & Qm). cbn [sent set_receiver] in Hm.
  destruct (completion_answer c) as [[ch r]|] eqn:Ea; subst s1; cbn [send_opt] in Hl.
  - cbn [send set_sent sent] in Hl. rewrite Hm, <-app_assoc in Hl. apply app_inv_head in Hl as <-.
    intros [Hin|Hin%list_elem_of_singleton]%elem_of_app; [by destruct (Qm ch0)|]. simplify_eq.
    unfold completion_answer in Ea. destruct (comp_outcome c) as [[o r]|] eqn:Eo; [|done]. cbn in Ea.
    apply deliver_sender in Ea as ->. specialize (H1 (op_sender o)).
    apply flushes_line in Hf. unfold line in Hf. rewrite Er, elem_of_app in Hf. cbn [omap call_sender] in Hf.
    unfold share in H1. rewrite Er in H1. cbn [list_omap omap event_sender] in *. rewrite Eo in H1. cbn in H1.
    rewrite cnt_cons, N.eqb_refl in H1. destruct Hf as [Hf|Hf].
    + apply cnt_in in Hf. lia.
    + assert (Hf' : op_sender o ∈ omap event_sender rest).
      { apply list_elem_of_omap in Hf as (e & He & E). apply list_elem_of_omap. exists e. split; [done|].
        by destruct e. }
      apply cnt_in in Hf'. unfold omap in *. lia.
  - rewrite Hm in Hl. apply app_inv_head in Hl as <-. apply Qm.
Qed.

Lemma maintenance_answered_in_line outcome rest s :
  (forall ch, (share ch s <= 1)%nat) -> receiver s = EvMaintenanceCompletion outcome :: rest ->
  in_line s (maintenance_answered outcome (set_receiver rest s)).
Proof.
  intros H1 Er. set (s0 := set_maintenance false (set_receiver rest s)).
  apply (arrive_in_line (EvMaintenanceCompletion outcome) rest); [done|done| | |].
  - destruct outcome as [[ch r]|]; [|by apply conserves_gains].
    apply (gains_after _ _ _ s0); [done|apply (send_gains (ch, _))].
  - apply forward_taken; [done|]. apply (forward_trans _ s0); [by apply still_forward|].
    destruct outcome as [[]|]; [apply send_forward|apply forward_refl].
  - apply (quiet_answers s). destruct outcome as [[ch r]|]; [|by apply quiet_same].
    apply (quiet_trans _ s0); [by apply quiet_same|]. by apply quiet_send.
Qed.

Lemma pushed_in_line event e rest s s0 :
  Inv config s -> (forall ch, (share ch s <= 1)%nat) -> receiver s = event :: rest ->
  accepts_operation event s = None -> (forall sub, e <> PeSubmission sub) ->
  call_sender event = Some (pending_sender e) -> (forall ch, event = EvFlush ch -> e = PeFlush ch) ->
  s0 = set_receiver rest s \/ s0 = set_lifecycle Closing (set_receiver rest s) ->
  Core config (push_pending e s0) -> in_line s (advance_pending_if_ready config (push_pending e s0)).
Proof.
  intros Hs H1 Er Ha He E Hf H0 Hc. apply advance_in_line; [done|].
  apply (arrive_in_line event rest); [done|done| |by apply push_taken|].
  - assert (Ee : event_sender event = Some (pending_sender e)) by by destruct event.
    rewrite Ha, Ee. apply (gains_after _ _ _ s0); [by destruct H0 as [-> | ->]|].
    pose proof (push_pending_gains e s0) as G. by destruct e; [destruct (He submission)|..].
  - apply (quiet_answers s). apply quiet_same. by destruct H0 as [-> | ->].
Qed.

Lemma quiet_in_line event rest s :
  Inv config s -> (forall ch, (share ch s <= 1)%nat) -> receiver s = event :: rest ->
  quiet s (handled_state (handle_event config event (set_receiver rest s))) ->
  in_line s (handled_state (handle_event config event (set_receiver rest s))).
Proof.
  intros Hs H1 Er Q. pose proof (base_sender _ _ (inv_base _ _ Hs)) as Hp.
  pose proof (receive_matched _ _ _ _ Hs Er) as Hm. apply (arrive_in_line event rest); [done|done| | |].
  - exact (handle_event_gains config event (set_receiver rest s) Hp Hm).
  - by apply handle_event_taken.
  - by apply (quiet_answers s).
Qed.

(** A turn answers a flush only when everything before it is answered. *)
Lemma turn_in_line event rest s :
  Inv config s -> receiver s = event :: rest -> (forall ch, (share ch s <= 1)%nat) ->
  in_line s (handled_state (handle_event config event (set_receiver rest s))).
Proof.
  intros Hs Er H1. pose proof (base_sender _ _ (inv_base _ _ Hs)) as Hp.
  pose proof (receive_matched _ _ _ _ Hs Er) as Hm. set (s0 := set_receiver rest s).
  assert (Hq0 : quiet s s0) by by apply quiet_same.
  pose proof (quiet_in_line event rest s Hs H1 Er) as Hquiet. fold s0 in Hquiet.
  destruct event as [sub|c|sub|outcome|ch|ch]; cbn [handle_event] in *.
  - apply Hquiet, (quiet_trans _ s0); [done|].
    unfold on_submission. case_decide; cbn [handled_state]; [apply quiet_error|].
    destruct (_ || _); cbn [handled_state]; [by apply quiet_same|].
    set (u := enqueue (sub_key_hash sub) (sub_operation sub) s0).
    apply (quiet_trans _ u); [by apply quiet_same|]. eapply quiet_trans; [by apply dispatch_quiet|].
    apply available_quiet. by apply dispatch_sender.
  - rewrite on_completion_next by done. destruct (completion_core config c rest s Hs Er) as [Hc _].
    apply advance_in_line; [destruct (completion_answer c); [by apply send_core|done]|].
    apply (arrive_in_line (EvCompletion c) rest); [done|done| | |].
    + by apply completion_gains.
    + by apply forward_taken, completion_forward.
    + by apply completion_answers.
  - unfold on_maintenance in *. case_decide as Ho; cbn [handled_state] in *.
    + apply Hquiet, (quiet_trans _ s0); [done|]. by apply quiet_send.
    + apply (pushed_in_line (EvMaintenance sub) _ rest); auto; try done.
      eapply barrier_core; [done|exact Er|done..|exact Ho].
  - unfold on_maintenance_completion. cbn [handled_state].
    apply (advance_in_line s (maintenance_answered outcome s0));
      [exact (maintenance_completion_core config outcome rest s Hs Er)|by apply maintenance_answered_in_line].
  - unfold on_flush in *. case_decide as Ho; cbn [handled_state] in *.
    + apply Hquiet, (quiet_trans _ s0); [done|]. by apply quiet_send.
    + apply (pushed_in_line (EvFlush ch) _ rest); auto; try done.
      * by intros ch' [= ->].
      * eapply barrier_core; [done|exact Er|done..|exact Ho].
  - destruct (close_core config ch rest s Hs Er) as [E Hc]. subst s0. rewrite E. cbn [handled_state].
    apply (pushed_in_line (EvClose ch) _ rest); auto; done.
Qed.

Lemma finish_close_sent s :
  Core config s -> ready_to_close s = true -> exists l, sent (finish_close s) = sent s ++ l.
Proof.
  intros Hc Hr. destruct (ready_to_close_inv config s Hc Hr) as (_ & _ & _ & (cl & Hne & Ep) & _).
  unfold finish_close, on_pool, shutdown. cbn [worker_pool set_pool set_lifecycle pending].
  rewrite Ep, answer_closes_spec. destruct cl as [|c cl]; [done|]. cbn. rewrite <-app_assoc. by eexists.
Qed.

Lemma finished_owed s : Finished_state s -> owed s = [].
Proof. intros [F1 F2 F3 F4 F5 F6 F7 F8]. unfold owed. by rewrite F2, F3, F5, F7. Qed.

(** One turn, and the line. *)
Lemma turn_order event rest s :
  0 < config_max_concurrent_operations config -> Inv config s -> receiver s = event :: rest ->
  (forall ch, (share ch s <= 1)%nat) ->
  match coordinator_turn config event (set_receiver rest s) with
  | Looped s' => in_line s s' /\ taken_in event (set_receiver rest s) s'
  | Returned s' => owed s' = [] /\ lifecycle s' <> Open /\ exists l, sent s' = sent s ++ l
  | Panicked _ => False
  end.
Proof.
  intros Hmax Hs Er H1. pose proof (turn_in_line event rest s Hs Er H1) as Hi.
  pose proof (handle_event_taken event (set_receiver rest s) (base_sender _ _ (inv_base _ _ Hs))
    (receive_matched _ _ _ _ Hs Er)) as Ht.
  pose proof (handle_event_inv config event rest s Hmax Hs Er) as Hh.
  pose proof (turn_inv config event rest s Hmax Hs Er) as Hv. unfold coordinator_turn in *.
  destruct (handle_event config event (set_receiver rest s)) as [s1|s1|s1]; cbn [handled_state] in *; try done.
  destruct (ready_to_close s1) eqn:Hr; [|done]. destruct Hh as [Hc _]. split_and!.
  - by apply finished_owed.
  - destruct Hv as [_ _ _ _ _ _ _ [E|E]]; by rewrite E.
  - destruct (finish_close_sent s1 Hc Hr) as [l Hl], Ht as [_ _ _ [m Hm] _]. exists (m ++ l).
    by rewrite Hl, Hm, app_assoc.
Qed.

End Order.
