(* ===== verification/SchedulerAnswers.v ===== *)
(** * Where answers come from

    The coordinator answers an operation with the result of its run, or with
    [StoreClosed] or [WorkerUnavailable]; a barrier and a close in the ways
    their handlers know.  [A] is any set of answers that is closed under this. *)
From S2P Require Export SchedulerOrder.

Local Open Scope N_scope.
Local Open Scope blob_scope.

Section Answers.
Context (A : Channel * Reply -> Prop).

Definition op_ok (op : Operation) : Prop :=
  A (deliver_error op StoreClosed) /\ A (deliver_error op WorkerUnavailable).

Definition maintenance_ok (ch : Channel) : Prop := forall r, A (ch, ReplyCleanup r).

Definition job_ok (j : WorkerJob) : Prop :=
  match j with MaintenanceJob sub => maintenance_ok (maint_sender sub) | OperationJob _ _ => True end.

Definition flush_ok (ch : Channel) : Prop :=
  A (ch, ReplyUnit (Ok tt)) /\ A (ch, ReplyUnit (Err StoreClosed)).

Definition close_ok (ch : Channel) : Prop :=
  A (ch, ReplyUnit (Ok tt)) /\ A (ch, ReplyUnit (Err ShutdownFailure)).

Definition pending_ok (e : PendingEvent) : Prop :=
  match e with
  | PeSubmission sub => op_ok (sub_operation sub)
  | PeMaintenance sub => maintenance_ok (maint_sender sub)
  | PeFlush ch => flush_ok ch
  | PeClose ch => close_ok ch
  end.

Definition event_ok (e : CoordinatorEvent) : Prop :=
  match e with
  | EvSubmission sub => op_ok (sub_operation sub)
  | EvCompletion c => forall answer, completion_answer c = Some answer -> A answer
  | EvMaintenance sub => maintenance_ok (maint_sender sub)
  | EvMaintenanceCompletion outcome =>
      match outcome with Some (ch, r) => A (ch, ReplyCleanup r) | None => True end
  | EvFlush ch => flush_ok ch
  | EvClose ch => close_ok ch
  end.

Record lawful (s : Scheduler) : Prop := {
  lawful_sent : Forall A (sent s);
  lawful_waiting op : op ∈ waiting (queues s) -> op_ok op;
  lawful_pending : Forall pending_ok (pending s);
  lawful_receiver : Forall event_ok (receiver s);
  lawful_jobs : Forall job_ok (channel (worker_pool s));
}.

(** ** Small steps *)

Lemma lawful_same s s' :
  sent s' = sent s -> queues s' = queues s -> pending s' = pending s -> receiver s' = receiver s ->
  Forall job_ok (channel (worker_pool s')) -> lawful s -> lawful s'.
Proof.
  intros E1 E2 E3 E4 H5 [L1 L2 L3 L4 _]. split; [by rewrite E1|by rewrite E2|by rewrite E3|by rewrite E4|done].
Qed.

Lemma lawful_pool s s' :
  sent s' = sent s -> queues s' = queues s -> pending s' = pending s -> receiver s' = receiver s ->
  worker_pool s' = worker_pool s -> lawful s -> lawful s'.
Proof. intros E1 E2 E3 E4 E5 Hl. apply (lawful_same s); try done. rewrite E5. apply Hl. Qed.

Lemma lawful_send answer s : A answer -> lawful s -> lawful (send answer s).
Proof. intros Ha [L1 L2 L3 L4 L5]. split; try done. apply Forall_app. by rewrite Forall_singleton. Qed.

Lemma lawful_push e s : pending_ok e -> lawful s -> lawful (push_pending e s).
Proof. intros He [L1 L2 L3 L4 L5]. split; try done. apply Forall_app. by rewrite Forall_singleton. Qed.

Lemma lawful_post e s : event_ok e -> lawful s -> lawful (post e s).
Proof. intros He [L1 L2 L3 L4 L5]. split; try done. apply Forall_app. by rewrite Forall_singleton. Qed.

Lemma lawful_pop e rest s :
  pending s = e :: rest -> lawful s -> pending_ok e /\ lawful (set_pending rest s).
Proof.
  intros E [L1 L2 L3 L4 L5]. rewrite E in L3. apply Forall_cons in L3 as [? L3]. done.
Qed.

Lemma lawful_receive e rest s :
  receiver s = e :: rest -> lawful s -> event_ok e /\ lawful (set_receiver rest s).
Proof.
  intros E [L1 L2 L3 L4 L5]. rewrite E in L4. apply Forall_cons in L4 as [? L4]. done.
Qed.

Lemma lawful_enqueue k op s : op_ok op -> lawful s -> lawful (enqueue k op s).
Proof.
  intros Ho [L1 L2 L3 L4 L5]. split; try done. intros o. cbn [queues enqueue set_queues].
  rewrite waiting_replace, !elem_of_app, list_elem_of_singleton.
  assert (H : Permutation (waiting (queues s)) (default [] (queues s !! k) ++ waiting (delete k (queues s))))
    by apply waiting_delete.
  intros [[Hin| ->]|Hin]; [apply L2; rewrite H; set_solver|done|apply L2; rewrite H; set_solver].
Qed.

Lemma lawful_subset s s' :
  Forall A (sent s') -> (forall op, op ∈ waiting (queues s') -> op ∈ waiting (queues s)) ->
  pending s' = pending s -> receiver s' = receiver s ->
  Forall job_ok (channel (worker_pool s')) -> lawful s -> lawful s'.
Proof.
  intros H1 H2 E3 E4 H5 [L1 L2 L3 L4 _]. split; [done|auto|by rewrite E3|by rewrite E4|done].
Qed.

Lemma lawful_remove k s : lawful s -> lawful (remove_if_empty k s).
Proof.
  intros Hl. destruct (remove_if_empty_fields k s) as (E1 & E2 & E3 & E4 & E5 & E6 & E7 & _).
  apply (lawful_subset s); [rewrite E7; apply Hl| |done|done|rewrite E4; apply Hl|done].
  intros op. by rewrite (remove_if_empty_waiting k s).
Qed.

(** ** Dispatching *)

Context {Order : HashMapOrder} {OrderL : HashMapOrderLaws}.
Context (config : StoreConfig).

Abbreviation dispatch_if_idle := (dispatch_if_idle config).

Lemma lawful_dispatch k s :
  pool_sender (worker_pool s) = true -> lawful s -> lawful (dispatch_if_idle k s).
Proof.
  intros Hp Hl.
  assert (Ht : forall op rest p, queues s !! k = Some (op :: rest) -> prepared (worker_pool s) p ->
    op_ok op /\ lawful (take_front k op rest p s)).
  { intros op rest p E P. pose proof (take_front_waiting k op rest p s E) as Hw. split.
    - apply Hl. rewrite Hw. left.
    - apply (lawful_subset s); [apply Hl| |done|done| |done]; [intros o Ho; rewrite Hw; by right|].
      cbn. rewrite (prepared_channel _ _ P). apply Hl. }
  destruct (dispatch_if_idle_dispatches config k s Hp) as [_|op rest p _ _ E P _ _|op rest p _ _ E P _].
  - done.
  - destruct (Ht op rest p E P) as [_ H]. apply (lawful_same (take_front k op rest p s)); try done.
    unfold started, execute. cbn. rewrite (prepared_sender _ _ P), Hp. cbn. apply Forall_app.
    split; [apply H|by apply Forall_singleton].
  - destruct (Ht op rest p E P) as [Hop H]. unfold refused. apply lawful_remove, lawful_send; [apply Hop|done].
Qed.

Lemma lawful_available s :
  pool_sender (worker_pool s) = true -> lawful s -> lawful (dispatch_available config s).
Proof.
  intros Hp Hl. apply (dispatch_available_ind config
    (fun t => pool_sender (worker_pool t) = true /\ lawful t) s); [by intros t []| |done].
  intros k t [Ht Hc] _ _ _. split; [by apply dispatch_sender|]. apply lawful_dispatch; [done|].
  by apply (lawful_pool t).
Qed.

Lemma lawful_maintenance sub s :
  pool_sender (worker_pool s) = true -> maintenance_ok (maint_sender sub) ->
  lawful s -> lawful (dispatch_maintenance sub s).
Proof.
  intros Hp Hm Hl. unfold dispatch_maintenance, on_pool. pose proof (prepare_spec 1 (worker_pool s)) as Hpr.
  destruct (prepare 1 (worker_pool s)) as [[[]|e] p]; destruct Hpr as ([P1 P2 P3 P4] & _ & _ & He).
  - unfold prepare_dispatch, ret. cbn [worker_pool set_pool]. unfold execute. rewrite P1, Hp.
    apply (lawful_same s); try done. cbn. rewrite P2. apply Forall_app. split; [apply Hl|by apply Forall_singleton].
  - apply lawful_post; [done|]. apply lawful_send; [apply Hm|]. apply (lawful_same s); try done.
    cbn. rewrite P2. apply Hl.
Qed.

Lemma lawful_advance s :
  pool_sender (worker_pool s) = true -> lawful s -> lawful (advance_pending_if_ready config s).
Proof.
  intros Hp Hl. destruct (maintenance_active s) eqn:Hm.
  { unfold advance_pending_if_ready. by rewrite Hm. }
  apply (advance_ind config (fun t => pool_sender (worker_pool t) = true /\ lawful t) lawful);
    [by intros t []| | | |by intros t []|done|done].
  - intros t sub rest [Ht Hc] Ep. split; [by apply dispatch_sender|]. apply lawful_dispatch; [done|].
    destruct (lawful_pop _ _ _ Ep Hc) as [Ho Hc']. by apply lawful_enqueue.
  - intros t ch rest [Ht Hc] Ep _. split; [done|]. destruct (lawful_pop _ _ _ Ep Hc) as [[Ho _] Hc'].
    by apply lawful_send.
  - intros t sub rest [Ht Hc] Ep _. destruct (lawful_pop _ _ _ Ep Hc) as [Ho Hc'].
    apply lawful_maintenance; [done|done|]. by apply (lawful_pool (set_pending rest t)).
Qed.

Lemma lawful_completion c s :
  pool_sender (worker_pool s) = true -> lawful s -> lawful (completion_dispatched config c s).
Proof.
  intros Hp Hl. unfold completion_dispatched. set (k := comp_key_hash c).
  set (s0 := set_active (active s ∖ {[k]}) s).
  assert (H0 : lawful s0) by by apply (lawful_pool s).
  assert (H2 : lawful (dispatch_available config (dispatch_if_idle k s0))).
  { apply lawful_available; [by apply dispatch_sender|]. by apply lawful_dispatch. }
  case_bool_decide; [by apply lawful_remove|done].
Qed.

(** ** Turns *)

Lemma lawful_handle event s :
  pool_sender (worker_pool s) = true -> well_matched event = true -> event_ok event ->
  lifecycle s = Open \/ lifecycle s = Closing ->
  lawful s -> lawful (handled_state (handle_event config event s)).
Proof.
  intros Hp Hm He Hlc Hl. destruct event as [sub|c|sub|outcome|ch|ch]; cbn [handle_event event_ok] in *.
  - unfold on_submission. case_decide; cbn [handled_state]; [apply lawful_send; [apply He|done]|].
    destruct (_ || _); cbn [handled_state]; [by apply lawful_push|].
    apply lawful_available; [by apply dispatch_sender|]. apply lawful_dispatch; [done|]. by apply lawful_enqueue.
  - rewrite on_completion_next by done. cbn [handled_state]. apply lawful_advance.
    + rewrite send_opt_sender. by apply completion_dispatched_conserves.
    + pose proof (lawful_completion c s Hp Hl) as H.
      destruct (completion_answer c) as [answer|]; [apply lawful_send; auto|done].
  - unfold on_maintenance. case_decide; cbn [handled_state]; [apply lawful_send; [apply He|done]|].
    apply lawful_advance; [done|]. by apply lawful_push.
  - unfold on_maintenance_completion. cbn [handled_state]. apply lawful_advance; [by destruct outcome as [[]|]|].
    assert (H0 : lawful (set_maintenance false s)) by by apply (lawful_pool s).
    destruct outcome as [[ch r]|]; [by apply lawful_send|done].
  - unfold on_flush. case_decide; cbn [handled_state]; [apply lawful_send; [apply He|done]|].
    apply lawful_advance; [done|]. by apply lawful_push.
  - unfold on_close. cbn [handled_state]. apply lawful_advance; [by destruct (lifecycle s)|].
    destruct Hlc as [-> | ->].
    + apply lawful_push; [done|]. by apply (lawful_pool s).
    + by apply lawful_push.
Qed.

Lemma close_reply_ok outcome ch : close_ok ch -> A (ch, close_reply outcome).
Proof. intros [H1 H2]. unfold close_reply. by destruct outcome as [[]|]. Qed.

Lemma lawful_finish s :
  Core config s -> ready_to_close s = true -> lawful s -> lawful (finish_close s).
Proof.
  intros Hc Hr Hl. destruct (ready_to_close_inv config s Hc Hr) as (_ & _ & _ & (cl & Hne & Ep) & _).
  unfold finish_close, on_pool, shutdown. cbn [worker_pool set_pool set_lifecycle pending].
  set (outcome := if existsb id (handles (worker_pool s)) then Err ShutdownFailure else Ok tt).
  rewrite Ep, answer_closes_spec. destruct cl as [|c cl]; [done|]. destruct Hl as [L1 L2 L3 L4 L5].
  split; cbn; [|done|done|done|done]. apply Forall_app. split; [apply Forall_app; split; [done|]|].
  - rewrite Ep in L3. clear -L3. change ((c, close_reply outcome) :: map (fun ch => (ch, close_reply outcome)) cl)
      with (map (fun ch => (ch, close_reply outcome)) (c :: cl)).
    induction (c :: cl) as [|x l IH]; cbn in *; [done|]. apply Forall_cons in L3 as [? L3].
    constructor; [by apply close_reply_ok|by apply IH].
  - clear -L4. induction L4 as [|e l He _ IH]; [done|]. destruct e as [sub|c'|sub|o|ch|ch]; cbn in *; try done.
    + constructor; [apply He|done].
    + constructor; [apply He|done].
    + constructor; [apply He|done].
    + constructor; [by apply close_reply_ok|done].
Qed.

Lemma lawful_turn event rest s :
  0 < config_max_concurrent_operations config -> Inv config s -> receiver s = event :: rest -> lawful s ->
  match coordinator_turn config event (set_receiver rest s) with
  | Looped s' | Returned s' | Panicked s' => lawful s'
  end.
Proof.
  intros Hmax Hs Er Hl. destruct (lawful_receive _ _ _ Er Hl) as [He Hl0].
  assert (Hlc : lifecycle s = Open \/ lifecycle s = Closing).
  { destruct (inv_closes _ _ Hs) as (before & closes & _ & _ & ->). destruct closes; auto. }
  pose proof (lawful_handle event (set_receiver rest s) (base_sender _ _ (inv_base _ _ Hs))
    (receive_matched _ _ _ _ Hs Er) He Hlc Hl0) as H.
  pose proof (handle_event_inv config event rest s Hmax Hs Er) as Hh.
  unfold coordinator_turn. destruct (handle_event config event (set_receiver rest s)) as [s1|s1|s1];
    cbn [handled_state handled] in *; [|done|done].
  destruct (ready_to_close s1) eqn:Hr; [|done]. apply lawful_finish; [by destruct Hh|done|done].
Qed.

End Answers.

(** ** Other sets of answers *)

Section Change.
Context (A A' : Channel * Reply -> Prop).

Definition allows (ch : Channel) : Prop := forall answer, fst answer = ch -> A answer -> A' answer.

Lemma op_ok_change op : allows (op_sender op) -> op_ok A op -> op_ok A' op.
Proof. intros H []. split; apply H; by rewrite ?deliver_error_sender. Qed.

Lemma pending_ok_change e : allows (pending_sender e) -> pending_ok A e -> pending_ok A' e.
Proof.
  destruct e; cbn; unfold maintenance_ok, flush_ok, close_ok; intros H;
    [by apply op_ok_change|intros Hr r; by apply H|intros []; split; by apply H..].
Qed.

Lemma event_ok_change e : (forall ch, event_sender e = Some ch -> allows ch) -> event_ok A e -> event_ok A' e.
Proof.
  destruct e as [sub|c|sub|[[ch r]|]|ch|ch]; cbn; unfold maintenance_ok, flush_ok, close_ok; intros H.
  - apply op_ok_change. by apply H.
  - intros Ha answer E. specialize (Ha answer E). unfold completion_answer in E.
    destruct (comp_outcome c) as [[o r]|]; [|done]. cbn in *. destruct answer as [ch reply].
    apply (H (op_sender o)); [done| |done]. by eapply deliver_sender.
  - intros Hr r. by apply (H (maint_sender sub)).
  - by apply (H ch).
  - done.
  - intros []; split; by apply (H ch).
  - intros []; split; by apply (H ch).
Qed.

Lemma job_ok_change j : allows (job_sender j) -> job_ok A j -> job_ok A' j.
Proof. destruct j; cbn; unfold maintenance_ok; [done|]. intros H Hr r. by apply H. Qed.

(** Only the answers on the channels of the state matter. *)
Lemma lawful_change s :
  (forall ch, ch ∈ owed s \/ ch ∈ map fst (sent s) -> allows ch) -> lawful A s -> lawful A' s.
Proof.
  intros H [L1 L2 L3 L4 L5]. unfold owed in H. split.
  - apply Forall_forall. intros answer Hin. rewrite Forall_forall in L1.
    apply (H (fst answer)); [right; apply list_elem_of_fmap; by exists answer|done|by apply L1].
  - intros op Hop. apply op_ok_change; [|by apply L2]. apply H. left. apply elem_of_app. left.
    apply list_elem_of_fmap. by exists op.
  - apply Forall_forall. intros e Hin. rewrite Forall_forall in L3. apply pending_ok_change; [|by apply L3].
    apply H. left. rewrite !elem_of_app. right. left. apply list_elem_of_fmap. by exists e.
  - apply Forall_forall. intros e Hin. rewrite Forall_forall in L4. apply event_ok_change; [|by apply L4].
    intros ch E. apply H. left. rewrite !elem_of_app. do 3 right. apply list_elem_of_omap. by exists e.
  - apply Forall_forall. intros j Hin. rewrite Forall_forall in L5. apply job_ok_change; [|by apply L5].
    apply H. left. rewrite !elem_of_app. do 2 right. left. apply list_elem_of_fmap. by exists j.
Qed.

(** More answers allow more. *)
Lemma lawful_mono s : (forall answer, A answer -> A' answer) -> lawful A s -> lawful A' s.
Proof. intros H. apply lawful_change. intros ch _ answer _. apply H. Qed.

End Change.
