(* ===== verification/SchedulerPool.v ===== *)
(** * Jobs stay with the pool

    A turn of the coordinator only adds jobs to the channel of the pool; a job
    leaves it when a worker is done with it.  While a job of a key is there, no
    other job of the key is, and no maintenance. *)
From S2P Require Export SchedulerTrace.

Local Open Scope N_scope.
Local Open Scope blob_scope.

Section Pool.
Context {Order : HashMapOrder} {OrderL : HashMapOrderLaws}.
Context (config : StoreConfig).

Abbreviation jobs s := (channel (worker_pool s)).
Abbreviation dispatch_if_idle := (dispatch_if_idle config).

(** The jobs of [s], in their order, are the first ones of [s']. *)
Definition adds_jobs (s s' : Scheduler) : Prop := jobs s `prefix_of` jobs s'.

#[local] Instance adds_jobs_preorder : PreOrder adds_jobs.
Proof. unfold adds_jobs. split; [by intros s|intros s1 s2 s3; apply transitivity]. Qed.

Lemma adds_none s s' : worker_pool s' = worker_pool s -> adds_jobs s s'.
Proof. unfold adds_jobs. by intros ->. Qed.

Lemma adds_dispatch k s : pool_sender (worker_pool s) = true -> adds_jobs s (dispatch_if_idle k s).
Proof.
  intros Hp. unfold adds_jobs.
  destruct (dispatch_if_idle_dispatches config k s Hp) as [_|op rest p _ _ E P _ _|op rest p _ _ E P _]; [done| |].
  - unfold started, execute. cbn. rewrite (prepared_sender _ _ P), Hp. cbn.
    rewrite (prepared_channel _ _ P). by apply prefix_app_r.
  - unfold refused. destruct (remove_if_empty_fields k (send (deliver_error op WorkerUnavailable)
      (take_front k op rest p s))) as (_ & _ & _ & E4 & _).
    rewrite E4. cbn. by rewrite (prepared_channel _ _ P).
Qed.

Lemma adds_available s : pool_sender (worker_pool s) = true -> adds_jobs s (dispatch_available config s).
Proof.
  intros Hp. apply (dispatch_available_ind config
    (fun t => pool_sender (worker_pool t) = true /\ adds_jobs s t) s); [by intros t []| |done].
  intros k t [Ht Hc] _ _ _. split; [by apply dispatch_sender|]. etrans; [exact Hc|].
  etrans; [by apply (adds_none t (next_turn t))|]. by apply adds_dispatch.
Qed.

Lemma adds_maintenance sub s :
  pool_sender (worker_pool s) = true -> adds_jobs s (dispatch_maintenance sub s).
Proof.
  intros Hp. unfold dispatch_maintenance, on_pool, adds_jobs. pose proof (prepare_spec 1 (worker_pool s)) as Hpr.
  destruct (prepare 1 (worker_pool s)) as [[[]|e] p]; destruct Hpr as ([P1 P2 P3 P4] & _ & _ & He).
  - unfold prepare_dispatch, ret. cbn [worker_pool set_pool]. unfold execute. rewrite P1, Hp. cbn.
    rewrite P2. by apply prefix_app_r.
  - cbn. by rewrite P2.
Qed.

Lemma adds_advance s : pool_sender (worker_pool s) = true -> adds_jobs s (advance_pending_if_ready config s).
Proof.
  intros Hp. destruct (maintenance_active s) eqn:Hm.
  { unfold advance_pending_if_ready. by rewrite Hm. }
  apply (advance_ind config (fun t => pool_sender (worker_pool t) = true /\ adds_jobs s t) (adds_jobs s));
    [by intros t []| | | |by intros t []|done|done].
  - intros t sub rest [Ht Hc] Ep. split; [by apply dispatch_sender|]. etrans; [exact Hc|].
    by apply (adds_dispatch _ (enqueue _ _ (set_pending rest t))).
  - intros t ch rest [Ht Hc] Ep _. by split.
  - intros t sub rest [Ht Hc] Ep _. etrans; [exact Hc|].
    by apply (adds_maintenance sub (set_maintenance true (set_pending rest t))).
Qed.

Lemma adds_completion c s :
  pool_sender (worker_pool s) = true -> adds_jobs s (completion_dispatched config c s).
Proof.
  intros Hp. unfold completion_dispatched. set (k := comp_key_hash c).
  set (s0 := set_active (active s ∖ {[k]}) s).
  assert (H2 : adds_jobs s (dispatch_available config (dispatch_if_idle k s0))).
  { etrans; [by apply (adds_dispatch k s0)|]. apply adds_available. by apply dispatch_sender. }
  case_bool_decide; [|done]. etrans; [exact H2|]. apply adds_none.
  by destruct (remove_if_empty_fields k (dispatch_available config (dispatch_if_idle k s0)))
    as (_ & _ & _ & E4 & _).
Qed.

Lemma adds_handle event s :
  pool_sender (worker_pool s) = true -> well_matched event = true ->
  adds_jobs s (handled_state (handle_event config event s)).
Proof.
  intros Hp Hm. destruct event as [sub|c|sub|outcome|ch|ch]; cbn [handle_event].
  - unfold on_submission. case_decide; cbn [handled_state]; [by apply adds_none|].
    destruct (_ || _); cbn [handled_state]; [by apply adds_none|].
    etrans; [by apply (adds_dispatch (sub_key_hash sub) (enqueue (sub_key_hash sub) (sub_operation sub) s))|].
    apply adds_available. by apply dispatch_sender.
  - rewrite on_completion_next by done. cbn [handled_state]. etrans; [by apply (adds_completion c)|].
    assert (Hs : pool_sender (worker_pool (completion_dispatched config c s)) = true)
      by by apply completion_dispatched_conserves.
    etrans; [|apply adds_advance; by rewrite send_opt_sender].
    apply adds_none. by destruct (completion_answer c).
  - unfold on_maintenance. case_decide; cbn [handled_state]; [by apply adds_none|].
    by apply (adds_advance (push_pending (PeMaintenance sub) s)).
  - unfold on_maintenance_completion. cbn [handled_state].
    etrans; [|apply adds_advance; by destruct outcome as [[]|]]. apply adds_none. by destruct outcome as [[]|].
  - unfold on_flush. case_decide; cbn [handled_state]; [by apply adds_none|].
    by apply (adds_advance (push_pending (PeFlush ch) s)).
  - unfold on_close. cbn [handled_state]. etrans; [|apply adds_advance; by destruct (lifecycle s)].
    apply adds_none. by destruct (lifecycle s).
Qed.

Lemma answer_closes_pool outcome events s : worker_pool (answer_closes outcome events s) = worker_pool s.
Proof. revert s; induction events as [|[] events IH]; intros s; [done..|]. cbn. by rewrite IH. Qed.

Lemma adds_finish s : adds_jobs s (finish_close s).
Proof.
  unfold adds_jobs, finish_close, on_pool, shutdown. cbn [worker_pool set_pool set_lifecycle].
  unfold drain. cbn. by rewrite answer_closes_pool.
Qed.

(** A turn of the coordinator takes no job away. *)
Lemma adds_turn event rest s :
  Inv config s -> receiver s = event :: rest ->
  match coordinator_turn config event (set_receiver rest s) with
  | Looped s' | Returned s' | Panicked s' => adds_jobs s s'
  end.
Proof.
  intros Hs Er. pose proof (adds_handle event (set_receiver rest s) (base_sender _ _ (inv_base _ _ Hs))
    (receive_matched _ _ _ _ Hs Er)) as H.
  unfold coordinator_turn. destruct (handle_event config event (set_receiver rest s)) as [s1|s1|s1];
    cbn [handled_state] in *; [|done|done].
  destruct (ready_to_close s1); [|done]. etrans; [exact H|]. apply adds_finish.
Qed.

(** ** What is in the channel of the pool at one time *)

Lemma one_job_per_key s k op op' :
  Inv config s -> OperationJob k op ∈ jobs s -> OperationJob k op' ∈ jobs s -> op = op'.
Proof.
  intros Hs H1 H2. pose proof (base_flight _ _ (inv_base _ _ Hs)) as Hf. unfold in_flight in Hf.
  assert (Hn : NoDup (omap job_key (jobs s))).
  { assert (H : NoDup (omap job_key (jobs s) ++ omap completion_key (receiver s)))
      by (rewrite Hf; apply NoDup_elements). by apply NoDup_app in H as [H _]. }
  clear Hf Hs. induction (jobs s) as [|j l IH]; [by apply not_elem_of_nil in H1|].
  assert (Hin : forall o, OperationJob k o ∈ l -> k ∈ omap job_key l).
  { intros o Ho. apply list_elem_of_omap. by exists (OperationJob k o). }
  apply elem_of_cons in H1 as [H1|H1], H2 as [H2|H2]; subst; cbn in Hn.
  - by simplify_eq.
  - apply NoDup_cons in Hn as [Hn _]. by destruct Hn; eapply Hin.
  - apply NoDup_cons in Hn as [Hn _]. by destruct Hn; eapply Hin.
  - destruct (job_key j); [apply NoDup_cons in Hn as [_ Hn]|]; by apply IH.
Qed.

Lemma maintenance_alone s sub k op :
  Inv config s -> MaintenanceJob sub ∈ jobs s -> OperationJob k op ∉ jobs s.
Proof.
  intros Hs Hm Hop. destruct (inv_base _ _ Hs) as [_ _ _ _ _ Hf Hc He _].
  assert (Ha : maintenance_active s = true).
  { destruct (maintenance_active s); [done|]. unfold maintenance_in_flight in Hc.
    assert (H : MaintenanceJob sub ∈ List.filter is_maintenance_job (jobs s)).
    { rewrite list_elem_of_In, filter_In. by rewrite <-list_elem_of_In. }
    destruct (List.filter is_maintenance_job (jobs s)); [by apply not_elem_of_nil in H|]. cbn in Hc. lia. }
  destruct (He Ha) as [Hact _]. rewrite Hact, elements_empty in Hf.
  assert (H : k ∈ in_flight s).
  { unfold in_flight. apply elem_of_app. left. apply list_elem_of_omap. by exists (OperationJob k op). }
  rewrite Hf in H. by apply not_elem_of_nil in H.
Qed.

End Pool.
