(* ===== verification/Engine.v ===== *)
(** * The engine handle ([src/src/engine/mod.rs], [stream.rs])

    The calls of the API: admission under the lifecycle mutex, submission to the
    coordinator's channel, and the [Pending] that the caller waits on.  One call
    is one step: the lock is held from the last test of the lifecycle to the
    send, and the tests before it can only see an earlier lifecycle. *)
From S2P Require Export Scheduler.

Local Open Scope N_scope.
Local Open Scope blob_scope.

(** ** Joining the coordinator *)

Inductive CoordinatorJoinOutcome := Joined | JoinPanicked.

(** [handle] is the thread; [true] when joining it is an error. *)
Record CoordinatorJoin := {
  join_handle : option bool;
  join_outcome : option CoordinatorJoinOutcome;
}.

Definition CoordinatorJoin_new (panics : bool) : CoordinatorJoin :=
  {| join_handle := Some panics; join_outcome := None |}.

Definition join_result (outcome : CoordinatorJoinOutcome) (r : result unit AtomicBlobStoreError)
    : result unit AtomicBlobStoreError :=
  match outcome with Joined => r | JoinPanicked => Err ShutdownFailure end.

(** [None] is the panic of [expect]. *)
Definition finish (j : CoordinatorJoin) (r : result unit AtomicBlobStoreError)
    : option (result unit AtomicBlobStoreError * CoordinatorJoin) :=
  match join_outcome j with
  | Some outcome => Some (join_result outcome r, j)
  | None =>
      handle ← join_handle j;
      let outcome := if (handle : bool) then JoinPanicked else Joined in
      Some (join_result outcome r, {| join_handle := None; join_outcome := Some outcome |})
  end.

(** ** The handle *)

Record Engine := {
  eng_config : StoreConfig;
  eng_scheduler : Scheduler;        (* the coordinator, its channel and the lifecycle *)
  eng_alive : bool;                 (* the coordinator still holds its receiver *)
  eng_coordinator : CoordinatorJoin;
  eng_next : Channel;               (* the next channel to be created *)
  eng_accepted : list (Channel * CoordinatorEvent);   (* the events accepted so far, oldest first *)
}.

Definition set_scheduler (s : Scheduler) (e : Engine) : Engine :=
  {| eng_config := eng_config e; eng_scheduler := s; eng_alive := eng_alive e;
     eng_coordinator := eng_coordinator e; eng_next := eng_next e; eng_accepted := eng_accepted e |}.
Definition set_alive (alive : bool) (e : Engine) : Engine :=
  {| eng_config := eng_config e; eng_scheduler := eng_scheduler e; eng_alive := alive;
     eng_coordinator := eng_coordinator e; eng_next := eng_next e; eng_accepted := eng_accepted e |}.
Definition set_coordinator (j : CoordinatorJoin) (e : Engine) : Engine :=
  {| eng_config := eng_config e; eng_scheduler := eng_scheduler e; eng_alive := eng_alive e;
     eng_coordinator := j; eng_next := eng_next e; eng_accepted := eng_accepted e |}.

Definition eng_lifecycle (e : Engine) : Lifecycle := lifecycle (eng_scheduler e).

(** [flume::bounded(1)]. *)
Definition bounded (e : Engine) : Channel * Engine :=
  (eng_next e,
   {| eng_config := eng_config e; eng_scheduler := eng_scheduler e; eng_alive := eng_alive e;
      eng_coordinator := eng_coordinator e; eng_next := eng_next e + 1;
      eng_accepted := eng_accepted e |}).

(** [submissions.send(event)]: an error when the receiver is gone. *)
Definition send_event (ch : Channel) (event : CoordinatorEvent) (e : Engine) : bool * Engine :=
  if eng_alive e then
    (true,
     {| eng_config := eng_config e; eng_scheduler := post event (eng_scheduler e);
        eng_alive := true; eng_coordinator := eng_coordinator e; eng_next := eng_next e;
        eng_accepted := eng_accepted e ++ [(ch, event)] |})
  else (false, e).

(** ** Pending results *)

(** A [Pending] waits on a channel, or holds its result already; [completion]
    turns what was received, [None] from a disconnected channel, into the answer
    ([None] is a panic of the closure). *)
Record Pending (T : Type) := {
  pending_receiver : Channel + result T AtomicBlobStoreError;
  completion : option (result T AtomicBlobStoreError) -> Engine ->
    option (result T AtomicBlobStoreError * Engine);
}.
Arguments pending_receiver {T}.
Arguments completion {T}.

Definition Pending_new {T} (r : Channel + result T AtomicBlobStoreError) : Pending T :=
  {| pending_receiver := r;
     completion received e := Some (default (Err EngineFailed) received, e) |}.

Definition with_disconnected {T} (ch : Channel) (disconnected : Engine -> result T AtomicBlobStoreError)
    : Pending T :=
  {| pending_receiver := inl ch;
     completion received e :=
       Some (match received with Some r => r | None => disconnected e end, e) |}.

Definition with_after {T} (p : Pending T)
    (after : result T AtomicBlobStoreError -> Engine -> option (result T AtomicBlobStoreError * Engine))
    : Pending T :=
  {| pending_receiver := pending_receiver p;
     completion received e := completion p received e ≫= fun '(r, e') => after r e' |}.

Definition resolved {T} (r : result T AtomicBlobStoreError) : Pending T := Pending_new (inr r).

(** [wait], given what the channel delivers. *)
Definition wait {T} (p : Pending T) (received : option (result T AtomicBlobStoreError)) (e : Engine)
    : option (result T AtomicBlobStoreError * Engine) :=
  completion p (match pending_receiver p with inr r => Some r | inl _ => received end) e.

(** ** Submitting *)

Definition ensure_open (e : Engine) : result unit AtomicBlobStoreError :=
  match eng_lifecycle e with
  | Open => Ok tt
  | Closing | Closed | ShutdownFailed => Err StoreClosed
  | Failed => Err EngineFailed
  end.

Section Calls.
Context {B3 : Blake3}.

Definition submit {T} (key : KeyHash) (operation : Operation) (receiver : Channel) (e : Engine)
    : Pending T * Engine :=
  match eng_lifecycle e with
  | Open =>
      match send_event receiver
              (EvSubmission {| sub_key_hash := key; sub_operation := operation |}) e with
      | (true, e') => (Pending_new (inl receiver), e')
      | (false, e') => (resolved (Err EngineFailed), e')
      end
  | Failed => (resolved (Err EngineFailed), e)
  | Closing | Closed | ShutdownFailed => (resolved (Err StoreClosed), e)
  end.

Definition submit_operation (key : KeyHash) (operation : Operation) (receiver : Channel) (e : Engine)
    : result unit AtomicBlobStoreError * Engine :=
  match eng_lifecycle e with
  | Open =>
      match send_event receiver
              (EvSubmission {| sub_key_hash := key; sub_operation := operation |}) e with
      | (true, e') => (Ok tt, e')
      | (false, e') => (Err EngineFailed, e')
      end
  | Failed => (Err EngineFailed, e)
  | Closing | Closed | ShutdownFailed => (Err StoreClosed, e)
  end.

(** ** The calls *)

(** The common frame of [load], [save], [clear], [inspect] and [quarantine]. *)
Definition call {T} (canonical_key : bytes) (operation : Channel -> Operation) (e : Engine)
    : Pending T * Engine :=
  match ensure_open e with
  | Err error => (resolved (Err error), e)
  | Ok _ =>
      let (sender, e) := bounded e in
      submit (key_hash canonical_key) (operation sender) sender e
  end.

Definition load (canonical_key : bytes) : Engine -> Pending (option bytes) * Engine :=
  call canonical_key Load.

Definition save (canonical_key payload : bytes) : Engine -> Pending unit * Engine :=
  call canonical_key (Save payload).

Definition clear (canonical_key : bytes) : Engine -> Pending unit * Engine :=
  call canonical_key Clear.

Definition inspect (canonical_key : bytes) : Engine -> Pending BlobInspection * Engine :=
  call canonical_key Inspect.

Definition quarantine (canonical_key : bytes) : Engine -> Pending QuarantineInfo * Engine :=
  call canonical_key Quarantine.

(** [chunks]: what the caller will send through the endpoint. *)
Definition start_save_stream (canonical_key : bytes) (declared_len : N)
    (chunks : list SaveStreamMessage) (e : Engine)
    : result (Pending unit) AtomicBlobStoreError * Engine :=
  match ensure_open e with
  | Err error => (Err error, e)
  | Ok _ =>
      if (maximum (eng_config e) <? declared_len)
      then (Err (BlobTooLarge declared_len (maximum (eng_config e))), e)
      else
        let (sender, e) := bounded e in
        let (r, e) := submit_operation (key_hash canonical_key)
          (SaveStream declared_len chunks sender) sender e in
        (map_ok (fun _ => Pending_new (inl sender)) r, e)
  end.

(** [accepts] and [acknowledges]: what the caller will do with the endpoint. *)
Definition start_load_stream (canonical_key : bytes) (accepts : list bool) (acknowledges : bool)
    (e : Engine) : result (Pending (option BlobMetadata)) AtomicBlobStoreError * Engine :=
  match ensure_open e with
  | Err error => (Err error, e)
  | Ok _ =>
      let (sender, e) := bounded e in
      let (r, e) := submit_operation (key_hash canonical_key)
        (LoadStream (Some accepts) (Some acknowledges) sender) sender e in
      (map_ok (fun _ => Pending_new (inl sender)) r, e)
  end.

Definition cleanup_stale_temporary_files (minimum_age : Duration) (e : Engine)
    : Pending CleanupReport * Engine :=
  match ensure_open e with
  | Err error => (resolved (Err error), e)
  | Ok _ =>
      if (minimum_age =? 0) then (resolved (Err InvalidCleanupAge), e)
      else
        let (sender, e) := bounded e in
        match eng_lifecycle e with
        | Open =>
            match send_event sender
                    (EvMaintenance {| maint_minimum_age := Some minimum_age;
                                      maint_sender := sender |}) e with
            | (true, e') => (Pending_new (inl sender), e')
            | (false, e') => (resolved (Err MaintenanceCoordinationFailure), e')
            end
        | Failed => (resolved (Err EngineFailed), e)
        | Closing | Closed | ShutdownFailed => (resolved (Err StoreClosed), e)
        end
  end.

Definition flush (e : Engine) : Pending unit * Engine :=
  match ensure_open e with
  | Err error => (resolved (Err error), e)
  | Ok _ =>
      let (sender, e) := bounded e in
      match eng_lifecycle e with
      | Open =>
          match send_event sender (EvFlush sender) e with
          | (true, e') => (Pending_new (inl sender), e')
          | (false, e') => (resolved (Err MaintenanceCoordinationFailure), e')
          end
      | Failed => (resolved (Err EngineFailed), e)
      | Closing | Closed | ShutdownFailed => (resolved (Err StoreClosed), e)
      end
  end.

Definition finish_coordinator (r : result unit AtomicBlobStoreError) (e : Engine)
    : option (result unit AtomicBlobStoreError * Engine) :=
  '(r, j) ← finish (eng_coordinator e) r; Some (r, set_coordinator j e).

Definition closed_pending (r : result unit AtomicBlobStoreError) : Pending unit :=
  with_after (resolved r) finish_coordinator.

(** What a disconnected close concludes from the lifecycle. *)
Definition close_disconnected (e : Engine) : result unit AtomicBlobStoreError :=
  match eng_lifecycle e with
  | Closed => Ok tt
  | ShutdownFailed | Failed => Err ShutdownFailure
  | Open | Closing => Err EngineFailed
  end.

(** [None]: the branch for a failed send locks the lifecycle mutex that the same
    call still holds, so the call does not return. *)
Definition close (e : Engine) : option (Pending unit * Engine) :=
  match eng_lifecycle e with
  | Closed => Some (closed_pending (Ok tt), e)
  | ShutdownFailed | Failed => Some (closed_pending (Err ShutdownFailure), e)
  | Open | Closing =>
      let (sender, e) := bounded e in
      match send_event sender (EvClose sender) e with
      | (true, e') =>
          Some (with_after (with_disconnected sender close_disconnected) finish_coordinator, e')
      | (false, _) => None
      end
  end.

(** A path for diagnostics; the workers use the same. *)
Definition blob_path {SP : StdPath} (canonical_key : bytes) (e : Engine) : Path :=
  std_join (namespace (eng_config e)) (blob_filename (format (eng_config e)) canonical_key).

End Calls.

(** ** Opening *)

Section Opening.
Context {Tgt : Target} {Bk : Backend}.

(** [from_config]: [spawned] is what starting the coordinator thread answers, and
    [spawns] what the pool will be told. *)
Definition from_config (config : StoreConfig) (spawned : result unit io_error)
    (spawns : list (option bool)) : result Engine AtomicBlobStoreError :=
  match spawned with
  | Err source => Err (Io StartCoordinator source)
  | Ok _ =>
      Ok {| eng_config := config; eng_scheduler := Scheduler_new config spawns; eng_alive := true;
            eng_coordinator := CoordinatorJoin_new false; eng_next := 0; eng_accepted := [] |}
  end.

Definition open (root namespace : Path) (options : AtomicBlobStoreOptions)
    (spawned : result unit io_error) (spawns : list (option bool))
    : eff World AtomicBlobStoreError Engine :=
  do? component <- lift (validate_namespace namespace);
  do? _ <- lift (validate_maximum (max_blob_size options));
  do? config <- backend_initialize root component (options_format options) (max_blob_size options)
    (Npos (max_concurrent_operations options));
  lift (from_config config spawned spawns).

End Opening.
