(* ===== verification/EngineSteps.v ===== *)
(** * The engine and its environment

    Callers, the coordinator and the workers in any interleaving.  A worker is
    any thread that ends its job with a completion of the right kind, or dies on
    it; [System] gives it the filesystem.  No rule of [step] lets the coordinator
    panic: [coordinator_never_panics] shows that none is needed.  What would
    become of the engine if it did is [panics]. *)
From S2P Require Export Engine SchedulerWork.

Local Open Scope N_scope.
Local Open Scope blob_scope.

(** ** Calls *)

Inductive ApiCall :=
| CallLoad (canonical_key : bytes)
| CallSave (canonical_key payload : bytes)
| CallClear (canonical_key : bytes)
| CallInspect (canonical_key : bytes)
| CallQuarantine (canonical_key : bytes)
| CallSaveStream (canonical_key : bytes) (declared_len : N) (chunks : list SaveStreamMessage)
| CallLoadStream (canonical_key : bytes) (accepts : list bool) (acknowledges : bool)
| CallCleanup (minimum_age : Duration)
| CallFlush
| CallClose.

Section Steps.
Context {B3 : Blake3} {Order : HashMapOrder}.

(** The engine after a call; [None] is a call that does not return. *)
Definition api_call (c : ApiCall) (e : Engine) : option Engine :=
  match c with
  | CallLoad k => Some (snd (load k e))
  | CallSave k p => Some (snd (save k p e))
  | CallClear k => Some (snd (clear k e))
  | CallInspect k => Some (snd (inspect k e))
  | CallQuarantine k => Some (snd (quarantine k e))
  | CallSaveStream k n chunks => Some (snd (start_save_stream k n chunks e))
  | CallLoadStream k accepts acknowledges => Some (snd (start_load_stream k accepts acknowledges e))
  | CallCleanup age => Some (snd (cleanup_stale_temporary_files age e))
  | CallFlush => Some (snd (flush e))
  | CallClose => snd <$> close e
  end.

(** ** Steps *)

Record State := {
  st_engine : Engine;
  st_handles : bool;                       (* a caller still holds a handle *)
  st_ran : list (KeyHash * Operation);     (* the operations that ran, oldest first *)
  st_dropped : list Channel;               (* the callers whose operation died with its worker *)
}.

Definition st_scheduler (st : State) : Scheduler := eng_scheduler (st_engine st).

Definition with_engine (e : Engine) (st : State) : State :=
  {| st_engine := e; st_handles := st_handles st; st_ran := st_ran st; st_dropped := st_dropped st |}.

Definition with_scheduler (s : Scheduler) (st : State) : State :=
  with_engine (set_scheduler s (st_engine st)) st.

(** The coordinator thread ended in the state [s]. *)
Definition stopped (s : Scheduler) (st : State) : State :=
  with_engine (set_alive false (set_scheduler s (st_engine st))) st.

(** The event that ends a job. *)
Inductive completes : WorkerJob -> CoordinatorEvent -> Prop :=
| completes_operation k op o r :
    matching o r = true -> op_sender o = op_sender op ->
    completes (OperationJob k op) (EvCompletion {| comp_key_hash := k; comp_outcome := Some (o, r) |})
| completes_panicked k op :
    completes (OperationJob k op) (EvCompletion {| comp_key_hash := k; comp_outcome := None |})
| completes_maintenance sub r :
    completes (MaintenanceJob sub) (EvMaintenanceCompletion (Some (maint_sender sub, r)))
| completes_maintenance_panicked sub :
    completes (MaintenanceJob sub) (EvMaintenanceCompletion None).

Definition job_ran (j : WorkerJob) : list (KeyHash * Operation) :=
  match j with OperationJob k op => [(k, op)] | MaintenanceJob _ => [] end.

(** The caller of [j], when the completion [event] no longer holds its sender. *)
Definition job_dropped (j : WorkerJob) (event : CoordinatorEvent) : list Channel :=
  match event_sender event with Some _ => [] | None => [job_sender j] end.

(** The last act of a job: its completion is sent. *)
Definition complete_job (i : nat) (j : WorkerJob) (event : CoordinatorEvent) (st : State) : State :=
  let s := st_scheduler st in
  {| st_engine := set_scheduler (post event (set_pool (finish_job i (worker_pool s)) s)) (st_engine st);
     st_handles := st_handles st;
     st_ran := st_ran st ++ job_ran j;
     st_dropped := st_dropped st ++ job_dropped j event |}.

(** A turn of the coordinator thread. *)
Inductive coordinates : State -> State -> Prop :=
| turn_looped st event rest s' :
    eng_alive (st_engine st) = true -> receiver (st_scheduler st) = event :: rest ->
    coordinator_turn (eng_config (st_engine st)) event (set_receiver rest (st_scheduler st)) = Looped s' ->
    coordinates st (with_scheduler s' st)
| turn_returned st event rest s' :
    eng_alive (st_engine st) = true -> receiver (st_scheduler st) = event :: rest ->
    coordinator_turn (eng_config (st_engine st)) event (set_receiver rest (st_scheduler st)) = Returned s' ->
    coordinates st (stopped s' st).

(** What the threads of the engine do by themselves. *)
Inductive internal : State -> State -> Prop :=
| internal_turn st st' : coordinates st st' -> internal st st'
| internal_job st i j event :
    channel (worker_pool (st_scheduler st)) !! i = Some j -> completes j event ->
    internal st (complete_job i j event st).

(** A clone of the sender of the coordinator's channel that the engine holds. *)
Definition holds_sender (e : PendingEvent) : bool :=
  match e with PeSubmission _ | PeMaintenance _ => true | PeFlush _ | PeClose _ => false end.

(** What callers do, and the end of the coordinator when all of them left. *)
Inductive external : State -> State -> Prop :=
| step_call c st e' :
    st_handles st = true -> api_call c (st_engine st) = Some e' -> external st (with_engine e' st)
| step_joined st r r' j :
    eng_alive (st_engine st) = false -> finish (eng_coordinator (st_engine st)) r = Some (r', j) ->
    external st (with_engine (set_coordinator j (st_engine st)) st)
| step_drop st :
    external st {| st_engine := st_engine st; st_handles := false; st_ran := st_ran st;
                   st_dropped := st_dropped st |}
| step_disconnected st :
    st_handles st = false -> eng_alive (st_engine st) = true ->
    receiver (st_scheduler st) = [] -> waiting (queues (st_scheduler st)) = [] ->
    forallb (fun e => negb (holds_sender e)) (pending (st_scheduler st)) = true ->
    channel (worker_pool (st_scheduler st)) = [] ->
    external st (stopped (disconnected (st_scheduler st)) st).

Definition step (st st' : State) : Prop := internal st st' \/ external st st'.

(** The coordinator thread panics, in whatever state [s] of the scheduler; its
    closure in [from_config] catches the panic and the thread ends. *)
Inductive panics : State -> State -> Prop :=
| step_panics st s :
    eng_alive (st_engine st) = true -> panics st (stopped (coordinator_panicked s) st).

(** A step of an engine whose coordinator may panic at any moment. *)
Definition may_panic (st st' : State) : Prop := step st st' \/ panics st st'.

(** The store right after [from_config] answered [e]. *)
Definition started_with (e : Engine) : State :=
  {| st_engine := e; st_handles := true; st_ran := []; st_dropped := [] |}.

Inductive reachable (config : StoreConfig) : State -> Prop :=
| reachable_open spawns e :
    from_config config (Ok tt) spawns = Ok e -> reachable config (started_with e)
| reachable_step st st' : reachable config st -> step st st' -> reachable config st'.

End Steps.
