(* ===== verification/EngineInv.v ===== *)
(** * The invariant of the engine

    What holds in every state that callers, coordinator and workers can reach:
    the invariant of the coordinator, and the accounts of the calls. *)
From S2P Require Export EngineSteps SchedulerOrder.

Local Open Scope N_scope.
Local Open Scope blob_scope.

(** The operations of a key in a list of events, and in a list of runs. *)
Definition submitted (k : KeyHash) (accepted : list (Channel * CoordinatorEvent)) : list Operation :=
  received_of k (map snd accepted).

Definition ran_of (k : KeyHash) (ran : list (KeyHash * Operation)) : list Operation :=
  omap (fun '(k', op) => if decide (k' = k) then Some op else None) ran.

(** An event that the API sends with the sender of its channel, the ends of its
    streams, and the key of a caller. *)
Definition named `{Blake3} (ce : Channel * CoordinatorEvent) : Prop :=
  call_sender (snd ce) = Some (fst ce) /\
  forall sub, snd ce = EvSubmission sub ->
    owns_ends (sub_operation sub) = true /\ exists canonical_key, sub_key_hash sub = key_hash canonical_key.

Section Invariant.
Context {B3 : Blake3} {Order : HashMapOrder} {OrderL : HashMapOrderLaws}.
Context (config : StoreConfig).

Record Calls (accepted : list (Channel * CoordinatorEvent)) (next : Channel) (alive : bool)
    (dropped : list Channel) (ran : list (KeyHash * Operation)) (s : Scheduler) : Prop := {
  calls_named : Forall named accepted;
  calls_fresh : Forall (fun ce => fst ce < next) accepted;
  calls_nodup : NoDup (map fst accepted);
  calls_share ch : (share ch s + cnt ch dropped = cnt ch (map fst accepted))%nat;
  calls_order k : exists late, submitted k accepted = pipeline k s ++ late /\
    (lifecycle s = Open -> late = received_of k (receiver s));
  calls_ran k : in_order (ran_of k ran) k s;
  calls_line : alive = true -> sublist (line s) (map fst accepted);
  calls_flushes ch : (ch, EvFlush ch) ∈ accepted -> ch ∈ owed s -> ch ∈ flushes s;
  calls_barrier before ch0 after :
    accepted = before ++ (ch0, EvFlush ch0) :: after -> (ch0, ReplyUnit (Ok tt)) ∈ sent s ->
    forall ch, ch ∈ owed s -> ch ∈ map fst after;
}.

Definition engine_calls (st : State) : Prop :=
  Calls (eng_accepted (st_engine st)) (eng_next (st_engine st)) (eng_alive (st_engine st))
    (st_dropped st) (st_ran st) (st_scheduler st).

(** The coordinator works, or it ended well. *)
Definition coordinator_sound (e : Engine) : Prop :=
  if eng_alive e then Inv config (eng_scheduler e) else Finished_state (eng_scheduler e).

Record Sound (st : State) : Prop := {
  sound_config : eng_config (st_engine st) = config;
  sound_coordinator : coordinator_sound (st_engine st);
  sound_join : join_handle (eng_coordinator (st_engine st)) = None ->
    join_outcome (eng_coordinator (st_engine st)) <> None;
  sound_calls : engine_calls st;
}.

(** ** Consequences *)

Lemma calls_unique accepted next alive dropped ran s ch :
  Calls accepted next alive dropped ran s -> (share ch s + cnt ch dropped <= 1)%nat.
Proof. intros H. rewrite (calls_share _ _ _ _ _ _ H). apply cnt_nodup, H. Qed.

Lemma calls_share_le accepted next alive dropped ran s :
  Calls accepted next alive dropped ran s -> forall ch, (share ch s <= 1)%nat.
Proof. intros H ch. pose proof (calls_unique _ _ _ _ _ _ ch H). lia. Qed.

(** ** Turns *)

Lemma submitted_snoc k accepted ce :
  submitted k (accepted ++ [ce]) = submitted k accepted ++ received_of k [snd ce].
Proof. unfold submitted, received_of. by rewrite map_app, omap_app. Qed.

Lemma received_cons k e l :
  received_of k (e :: l) = received_of k [e] ++ received_of k l.
Proof. unfold received_of. change (e :: l) with ([e] ++ l). by rewrite omap_app. Qed.

(** The order of a key after an event was handled. *)
Lemma order_turn k s s' event rest accepted :
  receiver s = event :: rest ->
  (exists late, submitted k accepted = pipeline k s ++ late /\
     (lifecycle s = Open -> late = received_of k (receiver s))) ->
  pipeline k s' = pipeline k s ++
    match accepts_operation event s with
    | Some (k', op) => if decide (k' = k) then [op] else []
    | None => []
    end ->
  (lifecycle s' = Open -> lifecycle s = Open /\ received_of k (receiver s') = received_of k rest) ->
  exists late, submitted k accepted = pipeline k s' ++ late /\
    (lifecycle s' = Open -> late = received_of k (receiver s')).
Proof.
  intros Er (late & E & Ho) Ep Hl. rewrite Er in Ho.
  destruct (decide (lifecycle s = Open)) as [Hopen|Hopen].
  - exists (received_of k rest). rewrite E, (Ho Hopen), Ep, received_cons, <-app_assoc. split.
    + do 2 f_equal. unfold accepts_operation. destruct event; try done. rewrite decide_True by done.
      cbn. by case_decide.
    + intros Hs'. by destruct (Hl Hs') as [_ ->].
  - exists late. split.
    + rewrite E, Ep. replace (accepts_operation event s) with (@None (KeyHash * Operation)); [by rewrite app_nil_r|].
      destruct event; try done. cbn. by rewrite decide_False.
    + intros Hs'. by destruct (Hl Hs').
Qed.

Lemma sent_owed ch (s : Scheduler) : (share ch s <= 1)%nat -> ch ∈ map fst (sent s) -> ch ∉ owed s.
Proof. rewrite share_owed, <-!cnt_in. lia. Qed.

Lemma flush_event ch (s : Scheduler) event rest :
  receiver s = event :: rest -> ch ∈ flushes s -> ch ∈ flushes (set_receiver rest s) \/ event = EvFlush ch.
Proof.
  unfold flushes. intros ->. cbn. rewrite !elem_of_app.
  destruct event; cbn; rewrite ?elem_of_cons; naive_solver.
Qed.

(** A flush answered before a step was answered in the same way. *)
Lemma old_answer (s s' : Scheduler) ch r l :
  sent s' = sent s ++ l -> (share ch s' <= 1)%nat -> ch ∈ map fst (sent s) -> (ch, r) ∈ sent s' -> (ch, r) ∈ sent s.
Proof.
  intros E H1 Hs. rewrite E. intros [H|H]%elem_of_app; [done|exfalso].
  assert (Hl : ch ∈ map fst l) by (apply list_elem_of_fmap; by exists (ch, r)).
  rewrite share_owed, E, map_app, cnt_app in H1. apply cnt_in in Hs, Hl. lia.
Qed.

Lemma turn_barrier accepted next alive dropped ran (s s' : Scheduler) l :
  Calls accepted next alive dropped ran s -> sublist (line s) (map fst accepted) ->
  in_line s s' -> sent s' = sent s ++ l ->
  forall before ch0 after,
    accepted = before ++ (ch0, EvFlush ch0) :: after -> (ch0, ReplyUnit (Ok tt)) ∈ sent s' ->
    forall ch, ch ∈ owed s' -> ch ∈ map fst after.
Proof.
  intros Hc Hline [I1 I2 I3] El before ch0 after Ea Ho ch Hch.
  pose proof (calls_share_le _ _ _ _ _ _ Hc) as H1.
  assert (H1' : forall c, (share c s' <= 1)%nat) by (intros c; by rewrite I1).
  assert (Hin : (ch0, EvFlush ch0) ∈ accepted) by (rewrite Ea; set_solver).
  destruct (decide (ch0 ∈ owed s)) as [Hw|Hw].
  - pose proof (calls_flushes _ _ _ _ _ _ Hc ch0 Hin Hw) as Hf.
    destruct (I3 ch0 Hf Ho) as (l1 & l2 & E & Hl2).
    rewrite Ea, map_app in Hline. cbn in Hline. rewrite E in Hline.
    apply (sublist_after ch0 l1 l2 (map fst before) (map fst after)); [|done|by apply Hl2].
    pose proof (calls_nodup _ _ _ _ _ _ Hc) as Hn. by rewrite Ea, map_app in Hn.
  - assert (Hs : ch0 ∈ map fst (sent s)).
    { apply cnt_in. rewrite <-cnt_in in Hw. specialize (I1 ch0). rewrite !share_owed in I1.
      assert (Hs' : ch0 ∈ map fst (sent s')) by (apply list_elem_of_fmap; by exists (ch0, ReplyUnit (Ok tt))).
      apply cnt_in in Hs'. lia. }
    apply (calls_barrier _ _ _ _ _ _ Hc before ch0 after Ea).
    + by apply (old_answer s s' ch0 _ l).
    + by apply (owed_shrinks s s' I1); [exists l|].
Qed.

Lemma turn_calls event rest accepted next dropped ran s :
  0 < config_max_concurrent_operations config -> Inv config s -> receiver s = event :: rest ->
  Calls accepted next true dropped ran s ->
  match coordinator_turn config event (set_receiver rest s) with
  | Looped s' => Calls accepted next true dropped ran s'
  | Returned s' => Calls accepted next false dropped ran s'
  | Panicked _ => False
  end.
Proof.
  intros Hmax Hs Er Hc. pose proof (calls_share_le _ _ _ _ _ _ Hc) as H1.
  pose proof (turn_conserves config event rest s Hmax Hs Er) as Hcons.
  pose proof (turn_order config event rest s Hmax Hs Er H1) as Ho.
  destruct (coordinator_turn config event (set_receiver rest s)) as [s'|s'|s']; [| |done].
  - destruct Hcons as (C1 & C2 & C3), Ho as [Hi [T1 T2 T3 [l T4] T5]].
    assert (Hshrink : forall ch, ch ∈ owed s' -> ch ∈ owed s) by (by apply owed_shrinks; [|exists l]).
    split; try apply Hc.
    + intros ch. rewrite C1. apply Hc.
    + intros k. eapply order_turn; [exact Er|apply Hc|apply C2|]. auto.
    + intros k. apply C3, Hc.
    + intros _. etrans; [apply Hi|]. by apply Hc.
    + intros ch Hin Hw. pose proof (calls_flushes _ _ _ _ _ _ Hc ch Hin (Hshrink _ Hw)) as Hf.
      destruct (T5 ch (flush_event ch s event rest Er Hf)) as [|Hsent]; [done|].
      apply sent_owed in Hsent; [done|]. rewrite C1. apply H1.
    + eapply turn_barrier; [exact Hc|by apply Hc|exact Hi|exact T4].
  - destruct Hcons as (C1 & C2 & C3), Ho as (Hw & Hlc & l & Hl).
    split; try apply Hc.
    + intros ch. rewrite C1. apply Hc.
    + intros k. eapply order_turn; [exact Er|apply Hc|apply C2|done].
    + intros k. apply C3, Hc.
    + done.
    + intros ch _. rewrite Hw. by intros H%not_elem_of_nil.
    + intros before ch0 after _ _ ch. rewrite Hw. by intros H%not_elem_of_nil.
Qed.

(** ** Calls *)

(** The three things that a call does to the engine. *)
Inductive called (e : Engine) : Engine -> Prop :=
| called_nothing : called e e
| called_channel : called e (snd (bounded e))
| called_event event :
    eng_alive e = true -> named (eng_next e, event) ->
    eng_lifecycle e = Open \/ eng_lifecycle e = Closing /\ event = EvClose (eng_next e) ->
    called e (snd (send_event (eng_next e) event (snd (bounded e)))).

Lemma send_event_dead ch event e : eng_alive e = false -> send_event ch event e = (false, e).
Proof. intros Ha. unfold send_event. by rewrite Ha. Qed.

(** An event sent under the lifecycle lock. *)
Lemma send_called e event :
  named (eng_next e, event) ->
  eng_lifecycle e = Open \/ eng_lifecycle e = Closing /\ event = EvClose (eng_next e) ->
  called e (snd (send_event (eng_next e) event (snd (bounded e)))).
Proof.
  intros Hn Hl. destruct (eng_alive e) eqn:Ea; [by apply called_event|].
  rewrite send_event_dead by done. apply called_channel.
Qed.

Lemma submit_called {T} k operation e :
  op_sender operation = eng_next e -> owns_ends operation = true ->
  called e (snd (submit (T := T) (key_hash k) operation (eng_next e) (snd (bounded e)))).
Proof.
  intros Hn Ho. unfold submit. change (eng_lifecycle (snd (bounded e))) with (eng_lifecycle e).
  destruct (eng_lifecycle e) eqn:El; try apply called_channel.
  set (ev := EvSubmission {| sub_key_hash := key_hash k; sub_operation := operation |}).
  pose proof (send_called e ev) as H. destruct (send_event _ _ _) as [[] e1]; cbn [snd] in *;
    (apply H; [split; cbn; [by rewrite Hn|by intros sub [= <-]; split; [|exists k]]|by left]).
Qed.

Lemma submit_operation_called k operation e :
  op_sender operation = eng_next e -> owns_ends operation = true ->
  called e (snd (submit_operation (key_hash k) operation (eng_next e) (snd (bounded e)))).
Proof.
  intros Hn Ho. pose proof (submit_called (T := unit) k operation e Hn Ho) as H.
  unfold submit, submit_operation in *. destruct (eng_lifecycle (snd (bounded e))); try done.
  by destruct (send_event _ _ _) as [[] ?].
Qed.

Lemma call_called {T} key operation e :
  (forall ch, op_sender (operation ch) = ch /\ owns_ends (operation ch) = true) -> called e (snd (call (T := T) key operation e)).
Proof.
  intros Hop. unfold call. destruct (ensure_open e); [|apply called_nothing].
  by apply submit_called; apply Hop.
Qed.

Lemma api_call_called c e e' : api_call c e = Some e' -> called e e'.
Proof.
  destruct c as [k|k p|k|k|k|k n chunks|k acc ack|age| |]; cbn [api_call]; intros H; simplify_eq;
    try (by apply call_called).
  - unfold start_save_stream. destruct (ensure_open e); [|apply called_nothing].
    destruct (_ <? _); [apply called_nothing|]. cbn [bounded].
    pose proof (submit_operation_called k (SaveStream n chunks (eng_next e)) e eq_refl eq_refl) as H.
    cbn [bounded snd] in H. by destruct (submit_operation _ _ _ _).
  - unfold start_load_stream. destruct (ensure_open e); [|apply called_nothing]. cbn [bounded].
    pose proof (submit_operation_called k
      (LoadStream (Some acc) (Some ack) (eng_next e)) e eq_refl eq_refl) as H.
    cbn [bounded snd] in H. by destruct (submit_operation _ _ _ _).
  - unfold cleanup_stale_temporary_files. destruct (ensure_open e); [|apply called_nothing].
    destruct (_ =? _); [apply called_nothing|]. destruct (bounded e) as [ch e1] eqn:Eb.
    change e1 with (snd (ch, e1)). rewrite <-Eb. change ch with (fst (ch, e1)). rewrite <-Eb. cbn [fst bounded].
    change (eng_lifecycle (snd (bounded e))) with (eng_lifecycle e).
    destruct (eng_lifecycle e) eqn:El; try apply called_channel.
    pose proof (send_called e (EvMaintenance {| maint_minimum_age := Some age; maint_sender := eng_next e |})
      ltac:(by split) (or_introl El)) as H. cbn [bounded snd] in H. by destruct (send_event _ _ _) as [[] ?].
  - unfold flush. destruct (ensure_open e); [|apply called_nothing].
    destruct (bounded e) as [ch e1] eqn:Eb. injection Eb as <- <-.
    change (eng_lifecycle _) with (eng_lifecycle e).
    destruct (eng_lifecycle e) eqn:El; try apply called_channel.
    pose proof (send_called e (EvFlush (eng_next e)) ltac:(by split) (or_introl El)) as H.
    cbn [bounded snd] in H. by destruct (send_event _ _ _) as [[] ?].
  - apply fmap_Some in H as ([p e1] & H & ->). unfold close in H.
    assert (Hs : eng_lifecycle e = Open \/ eng_lifecycle e = Closing ->
      called e (snd (send_event (eng_next e) (EvClose (eng_next e)) (snd (bounded e))))).
    { intros Hl. apply send_called; [by split|]. destruct Hl; [by left|by right]. }
    destruct (eng_lifecycle e) eqn:El; simplify_eq; try apply called_nothing.
    all: cbn [bounded snd] in *; destruct (send_event _ _ _) as [[] ?]; simplify_eq; apply Hs; auto.
Qed.

(** A call in the channel keeps the invariant of the coordinator. *)
Lemma post_call_inv event s :
  is_own event = false -> Inv config s -> Inv config (post event s).
Proof.
  intros He [[B1 B2 B3' B4 B5 B6 B7 B8 B9] Hl Hbu Hc Hbl Hn].
  assert (Hk : completion_key event = None) by by destruct event.
  assert (Hm : is_maintenance_completion event = false) by by destruct event.
  assert (Hw : well_matched event = true) by by destruct event.
  split; [|done|done|done|done|done].
  split; unfold in_flight, maintenance_in_flight in *; cbn; try done.
  - rewrite omap_app. cbn. by rewrite Hk, app_nil_r.
  - rewrite List.filter_app, length_app. cbn. rewrite Hm. cbn. by rewrite Nat.add_0_r.
  - rewrite forallb_app, B9. cbn. by rewrite Hw.
Qed.

Lemma calls_next accepted next alive dropped ran s :
  Calls accepted next alive dropped ran s -> Calls accepted (next + 1) alive dropped ran s.
Proof.
  intros [C1 C2 C3 C4 C5 C6 C7 C8 C9]. split; try done.
  eapply Forall_impl; [exact C2|]. cbn. intros. lia.
Qed.

Lemma calls_not_next accepted next alive dropped ran s :
  Calls accepted next alive dropped ran s -> next ∉ map fst accepted.
Proof.
  intros Hc. rewrite list_elem_of_fmap. intros (ce & -> & Hce).
  pose proof (calls_fresh _ _ _ _ _ _ Hc) as Hf. rewrite Forall_forall in Hf. specialize (Hf _ Hce).
  cbn in Hf. lia.
Qed.

Lemma post_owed event ch (s : Scheduler) next :
  event_sender event = Some next -> ch ∈ owed (post event s) -> ch ∈ owed s \/ ch = next.
Proof.
  intros E. unfold owed. cbn. rewrite omap_app, !app_assoc, elem_of_app. cbn. rewrite E.
  intros [H|H%list_elem_of_singleton]; auto.
Qed.

Lemma snoc_split {A} (l : list A) x before y after :
  l ++ [x] = before ++ y :: after ->
  (after = [] /\ x = y /\ l = before) \/ exists after', after = after' ++ [x] /\ l = before ++ y :: after'.
Proof.
  intros E. destruct after as [|z after _] using rev_ind.
  - left. apply app_inj_tail in E as [-> ->]. done.
  - right. exists after. rewrite app_comm_cons, app_assoc in E. by apply app_inj_tail in E as [-> ->].
Qed.

Lemma post_calls event accepted next dropped ran s :
  named (next, event) ->
  lifecycle s = Open \/ lifecycle s = Closing /\ event = EvClose next ->
  Calls accepted next true dropped ran s ->
  Calls (accepted ++ [(next, event)]) (next + 1) true dropped ran (post event s).
Proof.
  intros Hn Hl Hc. pose proof (calls_not_next _ _ _ _ _ _ Hc) as Hnext.
  assert (He : event_sender event = Some next) by (destruct Hn as [Hn _]; by destruct event).
  destruct Hc as [C1 C2 C3 C4 C5 C6 C7 C8 C9]. split.
  - apply Forall_app. split; [done|]. by apply Forall_singleton.
  - apply Forall_app. split; [|apply Forall_singleton; cbn; lia]. eapply Forall_impl; [exact C2|]. cbn. intros. lia.
  - rewrite map_app. cbn. apply NoDup_app. split_and!; [done| |apply NoDup_singleton].
    intros ch Hch ->%list_elem_of_singleton. done.
  - intros ch. rewrite map_app, cnt_app, <-(C4 ch). unfold share. cbn. rewrite omap_app, cnt_app. cbn.
    rewrite He, !cnt_cons, !cnt_nil. lia.
  - intros k. destruct (C5 k) as (late & E & Ho). exists (late ++ received_of k [event]).
    rewrite submitted_snoc, E, <-app_assoc. split; [done|]. cbn [lifecycle post set_receiver receiver].
    intros Hopen. rewrite (Ho Hopen). unfold received_of. by rewrite omap_app.
  - done.
  - intros _. unfold line. cbn. rewrite omap_app, map_app, app_assoc. cbn.
    destruct Hn as [Hn _]. cbn in Hn. rewrite Hn. apply sublist_app; [by apply C7|done].
  - intros ch Hin Hw. unfold flushes. cbn. rewrite omap_app, app_assoc, elem_of_app.
    apply elem_of_app in Hin as [Hin|Hin%list_elem_of_singleton].
    + left. destruct (post_owed event ch s next He Hw) as [Hw'| ->]; [by apply C8|].
      destruct Hnext. apply list_elem_of_fmap. by exists (next, EvFlush next).
    + simplify_eq. right. cbn. left.
  - intros before ch0 after E Ho ch Hch. cbn [sent post set_receiver] in Ho.
    destruct (snoc_split _ _ _ _ _ E) as [(-> & [= -> ->] & ->)|(after' & -> & ->)].
    + exfalso. apply Hnext. apply cnt_in. rewrite <-C4, share_owed.
      assert (Hs : ch0 ∈ map fst (sent s)) by (apply list_elem_of_fmap; by exists (ch0, ReplyUnit (Ok tt))).
      apply cnt_in in Hs. lia.
    + rewrite map_app, elem_of_app. destruct (post_owed event ch s next He Hch) as [H| ->].
      * left. by apply (C9 before ch0 after').
      * right. left.
Qed.

Lemma called_sound e e' st :
  st_engine st = e -> Sound st -> called e e' -> Sound (with_engine e' st).
Proof.
  intros <- [S1 S2 S3 S4] Hc. destruct Hc as [| |event Ha Hn Hl].
  - done.
  - split; try done. by apply calls_next.
  - unfold send_event. cbn [bounded snd eng_alive]. rewrite Ha. cbn [snd].
    unfold coordinator_sound, engine_calls in *. rewrite Ha in *. split; try done.
    + unfold coordinator_sound. cbn. apply post_call_inv; [|done]. destruct Hn as [Hn _]. by destruct event.
    + unfold engine_calls. cbn. by apply post_calls.
Qed.

(** ** Jobs *)

Lemma filter_length_perm {A} (p : A -> bool) l1 l2 :
  Permutation l1 l2 -> length (List.filter p l1) = length (List.filter p l2).
Proof.
  induction 1 as [|x l1 l2 _ IH|x y l|]; cbn; [done| | |congruence].
  - by destruct (p x); cbn; rewrite IH.
  - by destruct (p x), (p y).
Qed.

(** What a job and its completion have in common. *)
Lemma completes_keys j event :
  completes j event ->
  completion_key event = job_key j /\ is_maintenance_completion event = is_maintenance_job j /\
  well_matched event = true /\ is_own event = true.
Proof. by destruct 1. Qed.

(** The caller of a job is in its completion, or was dropped. *)
Lemma completes_sender j event ch :
  completes j event ->
  (cnt ch (senders (event_sender event)) + cnt ch (job_dropped j event) = cnt ch [job_sender j])%nat.
Proof. destruct 1 as [k op o r Hm Hs|k op|sub r|sub]; unfold job_dropped; cbn; rewrite ?Hs, ?cnt_nil; lia. Qed.

Definition job_done (i : nat) (event : CoordinatorEvent) (s : Scheduler) : Scheduler :=
  post event (set_pool (finish_job i (worker_pool s)) s).

Lemma job_inv i j event s :
  channel (worker_pool s) !! i = Some j -> completes j event ->
  Inv config s -> Inv config (job_done i event s).
Proof.
  intros Hj (Hk & Hm & Hw & Ho)%completes_keys [[B1 B2 B3' B4 B5 B6 B7 B8 B9] Hl Hbu Hc Hbl Hn].
  pose proof (delete_Permutation _ _ _ Hj) as Hp.
  split; [|done|done|done|done|done].
  split; unfold in_flight, maintenance_in_flight in *; cbn; try done.
  - rewrite <-B6. assert (Hq : Permutation (omap job_key (channel (worker_pool s)))
      (omap job_key (j :: delete i (channel (worker_pool s))))) by (by rewrite <-Hp).
    rewrite Hq, omap_app. cbn. rewrite Hk.
    destruct (job_key j); cbn; rewrite ?app_nil_r; [|done]. rewrite app_assoc. symmetry. apply Permutation_cons_append.
  - rewrite <-B7. rewrite (filter_length_perm is_maintenance_job _ _ Hp), List.filter_app, length_app. cbn.
    rewrite Hm. destruct (is_maintenance_job j); cbn; lia.
  - rewrite forallb_app, B9. cbn. by rewrite Hw.
Qed.

(** At most one job of a key is in the pool. *)
Lemma jobs_of_key k (jobs : list WorkerJob) :
  jobs_of k jobs = [] \/ k ∈ omap job_key jobs.
Proof.
  induction jobs as [|[k' op|sub] jobs IH]; cbn; [by left| |done].
  case_decide as Hd; [right; subst; left|]. destruct IH; [by left|right; by right].
Qed.

Lemma job_order i j ran k s :
  channel (worker_pool s) !! i = Some j -> NoDup (omap job_key (channel (worker_pool s))) ->
  ran_of k (ran ++ job_ran j) ++ jobs_of k (delete i (channel (worker_pool s))) =
  ran_of k ran ++ jobs_of k (channel (worker_pool s)).
Proof.
  intros Hj Hn. rewrite <-(take_drop_middle _ _ _ Hj) at 2.
  rewrite <-(take_drop_middle _ _ _ Hj) in Hn.
  rewrite delete_take_drop. unfold ran_of, jobs_of. rewrite !omap_app, <-!app_assoc. f_equal.
  destruct j as [k' op|sub]; cbn; [|done]. case_decide as Hd; [|done]. subst k'. cbn.
  destruct (jobs_of_key k (take i (channel (worker_pool s)))) as [E|E].
  - unfold jobs_of in E. by rewrite E.
  - exfalso. rewrite omap_app in Hn. cbn in Hn. apply NoDup_app in Hn as (_ & Hn & _).
    apply (Hn k E). left.
Qed.

Lemma job_calls i j event accepted next dropped ran s :
  channel (worker_pool s) !! i = Some j -> completes j event -> Inv config s ->
  Calls accepted next true dropped ran s ->
  Calls accepted next true (dropped ++ job_dropped j event) (ran ++ job_ran j) (job_done i event s).
Proof.
  intros Hj He Hs [C1 C2 C3 C4 C5 C6 C7 C8 C9].
  pose proof (completes_keys _ _ He) as (_ & _ & _ & Ho).
  assert (Hown : forallb is_own [event] = true) by (cbn; by rewrite Ho).
  pose proof (delete_Permutation _ _ _ Hj) as Hp.
  assert (Hshare : forall ch, (share ch (job_done i event s) + cnt ch (job_dropped j event) = share ch s)%nat).
  { intros ch. pose proof (completes_sender j event ch He) as Hc.
    apply (Permutation_map job_sender), (cnt_perm ch) in Hp. cbn [map] in Hp. rewrite cnt_cons in Hp.
    unfold share. cbn in *. rewrite omap_app, cnt_app. cbn. rewrite cnt_cons, cnt_nil in Hc.
    destruct (event_sender event); cbn in *; rewrite ?cnt_cons, ?cnt_nil in *; lia. }
  assert (Howed : forall ch, ch ∈ owed (job_done i event s) -> ch ∈ owed s).
  { intros ch. rewrite <-!cnt_in. specialize (Hshare ch). rewrite !share_owed in Hshare.
    change (sent (job_done i event s)) with (sent s) in Hshare. lia. }
  assert (Hline : line (job_done i event s) = line s).
  { unfold line. cbn. by rewrite omap_app, (own_line [event] Hown), app_nil_r. }
  split; try done.
  - intros ch. rewrite cnt_app. specialize (Hshare ch). specialize (C4 ch). lia.
  - intros k. destruct (C5 k) as (late & E & Hl). exists late. split; [done|].
    intros Hopen. rewrite (Hl Hopen). cbn. pose proof (own_received k [event] Hown) as Hr.
    unfold received_of in *. by rewrite omap_app, Hr, app_nil_r.
  - intros k. unfold in_order. cbn [worker_pool job_done post set_receiver set_pool finish_job channel].
    rewrite job_order; [apply C6|done|].
    pose proof (base_flight _ _ (inv_base _ _ Hs)) as Hf. unfold in_flight in Hf.
    assert (Hn : NoDup (elements (active s))) by apply NoDup_elements.
    rewrite <-Hf in Hn. by apply NoDup_app in Hn as (Hn & _).
  - intros _. rewrite Hline. by apply C7.
  - intros ch Hin Hw. pose proof (C8 ch Hin (Howed _ Hw)) as Hf. unfold flushes in *. cbn.
    rewrite omap_app, app_assoc, elem_of_app. by left.
  - intros before ch0 after E Hok ch Hw. by apply (C9 before ch0 after E Hok), Howed.
Qed.

(** ** Reachable states *)

Lemma disconnected_finished s :
  0 < config_max_concurrent_operations config -> Inv config s ->
  receiver s = [] -> channel (worker_pool s) = [] ->
  Finished_state (disconnected s) /\ sent (disconnected s) = sent s /\ taken (disconnected s) = taken s /\
  queues (disconnected s) = queues s /\ pending (disconnected s) = pending s /\
  lifecycle (disconnected s) = Closed.
Proof.
  intros Hmax Hs Hr Hc. destruct (quiescent config s Hmax Hs Hr Hc) as (Hw & Hp & _).
  pose proof (inv_base _ _ Hs) as Hb.
  assert (Ha : active s = ∅).
  { apply leibniz_equiv, elements_empty_inv. pose proof (base_flight _ _ Hb) as Hf. unfold in_flight in Hf.
    rewrite Hr, Hc in Hf. cbn in Hf. by apply Permutation_nil_l in Hf. }
  assert (Hm : maintenance_active s = false).
  { pose proof (base_maintenance _ _ Hb) as Hm. unfold maintenance_in_flight in Hm.
    rewrite Hr, Hc in Hm. by destruct (maintenance_active s). }
  unfold disconnected, on_pool, shutdown. cbn [lifecycle set_pool].
  case_decide as Hd; (split_and!; [split|..]; cbn; auto).
Qed.

Lemma disconnected_calls accepted next dropped ran s :
  0 < config_max_concurrent_operations config -> Inv config s ->
  receiver s = [] -> channel (worker_pool s) = [] ->
  Calls accepted next true dropped ran s -> Calls accepted next false dropped ran (disconnected s).
Proof.
  intros Hmax Hs Hr Hc [C1 C2 C3 C4 C5 C6 C7 C8 C9].
  destruct (disconnected_finished s Hmax Hs Hr Hc) as (Hf & E1 & E2 & E3 & E4 & E5).
  pose proof (finished_owed _ Hf) as Ho. destruct (quiescent config s Hmax Hs Hr Hc) as (_ & _ & Ho').
  split; try done.
  - intros ch. by rewrite <-C4, !share_owed, Ho, Ho', E1.
  - intros k. destruct (C5 k) as (late & E & _). exists late. split; [|by rewrite E5].
    rewrite E. unfold pipeline, taken_of, queue_of, pending_of. by rewrite E2, E3, E4.
  - intros k. pose proof (C6 k) as H. unfold in_order, taken_of in *. rewrite E2.
    by rewrite (finished_channel _ Hf), <-Hc.
  - intros ch _. rewrite Ho. by intros H%not_elem_of_nil.
  - intros before ch0 after _ _ ch. rewrite Ho. by intros H%not_elem_of_nil.
Qed.

Lemma opened_sound spawns e : from_config config (Ok tt) spawns = Ok e -> Sound (started_with e).
Proof.
  intros [= <-]. split; [done|apply new_inv|done|]. split; cbn; try done; try constructor.
  - intros k. by exists [].
  - by intros before ch0 after E%app_cons_not_nil.
Qed.

Lemma finish_join j r r' j' :
  finish j r = Some (r', j') -> join_outcome j' <> None.
Proof.
  unfold finish. destruct (join_outcome j) eqn:E; [intros; simplify_eq; by rewrite E|].
  destruct (join_handle j); intros; by simplify_eq/=.
Qed.

Lemma internal_sound st st' :
  0 < config_max_concurrent_operations config -> Sound st -> internal st st' -> Sound st'.
Proof.
  intros Hmax Hs Hi. destruct Hi as [st st' [st1 event rest s' Ha Er E|st1 event rest s' Ha Er E]|st1 i j event Hj He];
    destruct Hs as [S1 S2 S3 S4]; unfold coordinator_sound, engine_calls, st_scheduler in *; rewrite ?S1 in *.
  - rewrite Ha in *. pose proof (turn_inv config event rest _ Hmax S2 Er) as Hv.
    pose proof (turn_calls event rest _ _ _ _ _ Hmax S2 Er S4) as Hc. rewrite E in *.
    split; try done; [unfold coordinator_sound|unfold engine_calls]; cbn; by rewrite Ha.
  - rewrite Ha in *. pose proof (turn_inv config event rest _ Hmax S2 Er) as Hv.
    pose proof (turn_calls event rest _ _ _ _ _ Hmax S2 Er S4) as Hc. rewrite E in *. by split.
  - destruct (eng_alive (st_engine st1)) eqn:Ha.
    + split; try done; [unfold coordinator_sound|unfold engine_calls]; cbn; rewrite Ha.
      * by apply (job_inv i j).
      * by apply job_calls.
    + exfalso. by rewrite (finished_channel _ S2) in Hj.
Qed.

Lemma step_sound st st' :
  0 < config_max_concurrent_operations config -> Sound st -> step st st' -> Sound st'.
Proof.
  intros Hmax Hs [Hi|Hst]; [by eapply internal_sound|]. destruct Hst as [c st e' Hh Hc|st r r' j Ha Hj|st|st Hh Ha Hr Hw Hp Hc].
  - eapply called_sound; [done|done|by eapply api_call_called].
  - destruct Hs as [S1 S2 S3 S4]. split; try done. cbn. intros _. by eapply finish_join.
  - by destruct Hs.
  - destruct Hs as [S1 S2 S3 S4]. unfold coordinator_sound, engine_calls in *. rewrite Ha in *.
    split; [done| |done|].
    + unfold coordinator_sound. cbn. by apply disconnected_finished.
    + unfold engine_calls. cbn. by apply disconnected_calls.
Qed.

Lemma reachable_sound st :
  0 < config_max_concurrent_operations config -> reachable config st -> Sound st.
Proof.
  intros Hmax. induction 1 as [spawns e E|st st' _ IH Hst]; [by eapply opened_sound|].
  by eapply step_sound.
Qed.

End Invariant.
