(* ===== verification/EngineTheorems.v ===== *)
(** * The theorems on the engine

    They hold in every state that callers, coordinator and workers can reach,
    for every iteration order of the registry, every refusal of the operating
    system to start a thread, and every worker that dies.  Each witness runs the
    engine on concrete calls. *)
From S2P Require Export EngineInv SchedulerAnswers FormatSpec.

Local Open Scope N_scope.
Local Open Scope blob_scope.

Section Theorems.
Context {B3 : Blake3} {Order : HashMapOrder} {OrderL : HashMapOrderLaws}.
Context (config : StoreConfig).

Abbreviation max := (config_max_concurrent_operations config).

(** ** The coordinator *)

Lemma sound_inv st : Sound config st -> eng_alive (st_engine st) = true -> Inv config (st_scheduler st).
Proof. intros [_ H _ _] Ha. unfold coordinator_sound in H. by rewrite Ha in H. Qed.

Lemma sound_finished st :
  Sound config st -> eng_alive (st_engine st) = false -> Finished_state (st_scheduler st).
Proof. intros [_ H _ _] Ha. unfold coordinator_sound in H. by rewrite Ha in H. Qed.

(** C19: the coordinator keeps its bounds.  While it lives there is never more than
    the configured number of operations in flight, nor more threads, and a
    thread for each operation in flight; at most one operation of a key is in
    flight; maintenance runs alone; no empty queue is left behind by an idle
    key; and an operation waits only for its key or for a free slot. *)
Theorem coordinator_keeps_its_bounds st :
  0 < max -> reachable config st -> eng_alive (st_engine st) = true ->
  let s := st_scheduler st in
  N.of_nat (size (active s)) <= max /\
  (size (active s) <= length (handles (worker_pool s)) <= N.to_nat max)%nat /\
  NoDup (in_flight s) /\ (forall k, k ∈ active s <-> k ∈ in_flight s) /\
  (maintenance_active s = true -> active s = ∅ /\ waiting (queues s) = []) /\
  (forall k, queues s !! k = Some [] -> k ∈ active s) /\
  (forall k op rest, queues s !! k = Some (op :: rest) -> k ∉ active s ->
     max <= N.of_nat (size (active s))).
Proof.
  intros Hmax Hr Ha s. destruct (sound_inv st (reachable_sound config st Hmax Hr) Ha) as [Hb Hl Hbu _ _ _].
  fold s in Hb, Hl, Hbu. destruct Hb as [B1 _ _ B4 B5 B6 _ B8 _]. split_and!; try done.
  - rewrite B6. apply NoDup_elements.
  - intros k. by rewrite <-elem_of_elements, B6.
  - intros k op rest E Hk. assert (H : at_capacity config s = true).
    { apply (Hbu k); [unfold has_front; by rewrite E|done]. }
    unfold at_capacity in H. by apply N.leb_le in H.
Qed.

(** The coordinator never panics.  No event in a reachable state takes it to
    the [unreachable!] of [deliver], so a turn always goes on or ends well. *)
Theorem coordinator_never_panics st event rest :
  0 < max -> reachable config st -> eng_alive (st_engine st) = true ->
  receiver (st_scheduler st) = event :: rest ->
  exists s', coordinator_turn config event (set_receiver rest (st_scheduler st)) = Looped s' \/
    coordinator_turn config event (set_receiver rest (st_scheduler st)) = Returned s'.
Proof.
  intros Hmax Hr Ha Er. pose proof (sound_inv st (reachable_sound config st Hmax Hr) Ha) as Hs.
  pose proof (turn_inv config event rest _ Hmax Hs Er) as H.
  destruct (coordinator_turn _ _ _) as [s'|s'|s']; [exists s'; by left|exists s'; by right|done].
Qed.

(** ** Calls *)

Lemma calls_accounted st ch :
  Sound config st ->
  (cnt ch (owed (st_scheduler st)) + cnt ch (map fst (sent (st_scheduler st))) + cnt ch (st_dropped st) =
    if decide (ch ∈ map fst (eng_accepted (st_engine st))) then 1 else 0)%nat.
Proof.
  intros [_ _ _ Hc]. rewrite <-share_owed, (calls_share _ _ _ _ _ _ Hc).
  pose proof (cnt_nodup ch _ (calls_nodup _ _ _ _ _ _ Hc)) as H1. case_decide as Hd.
  - apply cnt_in in Hd. lia.
  - rewrite <-cnt_in in Hd. lia.
Qed.

(** C16: every accepted call is answered at most once.  At any time it is in exactly
    one place: still owed by the engine, answered on its channel, or lost with
    the worker that died on it; and nothing else is ever answered. *)
Theorem calls_are_answered_once st ch :
  0 < max -> reachable config st ->
  (cnt ch (owed (st_scheduler st)) + cnt ch (map fst (sent (st_scheduler st))) + cnt ch (st_dropped st) =
    if decide (ch ∈ map fst (eng_accepted (st_engine st))) then 1 else 0)%nat.
Proof. intros Hmax Hr. by apply calls_accounted, reachable_sound. Qed.

Lemma internal_accepted st st' :
  internal st st' -> eng_accepted (st_engine st') = eng_accepted (st_engine st) /\
    eng_config (st_engine st') = eng_config (st_engine st).
Proof. by intros [? ? []|]. Qed.

Definition state_work (st : State) : nat := work (st_scheduler st).

Lemma job_work i j event s :
  channel (worker_pool s) !! i = Some j -> event_work event = 1%nat -> (work (job_done i event s) < work s)%nat.
Proof.
  intros Hj Hw. pose proof (Permutation_length (delete_Permutation _ _ _ Hj)) as Hp. cbn in Hp.
  unfold work, job_done. cbn [queues pending worker_pool channel receiver post set_pool set_receiver finish_job].
  rewrite sum_list_with_app. cbn [sum_list_with]. lia.
Qed.

Lemma internal_work st st' :
  0 < max -> Sound config st -> internal st st' -> (state_work st' < state_work st)%nat.
Proof.
  intros Hmax Hs Hi. pose proof (sound_config _ _ Hs) as Ec.
  destruct Hi as [st st' [st1 event rest s' Ha Er E|st1 event rest s' Ha Er E]|st1 i j event Hj He].
  - pose proof (turn_work config event rest _ Hmax (sound_inv _ Hs Ha) Er) as H. by rewrite <-Ec, E in H.
  - pose proof (turn_work config event rest _ Hmax (sound_inv _ Hs Ha) Er) as H. by rewrite <-Ec, E in H.
  - apply (job_work i j); [done|by destruct He].
Qed.

Lemma completes_any j : exists event, completes j event.
Proof. destruct j as [k op|sub]; [by eexists; apply completes_panicked|by eexists; apply completes_maintenance_panicked]. Qed.

(** A call waits and no job is left, so the coordinator has something to do. *)
Lemma coordinates_progress st :
  0 < max -> Sound config st -> channel (worker_pool (st_scheduler st)) = [] ->
  owed (st_scheduler st) <> [] -> exists st', coordinates st st'.
Proof.
  intros Hmax Hs Ech Ho. pose proof (sound_config _ _ Hs) as Ec.
  destruct (eng_alive (st_engine st)) eqn:Ha.
  2:{ exfalso. by apply Ho, finished_owed, sound_finished. }
  pose proof (sound_inv _ Hs Ha) as Hi. destruct (receiver (st_scheduler st)) as [|event rest] eqn:Er.
  - destruct (quiescent config _ Hmax Hi Er Ech) as (_ & _ & H). done.
  - pose proof (turn_inv config event rest _ Hmax Hi Er) as H.
    destruct (coordinator_turn config event (set_receiver rest (st_scheduler st))) as [s'|s'|s'] eqn:E; [| |done].
    + exists (with_scheduler s' st). eapply turn_looped; [done|done|]. by rewrite Ec.
    + exists (stopped s' st). eapply turn_returned; [done|done|]. by rewrite Ec.
Qed.

(** Something is owed, so some thread has something to do. *)
Lemma internal_progress st :
  0 < max -> Sound config st -> owed (st_scheduler st) <> [] -> exists st', internal st st'.
Proof.
  intros Hmax Hs Ho. destruct (channel (worker_pool (st_scheduler st))) as [|j jobs] eqn:Ech.
  - destruct (coordinates_progress st Hmax Hs Ech Ho) as [st' H]. exists st'. by apply internal_turn.
  - destruct (completes_any j) as [event He]. exists (complete_job 0 j event st).
    apply internal_job; [by rewrite Ech|done].
Qed.

(** C15: every accepted call is answered in the end.  The threads of the engine can
    take only finitely many steps by themselves, and when they have none left,
    every call accepted so far was answered, or lost with the worker that died
    on it. *)
Theorem calls_are_answered st :
  0 < max -> reachable config st ->
  (forall st', rtc internal st st' -> forall st'', internal st' st'' -> (state_work st'' < state_work st')%nat) /\
  (forall st', rtc internal st st' -> (forall st'', ~ internal st' st'') ->
     forall ch, ch ∈ map fst (eng_accepted (st_engine st)) ->
       ch ∈ map fst (sent (st_scheduler st')) \/ ch ∈ st_dropped st').
Proof.
  intros Hmax Hr.
  assert (Hs : forall st', rtc internal st st' ->
    Sound config st' /\ eng_accepted (st_engine st') = eng_accepted (st_engine st)).
  { pose proof (reachable_sound config st Hmax Hr) as Hs. induction 1 as [|st1 st2 st3 Hi _ IH]; [done|].
    destruct (internal_accepted _ _ Hi) as [Ea _]. rewrite <-Ea. apply IH; [|by eapply internal_sound].
    eapply reachable_step; [exact Hr|]. by left. }
  split.
  - intros st' Hst st'' Hi. apply internal_work; [done|by apply Hs|done].
  - intros st' Hst Hstuck ch Hch. destruct (Hs st' Hst) as [Hs' Ea].
    assert (Ho : owed (st_scheduler st') = []).
    { destruct (owed (st_scheduler st')) eqn:E; [done|exfalso].
      destruct (internal_progress st' Hmax Hs') as [st'' Hi]; [by rewrite E|]. by apply (Hstuck st''). }
    pose proof (calls_accounted st' ch Hs') as Hc. rewrite Ho, Ea, decide_True, cnt_nil in Hc by done.
    rewrite <-!cnt_in. destruct (cnt ch (map fst (sent (st_scheduler st')))); [right; lia|left; lia].
Qed.

(** C17: the operations of a key run in the order of the calls.  Those that left the
    queue are the first ones accepted, and those that ran are among them, in the
    same order. *)
Theorem operations_run_in_order st k :
  0 < max -> reachable config st ->
  let accepted := submitted k (eng_accepted (st_engine st)) in
  prefix (taken_of k (st_scheduler st)) accepted /\
  sublist (ran_of k (st_ran st)) (taken_of k (st_scheduler st)).
Proof.
  intros Hmax Hr. destruct (reachable_sound config st Hmax Hr) as [_ _ _ Hc]. split.
  - destruct (calls_order _ _ _ _ _ _ Hc k) as (late & E & _).
    exists (queue_of k (st_scheduler st) ++ pending_of k (st_scheduler st) ++ late).
    rewrite E. unfold pipeline. by rewrite <-!app_assoc.
  - etrans; [|apply (calls_ran _ _ _ _ _ _ Hc)]. by apply sublist_inserts_r.
Qed.

(** C18: a flush is a barrier.  When a flush was answered with [Ok], no call that was
    accepted before it is owed any longer. *)
Theorem flush_is_a_barrier st before ch0 after ch :
  0 < max -> reachable config st ->
  eng_accepted (st_engine st) = before ++ (ch0, EvFlush ch0) :: after ->
  (ch0, ReplyUnit (Ok tt)) ∈ sent (st_scheduler st) ->
  ch ∈ map fst before -> ch ∉ owed (st_scheduler st).
Proof.
  intros Hmax Hr E Ho Hch Hw. destruct (reachable_sound config st Hmax Hr) as [_ _ _ Hc].
  pose proof (calls_barrier _ _ _ _ _ _ Hc before ch0 after E Ho ch Hw) as Hafter.
  pose proof (calls_nodup _ _ _ _ _ _ Hc) as Hn. rewrite E, map_app in Hn. cbn in Hn.
  apply NoDup_app in Hn as (_ & Hn & _). apply (Hn ch Hch). by right.
Qed.

(** ** Closing *)

Abbreviation closed_error l := (match l with Failed => EngineFailed | _ => StoreClosed end) (only parsing).

Lemma ensure_open_closed e :
  eng_lifecycle e <> Open -> ensure_open e = Err (closed_error (eng_lifecycle e)).
Proof. unfold ensure_open. by destruct (eng_lifecycle e). Qed.

Lemma call_closed {T} key operation e :
  eng_lifecycle e <> Open -> call (T := T) key operation e = (resolved (Err (closed_error (eng_lifecycle e))), e).
Proof. intros Hl. unfold call. by rewrite ensure_open_closed. Qed.

Lemma called_lifecycle e e' : called e e' -> eng_lifecycle e' = eng_lifecycle e.
Proof.
  intros [| |event Ha _ _]; [done|done|]. unfold send_event. cbn [bounded snd eng_alive]. by rewrite Ha.
Qed.

(** No step opens a store, and none but a panic lets one fail. *)
Lemma step_closed st st' :
  may_panic st st' -> eng_lifecycle (st_engine st) <> Open -> eng_lifecycle (st_engine st') <> Open.
Proof.
  intros Hst Hl. destruct Hst as [[Hst|Hst]|Hst]; [| |by destruct Hst].
  - destruct Hst as [st st' Hst|]; [|done].
    destruct Hst as [st event rest s' Ha Er E|st event rest s' Ha Er E];
      pose proof (turn_closed (eng_config (st_engine st)) event (set_receiver rest (st_scheduler st)) Hl) as H;
      by rewrite E in H.
  - destruct Hst as [c st e' Hh Hc|st r r' j Ha Hj|st|st Hh Ha Hr Hw Hp Hc]; try done.
    + apply api_call_called, called_lifecycle in Hc. cbn. by rewrite Hc.
    + change (lifecycle (disconnected (st_scheduler st)) <> Open). by rewrite disconnected_lifecycle.
Qed.

(** What a panic leaves: a failed engine without a coordinator. *)
Definition failed (st : State) : Prop :=
  eng_lifecycle (st_engine st) = Failed /\ eng_alive (st_engine st) = false.

Lemma panics_failed st st' : panics st st' -> failed st'.
Proof. by destruct 1. Qed.

Lemma called_alive e e' : called e e' -> eng_alive e' = eng_alive e.
Proof. intros [| |event Ha _ _]; [done|done|]. unfold send_event. cbn [bounded snd eng_alive]. by rewrite Ha. Qed.

Lemma step_failed st st' : may_panic st st' -> failed st -> failed st'.
Proof.
  intros Hst [Hl Hd]. destruct Hst as [[Hst|Hst]|Hst]; [| |destruct Hst; congruence].
  - destruct Hst as [st st' Hst|]; [|done]. destruct Hst; congruence.
  - destruct Hst as [c st e' Hh Hc|st r r' j Ha Hj|st|st Hh Ha Hr Hw Hp Hc]; [| |done|congruence].
    + apply api_call_called in Hc. unfold failed. cbn. by rewrite (called_lifecycle _ _ Hc), (called_alive _ _ Hc).
    + done.
Qed.

(** C27: a store that is not open accepts nothing.  In any state, every call but
    [close] is answered at once with [StoreClosed], or with [EngineFailed] if the
    engine failed, and leaves the engine as it is; the store never opens again,
    even if its coordinator panics; and once the coordinator panicked the answer
    is [EngineFailed], whatever else happens in the meantime. *)
Theorem closed_store_rejects st :
  eng_lifecycle (st_engine st) <> Open ->
  let e := st_engine st in
  let error := match eng_lifecycle e with Failed => EngineFailed | _ => StoreClosed end in
  (forall k, load k e = (resolved (Err error), e)) /\
  (forall k p, save k p e = (resolved (Err error), e)) /\
  (forall k, clear k e = (resolved (Err error), e)) /\
  (forall k, inspect k e = (resolved (Err error), e)) /\
  (forall k, quarantine k e = (resolved (Err error), e)) /\
  (forall k n chunks, start_save_stream k n chunks e = (Err error, e)) /\
  (forall k accepts ack, start_load_stream k accepts ack e = (Err error, e)) /\
  (forall age, cleanup_stale_temporary_files age e = (resolved (Err error), e)) /\
  flush e = (resolved (Err error), e) /\
  (forall st', rtc may_panic st st' -> eng_lifecycle (st_engine st') <> Open) /\
  (forall st0 st1, panics st0 st1 -> rtc may_panic st1 st -> error = EngineFailed).
Proof.
  intros Hl e error. pose proof (ensure_open_closed e Hl : _ = Err error) as Hc.
  split_and!; intros; try (by apply call_closed).
  - unfold start_save_stream. by rewrite Hc.
  - unfold start_load_stream. by rewrite Hc.
  - unfold cleanup_stale_temporary_files. by rewrite Hc.
  - unfold flush. by rewrite Hc.
  - match goal with H : rtc _ _ _ |- _ => revert Hl; clear -H; induction H; eauto using step_closed end.
  - assert (Hf : failed st).
    { match goal with H : panics _ _, Hr : rtc _ _ _ |- _ => apply panics_failed in H; revert H; clear -Hr;
        induction Hr; eauto using step_failed end. }
    subst error. unfold e. by rewrite (proj1 Hf).
Qed.

(** A stopped engine left nobody waiting.  Once the coordinator returned, the
    store is closed or its shutdown failed, every thread was joined, no job is
    left, and no call is owed an answer. *)
Theorem stopped_engine_is_quiet st :
  0 < max -> reachable config st -> eng_alive (st_engine st) = false ->
  let s := st_scheduler st in
  (lifecycle s = Closed \/ lifecycle s = ShutdownFailed) /\ handles (worker_pool s) = [] /\
  channel (worker_pool s) = [] /\ receiver s = [] /\ owed s = [].
Proof.
  intros Hmax Hr Ha s. pose proof (sound_finished st (reachable_sound config st Hmax Hr) Ha) as Hf.
  split_and!; [..|by apply finished_owed]; apply Hf.
Qed.

Lemma live_lifecycle st :
  Sound config st -> eng_lifecycle (st_engine st) = Open \/ eng_lifecycle (st_engine st) = Closing ->
  eng_alive (st_engine st) = true.
Proof.
  intros Hs Hl. destruct (eng_alive (st_engine st)) eqn:Ha; [done|].
  pose proof (finished_lifecycle _ (sound_finished st Hs Ha)) as Hf.
  unfold eng_lifecycle, st_scheduler in *. destruct Hl, Hf; congruence.
Qed.

(** C25: closing never hangs.  The branch of [close] that would lock the lifecycle
    twice is never taken, and joining the coordinator never meets a handle that
    was taken without an outcome. *)
Theorem close_never_hangs st :
  0 < max -> reachable config st ->
  (exists p e', close (st_engine st) = Some (p, e')) /\
  forall r, exists r' j, finish (eng_coordinator (st_engine st)) r = Some (r', j).
Proof.
  intros Hmax Hr. pose proof (reachable_sound config st Hmax Hr) as Hs. split.
  - pose proof (live_lifecycle st Hs) as Ha. unfold close.
    destruct (eng_lifecycle (st_engine st)) eqn:El; try by do 2 eexists.
    all: unfold send_event; cbn [bounded eng_alive]; rewrite Ha by auto; by do 2 eexists.
  - intros r. pose proof (sound_join _ _ Hs) as Hj. unfold finish.
    destruct (join_outcome (eng_coordinator (st_engine st))); [by do 2 eexists|].
    destruct (join_handle (eng_coordinator (st_engine st))); [by do 2 eexists|]. by destruct Hj.
Qed.

End Theorems.

(** ** After a panic *)

Definition reply_error (r : Reply) : option AtomicBlobStoreError :=
  match r with
  | ReplyLoad (Err e) | ReplyMetadata (Err e) | ReplyUnit (Err e) | ReplyInspection (Err e)
  | ReplyQuarantine (Err e) | ReplyCleanup (Err e) => Some e
  | _ => None
  end.

(** C28: a panic of the coordinator fails the engine and answers the channel.  From
    any state, every call that was in the channel, and every completion, gets an
    error, so that no caller of theirs waits forever. *)
Theorem panic_answers_the_channel (s : Scheduler) event ch :
  event ∈ receiver s -> event_sender event = Some ch ->
  lifecycle (coordinator_panicked s) = Failed /\ receiver (coordinator_panicked s) = [] /\
  exists r, (ch, r) ∈ sent (coordinator_panicked s) /\
    (reply_error r = Some EngineFailed \/ event = EvClose ch /\ reply_error r = Some ShutdownFailure).
Proof.
  intros Hin He. split_and!; [done..|].
  assert (Ha : exists r, failed_event event = Some (ch, r) /\
    (reply_error r = Some EngineFailed \/ event = EvClose ch /\ reply_error r = Some ShutdownFailure)).
  { destruct event as [sub|[k [[o r]|]]|sub|[[c r]|]|c|c]; cbn in *; simplify_eq; try (eexists; split; [done|]; auto; done).
    - exists (snd (deliver_error (sub_operation sub) EngineFailed)). by destruct (sub_operation sub); auto.
    - exists (snd (deliver_error o EngineFailed)). by destruct o; auto. }
  destruct Ha as (r & Ha & Hr). exists r. split; [|done].
  unfold coordinator_panicked, on_pool, shutdown, fail_queued_after_coordinator_panic, drain. cbn.
  apply elem_of_app. right. apply list_elem_of_omap. by exists event.
Qed.

(** ** Concrete runs *)

(** The registry in the order of its finite map. *)
#[export] Instance reference_order : HashMapOrder := { hash_iter _ m := map_to_list m }.

#[export] Instance reference_order_laws : HashMapOrderLaws.
Proof. by split. Qed.

(** One step of a run. *)
Inductive Action :=
| Act_call (c : ApiCall)
| Act_turn
| Act_job (i : nat) (outcome : BlockingResult).

Definition act (a : Action) (st : State) : option State :=
  match a with
  | Act_call c => if st_handles st then (fun e => with_engine e st) <$> api_call c (st_engine st) else None
  | Act_turn =>
      match eng_alive (st_engine st), receiver (st_scheduler st) with
      | true, event :: rest =>
          match coordinator_turn (eng_config (st_engine st)) event (set_receiver rest (st_scheduler st)) with
          | Looped s' => Some (with_scheduler s' st)
          | Returned s' => Some (stopped s' st)
          | Panicked _ => None
          end
      | _, _ => None
      end
  | Act_job i r =>
      match channel (worker_pool (st_scheduler st)) !! i with
      | Some (OperationJob k op) =>
          if matching op r then
            Some (complete_job i (OperationJob k op)
              (EvCompletion {| comp_key_hash := k; comp_outcome := Some (op, r) |}) st)
          else None
      | _ => None
      end
  end.

Fixpoint acts (l : list Action) (st : State) : option State :=
  match l with [] => Some st | a :: l => act a st ≫= acts l end.

Lemma act_turn st st' : act Act_turn st = Some st' -> coordinates st st'.
Proof.
  cbn [act]. destruct (eng_alive (st_engine st)) eqn:Ea; [|done].
  destruct (receiver (st_scheduler st)) as [|event rest] eqn:Er; [done|].
  destruct (coordinator_turn _ _ _) eqn:Et; intros; simplify_eq;
    [by eapply turn_looped|by eapply turn_returned].
Qed.

Lemma act_call c st st' : act (Act_call c) st = Some st' -> external st st'.
Proof.
  cbn [act]. destruct (st_handles st) eqn:Eh; [|done]. intros (e & E & ->)%fmap_Some. by apply (step_call c).
Qed.

Definition is_call (a : Action) : bool := match a with Act_call _ => true | _ => false end.

Lemma act_internal a st st' : is_call a = false -> act a st = Some st' -> internal st st'.
Proof.
  destruct a as [c| |i r]; [done| |]; intros _ E.
  - constructor. by apply act_turn.
  - cbn [act] in E. destruct (channel _ !! i) as [[k op|]|] eqn:Ej; [|done|done].
    destruct (matching op r) eqn:Em; [|done]. simplify_eq. eapply internal_job; [done|]. by constructor.
Qed.

Lemma act_step a st st' : act a st = Some st' -> step st st'.
Proof.
  destruct a as [c| |i r].
  - intros E. right. by eapply act_call.
  - intros E. left. exact (act_internal Act_turn _ _ eq_refl E).
  - intros E. left. exact (act_internal (Act_job i r) _ _ eq_refl E).
Qed.

Lemma acts_internal l st st' :
  forallb (fun a => negb (is_call a)) l = true -> acts l st = Some st' -> rtc internal st st'.
Proof.
  revert st; induction l as [|a l IH]; cbn; intros st Hl E; [by simplify_eq|].
  apply andb_prop in Hl as [Ha Hl]. apply negb_true_iff in Ha.
  destruct (act a st) as [st1|] eqn:Ea; [|done]. cbn in E.
  apply (rtc_l _ _ st1); [by apply (act_internal a)|by apply IH].
Qed.

Lemma acts_default_internal l st :
  forallb (fun a => negb (is_call a)) l = true -> rtc internal st (default st (acts l st)).
Proof.
  intros Hl. destruct (acts l st) as [st'|] eqn:E; cbn; [by eapply acts_internal|apply rtc_refl].
Qed.

(** A thread that takes a step has an event or a job. *)
Lemma internal_busy st st' :
  internal st st' -> receiver (st_scheduler st) = [] -> channel (worker_pool (st_scheduler st)) = [] -> False.
Proof.
  intros Hi Hr Hc. destruct Hi as [? ? [st event rest s' Ha Er E|st event rest s' Ha Er E]|st i j event Hj He];
    [congruence..|]. by rewrite Hc in Hj.
Qed.

Lemma acts_reachable config l st st' : reachable config st -> acts l st = Some st' -> reachable config st'.
Proof.
  revert st; induction l as [|a l IH]; cbn; intros st Hr E; [by simplify_eq|].
  destruct (act a st) as [st1|] eqn:Ea; [|done]. apply (IH st1); [|done].
  eapply reachable_step; [done|by eapply act_step].
Qed.

(** The engine on the fixture's configuration, with room for four operations. *)
Definition fixture_start : State :=
  started_with {| eng_config := fixture_config; eng_scheduler := Scheduler_new fixture_config [];
    eng_alive := true; eng_coordinator := CoordinatorJoin_new false; eng_next := 0; eng_accepted := [] |}.

Lemma fixture_start_reachable : reachable fixture_config fixture_start.
Proof. by apply (reachable_open fixture_config []). Defined.

Definition after (l : list Action) : State := default fixture_start (acts l fixture_start).

Lemma after_reachable l : reachable fixture_config (after l).
Proof.
  unfold after. destruct (acts l fixture_start) eqn:E; [|apply fixture_start_reachable].
  eapply acts_reachable; [apply fixture_start_reachable|exact E].
Defined.

Definition key_a : bytes := bstr "a".
Definition key_b : bytes := bstr "b".

(** Two calls on one key, both in the engine. *)
Definition run_pair : State :=
  after [Act_call (CallSave key_a (bstr "x")); Act_call (CallLoad key_a); Act_turn; Act_turn].

(** A save, a flush and a load; the save ran and the flush was answered. *)
Definition run_flush : State :=
  after [Act_call (CallSave key_a (bstr "x")); Act_call CallFlush; Act_call (CallLoad key_b);
         Act_turn; Act_turn; Act_turn; Act_job 0 (RSave (Ok tt)); Act_turn].

(** A close that waits for a save. *)
Definition run_closing : State :=
  after [Act_call (CallSave key_a (bstr "x")); Act_call CallClose; Act_turn; Act_turn].

(** The same store once the save ran. *)
Definition run_closed : State :=
  after [Act_call (CallSave key_a (bstr "x")); Act_call CallClose; Act_turn; Act_turn;
         Act_job 0 (RSave (Ok tt)); Act_turn].

Lemma fixture_max : 0 < config_max_concurrent_operations fixture_config.
Proof. done. Defined.

Lemma coordinator_keeps_its_bounds_witness :
  size (active (st_scheduler run_pair)) = 1%nat /\ NoDup (in_flight (st_scheduler run_pair)).
Proof.
  split; [by vm_compute|].
  apply (coordinator_keeps_its_bounds fixture_config run_pair);
    [apply fixture_max|apply after_reachable|by vm_compute].
Defined.

Lemma coordinator_never_panics_witness :
  let st := after [Act_call (CallSave key_a (bstr "x"))] in
  exists s', coordinator_turn fixture_config
    (EvSubmission {| sub_key_hash := key_hash key_a; sub_operation := Save (bstr "x") 0 |})
    (set_receiver [] (st_scheduler st)) = Looped s' \/
  coordinator_turn fixture_config
    (EvSubmission {| sub_key_hash := key_hash key_a; sub_operation := Save (bstr "x") 0 |})
    (set_receiver [] (st_scheduler st)) = Returned s'.
Proof.
  apply (coordinator_never_panics fixture_config);
    [apply fixture_max|apply after_reachable|by vm_compute|by vm_compute].
Defined.

(** The first call is answered, the third is owed. *)
Lemma calls_are_answered_once_witness :
  sent (st_scheduler run_flush) = [(0, ReplyUnit (Ok tt)); (1, ReplyUnit (Ok tt))] /\
  (cnt 0 (owed (st_scheduler run_flush)) + cnt 0 (map fst (sent (st_scheduler run_flush))) +
     cnt 0 (st_dropped run_flush) = 1)%nat /\
  (cnt 2 (owed (st_scheduler run_flush)) + cnt 2 (map fst (sent (st_scheduler run_flush))) +
     cnt 2 (st_dropped run_flush) = 1)%nat.
Proof.
  split; [by vm_compute|].
  split; (rewrite (calls_are_answered_once fixture_config);
    [by vm_compute|apply fixture_max|apply after_reachable]).
Defined.

(** Both calls ran, one after the other. *)
Definition run_pair_tail : list Action :=
  [Act_job 0 (RSave (Ok tt)); Act_turn; Act_job 0 (RLoad (Ok (Some (bstr "x")))); Act_turn].

Definition run_pair_done : State := default run_pair (acts run_pair_tail run_pair).

Lemma run_pair_internal : rtc internal run_pair run_pair_done.
Proof. exact (acts_default_internal run_pair_tail run_pair eq_refl). Defined.

Lemma run_pair_stuck st' : ~ internal run_pair_done st'.
Proof.
  intros Hi. apply (internal_busy _ _ Hi); by vm_compute.
Defined.

Lemma calls_are_answered_witness :
  sent (st_scheduler run_pair) = [] /\
  (1 ∈ map fst (sent (st_scheduler run_pair_done)) \/ 1 ∈ st_dropped run_pair_done).
Proof.
  split; [by vm_compute|].
  destruct (calls_are_answered fixture_config run_pair fixture_max (after_reachable _)) as [_ H].
  apply (H run_pair_done run_pair_internal run_pair_stuck).
  apply list_elem_of_In. vm_compute. by auto.
Defined.

(** Two operations of a key were accepted; the first one was taken. *)
Lemma operations_run_in_order_witness :
  taken_of (key_hash key_a) (st_scheduler run_pair) = [Save (bstr "x") 0] /\
  prefix (taken_of (key_hash key_a) (st_scheduler run_pair)) [Save (bstr "x") 0; Load 1].
Proof.
  split; [by vm_compute|].
  change [Save (bstr "x") 0; Load 1] with (submitted (key_hash key_a) (eng_accepted (st_engine run_pair))).
  apply (operations_run_in_order fixture_config run_pair); [apply fixture_max|apply after_reachable].
Defined.

Lemma flush_is_a_barrier_witness : 0 ∉ owed (st_scheduler run_flush).
Proof.
  apply (flush_is_a_barrier fixture_config run_flush
    [(0, EvSubmission {| sub_key_hash := key_hash key_a; sub_operation := Save (bstr "x") 0 |})] 1
    [(2, EvSubmission {| sub_key_hash := key_hash key_b; sub_operation := Load 2 |})]);
    [apply fixture_max|apply after_reachable|by vm_compute|..].
  - apply list_elem_of_In. vm_compute. by auto.
  - left.
Defined.

(** The close of [run_closing] is under way; a panic of its coordinator fails it. *)
Lemma closed_store_rejects_witness :
  flush (st_engine run_closing) = (resolved (Err StoreClosed), st_engine run_closing) /\
  let st := stopped (coordinator_panicked (st_scheduler run_closing)) run_closing in
  flush (st_engine st) = (resolved (Err EngineFailed), st_engine st).
Proof.
  split; [apply (closed_store_rejects run_closing); by vm_compute|]. intros st.
  destruct (closed_store_rejects st ltac:(by vm_compute)) as (_ & _ & _ & _ & _ & _ & _ & _ & Hf & _ & He).
  assert (Hp : panics run_closing st) by (apply step_panics; by vm_compute).
  rewrite Hf. by rewrite (He _ _ Hp (rtc_refl _ _)).
Defined.

Lemma stopped_engine_is_quiet_witness :
  eng_alive (st_engine run_closed) = false /\ owed (st_scheduler run_closed) = [].
Proof.
  split; [by vm_compute|].
  apply (stopped_engine_is_quiet fixture_config run_closed);
    [apply fixture_max|apply after_reachable|by vm_compute].
Defined.

Lemma close_never_hangs_witness :
  exists p e', close (st_engine run_closing) = Some (p, e').
Proof.
  apply (close_never_hangs fixture_config run_closing); [apply fixture_max|apply after_reachable].
Defined.

Lemma panic_answers_the_channel_witness :
  exists r, (1, r) ∈ sent (coordinator_panicked (st_scheduler (after [Act_call CallFlush; Act_call CallFlush]))) /\
    (reply_error r = Some EngineFailed \/ EvFlush 1 = EvClose 1 /\ reply_error r = Some ShutdownFailure).
Proof.
  apply (panic_answers_the_channel (st_scheduler (after [Act_call CallFlush; Act_call CallFlush])) (EvFlush 1) 1);
    [|done]. apply list_elem_of_In. vm_compute. by auto.
Defined.
