(* ===== verification/System.v ===== *)
(** * The whole store: engine, workers and filesystem

    The jobs of the pool are the closures of [dispatch_if_idle] and
    [dispatch_maintenance] ([src/src/engine/scheduler.rs]) on the model of the
    filesystem.  A worker that received a job is a [Thread]; its system calls are
    interleaved with those of the other threads, with the turns of the
    coordinator and with what callers do.  Between any two calls the environment
    may plan other failures and other entropy; it leaves the namespace alone.  A
    maintenance job is one step: it runs when no other job does
    ([maintenance_alone]). *)
From S2P Require Export EngineTheorems SchedulerPool Interference UnixInterference.

Local Open Scope N_scope.
Local Open Scope blob_scope.

Section System.
Context {Crc : Crc32c} {Tgt : Target} {Bk : Backend} {BkS : BackendSteps}
  {B3 : Blake3} {B3L : Blake3Laws} {Order : HashMapOrder} {OrderL : HashMapOrderLaws}.

(** ** Jobs *)

Definition operation_job (fuel : nat) (config : StoreConfig) (k : KeyHash) (operation : Operation)
    : prog (option Finished) :=
  operation_steps fuel config
    (std_join (namespace config) (blake3_to_hex k ++ filename_suffix (format config))) operation.

Definition operation_completion (k : KeyHash) (fin : Finished) : CoordinatorEvent :=
  EvCompletion {| comp_key_hash := k; comp_outcome := fin_outcome fin |}.

Definition maintenance_job (config : StoreConfig) (submission : MaintenanceSubmission)
    : eff World AtomicBlobStoreError CleanupReport :=
  match maint_minimum_age submission with
  | None => ret CleanupReport_default
  | Some minimum_age => backend_cleanup config minimum_age
  end.

Definition maintenance_completion (submission : MaintenanceSubmission)
    (r : result CleanupReport AtomicBlobStoreError) : CoordinatorEvent :=
  EvMaintenanceCompletion (Some (maint_sender submission, r)).

(** ** Steps *)

(** A worker in the middle of a job. *)
Record Thread := {
  th_key : KeyHash;
  th_operation : Operation;
  th_program : prog (option Finished);     (* the calls it has still to make *)
}.

Definition th_job (t : Thread) : WorkerJob := OperationJob (th_key t) (th_operation t).
Definition th_name (t : Thread) : bytes := blake3_to_hex (th_key t).

Definition with_program (p : prog (option Finished)) (t : Thread) : Thread :=
  {| th_key := th_key t; th_operation := th_operation t; th_program := p |}.

Record System := {
  sys_state : State;
  sys_world : World;
  sys_threads : list Thread;
  sys_history : list (bytes * Operation * Finished);    (* the runs that ended, oldest first *)
}.

Definition sys_config (sys : System) : StoreConfig := eng_config (st_engine (sys_state sys)).
Definition sys_accepted (sys : System) : list (Channel * CoordinatorEvent) :=
  eng_accepted (st_engine (sys_state sys)).
Definition sys_scheduler (sys : System) : Scheduler := st_scheduler (sys_state sys).

(** What the threads of the store do by themselves.  The coordinator takes a turn
    ([sys_turn]); a worker receives a job ([sys_begin]), makes a call
    ([sys_call]), and hands its completion over ([sys_finish]), after which the
    job is gone.  A job is received once. *)
Inductive sys_work : System -> System -> Prop :=
| sys_turn st st' w ts h :
    coordinates st st' -> sys_work (Build_System st w ts h) (Build_System st' w ts h)
| sys_begin fuel st w ts h i k op :
    channel (worker_pool (st_scheduler st)) !! i = Some (OperationJob k op) ->
    OperationJob k op ∉ map th_job ts ->
    sys_work (Build_System st w ts h)
      (Build_System st w (ts ++ [Build_Thread k op (operation_job fuel (eng_config (st_engine st)) k op)]) h)
| sys_call st w ts h j t call p w' :
    ts !! j = Some t -> th_program t = Step call -> call w = (p, w') ->
    sys_work (Build_System st w ts h) (Build_System st w' (<[j := with_program p t]> ts) h)
| sys_finish st w ts h i j t fin :
    ts !! j = Some t -> th_program t = Done (Some fin) ->
    channel (worker_pool (st_scheduler st)) !! i = Some (th_job t) ->
    sys_work (Build_System st w ts h)
      (Build_System (complete_job i (th_job t) (operation_completion (th_key t) fin) st) w (delete j ts)
         (h ++ [(th_name t, th_operation t, fin)]))
| sys_maintenance st w ts h i sub r w' :
    channel (worker_pool (st_scheduler st)) !! i = Some (MaintenanceJob sub) ->
    maintenance_job (eng_config (st_engine st)) sub w = (r, w') ->
    sys_work (Build_System st w ts h)
      (Build_System (complete_job i (MaintenanceJob sub) (maintenance_completion sub r) st) w' ts h).

(** The environment plans other failures and other entropy. *)
Inductive replans : System -> System -> Prop :=
| sys_environment st w w' ts h :
    w_fs w' = w_fs w -> (honest w -> honest w') -> (entropy_fills w -> entropy_fills w') ->
    replans (Build_System st w ts h) (Build_System st w' ts h).

Inductive sys_step : System -> System -> Prop :=
| sys_worked sys sys' : sys_work sys sys' -> sys_step sys sys'
| sys_external st st' w ts h :
    external st st' -> sys_step (Build_System st w ts h) (Build_System st' w ts h)
| sys_replanned sys sys' : replans sys sys' -> sys_step sys sys'.

Inductive sys_reachable (config : StoreConfig) (w0 : World) : System -> Prop :=
| sys_open spawns e :
    from_config config (Ok tt) spawns = Ok e ->
    sys_reachable config w0 (Build_System (started_with e) w0 [] [])
| sys_next sys sys' :
    sys_reachable config w0 sys -> sys_step sys sys' -> sys_reachable config w0 sys'.

(** ** Threads that run alone *)

Lemma work_reachable config w0 sys sys' :
  sys_reachable config w0 sys -> rtc sys_work sys sys' -> sys_reachable config w0 sys'.
Proof.
  intros Hr Hs. induction Hs as [|sys sys1 sys2 Hw _ IH]; [done|]. apply IH. by eapply sys_next, sys_worked.
Qed.

(** The calls of one thread, one after the other. *)
Lemma calls_run st ts h (p : prog (option Finished)) w k op fin w' :
  exec p w = (fin, w') ->
  rtc sys_work (Build_System st w (ts ++ [Build_Thread k op p]) h)
    (Build_System st w' (ts ++ [Build_Thread k op (Done fin)]) h).
Proof.
  revert w; induction p as [a|call IH] using prog_induction; intros w E.
  - by injection E as -> ->.
  - cbn [exec] in E. specialize (IH w). destruct (call w) as [p1 w1] eqn:Ec. eapply rtc_l; [|by apply (IH w1)].
    pose proof (sys_call st w (ts ++ [Build_Thread k op (Step call)]) h (length ts) _ call p1 w1
      (list_lookup_middle ts [] _ _ eq_refl) eq_refl Ec) as H.
    rewrite insert_app_r_alt, Nat.sub_diag in H by lia. exact H.
Qed.

(** A worker that nobody interrupts runs its operation as [run_owned_operation]
    does. *)
Lemma job_runs c fuel st w ts h i k op fin w' :
  eng_config (st_engine st) = c -> channel (worker_pool (st_scheduler st)) !! i = Some (OperationJob k op) ->
  OperationJob k op ∉ map th_job ts ->
  run_owned_operation fuel c (key_file c (blake3_to_hex k)) op w = inr (fin, w') ->
  rtc sys_work (Build_System st w ts h) (Build_System
    (complete_job i (OperationJob k op) (operation_completion k fin) st) w' ts
    (h ++ [(blake3_to_hex k, op, fin)])).
Proof.
  intros <- Hj Hn E. rewrite <-steps_are_the_operation in E. unfold key_file in E.
  eapply rtc_l; [exact (sys_begin fuel st w ts h i k op Hj Hn)|]. unfold operation_job.
  destruct (exec _ w) as [[fin1|] w1] eqn:Ee; [|done]. cbn in E. injection E as -> ->.
  etrans; [exact (calls_run st ts h _ w k op _ _ Ee)|]. apply rtc_once.
  pose proof (sys_finish st w' _ h i (length ts) (Build_Thread k op (Done (Some fin))) fin
    (list_lookup_middle ts [] _ _ eq_refl) eq_refl Hj) as Hf.
  by rewrite delete_middle, app_nil_r in Hf.
Qed.

(** Threads that take turns, an index per call. *)
Fixpoint interleave (schedule : list nat) (ts : list Thread) (w : World) : list Thread * World :=
  match schedule with
  | [] => (ts, w)
  | j :: schedule =>
      match ts !! j with
      | Some t =>
          match th_program t with
          | Step call => let (p, w') := call w in interleave schedule (<[j := with_program p t]> ts) w'
          | Done _ => interleave schedule ts w
          end
      | None => interleave schedule ts w
      end
  end.

Lemma map_with_program {B} (f : Thread -> B) ts j t p :
  ts !! j = Some t -> f (with_program p t) = f t -> map f (<[j := with_program p t]> ts) = map f ts.
Proof.
  intros Hj Hf. change (@map) with (@fmap list _) in *. rewrite list_fmap_insert, Hf. apply list_insert_id.
  by rewrite list_lookup_fmap, Hj.
Qed.

(** The operations stay those of the threads. *)
Lemma interleave_keeps schedule ts w :
  map (fun t => (th_key t, th_operation t)) (interleave schedule ts w).1 =
    map (fun t => (th_key t, th_operation t)) ts.
Proof.
  revert ts w; induction schedule as [|j schedule IH]; intros ts w; [done|]. cbn [interleave].
  destruct (ts !! j) as [t|] eqn:Ej; [|done]. destruct (th_program t) as [fin|call]; [done|].
  destruct (call w) as [p w']. rewrite IH. by apply (map_with_program _ _ _ t).
Qed.

Lemma interleave_reachable config w0 schedule st w ts h :
  sys_reachable config w0 (Build_System st w ts h) ->
  let (ts', w') := interleave schedule ts w in sys_reachable config w0 (Build_System st w' ts' h).
Proof.
  revert ts w; induction schedule as [|j schedule IH]; intros ts w Hr; [done|]. cbn [interleave].
  destruct (ts !! j) as [t|] eqn:Ej; [|by apply IH]. destruct (th_program t) as [fin|call] eqn:Ep; [by apply IH|].
  destruct (call w) as [p w'] eqn:Ec. apply IH. eapply sys_next; [exact Hr|]. by eapply sys_worked, sys_call.
Qed.

(** Two jobs of the pool begin, in the order of the channel; the second one
    overtakes the first, which is still at work. *)
Definition outcome_of (t : option Thread) : option (Operation * BlockingResult) :=
  match th_program <$> t with Some (Done (Some fin)) => fin_outcome fin | _ => None end.

Definition works (t : option Thread) : bool :=
  match th_program <$> t with Some (Step _) => true | _ => false end.

Definition begun (config : StoreConfig) (k : KeyHash) (op : Operation) : Thread :=
  Build_Thread k op (operation_job 1 config k op).

Lemma overtaking config w0 schedule st ka oa kb ob res :
  sys_reachable config w0 (Build_System st w0 [] []) -> eng_config (st_engine st) = config ->
  channel (worker_pool (st_scheduler st)) !! 0%nat = Some (OperationJob ka oa) ->
  channel (worker_pool (st_scheduler st)) !! 1%nat = Some (OperationJob kb ob) ->
  bool_decide (ka = kb) = false ->
  works ((interleave schedule [begun config ka oa; begun config kb ob] w0).1 !! 0%nat) = true ->
  outcome_of ((interleave schedule [begun config ka oa; begun config kb ob] w0).1 !! 1%nat) = Some res ->
  exists st' t call fin,
    sys_reachable config w0 (Build_System st' (interleave schedule [begun config ka oa; begun config kb ob] w0).2
      [t] [(blake3_to_hex kb, ob, fin)]) /\ fin_outcome fin = Some res /\
    (interleave schedule [begun config ka oa; begun config kb ob] w0).1 !! 0%nat = Some t /\ th_key t = ka /\ th_operation t = oa /\ th_program t = Step call.
Proof.
  intros H0 Ec Ja Jb Hne%bool_decide_eq_false Hw Ho. set (ts := [begun config ka oa; begun config kb ob]) in *.
  assert (H2 : sys_reachable config w0 (Build_System st w0 ts [])).
  { unfold ts, begun. rewrite <-Ec. apply (sys_next _ _ (Build_System st w0 [begun (eng_config (st_engine st)) ka oa] [])).
    - rewrite Ec. eapply sys_next; [exact H0|]. unfold begun. rewrite <-Ec.
      apply sys_worked, (sys_begin 1 st w0 [] [] 0); [done|by intros H%not_elem_of_nil].
    - apply sys_worked, (sys_begin 1 st w0 [_] [] 1); [done|]. intros H%list_elem_of_singleton.
      apply Hne. unfold th_job in H. cbn in H. congruence. }
  pose proof (interleave_reachable config w0 schedule st w0 ts [] H2) as Hr.
  pose proof (interleave_keeps schedule ts w0) as Hk. destruct (interleave schedule ts w0) as [ts' w]. cbn [fst] in *.
  destruct ts' as [|ta [|tb [|]]]; try done. injection Hk as Eka Eoa Ekb Eob.
  destruct ta as [ka' oa' [|call]]; [done|]. destruct tb as [kb' ob' [[fin|]|]]; try done. cbn in *. subst.
  set (tb := Build_Thread kb ob (Done (Some fin))) in *. set (ta := Build_Thread ka oa (Step call)) in *.
  pose proof (sys_next _ _ _ _ Hr (sys_worked _ _ (sys_finish st w [ta; tb] [] 1 1 tb fin eq_refl eq_refl Jb))) as Hf.
  by eexists _, ta, call, fin.
Qed.

(** ** The engine of the system *)

(** A list of jobs after one that is not [x] left. *)
Lemma in_delete {A} (l : list A) i x y : l !! i = Some y -> x ∈ l -> x <> y -> x ∈ delete i l.
Proof.
  intros Hi Hx Hne. apply list_elem_of_lookup in Hx as [j Hj].
  rewrite delete_take_drop. apply elem_of_app. destruct (decide (j < i)%nat) as [Hlt|Hge].
  - left. apply (list_elem_of_lookup_2 _ j). by rewrite lookup_take_lt.
  - right. apply (list_elem_of_lookup_2 _ (j - S i)). assert (i <> j) by (intros ->; by simplify_eq).
    rewrite lookup_drop. by replace (S i + (j - S i))%nat with j by lia.
Qed.

Lemma deleted_key {A B} (f : A -> B) (l : list A) j x y :
  NoDup (map f l) -> l !! j = Some x -> y ∈ delete j l -> y ∈ l /\ f y <> f x.
Proof.
  intros Hn Hj Hy. rewrite <-(take_drop_middle l j x Hj), map_app in Hn. cbn in Hn.
  apply NoDup_app in Hn as (_ & Hd & [Hx _]%NoDup_cons).
  rewrite delete_take_drop in Hy. apply elem_of_app in Hy as [Hy|Hy].
  - split; [by eapply subseteq_take|]. intros E. apply (Hd (f y)); [by apply list_elem_of_fmap; exists y|].
    rewrite E. by left.
  - split; [by eapply subseteq_drop|]. intros E. apply Hx. rewrite <-E. apply list_elem_of_fmap. by exists y.
Qed.

(** The calls that a thread has still to make end with a result of its operation. *)
Definition ends_matching (t : Thread) : Prop :=
  forall w, safe anything anything (th_program t) (fun fin _ => matching_end (th_operation t) fin) w.

Lemma sys_step_matching sys sys' :
  sys_step sys sys' -> Forall ends_matching (sys_threads sys) -> Forall ends_matching (sys_threads sys').
Proof.
  intros Hst. destruct Hst as [? ? [|fuel st w ts h i k op Hj Hn|st w ts h j t call p w' Hj Ep Ec
    |st w ts h i j t fin Hj Ep Hi|]| |? ? []]; cbn [sys_threads]; try done; intros Hts.
  - apply Forall_app. split; [done|]. constructor; [|done]. intros w1.
    exact (operation_steps_matching fuel _ _ op w1).
  - apply Forall_insert; [done|]. intros w1. pose proof (proj1 (Forall_lookup _ _) Hts j t Hj) as Ht.
    specialize (Ht w). rewrite Ep in Ht. specialize (Ht w I). rewrite Ec in Ht. destruct Ht as [_ Ht].
    eapply (safe_rely anything anything); [..|exact Ht]; done.
  - by apply Forall_delete.
Qed.

Lemma sys_matching config w0 sys : sys_reachable config w0 sys -> Forall ends_matching (sys_threads sys).
Proof. induction 1 as [|sys sys' _ IH Hs]; [by apply Forall_nil|]. by eapply sys_step_matching. Qed.

Lemma done_matching (w : World) t fin : ends_matching t -> th_program t = Done (Some fin) ->
  (owns_ends (th_operation t) = true -> fin_outcome fin <> None) /\
  forall o r, fin_outcome fin = Some (o, r) -> matching o r = true /\ op_sender o = op_sender (th_operation t).
Proof. intros Ht Ep. specialize (Ht w). by rewrite Ep in Ht. Qed.

(** The engine takes the steps of [EngineSteps]. *)
Lemma sys_step_engine sys sys' :
  sys_step sys sys' -> Forall ends_matching (sys_threads sys) ->
  sys_state sys' = sys_state sys \/ step (sys_state sys) (sys_state sys').
Proof.
  intros Hst Hts. destruct Hst as [? ? [st st' w ts h Hc| | |st w ts h i j t fin Hj Ep Hi
    |st w ts h i sub r w' Hi E]|st st' w ts h He|? ? []]; cbn [sys_state sys_threads] in *; try (by left); right.
  - left. by apply internal_turn.
  - left. apply internal_job; [done|]. unfold operation_completion.
    destruct (done_matching w t fin) as [_ Hm]; [by eapply (proj1 (Forall_lookup _ _) Hts)|done|].
    destruct (fin_outcome fin) as [[o r]|]; [|apply completes_panicked].
    destruct (Hm o r eq_refl). by apply completes_operation.
  - left. apply internal_job; [done|]. apply completes_maintenance.
  - by right.
Qed.

Lemma sys_reachable_engine config w0 sys :
  sys_reachable config w0 sys -> reachable config (sys_state sys).
Proof.
  induction 1 as [spawns e E|sys sys' Hr IH Hs]; [by eapply reachable_open|].
  destruct (sys_step_engine _ _ Hs (sys_matching _ _ _ Hr)) as [-> | Hst]; [done|]. by eapply reachable_step.
Qed.

(** The history holds the operations that ran. *)
Definition history_matches (sys : System) : Prop :=
  map fst (sys_history sys) = map (fun '(k, op) => (blake3_to_hex k, op)) (st_ran (sys_state sys)).

Lemma external_ran st st' : external st st' -> st_ran st' = st_ran st.
Proof. by intros []. Qed.

Lemma coordinates_ran st st' : coordinates st st' -> st_ran st' = st_ran st.
Proof. by intros []. Qed.

Lemma sys_history_matches config w0 sys : sys_reachable config w0 sys -> history_matches sys.
Proof.
  induction 1 as [spawns e E|sys sys' _ IH Hst]; [done|]. unfold history_matches in *.
  destruct Hst as [? ? [st st' w ts h Hc| | |st w ts h i j t fin Hj Ep Hi|st w ts h i sub r w' Hi E]
    |st st' w ts h He|? ? []]; cbn [sys_history sys_state complete_job st_ran job_ran th_job] in *; try done.
  - by rewrite (coordinates_ran _ _ Hc).
  - by rewrite !map_app, IH.
  - by rewrite app_nil_r.
  - by rewrite (external_ran _ _ He).
Qed.

(** ** The keys of the jobs *)

Section Runs.
Context (config : StoreConfig).

(** An operation taken off a queue is an accepted call. *)
Lemma taken_accepted st k op :
  Sound config st -> op ∈ taken_of k (st_scheduler st) ->
  exists sub, (op_sender op, EvSubmission sub) ∈ eng_accepted (st_engine st) /\
    sub_key_hash sub = k /\ sub_operation sub = op /\ length k = 32%nat /\ owns_ends op = true.
Proof.
  intros Hs Hop. destruct (sound_calls _ _ Hs) as [Hn _ _ _ Ho _ _ _ _].
  assert (Hsub : op ∈ submitted k (eng_accepted (st_engine st))).
  { destruct (Ho k) as (late & -> & _). unfold pipeline. rewrite !elem_of_app. by do 2 left. }
  unfold submitted, received_of in Hsub. apply list_elem_of_omap in Hsub as (e & He & E).
  apply list_elem_of_fmap in He as ([ch ev] & -> & Hce). cbn in E.
  destruct ev as [sub| | | | |]; try done. case_decide as Hk; [|done]. simplify_eq.
  rewrite Forall_forall in Hn. destruct (Hn _ Hce) as [Hch Hkey]. cbn in Hch, Hkey. simplify_eq.
  destruct (Hkey sub eq_refl) as [Hends [key Ek]]. exists sub. split_and!; try done.
  rewrite Ek. apply blake3_hash_length.
Qed.

(** A job of the pool is an accepted call. *)
Lemma job_accepted st i k op :
  Sound config st -> channel (worker_pool (st_scheduler st)) !! i = Some (OperationJob k op) ->
  exists sub, (op_sender op, EvSubmission sub) ∈ eng_accepted (st_engine st) /\
    sub_key_hash sub = k /\ sub_operation sub = op /\ length k = 32%nat /\ owns_ends op = true.
Proof.
  intros Hs Hj. apply taken_accepted; [done|].
  apply (sublist_elem_of _ _ _ (calls_ran _ _ _ _ _ _ (sound_calls _ _ Hs) k)), elem_of_app. right.
  apply list_elem_of_omap. exists (OperationJob k op). split; [by eapply list_elem_of_lookup_2|].
  by rewrite decide_True.
Qed.

(** So is an operation that ran. *)
Lemma ran_accepted st k op :
  Sound config st -> (k, op) ∈ st_ran st ->
  exists sub, (op_sender op, EvSubmission sub) ∈ eng_accepted (st_engine st) /\
    sub_key_hash sub = k /\ sub_operation sub = op /\ length k = 32%nat /\ owns_ends op = true.
Proof.
  intros Hs Hr. apply taken_accepted; [done|].
  apply (sublist_elem_of _ _ _ (calls_ran _ _ _ _ _ _ (sound_calls _ _ Hs) k)), elem_of_app. left.
  apply list_elem_of_omap. exists (k, op). split; [done|]. by rewrite decide_True.
Qed.

Lemma key_hex_name k : length k = 32%nat -> hex_name (blake3_to_hex k).
Proof. intros Hk. split; [by apply blake3_hex_length|by apply blake3_hex_lower]. Qed.

(** ** Where the threads are *)

(** The threads run jobs of the pool, one of each key. *)
Record Placed (sys : System) : Prop := {
  placed_keys : NoDup (map th_key (sys_threads sys));
  placed_jobs : Forall (fun t => th_job t ∈ channel (worker_pool (sys_scheduler sys))) (sys_threads sys);
}.

Lemma placed_job sys t :
  Placed sys -> t ∈ sys_threads sys -> th_job t ∈ channel (worker_pool (sys_scheduler sys)).
Proof. intros [_ Hj]. by apply (proj1 (Forall_forall _ _) Hj). Qed.

(** A pool with a job belongs to a coordinator that works. *)
Lemma job_of_live st j : Sound config st -> j ∈ channel (worker_pool (st_scheduler st)) -> Inv config (st_scheduler st).
Proof.
  intros Hs Hj. pose proof (sound_coordinator _ _ Hs) as H. unfold coordinator_sound in H.
  destruct (eng_alive _); [done|]. exfalso. unfold st_scheduler in Hj. rewrite (finished_channel _ H) in Hj.
  by apply not_elem_of_nil in Hj.
Qed.

Lemma coordinates_jobs st st' j :
  Sound config st -> coordinates st st' -> j ∈ channel (worker_pool (st_scheduler st)) ->
  j ∈ channel (worker_pool (st_scheduler st')).
Proof.
  intros Hs Hco. pose proof (sound_config _ _ Hs) as Ec.
  destruct Hco as [st event rest s' Ha Er E|st event rest s' Ha Er E];
    pose proof (adds_turn config event rest _ (sound_inv _ _ Hs Ha) Er) as H; rewrite <-Ec, E in H;
    destruct H as [l Hl]; unfold st_scheduler; cbn; rewrite Hl; intros Hj; apply elem_of_app; by left.
Qed.

Lemma external_jobs st st' j :
  external st st' -> j ∈ channel (worker_pool (st_scheduler st)) -> j ∈ channel (worker_pool (st_scheduler st')).
Proof.
  intros [c st1 e' Hh Hc|st1 r r' jo Ha Hj|st1|st1 Hh Ha Hr Hw Hp Hc]; [|done|done|].
  - apply api_call_called in Hc. destruct Hc as [| |event Ha Hn Hl]; [done..|].
    unfold st_scheduler, send_event. cbn. by rewrite Ha.
  - rewrite Hc. by intros H%not_elem_of_nil.
Qed.

Lemma sys_step_placed sys sys' :
  Sound config (sys_state sys) -> sys_step sys sys' -> Placed sys -> Placed sys'.
Proof.
  intros Hs Hst [Hn Hj]. unfold sys_scheduler in Hj.
  destruct Hst as [? ? [st st' w ts h Hco|fuel st w ts h i k op Hi Hnew
    |st w ts h j t call p w' Ht Ep Ec|st w ts h i j t fin Ht Ep Hi|st w ts h i sub r w' Hi E]
    |st st' w ts h He|? ? [st w w' ts h E1 E2 E3]]; cbn [sys_state sys_threads] in *.
  - split; [done|]. eapply Forall_impl; [exact Hj|]. intros t. by apply coordinates_jobs.
  - apply list_elem_of_lookup_2 in Hi. split; cbn [sys_threads].
    + rewrite map_app. apply NoDup_app. split; [done|]. split; [|apply NoDup_singleton].
      intros k' Hk' E%list_elem_of_singleton. apply list_elem_of_fmap in Hk' as (t & -> & Ht). cbn in E.
      apply Hnew, list_elem_of_fmap. exists t. split; [|done]. unfold th_job. rewrite E in *.
      f_equal. pose proof (proj1 (Forall_forall _ _) Hj t Ht) as Ht'.
      by apply (one_job_per_key config (st_scheduler st) (th_key t)); [apply (job_of_live _ _ Hs Hi)|rewrite E|].
    + apply Forall_app. split; [done|]. by constructor.
  - split; cbn [sys_threads].
    + by rewrite (map_with_program th_key _ _ t).
    + apply Forall_insert; [done|]. by apply (proj1 (Forall_lookup _ _) Hj j t).
  - split; cbn [sys_threads].
    + change (@map) with (@fmap list _) in *. rewrite list_fmap_delete.
      eapply sublist_NoDup; [exact Hn|apply sublist_delete].
    + apply Forall_forall. intros t' Ht'. destruct (deleted_key th_key ts j t t' Hn Ht Ht') as [Hin Hne]. cbn.
      eapply in_delete; [exact Hi|by apply (proj1 (Forall_forall _ _) Hj)|].
      unfold th_job. by intros [= E _].
  - apply list_elem_of_lookup_2 in Hi. destruct ts as [|t ts]; [by split; apply Forall_nil || apply NoDup_nil_2|].
    exfalso. apply Forall_cons in Hj as [Ht _].
    by destruct (maintenance_alone config _ _ _ _ (job_of_live _ _ Hs Hi) Hi Ht).
  - split; [done|]. eapply Forall_impl; [exact Hj|]. intros t. by apply external_jobs.
  - by split.
Qed.

Lemma sys_placed (w0 : World) sys :
  0 < config_max_concurrent_operations config -> sys_reachable config w0 sys -> Placed sys.
Proof.
  intros Hmax. induction 1 as [spawns e E|sys sys' Hr IH Hs]; [split; [apply NoDup_nil_2|by apply Forall_nil]|].
  eapply sys_step_placed; [|exact Hs|done]. by apply reachable_sound, (sys_reachable_engine _ w0).
Qed.

(** ** Answers *)

(** What [event] may be answered, after the runs in [h]. *)
Definition justified (h : list (bytes * Operation * Finished)) (event : CoordinatorEvent) (answer : Channel * Reply) : Prop :=
  match event with
  | EvSubmission sub =>
      answer = deliver_error (sub_operation sub) StoreClosed \/
      answer = deliver_error (sub_operation sub) WorkerUnavailable \/
      exists fin o r, (blake3_to_hex (sub_key_hash sub), sub_operation sub, fin) ∈ h /\
        fin_outcome fin = Some (o, r) /\ deliver o r = Some answer
  | EvMaintenance sub => exists r, answer = (maint_sender sub, ReplyCleanup r)
  | EvFlush ch => answer = (ch, ReplyUnit (Ok tt)) \/ answer = (ch, ReplyUnit (Err StoreClosed))
  | EvClose ch => answer = (ch, ReplyUnit (Ok tt)) \/ answer = (ch, ReplyUnit (Err ShutdownFailure))
  | EvCompletion _ | EvMaintenanceCompletion _ => False
  end.

Definition justified_by (accepted : list (Channel * CoordinatorEvent))
    (h : list (bytes * Operation * Finished)) (answer : Channel * Reply) : Prop :=
  exists event, (fst answer, event) ∈ accepted /\ justified h event answer.

Definition answers_justified (sys : System) : Prop :=
  lawful (justified_by (sys_accepted sys) (sys_history sys)) (sys_scheduler sys).

Lemma justified_mono h h' event answer :
  (forall x, x ∈ h -> x ∈ h') -> justified h event answer -> justified h' event answer.
Proof. intros H. destruct event; cbn; try done. intros [?|[?|(fin & o & r & Hin & ?)]]; eauto 10. Qed.

Lemma justified_by_mono acc acc' h h' answer :
  (forall x, x ∈ acc -> x ∈ acc') -> (forall x, x ∈ h -> x ∈ h') ->
  justified_by acc h answer -> justified_by acc' h' answer.
Proof. intros H1 H2 (event & Hin & Hj). exists event. split; [auto|by apply (justified_mono h)]. Qed.

(** A call in the channel can be answered in its own ways. *)
Lemma accepted_event_ok acc h ch event :
  (ch, event) ∈ acc -> named (ch, event) -> event_ok (justified_by acc h) event.
Proof.
  intros Hin [Hn _]. cbn in Hn. destruct event as [sub| |sub| |c|c]; cbn in *; simplify_eq; try done.
  - split; exists (EvSubmission sub); rewrite deliver_error_sender; (split; [done|]); cbn; auto.
  - intros r. exists (EvMaintenance sub). split; [done|]. by exists r.
  - split; exists (EvFlush ch); (split; [done|]); cbn; auto.
  - split; exists (EvClose ch); (split; [done|]); cbn; auto.
Qed.

Lemma called_lawful h e e' :
  called e e' -> lawful (justified_by (eng_accepted e) h) (eng_scheduler e) ->
  lawful (justified_by (eng_accepted e') h) (eng_scheduler e').
Proof.
  intros [| |event Ha Hn _] Hl; [done|done|]. unfold send_event. cbn [bounded snd eng_alive]. rewrite Ha.
  cbn [snd eng_accepted eng_scheduler]. apply lawful_post.
  - eapply accepted_event_ok; [|exact Hn]. apply elem_of_app. right. left.
  - eapply lawful_mono; [|exact Hl]. intros answer. apply justified_by_mono; [|done].
    intros x Hx. apply elem_of_app. by left.
Qed.

Lemma operation_event_ok acc h k op fin :
  (exists sub, (op_sender op, EvSubmission sub) ∈ acc /\ sub_key_hash sub = k /\ sub_operation sub = op) ->
  (blake3_to_hex k, op, fin) ∈ h ->
  (forall o r, fin_outcome fin = Some (o, r) -> op_sender o = op_sender op) ->
  event_ok (justified_by acc h) (operation_completion k fin).
Proof.
  intros (sub & Hin & <- & <-) Hh Hs answer E. unfold completion_answer in E. cbn in E.
  destruct (fin_outcome fin) as [[o r]|] eqn:Ef; [|done]. cbn in E.
  assert (Hch : fst answer = op_sender (sub_operation sub)).
  { destruct answer as [ch reply]. apply deliver_sender in E. cbn. by rewrite E, (Hs o r). }
  exists (EvSubmission sub). rewrite Hch. split; [done|]. cbn. right. right. by exists fin, o, r.
Qed.

Lemma nodup_key {A B} (l : list (A * B)) a b b' :
  NoDup (map fst l) -> (a, b) ∈ l -> (a, b') ∈ l -> b = b'.
Proof.
  induction l as [|[x y] l IH]; cbn; [by intros _ H%not_elem_of_nil|].
  intros [Hx Hn]%NoDup_cons. rewrite !elem_of_cons.
  assert (Hfst : forall c, (x, c) ∈ l -> False) by (intros c Hc; apply Hx, list_elem_of_fmap; by exists (x, c)).
  intros [E|H] [E'|H']; [by simplify_eq|simplify_eq..|by apply IH]; by destruct (Hfst _ ltac:(eassumption)).
Qed.

(** What a finished job leaves. *)
Lemma job_done_lawful A i event s :
  event_ok A event -> lawful A s -> lawful A (job_done i event s).
Proof.
  intros He Hl. apply lawful_post; [done|]. apply (lawful_same A s); try done.
  apply Forall_delete, Hl.
Qed.

Lemma maintenance_done_lawful A i sub r s :
  channel (worker_pool s) !! i = Some (MaintenanceJob sub) -> lawful A s ->
  lawful A (job_done i (maintenance_completion sub r) s).
Proof.
  intros Hi Hl. apply job_done_lawful; [|done]. cbn.
  pose proof (proj1 (Forall_lookup _ _) (lawful_jobs _ _ Hl) i _ Hi) as H. apply H.
Qed.

Lemma coordinates_lawful A st st' :
  0 < config_max_concurrent_operations config -> Sound config st -> coordinates st st' ->
  lawful A (st_scheduler st) -> lawful A (st_scheduler st').
Proof.
  intros Hmax Hs Hco Hl. pose proof (sound_config _ _ Hs) as Ec.
  destruct Hco as [st event rest s' Ha Er E|st event rest s' Ha Er E];
    pose proof (lawful_turn _ config event rest _ Hmax (sound_inv _ _ Hs Ha) Er Hl) as H;
    by rewrite <-Ec, E in H.
Qed.

Lemma disconnected_lawful A st :
  0 < config_max_concurrent_operations config -> Sound config st ->
  eng_alive (st_engine st) = true -> receiver (st_scheduler st) = [] -> channel (worker_pool (st_scheduler st)) = [] ->
  lawful A (st_scheduler st) -> lawful A (disconnected (st_scheduler st)).
Proof.
  intros Hmax Hs Ha Hr Hc Hl.
  destruct (disconnected_finished config _ Hmax (sound_inv _ _ Hs Ha) Hr Hc) as (Hf & E1 & E2 & E3 & E4 & _).
  apply (lawful_same _ (st_scheduler st)); [done|done|done| | |done].
  - by rewrite (finished_receiver _ Hf).
  - by rewrite (finished_channel _ Hf).
Qed.

Lemma sys_step_justified sys sys' :
  0 < config_max_concurrent_operations config -> Sound config (sys_state sys) ->
  Forall ends_matching (sys_threads sys) -> sys_step sys sys' -> answers_justified sys -> answers_justified sys'.
Proof.
  intros Hmax Hs Hts Hst. unfold answers_justified, sys_accepted, sys_scheduler.
  destruct Hst as [? ? [st st' w ts h Hco| | |st w ts h i j t fin Hj Ep Hi|st w ts h i sub r w' Hi E]
    |st st' w ts h He|? ? []];
    cbn [sys_state sys_history sys_threads] in *; intros Hl; try done.
  - destruct (internal_accepted _ _ (internal_turn _ _ Hco)) as [-> _]. by eapply coordinates_lawful.
  - destruct (job_accepted st i (th_key t) (th_operation t) Hs Hi) as (sub & Hin & H1 & H2 & _).
    apply (job_done_lawful _ i (operation_completion (th_key t) fin) (st_scheduler st)).
    + apply (operation_event_ok _ _ _ (th_operation t) fin); [by exists sub|apply elem_of_app; right; left|].
      pose proof (proj1 (Forall_lookup _ _) Hts j t Hj) as Ht.
      destruct (done_matching w t fin Ht Ep) as [_ H]. intros o r Ef. by destruct (H o r Ef).
    + eapply lawful_mono; [|exact Hl]. intros answer. apply justified_by_mono; [done|].
      intros x Hx. apply elem_of_app. by left.
  - by apply (maintenance_done_lawful _ i sub r (st_scheduler st)).
  - destruct He as [c st e' Hh Hc|st r r' j Ha Hj|st|st Hh Ha Hr Hw Hp Hc]; [|done|done|].
    + by apply (called_lawful h _ e' (api_call_called _ _ _ Hc)).
    + change (lawful (justified_by (eng_accepted (st_engine st)) h) (disconnected (st_scheduler st))).
      by apply disconnected_lawful.
Qed.

Lemma sys_justified (w0 : World) sys :
  0 < config_max_concurrent_operations config -> sys_reachable config w0 sys -> answers_justified sys.
Proof.
  intros Hmax. induction 1 as [spawns e E|sys sys' Hr IH Hs].
  - injection E as <-. split; [by apply Forall_nil| |by apply Forall_nil|by apply Forall_nil|by apply Forall_nil].
    by intros op H%not_elem_of_nil.
  - eapply sys_step_justified; [done| |by eapply sys_matching|exact Hs|done].
    by apply reachable_sound, (sys_reachable_engine _ w0).
Qed.

Lemma answer_justified (w0 : World) sys ch event reply :
  0 < config_max_concurrent_operations config -> sys_reachable config w0 sys ->
  (ch, event) ∈ sys_accepted sys -> (ch, reply) ∈ sent (sys_scheduler sys) ->
  justified (sys_history sys) event (ch, reply).
Proof.
  intros Hmax Hr Hin Hs. pose proof (sys_justified w0 sys Hmax Hr) as [Hj _ _ _ _].
  rewrite Forall_forall in Hj. destruct (Hj _ Hs) as (event' & Hin' & Hjust). cbn in Hin'.
  pose proof (reachable_sound config _ Hmax (sys_reachable_engine _ _ _ Hr)) as Hsound.
  pose proof (calls_nodup _ _ _ _ _ _ (sound_calls _ _ Hsound)) as Hn.
  assert (event' = event) as -> by by eapply nodup_key.
  exact Hjust.
Qed.

(** ** Theorems *)

(** Every answer is the result of a run.  What a caller of an operation is
    answered is what a run of that very operation on its key returned, or
    [StoreClosed] or [WorkerUnavailable]. *)
Theorem answers_come_from_runs (w0 : World) sys ch sub reply :
  0 < config_max_concurrent_operations config -> sys_reachable config w0 sys ->
  (ch, EvSubmission sub) ∈ sys_accepted sys -> (ch, reply) ∈ sent (sys_scheduler sys) ->
  (ch, reply) = deliver_error (sub_operation sub) StoreClosed \/
  (ch, reply) = deliver_error (sub_operation sub) WorkerUnavailable \/
  exists fin o r, (blake3_to_hex (sub_key_hash sub), sub_operation sub, fin) ∈ sys_history sys /\
    fin_outcome fin = Some (o, r) /\ deliver o r = Some (ch, reply).
Proof. intros Hmax Hr Hin Hs. exact (answer_justified w0 sys ch _ reply Hmax Hr Hin Hs). Qed.

(** Every run can be answered.  An operation that owns the ends of its streams
    ends with a result that [deliver] sends to the channel of its caller. *)
Theorem every_run_is_deliverable fuel path op (w : World) fin w' :
  owns_ends op = true -> run_owned_operation fuel config path op w = inr (fin, w') ->
  exists o r reply, fin_outcome fin = Some (o, r) /\ deliver o r = Some (op_sender op, reply).
Proof.
  intros Ho E. destruct (run_owned_operation_matching _ _ _ _ _ _ _ E) as [H1 H2].
  destruct (fin_outcome fin) as [[o r]|] eqn:Ef; [|by destruct (H1 Ho)].
  destruct (H2 o r eq_refl) as [Hm Hs]. unfold matching in Hm.
  destruct (deliver o r) as [[ch reply]|] eqn:Ed; [|done].
  exists o, r, reply. rewrite <-Hs. split; [done|]. by rewrite <-(deliver_sender _ _ _ _ Ed).
Qed.

End Runs.
End System.

(** ** On Unix *)

Section Unix.
Context {Crc : Crc32c} {CrcL : Crc32cLaws} {Tgt : Target} {Awf : AtomicWriteFile}
  {AwfL : AtomicWriteFileLaws} {Rx : Rustix} {RxL : RustixLaws}
  {B3 : Blake3} {B3L : Blake3Laws} {Order : HashMapOrder} {OrderL : HashMapOrderLaws}.
Context (config : StoreConfig).

(** A worker uses the path of its caller's key.  The job of an accepted call
    runs on [blob_path] of a canonical key, which is one file below the
    namespace. *)
Theorem jobs_use_the_canonical_path st i k op :
  0 < config_max_concurrent_operations config -> valid_config config -> reachable config st ->
  channel (worker_pool (st_scheduler st)) !! i = Some (OperationJob k op) ->
  exists canonical_key, k = key_hash canonical_key /\
    path_join (namespace config) (blake3_to_hex k ++ filename_suffix (format config)) =
      blob_path canonical_key (st_engine st) /\
    components (blob_path canonical_key (st_engine st)) =
      components (namespace config) ++ [Normal (blob_filename (format config) canonical_key)].
Proof.
  intros Hmax Hc Hr Hj. pose proof (reachable_sound config st Hmax Hr) as Hs.
  destruct (job_accepted config st i k op Hs Hj) as (sub & Hin & <- & _ & Hk & _).
  pose proof (calls_named _ _ _ _ _ _ (sound_calls _ _ Hs)) as Hn. rewrite Forall_forall in Hn.
  destruct (Hn _ Hin) as [_ Hkey]. destruct (Hkey sub eq_refl) as [Hends [key Ek]].
  exists key. unfold blob_path. rewrite (sound_config _ _ Hs). split_and!; [done| |].
  - unfold blob_filename. by rewrite Ek.
  - rewrite Ek in Hk. apply (blob_file_components config); [done|by apply key_hex_name].
Qed.

End Unix.

(** ** Witnesses *)

Section Witnesses.

(** Calls and turns of the coordinator do not touch the world. *)
Lemma acts_system {Crc : Crc32c} {Tgt : Target} {Bk : Backend} {BkS : BackendSteps} config w0 l st st' (w : World) ts h :
  forallb (fun a => match a with Act_job _ _ => false | _ => true end) l = true ->
  sys_reachable config w0 (Build_System st w ts h) -> acts l st = Some st' ->
  sys_reachable config w0 (Build_System st' w ts h).
Proof.
  revert st; induction l as [|a l IH]; intros st Hl Hr E; cbn in Hl, E; [by simplify_eq|].
  destruct (act a st) as [st1|] eqn:Ea; [|done]. apply andb_true_iff in Hl as [Ha Hl].
  eapply IH; [done| |exact E]. eapply sys_next; [exact Hr|]. destruct a as [c| |]; [| |done].
  - by apply sys_external, (act_call c).
  - by apply sys_worked, sys_turn, act_turn.
Qed.

Abbreviation start := (fixture_world full_store []).

Definition save_op : Operation := Save (bstr "xyz") 0.

(** One call, dispatched: [Save] of three bytes under the key [a]. *)
Definition sys_dispatched : State := after [Act_call (CallSave key_a (bstr "xyz")); Act_turn].
Definition sys_completed : State :=
  after [Act_call (CallSave key_a (bstr "xyz")); Act_turn; Act_job 0 (RSave (Ok tt))].
Definition sys_answered : State :=
  after [Act_call (CallSave key_a (bstr "xyz")); Act_turn; Act_job 0 (RSave (Ok tt)); Act_turn].

Lemma sys_dispatched_reachable :
  sys_reachable fixture_config start (Build_System sys_dispatched start [] []).
Proof.
  apply (acts_system _ _ [Act_call (CallSave key_a (bstr "xyz")); Act_turn] fixture_start); [done| |by vm_compute].
  by apply (sys_open _ _ []).
Qed.

(** The save runs, whatever it does to the world. *)
(** The save runs alone. *)
Definition save_run : World + (Finished * World) :=
  run_owned_operation 1 fixture_config (key_file fixture_config (blake3_to_hex (key_hash key_a))) save_op start.

Definition saved_world : World := match save_run with inl w | inr (_, w) => w end.

Lemma sys_run :
  exists fin, rtc sys_work (Build_System sys_dispatched start [] [])
      (Build_System sys_completed saved_world [] [(blake3_to_hex (key_hash key_a), save_op, fin)]) /\
    fin_outcome fin = Some (save_op, RSave (Ok tt)).
Proof.
  assert (Hf : run_outcome save_run = Some (save_op, RSave (Ok tt))) by by vm_compute.
  unfold saved_world. destruct save_run as [w'|[fin w']] eqn:E; [done|]. cbn [run_outcome] in Hf.
  exists fin. split; [|done].
  pose proof (job_runs fixture_config 1 sys_dispatched start [] [] 0 (key_hash key_a) save_op fin w'
    ltac:(by vm_compute) ltac:(by vm_compute) ltac:(by intros H%not_elem_of_nil) E) as H.
  unfold operation_completion in H. rewrite Hf in H.
  assert (Es : complete_job 0 (OperationJob (key_hash key_a) save_op)
    (EvCompletion {| comp_key_hash := key_hash key_a; comp_outcome := Some (save_op, RSave (Ok tt)) |})
    sys_dispatched = sys_completed) by by vm_compute.
  by rewrite Es in H.
Qed.

Lemma sys_run_reachable :
  exists fin, sys_reachable fixture_config start
      (Build_System sys_completed saved_world [] [(blake3_to_hex (key_hash key_a), save_op, fin)]) /\
    fin_outcome fin = Some (save_op, RSave (Ok tt)).
Proof.
  destruct sys_run as (fin & Hs & Hf). exists fin. split; [|done].
  exact (work_reachable _ _ _ _ sys_dispatched_reachable Hs).
Qed.

Lemma answers_come_from_runs_witness :
  exists fin, fin_outcome fin = Some (save_op, RSave (Ok tt)) /\
    ((0, ReplyUnit (Ok tt)) = deliver_error save_op StoreClosed \/
     (0, ReplyUnit (Ok tt)) = deliver_error save_op WorkerUnavailable \/
     exists fin' o r, (blake3_to_hex (key_hash key_a), save_op, fin') ∈
         [(blake3_to_hex (key_hash key_a), save_op, fin)] /\
       fin_outcome fin' = Some (o, r) /\ deliver o r = Some (0, ReplyUnit (Ok tt))).
Proof.
  destruct sys_run_reachable as (fin & Hr & Hf). exists fin. split; [done|].
  apply (answers_come_from_runs fixture_config start
    (Build_System sys_answered saved_world [] [(blake3_to_hex (key_hash key_a), save_op, fin)]) 0
    {| sub_key_hash := key_hash key_a; sub_operation := save_op |} (ReplyUnit (Ok tt))); [done|..].
  - by apply (acts_system _ _ [Act_turn] sys_completed); [|exact Hr|vm_compute].
  - left.
  - left.
Defined.

Lemma jobs_use_the_canonical_path_witness :
  exists canonical_key, key_hash key_a = key_hash canonical_key /\
    path_join (namespace fixture_config)
      (blake3_to_hex (key_hash key_a) ++ filename_suffix (format fixture_config)) =
      blob_path canonical_key (st_engine sys_dispatched).
Proof.
  destruct (jobs_use_the_canonical_path fixture_config sys_dispatched 0 (key_hash key_a) save_op)
    as (k & H1 & H2 & _); [done|apply fixture_valid_config|apply after_reachable|by vm_compute|].
  by exists k.
Defined.

Lemma every_run_is_deliverable_witness :
  match run_owned_operation 1 fixture_config (blob_file fixture_config zero_hex) (Load 7) start with
  | inr (fin, _) => exists o r reply, fin_outcome fin = Some (o, r) /\ deliver o r = Some (7, reply)
  | inl _ => False
  end.
Proof.
  assert (Hf : run_outcome (run_owned_operation 1 fixture_config (blob_file fixture_config zero_hex) (Load 7) start)
    <> None) by by vm_compute.
  destruct (run_owned_operation _ _ _ _ _) as [w'|[fin w']] eqn:E; [done|].
  by apply (every_run_is_deliverable fixture_config 1 (blob_file fixture_config zero_hex) (Load 7) start fin w').
Defined.

End Witnesses.
