(* ===== verification/Liveness.v ===== *)
(** * The store comes to rest

    The threads of a store can take only finitely many steps by themselves,
    whatever the environment plans in between.  When they have none left, every
    accepted call was answered exactly once, unless a worker still looks for a
    free name.  The measure is lexicographic: the work of the coordinator, the
    jobs that no worker received, and the calls that the workers have still to
    make. *)
From S2P Require Export System.

Local Open Scope N_scope.
Local Open Scope blob_scope.

Section Liveness.
Context {Crc : Crc32c} {Tgt : Target} {Bk : Backend} {BkS : BackendSteps}
  {B3 : Blake3} {B3L : Blake3Laws} {Order : HashMapOrder} {OrderL : HashMapOrderLaws}.
Context (config : StoreConfig) (w0 : World).
Context (Hmax : 0 < config_max_concurrent_operations config).

(** A step of the store after whatever the environment planned. *)
Definition proceeds (sys sys' : System) : Prop := exists mid, rtc replans sys mid /\ sys_work mid sys'.

Lemma proceeds_reachable sys sys' :
  sys_reachable config w0 sys -> proceeds sys sys' -> sys_reachable config w0 sys'.
Proof.
  intros Hr (mid & Hp & Hw). eapply sys_next, (sys_worked _ _ Hw).
  induction Hp as [|sys sys1 mid Hp _ IH]; [done|]. apply IH; [|done]. by eapply sys_next, sys_replanned.
Qed.

Lemma all_reachable sys sys' :
  sys_reachable config w0 sys -> rtc proceeds sys sys' -> sys_reachable config w0 sys'.
Proof. intros Hr Hs. induction Hs as [|sys sys1 sys2 Hp _ IH]; [done|]. apply IH. by eapply proceeds_reachable. Qed.

Lemma replanned_same sys mid :
  rtc replans sys mid -> sys_state mid = sys_state sys /\ sys_threads mid = sys_threads sys.
Proof. induction 1 as [|? sys1 ? [] _ IH]; [done|]. exact IH. Qed.

Lemma sound_reachable sys : sys_reachable config w0 sys -> Sound config (sys_state sys).
Proof. intros Hr. by apply reachable_sound, (sys_reachable_engine _ w0). Qed.

(** ** The calls of the threads end *)

(** A thread makes a call, in some world. *)
Inductive shrinks : list Thread -> list Thread -> Prop :=
| shrinks_call ts j t call w :
    ts !! j = Some t -> th_program t = Step call -> shrinks ts (<[j := with_program (call w).1 t]> ts).

Lemma shrinks_cons t ts : sn shrinks ts -> sn shrinks (t :: ts).
Proof.
  destruct t as [k op p]. revert ts; induction p as [a|call IH] using prog_induction; intros ts Hts;
    induction Hts as [ts Hts IHts]; constructor; intros ts' H;
    inversion H as [? [|j] t f w Hj Ep E]; simplify_eq/=.
  - apply IHts. by eapply shrinks_call.
  - apply IH. by constructor.
  - apply IHts. by eapply shrinks_call.
Qed.

Lemma shrinks_sn ts : sn shrinks ts.
Proof.
  induction ts as [|t ts IH]; [|by apply shrinks_cons]. constructor. intros ts' H.
  by inversion H.
Qed.

(** ** The store comes to rest *)

(** The jobs that no thread received. *)
Definition unbegun (sys : System) : nat :=
  (length (channel (worker_pool (sys_scheduler sys))) - length (sys_threads sys))%nat.

Lemma placed_length sys :
  Placed sys -> (length (sys_threads sys) <= length (channel (worker_pool (sys_scheduler sys))))%nat.
Proof.
  intros [Hn Hj]. rewrite <-(length_map th_job). apply submseteq_length, NoDup_submseteq.
  - apply (NoDup_fmap_1 (fun j => match j with OperationJob k _ => Some k | MaintenanceJob _ => None end)).
    change (@fmap list _) with (@map). rewrite map_map. rewrite <-(map_map th_key Some).
    by apply (NoDup_fmap_2 Some).
  - intros j (t & -> & Ht)%list_elem_of_fmap. by apply (proj1 (Forall_forall _ _) Hj).
Qed.

(** What a step does to the measure. *)
Inductive progresses (sys sys' : System) : Prop :=
| progress_work : (state_work (sys_state sys') < state_work (sys_state sys))%nat -> progresses sys sys'
| progress_begin : sys_state sys' = sys_state sys -> (unbegun sys' < unbegun sys)%nat -> progresses sys sys'
| progress_call : sys_state sys' = sys_state sys -> unbegun sys' = unbegun sys ->
    shrinks (sys_threads sys) (sys_threads sys') -> progresses sys sys'.

Lemma work_progresses sys sys' :
  sys_reachable config w0 sys -> sys_work sys sys' -> progresses sys sys'.
Proof.
  intros Hr Hw. pose proof (sound_reachable _ Hr) as Hs.
  pose proof (sys_placed config w0 _ Hmax (sys_next _ _ _ _ Hr (sys_worked _ _ Hw))) as Hp.
  apply placed_length in Hp.
  destruct Hw as [st st' w ts h Hc|fuel st w ts h i k op Hi Hn|st w ts h j t call p w' Hj Ep Ec
    |st w ts h i j t fin Hj Ep Hi|st w ts h i sub r w' Hi E].
  - apply progress_work. cbn. by eapply internal_work, internal_turn.
  - apply progress_begin; [done|]. unfold unbegun, sys_scheduler in *. cbn in *. rewrite length_app in *. cbn in *. lia.
  - apply progress_call; [done| |].
    + unfold unbegun. cbn. by rewrite length_insert.
    + cbn. replace p with (call w).1 by by rewrite Ec. by apply shrinks_call.
  - apply progress_work. by apply (job_work i (th_job t)).
  - apply progress_work. by apply (job_work i (MaintenanceJob sub)).
Qed.

Lemma comes_to_rest n m ts st (w : World) h :
  state_work st = n -> unbegun (Build_System st w ts h) = m ->
  sys_reachable config w0 (Build_System st w ts h) -> sn proceeds (Build_System st w ts h).
Proof.
  revert m ts st w h; induction n as [n IHn] using lt_wf_ind.
  induction m as [m IHm] using lt_wf_ind. intros ts.
  induction (shrinks_sn ts) as [ts _ IHts]. intros st w h En Em Hr. constructor. intros sys' Hp.
  pose proof (proceeds_reachable _ _ Hr Hp) as Hr'. destruct Hp as (mid & Hre & Hw).
  destruct (replanned_same _ _ Hre) as [Es Et]. destruct mid as [st1 w1 ts1 h1]. cbn in Es, Et. subst st1 ts1.
  assert (Hrm : sys_reachable config w0 (Build_System st w1 ts h1)).
  { clear -Hr Hre. induction Hre as [|sys sys1 mid Hp _ IH]; [done|]. apply IH. by eapply sys_next, sys_replanned. }
  destruct sys' as [st' w' ts' h']. destruct (work_progresses _ _ Hrm Hw) as [H|Es H|Es Eu H]; cbn in *; subst.
  - by eapply IHn.
  - by eapply IHm.
  - by apply IHts.
Qed.

(** Nobody loses an answer: the workers do not die. *)
Lemma nothing_dropped sys : sys_reachable config w0 sys -> st_dropped (sys_state sys) = [].
Proof.
  induction 1 as [spawns e E|sys sys' Hr IH Hst]; [done|]. pose proof (sound_reachable _ Hr) as Hs.
  pose proof (sys_matching _ _ _ Hr) as Hm.
  destruct Hst as [? ? [st st' w ts h Hc| | |st w ts h i j t fin Hj Ep Hi|st w ts h i sub r w' Hi E]
    |st st' w ts h He|? ? []]; cbn in *; try done.
  - by destruct Hc.
  - rewrite IH. cbn. destruct (job_accepted _ _ _ _ _ Hs Hi) as (_ & _ & _ & _ & _ & Ho).
    destruct (done_matching w t fin) as [Hf _]; [by eapply (proj1 (Forall_lookup _ _) Hm)|done|].
    unfold job_dropped, operation_completion. cbn. by destruct (fin_outcome fin) as [[]|]; [|destruct (Hf Ho)].
  - by rewrite IH.
  - by destruct He.
Qed.

(** A thread that has no call left and did not find a name. *)
Definition still_seeking (t : Thread) : Prop :=
  th_program t = Done None /\ seeks_a_name (th_operation t) = true.

(** Nothing can happen without a caller. *)
Definition at_rest (sys : System) : Prop := forall sys', ~ sys_work sys sys'.

Lemma rest_threads sys :
  sys_reachable config w0 sys -> at_rest sys -> Forall still_seeking (sys_threads sys).
Proof.
  intros Hr Hrest. apply Forall_forall. intros t Ht. pose proof (sys_placed _ _ _ Hmax Hr) as Hp.
  pose proof (placed_job _ _ Hp Ht) as Hi. apply list_elem_of_lookup in Hi as [i Hi].
  pose proof (proj1 (Forall_forall _ _) (sys_matching _ _ _ Hr) t Ht (sys_world sys)) as Hm.
  apply list_elem_of_lookup in Ht as [j Hj]. destruct sys as [st w ts h]. cbn in *. unfold still_seeking.
  destruct (th_program t) as [[fin|]|call] eqn:Ep; [|done|]; exfalso.
  - eapply Hrest. by eapply sys_finish.
  - destruct (call w) as [p w'] eqn:Ec. eapply Hrest. by eapply sys_call.
Qed.

Lemma rest_jobs sys :
  at_rest sys -> sys_threads sys = [] -> channel (worker_pool (sys_scheduler sys)) = [].
Proof.
  destruct sys as [st w ts h]. unfold sys_scheduler. cbn. intros Hrest ->.
  destruct (channel (worker_pool (st_scheduler st))) as [|[k op|sub] jobs] eqn:Ech; [done|exfalso..].
  - apply (Hrest _ (sys_begin 0 st w [] h 0 k op ltac:(by rewrite Ech) ltac:(by intros H%not_elem_of_nil))).
  - destruct (maintenance_job (eng_config (st_engine st)) sub w) as [r w'] eqn:E.
    apply (Hrest _ (sys_maintenance st w [] h 0 sub r w' ltac:(by rewrite Ech) E)).
Qed.

Lemma rest_owed sys :
  sys_reachable config w0 sys -> at_rest sys -> sys_threads sys = [] -> owed (sys_scheduler sys) = [].
Proof.
  intros Hr Hrest Et. pose proof (rest_jobs _ Hrest Et) as Ech.
  destruct (owed (sys_scheduler sys)) as [|ch l] eqn:E; [done|exfalso].
  destruct (coordinates_progress config (sys_state sys) Hmax (sound_reachable _ Hr) Ech) as [st' Hc].
  - unfold sys_scheduler in E. by rewrite E.
  - destruct sys as [st w ts h]. by apply (Hrest _ (sys_turn _ _ w ts h Hc)).
Qed.

Lemma proceeds_accepted sys sys' : proceeds sys sys' -> sys_accepted sys' = sys_accepted sys.
Proof.
  intros (mid & Hre & Hw). apply replanned_same in Hre as [Es _]. unfold sys_accepted. rewrite <-Es.
  destruct Hw as [st st' w ts h []| | | |]; done.
Qed.

(** C3: the store answers every call.  Without further calls, the threads take
    only finitely many steps, whatever failures and entropy the environment plans
    between them.  When no step is left, no worker has a system call to make, and
    either some worker tried as many names as it was given and found them taken,
    in a save, clear or quarantine, or every call that was accepted has been
    answered, exactly once. *)
Theorem store_answers_every_call sys :
  sys_reachable config w0 sys ->
  sn proceeds sys /\
  forall sys', rtc proceeds sys sys' -> at_rest sys' ->
    Forall still_seeking (sys_threads sys') /\
    (sys_threads sys' = [] -> forall ch, ch ∈ map fst (sys_accepted sys) ->
       cnt ch (map fst (sent (sys_scheduler sys'))) = 1%nat).
Proof.
  intros Hr. split; [by destruct sys; eapply comes_to_rest|]. intros sys' Hs Hrest.
  pose proof (all_reachable _ _ Hr Hs) as Hr'. split; [by apply rest_threads|]. intros Et ch Hch.
  assert (Ea : sys_accepted sys' = sys_accepted sys).
  { clear -Hs. induction Hs as [|sys sys1 sys2 Hp _ IH]; [done|]. by rewrite IH, (proceeds_accepted _ _ Hp). }
  pose proof (calls_accounted config (sys_state sys') ch (sound_reachable _ Hr')) as Hc.
  rewrite (nothing_dropped _ Hr') in Hc. unfold sys_accepted in Ea, Hch. rewrite Ea, decide_True in Hc by done.
  pose proof (rest_owed _ Hr' Hrest Et) as Ho. unfold sys_scheduler in *. rewrite Ho, !cnt_nil in Hc. lia.
Qed.

End Liveness.

(** ** Witness *)

Section Witnesses.

(** A pool without jobs, a coordinator without events and no threads. *)
Lemma rests {Crc : Crc32c} {Tgt : Target} {Bk : Backend} {BkS : BackendSteps} {B3 : Blake3}
    {Order : HashMapOrder} st (w : World) h :
  channel (worker_pool (st_scheduler st)) = [] -> receiver (st_scheduler st) = [] ->
  at_rest (Build_System st w [] h).
Proof.
  intros Ech Er sys' Hw.
  inversion Hw as [? st' ? ? ? Hc| | | |]; simplify_eq/=; try (rewrite Ech in *; done).
  destruct Hc; by rewrite Er in *.
Qed.

Lemma work_proceeds {Crc : Crc32c} {Tgt : Target} {Bk : Backend} {BkS : BackendSteps} {B3 : Blake3}
    {Order : HashMapOrder} sys sys' :
  rtc sys_work sys sys' -> rtc proceeds sys sys'.
Proof. apply rtc_subrel. intros s1 s2 Hw. by exists s1. Qed.

(** The save runs, its completion is taken up, and its caller is answered. *)
Lemma store_answers_every_call_witness :
  exists w' h, rtc proceeds (Build_System sys_dispatched (fixture_world full_store []) [] [])
      (Build_System sys_answered w' [] h) /\
    cnt 0 (map fst (sent (st_scheduler sys_answered))) = 1%nat.
Proof.
  destruct sys_run as (fin & Hs & _). exists saved_world, [(blake3_to_hex (key_hash key_a), save_op, fin)].
  assert (Hp : rtc proceeds (Build_System sys_dispatched (fixture_world full_store []) [] [])
    (Build_System sys_answered saved_world [] [(blake3_to_hex (key_hash key_a), save_op, fin)])).
  { apply work_proceeds. etrans; [exact Hs|]. apply rtc_once, sys_turn.
    apply act_turn. by vm_compute. }
  split; [exact Hp|].
  destruct (store_answers_every_call fixture_config (fixture_world full_store []) ltac:(done) _
    sys_dispatched_reachable) as [_ H].
  apply (H _ Hp); [apply rests; by vm_compute|done|]. vm_compute. left.
Defined.

End Witnesses.
