(* ===== verification/SystemRefinement.v ===== *)
(** * The store as a map, with operations in flight

    While threads are in the middle of their operations, the entry of each key is
    the one that the operations which ended left, or one that the operation in
    flight on the key may show ([moment]).  The history of the operations that
    ended is one of the abstract map, for any interleaving of the calls and on any
    backend of [BackendInterference]. *)
From S2P Require Export System.

Local Open Scope N_scope.
Local Open Scope blob_scope.

Section Refinement.
Context {Crc : Crc32c} {CrcL : Crc32cLaws} {Tgt : Target} {Bk : Backend} {BkL : BackendLaws}
  {BkS : BackendSteps} {BkI : BackendInterference}
  {B3 : Blake3} {B3L : Blake3Laws} {Order : HashMapOrder} {OrderL : HashMapOrderLaws}.
Context (config : StoreConfig) (Hc : backend_fit config) (Hfits : fits_usize (maximum config))
  (Hmax : 0 < config_max_concurrent_operations config).

(** ** Histories *)

Lemma abstract_runs_snoc a t a1 h o fin a2 :
  abstract_runs config a t a1 ->
  (forall o' r, fin_outcome fin = Some (o', r) -> abstract_step config o r (a1 h) (a2 h)) ->
  (forall h', hex_name h' -> h' <> h -> a2 h' = a1 h') -> hex_name h ->
  abstract_runs config a (t ++ [(h, o, fin)]) a2.
Proof.
  intros Hr Hs Ho Hh. induction Hr as [a a1 E|a h1 o1 fin1 a1 t a2' H1 H2 _ IH]; cbn.
  - apply (abstract_cons _ _ _ _ _ a2); [| |by constructor].
    + intros o' r Ef. rewrite E by done. by apply Hs with (o' := o').
    + intros h' Hh' Hne. by rewrite E, Ho.
  - apply (abstract_cons _ _ _ _ _ a1); [done|done|]. by apply IH.
Qed.

(** [a] with the entry of [h] replaced. *)
Definition set_entry (h : bytes) (e : entry) (a : bytes -> entry) : bytes -> entry :=
  fun h' => if decide (h' = h) then e else a h'.

(** ** Operations in flight *)

Abbreviation others h := (others_act config (own config) h).
Abbreviation keeps h := (keeps_to_itself config (own config) h).

(** The thread is at a moment of its operation on the entry [e], and what it has
    still to do ends in a step on [e]. *)
Definition in_flight_on (e : entry) (t : Thread) (w : World) : Prop :=
  moment config (th_operation t) e (view config w (th_name t)) /\
  safe (others (th_name t)) (keeps (th_name t) (th_operation t) e) (th_program t)
    (finishes_in_step config (th_name t) (th_operation t) e) w.

Lemma in_flight_others e t w w1 :
  in_flight_on e t w -> others (th_name t) w w1 -> in_flight_on e t w1.
Proof.
  intros [Hm Hs] Ho. assert (He : forall w w1, others (th_name t) w w1 ->
    view config w1 (th_name t) = view config w (th_name t)).
  { intros w2 w3. apply others_act_entry, own_key_file. }
  split; [by rewrite (He w w1)|]. eapply safe_rely; [|intros fin w2 w3 H|exact Ho|exact Hs].
  - intros w2 w3 w4. apply others_act_trans.
  - intros Hf f o' r E1 E2. specialize (Hf f o' r E1 E2). unfold ends_in_step in *.
    by rewrite (others_act_entry config (own config) _ _ _ (own_key_file _ _) H).
Qed.

(** A call of the thread. *)
Lemma in_flight_call e t w call p w' :
  sound_world config w -> in_flight_on e t w -> th_program t = Step call -> call w = (p, w') ->
  keeps (th_name t) (th_operation t) e w w' /\ in_flight_on e (with_program p t) w'.
Proof.
  intros Hw [_ Hs] Ep Ec. rewrite Ep in Hs. specialize (Hs w (others_act_refl config _ _ _ Hw)).
  rewrite Ec in Hs. destruct Hs as [Hk Hs]. split; [done|]. split; [|done].
  by destruct (passes_last _ _ _ Hk) as [_ Hm].
Qed.

(** What the thread of another key sees of it. *)
Lemma keeps_others h h' o e (w w' : World) :
  sound_world config w -> keeps h o e w w' -> hex_name h' -> h' <> h -> others h' w w'.
Proof.
  intros Hw Hk Hh Hne. split; [by eapply keeps_sound|]. intros p Hp.
  destruct (passes_last _ _ _ Hk) as [[_ Ho] _]. by apply (Ho h').
Qed.

(** ** The invariant *)

Abbreviation names ts := (map th_name ts).

(** [a] is what the operations that ended left. *)
Record Simulates (w0 : World) (a : bytes -> entry) (sys : System) : Prop := {
  sim_sound : sound_world config (sys_world sys);
  sim_runs : abstract_runs config (view config w0) (sys_history sys) a;
  sim_rest h : hex_name h -> h ∉ names (sys_threads sys) -> view config (sys_world sys) h = a h;
  sim_threads : Forall (fun t => in_flight_on (a (th_name t)) t (sys_world sys)) (sys_threads sys);
}.

Lemma thread_name sys t :
  Sound config (sys_state sys) -> Placed sys -> t ∈ sys_threads sys -> hex_name (th_name t).
Proof.
  intros Hs Hp Ht. apply key_hex_name. pose proof (placed_job _ _ Hp Ht) as Hj.
  apply list_elem_of_lookup in Hj as [i Hi]. by destruct (job_accepted _ _ _ _ _ Hs Hi) as (_ & _ & _ & _ & Hk & _).
Qed.

(** The threads work on different files. *)
Lemma names_nodup sys : Sound config (sys_state sys) -> Placed sys -> NoDup (names (sys_threads sys)).
Proof.
  intros Hs Hp. assert (Hk : Forall (fun k => length k = 32%nat) (map th_key (sys_threads sys))).
  { apply Forall_fmap, Forall_forall. intros t Ht. cbn. pose proof (placed_job _ _ Hp Ht) as Hj.
    apply list_elem_of_lookup in Hj as [i Hi]. by destruct (job_accepted _ _ _ _ _ Hs Hi) as (_ & _ & _ & _ & Hk & _). }
  pose proof (placed_keys _ Hp) as Hn.
  replace (names (sys_threads sys)) with (map blake3_to_hex (map th_key (sys_threads sys))) by by rewrite map_map.
  induction Hn as [|k ks Hk' Hn IH]; [apply NoDup_nil_2|].
  apply Forall_cons in Hk as [Hl Hks]. cbn. apply NoDup_cons. split; [|by apply IH].
  intros (k2 & E & H2)%list_elem_of_fmap. apply Hk'. rewrite Forall_forall in Hks.
  by rewrite (blake3_hex_inj k k2 Hl (Hks k2 H2) E).
Qed.

(** A world that differs in what is not an entry. *)
Lemma sim_world w0 a st w w' ts h :
  Simulates w0 a (Build_System st w ts h) -> sound_world config w' ->
  (forall n, n ∈ names ts -> others n w w') -> (forall n, hex_name n -> view config w' n = view config w n) ->
  Simulates w0 a (Build_System st w' ts h).
Proof.
  intros [S1 S2 S3 S4] Hw Ho Hv. split; cbn in *; try done.
  - intros n Hn Hin. by rewrite Hv, S3.
  - apply Forall_forall. intros t Ht. rewrite Forall_forall in S4.
    eapply in_flight_others; [by apply S4|]. apply Ho. apply list_elem_of_fmap. by exists t.
Qed.

Lemma sim_state w0 a st st' w ts h :
  Simulates w0 a (Build_System st w ts h) -> Simulates w0 a (Build_System st' w ts h).
Proof. by intros []. Qed.

(** A thread with an operation on a key of no other thread. *)
Lemma sim_begin w0 a fuel st w ts h k op :
  Simulates w0 a (Build_System st w ts h) -> hex_name (blake3_to_hex k) -> blake3_to_hex k ∉ names ts ->
  Simulates w0 a (Build_System st w (ts ++ [Build_Thread k op (operation_job fuel config k op)]) h).
Proof.
  intros [S1 S2 S3 S4] Hh Hn. split; cbn [sys_world sys_threads sys_history] in *; try done.
  - intros n Hx. rewrite map_app, elem_of_app. intros Hin. apply S3; [done|tauto].
  - apply Forall_app. split; [done|]. constructor; [|done].
    unfold th_name. cbn [th_key]. rewrite <-(S3 _ Hh Hn).
    split; [apply moment_refl|]. exact (operation_steps_safe config _ Hc Hh Hfits fuel op w S1).
Qed.

Lemma sim_call w0 a st w ts h j t call p w' :
  Simulates w0 a (Build_System st w ts h) -> Forall hex_name (names ts) -> NoDup (names ts) ->
  ts !! j = Some t -> th_program t = Step call -> call w = (p, w') ->
  Simulates w0 a (Build_System st w' (<[j := with_program p t]> ts) h).
Proof.
  intros [S1 S2 S3 S4] Hh Hn Hj Ep Ec. cbn [sys_world sys_threads sys_history] in *.
  pose proof (proj1 (Forall_lookup _ _) S4 j t Hj) as Ht.
  destruct (in_flight_call _ t w call p w' S1 Ht Ep Ec) as [Hk Ht'].
  assert (Ho : forall n, hex_name n -> n <> th_name t -> others n w w') by (intros; by eapply keeps_others).
  split; cbn [sys_world sys_threads sys_history]; try done.
  - by eapply keeps_sound.
  - rewrite (map_with_program th_name _ _ t) by done. intros n Hx Hin.
    rewrite <-S3 by done. apply (others_act_entry config (own config)); [apply own_key_file|apply Ho; [done|]].
    intros ->. apply Hin, list_elem_of_fmap. exists t. split; [done|]. by eapply list_elem_of_lookup_2.
  - apply Forall_lookup. intros m u Hm. destruct (decide (m = j)) as [->|Hne].
    { rewrite list_lookup_insert_eq in Hm by by eapply lookup_lt_Some. by simplify_eq. }
    rewrite list_lookup_insert_ne in Hm by done. eapply in_flight_others; [by apply (proj1 (Forall_lookup _ _) S4 m)|].
    assert (Hu : names ts !! m = Some (th_name u)) by (rewrite list_lookup_fmap; by rewrite Hm).
    apply Ho; [by apply (proj1 (Forall_lookup _ _) Hh m)|]. intros E. apply Hne.
    apply (NoDup_lookup _ m j (th_name u) Hn); [done|]. by rewrite E, list_lookup_fmap, Hj.
Qed.

Lemma sim_finish w0 a st st' w ts h j t fin :
  Simulates w0 a (Build_System st w ts h) -> Forall hex_name (names ts) -> NoDup (names ts) ->
  ts !! j = Some t -> th_program t = Done (Some fin) ->
  Simulates w0 (set_entry (th_name t) (view config w (th_name t)) a)
    (Build_System st' w (delete j ts) (h ++ [(th_name t, th_operation t, fin)])).
Proof.
  intros [S1 S2 S3 S4] Hh Hn Hj Ep. unfold set_entry.
  cbn [sys_world sys_threads sys_history] in *. pose proof (proj1 (Forall_lookup _ _) S4 j t Hj) as [_ Ht].
  rewrite Ep in Ht. cbn in Ht.
  assert (Hdel : forall u, u ∈ delete j ts -> u ∈ ts /\ th_name u <> th_name t).
  { intros u. by apply (deleted_key th_name). }
  split; cbn [sys_world sys_threads sys_history]; try done.
  - eapply (abstract_runs_snoc _ _ _ (th_name t)); [exact S2| | |].
    + rewrite decide_True by done. intros o r Ef. by apply (Ht fin o r).
    + intros n _ Hne. by rewrite decide_False.
    + rewrite Forall_fmap, Forall_lookup in Hh. by apply (Hh j t).
  - intros n Hx Hin. case_decide as E; [by rewrite E|]. apply S3; [done|]. intros (u & -> & Hu)%list_elem_of_fmap.
    apply Hin, list_elem_of_fmap. exists u. split; [done|].
    apply list_elem_of_lookup in Hu as [m Hm]. rewrite delete_take_drop.
    rewrite <-(take_drop_middle ts j t Hj) in Hm.
    apply list_elem_of_lookup_2 in Hm. apply elem_of_app in Hm as [Hm|[->|Hm]%elem_of_cons]; [|done|];
      apply elem_of_app; [by left|by right].
  - apply Forall_forall. intros u Hu. destruct (Hdel u Hu) as [Hin Hne]. rewrite decide_False by done.
    by apply (proj1 (Forall_forall _ _) S4).
Qed.

Lemma maintenance_has_no_threads st (w : World) ts h i sub :
  Sound config st -> Placed (Build_System st w ts h) ->
  channel (worker_pool (st_scheduler st)) !! i = Some (MaintenanceJob sub) -> ts = [].
Proof.
  intros Hs Hp Hi. destruct ts as [|t ts]; [done|exfalso]. apply list_elem_of_lookup_2 in Hi.
  destruct (maintenance_alone config _ _ (th_key t) (th_operation t) (job_of_live _ _ _ Hs Hi) Hi).
  apply (placed_job _ _ Hp). by left.
Qed.

(** A maintenance job, whether it cleans up or not. *)
Lemma maintenance_keeps sub (w : World) r w' :
  sound_world config w -> maintenance_job config sub w = (r, w') ->
  passes (same_entries config (w_fs w)) w w'.
Proof.
  intros Hw E. unfold maintenance_job, ret in E. destruct (maint_minimum_age sub) as [age|].
  - by eapply cleanup_keeps.
  - simplify_eq. apply passes_refl, same_entries_refl, Hw.
Qed.

(** ** Every step *)

Lemma sys_step_simulates w0 a sys sys' :
  Sound config (sys_state sys) -> Placed sys -> sys_step sys sys' -> Simulates w0 a sys ->
  exists a', Simulates w0 a' sys'.
Proof.
  intros Hs Hp Hst Ha. pose proof (names_nodup _ Hs Hp) as Hn.
  assert (Hh : Forall hex_name (names (sys_threads sys))).
  { apply Forall_fmap, Forall_forall. intros t. by apply thread_name. }
  pose proof (sound_config _ _ Hs) as Ec. pose proof (sim_sound _ _ _ Ha) as Hw.
  destruct Hst as [? ? [st st' w ts h Hco|fuel st w ts h i k op Hi Hnew
    |st w ts h j t call p w' Ht Ep Ew|st w ts h i j t fin Ht Ep Hi|st w ts h i sub r w' Hi E]
    |st st' w ts h He|? ? [st w w' ts h E1 E2 E3]]; cbn [sys_state sys_threads sys_world] in *.
  - exists a. by eapply sim_state.
  - exists a. rewrite Ec. destruct (job_accepted _ _ _ _ _ Hs Hi) as (_ & _ & _ & _ & Hk & _).
    apply sim_begin; [done|by apply key_hex_name|]. intros Hin.
    assert (Hnew' : Placed (Build_System st w (ts ++ [Build_Thread k op (operation_job fuel config k op)]) h)).
    { rewrite <-Ec. eapply sys_step_placed; [|by apply sys_worked, (sys_begin fuel st w ts h i)|]; done. }
    apply names_nodup in Hnew'; [|done]. cbn [sys_threads] in Hnew'. rewrite map_app in Hnew'.
    apply NoDup_app in Hnew' as (_ & Hd & _). apply (Hd _ Hin). by left.
  - exists a. by eapply sim_call.
  - eexists. by eapply sim_finish.
  - exists a. pose proof (maintenance_has_no_threads _ _ _ _ _ _ Hs Hp Hi) as Hnil.
    assert (Hk : sound_world config w' /\ forall n, hex_name n -> view config w' n = view config w n).
    { rewrite Ec in E. pose proof (maintenance_keeps _ _ _ _ Hw E) as Hpass.
      destruct (passes_last _ _ _ Hpass) as [Hpl Hv]. split; [by eapply passes_sound|done]. }
    destruct Hk as [Hw' Hv]. eapply sim_state, sim_world; [exact Ha|done| |done].
    rewrite Hnil. by intros n Hin%not_elem_of_nil.
  - exists a. by eapply sim_state.
  - exists a. assert (Hw' : sound_world config w') by (destruct Hw as [W1 W2 W3]; split; [auto|by rewrite E1|auto]).
    eapply sim_world; [exact Ha|done| |].
    + intros n _. split; [done|]. intros q _. by rewrite E1.
    + intros n _. unfold view. by rewrite E1.
Qed.

Lemma sys_simulates w0 sys :
  sound_world config w0 -> sys_reachable config w0 sys -> exists a, Simulates w0 a sys.
Proof.
  intros Hw. induction 1 as [spawns e E|sys sys' Hr IH Hs].
  - exists (view config w0). injection E as <-. split; [done|by constructor|done|by apply Forall_nil].
  - destruct IH as [a Ha]. eapply sys_step_simulates; [| |exact Hs|exact Ha].
    + by apply reachable_sound, (sys_reachable_engine _ w0).
    + by eapply sys_placed.
Qed.

(** ** What is promised *)

(** The operations that ended are a history of the abstract map that leads to
    [a].  A key at rest has its entry of [a]; a key with an operation in flight
    has one that the operation may show. *)
Definition refines_the_map (w0 : World) (a : bytes -> entry) (sys : System) : Prop :=
  sound_world config (sys_world sys) /\
  abstract_runs config (view config w0) (sys_history sys) a /\
  history_matches sys /\
  NoDup (names (sys_threads sys)) /\
  (forall h, hex_name h -> h ∉ names (sys_threads sys) -> view config (sys_world sys) h = a h) /\
  (forall t, t ∈ sys_threads sys -> moment config (th_operation t) (a (th_name t)) (view config (sys_world sys) (th_name t))).

Lemma sys_refines w0 sys :
  sound_world config w0 -> sys_reachable config w0 sys -> exists a, refines_the_map w0 a sys.
Proof.
  intros Hw Hr. destruct (sys_simulates w0 sys Hw Hr) as [a [S1 S2 S3 S4]]. exists a. split_and!; try done.
  - by eapply sys_history_matches.
  - apply names_nodup; [|by eapply sys_placed]. by apply reachable_sound, (sys_reachable_engine _ w0).
  - intros t Ht. by apply (proj1 (Forall_forall _ _) S4).
Qed.

(** *** What a caller can rely on *)

(** The operation published the payload [p]. *)
Definition publishes (o : Operation) (r : BlockingResult) (p : bytes) : Prop :=
  match o, r with
  | Save p' _, RSave (Ok _) => p = p'
  | SaveStream _ chunks _, RSaveStream (Ok _) => stream_payload chunks = Some p
  | _, _ => False
  end.

(** An answer to a reader of a blob with the payload [p]. *)
Definition answers_with (p : bytes) (r : BlockingResult) : Prop :=
  match r with
  | RLoad (Ok q) => q = Some p
  | RLoadStream (Ok m) => m = Some (metadata_of p)
  | RInspect (Ok i) => inspection_size i = Some (blen (envelope (format config) p))
  | _ => True
  end.

Definition reader (o : Operation) : Prop :=
  match o with Load _ | LoadStream _ _ _ | Inspect _ => True | _ => False end.

(** The run read the entry of its key, and did not die. *)
Definition reads (run : bytes * Operation * Finished) : Prop :=
  match run with
  | (_, o, fin) => reader o /\ fin_outcome fin <> None
  end.

Lemma envelope_inj f p p' : envelope f p = envelope f p' -> p = p'.
Proof.
  intros E. unfold envelope, header_of in E.
  assert (Hl : length p = length p').
  { apply (f_equal length) in E. rewrite !length_app, !length_be_bytes in E. lia. }
  unfold blen in E. rewrite Hl in E. apply app_inv_head in E.
  by apply app_inj_1 in E as [-> _].
Qed.

Lemma stores_inj a p p' : stores config a p -> stores config a p' -> p = p'.
Proof. intros [t ->] [t' E]. injection E as E _. by apply envelope_inj in E. Qed.

Lemma publishes_stores o r p a a' :
  abstract_step config o r a a' -> publishes o r p -> stores config a' p.
Proof.
  destruct o as [s|ac ack s|p' s|n ms s|s|s|s], r as [r|r|r|r|r|r|r]; try done; destruct r; try done.
  - by intros [H _] ->.
  - intros (p1 & E1 & _ & H & _) E2. by simplify_eq/=.
Qed.

(** Runs that read leave the entry alone, and answer with what it stores. *)
Lemma reads_keep h p a t a' :
  hex_name h -> abstract_runs config a t a' -> stores config (a h) p ->
  Forall (fun run => run.1.1 = h -> reads run) t ->
  stores config (a' h) p /\
  Forall (fun run => run.1.1 = h -> forall o r, fin_outcome run.2 = Some (o, r) -> answers_with p r) t.
Proof.
  intros Hh Hr. induction Hr as [a a' E|a h1 o fin a1 t a2 H1 H2 _ IH]; intros Hs Ht; [by rewrite <-E|].
  apply Forall_cons in Ht as [Hread Ht]. cbn in Hread.
  destruct (decide (h1 = h)) as [->|Hne].
  2:{ rewrite <-(H2 h) in Hs by done. destruct (IH Hs Ht). split; [done|]. by constructor. }
  destruct (Hread eq_refl) as [Ho Hf]. destruct (fin_outcome fin) as [[o' r]|] eqn:Ef; [|done].
  specialize (H1 o' r eq_refl).
  assert (Hk : a1 h = a h /\ answers_with p r).
  { destruct o as [s|ac ack s|p' s|n ms s|s|s|s], r as [r|r|r|r|r|r|r]; try done;
      destruct H1 as [-> H1]; (split; [done|]); destruct r as [r|]; cbn in *; try done.
    - destruct r as [q|]; [|by destruct Hs as [? ?]; simplify_eq]. by rewrite (stores_inj _ _ _ H1 Hs).
    - destruct r as [m|]; [|by destruct Hs as [? ?]; simplify_eq].
      destruct H1 as (q & Hq & ->). by rewrite (stores_inj _ _ _ Hq Hs).
    - destruct Hs as [t' Hs]. by rewrite Hs in H1. }
  destruct Hk as [Ek Hk]. rewrite <-Ek in Hs. destruct (IH Hs Ht) as [IH1 IH2]. split; [done|].
  constructor; [|done]. cbn. intros _ o2 r2 E2. by simplify_eq.
Qed.

Lemma abstract_runs_app a t1 t2 a' :
  abstract_runs config a (t1 ++ t2) a' ->
  exists a1, abstract_runs config a t1 a1 /\ abstract_runs config a1 t2 a'.
Proof.
  revert a; induction t1 as [|x t1 IH]; intros a Hr; [by exists a; split; [constructor|]|].
  inversion Hr as [|? h o fin a1 ? ? H1 H2 H3]; subst. destruct (IH _ H3) as (a2 & ? & ?).
  exists a2. split; [|done]. by econstructor.
Qed.

(** A run that published [p], and runs that read after it. *)
Lemma published_lasts a h o fin o' r p t1 t2 a' :
  hex_name h -> abstract_runs config a (t1 ++ (h, o, fin) :: t2) a' ->
  fin_outcome fin = Some (o', r) -> publishes o r p -> Forall (fun run => run.1.1 = h -> reads run) t2 ->
  stores config (a' h) p /\
  Forall (fun run => run.1.1 = h -> forall o r, fin_outcome run.2 = Some (o, r) -> answers_with p r) t2.
Proof.
  intros Hh Hr Ef Hp Ht. apply abstract_runs_app in Hr as (a1 & _ & Hr).
  inversion Hr as [|? ? ? ? a2 ? ? H1 H2 H3]; subst.
  eapply reads_keep; [done|exact H3| |done]. by eapply publishes_stores; [apply (H1 o' r)|].
Qed.

(** A key whose threads only read has the entry that the ended operations left. *)
Lemma reading_entry w0 a sys n :
  refines_the_map w0 a sys -> hex_name n ->
  Forall (fun t => th_name t = n -> reader (th_operation t)) (sys_threads sys) ->
  view config (sys_world sys) n = a n.
Proof.
  intros (_ & _ & _ & _ & Hrest & Hm) Hn Hths.
  destruct (decide (n ∈ names (sys_threads sys))) as [Hin|Hin]; [|by apply Hrest].
  apply list_elem_of_fmap in Hin as (t & -> & Hin). specialize (Hm t Hin).
  rewrite Forall_forall in Hths. specialize (Hths t Hin eq_refl).
  by destruct (th_operation t).
Qed.

Lemma sys_published_lasts w0 a sys key o fin o' r p t1 t2 :
  let n := blake3_to_hex (key_hash key) in
  refines_the_map w0 a sys -> sys_history sys = t1 ++ (n, o, fin) :: t2 ->
  fin_outcome fin = Some (o', r) -> publishes o r p -> Forall (fun run => run.1.1 = n -> reads run) t2 ->
  Forall (fun t => th_name t = n -> reader (th_operation t)) (sys_threads sys) ->
  stores config (view config (sys_world sys) n) p /\
  Forall (fun run => run.1.1 = n -> forall o r, fin_outcome run.2 = Some (o, r) -> answers_with p r) t2.
Proof.
  intros n Href E Ef Hp Ht Hths. pose proof Href as (_ & Hr & _). rewrite E in Hr.
  assert (Hn : hex_name n) by apply key_hex_name, blake3_hash_length.
  rewrite (reading_entry w0 a sys n) by done. by eapply published_lasts.
Qed.

(** The same for a payload that the store had at its start. *)
Lemma sys_stored_lasts w0 a sys n p :
  refines_the_map w0 a sys -> hex_name n -> stores config (view config w0 n) p ->
  Forall (fun run => run.1.1 = n -> reads run) (sys_history sys) ->
  Forall (fun t => th_name t = n -> reader (th_operation t)) (sys_threads sys) ->
  stores config (view config (sys_world sys) n) p /\
  Forall (fun run => run.1.1 = n -> forall o r, fin_outcome run.2 = Some (o, r) -> answers_with p r) (sys_history sys).
Proof.
  intros Href Hn Hp Ht Hths. pose proof Href as (_ & Hr & _).
  rewrite (reading_entry w0 a sys n) by done. by eapply reads_keep.
Qed.

(** What a crash may leave of the namespace while the threads [ts] are at work. *)
Definition crash_image (a : bytes -> entry) (ts : list Thread) (fs : FsMap) : Prop :=
  plain_keys config fs /\
  (forall h, hex_name h -> h ∉ names ts -> fs !! key_file config h = a h) /\
  (forall t, t ∈ ts -> moment config (th_operation t) (a (th_name t)) (fs !! key_file config (th_name t))).

Lemma simulates_crash_image w0 a sys :
  Simulates w0 a sys -> crash_image a (sys_threads sys) (w_fs (sys_world sys)).
Proof.
  intros [[_ Hpl _] _ S3 S4]. split_and!; [done|exact S3|]. intros t Ht.
  by apply (proj1 (Forall_forall _ _) S4).
Qed.

(** During a call of a thread. *)
Lemma call_crashes w0 a st (w : World) ts h j t call p w' :
  Simulates w0 a (Build_System st w ts h) -> Forall hex_name (names ts) -> NoDup (names ts) ->
  ts !! j = Some t -> th_program t = Step call -> call w = (p, w') -> passes (crash_image a ts) w w'.
Proof.
  intros [S1 S2 S3 S4] Hh Hn Hj Ep Ew. cbn [sys_world sys_threads sys_history] in *.
  destruct (in_flight_call _ t w call p w' S1 (proj1 (Forall_lookup _ _) S4 j t Hj) Ep Ew) as [Hk _].
  eapply passes_mono, Hk. intros fs [[Hpl Ho] Hm].
  assert (He : forall n, hex_name n -> n <> th_name t -> fs !! key_file config n = view config w n).
  { intros n Hx Hne. apply (Ho n); [done|done|apply own_key_file]. }
  split_and!; [done| |].
  - intros n Hx Hin. rewrite He; [by apply S3|done|]. intros ->. apply Hin, list_elem_of_fmap. exists t.
    split; [done|by eapply list_elem_of_lookup_2].
  - intros u Hu. destruct (decide (th_name u = th_name t)) as [E|Hne].
    + apply list_elem_of_lookup in Hu as [m Hu]. assert (m = j) as ->; [|by simplify_eq].
      apply (NoDup_lookup (names ts) m j (th_name u) Hn); rewrite list_lookup_fmap; [by rewrite Hu|by rewrite E, Hj].
    + rewrite He; [by apply (proj1 (Forall_forall _ _) S4)| |done].
      apply (proj1 (Forall_forall _ _) Hh), list_elem_of_fmap. by exists u.
Qed.

(** During any step of the store. *)
Lemma sys_crashes w0 sys sys' :
  sound_world config w0 -> sys_reachable config w0 sys -> sys_work sys sys' ->
  exists a, abstract_runs config (view config w0) (sys_history sys) a /\
    passes (crash_image a (sys_threads sys)) (sys_world sys) (sys_world sys').
Proof.
  intros Hw0 Hr Hst. destruct (sys_simulates w0 _ Hw0 Hr) as [a Ha]. exists a. split; [apply Ha|].
  pose proof (reachable_sound config _ Hmax (sys_reachable_engine _ _ _ Hr)) as Hs.
  pose proof (sys_placed config w0 _ Hmax Hr) as Hp. pose proof (names_nodup _ Hs Hp) as Hn.
  assert (Hh : Forall hex_name (names (sys_threads sys))).
  { apply Forall_fmap, Forall_forall. intros t. by apply thread_name. }
  pose proof (simulates_crash_image _ _ _ Ha) as Hi0.
  destruct Hst as [st st' w ts h Hco|fuel st w ts h i k op Hi Hnew|st w ts h j t call p w' Hj Ep Ew
    |st w ts h i j t fin Ht Ep Hi|st w ts h i sub r w' Hi E]; cbn [sys_threads sys_world] in *;
    try by apply passes_refl.
  - by eapply call_crashes.
  - pose proof (maintenance_has_no_threads _ _ _ _ _ _ Hs Hp Hi) as ->.
    pose proof (sound_config _ _ Hs) as Ec. cbn [sys_state] in Ec. rewrite Ec in E.
    eapply passes_mono, (maintenance_keeps sub w r); [|apply Ha|done]. intros fs [Hpl Hv].
    split_and!; [done| |by intros u Hu%not_elem_of_nil]. intros n Hx _. rewrite Hv by done.
    apply (sim_rest _ _ _ Ha n Hx), not_elem_of_nil.
Qed.

End Refinement.

(** ** On Unix *)

Section Unix.
Context {Crc : Crc32c} {CrcL : Crc32cLaws} {Tgt : Target} {Awf : AtomicWriteFile}
  {AwfL : AtomicWriteFileLaws} {Rx : Rustix} {RxL : RustixLaws}
  {B3 : Blake3} {B3L : Blake3Laws} {Order : HashMapOrder} {OrderL : HashMapOrderLaws}.
Context (config : StoreConfig).

(** C1: the store refines the map, with operations in flight.  Whatever the
    interleaving of the system calls of the workers, the turns of the coordinator
    and the calls of the users: the operations that ended are a history of the
    abstract map, in the order in which they ended, and they are the ones that the
    coordinator dispatched; every key at rest has the entry that this history
    left; a key with an operation in flight, of which there is one, has an entry
    that this operation may show; and the namespace is fit for the next step. *)
Theorem system_refines_the_map (w0 : World) sys :
  0 < config_max_concurrent_operations config -> valid_config config -> fits_usize (maximum config) ->
  sound_world config w0 -> sys_reachable config w0 sys ->
  exists a, refines_the_map config w0 a sys.
Proof. intros Hmax Hc Hf Hw Hr. by apply (sys_refines config (BkL := unix_backend_laws)). Qed.

(** C4: no crash tears the map.  At every moment of every step of the store, inside
    the system calls of a thread too, and during maintenance, while other threads
    are in the middle of their operations: each key has the entry that the ended
    operations left, or one that the operation in flight on it may show, so for a
    save the old file or the complete new one. *)
Theorem no_crash_tears_the_map (w0 : World) sys sys' :
  0 < config_max_concurrent_operations config -> valid_config config -> fits_usize (maximum config) ->
  sound_world config w0 -> sys_reachable config w0 sys -> sys_work sys sys' ->
  exists a, abstract_runs config (view config w0) (sys_history sys) a /\
    passes (crash_image config a (sys_threads sys)) (sys_world sys) (sys_world sys').
Proof. intros Hmax Hc Hf Hw. by eapply (sys_crashes config (BkL := unix_backend_laws)). Qed.

(** C9: acknowledged saves last.  Once a save ended with [Ok], its payload is in the
    file of the key for as long as only loads and inspections of the key follow,
    and each of them that does not fail answers with that payload, whatever
    happens to other keys and between the system calls. *)
Theorem acknowledged_saves_last (w0 : World) sys key o fin o' r p t1 t2 :
  0 < config_max_concurrent_operations config -> valid_config config -> fits_usize (maximum config) ->
  sound_world config w0 -> sys_reachable config w0 sys ->
  let n := blake3_to_hex (key_hash key) in
  sys_history sys = t1 ++ (n, o, fin) :: t2 ->
  fin_outcome fin = Some (o', r) -> publishes o r p -> Forall (fun run => run.1.1 = n -> reads run) t2 ->
  Forall (fun t => th_name t = n -> reader (th_operation t)) (sys_threads sys) ->
  stores config (view config (sys_world sys) n) p /\
  Forall (fun run => run.1.1 = n -> forall o r, fin_outcome run.2 = Some (o, r) -> answers_with config p r) t2.
Proof.
  intros Hmax Hc Hf Hw Hr n. destruct (sys_refines config (BkL := unix_backend_laws) Hc Hf Hmax w0 sys Hw Hr) as [a Ha].
  by eapply (sys_published_lasts config).
Qed.

End Unix.

(** ** Witnesses *)

Section Witnesses.

Abbreviation start := (fixture_world full_store []).

Definition save_a : Operation := Save (bstr "xyz") 0.
Definition save_b : Operation := Save (bstr "pq") 1.

(** Saves under two keys, both dispatched.  The first save opens its temporary
    file; the second does all of its work meanwhile, and ends. *)
Definition both_calls : list Action :=
  [Act_call (CallSave key_a (bstr "xyz")); Act_call (CallSave key_b (bstr "pq")); Act_turn; Act_turn].

Definition between : list Thread * World :=
  interleave [0; 1; 1]%nat
    [begun fixture_config (key_hash key_a) save_a; begun fixture_config (key_hash key_b) save_b] start.

Lemma between_reachable :
  exists st t call fin,
    sys_reachable fixture_config start
      (Build_System st between.2 [t] [(blake3_to_hex (key_hash key_b), save_b, fin)]) /\
    fin_outcome fin = Some (save_b, RSave (Ok tt)) /\ between.1 !! 0%nat = Some t /\
    th_key t = key_hash key_a /\ th_operation t = save_a /\ th_program t = Step call.
Proof.
  apply (overtaking fixture_config start [0; 1; 1]%nat (after both_calls) (key_hash key_a) save_a
    (key_hash key_b) save_b (save_b, RSave (Ok tt))); [|by vm_compute..].
  apply (acts_system _ _ both_calls fixture_start); [done|exact (sys_open _ _ [] _ eq_refl)|by vm_compute].
Qed.

Lemma system_refines_the_map_witness :
  exists a w fin, fin_outcome fin = Some (save_b, RSave (Ok tt)) /\
    abstract_runs fixture_config (view fixture_config start)
      [(blake3_to_hex (key_hash key_b), save_b, fin)] a /\
    moment fixture_config save_a (a (blake3_to_hex (key_hash key_a)))
      (view fixture_config w (blake3_to_hex (key_hash key_a))).
Proof.
  destruct between_reachable as (st & t & call & fin & Hr & Hf & _ & Hk & Ho & _).
  destruct (system_refines_the_map fixture_config start _ ltac:(done) fixture_valid_config
    ltac:(by vm_compute) full_store_sound Hr) as (a & _ & Ha & _ & _ & _ & Hm).
  exists a, between.2, fin. split; [done|]. split; [exact Ha|].
  specialize (Hm t ltac:(by left)). unfold th_name in Hm. by rewrite Hk, Ho in Hm.
Defined.

Lemma no_crash_tears_the_map_witness :
  exists a t w w' fin, fin_outcome fin = Some (save_b, RSave (Ok tt)) /\ th_operation t = save_a /\
    abstract_runs fixture_config (view fixture_config start)
      [(blake3_to_hex (key_hash key_b), save_b, fin)] a /\
    passes (crash_image fixture_config a [t]) w w'.
Proof.
  destruct between_reachable as (st & t & call & fin & Hr & Hf & _ & Hk & Ho & Ep).
  destruct (call between.2) as [p w'] eqn:Ec.
  destruct (no_crash_tears_the_map fixture_config start _ _ ltac:(done) fixture_valid_config
    ltac:(by vm_compute) full_store_sound Hr (sys_call st between.2 [t] _ 0 t call p w' eq_refl Ep Ec)) as (a & Ha & Hp).
  by exists a, t, between.2, w', fin.
Defined.

Lemma acknowledged_saves_last_witness :
  exists w', stores fixture_config (view fixture_config w' (blake3_to_hex (key_hash key_a))) (bstr "xyz").
Proof.
  destruct sys_run_reachable as (fin & Hr & Hf). exists saved_world.
  by apply (acknowledged_saves_last fixture_config start
    (Build_System sys_completed saved_world [] [(blake3_to_hex (key_hash key_a), save_op, fin)]) key_a save_op fin
    save_op (RSave (Ok tt)) (bstr "xyz") [] [] ltac:(done) fixture_valid_config ltac:(by vm_compute)
    full_store_sound Hr eq_refl Hf eq_refl (Forall_nil_2 _) (Forall_nil_2 _)).
Defined.

End Witnesses.
