(* ===== verification/Linearizability.v ===== *)
(** * The store is linearizable

    The history of the runs that ended is one of the abstract map.  Every call
    that was answered is in it once, with the result that its caller got, or was
    refused and never ran; and the history respects real time: a call that was
    answered before another one was made comes before it. *)
From S2P Require Export SystemRefinement.

Local Open Scope N_scope.
Local Open Scope blob_scope.

(** The channel of the call that ran. *)
Definition run_channel (run : bytes * Operation * Finished) : Channel := op_sender run.1.2.

(** ** The answers of the runs *)

(** The calls that ran are answered with the results of their runs. *)
Definition exact (h : list (bytes * Operation * Finished)) (answer : Channel * Reply) : Prop :=
  forall n op fin o r, (n, op, fin) ∈ h -> op_sender op = fst answer ->
    fin_outcome fin = Some (o, r) -> deliver o r = Some answer.

Lemma exact_snoc h run answer :
  fst answer <> run_channel run -> exact h answer -> exact (h ++ [run]) answer.
Proof.
  intros Hne He n op fin o r Hin Hs Ef. apply elem_of_app in Hin as [Hin|Hin%list_elem_of_singleton];
    [by eapply He|]. by subst run.
Qed.

Lemma exact_fresh h answer : fst answer ∉ map run_channel h -> exact h answer.
Proof.
  intros Hn n op fin o r Hin Hs _. destruct Hn. apply list_elem_of_fmap. by exists (n, op, fin).
Qed.

Section Engine.
Context {B3 : Blake3} {B3L : Blake3Laws} {Order : HashMapOrder} {OrderL : HashMapOrderLaws}.
Context (config : StoreConfig).

(** *** Every call runs at most once *)

Lemma nodup_by_key (l : list (KeyHash * Operation)) : (forall k, NoDup (ran_of k l)) -> NoDup l.
Proof.
  induction l as [|[k op] l IH]; intros H; [apply NoDup_nil_2|]. apply NoDup_cons. split.
  - intros Hin. specialize (H k). cbn in H. rewrite decide_True in H by done.
    apply NoDup_cons in H as [H _]. apply H, list_elem_of_omap. exists (k, op). by rewrite decide_True.
  - apply IH. intros k'. specialize (H k'). cbn in H. case_decide; [by apply NoDup_cons in H as [_ H]|done].
Qed.

Lemma submitted_senders k accepted :
  Forall named accepted -> sublist (map op_sender (submitted k accepted)) (map fst accepted).
Proof.
  induction 1 as [|[ch event] accepted [Hs _] _ IH]; [done|]. unfold submitted, received_of in *. cbn in *.
  destruct event as [sub| | | | |]; try (by apply sublist_cons). case_decide; [|by apply sublist_cons].
  cbn in *. simplify_eq. by apply sublist_skip.
Qed.

Lemma ran_nodup st : Sound config st -> NoDup (st_ran st).
Proof.
  intros Hs. pose proof (sound_calls _ _ Hs) as Hc. apply nodup_by_key. intros k.
  apply (NoDup_fmap_1 op_sender). eapply sublist_NoDup; [apply (calls_nodup _ _ _ _ _ _ Hc)|].
  etrans; [|apply (submitted_senders k), (calls_named _ _ _ _ _ _ Hc)].
  change (@map Operation Channel) with (@fmap list _ Operation Channel). apply fmap_sublist.
  destruct (calls_order _ _ _ _ _ _ Hc k) as (late & -> & _). unfold pipeline. rewrite <-!app_assoc.
  apply sublist_inserts_r. etrans; [|exact (calls_ran _ _ _ _ _ _ Hc k)]. by apply sublist_inserts_r.
Qed.

Lemma ran_senders st : Sound config st -> NoDup (map (fun run => op_sender run.2) (st_ran st)).
Proof.
  intros Hs. apply (NoDup_fmap_2_strong (fun run : KeyHash * Operation => op_sender run.2));
    [|by apply ran_nodup]. intros [k op] [k' op'] Hr Hr' E. cbn in E.
  destruct (ran_accepted config _ _ _ Hs Hr) as (sub & Hin & <- & <- & _).
  destruct (ran_accepted config _ _ _ Hs Hr') as (sub' & Hin' & <- & <- & _). rewrite E in Hin.
  assert (EvSubmission sub = EvSubmission sub') as [= ->]; [|done].
  eapply nodup_key; [apply (calls_nodup _ _ _ _ _ _ (sound_calls _ _ Hs))|done|done].
Qed.

(** *** Channels *)

(** A job that leaves the pool takes its channel with it. *)
Lemma job_channel st i j :
  Sound config st -> channel (worker_pool (st_scheduler st)) !! i = Some j ->
  let s0 := set_pool (finish_job i (worker_pool (st_scheduler st))) (st_scheduler st) in
  ~ (job_sender j ∈ owed s0) /\ ~ (job_sender j ∈ map fst (sent s0)).
Proof.
  intros Hs Hj s0. pose proof (calls_share_le _ _ _ _ _ _ (sound_calls _ _ Hs) (job_sender j)) as H.
  assert (E : share (job_sender j) (st_scheduler st) = S (share (job_sender j) s0)).
  { unfold share. cbn [queues pending worker_pool channel receiver sent s0 set_pool finish_job].
    rewrite (cnt_perm _ (map job_sender (channel _)) (job_sender j :: map job_sender (delete i (channel (worker_pool (st_scheduler st)))))).
    - rewrite cnt_cons, N.eqb_refl. lia.
    - rewrite <-map_cons. by apply Permutation_map, delete_Permutation. }
  rewrite E, share_owed in H. rewrite <-!cnt_in. split; lia.
Qed.

End Engine.

(** ** The whole store *)

Section System.
Context {Crc : Crc32c} {Tgt : Target} {Bk : Backend} {BkS : BackendSteps}
  {B3 : Blake3} {B3L : Blake3Laws} {Order : HashMapOrder} {OrderL : HashMapOrderLaws}.
Context (config : StoreConfig) (w0 : World) (Hmax : 0 < config_max_concurrent_operations config).

Lemma sys_sound sys : sys_reachable config w0 sys -> Sound config (sys_state sys).
Proof. intros Hr. by apply reachable_sound, (sys_reachable_engine _ w0). Qed.

(** A run was an accepted call. *)
Lemma run_accepted sys n op fin :
  sys_reachable config w0 sys -> (n, op, fin) ∈ sys_history sys ->
  exists sub, (op_sender op, EvSubmission sub) ∈ sys_accepted sys /\
    blake3_to_hex (sub_key_hash sub) = n /\ sub_operation sub = op.
Proof.
  intros Hr Hin. pose proof (sys_history_matches _ _ _ Hr) as Hm. unfold history_matches in Hm.
  assert (Hx : (n, op) ∈ map fst (sys_history sys)) by (apply list_elem_of_fmap; by exists (n, op, fin)).
  rewrite Hm in Hx. apply list_elem_of_fmap in Hx as ([k op'] & [= -> ->] & Hran).
  destruct (ran_accepted config _ _ _ (sys_sound _ Hr) Hran) as (sub & ? & <- & <- & _). by exists sub.
Qed.

Lemma history_channels sys : sys_reachable config w0 sys ->
  map run_channel (sys_history sys) = map (fun run => op_sender run.2) (st_ran (sys_state sys)).
Proof.
  intros Hr. pose proof (sys_history_matches _ _ _ Hr) as Hm. unfold history_matches in Hm.
  apply (f_equal (map (fun x => op_sender x.2))) in Hm. rewrite !map_map in Hm. unfold run_channel.
  rewrite Hm. apply map_ext. by intros [].
Qed.

Lemma history_nodup sys : sys_reachable config w0 sys -> NoDup (map run_channel (sys_history sys)).
Proof. intros Hr. rewrite history_channels by done. eapply ran_senders, sys_sound, Hr. Qed.

(** Every run has a result. *)
Lemma runs_end sys :
  sys_reachable config w0 sys -> Forall (fun run => fin_outcome run.2 <> None) (sys_history sys).
Proof.
  induction 1 as [spawns e E|sys sys' Hr IH Hst]; [by apply Forall_nil|].
  pose proof (sys_matching _ _ _ Hr) as Hm. pose proof (sys_sound _ Hr) as Hs.
  destruct Hst as [? ? [| | |st w ts h i j t fin Hj Ep Hi|]| |? ? []]; cbn in *; try done.
  apply Forall_app. split; [done|]. apply Forall_singleton. cbn.
  destruct (job_accepted _ _ _ _ _ Hs Hi) as (_ & _ & _ & _ & _ & Ho).
  apply (done_matching w t fin); [by eapply (proj1 (Forall_lookup _ _) Hm)|done|done].
Qed.

(** *** Answers are exact *)

Definition answers_exact (sys : System) : Prop := lawful (exact (sys_history sys)) (sys_scheduler sys).

Lemma fresh_event_ok h next event :
  named (next, event) -> next ∉ map run_channel h -> event_ok (exact h) event.
Proof.
  intros [Hn _] Hf. apply (event_ok_change (fun _ => True)).
  - intros ch E answer <- _. apply exact_fresh. destruct event; cbn in *; simplify_eq; congruence.
  - destruct event as [|?| |[[]|]| |]; done.
Qed.

Lemma called_exact e e' h :
  called e e' -> eng_next e ∉ map run_channel h -> lawful (exact h) (eng_scheduler e) ->
  lawful (exact h) (eng_scheduler e').
Proof.
  intros [| |event Ha Hn _] Hf Hl; [done|done|]. unfold send_event. cbn [bounded snd eng_alive]. rewrite Ha.
  cbn [snd eng_scheduler]. apply lawful_post; [by eapply fresh_event_ok|done].
Qed.

(** The calls made so far have other channels than the next one. *)
Lemma next_fresh sys :
  sys_reachable config w0 sys -> eng_next (st_engine (sys_state sys)) ∉ map run_channel (sys_history sys).
Proof.
  intros Hr Hin. apply list_elem_of_fmap in Hin as ([[n op] fin] & E & Hin).
  destruct (run_accepted _ _ _ _ Hr Hin) as (sub & Hacc & _).
  apply (calls_not_next _ _ _ _ _ _ (sound_calls _ _ (sys_sound _ Hr))).
  apply list_elem_of_fmap. eexists. split; [|exact Hacc]. done.
Qed.

Lemma finish_exact st h i t fin :
  Sound config st -> op_sender (th_operation t) ∉ map run_channel h ->
  (forall o r, fin_outcome fin = Some (o, r) -> op_sender o = op_sender (th_operation t)) ->
  channel (worker_pool (st_scheduler st)) !! i = Some (th_job t) ->
  lawful (exact h) (st_scheduler st) ->
  lawful (exact (h ++ [(th_name t, th_operation t, fin)]))
    (job_done i (operation_completion (th_key t) fin) (st_scheduler st)).
Proof.
  intros Hs Hn Ho Hi Hl. apply lawful_post.
  - intros answer E. unfold completion_answer in E. cbn in E.
    destruct (fin_outcome fin) as [[o r]|] eqn:Ef; [|done]. cbn in E. destruct answer as [ch reply].
    pose proof (deliver_sender _ _ _ _ E) as Ech. rewrite (Ho o r eq_refl) in Ech.
    intros n op fin' o' r' Hin Hsend Ef'. apply elem_of_app in Hin as [Hin|Hin%list_elem_of_singleton].
    + destruct Hn. rewrite <-Ech. apply list_elem_of_fmap. by exists (n, op, fin').
    + by simplify_eq.
  - destruct (job_channel config st i (th_job t) Hs Hi) as [H1 H2]. eapply lawful_change.
    2:{ apply (lawful_same _ (st_scheduler st)); [done..|apply Forall_delete, Hl|exact Hl]. }
    intros ch Hch answer <- He. apply exact_snoc; [|done]. intros E. rewrite E in Hch.
    by destruct Hch.
Qed.

Lemma sys_step_exact sys sys' :
  sys_reachable config w0 sys -> sys_step sys sys' -> answers_exact sys -> answers_exact sys'.
Proof.
  intros Hr Hst. pose proof (sys_sound _ Hr) as Hs. pose proof (sys_matching _ _ _ Hr) as Hts.
  pose proof (next_fresh _ Hr) as Hf.
  pose proof (history_nodup _ (sys_next _ _ _ _ Hr Hst)) as Hn. unfold answers_exact, sys_scheduler.
  destruct Hst as [? ? [st st' w ts h Hco| | |st w ts h i j t fin Hj Ep Hi|st w ts h i sub r w' Hi E]
    |st st' w ts h He|? ? []]; cbn [sys_state sys_history sys_threads] in *; intros Hl; try done.
  - by eapply coordinates_lawful.
  - rewrite map_app in Hn. apply NoDup_app in Hn as (_ & Hn & _).
    apply finish_exact; [done| | |done|done].
    + intros Hin. apply (Hn _ Hin). left.
    + intros o r Ef. pose proof (proj1 (Forall_lookup _ _) Hts j t Hj) as Ht.
      destruct (done_matching w t fin Ht Ep) as [_ H]. by destruct (H o r Ef).
  - by apply (maintenance_done_lawful _ i sub r (st_scheduler st)).
  - destruct He as [c st e' Hh Hc|st r r' j Ha Hj|st|st Hh Ha Hr' Hw Hp Hc]; [|done|done|].
    + by apply (called_exact _ e' h (api_call_called _ _ _ Hc)).
    + change (lawful (exact h) (disconnected (st_scheduler st))). by apply (disconnected_lawful config).
Qed.

Lemma sys_exact sys : sys_reachable config w0 sys -> answers_exact sys.
Proof.
  induction 1 as [spawns e E|sys sys' Hr IH Hst]; [|by eapply sys_step_exact].
  injection E as <-. split; [by apply Forall_nil| |by apply Forall_nil|by apply Forall_nil|by apply Forall_nil].
  by intros op H%not_elem_of_nil.
Qed.

(** *** Time *)

(** A step adds only runs of calls that were not answered yet. *)
Lemma sys_step_time sys sys' :
  sys_reachable config w0 sys -> sys_step sys sys' ->
  (exists l, sys_history sys' = sys_history sys ++ l /\
     forall ch, ch ∈ map run_channel l -> ch ∉ map fst (sent (sys_scheduler sys))) /\
  (forall ch, ch ∈ map fst (sent (sys_scheduler sys)) -> ch ∈ map fst (sent (sys_scheduler sys'))).
Proof.
  intros Hr Hst. pose proof (sys_sound _ Hr) as Hs. unfold sys_scheduler.
  assert (Hnil : forall h : list (bytes * Operation * Finished), exists l, h = h ++ l /\
    forall ch, ch ∈ map run_channel l -> ch ∉ map fst (sent (st_scheduler (sys_state sys)))).
  { intros h. exists []. rewrite app_nil_r. split; [done|]. by intros ch H%not_elem_of_nil. }
  destruct Hst as [? ? [st st' w ts h Hco| | |st w ts h i j t fin Hj Ep Hi|st w ts h i sub r w' Hi E]
    |st st' w ts h He|? ? []]; cbn [sys_state sys_history] in *; try (by split); (split; [|try done]).
  - apply Hnil.
  - intros ch. apply sent_grows. pose proof (sound_config _ _ Hs) as Ec.
    pose proof (calls_share_le _ _ _ _ _ _ (sound_calls _ _ Hs)) as H1.
    destruct Hco as [st event rest s' Ha Er E|st event rest s' Ha Er E];
      pose proof (turn_order config event rest _ Hmax (sound_inv _ _ Hs Ha) Er H1) as H; rewrite <-Ec, E in H.
    + destruct H as [_ H]. apply H.
    + by destruct H as (_ & _ & H).
  - eexists. split; [done|]. intros ch ->%list_elem_of_singleton.
    by destruct (job_channel config st i (th_job t) Hs Hi).
  - apply Hnil.
  - intros ch. destruct He as [c st e' Hh Hc|st r r' j Ha Hj|st|st Hh Ha Hr' Hw Hp Hc]; [|done|done|].
    + destruct (api_call_called _ _ _ Hc) as [| |event Ha _ _]; [done|done|].
      unfold st_scheduler, send_event. cbn. by rewrite Ha.
    + destruct (disconnected_finished config _ Hmax (sound_inv _ _ Hs Ha) Hr' Hc) as (_ & E1 & _).
      change (ch ∈ map fst (sent (st_scheduler st)) -> ch ∈ map fst (sent (disconnected (st_scheduler st)))).
      by rewrite E1.
Qed.

Lemma all_steps_reachable sys sys' :
  sys_reachable config w0 sys -> rtc sys_step sys sys' -> sys_reachable config w0 sys'.
Proof. intros Hr Hs. induction Hs as [|sys sys1 sys2 Hst _ IH]; [done|]. apply IH. by eapply sys_next. Qed.

(** What is added to the history after a state are runs of calls that it had not
    answered. *)
Lemma sys_time sys sys' :
  sys_reachable config w0 sys -> rtc sys_step sys sys' ->
  exists later, sys_history sys' = sys_history sys ++ later /\
    forall ch, ch ∈ map run_channel later -> ch ∉ map fst (sent (sys_scheduler sys)).
Proof.
  intros Hr Hs. induction Hs as [sys|sys sys1 sys2 Hst _ IH].
  - exists []. rewrite app_nil_r. split; [done|]. by intros ch H%not_elem_of_nil.
  - destruct (sys_step_time _ _ Hr Hst) as [(l & El & Hl) Hg].
    destruct (IH (sys_next _ _ _ _ Hr Hst)) as (later & E & Hlater).
    exists (l ++ later). rewrite E, El, app_assoc. split; [done|].
    intros ch. rewrite map_app, elem_of_app. intros [H|H]; [by apply Hl|]. intros Hs. by apply (Hlater ch H), Hg.
Qed.

End System.

(** ** Linearizability *)

Section Linearizability.
Context {Crc : Crc32c} {CrcL : Crc32cLaws} {Tgt : Target} {Bk : Backend} {BkL : BackendLaws}
  {BkS : BackendSteps} {BkI : BackendInterference}
  {B3 : Blake3} {B3L : Blake3Laws} {Order : HashMapOrder} {OrderL : HashMapOrderLaws}.
Context (config : StoreConfig).

(** The call was turned away. *)
Definition refused (op : Operation) (answer : Channel * Reply) : Prop :=
  answer = deliver_error op StoreClosed \/ answer = deliver_error op WorkerUnavailable.

(** The answer of [op] is that of its run in [h]. *)
Definition answered_by_run (h : list (bytes * Operation * Finished)) (n : bytes) (op : Operation)
    (answer : Channel * Reply) : Prop :=
  exists fin o r, (n, op, fin) ∈ h /\ fin_outcome fin = Some (o, r) /\ deliver o r = Some answer.

(** A call that was answered did not run and was turned away, or ran and got the
    result of its run. *)
Lemma answered_once (w0 : World) sys ch sub reply :
  0 < config_max_concurrent_operations config -> sys_reachable config w0 sys ->
  (ch, EvSubmission sub) ∈ sys_accepted sys -> (ch, reply) ∈ sent (sys_scheduler sys) ->
  (refused (sub_operation sub) (ch, reply) /\ ch ∉ map run_channel (sys_history sys)) \/
  answered_by_run (sys_history sys) (blake3_to_hex (sub_key_hash sub)) (sub_operation sub) (ch, reply).
Proof.
  intros Hmax Hr Hin Hs. destruct (decide (ch ∈ map run_channel (sys_history sys))) as [Hrun|Hrun].
  - right. apply list_elem_of_fmap in Hrun as ([[n op] fin] & E & Hrun). cbn in E.
    destruct (run_accepted config w0 Hmax sys n op fin Hr Hrun) as (sub' & Hin' & <- & <-).
    unfold run_channel in E. cbn in E. rewrite <-E in Hin'.
    pose proof (calls_nodup _ _ _ _ _ _ (sound_calls _ _ (sys_sound config w0 Hmax _ Hr))) as Hn.
    assert (EvSubmission sub = EvSubmission sub') as [= <-] by by eapply nodup_key.
    pose proof (proj1 (Forall_forall _ _) (runs_end config w0 Hmax sys Hr) _ Hrun) as Hf. cbn in Hf.
    destruct (fin_outcome fin) as [[o r]|] eqn:Ef; [|done]. exists fin, o, r. split_and!; [done|done|].
    pose proof (lawful_sent _ _ (sys_exact config w0 Hmax sys Hr)) as Hx. rewrite Forall_forall in Hx.
    by eapply (Hx _ Hs).
  - left. destruct (answer_justified config w0 sys ch _ reply Hmax Hr Hin Hs) as [?|[?|(fin & o & r & Hh & _)]];
      [by split; [left|]|by split; [right|]|].
    destruct Hrun. apply list_elem_of_fmap. eexists. split; [|exact Hh].
    pose proof (calls_named _ _ _ _ _ _ (sound_calls _ _ (sys_sound config w0 Hmax _ Hr))) as Hn.
    rewrite Forall_forall in Hn. destruct (Hn _ Hin) as [E _]. cbn in E. by injection E.
Qed.

(** C2: the store is linearizable.  The runs that ended form a history of the
    abstract map.  A call is in it at most once, under its own key; a call that was
    answered either is not in it, and was answered with [StoreClosed] or
    [WorkerUnavailable], or is in it and got the result of its run.  And the
    history respects real time: what comes after [sys] extends it by runs of calls
    that [sys] had not answered, while the calls made after [sys] are not in the
    history of [sys]; so a call that was answered before another one was made
    comes before it. *)
Theorem store_is_linearizable (w0 : World) sys sys' :
  0 < config_max_concurrent_operations config -> backend_fit config -> fits_usize (maximum config) ->
  sound_world config w0 -> sys_reachable config w0 sys -> rtc sys_step sys sys' ->
  exists a later, let h := sys_history sys ++ later in
    sys_history sys' = h /\ abstract_runs config (view config w0) h a /\ NoDup (map run_channel h) /\
    (forall n op fin, (n, op, fin) ∈ h ->
       exists sub, (op_sender op, EvSubmission sub) ∈ sys_accepted sys' /\
         blake3_to_hex (sub_key_hash sub) = n /\ sub_operation sub = op) /\
    (forall ch sub reply, (ch, EvSubmission sub) ∈ sys_accepted sys' -> (ch, reply) ∈ sent (sys_scheduler sys') ->
       (refused (sub_operation sub) (ch, reply) /\ ch ∉ map run_channel h) \/
       answered_by_run h (blake3_to_hex (sub_key_hash sub)) (sub_operation sub) (ch, reply)) /\
    (forall ch, ch ∈ map run_channel (sys_history sys) -> ch ∈ map fst (sys_accepted sys)) /\
    (forall ch, ch ∈ map run_channel later -> ch ∉ map fst (sent (sys_scheduler sys))).
Proof.
  intros Hmax Hc Hf Hw Hr Hs. pose proof (all_steps_reachable config w0 _ _ Hr Hs) as Hr'.
  destruct (sys_time config w0 Hmax _ _ Hr Hs) as (later & E & Hlater).
  destruct (sys_refines config Hc Hf Hmax w0 sys' Hw Hr') as (a & _ & Ha & _). exists a, later. cbv zeta.
  rewrite <-E. split_and!; [done|done| | | | |done].
  - by eapply history_nodup.
  - intros n op fin. by apply (run_accepted config w0 Hmax).
  - intros ch sub reply. by apply (answered_once w0).
  - intros ch Hin. apply list_elem_of_fmap in Hin as ([[n op] fin] & -> & Hin).
    destruct (run_accepted config w0 Hmax sys n op fin Hr Hin) as (sub & Hacc & _).
    apply list_elem_of_fmap. by exists (op_sender op, EvSubmission sub).
Qed.

End Linearizability.

(** ** Witness *)

Section Witnesses.

Abbreviation start := (fixture_world full_store []).

(** A save from its dispatch to its answer. *)
Lemma store_is_linearizable_witness :
  exists a h, abstract_runs fixture_config (view fixture_config start) h a /\ NoDup (map run_channel h) /\
    ((refused save_op (0, ReplyUnit (Ok tt)) /\ 0 ∉ map run_channel h) \/
     answered_by_run h (blake3_to_hex (key_hash key_a)) save_op (0, ReplyUnit (Ok tt))).
Proof.
  destruct sys_run as (fin & Hs & _).
  assert (Hsteps : rtc sys_step (Build_System sys_dispatched start [] [])
    (Build_System sys_answered saved_world [] [(blake3_to_hex (key_hash key_a), save_op, fin)])).
  { eapply rtc_r; [eapply rtc_subrel; [apply sys_worked|exact Hs]|].
    apply sys_worked, sys_turn, act_turn. by vm_compute. }
  destruct (store_is_linearizable fixture_config start _ _ ltac:(done) fixture_valid_config
    ltac:(by vm_compute) full_store_sound sys_dispatched_reachable Hsteps)
    as (a & later & _ & Ha & Hn & _ & Hans & _).
  exists a, ([] ++ later). split; [exact Ha|]. split; [exact Hn|].
  apply (Hans 0 {| sub_key_hash := key_hash key_a; sub_operation := save_op |}); left.
Defined.

End Witnesses.
