(* ===== verification/Recovery.v ===== *)
(** * After a crash

    The process may be killed at any moment of any step of the store, while
    operations are in flight.  What it leaves of the namespace is what the log of
    the step shows ([crashed]); opening the store again changes none of it; and
    the store then serves every save that was acknowledged before, through any
    number of further crashes. *)
From S2P Require Export Linearizability.

Local Open Scope N_scope.
Local Open Scope blob_scope.

(** The filesystem at some moment between [w] and [w']. *)
Definition crashed (w w' : World) (fs : FsMap) : Prop :=
  fs = w_fs w' \/ exists new call, w_log w' = new ++ w_log w /\ (call, fs) ∈ new.

Lemma passes_crashed P w w' fs : passes P w w' -> crashed w w' fs -> P fs.
Proof.
  intros Hp [->|(new & call & E & Hin)]; [apply (passes_last _ _ _ Hp)|].
  destruct (passes_log _ _ _ Hp) as (new' & E' & Hall). rewrite E in E'. apply app_inv_tail in E' as <-.
  by apply (proj1 (Forall_forall _ _) Hall) in Hin.
Qed.

Section Recovery.
Context {Crc : Crc32c} {CrcL : Crc32cLaws} {Tgt : Target} {Bk : Backend} {BkL : BackendLaws}
  {BkS : BackendSteps} {BkI : BackendInterference}
  {B3 : Blake3} {B3L : Blake3Laws} {Order : HashMapOrder} {OrderL : HashMapOrderLaws}.
Context (config : StoreConfig).

(** ** Crashes *)

(** Opening the store anew, with the options that it had. *)
Definition reopens (w1 w2 : World) : Prop :=
  honest w1 /\ entropy_fills w1 /\
  exists root component,
    backend_initialize root component (format config) (maximum config)
      (config_max_concurrent_operations config) w1 = (Ok config, w2).

(** The process is killed during a step, and the store opened again. *)
Inductive killed (sys : System) (w2 : World) : Prop :=
| killed_during sys' w1 :
    sys_work sys sys' -> crashed (sys_world sys) (sys_world sys') (w_fs w1) -> reopens w1 w2 -> killed sys w2.

(** Nothing but loads and inspections of the key ended or is in flight. *)
Definition only_reads (n : bytes) (sys : System) : Prop :=
  Forall (fun run => run.1.1 = n -> reads run) (sys_history sys) /\
  Forall (fun t => th_name t = n -> reader (th_operation t)) (sys_threads sys).

(** A save of [payload] under the key ended with [Ok], and then only loads and
    inspections of the key ended or are in flight. *)
Definition acknowledged (n payload : bytes) (sys : System) : Prop :=
  (exists t1 o fin o' r t2, sys_history sys = t1 ++ (n, o, fin) :: t2 /\
     fin_outcome fin = Some (o', r) /\ publishes o r payload /\
     Forall (fun run => run.1.1 = n -> reads run) t2) /\
  Forall (fun t => th_name t = n -> reader (th_operation t)) (sys_threads sys).

(** From one opening of the store to the next, with a kill in between, during
    which the key was only read. *)
Inductive read_only_life (n : bytes) (w w2 : World) : Prop :=
| read_only sys :
    sys_reachable config w sys -> only_reads n sys -> killed sys w2 -> read_only_life n w w2.

(** ** What a crash leaves *)

Section Proofs.
Context (Hc : backend_fit config) (Hfits : fits_usize (maximum config))
  (Hmax : 0 < config_max_concurrent_operations config).

(** The namespace that a crash left is there, so that opening changes nothing. *)
Lemma reopened_sound w1 w2 :
  plain_keys config (w_fs w1) -> reopens w1 w2 -> sound_world config w2 /\ w_fs w2 = w_fs w1.
Proof.
  intros Hp (Hw & He & root & component & E).
  assert (Hs : sound_world config w1) by by split.
  pose proof (initialize_keeps _ _ _ _ _ _ _ _ Hs E) as Hpass. pose proof (passes_last _ _ _ Hpass) as Hf.
  cbn beta in Hf. split; [|done]. eapply passes_sound; [done|done|]. by rewrite Hf.
Qed.

(** A key that is only read has, in whatever a crash leaves, what the ended
    operations left. *)
Lemma image_stores a ts fs n p :
  crash_image config a ts fs -> hex_name n -> stores config (a n) p ->
  Forall (fun t => th_name t = n -> reader (th_operation t)) ts -> stores config (fs !! key_file config n) p.
Proof.
  intros (_ & Hrest & Hm) Hn Hs Hths. destruct (decide (n ∈ map th_name ts)) as [Hin|Hin]; [|by rewrite Hrest].
  apply list_elem_of_fmap in Hin as (u & En & Hin). specialize (Hm u Hin).
  pose proof (proj1 (Forall_forall _ _) Hths u Hin (eq_sym En)) as Hread. rewrite <-En in Hm.
  destruct (th_operation u); try done; by rewrite Hm.
Qed.

Lemma killed_stores (w0 : World) sys w2 n p :
  sound_world config w0 -> sys_reachable config w0 sys -> hex_name n -> killed sys w2 ->
  (forall a, abstract_runs config (view config w0) (sys_history sys) a -> stores config (a n) p) ->
  Forall (fun t => th_name t = n -> reader (th_operation t)) (sys_threads sys) ->
  sound_world config w2 /\ stores config (view config w2 n) p.
Proof.
  intros Hw0 Hr Hn [sys' w1 Hst Hcr Hre] Hs Hths.
  destruct (sys_crashes config Hc Hfits Hmax w0 sys sys' Hw0 Hr Hst) as (a & Ha & Hpass).
  pose proof (passes_crashed _ _ _ _ Hpass Hcr) as Himg.
  destruct (reopened_sound w1 w2 (proj1 Himg) Hre) as [Hw2 Ew2]. split; [done|].
  unfold view. rewrite Ew2. by eapply image_stores; [..|apply Hs|].
Qed.

Lemma life_stores n p w w2 :
  hex_name n -> sound_world config w -> stores config (view config w n) p -> read_only_life n w w2 ->
  sound_world config w2 /\ stores config (view config w2 n) p.
Proof.
  intros Hn Hw Hs [sys Hr [Hh Hths] Hk]. eapply killed_stores; [exact Hw|exact Hr|done|done| |done].
  intros a Ha. by eapply (reads_keep config).
Qed.

Lemma lives_store n p w w2 :
  hex_name n -> sound_world config w -> stores config (view config w n) p -> rtc (read_only_life n) w w2 ->
  sound_world config w2 /\ stores config (view config w2 n) p.
Proof.
  intros Hn Hw Hs Hl. revert Hw Hs. induction Hl as [w|w w1 w2 Hl _ IH]; [done|]. intros Hw Hs.
  destruct (life_stores n p w w1 Hn Hw Hs Hl) as [Hw1 Hs1]. by apply IH.
Qed.

Lemma acknowledged_survives (w0 : World) sys w2 w3 key p :
  let n := blake3_to_hex (key_hash key) in
  sound_world config w0 -> sys_reachable config w0 sys -> acknowledged n p sys ->
  killed sys w2 -> rtc (read_only_life n) w2 w3 ->
  stores config (view config w3 n) p /\
  forall sys3, sys_reachable config w3 sys3 -> only_reads n sys3 ->
    stores config (view config (sys_world sys3) n) p /\
    Forall (fun run => run.1.1 = n -> forall o r, fin_outcome run.2 = Some (o, r) -> answers_with config p r)
      (sys_history sys3).
Proof.
  intros n Hw0 Hr [(t1 & o & fin & o' & r & t2 & Eh & Ef & Hpub & Hreads) Hths] Hk Hl.
  assert (Hn : hex_name n) by apply key_hex_name, blake3_hash_length.
  destruct (killed_stores w0 sys w2 n p Hw0 Hr Hn Hk) as [Hw2 Hs2]; [|done|].
  { intros a Ha. rewrite Eh in Ha. by eapply published_lasts in Ha as [Hs _]. }
  destruct (lives_store n p w2 w3 Hn Hw2 Hs2 Hl) as [Hw3 Hs3]. split; [done|]. intros sys3 Hr3 [Hh3 Hths3].
  destruct (sys_refines config Hc Hfits Hmax w3 sys3 Hw3 Hr3) as [a3 Ha3].
  by eapply (sys_stored_lasts config).
Qed.

(** *** What callers know *)

(** The call saves [p]. *)
Definition saves (op : Operation) (p : bytes) : Prop :=
  match op with
  | Save q _ => q = p
  | SaveStream _ chunks _ => stream_payload chunks = Some p
  | _ => False
  end.

Lemma saved_publishes op o r a a' p ch :
  saves op p -> abstract_step config op r a a' -> deliver o r = Some (ch, ReplyUnit (Ok tt)) -> publishes op r p.
Proof.
  destruct op as [| |q s|n ms s| | |], r as [r|r|r|r|r|r|r]; try done; cbn; intros Hp Ha E;
    destruct o; try done; injection E as _ ->; done.
Qed.

Lemma abstract_run a t1 n op fin t2 a' o r :
  abstract_runs config a (t1 ++ (n, op, fin) :: t2) a' -> fin_outcome fin = Some (o, r) ->
  exists x y, abstract_step config op r x y.
Proof.
  intros Hr Ef. apply abstract_runs_app in Hr as (a1 & _ & Hr).
  inversion Hr as [|? ? ? ? a2 ? ? H1 H2 H3]; subst. by exists (a1 n), (a2 n); eapply H1.
Qed.

(** A caller whose save was answered with [Ok], after which the key was only read,
    has an acknowledged payload. *)
Lemma answered_saves_are_acknowledged (w0 : World) sys ch sub p :
  sound_world config w0 -> sys_reachable config w0 sys ->
  (ch, EvSubmission sub) ∈ sys_accepted sys -> saves (sub_operation sub) p ->
  (ch, ReplyUnit (Ok tt)) ∈ sent (sys_scheduler sys) ->
  (forall t1 fin t2, sys_history sys = t1 ++ (blake3_to_hex (sub_key_hash sub), sub_operation sub, fin) :: t2 ->
     Forall (fun run => run.1.1 = blake3_to_hex (sub_key_hash sub) -> reads run) t2) ->
  Forall (fun t => th_name t = blake3_to_hex (sub_key_hash sub) -> reader (th_operation t)) (sys_threads sys) ->
  acknowledged (blake3_to_hex (sub_key_hash sub)) p sys.
Proof.
  intros Hw Hr Hin Hp Hs Hreads Hths.
  destruct (answered_once config w0 sys ch sub (ReplyUnit (Ok tt)) Hmax Hr Hin Hs)
    as [[[E|E] _]|(fin & o & r & Hh & Ef & Ed)]; [by destruct (sub_operation sub)..|].
  apply list_elem_of_split in Hh as (t1 & t2 & Eh). split; [|done].
  exists t1, (sub_operation sub), fin, o, r, t2. split_and!; [done|done| |by eapply Hreads].
  destruct (sys_refines config Hc Hfits Hmax w0 sys Hw Hr) as (a & _ & Ha & _). rewrite Eh in Ha.
  destruct (abstract_run _ _ _ _ _ _ _ _ _ Ha Ef) as (x & y & Hstep). by eapply saved_publishes.
Qed.

End Proofs.
End Recovery.

(** ** On Unix *)

(** C7: acknowledged saves survive crashes.  The process is killed at any moment of
    any step of the store, inside a system call too, after a save of the key ended
    with [Ok] and only loads and inspections of the key followed.  When the store
    is opened again, and killed and opened again any number of times while the
    key is only read, the payload is in the file of the key, and stays there until
    an operation that writes the key begins; no load answers anything else,
    though one may fail. *)
Theorem acknowledged_saves_survive_a_crash {Crc : Crc32c} {CrcL : Crc32cLaws} {Tgt : Target}
    {Awf : AtomicWriteFile} {AwfL : AtomicWriteFileLaws} {Rx : Rustix} {RxL : RustixLaws}
    {B3 : Blake3} {B3L : Blake3Laws} {Order : HashMapOrder} {OrderL : HashMapOrderLaws}
    (config : StoreConfig) (w0 : World) sys w2 w3 key payload :
  0 < config_max_concurrent_operations config -> valid_config config -> fits_usize (maximum config) ->
  let n := blake3_to_hex (key_hash key) in
  sound_world config w0 -> sys_reachable config w0 sys -> acknowledged n payload sys ->
  killed config sys w2 -> rtc (read_only_life config n) w2 w3 ->
  stores config (view config w3 n) payload /\
  forall sys3, sys_reachable config w3 sys3 -> only_reads n sys3 ->
    stores config (view config (sys_world sys3) n) payload /\
    Forall (fun run => run.1.1 = n -> forall o r, fin_outcome run.2 = Some (o, r) -> answers_with config payload r)
      (sys_history sys3).
Proof. intros Hmax Hc Hf. exact (acknowledged_survives config (BkL := unix_backend_laws) Hc Hf Hmax w0 sys w2 w3 key payload). Qed.

(** ** Witness *)

Section Witnesses.

(** The world after the next call of a thread. *)
Definition after_call (t : option Thread) (w : World) : World :=
  match th_program <$> t with Some (Step call) => (call w).2 | _ => w end.

(** The process is killed when the save of [a] has made its next call; the save
    of [b] was acknowledged. *)
Definition crash_files : FsMap := w_fs (after_call (between.1 !! 0%nat) between.2).

Lemma crash_reopens :
  exists w2, reopens fixture_config (fixture_world crash_files []) w2.
Proof.
  assert (He : (initialize_platform (bstr "/srv") (bstr "cache") fixture_format 1024 4
    (fixture_world crash_files [])).1 = Ok fixture_config) by by vm_compute.
  destruct (initialize_platform _ _ _ _ _ _) as [r w2] eqn:E. cbn [fst] in He. subst r.
  exists w2. split; [done|]. split; [apply fixture_entropy|]. by exists (bstr "/srv"), (bstr "cache").
Qed.

(** A save that ended, while a thread works on another key. *)
Lemma just_saved n p ch fin st (w : World) t :
  fin_outcome fin = Some (Save p ch, RSave (Ok tt)) -> th_name t <> n ->
  acknowledged n p (Build_System st w [t] [(n, Save p ch, fin)]).
Proof.
  intros Hf Hne. split; [|by constructor].
  by exists [], (Save p ch), fin, (Save p ch), (RSave (Ok tt)), [].
Qed.

Lemma acknowledged_saves_survive_a_crash_witness :
  exists w2, reopens fixture_config (fixture_world crash_files []) w2 /\
    stores fixture_config (view fixture_config w2 (blake3_to_hex (key_hash key_b))) (bstr "pq").
Proof.
  destruct crash_reopens as [w2 Hre]. exists w2. split; [exact Hre|].
  destruct between_reachable as (st & t & call & fin & Hr & Hf & Ht & Hk & Ho & Ep).
  revert Hre. unfold crash_files, after_call. rewrite Ht. cbn [fmap option_fmap option_map]. rewrite Ep.
  revert Hr. generalize between.2. intros w Hr Hre.
  destruct (call w) as [p w'] eqn:Ec. cbn [snd] in Hre.
  assert (Hack : acknowledged (blake3_to_hex (key_hash key_b)) (bstr "pq")
    (Build_System st w [t] [(blake3_to_hex (key_hash key_b), save_b, fin)])).
  { apply just_saved; [done|]. unfold th_name. rewrite Hk. intros H. by vm_compute in H. }
  assert (Hkill : killed fixture_config (Build_System st w [t] [(blake3_to_hex (key_hash key_b), save_b, fin)]) w2).
  { apply (killed_during _ _ _ _ (fixture_world (w_fs w') [])
      (sys_call st w [t] _ 0 t call p w' eq_refl Ep Ec)); [by left|done]. }
  by apply (acknowledged_saves_survive_a_crash fixture_config (fixture_world full_store []) _ w2 w2 key_b (bstr "pq")
    ltac:(done) fixture_valid_config ltac:(by vm_compute) full_store_sound Hr Hack Hkill (rtc_refl _ w2)).
Defined.

End Witnesses.
