(* ===== verification/Shutdown.v ===== *)
(** * After a close

    A store that stopped, because it was closed or because its last handle was
    dropped, owes nobody an answer and has no operation in flight; opened again, it
    goes on from the map that the stopped store left, as if it had never stopped. *)
From S2P Require Export Liveness Recovery.

Local Open Scope N_scope.
Local Open Scope blob_scope.

Section Shutdown.
Context {Crc : Crc32c} {CrcL : Crc32cLaws} {Tgt : Target} {Bk : Backend} {BkL : BackendLaws}
  {BkS : BackendSteps} {BkI : BackendInterference}
  {B3 : Blake3} {B3L : Blake3Laws} {Order : HashMapOrder} {OrderL : HashMapOrderLaws}.
Context (config : StoreConfig).

(** The coordinator returned. *)
Definition has_stopped (sys : System) : Prop := eng_alive (st_engine (sys_state sys)) = false.

Lemma stopped_finished (w : World) sys :
  0 < config_max_concurrent_operations config -> sys_reachable config w sys -> has_stopped sys ->
  Finished_state (sys_scheduler sys).
Proof.
  intros Hmax Hr Ha. pose proof (sys_sound config w Hmax sys Hr) as Hs.
  pose proof (sound_coordinator _ _ Hs) as H. unfold coordinator_sound, has_stopped in *. by rewrite Ha in H.
Qed.

Lemma stopped_threads (w : World) sys :
  0 < config_max_concurrent_operations config -> sys_reachable config w sys -> has_stopped sys ->
  sys_threads sys = [].
Proof.
  intros Hmax Hr Ha. pose proof (stopped_finished w sys Hmax Hr Ha) as Hf.
  pose proof (placed_length sys (sys_placed config w sys Hmax Hr)) as Hl.
  rewrite (finished_channel _ Hf) in Hl. cbn in Hl. by destruct (sys_threads sys); [|cbn in Hl; lia].
Qed.

(** A history that goes on where another one ended. *)
Lemma abstract_runs_join a t1 a1 a1' t2 a2 :
  abstract_runs config a t1 a1 -> (forall h, hex_name h -> a1' h = a1 h) ->
  Forall (fun run => hex_name run.1.1) t2 ->
  abstract_runs config a1' t2 a2 -> abstract_runs config a (t1 ++ t2) a2.
Proof.
  intros H1 E Hh H2. induction H1 as [a a1 E1|a h o fin a0 t a1 Hs Ho _ IH]; cbn.
  - destruct H2 as [b b' E2|b h o fin b1 t b2 Hs Ho H].
    + constructor. intros h Hx. by rewrite E1, <-E, E2.
    + apply Forall_cons in Hh as [Hx _]. cbn in Hx. apply (abstract_cons _ _ _ _ _ b1); [| |done].
      * intros o' r Ef. rewrite E1, <-E by done. by apply Hs with (o' := o').
      * intros h' Hh' Hne. by rewrite Ho, E, E1.
  - apply (abstract_cons _ _ _ _ _ a0); [done|done|]. by apply IH.
Qed.

Lemma history_names (w : World) sys :
  0 < config_max_concurrent_operations config -> sys_reachable config w sys ->
  Forall (fun run => hex_name run.1.1) (sys_history sys).
Proof.
  intros Hmax Hr. apply Forall_forall. intros [[n op] fin] Hin. cbn.
  pose proof (sys_history_matches _ _ _ Hr) as Hm. unfold history_matches in Hm.
  assert (Hx : (n, op) ∈ map fst (sys_history sys)) by (apply list_elem_of_fmap; by exists (n, op, fin)).
  rewrite Hm in Hx. apply list_elem_of_fmap in Hx as ([k op'] & [= -> ->] & Hran).
  destruct (ran_accepted config _ _ _ (sys_sound config w Hmax sys Hr) Hran) as (_ & _ & _ & _ & Hk & _).
  by apply key_hex_name.
Qed.

(** C26: a stopped store can be opened again.  Once the coordinator returned, no
    operation is in flight and every call that was ever accepted was answered,
    exactly once; and when the store is opened again, the history of the stopped
    store and the one of the new store are together one history of the abstract
    map: nothing is lost between the two. *)
Theorem stopped_store_continues (w0 : World) sys w1 w2 sys2 :
  0 < config_max_concurrent_operations config -> backend_fit config -> fits_usize (maximum config) ->
  sound_world config w0 -> sys_reachable config w0 sys -> has_stopped sys ->
  w_fs w1 = w_fs (sys_world sys) -> reopens config w1 w2 -> sys_reachable config w2 sys2 ->
  sys_threads sys = [] /\
  (forall ch, ch ∈ map fst (sys_accepted sys) -> cnt ch (map fst (sent (sys_scheduler sys))) = 1%nat) /\
  exists a, abstract_runs config (view config w0) (sys_history sys ++ sys_history sys2) a /\
    forall h, hex_name h -> h ∉ map th_name (sys_threads sys2) -> view config (sys_world sys2) h = a h.
Proof.
  intros Hmax Hc Hf Hw0 Hr Ha Ew Hre Hr2. pose proof (stopped_threads w0 sys Hmax Hr Ha) as Ets.
  split_and!; [done| |].
  - intros ch Hch. pose proof (calls_accounted config _ ch (sys_sound config w0 Hmax sys Hr)) as H.
    rewrite (nothing_dropped config w0 Hmax sys Hr), decide_True in H by done.
    pose proof (finished_owed _ (stopped_finished w0 sys Hmax Hr Ha)) as Ho.
    unfold sys_scheduler in *. rewrite Ho, !cnt_nil in H. lia.
  - destruct (sys_refines config Hc Hf Hmax w0 sys Hw0 Hr) as (a1 & Hw & H1 & _ & _ & Hrest1 & _).
    destruct (reopened_sound config w1 w2) as [Hw2 Ew2]; [rewrite Ew; apply Hw|done|].
    destruct (sys_refines config Hc Hf Hmax w2 sys2 Hw2 Hr2) as (a & _ & H2 & _ & _ & Hrest & _).
    exists a. split; [|exact Hrest]. apply (abstract_runs_join _ _ a1 (view config w2)); [done| | |done].
    + rewrite Ets in Hrest1. intros h Hh. rewrite <-Hrest1 by (done || apply not_elem_of_nil).
      unfold view. by rewrite Ew2, Ew.
    + by eapply history_names.
Qed.

End Shutdown.

(** ** Witness *)

Section Witnesses.

Abbreviation start := (fixture_world full_store []).

(** The save of [sys_run] is answered, and the store closed. *)
Definition closing_calls : list Action := [Act_turn; Act_call CallClose; Act_turn].

Definition sys_closed : State := default fixture_start (acts closing_calls sys_completed).

Definition closed_system (fin : Finished) : System :=
  Build_System sys_closed saved_world [] [(blake3_to_hex (key_hash key_a), save_op, fin)].

Lemma closed_reachable : exists fin, sys_reachable fixture_config start (closed_system fin) /\
  fin_outcome fin = Some (save_op, RSave (Ok tt)).
Proof.
  destruct sys_run_reachable as (fin & Hr & Hf). exists fin. split; [|done].
  apply (acts_system fixture_config start closing_calls sys_completed); [done|exact Hr|by vm_compute].
Qed.

Lemma saved_reopens : exists w2, reopens fixture_config (fixture_world (w_fs saved_world) []) w2.
Proof.
  assert (He : (initialize_platform (bstr "/srv") (bstr "cache") fixture_format 1024 4
    (fixture_world (w_fs saved_world) [])).1 = Ok fixture_config) by by vm_compute.
  destruct (initialize_platform _ _ _ _ _ _) as [r w2] eqn:E. cbn [fst] in He. subst r.
  exists w2. split; [done|]. split; [apply fixture_entropy|]. by exists (bstr "/srv"), (bstr "cache").
Qed.

(** What was saved before the close is what the new store starts from. *)
Lemma stopped_store_continues_witness :
  exists a fin w2, fin_outcome fin = Some (save_op, RSave (Ok tt)) /\
    abstract_runs fixture_config (view fixture_config start)
      ([(blake3_to_hex (key_hash key_a), save_op, fin)] ++ []) a /\
    view fixture_config w2 (blake3_to_hex (key_hash key_a)) = a (blake3_to_hex (key_hash key_a)) /\
    cnt 0 (map fst (sent (st_scheduler sys_closed))) = 1%nat.
Proof.
  destruct closed_reachable as (fin & Hr & Hf). destruct saved_reopens as [w2 Hre].
  assert (Hstop : has_stopped (closed_system fin)) by by vm_compute.
  assert (Hr2 : sys_reachable fixture_config w2 (Build_System fixture_start w2 [] []))
    by exact (sys_open _ _ [] _ eq_refl).
  destruct (stopped_store_continues fixture_config start (closed_system fin) (fixture_world (w_fs saved_world) [])
    w2 _ ltac:(done) fixture_valid_config ltac:(by vm_compute) full_store_sound Hr Hstop eq_refl Hre Hr2)
    as (_ & Hans & a & Ha & Hrest).
  exists a, fin, w2. split_and!; [exact Hf|exact Ha| |].
  - apply Hrest; [|apply not_elem_of_nil]. apply key_hex_name. by vm_compute.
  - apply (Hans 0). vm_compute. left.
Defined.

End Witnesses.
