(* ===== verification/Blocking.v ===== *)
(** * The blocking facade ([src/src/blocking.rs])

    Every call waits for the pending result of the engine's call.  The streaming
    calls are the other end of the engine's channels: [save_from] reads the
    caller's reader in chunks and sends them, [load_into] writes the chunks that
    it receives.  What the other end of a channel does is an argument: which
    sends a worker still takes, which chunks a worker sends. *)
From S2P Require Export Engine.

Local Open Scope N_scope.
Local Open Scope blob_scope.

(** ** Waiting *)

(** [call.wait()]: [meanwhile] is what the program does until the channel of the
    call delivers, or is disconnected. *)
Definition wait_call {T} (call : Engine -> Pending T * Engine)
    (meanwhile : Engine -> option (result T AtomicBlobStoreError) * Engine) (e : Engine)
    : option (result T AtomicBlobStoreError * Engine) :=
  let (pending, e) := call e in
  let (received, e) := meanwhile e in
  wait pending received e.

(** The pending result of a stream whose own outcome is [error]: it is awaited
    and dropped, [let _ = result.wait(); return Err(error)]. *)
Definition discard_result {T} (error : AtomicBlobStoreError) (p : Pending T) : Pending T :=
  with_after p (fun _ e => Some (Err error, e)).

(** ** Pumping a reader into the channel of a streaming save *)

(** [pump_sends]: whether the worker's receiver is still there at the next sends;
    past the end of the list it is. *)
Record Pump := {
  pump_read : N;
  pump_reader : reader;
  pump_sends : list bool;
  pump_sent : list SaveStreamMessage;
}.

Definition Pump_new (r : reader) (sends : list bool) : Pump :=
  {| pump_read := 0; pump_reader := r; pump_sends := sends; pump_sent := [] |}.

Definition set_pump_reader (r : reader) (p : Pump) : Pump :=
  {| pump_read := pump_read p; pump_reader := r; pump_sends := pump_sends p;
     pump_sent := pump_sent p |}.

Definition add_read (count : N) (p : Pump) : Pump :=
  {| pump_read := pump_read p + count; pump_reader := pump_reader p; pump_sends := pump_sends p;
     pump_sent := pump_sent p |}.

(** [chunks.send(message)]: [false] when the receiver is gone. *)
Definition send_message (message : SaveStreamMessage) (p : Pump) : bool * Pump :=
  let taken := default true (head (pump_sends p)) in
  (taken,
   {| pump_read := pump_read p; pump_reader := pump_reader p; pump_sends := tail (pump_sends p);
      pump_sent := if taken then pump_sent p ++ [message] else pump_sent p |}).

(** How a pump ends: the result of the operation is the answer, or it is awaited
    and replaced by an error, or nobody is left to be answered (the future of the
    asynchronous facade was dropped). *)
Inductive Verdict :=
| Answer
| Discard (error : AtomicBlobStoreError)
| Dropped.

Section Pumping.
Context {Tgt : Target}.

(** One turn of [while read < declared_len]; [inr (None, _)] leaves the loop at
    its condition. *)
Definition save_from_step (declared_len : N) (p : Pump) : Pump + (option Verdict * Pump) :=
  if negb (pump_read p <? declared_len) then inr (None, p)
  else
    let requested := chunk_request (declared_len - pump_read p) in
    match read requested (pump_reader p) with
    | (Ok [], r) =>
        inr (Some (Discard (InputEndedEarly declared_len (pump_read p))), set_pump_reader r p)
    | (Err source, r) => inr (Some (Discard (InputIo source)), set_pump_reader r p)
    | (Ok chunk, r) =>
        match send_message (Chunk chunk) (add_read (blen chunk) (set_pump_reader r p)) with
        | (true, p) => inl p
        | (false, p) => inr (Some Answer, p)
        end
    end.

(** The probe for trailing bytes and the message that completes the stream. *)
Definition complete_stream (declared_len : N) (p : Pump) : Verdict * Pump :=
  match read 1 (pump_reader p) with
  | (Ok [], r) => let (_, p) := send_message Complete (set_pump_reader r p) in (Answer, p)
  | (Ok _, r) => (Discard (InputHasTrailingData declared_len), set_pump_reader r p)
  | (Err source, r) => (Discard (InputIo source), set_pump_reader r p)
  end.

(** A turn that continues has taken a byte from the reader. *)
Definition reader_fuel (r : reader) : nat := S (length (reader_data r)).

Definition pump_stream (declared_len : N) (r : reader) (sends : list bool) : Verdict * Pump :=
  match run_loop (reader_fuel r) (save_from_step declared_len) (fun p => (None, p))
          (Pump_new r sends) with
  | (Some verdict, p) => (verdict, p)
  | (None, p) => complete_stream declared_len p
  end.

End Pumping.

(** The pending result that answers the caller; none for a dropped future. *)
Definition verdict_pending {T} (v : Verdict) (p : Pending T) : option (Pending T) :=
  match v with
  | Answer => Some p
  | Discard error => Some (discard_result error p)
  | Dropped => None
  end.

(** ** Draining the channel of a streaming load *)

(** [while let Ok(chunk) = chunks.recv()]. *)
Fixpoint write_chunks (chunks : list bytes) : eff writer io_error unit :=
  match chunks with
  | [] => ret tt
  | chunk :: chunks => do? _ <- write_all chunk; write_chunks chunks
  end.

(** What the worker meets: the receiver is kept until the channel is
    disconnected and the load acknowledged ([drained]), unless a write fails;
    [accepts] are the sends until the worker meets the failure. *)
Definition writing_sink (drained : bool) (accepts : list bool) : chunk_sink :=
  {| accepts := if drained then [] else accepts; acknowledges := drained |}.

(** ** The calls *)

Section Calls.
Context {B3 : Blake3} {Tgt : Target} {Bk : Backend}.

Definition Blocking_open : Path -> Path -> AtomicBlobStoreOptions -> result unit io_error ->
    list (option bool) -> eff World AtomicBlobStoreError Engine := open.

Definition Blocking_load (key : bytes) := wait_call (load key).
Definition Blocking_save (key payload : bytes) := wait_call (save key payload).
Definition Blocking_clear (key : bytes) := wait_call (clear key).
Definition Blocking_inspect (key : bytes) := wait_call (inspect key).
Definition Blocking_quarantine (key : bytes) := wait_call (quarantine key).
Definition Blocking_cleanup_stale_temporary_files (minimum_age : Duration) :=
  wait_call (cleanup_stale_temporary_files minimum_age).
Definition Blocking_flush := wait_call flush.

(** [None]: the call does not return. *)
Definition Blocking_close (meanwhile : Engine -> option (result unit AtomicBlobStoreError) * Engine)
    (e : Engine) : option (result unit AtomicBlobStoreError * Engine) :=
  '(pending, e) ← close e;
  let (received, e) := meanwhile e in
  wait pending received e.

Definition Blocking_blob_path (key : bytes) (e : Engine) : Path := blob_path key e.

(** The result that the caller waits for, the caller's reader afterwards, and
    the engine with the operation submitted. *)
Definition Blocking_save_from (key : bytes) (r : reader) (declared_len : N) (sends : list bool)
    (e : Engine) : result (option (Pending unit)) AtomicBlobStoreError * reader * Engine :=
  let (verdict, p) := pump_stream declared_len r sends in
  match start_save_stream key declared_len (pump_sent p) e with
  | (Err error, e) => (Err error, r, e)
  | (Ok result, e) => (Ok (verdict_pending verdict result), pump_reader p, e)
  end.

(** [received]: the chunks the worker sends. *)
Definition Blocking_load_into (key : bytes) (w : writer) (received : list bytes)
    (accepts : list bool) (e : Engine)
    : result (Pending (option BlobMetadata)) AtomicBlobStoreError * writer * Engine :=
  let (written, w') := write_chunks received w in
  let sink := writing_sink (is_ok written) accepts in
  match start_load_stream key (Filesystem.accepts sink) (acknowledges sink) e with
  | (Err error, e) => (Err error, w, e)
  | (Ok result, e) =>
      (Ok (match written with
           | Ok _ => result
           | Err source => discard_result (OutputIo source) result
           end), w', e)
  end.

End Calls.
