(* ===== verification/Tokio.v ===== *)
(** * The asynchronous facade ([src/src/tokio.rs])

    The calls submit at once and hand out a future of the pending result.  The
    streaming calls are futures that pump like the blocking facade, but look
    first at the result of the operation before every read, and can be dropped
    by the caller wherever they wait. *)
From S2P Require Export Blocking.

Local Open Scope N_scope.
Local Open Scope blob_scope.

(** ** Awaiting *)

(** [Operation<T>]: a submitted operation, to be awaited by [wait_async]. *)
Record AsyncOperation (T : Type) := { op_future : Pending T }.
Arguments op_future {T}.

Definition AsyncOperation_new {T} (p : Pending T) : AsyncOperation T := {| op_future := p |}.

(** [Operation::new(call)]. *)
Definition submit_call {T} (call : Engine -> Pending T * Engine) (e : Engine)
    : AsyncOperation T * Engine :=
  let (p, e) := call e in (AsyncOperation_new p, e).

(** Awaiting the future to its end, or dropping it ([received] is [None]). *)
Definition await_operation {T} (o : AsyncOperation T)
    (received : option (option (result T AtomicBlobStoreError))) (e : Engine)
    : option (option (result T AtomicBlobStoreError) * Engine) :=
  match received with
  | None => Some (None, e)
  | Some received => '(r, e) ← wait (op_future o) received e; Some (Some r, e)
  end.

(** ** The streaming save *)

(** What a turn of the pump meets: the [select] is biased, so a result that is
    ready wins over the reader; the caller drops the future while it waits for
    the reader or for the channel. *)
Inductive Turn := ReadReady | ResultReady | DroppedReading | DroppedSending.

Section Pumping.
Context {Tgt : Target}.

(** One turn of [while read < declared_len]; past the end of [turns] every turn
    finds the reader ready. *)
Definition Tokio_save_from_step (declared_len : N) (s : Pump * list Turn)
    : (Pump * list Turn) + (option Verdict * (Pump * list Turn)) :=
  let '(p, turns) := s in
  if negb (pump_read p <? declared_len) then inr (None, s)
  else
    let requested := chunk_request (declared_len - pump_read p) in
    let turn := default ReadReady (head turns) in
    let turns := tail turns in
    match turn with
    | ResultReady => inr (Some Answer, (p, turns))
    | DroppedReading => inr (Some Dropped, (p, turns))
    | ReadReady | DroppedSending =>
        match read requested (pump_reader p) with
        | (Ok [], r) =>
            inr (Some (Discard (InputEndedEarly declared_len (pump_read p))),
                 (set_pump_reader r p, turns))
        | (Err source, r) => inr (Some (Discard (InputIo source)), (set_pump_reader r p, turns))
        | (Ok chunk, r) =>
            let p := add_read (blen chunk) (set_pump_reader r p) in
            match turn with
            | DroppedSending => inr (Some Dropped, (p, turns))
            | _ =>
                match send_message (Chunk chunk) p with
                | (true, p) => inl (p, turns)
                | (false, p) => inr (Some Answer, (p, turns))
                end
            end
        end
    end.

Definition Tokio_complete_stream (declared_len : N) (p : Pump) (turns : list Turn) : Verdict * Pump :=
  let turn := default ReadReady (head turns) in
  match turn with
  | ResultReady => (Answer, p)
  | DroppedReading => (Dropped, p)
  | ReadReady | DroppedSending =>
      match read 1 (pump_reader p) with
      | (Ok [], r) =>
          let p := set_pump_reader r p in
          match turn with
          | DroppedSending => (Dropped, p)
          | _ => let (_, p) := send_message Complete p in (Answer, p)
          end
      | (Ok _, r) => (Discard (InputHasTrailingData declared_len), set_pump_reader r p)
      | (Err source, r) => (Discard (InputIo source), set_pump_reader r p)
      end
  end.

Definition Tokio_pump_stream (declared_len : N) (r : reader) (sends : list bool) (turns : list Turn)
    : Verdict * Pump :=
  match run_loop (reader_fuel r) (Tokio_save_from_step declared_len) (fun s => (None, s))
          (Pump_new r sends, turns) with
  | (Some verdict, (p, _)) => (verdict, p)
  | (None, (p, turns)) => Tokio_complete_stream declared_len p turns
  end.

End Pumping.

(** ** The streaming load *)

(** What becomes of the wait for a chunk and of the write of it: both come to
    their end, or the future is dropped when [n] bytes of the chunk are written. *)
Inductive Await := AwaitDone | AwaitDropped (n : N).

(** Past the end of [awaits] every wait comes to its end; [None] is a dropped
    future. *)
Fixpoint Tokio_write_chunks (chunks : list bytes) (awaits : list Await) (w : writer)
    : option (result unit io_error) * writer :=
  match default AwaitDone (head awaits), chunks with
  | AwaitDropped _, [] => (None, w)
  | AwaitDropped n, chunk :: _ => (None, Writer (wr_data w ++ take (N.to_nat n) chunk) (wr_plan w))
  | AwaitDone, [] => (Some (Ok tt), w)
  | AwaitDone, chunk :: chunks =>
      match write_all chunk w with
      | (Err source, w) => (Some (Err source), w)
      | (Ok _, w) => Tokio_write_chunks chunks (tail awaits) w
      end
  end.

(** ** The calls *)

Section Calls.
Context {B3 : Blake3} {Tgt : Target} {Bk : Backend}.

(** [initialize]: starting the thread that opens the engine; [survives]: it
    sends the engine it opened, which a panic after the opening prevents. *)
Definition Tokio_open (root namespace : Path) (options : AtomicBlobStoreOptions)
    (initialize : result unit io_error) (survives : bool) (spawned : result unit io_error)
    (spawns : list (option bool)) : eff World AtomicBlobStoreError Engine :=
  match initialize with
  | Err source => throw (Io StartInitialization source)
  | Ok _ => do! opened <- open root namespace options spawned spawns;
      lift (if survives then opened else Err EngineFailed)
  end.

Definition Tokio_load (key : bytes) := submit_call (load key).
Definition Tokio_save (key payload : bytes) := submit_call (save key payload).
Definition Tokio_clear (key : bytes) := submit_call (clear key).
Definition Tokio_inspect (key : bytes) := submit_call (inspect key).
Definition Tokio_quarantine (key : bytes) := submit_call (quarantine key).
Definition Tokio_cleanup_stale_temporary_files (minimum_age : Duration) :=
  submit_call (cleanup_stale_temporary_files minimum_age).
Definition Tokio_flush := submit_call flush.

Definition Tokio_close (e : Engine) : option (AsyncOperation unit * Engine) :=
  '(p, e) ← close e; Some (AsyncOperation_new p, e).

Definition Tokio_blob_path (key : bytes) (e : Engine) : Path := blob_path key e.

Definition Tokio_save_from (key : bytes) (r : reader) (declared_len : N) (sends : list bool)
    (turns : list Turn) (e : Engine)
    : result (option (Pending unit)) AtomicBlobStoreError * reader * Engine :=
  let (verdict, p) := Tokio_pump_stream declared_len r sends turns in
  match start_save_stream key declared_len (pump_sent p) e with
  | (Err error, e) => (Err error, r, e)
  | (Ok result, e) => (Ok (verdict_pending verdict result), pump_reader p, e)
  end.

Definition Tokio_load_into (key : bytes) (w : writer) (received : list bytes) (awaits : list Await)
    (accepts : list bool) (e : Engine)
    : result (option (Pending (option BlobMetadata))) AtomicBlobStoreError * writer * Engine :=
  let (written, w') := Tokio_write_chunks received awaits w in
  let sink := writing_sink (default false (is_ok <$> written)) accepts in
  match start_load_stream key (Filesystem.accepts sink) (acknowledges sink) e with
  | (Err error, e) => (Err error, w, e)
  | (Ok result, e) =>
      (Ok (match written with
           | None => None
           | Some (Ok _) => Some result
           | Some (Err source) => Some (discard_result (OutputIo source) result)
           end), w', e)
  end.

End Calls.
