(* ===== verification/FacadeSpec.v ===== *)
(** * What the facades send and write

    The pumps of both facades against one specification: which bytes of the
    reader reach the channel, when the stream is completed, and with what answer
    the pump ends. *)
From S2P Require Export Tokio LoadSpec.

Local Open Scope N_scope.
Local Open Scope blob_scope.

(** ** Readers *)

Lemma push_data_fails d r e : RFail e ∈ push_data d r <-> RFail e ∈ r.
Proof. destruct d; [done|]. simpl. rewrite elem_of_cons. split; [by intros [|]|by right]. Qed.

(** What a read that answers leaves of the reader. *)
Lemma read_leaves n r bs r' :
  read n r = (Ok bs, r') ->
  (forall e, RFail e ∈ r' -> RFail e ∈ r) /\ (reader_dense r = true -> reader_dense r' = true).
Proof.
  destruct r as [|[d|e] r]; simpl; intros; simplify_eq; [done|]. split.
  - intros e H. right. by eapply push_data_fails.
  - intros H. apply andb_prop in H as [_ H]. by apply reader_dense_push.
Qed.

(** What any read takes: at most what it asked for. *)
Lemma read_takes n r x r' :
  read n r = (x, r') -> exists used, reader_data r = used ++ reader_data r' /\ blen used <= n /\
    (forall bs, x = Ok bs -> used = bs).
Proof.
  destruct x as [bs|e]; intros E.
  - exists bs. apply read_prefix in E as [E1 E2]. split_and!; [done..|]. by intros bs' [= <-].
  - exists []. destruct r as [|[d|e'] r]; simpl in E; simplify_eq. split_and!; [done| |done].
    unfold blen. simpl. lia.
Qed.

Lemma read_fails n r e r' : read n r = (Err e, r') -> RFail e ∈ r.
Proof. destruct r as [|[d|e'] r]; simpl; intros; simplify_eq. left. Qed.

Lemma calm_no_fail r e : reader_calm r = true -> RFail e ∉ r.
Proof.
  unfold reader_calm. rewrite forallb_forall. intros H Hin%list_elem_of_In. by apply H in Hin.
Qed.

Lemma calm_dense r : reader_calm r = true -> reader_dense r = true.
Proof.
  unfold reader_calm, reader_dense. rewrite !forallb_forall. intros H x Hx. specialize (H x Hx).
  by destruct x.
Qed.

(** ** The pump *)

Section Pumps.
Context {Tgt : Target}.
Context (declared : N) (r0 : reader) (sends0 : list bool) (turns0 : list Turn).

(** The chunks sent are a prefix of what the reader has, none of them empty or
    larger than the buffer, and together no longer than declared. *)
Record prefix_sent (cs : list bytes) : Prop := {
  prefix_chunks : Forall stream_chunk cs;
  prefix_total : blen (concat cs) <= declared;
  prefix_data : exists rest, reader_data r0 = concat cs ++ rest;
}.

(** Why a pump ended without completing the stream. *)
Definition stopped (cs : list bytes) (v : Verdict) : Prop :=
  match v with
  | Answer => false ∈ sends0 \/ ResultReady ∈ turns0
  | Dropped => DroppedReading ∈ turns0 \/ DroppedSending ∈ turns0
  | Discard (InputEndedEarly d n) =>
      d = declared /\ n = blen (concat cs) /\ n < declared /\
      (reader_dense r0 = true -> reader_data r0 = concat cs)
  | Discard (InputHasTrailingData d) =>
      d = declared /\ blen (concat cs) = declared /\ declared < blen (reader_data r0)
  | Discard (InputIo e) => RFail e ∈ r0
  | Discard _ => False
  end.

(** The stream was completed: the reader had the declared bytes and its end. *)
Definition completed (cs : list bytes) : Prop :=
  blen (concat cs) = declared /\ (reader_dense r0 = true -> reader_data r0 = concat cs).

(** The counter stays below the declared length, and at most one byte more than
    declared is taken from the reader. *)
Definition frugal (p : Pump) : Prop :=
  pump_read p <= declared /\
  exists used, reader_data r0 = used ++ reader_data (pump_reader p) /\ blen used <= declared + 1.

Definition pumped (v : Verdict) (p : Pump) : Prop :=
  frugal p /\
  exists cs, prefix_sent cs /\
    ((pump_sent p = map Chunk cs /\ stopped cs v) \/
     (pump_sent p = map Chunk cs ++ [Complete] /\ v = Answer /\ completed cs) \/
     (pump_sent p = map Chunk cs /\ v = Answer /\ completed cs /\ false ∈ sends0)).

(** Between two turns. *)
Record pumping (cs : list bytes) (p : Pump) (turns : list Turn) : Prop := {
  pumping_sent : pump_sent p = map Chunk cs;
  pumping_chunks : Forall stream_chunk cs;
  pumping_read : pump_read p = blen (concat cs);
  pumping_bound : pump_read p <= declared;
  pumping_data : reader_data r0 = concat cs ++ reader_data (pump_reader p);
  pumping_fails e : RFail e ∈ pump_reader p -> RFail e ∈ r0;
  pumping_dense : reader_dense r0 = true -> reader_dense (pump_reader p) = true;
  pumping_sends : forall b, b ∈ pump_sends p -> b ∈ sends0;
  pumping_turns : forall t, t ∈ turns -> t ∈ turns0;
}.

Lemma pumping_prefix cs p turns : pumping cs p turns -> prefix_sent cs.
Proof. intros []. split; [done|lia|eauto]. Qed.

Lemma pumping_frugal cs p turns p' n x r :
  pumping cs p turns -> pump_read p + n <= declared + 1 -> read n (pump_reader p) = (x, r) ->
  pump_reader p' = r -> pump_read p' <= declared -> frugal p'.
Proof.
  intros Hp Hn E <- Hd. apply read_takes in E as (used & E & Hl & _). split; [done|].
  exists (concat cs ++ used). rewrite (pumping_data _ _ _ Hp), E, app_assoc. split; [done|].
  rewrite blen_app. pose proof (pumping_read _ _ _ Hp). lia.
Qed.

Lemma pumping_idle cs p turns : pumping cs p turns -> frugal p.
Proof.
  intros []. split; [done|]. exists (concat cs). split; [done|lia].
Qed.

Lemma head_elem {A} (x d : A) l : default d (head l) = x -> x <> d -> x ∈ l.
Proof. destruct l; simpl; [by intros ->|]. intros -> _. left. Qed.

Lemma tail_elem {A} (x : A) l : x ∈ tail l -> x ∈ l.
Proof. destruct l; [done|]. by right. Qed.

Lemma pumping_start : pumping [] (Pump_new r0 sends0) turns0.
Proof. split; simpl; try done. lia. Qed.

Lemma pumping_tail cs p turns : pumping cs p turns -> pumping cs p (tail turns).
Proof. intros []. split; try done. eauto using tail_elem. Qed.

(** A chunk was read and the channel took it. *)
Lemma pumping_chunk cs p turns chunk r requested :
  pumping cs p turns -> pump_read p < declared -> requested = chunk_request (declared - pump_read p) ->
  read requested (pump_reader p) = (Ok chunk, r) -> chunk <> [] ->
  stream_chunk chunk /\
  pumping (cs ++ [chunk])
    (snd (send_message (Chunk chunk) (add_read (blen chunk) (set_pump_reader r p)))) turns \/
  default true (head (pump_sends p)) = false.
Proof.
  intros Hp Hd -> E Hn. destruct (default true (head (pump_sends p))) eqn:Es; [left|by right].
  destruct Hp as [H1 H2 H3 H4 H5 H6 H7 H8 H9].
  destruct (read_prefix _ _ _ _ E) as [Hdata Hl]. destruct (read_leaves _ _ _ _ E) as [Hf Hdn].
  rewrite chunk_request_eq in Hl.
  assert (0 < blen chunk) by (destruct chunk; [done|]; unfold blen; simpl; lia).
  assert (Hc : stream_chunk chunk) by (split; lia). split; [done|].
  unfold send_message. cbn [pump_sends pump_sent pump_read pump_reader add_read set_pump_reader snd].
  rewrite Es. split; cbn [pump_sends pump_sent pump_read pump_reader].
  - by rewrite H1, map_app.
  - by apply Forall_app; split; [|apply Forall_singleton].
  - rewrite concat_snoc, blen_app. lia.
  - lia.
  - by rewrite concat_snoc, H5, Hdata, app_assoc.
  - auto.
  - auto.
  - eauto using tail_elem.
  - done.
Qed.

(** A read that answers [Ok(0)] has met the end of a reader without a premature one. *)
Lemma pumping_end cs p turns n r :
  pumping cs p turns -> 0 < n -> read n (pump_reader p) = (Ok [], r) ->
  reader_dense r0 = true -> reader_data r0 = concat cs.
Proof.
  intros Hp Hn E Hd. destruct (read_dense_end n (pump_reader p) r) as [Er _];
    [by apply (pumping_dense _ _ _ Hp)|done..|].
  by rewrite (pumping_data _ _ _ Hp), Er, app_nil_r.
Qed.

Lemma request_pos remaining : 0 < remaining -> 0 < chunk_request remaining.
Proof. rewrite chunk_request_eq. change STREAM_CHUNK_SIZE with 65536. lia. Qed.

(** What the loop leaves: an ended pump, or one with all declared bytes sent. *)
Definition loop_post (x : option Verdict * (Pump * list Turn)) : Prop :=
  match x with
  | (Some v, (p, _)) =>
      frugal p /\ exists cs, prefix_sent cs /\ pump_sent p = map Chunk cs /\ stopped cs v
  | (None, (p, turns)) => exists cs, pumping cs p turns /\ pump_read p = declared
  end.

Lemma loop_turn cs p turns :
  pumping cs p turns ->
  match Tokio_save_from_step declared (p, turns) with
  | inl (p', turns') => (exists cs', pumping cs' p' turns') /\
      (length (reader_data (pump_reader p')) < length (reader_data (pump_reader p)))%nat
  | inr x => loop_post x
  end.
Proof.
  intros Hp. pose proof (pumping_prefix _ _ _ Hp) as Hpre. unfold Tokio_save_from_step.
  destruct (pump_read p <? declared) eqn:Hd; cbn [negb]; reflect_bools.
  2:{ exists cs. split; [done|]. pose proof (pumping_bound _ _ _ Hp). lia. }
  assert (Hstop : forall v p', frugal p' -> pump_sent p' = pump_sent p -> stopped cs v ->
    frugal p' /\ exists cs, prefix_sent cs /\ pump_sent p' = map Chunk cs /\ stopped cs v).
  { intros v p' Hf Hs Hv. split; [done|]. exists cs. split_and!; [done|rewrite Hs; apply Hp|done]. }
  assert (Hreq : pump_read p + chunk_request (declared - pump_read p) <= declared)
    by (rewrite chunk_request_eq; lia).
  destruct (default ReadReady (head turns)) eqn:Ht.
  2,3: apply Hstop; [by eapply pumping_idle|done|]; simpl; eauto using head_elem, pumping_turns.
  all: destruct (read _ (pump_reader p)) as [x r] eqn:E.
  all: assert (Hf : forall p', pump_reader p' = r -> pump_read p' <= declared -> frugal p')
    by (intros p'; eapply pumping_frugal; [done| |done]; lia).
  all: assert (Hidle : frugal (set_pump_reader r p)) by (apply Hf; simpl; [done|lia]).
  all: destruct x as [[|b bs]|e].
  1,4: apply Hstop; [done..|]; split_and!; [done|apply Hp|done|].
  1,2: eapply pumping_end; [done| |done]; apply request_pos; lia.
  2,4: apply Hstop; [done..|]; apply (pumping_fails _ _ _ Hp); by eapply read_fails.
  all: assert (Hadd : frugal (add_read (blen (b :: bs)) (set_pump_reader r p)))
    by (apply Hf; [done|]; apply read_prefix in E as [_ E]; cbn [pump_read add_read set_pump_reader]; lia).
  2: apply Hstop; [done..|]; right; eapply (pumping_turns _ _ _ Hp), head_elem; by rewrite ?Ht.
  pose proof (pumping_chunk _ _ _ (b :: bs) r _ Hp Hd eq_refl E) as Hc.
  destruct (send_message _ _) as [taken p'] eqn:Es.
  assert (Hsame : taken = default true (head (pump_sends p)) /\ pump_reader p' = r /\ frugal p' /\
    (taken = false -> pump_sent p' = pump_sent p)).
  { unfold send_message in Es. injection Es as <- <-. split_and!; [done..|by cbn; intros ->]. }
  destruct Hsame as (Etk & Er & Hfr & Hsent). destruct taken.
  - destruct Hc as [[_ Hc]|Hc]; [done| |congruence]. split.
    + eexists. by apply pumping_tail in Hc.
    + apply read_prefix in E as [E _]. rewrite Er, E, length_app. simpl. lia.
  - apply Hstop; [done|by apply Hsent|]. left.
    eapply (pumping_sends _ _ _ Hp), head_elem; by rewrite <-?Etk.
Qed.

Lemma pump_loop : loop_post (run_loop (reader_fuel r0) (Tokio_save_from_step declared)
  (fun s => (None, s)) (Pump_new r0 sends0, turns0)).
Proof.
  apply (run_loop_rule _ _ (fun '(p, turns) => exists cs, pumping cs p turns)
    (fun '(p, _) => length (reader_data (pump_reader p)))).
  - intros [p turns] [cs Hp]. pose proof (loop_turn cs p turns Hp) as H.
    by destruct (Tokio_save_from_step declared (p, turns)) as [[p' turns']|x].
  - exists []. apply pumping_start.
  - unfold reader_fuel. simpl. lia.
Qed.

Lemma complete_pumped cs p turns :
  pumping cs p turns -> pump_read p = declared ->
  let (v, p') := Tokio_complete_stream declared p turns in pumped v p'.
Proof.
  intros Hp Hr. pose proof (pumping_prefix _ _ _ Hp) as Hpre.
  assert (Hstop : forall v p', frugal p' -> pump_sent p' = pump_sent p -> stopped cs v -> pumped v p').
  { intros v p' Hf E Hv. split; [done|]. exists cs. split; [done|]. left. split; [rewrite E; apply Hp|done]. }
  unfold Tokio_complete_stream. destruct (default ReadReady (head turns)) eqn:Ht.
  2,3: apply Hstop; [by eapply pumping_idle|done|]; simpl; eauto using head_elem, pumping_turns.
  all: destruct (read 1 (pump_reader p)) as [x r] eqn:E.
  all: assert (Hf : forall p', pump_reader p' = r -> pump_read p' <= declared -> frugal p')
    by (intros p'; eapply pumping_frugal; [done| |done]; lia).
  all: assert (Hidle : frugal (set_pump_reader r p)) by (apply Hf; simpl; [done|lia]).
  all: destruct x as [[|b bs]|e].
  3,6: apply Hstop; [done..|]; apply (pumping_fails _ _ _ Hp); by eapply read_fails.
  2,4: apply Hstop; [done..|]; apply read_prefix in E as [E _];
    rewrite (pumping_read _ _ _ Hp) in Hr; split_and!; [done..|];
    rewrite (pumping_data _ _ _ Hp), E, !blen_app, Hr; unfold blen; simpl; lia.
  - assert (Hcomp : completed cs).
    { split; [by rewrite <-(pumping_read _ _ _ Hp)|]. eapply pumping_end; [done| |done]; lia. }
    unfold send_message. cbn [pump_sends pump_sent set_pump_reader].
    split; [by apply Hf; cbn; [|lia]|]. exists cs. split; [done|]. cbn [pump_sent].
    destruct (default true (head (pump_sends p))) eqn:Es; right; [left|right];
      rewrite (pumping_sent _ _ _ Hp); split_and!; try done.
    eapply (pumping_sends _ _ _ Hp), head_elem; by rewrite ?Es.
  - apply Hstop; [done..|]. right. eapply (pumping_turns _ _ _ Hp), head_elem; by rewrite ?Ht.
Qed.

Lemma tokio_pumped :
  let (v, p) := Tokio_pump_stream declared r0 sends0 turns0 in pumped v p.
Proof.
  unfold Tokio_pump_stream. pose proof pump_loop as H.
  destruct (run_loop _ _ _ _) as [[v|] [p turns]].
  - destruct H as (Hf & cs & H1 & H2 & H3). split; [done|]. exists cs. auto.
  - destruct H as (cs & H1 & H2). by eapply complete_pumped.
Qed.

End Pumps.

(** ** The two facades *)

Section Agreement.
Context {Tgt : Target}.

(** With a reader that is always ready first the asynchronous pump takes the
    turns of the blocking one. *)
Lemma pump_loops_agree declared fuel p :
  run_loop fuel (Tokio_save_from_step declared) (fun s => (None, s)) (p, []) =
    let (v, p') := run_loop fuel (save_from_step declared) (fun p => (None, p)) p in (v, (p', [])).
Proof.
  revert p; induction fuel as [|fuel IH]; intros p; [done|]. rewrite !run_loop_S.
  unfold Tokio_save_from_step, save_from_step. cbn [head default tail].
  destruct (negb _); [done|]. destruct (read _ _) as [[[|b bs]|e] r]; [done| |done].
  destruct (send_message _ _) as [[] p']; [apply IH|done].
Qed.

Lemma pumps_agree declared r sends :
  Tokio_pump_stream declared r sends [] = pump_stream declared r sends.
Proof.
  unfold Tokio_pump_stream, pump_stream. rewrite pump_loops_agree.
  by destruct (run_loop _ _ _ _) as [[v|] p].
Qed.

Lemma write_chunks_agree chunks w :
  Tokio_write_chunks chunks [] w = (fun '(r, w') => (Some r, w')) (write_chunks chunks w).
Proof.
  revert w; induction chunks as [|c cs IH]; intros w; [done|]. cbn [Tokio_write_chunks write_chunks].
  unfold bind. destruct (write_all c w) as [[[]|e] w']; [apply IH|done].
Qed.

Lemma blocking_pumped declared r sends :
  let (v, p) := pump_stream declared r sends in pumped declared r sends [] v p.
Proof. rewrite <-pumps_agree. apply tokio_pumped. Qed.

(** The payload of a completed stream is what the reader had. *)
Lemma stream_payload_open cs : stream_payload (map Chunk cs) = None.
Proof. induction cs as [|c cs IH]; [done|]. cbn. by rewrite IH. Qed.

Lemma pumped_payload declared r sends turns v p q :
  pumped declared r sends turns v p -> stream_payload (pump_sent p) = Some q ->
  v = Answer /\ blen q = declared /\ (reader_dense r = true -> reader_data r = q) /\
  exists rest, reader_data r = q ++ rest.
Proof.
  intros (_ & cs & Hp & Hs) E. destruct Hp as [_ _ Hd].
  destruct Hs as [[Hs _]|[(Hs & -> & [Hl Hr])|(Hs & _)]]; rewrite Hs in E.
  1,3: by rewrite stream_payload_open in E.
  rewrite stream_payload_chunks in E. by simplify_eq.
Qed.

(** Without failures, refusals or dropped futures the verdict compares the length
    of the reader's data with the declared one. *)
Definition calm_verdict (declared : N) (data : bytes) : Verdict :=
  match blen data ?= declared with
  | Lt => Discard (InputEndedEarly declared (blen data))
  | Eq => Answer
  | Gt => Discard (InputHasTrailingData declared)
  end.

Lemma pump_calm declared r :
  reader_calm r = true ->
  let (v, p) := pump_stream declared r [] in
  v = calm_verdict declared (reader_data r) /\
  (blen (reader_data r) = declared -> stream_payload (pump_sent p) = Some (reader_data r)).
Proof.
  intros Hc. pose proof (blocking_pumped declared r []) as H.
  destruct (pump_stream declared r []) as [v p]. destruct H as (_ & cs & [_ Ht [rest Hd]] & Hs).
  pose proof (calm_dense _ Hc) as Hdn. unfold calm_verdict.
  destruct Hs as [[Hs Hv]|[(Hs & -> & [Hl Hr])|(_ & _ & _ & Hf)]];
    [| |by apply elem_of_nil in Hf].
  - destruct v as [|e|]; [by destruct Hv as [Hf|Hf]; apply elem_of_nil in Hf| |
      by destruct Hv as [Hf|Hf]; apply elem_of_nil in Hf].
    assert (Hio : forall source, e <> InputIo source) by (intros source ->; by apply (calm_no_fail r source) in Hc).
    destruct e; try done.
    + destruct Hv as (-> & -> & Hlt & Hr). rewrite (Hr Hdn).
      destruct (N.compare_spec (blen (concat cs)) declared); [lia| |lia].
      split; [done|lia].
    + destruct Hv as (-> & Hl & Hlt).
      destruct (N.compare_spec (blen (reader_data r)) declared); [lia|lia|].
      split; [done|lia].
    + by destruct (Hio source).
  - rewrite (Hr Hdn), Hl, N.compare_refl, Hs, stream_payload_chunks. done.
Qed.

End Agreement.

(** ** Writing what arrives *)

Lemma write_chunks_ok cs w w' :
  write_chunks cs w = (Ok tt, w') -> wr_data w' = wr_data w ++ concat cs.
Proof.
  revert w; induction cs as [|c cs IH]; intros w E.
  - injection E as <-. cbn. by rewrite app_nil_r.
  - apply bind_inv_ok in E as ([] & w1 & E1%write_all_result & E2%IH).
    by rewrite E2, E1, <-app_assoc.
Qed.

Lemma write_chunks_calm cs w :
  writer_ok w = true -> exists w', write_chunks cs w = (Ok tt, w').
Proof.
  revert w; induction cs as [|c cs IH]; intros w Hw; [by exists w|].
  destruct (write_all_ok c w Hw) as (w1 & E1 & _ & Hw1). destruct (IH w1 Hw1) as [w' E].
  exists w'. cbn. unfold bind. by rewrite E1.
Qed.

(** Whatever happens, a prefix of the chunks was appended; all of it in the end. *)
Lemma tokio_write_chunks_spec cs awaits w x w' :
  Tokio_write_chunks cs awaits w = (x, w') ->
  (exists n, wr_data w' = wr_data w ++ take n (concat cs)) /\
  (x = Some (Ok tt) -> wr_data w' = wr_data w ++ concat cs).
Proof.
  revert awaits w; induction cs as [|c cs IH]; intros awaits w.
  - cbn. destruct (default AwaitDone (head awaits)) as [|n]; intros; simplify_eq;
      (split; [exists 0%nat|intros]); by rewrite app_nil_r.
  - cbn [Tokio_write_chunks concat]. destruct (default AwaitDone (head awaits)) as [|n].
    + destruct (write_all c w) as [[[]|e] w1] eqn:E1; apply write_all_result in E1.
      * intros E. destruct (IH _ _ E) as [[n Hn] Hx]. rewrite E1 in *. split.
        -- exists (length c + n)%nat. by rewrite Hn, take_app_add, <-app_assoc.
        -- intros Hok. by rewrite Hx, <-app_assoc.
      * destruct E1 as [n Hn]. intros; simplify_eq. split; [|done].
        exists (min n (length c)). rewrite Hn. f_equal. rewrite take_app_le by lia.
        destruct (decide (n <= length c)%nat); [by rewrite Nat.min_l|].
        by rewrite Nat.min_r, !take_ge by lia.
    + intros; simplify_eq/=. split; [|done]. exists (min (N.to_nat n) (length c)). f_equal.
      rewrite take_app_le by lia. destruct (decide (N.to_nat n <= length c)%nat); [by rewrite Nat.min_l|].
      by rewrite Nat.min_r, !take_ge by lia.
Qed.
