(* ===== verification/Streams.v ===== *)
(** * The two ends of a stream

    A streaming save is a thread of the facade that reads and sends ([save_next],
    the loop of [save_from] in [src/src/tokio.rs]; the loop of
    [src/src/blocking.rs] is the same without turns) and a worker that receives
    and writes ([write_receive], the loop of [src/src/format.rs]).  A streaming
    load is a worker that reads and sends ([load_next]) and a facade that writes
    ([chunk_receive]).  [Blocking], [Tokio] and [Filesystem] run one end at a time
    and take what the other end does as arguments.  Every interleaving of the two
    ends over the channel is one of these runs: [streaming_loads_are_sequential]
    for the loops of a load; for a save [StreamedSaves] shows it of the whole
    session, in which the facade also waits for the result. *)
From S2P Require Export Channels FacadeSpec.

Local Open Scope N_scope.
Local Open Scope blob_scope.

Definition stream_capacity : nat := N.to_nat STREAM_CHANNEL_CAPACITY.

(** ** Saving *)

Section Saving.
Context {Crc : Crc32c} {Tgt : Target}.

(** The facade: in its loop, or about to leave with its verdict. *)
Inductive SaveSender :=
| Reading (count : N) (r : reader) (turns : list Turn)
| Pumped (v : Verdict) (r : reader).

Definition save_next (declared_len : N) (s : SaveSender)
    : SenderAct SaveStreamMessage SaveSender (Verdict * reader) :=
  match s with
  | Pumped v r => Leave (v, r)
  | Reading count r turns =>
      let turn := default ReadReady (head turns) in
      match turn with
      | ResultReady => Leave (Answer, r)
      | DroppedReading => Leave (Dropped, r)
      | ReadReady | DroppedSending =>
          if (count <? declared_len) then
            match read (chunk_request (declared_len - count)) r with
            | (Ok [], r) => Leave (Discard (InputEndedEarly declared_len count), r)
            | (Err source, r) => Leave (Discard (InputIo source), r)
            | (Ok chunk, r) =>
                match turn with
                | DroppedSending => Leave (Dropped, r)
                | _ => Offer (Chunk chunk) (fun taken =>
                    if taken then Reading (count + blen chunk) r (tail turns) else Pumped Answer r)
                end
            end
          else
            match read 1 r with
            | (Ok [], r) =>
                match turn with
                | DroppedSending => Leave (Dropped, r)
                | _ => Offer Complete (fun _ => Pumped Answer r)
                end
            | (Ok _, r) => Leave (Discard (InputHasTrailingData declared_len), r)
            | (Err source, r) => Leave (Discard (InputIo source), r)
            end
      end
  end.

(** The worker: the checksum, the bytes written, and its file. *)
Definition write_receive (declared_len : N) (s : N * N * writer) (message : option SaveStreamMessage)
    : (N * N * writer) + (result unit AtomicBlobStoreError * writer) :=
  let '(checksum, written, w) := s in
  match message with
  | None => inr (Err StreamCancelled, w)
  | Some (Chunk chunk) =>
      let count := blen chunk in
      let fits := match checked_add U64_MAX written count with
                  | Some total => total <=? declared_len
                  | None => false
                  end in
      if negb fits then inr (Err (InputHasTrailingData declared_len), w)
      else match write_section chunk w with
           | (Err e, w') => inr (Err e, w')
           | (Ok _, w') => inl (crc32c_append checksum chunk, written + count, w')
           end
  | Some Complete =>
      if negb (written =? declared_len) then inr (Err (InputEndedEarly declared_len written), w)
      else inr (write_section (be_bytes 4 checksum) w)
  end.

(** A worker does not stop waiting. *)
Definition never_gives_up {C RC} (_ : C) : option RC := None.

Lemma write_receive_none declared s : exists r, write_receive declared s None = inr r.
Proof. destruct s as [[checksum written] w]. by eexists. Qed.

(** The worker alone is [write_stream_loop]. *)
Lemma drains_write declared checksum written w ms ran w' rest :
  drains (write_receive declared) never_gives_up (checksum, written, w) ms (ran, w') rest ->
  write_stream_loop declared ms checksum written w = (ran, (w', rest)).
Proof.
  intros H. remember (checksum, written, w) as s eqn:Es. remember (ran, w') as x eqn:Ex.
  revert checksum written w Es; induction H as [s x E|s m ms x E|s ms x E|s m ms s' x rest E _ IH];
    intros checksum written w ->; subst; cbn in E; [by simplify_eq| |done|].
  - destruct m as [chunk|]; cbn; cbn in E.
    + destruct (negb _); [by simplify_eq|]. by destruct (write_section chunk w) as [[[]|e] w1]; simplify_eq.
    + destruct (negb _); [by simplify_eq|]. injection E as E. rewrite E. by destruct ran as [[]|].
  - destruct m as [chunk|]; cbn; cbn in E.
    + destruct (negb _); [done|]. destruct (write_section chunk w) as [[[]|e] w1]; simplify_eq. by apply IH.
    + by destruct (negb _).
Qed.

(** The facade alone is the pump. *)
Definition pump_from (declared : N) (fuel : nat) (s : Pump * list Turn) : Verdict * Pump :=
  match run_loop fuel (Tokio_save_from_step declared) (fun s => (None, s)) s with
  | (Some verdict, (p, _)) => (verdict, p)
  | (None, (p, turns)) => Tokio_complete_stream declared p turns
  end.

Lemma read_shrinks n r b bs r' :
  read n r = (Ok (b :: bs), r') -> (length (reader_data r') < length (reader_data r))%nat.
Proof. intros E. apply read_prefix in E as [-> _]. cbn. rewrite length_app. lia. Qed.

Lemma pump_from_S declared fuel s :
  pump_from declared (S fuel) s =
    match Tokio_save_from_step declared s with
    | inl s => pump_from declared fuel s
    | inr (Some verdict, (p, _)) => (verdict, p)
    | inr (None, (p, turns)) => Tokio_complete_stream declared p turns
    end.
Proof. unfold pump_from. rewrite run_loop_S. by destruct (Tokio_save_from_step declared s) as [|[[] []]]. Qed.

(** What a pump with the result [x] and the messages [ms] ahead of it comes to. *)
Definition pumps_to (x : Verdict * reader) (ms : list SaveStreamMessage) (y : Verdict * Pump) : Prop :=
  let (v, p) := y in x = (v, pump_reader p) /\ pump_sent p = ms.

Lemma pumps_leave declared fuel count r turns bs sent x :
  save_next declared (Reading count r turns) = Leave x ->
  pumps_to x sent (pump_from declared (S fuel)
    ({| pump_read := count; pump_reader := r; pump_sends := bs; pump_sent := sent |}, turns)).
Proof.
  rewrite pump_from_S. unfold save_next, Tokio_save_from_step, Tokio_complete_stream.
  cbn [pump_read pump_reader]. destruct (count <? declared); cbn [negb pump_reader];
    destruct (default ReadReady (head turns)); try (by intros [= <-]);
    destruct (read _ r) as [[[|b chunk]|e] r1]; try done; try (by intros [= <-]).
Qed.

Lemma offers_pump declared fuel count r turns bs ms x sent :
  offers (save_next declared) (Reading count r turns) bs ms x -> (length (reader_data r) < fuel)%nat ->
  pumps_to x (sent ++ ms) (pump_from declared fuel
    ({| pump_read := count; pump_reader := r; pump_sends := bs; pump_sent := sent |}, turns)).
Proof.
  revert count r turns bs ms sent; induction fuel as [|fuel IH]; intros count r turns bs ms sent H Hf; [lia|].
  apply offers_inv in H. destruct (save_next declared (Reading count r turns)) as [m k|x'] eqn:E.
  2:{ destruct H as (-> & -> & ->). rewrite app_nil_r. by apply pumps_leave. }
  destruct H as (b & bs' & ms' & -> & -> & H). rewrite pump_from_S.
  unfold save_next, Tokio_save_from_step in *. cbn [pump_read pump_reader].
  destruct (default ReadReady (head turns)) eqn:Et; try done; destruct (count <? declared) eqn:Ec; cbn [negb];
    unfold Tokio_complete_stream; cbn [pump_reader]; rewrite ?Et;
    destruct (read _ r) as [[[|c chunk]|e] r1] eqn:Er; try done.
  - injection E as <- <-. unfold send_message. cbn [pump_sends head default tail]. destruct b.
    + pose proof (IH _ _ _ _ _ (sent ++ [Chunk (c :: chunk)]) H) as Hp. rewrite <-app_assoc in Hp.
      apply Hp. apply read_shrinks in Er. lia.
    + apply offers_inv in H. destruct H as (-> & -> & ->). by rewrite app_nil_r.
  - injection E as <- <-. apply offers_inv in H. cbn in H.
    destruct H as (-> & -> & ->). unfold send_message. cbn. destruct b; cbn; by rewrite ?app_nil_r.
Qed.

End Saving.

(** ** Loading *)

Section Loading.
Context {Crc : Crc32c} {Tgt : Target}.

(** The worker: the payload bytes that it has still to send, and its file. *)
Inductive LoadSender :=
| Delivering (remaining : N) (r : reader)
| Delivered (delivered : result unit AtomicBlobStoreError).

Definition load_next (s : LoadSender) : SenderAct bytes LoadSender (result unit AtomicBlobStoreError) :=
  match s with
  | Delivered delivered => Leave delivered
  | Delivering remaining r =>
      if (remaining =? 0) then Leave (Ok tt)
      else
        let requested := chunk_request remaining in
        match read_section requested Payload r with
        | (Err e, _) => Leave (Err e)
        | (Ok chunk, r) =>
            Offer chunk (fun taken =>
              if taken then Delivering (remaining - requested) r else Delivered (Err StreamCancelled))
        end
  end.

(** The facade: its writer, and where its future is dropped; no outcome of the
    writes for a dropped future. *)
Definition chunk_receive (s : writer * list Await) (message : option bytes)
    : (writer * list Await) + (option (result unit io_error) * writer) :=
  let '(w, awaits) := s in
  match default AwaitDone (head awaits), message with
  | AwaitDropped _, None => inr (None, w)
  | AwaitDropped n, Some chunk => inr (None, Writer (wr_data w ++ take (N.to_nat n) chunk) (wr_plan w))
  | AwaitDone, None => inr (Some (Ok tt), w)
  | AwaitDone, Some chunk =>
      match write_all chunk w with
      | (Err source, w) => inr (Some (Err source), w)
      | (Ok _, w) => inl (w, tail awaits)
      end
  end.

(** The future is dropped while it waits for a chunk. *)
Definition chunk_gives_up (s : writer * list Await) : option (option (result unit io_error) * writer) :=
  let '(w, awaits) := s in
  match head awaits with Some (AwaitDropped _) => Some (None, w) | _ => None end.

Abbreviation load_moves := (link_moves load_next chunk_receive chunk_gives_up stream_capacity).

Lemma chunk_receive_none s : exists r, chunk_receive s None = inr r.
Proof. destruct s as [w awaits]. cbn. destruct (default AwaitDone (head awaits)); by eexists. Qed.

(** The facade alone writes the chunks; a future that was dropped while it waited
    was dropped before the first byte of the next chunk. *)
Lemma drains_chunks w awaits cs x w' rest :
  drains chunk_receive chunk_gives_up (w, awaits) cs (x, w') rest ->
  exists awaits', (awaits = [] -> awaits' = []) /\ Tokio_write_chunks cs awaits' w = (x, w').
Proof.
  intros H. remember (w, awaits) as s eqn:Es. remember (x, w') as y eqn:Ey.
  revert w awaits Es; induction H as [s y E|s c cs y E|s cs y E|s c cs s' y rest E _ IH];
    intros w awaits ->; subst; cbn in E.
  - exists awaits. cbn. by destruct (default AwaitDone (head awaits)); simplify_eq.
  - exists awaits. cbn. destruct (default AwaitDone (head awaits)); [|by simplify_eq].
    by destruct (write_all c w) as [[[]|e] w1]; simplify_eq.
  - exists [AwaitDropped 0]. destruct awaits as [|[|n] awaits]; try done. injection E as <- <-. split; [done|].
    destruct cs as [|c cs]; cbn; [done|]. rewrite app_nil_r. by destruct w.
  - destruct (default AwaitDone (head awaits)); [|done].
    destruct (write_all c w) as [[[]|e] w1] eqn:Ew; [|done]. injection E as <-.
    destruct (IH eq_refl w1 (tail awaits) eq_refl) as (awaits' & Hn & Ha).
    destruct awaits as [|a awaits].
    + exists []. split; [done|]. cbn. rewrite Ew. by rewrite (Hn eq_refl) in Ha.
    + exists (AwaitDone :: awaits'). split; [done|]. cbn. by rewrite Ew.
Qed.

(** Only a facade that saw the end of the stream has written all of it. *)
Lemma early_not_drained w' : ~ ends_early chunk_receive chunk_gives_up (Some (Ok tt), w').
Proof.
  intros [([w awaits] & c & E)|([w awaits] & E)]; cbn in E.
  - destruct (default AwaitDone (head awaits)); [|done]. by destruct (write_all c w) as [[[]|e] w1].
  - by destruct (head awaits) as [[]|].
Qed.

(** The worker alone is [deliver_payload]. *)
Lemma offers_deliver fuel remaining r bs cs res sent :
  offers load_next (Delivering remaining r) bs cs res ->
  (N.to_nat (remaining / STREAM_CHUNK_SIZE) + 1 < fuel)%nat ->
  run_loop fuel deliver_step (fun '(_, _, _, sent) => (Ok tt, sent)) (remaining, r, bs, sent) = (res, sent ++ cs).
Proof.
  revert remaining r bs cs sent; induction fuel as [|fuel IH]; intros remaining r bs cs sent H Hf;
    [by apply Nat.nlt_0_r in Hf|].
  apply offers_inv in H. cbn [load_next] in H. rewrite run_loop_S. unfold deliver_step at 1.
  destruct (remaining =? 0) eqn:E0.
  { destruct H as (-> & -> & ->). by rewrite app_nil_r. }
  destruct (read_section (chunk_request remaining) Payload r) as [[chunk|e] r'].
  2:{ destruct H as (-> & -> & ->). by rewrite app_nil_r. }
  destruct H as (b & bs' & cs' & -> & -> & H).
  cbn [head default tail id from_option]. destruct b.
  - rewrite chunk_request_eq in *.
    replace (sent ++ chunk :: cs') with ((sent ++ [chunk]) ++ cs') by by rewrite <-app_assoc.
    destruct (chunk_fuel_step remaining fuel Hf) as [Hf'|[Er Hf']]; [by apply IH|].
    rewrite Er in *. apply offers_inv in H. cbn in H. destruct H as (-> & -> & ->). rewrite app_nil_r.
    destruct fuel as [|fuel]; [by apply Nat.nlt_0_r in Hf'|]. by rewrite run_loop_S.
  - apply offers_inv in H. cbn in H. destruct H as (-> & -> & ->). by rewrite app_nil_r.
Qed.

(** A channel that takes everything. *)
Lemma deliver_all_accepted fuel remaining r bs sent spent :
  Forall (eq true) bs ->
  run_loop fuel deliver_step (fun '(_, _, _, sent) => spent sent) (remaining, r, bs, sent) =
    run_loop fuel deliver_step (fun '(_, _, _, sent) => spent sent) (remaining, r, [], sent).
Proof.
  revert remaining r bs sent; induction fuel as [|fuel IH]; intros remaining r bs sent Hb; [done|].
  rewrite !run_loop_S. unfold deliver_step at 1 3. destruct (remaining =? 0); [done|].
  destruct (read_section _ _ r) as [[chunk|e] r']; [|done].
  destruct Hb as [|b bs <- Hb]; [done|]. cbn. by apply IH.
Qed.

Definition load_sends_left (s : LoadSender) : nat :=
  match s with Delivering remaining _ => N.to_nat remaining | Delivered _ => O end.

Lemma load_sends_fewer s m k b : load_next s = Offer m k -> (load_sends_left (k b) < load_sends_left s)%nat.
Proof.
  destruct s as [remaining r|d]; [|done]. cbn. destruct (remaining =? 0) eqn:E; [done|]. reflect_bools.
  destruct (read_section _ _ r) as [[chunk|e] r']; [|done]. intros [= <- <-].
  pose proof (request_pos remaining ltac:(lia)). destruct b; cbn; lia.
Qed.

End Loading.

(** ** Theorems *)

Section Theorems.
Context {Crc : Crc32c} {Tgt : Target}.

(** C13: streaming loads are sequential.  Whatever the interleaving of the worker
    and the facade, with a writer that may fail and a future that may be dropped:
    the worker delivered the payload to a sink that accepts as the facade did, and
    the facade wrote the chunks that were sent. *)
Theorem streaming_loads_are_sequential len r w awaits delivered q x w' :
  rtc (link_moves load_next chunk_receive chunk_gives_up stream_capacity)
    (linked (Delivering len r) (w, awaits))
    (Build_Link (SenderGone (Some delivered)) q (ReceiverGone (Some (x, w')))) ->
  exists accepts awaits' sent,
    deliver_payload len r (Filesystem.accepts (writing_sink (default false (is_ok <$> x)) accepts)) = (delivered, sent) /\
    Tokio_write_chunks sent awaits' w = (x, w') /\
    (awaits = [] -> exists written, x = Some written /\ write_chunks sent w = (written, w')).
Proof.
  intros H. apply (link_runs _ _ _ _ chunk_receive_none) in H as (bs & cs & Hs & Hr). cbn in Hs, Hr.
  destruct Hr as [Hd Hb]. apply drains_chunks in Hd as (awaits' & Hn & Ha).
  pose proof (offers_deliver (chunk_fuel len) len r bs cs delivered [] Hs ltac:(unfold chunk_fuel; lia)) as Hl.
  exists bs, awaits', cs. split_and!; [|done|].
  - unfold deliver_payload. destruct x as [[[]|e]|]; cbn; [|done..].
    rewrite <-(deliver_all_accepted _ _ _ bs _ (fun sent => (Ok tt, sent))); [done|].
    destruct Hb as [[Hb _]|He]; [done|]. by destruct (early_not_drained w').
  - intros E. rewrite (Hn E), write_chunks_agree in Ha. destruct (write_chunks cs w) as [y w1].
    exists y. by simplify_eq.
Qed.

End Theorems.

(** ** Witnesses *)

Section Witnesses.

Definition three_bytes : reader := [RData (bstr "xy"); RData (bstr "z")].

Definition empty_file : writer := Writer [] [].

Definition load_link : Link (M := bytes) :=
  link_run load_next chunk_receive stream_capacity 20 (linked (Delivering 3 three_bytes) (empty_file, [])).

Lemma streaming_loads_are_sequential_witness :
  exists accepts sent w', deliver_payload 3 three_bytes
      (Filesystem.accepts (writing_sink true accepts)) = (Ok tt, sent) /\
    write_chunks sent empty_file = (Ok tt, w') /\ wr_data w' = bstr "xyz".
Proof.
  assert (Hl : exists w', wr_data w' = bstr "xyz" /\
    load_link = Build_Link (SenderGone (Some (Ok tt))) [] (ReceiverGone (Some (Some (Ok tt), w'))))
    by (eexists; split; [|by vm_compute]; done).
  destruct Hl as (w' & Hd & Hl).
  assert (Hr : rtc (link_moves load_next chunk_receive chunk_gives_up stream_capacity)
    (linked (Delivering 3 three_bytes) (empty_file, [])) load_link) by apply link_run_moves.
  rewrite Hl in Hr.
  destruct (streaming_loads_are_sequential 3 three_bytes empty_file [] (Ok tt) [] (Some (Ok tt)) w' Hr)
    as (acc & awaits' & sent & H1 & _ & H2).
  destruct (H2 eq_refl) as (y & [= <-] & H3). by exists acc, sent, w'.
Defined.

End Witnesses.
