(* ===== verification/Sessions.v ===== *)
(** * Streaming calls from end to end

    A streaming call is two threads that share more than the chunks: the facade
    also waits for the result of the operation, and the worker of a load for an
    acknowledgement.  A [Session] has both threads with every channel between
    them, and says who still holds which end, because a thread that waits while
    it keeps an end may wait for a thread that waits for that end.

    [save_facade] is [save_from] of [src/src/tokio.rs] (with [select], or without
    it the one of [src/src/blocking.rs]) and [save_worker] what
    [save_blob_from_receiver] does with the channel; [load_facade] and
    [load_worker] are [load_into] and [load_blob_into_sender].  Their loops are
    those of [Streams].  The channels are those that the documentation of [flume]
    describes: a bounded queue, a send that fails once nobody receives, and a
    receive that fails once the queue is empty and nobody sends. *)
From S2P Require Export Streams.

Local Open Scope N_scope.
Local Open Scope blob_scope.

(** ** What a thread does next *)

Inductive Act (M R S X : Type) :=
| Send (m : M) (k : bool -> S)             (* [chunks.send]: [false] when nobody receives *)
| Recv (k : option M -> S)                 (* [chunks.recv]: [None] when nobody sends *)
| DropChunks (s : S)                       (* [drop(chunks)] *)
| Acknowledge (s : S)                      (* [acknowledgement.send(())], which consumes it *)
| RecvAck (k : bool -> S)                  (* [acknowledgement.recv()] *)
| DropAck (s : S)
| Wait (k : option R -> S)                 (* [result.wait()]: [None] when its sender is gone *)
| Select (k : option R -> S) (s : S)       (* a biased [select] between the result and going on *)
| Reply (r : R) (s : S)                    (* the coordinator delivers the result *)
| Return (x : X).                          (* the thread is done and drops what it holds *)
Arguments Send {M R S X}. Arguments Recv {M R S X}. Arguments DropChunks {M R S X}.
Arguments Acknowledge {M R S X}. Arguments RecvAck {M R S X}. Arguments DropAck {M R S X}.
Arguments Wait {M R S X}. Arguments Select {M R S X}. Arguments Reply {M R S X}. Arguments Return {M R S X}.

(** The ends that a thread holds. *)
Record Ends := { holds_chunks : bool; holds_ack : bool; holds_result : bool }.

Definition all_ends : Ends := {| holds_chunks := true; holds_ack := true; holds_result := true |}.
Definition no_ends : Ends := {| holds_chunks := false; holds_ack := false; holds_result := false |}.
Definition without_chunks (e : Ends) : Ends :=
  {| holds_chunks := false; holds_ack := holds_ack e; holds_result := holds_result e |}.
Definition without_ack (e : Ends) : Ends :=
  {| holds_chunks := holds_chunks e; holds_ack := false; holds_result := holds_result e |}.
Definition without_result (e : Ends) : Ends :=
  {| holds_chunks := holds_chunks e; holds_ack := holds_ack e; holds_result := false |}.

(** What is in the channels. *)
Record Wires (M R : Type) := { in_chunks : list M; in_ack : bool; in_result : option R }.
Arguments Build_Wires {M R}. Arguments in_chunks {M R}. Arguments in_ack {M R}. Arguments in_result {M R}.

Section Kernel.
Context {M R : Type}.

(** What [a] comes to for a thread with the ends [mine] beside one with [yours];
    [None] while it blocks. *)
Definition perform {S X} (a : Act M R S X) (mine yours : Ends) (w : Wires M R)
    : option ((S + X) * Ends * Wires M R) :=
  match a with
  | Send m k =>
      if holds_chunks yours then
        if (length (in_chunks w) <? stream_capacity)%nat
        then Some (inl (k true), mine, Build_Wires (in_chunks w ++ [m]) (in_ack w) (in_result w))
        else None
      else Some (inl (k false), mine, w)
  | Recv k =>
      match in_chunks w with
      | m :: q => Some (inl (k (Some m)), mine, Build_Wires q (in_ack w) (in_result w))
      | [] => if holds_chunks yours then None else Some (inl (k None), mine, w)
      end
  | DropChunks s => Some (inl s, without_chunks mine, w)
  | Acknowledge s => Some (inl s, without_ack mine, Build_Wires (in_chunks w) true (in_result w))
  | RecvAck k =>
      if in_ack w then Some (inl (k true), mine, w)
      else if holds_ack yours then None else Some (inl (k false), mine, w)
  | DropAck s => Some (inl s, without_ack mine, w)
  | Wait k =>
      match in_result w with
      | Some r => Some (inl (k (Some r)), mine, w)
      | None => if holds_result yours then None else Some (inl (k None), mine, w)
      end
  | Select k s =>
      match in_result w with
      | Some r => Some (inl (k (Some r)), mine, w)
      | None => if holds_result yours then Some (inl s, mine, w) else Some (inl (k None), mine, w)
      end
  | Reply r s => Some (inl s, without_result mine, Build_Wires (in_chunks w) (in_ack w) (Some r))
  | Return x => Some (inr x, no_ends, w)
  end.

(** ** Two threads *)

Context {F XF W XW : Type}.
Context (facade_next : F -> Act M R F XF) (worker_next : W -> Act M R W XW).

(** [inr None] is a thread that was lost: a future that was dropped, a worker
    that panicked. *)
Record Session := {
  facade : F + option XF;
  facade_ends : Ends;
  worker : W + option XW;
  worker_ends : Ends;
  wires : Wires M R;
}.

Definition goes_on {S X} (x : S + X) : S + option X :=
  match x with inl s => inl s | inr x => inr (Some x) end.

Inductive session_step : Session -> Session -> Prop :=
| facade_acts f fe wk we w x fe' w' :
    perform (facade_next f) fe we w = Some (x, fe', w') ->
    session_step (Build_Session (inl f) fe wk we w) (Build_Session (goes_on x) fe' wk we w')
| worker_acts fd fe k we w x we' w' :
    perform (worker_next k) we fe w = Some (x, we', w') ->
    session_step (Build_Session fd fe (inl k) we w) (Build_Session fd fe (goes_on x) we' w').

(** The caller drops its future at any moment; the job of the worker panics
    before its result is delivered, and the unwinding drops what it holds. *)
Inductive session_lost : Session -> Session -> Prop :=
| facade_lost f fe wk we w :
    session_lost (Build_Session (inl f) fe wk we w) (Build_Session (inr None) no_ends wk we w)
| worker_lost fd fe k we w :
    holds_result we = true ->
    session_lost (Build_Session fd fe (inl k) we w) (Build_Session fd fe (inr None) no_ends w).

Definition session_moves (s s' : Session) : Prop := session_step s s' \/ session_lost s s'.

Definition session_over (s : Session) : Prop :=
  match facade s, worker s with inr _, inr _ => True | _, _ => False end.

Definition session_start (f : F) (k : W) : Session :=
  Build_Session (inl f) all_ends (inl k) all_ends (Build_Wires [] false None).

(** A schedule that prefers the facade, or the worker. *)
Definition session_next (prefer : bool) (s : Session) : option Session :=
  let facade_goes :=
    match facade s with
    | inl f => '(x, fe, w) ← perform (facade_next f) (facade_ends s) (worker_ends s) (wires s);
        Some (Build_Session (goes_on x) fe (worker s) (worker_ends s) w)
    | inr _ => None
    end in
  let worker_goes :=
    match worker s with
    | inl k => '(x, we, w) ← perform (worker_next k) (worker_ends s) (facade_ends s) (wires s);
        Some (Build_Session (facade s) (facade_ends s) (goes_on x) we w)
    | inr _ => None
    end in
  if prefer
  then match facade_goes with Some s => Some s | None => worker_goes end
  else match worker_goes with Some s => Some s | None => facade_goes end.

Fixpoint session_run (prefer : bool) (fuel : nat) (s : Session) : Session :=
  match fuel with
  | O => s
  | S fuel => match session_next prefer s with Some s' => session_run prefer fuel s' | None => s end
  end.

Lemma session_next_step prefer s s' : session_next prefer s = Some s' -> session_step s s'.
Proof.
  destruct s as [fd fe wk we w]. unfold session_next. cbn.
  set (fg := match fd with inl f => _ | inr _ => None end). set (wg := match wk with inl k => _ | inr _ => None end).
  assert (Hf : forall t, fg = Some t -> session_step (Build_Session fd fe wk we w) t).
  { subst fg. intros t E. destruct fd as [f|]; [|done].
    destruct (perform (facade_next f) fe we w) as [[[x fe'] w']|] eqn:Ep; [|done]. cbn in E. simplify_eq.
    by apply facade_acts. }
  assert (Hw : forall t, wg = Some t -> session_step (Build_Session fd fe wk we w) t).
  { subst wg. intros t E. destruct wk as [k|]; [|done].
    destruct (perform (worker_next k) we fe w) as [[[x we'] w']|] eqn:Ep; [|done]. cbn in E. simplify_eq.
    by apply worker_acts. }
  destruct prefer, fg, wg; intros; simplify_eq; eauto.
Qed.

Lemma session_run_steps prefer fuel s : rtc session_step s (session_run prefer fuel s).
Proof.
  revert s; induction fuel as [|fuel IH]; intros s; [done|]. cbn.
  destruct (session_next prefer s) as [s'|] eqn:E; [|done].
  eapply rtc_l; [by eapply session_next_step|apply IH].
Qed.

Lemma steps_move s s' : rtc session_step s s' -> rtc session_moves s s'.
Proof. apply rtc_subrel. by left. Qed.

(** ** Bounds and termination *)

Lemma perform_bounded {S X} (a : Act M R S X) mine yours w x mine' w' :
  perform a mine yours w = Some (x, mine', w') ->
  (length (in_chunks w) <= stream_capacity)%nat -> (length (in_chunks w') <= stream_capacity)%nat.
Proof.
  destruct a as [m k|k|s|s|k|s|k|k s|r s|x']; cbn; repeat case_match; intros; simplify_eq/=; try done;
    repeat match goal with H : in_chunks _ = _ |- _ => rewrite H in *; clear H end;
    rewrite ?length_app; cbn in *; reflect_bools; lia.
Qed.

Lemma session_bounded f k s :
  rtc session_moves (session_start f k) s -> (length (in_chunks (wires s)) <= stream_capacity)%nat.
Proof.
  intros H. assert (H0 : (length (in_chunks (wires (session_start f k))) <= stream_capacity)%nat) by (cbn; lia).
  revert H0. induction H as [|s1 s2 s3 Hst _ IH]; [done|]. intros H0. apply IH. clear IH. revert H0.
  destruct Hst as [[]|[]]; cbn; eauto using perform_bounded.
Qed.

(** A rank that every action of a thread lowers; a message that is sent counts,
    one that is received makes up for an action. *)
Definition ranked {P X} (rank : P -> nat) (n : nat) (a : Act M R P X) : Prop :=
  match a with
  | Send _ k => forall b, (S (rank (k b)) < n)%nat
  | Recv k => (forall m, (rank (k (Some m)) <= n)%nat) /\ (rank (k None) < n)%nat
  | DropChunks s | Acknowledge s | DropAck s | Reply _ s => (rank s < n)%nat
  | RecvAck k => forall b, (rank (k b) < n)%nat
  | Wait k => forall r, (rank (k r) < n)%nat
  | Select k s => (forall r, (rank (k r) < n)%nat) /\ (rank s < n)%nat
  | Return _ => True
  end.

Definition end_rank {P X} (rank : P -> nat) (x : P + X) : nat :=
  match x with inl s => S (rank s) | inr _ => O end.

Lemma perform_ranked {P X} (rank : P -> nat) (a : Act M R P X) n mine yours w x mine' w' :
  ranked rank n a -> perform a mine yours w = Some (x, mine', w') ->
  (end_rank rank (goes_on x) + length (in_chunks w') < S n + length (in_chunks w))%nat.
Proof.
  destruct a as [m k|k|s|s|k|s|k|k s|r s|x']; cbn [ranked perform]; intros Hr E; repeat case_match; simplify_eq/=;
    rewrite ?length_app; cbn; try lia; try (by specialize (Hr true); lia); try (by specialize (Hr false); lia);
    try destruct Hr as [Hr Hr']; try (by specialize (Hr None); lia);
    match goal with |- context [rank (k (Some ?x))] => first [specialize (Hr x)|specialize (Hr (Some x))] | _ => idtac end;
    repeat match goal with H : in_chunks _ = _ |- _ => rewrite H end; cbn; lia.
Qed.

Section Termination.
Context (facade_rank : F -> nat) (worker_rank : W -> nat).
Context (facade_ranked : forall f, ranked facade_rank (facade_rank f) (facade_next f)).
Context (worker_ranked : forall k, ranked worker_rank (worker_rank k) (worker_next k)).

Definition session_work (s : Session) : nat :=
  (end_rank facade_rank (facade s) + end_rank worker_rank (worker s) + length (in_chunks (wires s)))%nat.

Lemma session_works s s' : session_moves s s' -> (session_work s' < session_work s)%nat.
Proof.
  intros [[f fe wk we w x fe' w' E|fd fe k we w x we' w' E]|[f fe wk we w|fd fe k we w _]];
    unfold session_work; cbn [facade worker wires].
  - pose proof (perform_ranked facade_rank _ _ _ _ _ _ _ _ (facade_ranked f) E) as H.
    change (end_rank facade_rank (inl f)) with (S (facade_rank f)). lia.
  - pose proof (perform_ranked worker_rank _ _ _ _ _ _ _ _ (worker_ranked k) E) as H.
    change (end_rank worker_rank (inl k)) with (S (worker_rank k)). lia.
  - cbn. lia.
  - cbn. lia.
Qed.

(** Every run of the two threads ends. *)
Lemma session_terminates s : sn session_moves s.
Proof.
  induction s as [s IH] using (well_founded_induction (Wf_nat.well_founded_ltof Session session_work)).
  constructor. intros s' H. apply IH. by apply session_works.
Qed.

End Termination.

(** ** Blocking *)

Definition blocked {P X} (a : Act M R P X) (yours : Ends) (w : Wires M R) : Prop :=
  match a with
  | Send _ _ => holds_chunks yours = true /\ (stream_capacity <= length (in_chunks w))%nat
  | Recv _ => holds_chunks yours = true /\ in_chunks w = []
  | RecvAck _ => holds_ack yours = true /\ in_ack w = false
  | Wait _ => holds_result yours = true /\ in_result w = None
  | _ => False
  end.

Lemma performs_or_blocks {P X} (a : Act M R P X) mine yours w :
  (exists y, perform a mine yours w = Some y) \/ blocked a yours w.
Proof.
  destruct a as [m k|k|s|s|k|s|k|k s|r s|x]; cbn; repeat case_match; eauto.
  all: right; split; [done|]; first [done|reflect_bools; lia].
Qed.

(** Each thread that is there waits for the other one. *)
Definition deadlocked (s : Session) : Prop :=
  match facade s, worker s with
  | inl f, inl k => blocked (facade_next f) (worker_ends s) (wires s) /\
                    blocked (worker_next k) (facade_ends s) (wires s)
  | inl f, inr _ => blocked (facade_next f) (worker_ends s) (wires s)
  | inr _, inl k => blocked (worker_next k) (facade_ends s) (wires s)
  | inr _, inr _ => False
  end.

Lemma session_progress s : session_over s \/ (exists s', session_step s s') \/ deadlocked s.
Proof.
  destruct s as [[f|x] fe [k|y] we w]; cbn; [| | |by left].
  - destruct (performs_or_blocks (facade_next f) fe we w) as [[[[x fe'] w'] E]|Hf];
      [right; left; eexists; by apply facade_acts|].
    destruct (performs_or_blocks (worker_next k) we fe w) as [[[[x we'] w'] E]|Hk];
      [right; left; eexists; by apply worker_acts|]. by do 2 right.
  - destruct (performs_or_blocks (facade_next f) fe we w) as [[[[z fe'] w'] E]|Hf];
      [right; left; eexists; by apply facade_acts|]. by do 2 right.
  - destruct (performs_or_blocks (worker_next k) we fe w) as [[[[z we'] w'] E]|Hf];
      [right; left; eexists; by apply worker_acts|]. by do 2 right.
Qed.

End Kernel.

(** ** A streaming save *)

Section Saving.
Context {Crc : Crc32c} {Tgt : Target}.

Inductive SaveFacade :=
| Selecting (count : N) (r : reader)       (* at [select!] *)
| Pumping (count : N) (r : reader)         (* at [read], and at the send of what was read *)
| Completed (v : Verdict)                  (* the stream is complete, [chunks] still held *)
| AwaitingResult (v : Verdict)
| Answered (answer : result unit AtomicBlobStoreError).

(** The next turn of the loop; [selects] is the asynchronous facade. *)
Definition next_turn_of (selects : bool) (count : N) (r : reader) : SaveFacade :=
  if selects then Selecting count r else Pumping count r.

(** What the caller is answered for a verdict on the awaited result. *)
Definition verdict_answer {T} (v : Verdict) (outcome : option (result T AtomicBlobStoreError))
    : result T AtomicBlobStoreError :=
  match v with
  | Discard error => Err error
  | _ => default (Err EngineFailed) outcome
  end.

Definition save_facade (selects : bool) (declared_len : N) (s : SaveFacade)
    : Act SaveStreamMessage (result unit AtomicBlobStoreError) SaveFacade (result unit AtomicBlobStoreError) :=
  match s with
  | Selecting count r => Select (fun outcome => Answered (verdict_answer Answer outcome)) (Pumping count r)
  | Pumping count r =>
      match save_next declared_len (Reading count r []) with
      | Offer m k =>
          Send m (fun taken =>
            match k taken, taken with
            | Reading count r _, _ => next_turn_of selects count r
            | Pumped v _, true => Completed v
            | Pumped v _, false => AwaitingResult v
            end)
      | Leave (v, _) => DropChunks (AwaitingResult v)
      end
  | Completed v => DropChunks (AwaitingResult v)
  | AwaitingResult v => Wait (fun outcome => Answered (verdict_answer v outcome))
  | Answered answer => Return answer
  end.

Inductive SaveWorker :=
| Writing (s : N * N * writer)
| Replying (ran : result unit AtomicBlobStoreError) (w : writer)
| Leaving (ran : result unit AtomicBlobStoreError) (w : writer).

(** The operation ends with the error of the loop, or with what the commit of a
    complete file answers. *)
Definition save_outcome (committed ran : result unit AtomicBlobStoreError) : result unit AtomicBlobStoreError :=
  match ran with Ok _ => committed | Err e => Err e end.

(** The receiver is dropped with the operation, after its result was delivered. *)
Definition save_worker (committed : result unit AtomicBlobStoreError) (declared_len : N) (s : SaveWorker)
    : Act SaveStreamMessage (result unit AtomicBlobStoreError) SaveWorker (result unit AtomicBlobStoreError * writer) :=
  match s with
  | Writing s =>
      Recv (fun message =>
        match write_receive declared_len s message with
        | inl s => Writing s
        | inr (ran, w) => Replying ran w
        end)
  | Replying ran w => Reply (save_outcome committed ran) (Leaving ran w)
  | Leaving ran w => Return (ran, w)
  end.

(** The worker once it wrote the header to its file, or failed before. *)
Definition save_worker_start (config : StoreConfig) (declared_len : N)
    (opened : result unit AtomicBlobStoreError) (w : writer) : SaveWorker :=
  match envelope_header (format config) declared_len (maximum config), opened with
  | Err e, _ | Ok _, Err e => Replying (Err e) w
  | Ok header, Ok _ =>
      match write_section header w with
      | (Err e, w) => Replying (Err e) w
      | (Ok _, w) => Writing (crc32c header, 0, w)
      end
  end.

Definition save_session (config : StoreConfig) (declared_len : N) (selects : bool) (r : reader)
    (opened : result unit AtomicBlobStoreError) (w : writer) :=
  session_start (M := SaveStreamMessage) (R := result unit AtomicBlobStoreError)
    (XF := result unit AtomicBlobStoreError) (XW := result unit AtomicBlobStoreError * writer)
    (next_turn_of selects 0 r) (save_worker_start config declared_len opened w).

(** *** It ends *)

Definition save_facade_rank (s : SaveFacade) : nat :=
  match s with
  | Selecting _ r => 4 * length (reader_data r) + 8
  | Pumping _ r => 4 * length (reader_data r) + 7
  | Completed _ => 3
  | AwaitingResult _ => 2
  | Answered _ => 1
  end.

Definition save_worker_rank (s : SaveWorker) : nat :=
  match s with Writing _ => 3 | Replying _ _ => 2 | Leaving _ _ => 1 end.

Lemma save_facade_ranked selects declared s :
  ranked save_facade_rank (save_facade_rank s) (save_facade selects declared s).
Proof.
  destruct s as [count r|count r|v|v|a]; cbn -[Nat.mul]; try lia; [split; intros; lia|].
  destruct (count <? declared); destruct (read _ r) as [[[|b chunk]|e] r1] eqn:E;
    cbn -[Nat.mul]; try lia; intros taken; [|destruct taken; cbn; lia].
  apply read_shrinks in E. destruct taken, selects; cbn -[Nat.mul]; lia.
Qed.

Lemma save_worker_ranked committed declared s :
  ranked save_worker_rank (save_worker_rank s) (save_worker committed declared s).
Proof.
  destruct s as [s|ran w|ran w]; cbn; [|lia|done]. split; [|destruct s as [[? ?] ?]; cbn; lia].
  intros m. destruct (write_receive declared s (Some m)) as [?|[? ?]]; cbn; lia.
Qed.

(** *** It does not deadlock *)

(** A facade that awaits the result has dropped the chunks, or met a worker that
    dropped them; a worker that writes holds its ends. *)
Definition save_unblocked (s : Session (M := SaveStreamMessage) (R := result unit AtomicBlobStoreError)
    (F := SaveFacade) (XF := result unit AtomicBlobStoreError)
    (W := SaveWorker) (XW := result unit AtomicBlobStoreError * writer)) : Prop :=
  match facade s with
  | inl (AwaitingResult _) => holds_chunks (facade_ends s) = false \/ holds_chunks (worker_ends s) = false
  | inl _ => True
  | inr _ => facade_ends s = no_ends
  end /\
  match worker s with
  | inl (Writing _) => holds_chunks (worker_ends s) = true
  | inl _ => True
  | inr _ => worker_ends s = no_ends
  end.

Lemma save_facade_unblocked selects declared f fe we w x fe' w' :
  perform (save_facade selects declared f) fe we w = Some (x, fe', w') ->
  (forall v, f = AwaitingResult v -> holds_chunks fe = false \/ holds_chunks we = false) ->
  match goes_on x with
  | inl (AwaitingResult _) => holds_chunks fe' = false \/ holds_chunks we = false
  | inl _ => True
  | inr _ => fe' = no_ends
  end.
Proof.
  destruct f as [count r|count r|v|v|a]; cbn -[save_next Nat.ltb]; intros E Hf.
  - by repeat case_match; simplify_eq.
  - destruct (save_next declared (Reading count r [])) as [m k|[v r']]; cbn -[Nat.ltb] in E; [|simplify_eq; by left].
    destruct (holds_chunks we) eqn:Hw; [destruct (_ <? _)%nat; [|done]|]; simplify_eq; cbn.
    + destruct (k true); [|done]. unfold next_turn_of. by destruct selects.
    + destruct (k false); [|by right]. unfold next_turn_of. by destruct selects.
  - simplify_eq. by left.
  - by repeat case_match; simplify_eq.
  - by simplify_eq.
Qed.

Lemma save_worker_unblocked committed declared k we fe w x we' w' :
  perform (save_worker committed declared k) we fe w = Some (x, we', w') ->
  (forall s, k = Writing s -> holds_chunks we = true) ->
  (holds_chunks we = false -> holds_chunks we' = false) /\
  match goes_on x with
  | inl (Writing _) => holds_chunks we' = true
  | inl _ => True
  | inr _ => we' = no_ends
  end.
Proof.
  destruct k as [s|ran wr|ran wr]; cbn; intros E Hk; [|by simplify_eq..].
  repeat case_match; simplify_eq; cbn in *; repeat case_match; simplify_eq; eauto.
Qed.

Lemma save_stays_unblocked selects declared committed s s' :
  session_moves (save_facade selects declared) (save_worker committed declared) s s' ->
  save_unblocked s -> save_unblocked s'.
Proof.
  unfold save_unblocked.
  intros [[f fe wk we w x fe' w' E|fd fe k we w x we' w' E]|[f fe wk we w|fd fe k we w _]] [H1 H2]; cbn in *.
  - split; [|done]. eapply save_facade_unblocked; [exact E|]. by intros v ->.
  - apply save_worker_unblocked in E as [Hm E]; [|by intros ? ->]. split; [|done].
    destruct fd as [[]|]; try done. destruct H1; auto.
  - done.
  - split; [|done]. destruct fd as [[]|]; try done. by right.
Qed.

Lemma save_no_deadlock selects declared committed s :
  save_unblocked s -> ~ deadlocked (save_facade selects declared) (save_worker committed declared) s.
Proof.
  destruct s as [fd fe wk we w]. unfold save_unblocked, deadlocked. cbn. intros [H1 H2].
  assert (Hw : forall k, wk = inl k -> blocked (save_worker committed declared k) fe w ->
    holds_chunks fe = true /\ in_chunks w = [] /\ holds_chunks we = true).
  { intros k -> Hb. destruct k as [s|ran wr|ran wr]; [|done..]. by destruct Hb. }
  destruct fd as [f|x], wk as [k|y]; [| | |by intros []].
  - intros [Hf Hk]. destruct (Hw k eq_refl Hk) as (Hc & Hq & Hwe).
    destruct f as [count r|count r|v|v|a]; try done.
    + cbn [save_facade] in Hf. destruct (save_next declared _) as [m kk|[v r']]; [|done].
      destruct Hf as [_ Hl]. rewrite Hq in Hl. vm_compute in Hl. lia.
    + destruct H1; congruence.
  - intros Hf. subst we. destruct f as [count r|count r|v|v|a]; try done; cbn [save_facade] in Hf.
    + destruct (save_next declared _) as [m kk|[v r']]; by destruct Hf.
    + by destruct Hf.
  - intros Hk. destruct (Hw k eq_refl Hk) as (Hc & _). by subst fe.
Qed.

End Saving.

(** ** A streaming load *)

Section Loading.
Context {Crc : Crc32c} {Tgt : Target}.

Inductive LoadFacade :=
| Receiving (w : writer)
| WriteFailed (source : io_error) (w : writer)
| LeavingEarly (source : io_error) (w : writer)
| Drained (w : writer)
| AwaitingLoad (v : Verdict) (w : writer)
| LoadAnswered (answer : result (option BlobMetadata) AtomicBlobStoreError) (w : writer).

Definition load_facade (s : LoadFacade)
    : Act bytes (result (option BlobMetadata) AtomicBlobStoreError) LoadFacade
        (result (option BlobMetadata) AtomicBlobStoreError * writer) :=
  match s with
  | Receiving w =>
      Recv (fun message =>
        match chunk_receive (w, []) message with
        | inl (w, _) => Receiving w
        | inr (Some (Err source), w) => WriteFailed source w
        | inr (_, w) => Drained w
        end)
  | WriteFailed source w => DropChunks (LeavingEarly source w)
  | LeavingEarly source w => DropAck (AwaitingLoad (Discard (OutputIo source)) w)
  | Drained w => Acknowledge (AwaitingLoad Answer w)
  | AwaitingLoad v w => Wait (fun outcome => LoadAnswered (verdict_answer v outcome) w)
  | LoadAnswered answer w => Return (answer, w)
  end.

Inductive LoadWorker :=
| Sending (metadata : BlobMetadata) (s : LoadSender)
| AwaitingAck (metadata : BlobMetadata)
| DroppingAck (r : result (option BlobMetadata) AtomicBlobStoreError)
| DroppingChunks (r : result (option BlobMetadata) AtomicBlobStoreError)
| LoadReplying (r : result (option BlobMetadata) AtomicBlobStoreError)
| LoadLeaving (r : result (option BlobMetadata) AtomicBlobStoreError).

(** The channels were moved into the function, which drops them when it returns,
    the last argument first, before the result is delivered.  After the explicit
    [drop(chunks)] there is nothing left to drop. *)
Definition load_worker (s : LoadWorker)
    : Act bytes (result (option BlobMetadata) AtomicBlobStoreError) LoadWorker
        (result (option BlobMetadata) AtomicBlobStoreError) :=
  match s with
  | Sending metadata s =>
      match load_next s with
      | Offer chunk k => Send chunk (fun taken => Sending metadata (k taken))
      | Leave (Ok _) => DropChunks (AwaitingAck metadata)
      | Leave (Err e) => DropAck (DroppingChunks (Err e))
      end
  | AwaitingAck metadata =>
      RecvAck (fun acked => DroppingAck (if acked then Ok (Some metadata) else Err StreamCancelled))
  | DroppingAck r => DropAck (DroppingChunks r)
  | DroppingChunks r => DropChunks (LoadReplying r)
  | LoadReplying r => Reply r (LoadLeaving r)
  | LoadLeaving r => Return r
  end.

(** The worker once it opened the file and validated its envelope. *)
Definition load_worker_start (validated : result (option BlobMetadata) AtomicBlobStoreError) (r : reader)
    : LoadWorker :=
  match validated with
  | Ok (Some metadata) => Sending metadata (Delivering (payload_len metadata) r)
  | _ => DroppingAck validated
  end.

Definition load_session (w : writer) (validated : result (option BlobMetadata) AtomicBlobStoreError) (r : reader) :=
  session_start (M := bytes) (R := result (option BlobMetadata) AtomicBlobStoreError)
    (XF := result (option BlobMetadata) AtomicBlobStoreError * writer)
    (XW := result (option BlobMetadata) AtomicBlobStoreError)
    (Receiving w) (load_worker_start validated r).

Definition load_facade_rank (s : LoadFacade) : nat :=
  match s with
  | Receiving _ => 6 | WriteFailed _ _ => 5 | LeavingEarly _ _ => 4 | Drained _ => 3
  | AwaitingLoad _ _ => 2 | LoadAnswered _ _ => 1
  end.

Definition load_worker_rank (s : LoadWorker) : nat :=
  match s with
  | Sending _ s => 2 * load_sends_left s + 8
  | AwaitingAck _ => 6 | DroppingAck _ => 5 | DroppingChunks _ => 4 | LoadReplying _ => 3 | LoadLeaving _ => 2
  end.

Lemma load_facade_ranked s : ranked load_facade_rank (load_facade_rank s) (load_facade s).
Proof.
  destruct s as [w|e w|e w|w|v w|a w]; cbn; try lia; try done.
  split; [|cbn; lia]. intros m. by destruct (write_all m w) as [[[]|e] w']; cbn; lia.
Qed.

Lemma load_worker_ranked s : ranked load_worker_rank (load_worker_rank s) (load_worker s).
Proof.
  destruct s as [m s|m|r|r|r|r]; cbn -[load_next Nat.mul]; try lia; try done.
  destruct (load_next s) as [chunk k|[[]|e]] eqn:E; cbn -[Nat.mul]; try lia.
  intros b. pose proof (load_sends_fewer _ _ _ b E). lia.
Qed.

(** A facade that awaits the result has given its acknowledgement away, and does
    not hold up a worker that sends; a worker that sends holds the chunks, one
    that waits for the acknowledgement has dropped them. *)
Definition load_unblocked (s : Session (M := bytes) (R := result (option BlobMetadata) AtomicBlobStoreError)
    (F := LoadFacade) (XF := result (option BlobMetadata) AtomicBlobStoreError * writer)
    (W := LoadWorker) (XW := result (option BlobMetadata) AtomicBlobStoreError)) : Prop :=
  match facade s with
  | inl (Drained _) => holds_chunks (worker_ends s) = false
  | inl (LeavingEarly _ _) => holds_chunks (facade_ends s) = false
  | inl (AwaitingLoad _ _) =>
      holds_ack (facade_ends s) = false /\
      (holds_chunks (facade_ends s) = false \/ holds_chunks (worker_ends s) = false)
  | inl _ => True
  | inr _ => facade_ends s = no_ends
  end /\
  match worker s with
  | inl (Sending _ _) => holds_chunks (worker_ends s) = true
  | inl (AwaitingAck _) => holds_chunks (worker_ends s) = false
  | inl _ => True
  | inr _ => worker_ends s = no_ends
  end.

Lemma load_facade_unblocked f fe we w x fe' w' :
  perform (load_facade f) fe we w = Some (x, fe', w') ->
  match f with
  | Drained _ => holds_chunks we = false
  | LeavingEarly _ _ => holds_chunks fe = false
  | _ => True
  end ->
  match goes_on x with
  | inl (Drained _) => holds_chunks we = false
  | inl (LeavingEarly _ _) => holds_chunks fe' = false
  | inl (AwaitingLoad _ _) =>
      holds_ack fe' = false /\ (holds_chunks fe' = false \/ holds_chunks we = false)
  | inl _ => True
  | inr _ => fe' = no_ends
  end.
Proof.
  destruct f as [wr|e wr|e wr|wr|v wr|a wr]; cbn; intros E Hf; try (by simplify_eq; cbn; auto).
  - destruct (in_chunks w) as [|m q].
    + destruct (holds_chunks we); [done|]. by simplify_eq.
    + destruct (write_all m wr) as [[[]|e] wr']; by simplify_eq.
  - repeat case_match; by simplify_eq.
Qed.

Lemma load_worker_unblocked k we fe w x we' w' :
  perform (load_worker k) we fe w = Some (x, we', w') ->
  match k with
  | Sending _ _ => holds_chunks we = true
  | AwaitingAck _ => holds_chunks we = false
  | _ => True
  end ->
  (holds_chunks we = false -> holds_chunks we' = false) /\
  match goes_on x with
  | inl (Sending _ _) => holds_chunks we' = true
  | inl (AwaitingAck _) => holds_chunks we' = false
  | inl _ => True
  | inr _ => we' = no_ends
  end.
Proof.
  destruct k as [m s|m|r|r|r|r]; cbn -[load_next Nat.ltb]; intros E Hk; try (by simplify_eq).
  - destruct (load_next s) as [chunk k|[[]|e]]; cbn -[Nat.ltb] in E; [|by simplify_eq..].
    destruct (holds_chunks fe); [destruct (_ <? _)%nat; [|done]|]; by simplify_eq.
  - repeat case_match; by simplify_eq.
Qed.

Lemma load_stays_unblocked s s' :
  session_moves load_facade load_worker s s' -> load_unblocked s -> load_unblocked s'.
Proof.
  unfold load_unblocked.
  intros [[f fe wk we w x fe' w' E|fd fe k we w x we' w' E]|[f fe wk we w|fd fe k we w _]] [H1 H2]; cbn in *.
  - split; [|done]. eapply load_facade_unblocked; [exact E|]. by destruct f.
  - apply load_worker_unblocked in E as [Hm E]; [|by destruct k]. split; [|done].
    destruct fd as [[]|]; try done; intuition.
  - done.
  - split; [|done]. destruct fd as [[]|]; try done; intuition.
Qed.

Lemma load_no_deadlock s : load_unblocked s -> ~ deadlocked load_facade load_worker s.
Proof.
  destruct s as [fd fe wk we w]. unfold load_unblocked, deadlocked. cbn. intros [H1 H2].
  assert (Hw : forall k, wk = inl k -> blocked (load_worker k) fe w ->
    (exists m s, k = Sending m s /\ holds_chunks fe = true /\ (stream_capacity <= length (in_chunks w))%nat) \/
    (exists m, k = AwaitingAck m /\ holds_ack fe = true)).
  { intros k -> Hb. destruct k as [m s|m|r|r|r|r]; try done; [left|right; exists m; by destruct Hb].
    exists m, s. cbn -[load_next] in Hb. destruct (load_next s) as [chunk k|[[]|e]]; [|done..]. by destruct Hb. }
  assert (Hf : forall f, fd = inl f -> blocked (load_facade f) we w ->
    (exists wr, f = Receiving wr /\ holds_chunks we = true /\ in_chunks w = []) \/
    (exists v wr, f = AwaitingLoad v wr /\ holds_result we = true)).
  { intros f -> Hb. destruct f as [wr|e wr|e wr|wr|v wr|a wr]; try done; [left|right]; destruct Hb; eauto 10. }
  destruct fd as [f|x], wk as [k|y]; [| | |by intros []].
  - intros [Bf Bk]. destruct (Hf f eq_refl Bf) as [(wr & -> & Hc & Hq)|(v & wr & -> & _)].
    + destruct (Hw k eq_refl Bk) as [(m & s & -> & _ & Hl)|(m & -> & _)]; [|congruence].
      rewrite Hq in Hl. vm_compute in Hl. lia.
    + destruct H1 as [Ha Hc]. destruct (Hw k eq_refl Bk) as [(m & s & -> & Hfe & _)|(m & -> & Hk)]; [|congruence].
      destruct Hc; congruence.
  - intros Bf. subst we. by destruct (Hf f eq_refl Bf) as [(wr & _ & ? & _)|(v & wr & _ & ?)].
  - intros Bk. subst fe. by destruct (Hw k eq_refl Bk) as [(m & s & _ & ? & _)|(m & _ & ?)].
Qed.

End Loading.

(** ** Theorems *)

Section Theorems.
Context {Crc : Crc32c} {Tgt : Target}.

(** C14: streaming calls do not hang.  Whatever the interleaving of the facade and
    the worker, with a future that may be dropped and a worker that may panic: the
    channel holds at most two chunks; the threads take finitely many steps; and
    until both returned, one of them can go on, so that a facade that waits for
    the result, a worker that waits for chunks or for the acknowledgement, and
    one whose channel is full never wait for each other. *)
Theorem streams_do_not_block config declared selects r opened committed f w validated r2 :
  (forall s, rtc (session_moves (save_facade selects declared) (save_worker committed declared))
       (save_session config declared selects r opened f) s ->
     (length (in_chunks (wires s)) <= 2)%nat /\
     sn (session_moves (save_facade selects declared) (save_worker committed declared)) s /\
     (session_over s \/ exists s', session_step (save_facade selects declared) (save_worker committed declared) s s')) /\
  (forall s, rtc (session_moves load_facade load_worker) (load_session w validated r2) s ->
     (length (in_chunks (wires s)) <= 2)%nat /\ sn (session_moves load_facade load_worker) s /\
     (session_over s \/ exists s', session_step load_facade load_worker s s')).
Proof.
  split; intros s Hs; (split; [by apply (session_bounded _ _ _ _ _ Hs)|]).
  - split; [eapply session_terminates; [apply save_facade_ranked|apply save_worker_ranked]|].
    destruct (session_progress (save_facade selects declared) (save_worker committed declared) s)
      as [?|[?|Hd]]; [by left|by right|].
    destruct (save_no_deadlock selects declared committed s); [|done]. clear Hd.
    assert (H0 : save_unblocked (save_session config declared selects r opened f)).
    { unfold save_unblocked, save_session, next_turn_of, save_worker_start. cbn.
      destruct selects; (split; [done|]); by repeat case_match. }
    revert H0. induction Hs; eauto using save_stays_unblocked.
  - split; [eapply session_terminates; [apply load_facade_ranked|apply load_worker_ranked]|].
    destruct (session_progress load_facade load_worker s) as [?|[?|Hd]]; [by left|by right|].
    destruct (load_no_deadlock s); [|done]. clear Hd.
    assert (H0 : load_unblocked (load_session w validated r2)).
    { split; [done|]. cbn. by destruct validated as [[m|]|e]. }
    revert H0. induction Hs; eauto using load_stays_unblocked.
Qed.

End Theorems.

(** ** Witnesses *)

Section Witnesses.

(** A save whose reader ends a byte early: the facade gave its verdict and
    awaits the result, while the worker has a chunk to receive. *)
Definition short_save :=
  session_run (save_facade true 4) (save_worker (Ok tt) 4) true 7
    (save_session fixture_config 4 true three_bytes (Ok tt) empty_file).

(** A load into a writer that fails: the facade awaits the result, the worker
    has chunks to send. *)
Definition failed_load :=
  session_run load_facade load_worker false 2
    (load_session (Writer [] [Some (1, IoError WriteZero None)]) (Ok (Some {| payload_len := 100000 |}))
       [RData (repeat Byte.x61 (N.to_nat 100000))]).

Lemma streams_do_not_block_witness :
  facade short_save = inl (AwaitingResult (Discard (InputEndedEarly 4 3))) /\
  (exists s', session_step (save_facade true 4) (save_worker (Ok tt) 4) short_save s') /\
  length (in_chunks (wires failed_load)) = 2%nat /\
  (exists s', session_step load_facade load_worker failed_load s').
Proof.
  destruct (streams_do_not_block fixture_config 4 true three_bytes (Ok tt) (Ok tt) empty_file
    (Writer [] [Some (1, IoError WriteZero None)]) (Ok (Some {| payload_len := 100000 |}))
    [RData (repeat Byte.x61 (N.to_nat 100000))]) as [Hs Hl].
  split; [by vm_compute|]. split.
  { destruct (Hs short_save) as (_ & _ & [H|H]); [apply steps_move, session_run_steps|by vm_compute in H|exact H]. }
  split; [by vm_compute|].
  destruct (Hl failed_load) as (_ & _ & [H|H]); [apply steps_move, session_run_steps|by vm_compute in H|exact H].
Defined.

End Witnesses.
