(* ===== verification/StreamedSaves.v ===== *)
(** * What a streaming save stores, whoever runs first

    The invariant of a session of a streaming save: the messages that the facade
    sent are those of a run of its pump, and the worker did with the ones that it
    received what it does alone with their list ([Channels]).  So the file and the
    answer are functions of what the reader has, not of the interleaving. *)
From S2P Require Export Sessions.

Local Open Scope N_scope.
Local Open Scope blob_scope.

Section Saves.
Context {Crc : Crc32c} {CrcL : Crc32cLaws} {Tgt : Target}.
Context (config : StoreConfig) (declared : N) (selects : bool) (r0 : reader)
  (opened committed : result unit AtomicBlobStoreError) (f0 : writer).

Abbreviation Saving := (Session (M := SaveStreamMessage) (R := result unit AtomicBlobStoreError)
  (F := SaveFacade) (XF := result unit AtomicBlobStoreError)
  (W := SaveWorker) (XW := result unit AtomicBlobStoreError * writer)).
Abbreviation start := (save_session config declared selects r0 opened f0).
Abbreviation worker_start := (save_worker_start config declared opened f0).
Abbreviation saves := (session_moves (save_facade selects declared) (save_worker committed declared)).
Abbreviation save_steps := (session_step (save_facade selects declared) (save_worker committed declared)).
Abbreviation drained_to := (drained (write_receive declared)).
Abbreviation pumps := (offers (save_next declared)).

(** ** The invariant *)

(** The facade is at a turn of its loop, and has sent [ms]. *)
Definition reading_at (count : N) (r : reader) (ms : list SaveStreamMessage) : Prop :=
  exists n bs, Forall (eq true) bs /\
    forall turns, offered (save_next declared) (Reading 0 r0 (replicate n ReadReady ++ turns)) bs ms
      (Reading count r turns).

(** The worker ended on a message, or before its first one. *)
Definition stopped_early (ms q : list SaveStreamMessage) (x : result unit AtomicBlobStoreError * writer) : Prop :=
  match worker_start with
  | Writing c0 => exists got m c, ms = got ++ m :: q /\ drained_to c0 got c /\
                    write_receive declared c (Some m) = inr x
  | Replying ran w => x = (ran, w)
  | Leaving _ _ => False
  end.

(** It ended early, or because the facade dropped the channel. *)
Definition worker_ended (ms q : list SaveStreamMessage) (held : bool)
    (x : result unit AtomicBlobStoreError * writer) : Prop :=
  stopped_early ms q x \/
  (held = false /\ q = [] /\ exists c0 c, worker_start = Writing c0 /\ drained_to c0 ms c /\
     write_receive declared c None = inr x).

(** What the worker came to. *)
Definition wrote (k : SaveWorker + option (result unit AtomicBlobStoreError * writer))
    : option (result unit AtomicBlobStoreError * writer) :=
  match k with
  | inl (Writing _) => None
  | inl (Replying ran w) | inl (Leaving ran w) => Some (ran, w)
  | inr x => x
  end.

Definition worker_inv (ms : list SaveStreamMessage) (s : Saving) : Prop :=
  let q := in_chunks (wires s) in
  match worker s with
  | inl (Writing c) =>
      (exists c0 got, worker_start = Writing c0 /\ ms = got ++ q /\ drained_to c0 got c) /\
      worker_ends s = all_ends /\ in_result (wires s) = None
  | inl (Replying ran w) =>
      worker_ended ms q (holds_chunks (facade_ends s)) (ran, w) /\
      worker_ends s = all_ends /\ in_result (wires s) = None
  | inl (Leaving ran w) =>
      worker_ended ms q (holds_chunks (facade_ends s)) (ran, w) /\
      worker_ends s = without_result all_ends /\ in_result (wires s) = Some (save_outcome committed ran)
  | inr (Some (ran, w)) =>
      worker_ended ms q (holds_chunks (facade_ends s)) (ran, w) /\
      worker_ends s = no_ends /\ in_result (wires s) = Some (save_outcome committed ran)
  | inr None => worker_ends s = no_ends /\ in_result (wires s) = None
  end.

(** Why a send was refused, or the result was there before the end. *)
Definition gone_early (ms : list SaveStreamMessage) (s : Saving) : Prop :=
  worker s = inr None \/ exists x, wrote (worker s) = Some x /\ stopped_early ms (in_chunks (wires s)) x.

(** The pump ended with the verdict [v]. *)
Definition pump_ended (v : Verdict) (ms : list SaveStreamMessage) (s : Saving) : Prop :=
  v <> Dropped /\ exists turns bs r, pumps (Reading 0 r0 turns) bs ms (v, r) /\
    (false ∈ bs \/ ResultReady ∈ turns -> gone_early ms s).

Definition answered_with (a : result unit AtomicBlobStoreError) (ms : list SaveStreamMessage) (s : Saving) : Prop :=
  exists v, pump_ended v ms s /\ a = verdict_answer v (in_result (wires s)) /\
    (in_result (wires s) = None -> worker s = inr None).

Definition facade_inv (ms : list SaveStreamMessage) (s : Saving) : Prop :=
  match facade s with
  | inl (Selecting count r) | inl (Pumping count r) => facade_ends s = all_ends /\ reading_at count r ms
  | inl (Completed v) | inl (AwaitingResult v) => pump_ended v ms s
  | inl (Answered a) | inr (Some a) => answered_with a ms s
  | inr None => exists turns bs x, pumps (Reading 0 r0 turns) bs ms x
  end.

(** ** The pump *)

(** A turn at which the reader is ready is the turn of a pump without turns. *)
Lemma save_next_ready count r turns :
  match save_next declared (Reading count r []) with
  | Offer m k => exists k', save_next declared (Reading count r (ReadReady :: turns)) = Offer m k' /\
      match k true with
      | Reading count' r' _ => k' true = Reading count' r' turns
      | Pumped v r' => v = Answer /\ k' true = Pumped v r'
      end /\ exists r', k false = Pumped Answer r' /\ k' false = Pumped Answer r'
  | Leave (v, r') => v <> Dropped
  end.
Proof.
  unfold save_next. cbn [head default tail id from_option].
  destruct (count <? declared); destruct (read _ r) as [[[|b chunk]|e] r1]; try done;
    (eexists; split; [done|]); eauto.
Qed.

Lemma reading_start selects' : 
  match next_turn_of selects' 0 r0 with
  | Selecting count r | Pumping count r => reading_at count r []
  | _ => False
  end.
Proof. destruct selects'; exists 0%nat, []; split; try done; intros turns; apply offered_start. Qed.

Lemma reading_leaves count r ms turns v r' :
  reading_at count r ms -> save_next declared (Reading count r turns) = Leave (v, r') ->
  exists n bs, Forall (eq true) bs /\ pumps (Reading 0 r0 (replicate n ReadReady ++ turns)) bs ms (v, r').
Proof.
  intros (n & bs & Hb & Ho) E. exists n, bs. split; [done|].
  rewrite <-(app_nil_r bs), <-(app_nil_r ms). by eapply offered_offers; [apply Ho|apply offers_leave].
Qed.

(** A send that the channel takes, and one that is refused. *)
Lemma reading_takes count r ms m k :
  reading_at count r ms -> save_next declared (Reading count r []) = Offer m k ->
  match k true with
  | Reading count' r' _ => reading_at count' r' (ms ++ [m])
  | Pumped v r' => v = Answer /\ exists n bs, Forall (eq true) bs /\
      pumps (Reading 0 r0 (replicate n ReadReady)) bs (ms ++ [m]) (v, r')
  end.
Proof.
  intros (n & bs & Hb & Ho) En. pose proof (save_next_ready count r) as Hn. rewrite En in Hn.
  assert (Hs : forall turns k', save_next declared (Reading count r (ReadReady :: turns)) = Offer m k' ->
    offered (save_next declared) (Reading 0 r0 (replicate (S n) ReadReady ++ turns)) (bs ++ [true]) (ms ++ [m]) (k' true)).
  { intros turns k' E. eapply offered_sent; [|exact E]. rewrite replicate_S_end, <-app_assoc. apply Ho. }
  assert (Hb' : Forall (eq true) (bs ++ [true])) by (apply Forall_app; by split; [|constructor]).
  destruct (k true) as [count' r' l|v r'].
  - exists (S n), (bs ++ [true]). split; [done|]. intros turns.
    destruct (Hn turns) as (k' & E & Ek & _). rewrite <-Ek. by apply Hs.
  - destruct (Hn []) as (k' & E & [-> Ek] & _). split; [done|]. exists (S n), (bs ++ [true]). split; [done|].
    specialize (Hs [] k' E). rewrite app_nil_r, Ek in Hs.
    rewrite <-(app_nil_r (bs ++ [true])), <-(app_nil_r (ms ++ [m])).
    by eapply offered_offers; [exact Hs|apply offers_leave].
Qed.

Lemma reading_refused count r ms m k :
  reading_at count r ms -> save_next declared (Reading count r []) = Offer m k ->
  exists r', k false = Pumped Answer r' /\
    exists turns bs, pumps (Reading 0 r0 turns) bs ms (Answer, r').
Proof.
  intros (n & bs & _ & Ho) En. pose proof (save_next_ready count r []) as Hn. rewrite En in Hn.
  destruct Hn as (k' & E & _ & r' & Ek & Ek'). exists r'. split; [done|].
  exists (replicate n ReadReady ++ [ReadReady]), (bs ++ [false]).
  specialize (Ho [ReadReady]). rewrite <-(app_nil_r ms). eapply offered_offers; [exact Ho|].
  eapply offers_refused; [exact E|]. rewrite Ek'. by apply offers_leave.
Qed.

(** Nothing of a pump whose sends were taken and whose reader was ready. *)
Lemma undisturbed n bs (P : Prop) :
  Forall (eq true) bs -> false ∈ bs \/ ResultReady ∈ replicate n ReadReady -> P.
Proof.
  intros Hb [Hf|[Hf _]%elem_of_replicate]; [|done]. rewrite Forall_forall in Hb. by specialize (Hb _ Hf).
Qed.

(** The facade may always stop with what it sent. *)
Lemma facade_stops ms s : facade_inv ms s -> exists turns bs x, pumps (Reading 0 r0 turns) bs ms x.
Proof.
  unfold facade_inv, answered_with, pump_ended.
  destruct (facade s) as [[count r|count r|v|v|a]|[a|]].
  1,2: intros [_ Hr]; destruct (reading_leaves count r ms [DroppedReading] Dropped r Hr eq_refl) as (n & bs & _ & H); eauto.
  1,2: intros (_ & turns & bs & r & H & _); eauto.
  1,2: intros (v & (_ & turns & bs & r & H & _) & _); eauto.
  done.
Qed.

(** ** The worker while the facade acts *)

Lemma stopped_early_more ms q m x : stopped_early ms q x -> stopped_early (ms ++ [m]) (q ++ [m]) x.
Proof.
  unfold stopped_early. destruct worker_start as [c0| |]; [|done..].
  intros (got & m' & c & -> & H). exists got, m', c. by rewrite <-app_assoc.
Qed.

Lemma ended_held ms q x : worker_ended ms q true x -> stopped_early ms q x.
Proof. by intros [H|(H & _)]. Qed.

Lemma worker_after_send ms fd fd' wk we q ack res m :
  worker_inv ms (Build_Session fd all_ends wk we (Build_Wires q ack res)) ->
  worker_inv (ms ++ [m]) (Build_Session fd' all_ends wk we (Build_Wires (q ++ [m]) ack res)).
Proof.
  unfold worker_inv. cbn. destruct wk as [[c|ran w|ran w]|[[ran w]|]]; [| | | |done].
  - intros ((c0 & got & E & -> & H) & He). split; [|done]. exists c0, got. by rewrite app_assoc.
  - intros [He H]. split; [left; by apply stopped_early_more, ended_held|done].
  - intros [He H]. split; [left; by apply stopped_early_more, ended_held|done].
  - intros [He H]. split; [left; by apply stopped_early_more, ended_held|done].
Qed.

(** The ends of the facade matter to a worker that ended only while they are held. *)
Lemma worker_other_facade ms fd fd' fe fe' wk we w :
  (holds_chunks fe' = true -> holds_chunks fe = true) ->
  worker_inv ms (Build_Session fd fe wk we w) -> worker_inv ms (Build_Session fd' fe' wk we w).
Proof.
  intros Hh. unfold worker_inv. cbn.
  assert (Hm : forall x, worker_ended ms (in_chunks w) (holds_chunks fe) x ->
    worker_ended ms (in_chunks w) (holds_chunks fe') x).
  { intros x [H|(Hf & H)]; [by left|right]. split; [|done].
    destruct (holds_chunks fe'); [|done]. by rewrite Hh in Hf. }
  destruct wk as [[c|ran wr|ran wr]|[[ran wr]|]]; try done; intros [He H]; split; auto.
Qed.

(** A worker that is not there to receive, while the facade could send. *)
Lemma worker_gone ms fd wk we w :
  worker_inv ms (Build_Session fd all_ends wk we w) ->
  holds_chunks we = false \/ in_result w <> None ->
  gone_early ms (Build_Session fd all_ends wk we w).
Proof.
  unfold worker_inv, gone_early. cbn. intros H Hg.
  destruct wk as [[c|ran wr|ran wr]|[[ran wr]|]].
  - destruct H as (_ & -> & Hn). by destruct Hg.
  - destruct H as (_ & -> & Hn). by destruct Hg.
  - right. exists (ran, wr). destruct H as [H _]. split; [done|by apply ended_held].
  - right. exists (ran, wr). destruct H as [H _]. split; [done|by apply ended_held].
  - by left.
Qed.

Lemma worker_without_result ms fd fe wk we w :
  worker_inv ms (Build_Session fd fe wk we w) -> in_result w = None -> holds_result we = false ->
  wk = inr None.
Proof.
  unfold worker_inv. cbn. intros H Hr Hw.
  destruct wk as [[c|ran wr|ran wr]|[[ran wr]|]]; [..|done];
    [by destruct H as (_ & -> & _)..| |]; destruct H as (_ & _ & E); congruence.
Qed.

(** ** The facade acts *)

Lemma facade_pumps ms count r fe wk we w x fe' w' :
  facade_inv ms (Build_Session (inl (Pumping count r)) fe wk we w) ->
  worker_inv ms (Build_Session (inl (Pumping count r)) fe wk we w) ->
  perform (save_facade selects declared (Pumping count r)) fe we w = Some (x, fe', w') ->
  exists ms', facade_inv ms' (Build_Session (goes_on x) fe' wk we w') /\
              worker_inv ms' (Build_Session (goes_on x) fe' wk we w').
Proof.
  intros [Hfe Hr] Hw. cbn in Hfe. subst fe. cbn -[save_next Nat.ltb].
  pose proof (save_next_ready count r) as Hn.
  destruct (save_next declared (Reading count r [])) as [m k|[v r']] eqn:En; cbn -[Nat.ltb]; intros E.
  - assert (Ht := reading_takes _ _ _ _ _ Hr En). destruct (holds_chunks we) eqn:Hwe.
    + destruct (length (in_chunks w) <? stream_capacity)%nat; [|done]. simplify_eq.
      exists (ms ++ [m]). split; [|by destruct w; eapply worker_after_send].
      destruct (k true) as [count' r' l|v r']; cbn; [by unfold next_turn_of; destruct selects|].
      destruct Ht as (-> & n & bs & Hb & Ht). split; [done|]. exists (replicate n ReadReady), bs, r'.
      split; [done|by apply undisturbed].
    + simplify_eq. exists ms. destruct (reading_refused _ _ _ _ _ Hr En) as (r' & -> & turns & bs & Ho).
      split; [|by eapply worker_other_facade; [|exact Hw]]. split; [done|]. exists turns, bs, r'.
      split; [done|]. intros _. apply (worker_gone ms _ wk we w') in Hw; [done|by left].
  - simplify_eq. exists ms. split; [|by eapply worker_other_facade; [|exact Hw]].
    split; [by apply (Hn [])|]. destruct (reading_leaves _ _ _ _ _ _ Hr En) as (n & bs & Hb & H).
    rewrite app_nil_r in H. exists (replicate n ReadReady), bs, r'. split; [done|by apply undisturbed].
Qed.

Lemma facade_steps ms f fe wk we w x fe' w' :
  facade_inv ms (Build_Session (inl f) fe wk we w) ->
  worker_inv ms (Build_Session (inl f) fe wk we w) ->
  perform (save_facade selects declared f) fe we w = Some (x, fe', w') ->
  exists ms', facade_inv ms' (Build_Session (goes_on x) fe' wk we w') /\
              worker_inv ms' (Build_Session (goes_on x) fe' wk we w').
Proof.
  destruct f as [count r|count r|v|v|a]; [|by apply facade_pumps|..]; intros Hf Hw E; exists ms;
    cbn in E.
  - destruct Hf as [Hfe Hr]. cbn in Hfe. subst fe.
    assert (Hx : fe' = all_ends /\ w' = w /\ (x = inl (Pumping count r) \/
      x = inl (Answered (verdict_answer Answer (in_result w))) /\
      (in_result w = None -> holds_result we = false))).
    { destruct (in_result w) eqn:Er; [by simplify_eq; split_and!; [..|right]|].
      destruct (holds_result we) eqn:Eh; simplify_eq; split_and!; auto. }
    destruct Hx as (-> & -> & [->|[-> Hn]]); (split; [|by eapply worker_other_facade; [|exact Hw]]); [done|].
    exists Answer. split; [|split; [done|]; cbn; intros Hi; by eapply worker_without_result; [exact Hw|..]; auto].
    destruct (reading_leaves count r ms [ResultReady] Answer r Hr eq_refl) as (n & bs & Hb & H).
    split; [done|]. exists (replicate n ReadReady ++ [ResultReady]), bs, r. split; [done|]. intros _.
    destruct (in_result w) eqn:Er.
    + apply (worker_gone ms _ wk we w) in Hw; [done|right; by rewrite Er].
    + left. by eapply worker_without_result; [exact Hw|..]; auto.
  - simplify_eq. split; [done|]. by eapply worker_other_facade; [|exact Hw].
  - assert (Hx : fe' = fe /\ w' = w /\ x = inl (Answered (verdict_answer v (in_result w))) /\
      (in_result w = None -> holds_result we = false)).
    { destruct (in_result w) eqn:Er; [by simplify_eq|]. by destruct (holds_result we) eqn:Eh; simplify_eq. }
    destruct Hx as (-> & -> & -> & Hn). split; [|by eapply worker_other_facade; [|exact Hw]].
    exists v. split; [done|]. split; [done|]. cbn. intros Hi.
    by eapply worker_without_result; [exact Hw|..]; auto.
  - simplify_eq. split; [done|]. by eapply worker_other_facade; [|exact Hw].
Qed.

(** ** The worker acts *)

Lemma facade_other_worker ms fd fe k we w wk' we' w' :
  (gone_early ms (Build_Session fd fe (inl k) we w) -> gone_early ms (Build_Session fd fe wk' we' w')) ->
  (in_result w <> None -> in_result w' = in_result w) ->
  facade_inv ms (Build_Session fd fe (inl k) we w) -> facade_inv ms (Build_Session fd fe wk' we' w').
Proof.
  intros Hg Hi.
  assert (Hp : forall v, pump_ended v ms (Build_Session fd fe (inl k) we w) ->
    pump_ended v ms (Build_Session fd fe wk' we' w')).
  { intros v (Hv & turns & bs & r & H & He). split; [done|]. exists turns, bs, r. split; auto. }
  assert (Ha : forall a, answered_with a ms (Build_Session fd fe (inl k) we w) ->
    answered_with a ms (Build_Session fd fe wk' we' w')).
  { intros a (v & H & E & Hn). exists v. cbn in E, Hn |- *. rewrite Hi by (intros En; by specialize (Hn En)).
    split; [auto|]. split; [done|]. intros En. by specialize (Hn En). }
  unfold facade_inv. cbn. destruct fd as [[]|[]]; auto.
Qed.

Lemma drained_snoc c0 got c m c' :
  drained_to c0 got c -> write_receive declared c (Some m) = inl c' -> drained_to c0 (got ++ [m]) c'.
Proof. intros H E. by eapply drained_more. Qed.

Lemma worker_steps ms fd fe k we w x we' w' :
  facade_inv ms (Build_Session fd fe (inl k) we w) ->
  worker_inv ms (Build_Session fd fe (inl k) we w) ->
  perform (save_worker committed declared k) we fe w = Some (x, we', w') ->
  facade_inv ms (Build_Session fd fe (goes_on x) we' w') /\
  worker_inv ms (Build_Session fd fe (goes_on x) we' w').
Proof.
  intros Hf Hw E. destruct k as [c|ran wr|ran wr]; cbn in E.
  - destruct Hw as ((c0 & got & Es & Em & Hd) & Hwe & Hr). cbn in Em, Hwe, Hr.
    destruct (in_chunks w) as [|m q] eqn:Eq.
    + destruct (holds_chunks fe) eqn:Hh; [done|].
      destruct (write_receive_none declared c) as [[ran wr] Ew]. rewrite Ew in E. simplify_eq. split.
      { eapply facade_other_worker; [| |exact Hf]; [|done]. by intros [?|(y & ? & _)]. }
      split; [|done]. cbn. rewrite Eq. right. split; [done|]. split; [done|]. exists c0, c.
      by rewrite app_nil_r.
    + simplify_eq. split.
      { eapply facade_other_worker; [| |exact Hf]; [|done]. by intros [?|(y & ? & _)]. }
      unfold worker_inv. cbn. destruct (write_receive declared c (Some m)) as [c'|[ran wr]] eqn:Ew; cbn.
      * split; [|done]. exists c0, (got ++ [m]). rewrite <-app_assoc. split; [done|]. split; [done|].
        by eapply drained_snoc.
      * split; [|done]. left. unfold stopped_early. rewrite Es. by exists got, m, c.
  - destruct Hw as (He & Hwe & Hr). cbn in He, Hwe, Hr. simplify_eq. split.
    { eapply facade_other_worker; [| |exact Hf]; [|done].
      intros [?|(y & Hy & H)]; [done|]. right. by exists y. }
    by split.
  - destruct Hw as (He & Hwe & Hr). cbn in He, Hwe, Hr. simplify_eq. split.
    { eapply facade_other_worker; [| |exact Hf]; [|done].
      intros [?|(y & Hy & H)]; [done|]. right. by exists y. }
    by split.
Qed.

(** ** Every session *)

Lemma saves_keep s s' :
  saves s s' -> (exists ms, facade_inv ms s /\ worker_inv ms s) -> exists ms, facade_inv ms s' /\ worker_inv ms s'.
Proof.
  intros [[f fe wk we w x fe' w' E|fd fe k we w x we' w' E]|[f fe wk we w|fd fe k we w Hh]] (ms & Hf & Hw).
  - by eapply facade_steps.
  - exists ms. by eapply worker_steps.
  - exists ms. split; [by apply facade_stops in Hf|by eapply worker_other_facade; [|exact Hw]].
  - exists ms. split.
    + eapply facade_other_worker; [| |exact Hf]; [by left|done].
    + split; [done|]. unfold worker_inv in Hw. cbn in Hw |- *.
      destruct k as [c|ran wr|ran wr]; [by apply Hw..|]. destruct Hw as (_ & -> & _). done.
Qed.

Lemma saves_start : facade_inv [] start /\ worker_inv [] start.
Proof.
  split.
  - unfold facade_inv, save_session, session_start. cbn. pose proof (reading_start selects) as H.
    by destruct (next_turn_of selects 0 r0).
  - unfold worker_inv, worker_ended, stopped_early. cbn.
    destruct worker_start as [c|ran wr|ran wr] eqn:E.
    + split; [|done]. exists c, []. split; [done|]. split; [done|apply drained_start].
    + split; [by left|done].
    + exfalso. revert E. unfold save_worker_start. by repeat case_match.
Qed.

Lemma saves_inv s : rtc saves start s -> exists ms, facade_inv ms s /\ worker_inv ms s.
Proof.
  intros H. assert (H0 : exists ms, facade_inv ms start /\ worker_inv ms start) by (exists []; apply saves_start).
  revert H0. induction H; eauto using saves_keep.
Qed.

(** ** What the worker and the pump came to *)

Lemma ended_run ms q held ran w c0 :
  worker_start = Writing c0 -> worker_ended ms q held (ran, w) ->
  write_stream_envelope config declared (f0, ms) = (ran, (w, q)).
Proof.
  intros Es He.
  assert (Hd : drains (write_receive declared) never_gives_up c0 ms (ran, w) q).
  { destruct He as [He|(_ & -> & c1 & c & E & Hd & Ew)].
    - unfold stopped_early in He. rewrite Es in He. destruct He as (got & m & c & -> & Hd & Ew).
      eapply drained_drains; [exact Hd|by apply drains_stop].
    - rewrite Es in E. injection E as <-. rewrite <-(app_nil_r ms).
      eapply drained_drains; [exact Hd|by apply drains_end]. }
  revert Es. unfold save_worker_start, write_stream_envelope.
  destruct (envelope_header _ _ _) as [header|e]; [|done]. destruct opened as [[]|e]; [|done].
  destruct (write_section header f0) as [[[]|e] f1]; [|done]. intros [= <-]. by apply drains_write.
Qed.

Lemma ended_ok ms q held w :
  worker_ended ms q held (Ok tt, w) -> exists c0, worker_start = Writing c0.
Proof.
  intros [H|(_ & _ & c0 & c & E & _)]; [|by exists c0]. revert H. unfold stopped_early.
  destruct worker_start as [c0| |] eqn:E; [by exists c0| |done]. intros [= <- <-]. exfalso. revert E.
  unfold save_worker_start. by repeat case_match; intros; simplify_eq.
Qed.

(** The messages that were sent are those of a pump. *)
Lemma sent_by_pump turns bs ms v r :
  pumps (Reading 0 r0 turns) bs ms (v, r) ->
  exists p, pumped declared r0 bs turns v p /\ pump_sent p = ms.
Proof.
  intros H. pose proof (offers_pump declared (reader_fuel r0) 0 r0 turns bs ms (v, r) [] H
    ltac:(unfold reader_fuel; lia)) as Hp.
  change (pump_from declared _ _) with (Tokio_pump_stream declared r0 bs turns) in Hp.
  pose proof (tokio_pumped declared r0 bs turns) as Ht.
  destruct (Tokio_pump_stream declared r0 bs turns) as [v' p]. destruct Hp as [[= <- Er] Hms]. by exists p.
Qed.

(** The file has the envelope of what the reader has, and that is what was
    declared. *)
Definition stored_reader (w : writer) : Prop :=
  blen (reader_data r0) = declared /\ declared <= maximum config /\
  wr_data w = wr_data f0 ++ envelope (format config) (reader_data r0).

Lemma ok_stores ms s q held w :
  reader_dense r0 = true -> facade_inv ms s -> worker_ended ms q held (Ok tt, w) -> stored_reader w.
Proof.
  intros Hd Hf He. destruct (ended_ok _ _ _ _ He) as [c0 Es]. apply (ended_run _ _ _ _ _ _ Es) in He.
  apply write_stream_envelope_ok in He as (cs & Ems & Hl & Hm & Hw).
  destruct (facade_stops ms s Hf) as (turns & bs & [v r] & Hp).
  apply sent_by_pump in Hp as (p & Hp & Es').
  destruct (pumped_payload _ _ _ _ _ _ (concat cs) Hp) as (_ & _ & Hq & _).
  { rewrite Es', Ems. apply stream_payload_chunks. }
  unfold stored_reader. by rewrite (Hq Hd).
Qed.

Lemma worker_wrote ms s ran w :
  worker_inv ms s -> wrote (worker s) = Some (ran, w) ->
  worker_ended ms (in_chunks (wires s)) (holds_chunks (facade_ends s)) (ran, w).
Proof.
  unfold worker_inv. destruct (worker s) as [[c|ran1 w1|ran1 w1]|[[ran1 w1]|]]; cbn; intros H E; simplify_eq;
    apply H.
Qed.

(** ** Without failures *)

Lemma stop_not_cancelled c m w : write_receive declared c (Some m) <> inr (Err StreamCancelled, w).
Proof.
  destruct c as [[checksum written] f].
  assert (Hs : forall bs x, write_section bs f = (Err StreamCancelled, x) -> False).
  { intros bs x. unfold write_section, eff_map_err. by destruct (write_all bs f) as [[]]. }
  destruct m as [chunk|]; cbn; destruct (negb _); [done| |done|].
  - destruct (write_section chunk f) as [[[]|e] f1] eqn:E; [done|]. intros [= -> ->]. by apply Hs in E.
  - intros [= E]. by apply Hs in E.
Qed.

Definition calm_answer : result unit AtomicBlobStoreError :=
  match blen (reader_data r0) ?= declared with
  | Lt => Err (InputEndedEarly declared (blen (reader_data r0)))
  | Eq => committed
  | Gt => Err (InputHasTrailingData declared)
  end.

Lemma calm_worker_start :
  opened = Ok tt -> declared <= maximum config -> writer_ok f0 = true -> exists c0, worker_start = Writing c0.
Proof.
  intros Ho Hm Hw. unfold save_worker_start, envelope_header. rewrite (proj2 (N.ltb_ge _ _)) by done.
  rewrite Ho. destruct (write_section_ok (domain_tag (format config) ++
    be_bytes 2 (envelope_version (format config)) ++ be_bytes 8 declared) f0 Hw) as (w1 & E & _).
  rewrite E. by eexists.
Qed.

(** A worker that met only chunks that fit did not end on one of them. *)
Lemma chunks_do_not_stop cs q ran w :
  maximum config <= U64_MAX -> opened = Ok tt -> declared <= maximum config -> writer_ok f0 = true ->
  blen (concat cs) <= declared -> ~ stopped_early (map Chunk cs) q (ran, w).
Proof.
  intros Hm Ho Hd Hw Hl He. destruct (calm_worker_start Ho Hd Hw) as [c0 Es].
  pose proof (ended_run _ _ true _ _ _ Es (or_introl He)) as Hrun.
  pose proof (write_stream_envelope_answer config declared f0 cs [] Hm Hw (or_introl eq_refl)) as Ha.
  rewrite app_nil_r, Hrun, decide_False in Ha by lia. cbn in Ha.
  unfold stream_answer in Ha. rewrite decide_False in Ha by lia. subst ran.
  unfold stopped_early in He. rewrite Es in He. destruct He as (got & m & c & _ & _ & E).
  by apply stop_not_cancelled in E.
Qed.

Lemma calm_answers ms s a ran w :
  maximum config <= U64_MAX -> opened = Ok tt -> declared <= maximum config -> writer_ok f0 = true ->
  reader_calm r0 = true -> answered_with a ms s -> worker_inv ms s -> worker s = inr (Some (ran, w)) ->
  a = calm_answer.
Proof.
  intros Hm Ho Hd Hw Hc (v & (Hv & turns & bs & r & Hp & He) & -> & _) Hk Ek.
  apply sent_by_pump in Hp as (p & (_ & cs & [_ Ht [rest Hrest]] & Hs) & Ems).
  assert (Hgone : pump_sent p = map Chunk cs -> ~ (false ∈ bs \/ ResultReady ∈ turns)).
  { intros E H. destruct (He H) as [Hg|([ran1 w1] & _ & Hg)]; [congruence|]. rewrite <-Ems, E in Hg.
    by eapply chunks_do_not_stop in Hg. }
  assert (Hr : in_result (wires s) = Some (save_outcome committed ran)).
  { unfold worker_inv in Hk. rewrite Ek in Hk. apply Hk. }
  rewrite Hr. unfold calm_answer. pose proof (calm_dense _ Hc) as Hdn.
  destruct Hs as [[E Hv']|[(E & -> & [Hl Hq])|(E & _ & _ & Hb)]]; [| |by destruct (Hgone E); left].
  - destruct v as [|e|]; [by destruct (Hgone E)| |done].
    assert (Hio : forall source, e <> InputIo source) by (intros source ->; by apply (calm_no_fail r0 source) in Hc).
    destruct e; try done; cbn.
    + destruct Hv' as (-> & -> & Hlt & Hq). rewrite (Hq Hdn). by rewrite (proj2 (N.compare_lt_iff _ _)).
    + destruct Hv' as (-> & Hl & Hlt). by rewrite (proj2 (N.compare_gt_iff _ _)).
    + by destruct (Hio source).
  - rewrite (Hq Hdn), Hl, N.compare_refl. cbn.
    destruct (calm_worker_start Ho Hd Hw) as [c0 Es].
    pose proof (ended_run _ _ _ _ _ _ Es (worker_wrote ms s ran w Hk ltac:(by rewrite Ek))) as Hrun.
    pose proof (write_stream_envelope_answer config declared f0 cs [Complete] Hm Hw ltac:(right; by exists [])) as Ha.
    rewrite <-E, Ems, Hrun, decide_False in Ha by lia. cbn in Ha. unfold stream_answer in Ha.
    rewrite decide_False, decide_True in Ha by lia. by subst ran.
Qed.

(** Nothing is lost in a run of steps. *)
Lemma steps_lose_nothing s :
  rtc save_steps start s -> facade s <> inr None /\ worker s <> inr None.
Proof.
  intros H. assert (H0 : facade start <> inr None /\ worker start <> inr None) by done.
  revert H0. induction H as [|s1 s2 s3 Hst _ IH]; [done|]. intros H0. apply IH. clear IH. revert H0.
  intros [H1 H2]. destruct Hst as [f fe wk we w x fe' w' _|fd fe k we w x we' w' _]; cbn in *;
    split; try done; by destruct x.
Qed.

(** C12: what a streaming save stores and answers does not depend on who runs
    first.  Whatever the interleaving of the facade and the worker over the channel
    of two messages, with a future that may be dropped and a worker that may panic
    at any moment: a worker that ends well has written the envelope of exactly what
    the reader has, which is what was declared; the caller is answered [Ok] only
    if the worker ended so and the file was committed; and when nothing is lost
    and no read or write fails, the answer is the one that the lengths call for. *)
Theorem interleaved_save_is_exact s :
  reader_dense r0 = true -> rtc saves start s ->
  (forall w, wrote (worker s) = Some (Ok tt, w) -> stored_reader w) /\
  (facade s = inr (Some (Ok tt)) ->
     committed = Ok tt /\ exists w, wrote (worker s) = Some (Ok tt, w) /\ stored_reader w) /\
  (maximum config <= U64_MAX -> declared <= maximum config -> opened = Ok tt -> writer_ok f0 = true ->
   reader_calm r0 = true -> rtc save_steps start s -> session_over s ->
     facade s = inr (Some match blen (reader_data r0) ?= declared with
                          | Lt => Err (InputEndedEarly declared (blen (reader_data r0)))
                          | Eq => committed
                          | Gt => Err (InputHasTrailingData declared)
                          end)).
Proof.
  intros Hd Hs. destruct (saves_inv s Hs) as (ms & Hf & Hw).
  assert (H1 : forall w, wrote (worker s) = Some (Ok tt, w) -> stored_reader w).
  { intros w E. eapply ok_stores; [done|exact Hf|]. by eapply worker_wrote. }
  split_and!; [done| |].
  - intros E. unfold facade_inv in Hf. rewrite E in Hf. destruct Hf as (v & _ & Ea & _).
    assert (Er : in_result (wires s) = Some (Ok tt))
      by (destruct v; [by destruct (in_result (wires s)); cbn in Ea; congruence|done|
        by destruct (in_result (wires s)); cbn in Ea; congruence]).
    unfold worker_inv in Hw. rewrite Er in Hw.
    destruct (worker s) as [[c|ran w|ran w]|[[ran w]|]] eqn:Ek; try (by destruct Hw as (_ & _ & ?)); [| |by destruct Hw].
    all: destruct Hw as (_ & _ & [= Eo]); destruct ran as [[]|e]; [|done]; cbn in Eo.
    all: split; [done|]; exists w; split; [done|by apply H1].
  - intros Hm Hdm Ho Hok Hc Hst Hover. destruct (steps_lose_nothing s Hst) as [Hl1 Hl2].
    unfold session_over in Hover. destruct (facade s) as [f|[a|]] eqn:Ef; [done| |done].
    destruct (worker s) as [k|[[ran w]|]] eqn:Ek; [done| |done].
    unfold facade_inv in Hf. rewrite Ef in Hf. do 2 f_equal. by eapply calm_answers.
Qed.

End Saves.

(** ** Witness *)

Section Witness.

(** The asynchronous save of three bytes, the facade first, to its end. *)
Definition whole_save :=
  session_run (save_facade true 3) (save_worker (Ok tt) 3) true 60
    (save_session fixture_config 3 true three_bytes (Ok tt) empty_file).

Lemma interleaved_save_is_exact_witness :
  (exists w, wrote (worker whole_save) = Some (Ok tt, w) /\
     wr_data w = envelope fixture_format (bstr "xyz")) /\
  facade whole_save = inr (Some (Ok tt)).
Proof.
  assert (Hr : rtc (session_step (save_facade true 3) (save_worker (Ok tt) 3))
    (save_session fixture_config 3 true three_bytes (Ok tt) empty_file) whole_save)
    by apply session_run_steps.
  destruct (interleaved_save_is_exact fixture_config 3 true three_bytes (Ok tt) (Ok tt) empty_file whole_save
    ltac:(by vm_compute) ltac:(by apply steps_move)) as (_ & Hok & Hcalm).
  assert (Ha : facade whole_save = inr (Some (Ok tt)))
    by (refine (Hcalm _ _ _ _ _ Hr _); by vm_compute).
  split; [|exact Ha]. destruct (Hok Ha) as (_ & w & Hw & _ & _ & E).
  exists w. split; [exact Hw|]. rewrite E. by vm_compute.
Defined.

End Witness.
