(* ===== verification/FacadeTheorems.v ===== *)
(** * The theorems on the facades

    What a streaming save publishes and answers, what a streaming load writes
    and answers, whoever misbehaves: the caller's reader or writer, the caller
    that drops the future, the worker, the filesystem. *)
From S2P Require Export System FacadeSpec.

Local Open Scope N_scope.
Local Open Scope blob_scope.

Section Submitted.
Context {B3 : Blake3}.

(** The submission of a stream that was accepted. *)
Definition stream_accepted (key : bytes) (operation : Channel -> Operation) (e e' : Engine) : Prop :=
  eng_accepted e' = eng_accepted e ++
    [(eng_next e, EvSubmission {| sub_key_hash := key_hash key;
                                  sub_operation := operation (eng_next e) |})].

Lemma submit_operation_ok k op ch e e' :
  submit_operation k op ch e = (Ok tt, e') ->
  eng_accepted e' = eng_accepted e ++ [(ch, EvSubmission {| sub_key_hash := k; sub_operation := op |})].
Proof. unfold submit_operation, send_event. destruct (eng_lifecycle e); try done. by destruct (eng_alive e); intros; simplify_eq/=. Qed.

Lemma start_save_stream_ok key n msgs e p e' :
  start_save_stream key n msgs e = (Ok p, e') ->
  p = Pending_new (inl (eng_next e)) /\ n <= maximum (eng_config e) /\
  stream_accepted key (SaveStream n msgs) e e'.
Proof.
  unfold start_save_stream. destruct (ensure_open e); [|done].
  destruct (_ <? _) eqn:Hn; [done|]. cbn [bounded].
  destruct (submit_operation _ _ _ _) as [[[]|] e1] eqn:E; intros; simplify_eq/=.
  apply submit_operation_ok in E. reflect_bools. done.
Qed.

Lemma start_load_stream_ok key acc ack e p e' :
  start_load_stream key acc ack e = (Ok p, e') ->
  p = Pending_new (inl (eng_next e)) /\
  stream_accepted key (LoadStream (Some acc) (Some ack)) e e'.
Proof.
  unfold start_load_stream. destruct (ensure_open e); [|done]. cbn [bounded].
  destruct (submit_operation _ _ _ _) as [[[]|] e1] eqn:E; intros; simplify_eq/=.
  by apply submit_operation_ok in E.
Qed.

(** What the caller is answered when the channel delivers. *)
Definition answered {T} (p : Pending T) (ran answer : result T AtomicBlobStoreError) : Prop :=
  forall e, wait p (Some ran) e = Some (answer, e).

Lemma verdict_answered {T} v ch (p : Pending T) ran answer e2 :
  verdict_pending v (Pending_new (inl ch)) = Some p -> fst <$> wait p (Some ran) e2 = Some answer ->
  answered p ran answer /\
  ((v = Answer /\ answer = ran) \/ exists error, v = Discard error /\ answer = Err error).
Proof.
  destruct v; cbn; intros; simplify_eq/=; (split; [by intros e|]); eauto.
Qed.

Context {B3L : Blake3Laws}.

(** The file that the workers use for a key. *)
Lemma blob_path_file {Crc : Crc32c} {Tgt : Target} {Awf : AtomicWriteFile} {Rx : Rustix} key e :
  blob_path key e = blob_file (eng_config e) (blake3_to_hex (key_hash key)).
Proof. done. Qed.

Lemma digest_name key : hex_name (blake3_to_hex (key_hash key)).
Proof. apply key_hex_name, blake3_hash_length. Qed.

End Submitted.

(** ** A streaming save in the store *)

Section Steps.
Context {Crc : Crc32c} {Tgt : Target} {B3 : Blake3}.

(** A streaming save stores the payload of its messages, or does nothing. *)
Lemma stream_step_cases c n ms ch ran a a' :
  abstract_step c (SaveStream n ms ch) (RSaveStream ran) a a' ->
  a' = a \/ exists q, stream_payload ms = Some q /\ blen q = n /\ stores c a' q.
Proof.
  destruct ran as [u|error]; cbn; [intros (q & ? & ? & ? & _); right; by exists q|].
  repeat case_match; auto.
Qed.

(** A future that was dropped, or an error of the reader, closes the stream
    before its completion. *)
Lemma open_stream_is_no_step declared r sends turns v p ch c ran a a' :
  pumped declared r sends turns v p -> v <> Answer ->
  abstract_step c (SaveStream declared (pump_sent p) ch) (RSaveStream ran) a a' -> a' = a.
Proof.
  intros Hp Hv Hs. apply stream_step_cases in Hs as [?|(q & Hq & _)]; [done|].
  by destruct (pumped_payload _ _ _ _ _ _ _ Hp Hq).
Qed.

(** What [save_from] submits to a store, on either system: the step of the map
    that the operation takes, whenever it runs, leaves the entry alone or stores
    exactly what the reader has; the caller is answered [Ok] only for the
    latter, and an error of its own, or a dropped future, means the former. *)
Theorem save_from_is_a_map_step key r declared sends turns e pending r' e' :
  reader_dense r = true ->
  Tokio_save_from key r declared sends turns e = (Ok pending, r', e') ->
  exists msgs, stream_accepted key (SaveStream declared msgs) e e' /\
  forall c ch ran a a', abstract_step c (SaveStream declared msgs ch) (RSaveStream ran) a a' ->
    (a' = a \/ blen (reader_data r) = declared /\ stores c a' (reader_data r)) /\
    (pending = None -> a' = a) /\
    forall p e2 answer, pending = Some p -> fst <$> wait p (Some ran) e2 = Some answer ->
      (answer = ran /\ (ran = Ok tt -> stores c a' (reader_data r))) \/
      (exists error, answer = Err error /\ a' = a).
Proof.
  intros Hd E. unfold Tokio_save_from in E. pose proof (tokio_pumped declared r sends turns) as Hp.
  destruct (Tokio_pump_stream declared r sends turns) as [v p].
  destruct (start_save_stream _ _ _ _) as [[q|error] e1] eqn:Es; [|done]. injection E as <- <- <-.
  apply start_save_stream_ok in Es as (-> & _ & Ha). exists (pump_sent p). split; [done|].
  intros c ch ran a a' Hs.
  pose proof (fun Hv => open_stream_is_no_step _ _ _ _ _ _ _ _ _ _ _ Hp Hv Hs) as Hopen.
  assert (Hpay : forall q, stream_payload (pump_sent p) = Some q -> q = reader_data r)
    by (intros q Hq; destruct (pumped_payload _ _ _ _ _ _ _ Hp Hq) as (_ & _ & Hq' & _); by rewrite Hq').
  split_and!.
  - apply stream_step_cases in Hs as [?|(q & Hq & ? & ?)]; [by left|].
    right. by rewrite <-(Hpay q Hq).
  - destruct v; [done|done|]. intros _. by apply Hopen.
  - intros q e2 answer Hv Hw.
    destruct (verdict_answered v _ q ran answer e2 Hv Hw) as [_ [[-> ->]|(error & -> & ->)]]; [left|right].
    + split; [done|]. intros ->. destruct Hs as (q' & Hq & _ & Hst & _). by rewrite <-(Hpay q' Hq).
    + exists error. split; [done|]. by apply Hopen.
Qed.

End Steps.

Section Facades.
Context {Crc : Crc32c} {CrcL : Crc32cLaws} {Tgt : Target} {Awf : AtomicWriteFile}
  {AwfL : AtomicWriteFileLaws} {Rx : Rustix} {B3 : Blake3} {B3L : Blake3Laws}.

(** What a streaming save of [key] may do on [w] when the caller's reader has
    [data], and what [Ok] means. *)
Definition publishes (key data : bytes) (declared : N) (e : Engine)
    (w w' : World) : Prop :=
  let c := eng_config e in let h := blake3_to_hex (key_hash key) in
  passes (fun fs => unpublished c h (w_fs w) fs \/
    (blen data = declared /\ published c h data (w_fs w) fs)) w w'.

Lemma pumped_run key declared r sends turns v p e (w : World) :
  let c := eng_config e in let h := blake3_to_hex (key_hash key) in
  valid_config c -> reader_dense r = true -> pumped declared r sends turns v p ->
  let '((ran, _), w') := save_blob_from_receiver c (blob_path key e) declared (pump_sent p) w in
  publishes key (reader_data r) declared e w w' /\
  (ran = Ok tt -> v = Answer /\ blen (reader_data r) = declared /\
     exists t, w_fs w' !! blob_path key e = Some (Regular (envelope (format c) (reader_data r)) t)) /\
  (v <> Answer -> passes (unpublished c h (w_fs w)) w w').
Proof.
  intros c h Hc Hd Hp. rewrite blob_path_file.
  pose proof (save_blob_from_receiver_run c h declared (pump_sent p) w Hc (digest_name key)) as H.
  destruct (save_blob_from_receiver _ _ _ _ _) as [[ran rest] w'] eqn:E. destruct H as [Hr Ho].
  assert (Hpay : forall q, stream_payload (pump_sent p) = Some q -> v = Answer /\ reader_data r = q)
    by (intros q Hq; destruct (pumped_payload _ _ _ _ _ _ _ Hp Hq) as (-> & _ & Hq' & _); auto).
  split_and!.
  - eapply passes_mono, Hr. intros fs [Hu|(q & Hq & Hl & Hpub)]; [by left|right].
    by destruct (Hpay q Hq) as [_ ->].
  - intros ->. destruct Ho as (q & t & Hq & _ & Ht). destruct (Hpay q Hq) as [Hv ->].
    split_and!; [done|by eapply save_stream_length|by exists t].
  - intros Hv. eapply passes_mono, Hr. intros fs [Hu|(q & Hq & _)]; [done|].
    by destruct (Hpay q Hq).
Qed.

Lemma load_none_sends_nothing c path sink (w : World) :
  let '((ran, sent), _) := load_blob_into_sender c path sink w in ran = Ok None -> sent = [].
Proof.
  unfold load_blob_into_sender. destruct (fs_open path w) as [[f|e] w1].
  2:{ case_decide; [|done]. by destruct (ensure_namespace_available c w1) as [[[]|] w2]. }
  destruct (fst (validate_envelope_reader _ _ _)) as [m|e]; [|done].
  destruct (fs_seek _ f w1) as [[f'|e] w2]; [|done].
  destruct (deliver_payload _ _ _) as [[[]|e] sent]; [|done]. by destruct (acknowledges sink).
Qed.

(** A stored payload comes out of a streaming load with a willing receiver. *)
Lemma stored_streams_out c path q t (w : World) sent ran w' :
  valid_config c -> fits_usize (maximum c) -> calm w -> blen q <= maximum c ->
  w_fs w !! path = Some (Regular (envelope (format c) q) t) ->
  load_blob_into_sender c path {| accepts := []; acknowledges := true |} w = ((ran, sent), w') ->
  ran = Ok (Some {| payload_len := blen q |}) /\ concat sent = q.
Proof.
  intros Hc Hm Hw Hq Hf E. pose proof (fits_u64 _ Hm) as Hu.
  assert (Hdec : decode_spec (format c) (maximum c) (envelope (format c) q) = Ok q)
    by (apply decode_spec_envelope; [apply Hc|done|lia]).
  assert (Hres : resolve SYMLINK_MAX (w_fs w) path = Ok (Regular (envelope (format c) q) t))
    by by apply resolve_plain.
  pose proof (load_blob_into_sender_calm c path {| accepts := []; acknowledges := true |} w Hw
    (proj1 Hc) Hm (conj eq_refl eq_refl)) as Hran.
  pose proof (load_blob_into_sender_inv c path {| accepts := []; acknowledges := true |} w (proj1 Hc) Hm) as Hinv.
  rewrite E in Hran, Hinv. cbn [fst] in Hran. unfold load_answer in Hran.
  rewrite Hres in Hran. cbn [node_data] in Hran. rewrite drop_0, Hdec in Hran.
  split; [done|]. destruct Hinv as (_ & _ & Hinv). destruct (Hinv _ Hran) as [(n & Hn & Hd & Hb) _].
  rewrite Hres in Hn. injection Hn as <-. cbn [node_data] in Hd. rewrite drop_0 in Hd.
  assert (Ok q = Ok (E := AtomicBlobStoreError) (concat sent)) as [=]; [|done].
  rewrite <-Hdec, Hd. apply decode_spec_envelope; [apply Hc|done|lia].
Qed.

(** C11: a streaming save publishes what the caller's reader has, or nothing; the
    blocking facade is the asynchronous one without turns ([facades_agree]).
    Whatever the reader, the worker's channel, the filesystem
    and a caller that drops the future do, at every point of the run of the
    accepted operation the canonical file is the old one, or the reader had
    exactly the declared bytes and the file is their envelope; the caller is
    answered [Ok] only then.  A caller that gets an error of its reader, or that
    dropped the future before the stream was complete, has changed nothing. *)
Theorem save_from_publishes_the_reader key r declared sends turns e pending r' e' :
  let c := eng_config e in let h := blake3_to_hex (key_hash key) in
  valid_config c -> reader_dense r = true ->
  Tokio_save_from key r declared sends turns e = (Ok pending, r', e') ->
  exists msgs, stream_accepted key (SaveStream declared msgs) e e' /\
  forall w : World,
    let '((ran, _), w') := save_blob_from_receiver c (blob_path key e) declared msgs w in
    publishes key (reader_data r) declared e w w' /\
    (pending = None -> passes (unpublished c h (w_fs w)) w w') /\
    forall p e2 answer, pending = Some p -> fst <$> wait p (Some ran) e2 = Some answer ->
      answered p ran answer /\
      ((answer = ran /\ (ran = Ok tt -> blen (reader_data r) = declared /\
          exists t, w_fs w' !! blob_path key e =
            Some (Regular (envelope (format c) (reader_data r)) t))) \/
       (exists error, answer = Err error /\ passes (unpublished c h (w_fs w)) w w')).
Proof.
  intros c h Hc Hd E. unfold Tokio_save_from in E.
  pose proof (tokio_pumped declared r sends turns) as Hp.
  destruct (Tokio_pump_stream declared r sends turns) as [v p].
  destruct (start_save_stream _ _ _ _) as [[q|error] e1] eqn:Es; [|done]. injection E as <- <- <-.
  apply start_save_stream_ok in Es as (-> & _ & Ha). exists (pump_sent p). split; [done|].
  intros w. pose proof (pumped_run key declared r sends turns v p e w Hc Hd Hp) as H.
  destruct (save_blob_from_receiver _ _ _ _ _) as [[ran rest] w']. destruct H as (H1 & H2 & H3).
  split_and!; [done| |].
  - destruct v; [done|done|]. intros _. by apply H3.
  - intros q e2 answer Hv Hw. destruct (verdict_answered v _ q ran answer e2 Hv Hw) as [Han Hcase].
    split; [done|]. destruct Hcase as [[-> ->]|(error & -> & ->)]; [left|right].
    + split; [done|]. intros Hok. by destruct (H2 Hok) as (_ & ?).
    + exists error. split; [done|]. by apply H3.
Qed.

(** On readers that do not fail, [save_from] compares lengths.  A reader that
    has fewer bytes than declared, or more, is answered with its own error, which
    names what was read, whatever the operation returned; otherwise the answer is
    the result of the operation, which was sent all the reader's bytes. *)
Theorem save_from_compares_lengths key r declared e pending r' e' :
  reader_calm r = true ->
  Blocking_save_from key r declared [] e = (Ok pending, r', e') ->
  exists msgs p, stream_accepted key (SaveStream declared msgs) e e' /\ pending = Some p /\
  (blen (reader_data r) = declared -> stream_payload msgs = Some (reader_data r)) /\
  forall ran, answered p ran
    match blen (reader_data r) ?= declared with
    | Lt => Err (InputEndedEarly declared (blen (reader_data r)))
    | Eq => ran
    | Gt => Err (InputHasTrailingData declared)
    end.
Proof.
  intros Hc E. unfold Blocking_save_from in E.
  pose proof (pump_calm declared r Hc) as Hp. destruct (pump_stream declared r []) as [v p].
  destruct (start_save_stream _ _ _ _) as [[q|error] e1] eqn:Es; [|done]. injection E as <- <- <-.
  apply start_save_stream_ok in Es as (-> & _ & Ha). destruct Hp as [-> Hpay].
  exists (pump_sent p). unfold calm_verdict.
  destruct (blen (reader_data r) ?= declared); eexists; by split_and!.
Qed.

(** The facades agree.  While no future is dropped and no result comes early,
    the asynchronous calls submit, send, answer and leave behind what the
    blocking ones do. *)
Theorem facades_agree key r w declared sends received accepts e :
  Tokio_save_from key r declared sends [] e = Blocking_save_from key r declared sends e /\
  Tokio_load_into key w received [] accepts e =
    (fun '(x, w', e') => (map_ok Some x, w', e')) (Blocking_load_into key w received accepts e).
Proof.
  split.
  - unfold Tokio_save_from, Blocking_save_from. by rewrite pumps_agree.
  - unfold Tokio_load_into, Blocking_load_into. rewrite write_chunks_agree.
    destruct (write_chunks received w) as [[[]|error] w']; cbn [default fmap option_fmap option_map is_ok];
      by destruct (start_load_stream _ _ _ _) as [[q|error'] e1].
Qed.

(** The pump is bounded.  Every message of a streaming save but the completion
    is a chunk of one to 65536 bytes, the chunks together have at most the
    declared length, the counter of the bytes read never overflows, and no more
    than one byte after the declared length is taken from the reader. *)
Theorem save_from_is_frugal key r declared sends turns e pending r' e' :
  declared <= U64_MAX ->
  Tokio_save_from key r declared sends turns e = (Ok pending, r', e') ->
  pump_read (snd (Tokio_pump_stream declared r sends turns)) <= U64_MAX /\
  exists cs fin, stream_accepted key (SaveStream declared (map Chunk cs ++ fin)) e e' /\
    (fin = [] \/ fin = [Complete]) /\
    Forall (fun c => 1 <= blen c <= 65536) cs /\ blen (concat cs) <= declared /\
    exists used, reader_data r = used ++ reader_data r' /\ blen used <= declared + 1.
Proof.
  intros Hd E. unfold Tokio_save_from in E. pose proof (tokio_pumped declared r sends turns) as Hp.
  destruct (Tokio_pump_stream declared r sends turns) as [v p]. cbn [snd].
  destruct (start_save_stream _ _ _ _) as [[q|error] e1] eqn:Es; [|done]. injection E as <- <- <-.
  apply start_save_stream_ok in Es as (_ & _ & Ha).
  destruct Hp as ([Hr Hu] & cs & [Hch Ht _] & Hs). split; [lia|].
  assert (exists fin, pump_sent p = map Chunk cs ++ fin /\ (fin = [] \/ fin = [Complete])) as (fin & Hf & Hfin).
  { destruct Hs as [[-> _]|[(-> & _)|(-> & _)]]; [exists []|by exists [Complete]; auto|exists []];
      rewrite app_nil_r; auto. }
  exists cs, fin. rewrite Hf in Ha. split_and!; try done.
  eapply Forall_impl; [exact Hch|]. unfold stream_chunk. change STREAM_CHUNK_SIZE with 65536. lia.
Qed.

(** ** Loads *)

(** C24: a streaming load writes validated bytes.  Whatever happens to the writer
    and to the future, what was appended is a prefix of the payload whose
    envelope the file held; metadata in the answer means that it is the whole
    payload, [None] that nothing was written, and the filesystem is the same. *)
Theorem load_into_is_exact key wr sent awaits accepts e pending wr' e' :
  let c := eng_config e in
  valid_config c -> fits_usize (maximum c) ->
  Tokio_load_into key wr sent awaits accepts e = (Ok pending, wr', e') ->
  exists acc ack, stream_accepted key (LoadStream (Some acc) (Some ack)) e e' /\
  forall (w w' : World) ran,
    load_blob_into_sender c (blob_path key e) {| accepts := acc; acknowledges := ack |} w
      = ((ran, sent), w') ->
    passes (fun fs => fs = w_fs w) w w' /\
    (wr_data wr' = wr_data wr \/ exists p n, holds c (blob_path key e) (w_fs w) p /\
       wr_data wr' = wr_data wr ++ take n p) /\
    forall p e2 answer, pending = Some p -> fst <$> wait p (Some ran) e2 = Some answer ->
      answered p ran answer /\
      match answer with
      | Ok (Some m) => holds c (blob_path key e) (w_fs w) (drop (length (wr_data wr)) (wr_data wr')) /\
          wr_data wr' = wr_data wr ++ drop (length (wr_data wr)) (wr_data wr') /\
          payload_len m = blen (drop (length (wr_data wr)) (wr_data wr'))
      | Ok None => wr_data wr' = wr_data wr
      | Err _ => True
      end.
Proof.
  intros c Hc Hm E. unfold Tokio_load_into in E.
  destruct (Tokio_write_chunks sent awaits wr) as [written wr1] eqn:Ew.
  apply tokio_write_chunks_spec in Ew as [[n Hn] Hall].
  set (sink := writing_sink _ accepts) in E.
  destruct (start_load_stream _ _ _ _) as [[q|error] e1] eqn:Es; [|done]. injection E as <- <- <-.
  apply start_load_stream_ok in Es as [-> Ha]. exists (Filesystem.accepts sink), (acknowledges sink).
  split; [done|]. intros w w' ran El.
  set (sink' := {| Filesystem.accepts := _; acknowledges := _ |}) in El.
  pose proof (load_blob_into_sender_passes (fun fs => fs = w_fs w) c (blob_path key e) sink' w eq_refl) as Hp.
  pose proof (load_blob_into_sender_inv c (blob_path key e) sink' w (proj1 Hc) Hm) as Hv.
  pose proof (load_none_sends_nothing c (blob_path key e) sink' w) as Hnone.
  rewrite El in Hp, Hv, Hnone. destruct Hv as (_ & Hpre & Hmeta). split_and!; [done| |].
  - destruct (decide (sent = [])) as [->|Hsent]; [left|right].
    + cbn [concat] in Hn. by rewrite Hn, take_nil, app_nil_r.
    + destruct (Hpre Hsent) as (p & rest & Hh & ->). exists (concat sent ++ rest), (min n (length (concat sent))).
      split; [done|]. rewrite Hn. f_equal. rewrite take_app_le by lia.
      destruct (decide (n <= length (concat sent))%nat); [by rewrite Nat.min_l|].
      by rewrite Nat.min_r, !take_ge by lia.
  - intros p e2 answer Hpend Hw. destruct written as [[[]|error]|]; cbn in Hpend; simplify_eq.
    + cbn in Hw. injection Hw as <-. split; [by intros e3|]. rewrite (Hall eq_refl), drop_app_length.
      destruct ran as [[m|]|error]; [| |done].
      * by destruct (Hmeta m eq_refl).
      * rewrite (Hnone eq_refl). cbn. by rewrite app_nil_r.
    + cbn in Hw. injection Hw as <-. by split; [intros e3|].
Qed.

(** C23: what was streamed in is streamed out.  After a streaming save that the
    caller was answered [Ok], a streaming load of the key by a writer that does
    not fail, without failures of the filesystem, answers the declared length
    and appends exactly the bytes of the reader. *)
Theorem streamed_blob_comes_back key r declared e pending r' e' wr sent accepts f pending2 wr' f' :
  let c := eng_config e in
  valid_config c -> fits_usize (maximum c) -> reader_dense r = true -> writer_ok wr = true ->
  Blocking_save_from key r declared [] e = (Ok pending, r', e') ->
  eng_config f = c -> Blocking_load_into key wr sent accepts f = (Ok pending2, wr', f') ->
  exists msgs acc ack, stream_accepted key (SaveStream declared msgs) e e' /\
  stream_accepted key (LoadStream (Some acc) (Some ack)) f f' /\
  forall (w w1 w2 : World) rest ran,
    calm w -> save_blob_from_receiver c (blob_path key e) declared msgs w = ((Ok tt, rest), w1) ->
    load_blob_into_sender c (blob_path key e) {| Filesystem.accepts := acc; acknowledges := ack |} w1
      = ((ran, sent), w2) ->
    answered pending2 ran (Ok (Some {| payload_len := declared |})) /\
    wr_data wr' = wr_data wr ++ reader_data r.
Proof.
  cbv zeta. intros Hc Hm Hd Hwr Esave Hfe Eload. unfold Blocking_save_from in Esave.
  pose proof (blocking_pumped declared r []) as Hp. destruct (pump_stream declared r []) as [v p].
  destruct (start_save_stream _ _ _ _) as [[q|error] e3] eqn:Es; [|done]. injection Esave as <- <- <-.
  apply start_save_stream_ok in Es as (-> & _ & Ha).
  unfold Blocking_load_into in Eload.
  destruct (write_chunks_calm sent wr Hwr) as [wr1 Ew]. rewrite Ew in Eload.
  destruct (start_load_stream _ _ _ _) as [[q|error] e4] eqn:Es2; [|done]. injection Eload as <- <- <-.
  apply start_load_stream_ok in Es2 as [-> Ha2]. exists (pump_sent p), [], true.
  split_and!; [done..|]. intros w w1 w2 rest ran Hcalm Erun Eload.
  pose proof (pumped_run key declared r [] [] v p e w Hc Hd Hp) as H. rewrite Erun in H.
  destruct H as (Hpub & Hok & _). destruct (Hok eq_refl) as (_ & Hlen & t & Hfile).
  pose proof (passes_calm _ _ _ Hpub Hcalm) as Hcalm1.
  destruct (stored_streams_out (eng_config e) (blob_path key e) (reader_data r) t w1 sent ran w2) as [-> Hsent];
    try done.
  { pose proof (save_blob_from_receiver_run (eng_config e) _ declared (pump_sent p) w Hc (digest_name key)) as Hrun.
    rewrite <-blob_path_file, Erun in Hrun. destruct Hrun as [_ (q & t' & Hq & Hmax & Hf)].
    destruct (pumped_payload _ _ _ _ _ _ _ Hp Hq) as (_ & _ & Hq' & _). by rewrite (Hq' Hd). }
  rewrite Hlen. split; [by intros e5|]. by rewrite (write_chunks_ok _ _ _ Ew), Hsent.
Qed.

End Facades.

(** ** Witnesses *)

Section Witnesses.

(** An engine that was just opened, and a reader that gives its four bytes in
    two pieces. *)
Abbreviation opened := (st_engine fixture_start).
Abbreviation start := (fixture_world full_store []).

Definition two_pieces : reader := [RData (bstr "ab"); RData (bstr "cd")].
Definition four_messages : list SaveStreamMessage :=
  [Chunk (bstr "ab"); Chunk (bstr "cd"); Complete].

Lemma accepted_messages msgs n e' :
  stream_accepted key_a (SaveStream n msgs) opened e' ->
  forall msgs', map snd (eng_accepted e') =
    [EvSubmission {| sub_key_hash := key_hash key_a; sub_operation := SaveStream n msgs' 0 |}] ->
  msgs = msgs'.
Proof. unfold stream_accepted. intros -> msgs' E. cbn in E. by simplify_eq. Defined.

Lemma save_from_publishes_the_reader_witness :
  exists p r' e', Tokio_save_from key_a two_pieces 4 [] [] opened = (Ok (Some p), r', e') /\
  answered p (Ok tt) (Ok tt) /\
  let '((ran, _), w') :=
    save_blob_from_receiver fixture_config (blob_path key_a opened) 4 four_messages start in
  ran = Ok tt /\ publishes key_a (bstr "abcd") 4 opened start w'.
Proof.
  destruct (Tokio_save_from key_a two_pieces 4 [] [] opened) as [[[[p|]|] r'] e'] eqn:E;
    try (apply (f_equal (fun x => fst (fst x))) in E; by vm_compute in E).
  exists p, r', e'. split; [done|].
  destruct (save_from_publishes_the_reader key_a two_pieces 4 [] [] opened (Some p) r' e')
    as (msgs & Ha & H); [apply fixture_valid_config|done|exact E|].
  assert (msgs = four_messages) as ->.
  { apply (accepted_messages _ _ _ Ha). apply (f_equal snd) in E. cbn [snd] in E. rewrite <-E. by vm_compute. }
  specialize (H start). change (eng_config opened) with fixture_config in H.
  destruct (save_blob_from_receiver _ _ _ _ start) as [[ran rest] w'] eqn:Er.
  assert (Hran : ran = Ok tt)
    by (apply (f_equal (fun x => fst (fst x))) in Er; by vm_compute in Er).
  subst ran. destruct H as (Hp & _ & Han).
  assert (Hpend : fst <$> wait p (Some (Ok tt)) opened = Some (Ok tt)).
  { apply (f_equal (fun x => match fst (fst x) with
      | Ok (Some q) => fst <$> wait q (Some (Ok tt)) opened | _ => None end)) in E.
    cbn [fst] in E. rewrite <-E. by vm_compute. }
  split; [by apply (Han p opened)|]. by split.
Defined.

Lemma save_from_compares_lengths_witness :
  exists p r' e', Blocking_save_from key_a two_pieces 5 [] opened = (Ok (Some p), r', e') /\
    answered p (Err StreamCancelled) (Err (InputEndedEarly 5 4)).
Proof.
  destruct (Blocking_save_from key_a two_pieces 5 [] opened) as [[[pending|] r'] e'] eqn:E;
    [|apply (f_equal (fun x => fst (fst x))) in E; by vm_compute in E].
  destruct (save_from_compares_lengths key_a two_pieces 5 opened pending r' e') as (msgs & p & _ & -> & _ & H);
    [done|exact E|].
  exists p, r', e'. split; [done|]. apply (H (Err StreamCancelled)).
Defined.

Lemma save_from_is_a_map_step_witness :
  exists pending r' e', Tokio_save_from key_a two_pieces 4 [] [] opened = (Ok pending, r', e') /\
    let file := Some (Regular (envelope fixture_format (bstr "abcd")) None) in
    file = None \/ blen (reader_data two_pieces) = 4 /\ stores fixture_config file (reader_data two_pieces).
Proof.
  destruct (Tokio_save_from key_a two_pieces 4 [] [] opened) as [[[pending|] r'] e'] eqn:E;
    [|apply (f_equal (fun x => fst (fst x))) in E; by vm_compute in E].
  exists pending, r', e'. split; [done|]. intros file.
  destruct (save_from_is_a_map_step key_a two_pieces 4 [] [] opened pending r' e') as (msgs & Ha & H);
    [done|exact E|].
  assert (msgs = four_messages) as ->.
  { apply (accepted_messages _ _ _ Ha). apply (f_equal snd) in E. cbn [snd] in E. rewrite <-E. by vm_compute. }
  apply (H fixture_config 0 (Ok tt) None file). exists (bstr "abcd"). split_and!; [done..| |by vm_compute].
  by exists None.
Defined.

Lemma save_from_is_frugal_witness :
  exists pending r' e', Tokio_save_from key_a (RData (bstr "xyz") :: two_pieces) 4 [] [] opened =
      (Ok pending, r', e') /\
    exists used, bstr "xyzabcd" = used ++ reader_data r' /\ blen used <= 4 + 1.
Proof.
  destruct (Tokio_save_from key_a (RData (bstr "xyz") :: two_pieces) 4 [] [] opened)
    as [[[pending|] r'] e'] eqn:E;
    [|apply (f_equal (fun x => fst (fst x))) in E; by vm_compute in E].
  exists pending, r', e'. split; [done|].
  destruct (save_from_is_frugal key_a (RData (bstr "xyz") :: two_pieces) 4 [] [] opened pending r' e')
    as (_ & cs & fin & _ & _ & _ & _ & Hu); [by vm_compute|exact E|exact Hu].
Defined.

(** The stored blob of [zero_hex] under the key whose digest it is. *)
Definition zero_key : bytes := repeat Byte.x00 32.

Lemma load_into_is_exact_witness :
  exists p wr' e', Tokio_load_into zero_key (Writer (bstr "> ") []) [bstr "abc"] [] [] opened =
      (Ok (Some p), wr', e') /\
    answered p (Ok (Some {| payload_len := 3 |})) (Ok (Some {| payload_len := 3 |})) /\
    holds fixture_config (blob_path zero_key opened) full_store (drop 2 (wr_data wr')).
Proof.
  destruct (Tokio_load_into zero_key (Writer (bstr "> ") []) [bstr "abc"] [] [] opened)
    as [[[[p|]|] wr'] e'] eqn:E;
    try (apply (f_equal (fun x => fst (fst x))) in E; by vm_compute in E).
  exists p, wr', e'. split; [done|].
  destruct (load_into_is_exact zero_key (Writer (bstr "> ") []) [bstr "abc"] [] [] opened (Some p) wr' e')
    as (acc & ack & Ha & H); [apply fixture_valid_config|by vm_compute|exact E|].
  assert (acc = [] /\ ack = true) as [-> ->].
  { unfold stream_accepted in Ha. apply (f_equal (fun x => map snd (eng_accepted (snd x)))) in E.
    cbn [snd] in E. rewrite Ha in E. vm_compute in E. by simplify_eq. }
  change (eng_config opened) with fixture_config in H.
  destruct (load_blob_into_sender fixture_config (blob_path zero_key opened)
    {| Filesystem.accepts := []; acknowledges := true |} start) as [[ran sent] w'] eqn:Er.
  assert (Hr : (ran, sent) = (Ok (Some {| payload_len := 3 |}), [bstr "abc"]))
    by (apply (f_equal fst) in Er; by vm_compute in Er).
  injection Hr as -> ->. destruct (H start w' _ Er) as (_ & _ & Han).
  assert (Hpend : fst <$> wait p (Some (Ok (Some {| payload_len := 3 |}))) opened =
    Some (Ok (Some {| payload_len := 3 |}))).
  { apply (f_equal (fun x => match fst (fst x) with
      | Ok (Some q) => fst <$> wait q (Some (Ok (Some {| payload_len := 3 |}))) opened
      | _ => None end)) in E.
    cbn [fst] in E. rewrite <-E. by vm_compute. }
  destruct (Han p opened _ eq_refl Hpend) as [H1 (H2 & _)]. split; [exact H1|exact H2].
Defined.

Lemma streamed_blob_comes_back_witness :
  exists p wr' f', Blocking_load_into key_a (Writer [] []) [bstr "abcd"] [] opened = (Ok p, wr', f') /\
    answered p (Ok (Some {| payload_len := 4 |})) (Ok (Some {| payload_len := 4 |})) /\
    wr_data wr' = bstr "abcd".
Proof.
  destruct (Blocking_save_from key_a two_pieces 4 [] opened) as [[[pending|] r'] e'] eqn:E;
    [|apply (f_equal (fun x => fst (fst x))) in E; by vm_compute in E].
  destruct (Blocking_load_into key_a (Writer [] []) [bstr "abcd"] [] opened) as [[[p|] wr'] f'] eqn:El;
    [|apply (f_equal (fun x => fst (fst x))) in El; by vm_compute in El].
  exists p, wr', f'. split; [done|].
  destruct (streamed_blob_comes_back key_a two_pieces 4 opened pending r' e' (Writer [] []) [bstr "abcd"]
    [] opened p wr' f') as (msgs & acc & ack & Ha & Ha2 & H);
    [apply fixture_valid_config|by vm_compute|done|done|exact E|done|exact El|].
  assert (msgs = four_messages) as ->.
  { apply (accepted_messages _ _ _ Ha). apply (f_equal snd) in E. cbn [snd] in E. rewrite <-E. by vm_compute. }
  assert (acc = [] /\ ack = true) as [-> ->].
  { unfold stream_accepted in Ha2. apply (f_equal (fun x => map snd (eng_accepted (snd x)))) in El.
    cbn [snd] in El. rewrite Ha2 in El. vm_compute in El. by simplify_eq. }
  change (eng_config opened) with fixture_config in H.
  destruct (save_blob_from_receiver fixture_config (blob_path key_a opened) 4 four_messages start)
    as [[ran rest] w1] eqn:Er.
  destruct (load_blob_into_sender fixture_config (blob_path key_a opened)
    {| Filesystem.accepts := []; acknowledges := true |} w1) as [[ran2 sent] w2] eqn:Er2.
  assert (Hran : ran = Ok tt) by (apply (f_equal (fun x => fst (fst x))) in Er; by vm_compute in Er).
  assert (Hr2 : (ran2, sent) = (Ok (Some {| payload_len := 4 |}), [bstr "abcd"])).
  { apply (f_equal fst) in Er2. cbn [fst] in Er2. rewrite <-Er2.
    apply (f_equal snd) in Er. cbn [snd] in Er. rewrite <-Er. by vm_compute. }
  subst ran. injection Hr2 as -> ->. destruct (H start w1 w2 rest _ ltac:(done) Er Er2) as [H1 H2].
  split; [exact H1|exact H2].
Defined.

End Witnesses.
