(* ===== verification/WindowsPaths.v ===== *)
(** * Wide paths

    What [wide_path] passes to the calls: 16-bit units, one NUL at the end, no
    slash, and a prefix under which Windows does not interpret the rest. *)
From S2P Require Export Windows.

Local Open Scope N_scope.

Definition u16 (u : N) : Prop := u < 65536.

Lemma cont_lt b : cont b < 64.
Proof. unfold cont. by apply N.mod_lt. Qed.

(** The shapes of [encode_wide], for induction on the length. *)
Lemma encode_wide_ind (P : bytes -> Prop) :
  P [] ->
  (forall b s, byte_val b < 128 -> P s -> P (b :: s)) ->
  (forall b s, 128 <= byte_val b -> (forall s', (length s' < length (b :: s))%nat -> P s') -> P (b :: s)) ->
  forall s, P s.
Proof.
  intros Hn Ha Hb s. remember (length s) as n eqn:E. revert s E.
  induction n as [n IH] using lt_wf_ind. intros [|b s] ->; [done|].
  destruct (N.ltb_spec (byte_val b) 128) as [H|H].
  - apply Ha; [done|]. by eapply IH; [|done]; simpl; lia.
  - apply Hb; [done|]. intros s' Hs. by eapply IH.
Qed.

Lemma encode_wide_u16 s : Forall u16 (encode_wide s).
Proof.
  induction s as [|b s Hb IH|b s Hb IH] using encode_wide_ind; [by apply Forall_nil| |]; cbn [encode_wide].
  - rewrite (proj2 (N.ltb_lt _ _)) by done. apply Forall_cons; unfold u16; split; [lia|done].
  - rewrite (proj2 (N.ltb_ge _ _)) by done.
    pose proof (N.mod_lt (byte_val b) 32). pose proof (N.mod_lt (byte_val b) 16).
    pose proof (N.mod_lt (byte_val b) 8).
    destruct s as [|b1 s]; [by apply Forall_nil|]. pose proof (cont_lt b1).
    destruct (byte_val b <? 224); [apply Forall_cons; split; [unfold u16; lia|apply IH; simpl; lia]|].
    destruct s as [|b2 s]; [by apply Forall_nil|]. pose proof (cont_lt b2).
    destruct (byte_val b <? 240); [apply Forall_cons; split; [unfold u16; lia|apply IH; simpl; lia]|].
    destruct s as [|b3 s]; [by apply Forall_nil|]. pose proof (cont_lt b3). cbv zeta.
    set (code := _ - 65536). pose proof (N.mod_lt code 1024).
    assert (code / 1024 < 2048) by (apply N.Div0.div_lt_upper_bound; subst code; lia).
    repeat (apply Forall_cons; split; [unfold u16; lia|]). apply IH. simpl. lia.
Qed.

Lemma mod_between a b q : b * q <= a -> a < b * q + b -> a mod b = a - b * q.
Proof.
  intros H1 H2. assert (H : a / b = q) by (symmetry; apply (N.div_unique a b q (a - b * q)); lia).
  rewrite N.Div0.mod_eq, H. done.
Qed.

(** A path in UTF-8 without NUL has no NUL in its wide form. *)
Lemma encode_wide_no_nul s : utf8_valid s = true -> Byte.x00 ∉ s -> 0 ∉ encode_wide s.
Proof.
  induction s as [|b s Hb IH|b s Hb IH] using encode_wide_ind; [by intros _ _ ?%elem_of_nil| |];
    cbn [encode_wide utf8_valid]; intros Hu Hz; apply not_elem_of_cons in Hz as [Hz0 Hz].
  - rewrite (proj2 (N.ltb_lt _ _)) by done. unfold is_ascii in Hu.
    rewrite (proj2 (N.leb_le _ _)) in Hu by lia. apply not_elem_of_cons. split; [|by apply IH].
    intros E. apply Hz0. by rewrite <-(byte_of_val b), <-E.
  - rewrite (proj2 (N.ltb_ge _ _)) by done. unfold is_ascii in Hu.
    rewrite (proj2 (N.leb_gt _ _)) in Hu by lia.
    destruct s as [|b1 s]; [done|]. apply not_elem_of_cons in Hz as [_ Hz].
    unfold in_range, cont_byte in Hu.
    destruct (N.ltb_spec (byte_val b) 224).
    + destruct ((194 <=? byte_val b) && (byte_val b <=? 223))%bool eqn:Er; reflect_bools.
      * apply not_elem_of_cons. split; [|apply IH; [simpl; lia|done|done]].
        rewrite (mod_between (byte_val b) 32 6) by lia. lia.
      * exfalso. destruct s as [|b2 s]; [done|].
        rewrite (proj2 (N.leb_gt 224 _)) in Hu by lia. destruct s as [|b3 s]; [done|].
        rewrite (proj2 (N.leb_gt 240 _)) in Hu by lia. done.
    + rewrite (proj2 (N.leb_gt _ 223)) in Hu by lia. rewrite andb_false_r in Hu.
      destruct s as [|b2 s]; [done|]. apply not_elem_of_cons in Hz as [_ Hz].
      rewrite (proj2 (N.leb_le 224 _)) in Hu by lia. cbn [andb] in Hu.
      destruct (N.ltb_spec (byte_val b) 240).
      * rewrite (proj2 (N.leb_le _ 239)) in Hu by lia. reflect_bools.
        apply not_elem_of_cons. split; [|apply IH; [simpl; lia|done|done]]. rewrite (mod_between (byte_val b) 16 14) by lia.
        destruct (N.eqb_spec (byte_val b) 224); reflect_bools; [|lia].
        unfold cont at 1. rewrite (mod_between (byte_val b1) 64 2) by lia. lia.
      * rewrite (proj2 (N.leb_gt _ 239)) in Hu by lia. destruct s as [|b3 s]; [done|].
        apply not_elem_of_cons in Hz as [_ Hz]. apply andb_prop in Hu as [_ Hu]. cbv zeta.
        set (code := _ - 65536). generalize (code / 1024) (code mod 1024). intros x y.
        apply not_elem_of_cons. split; [lia|]. apply not_elem_of_cons. split; [lia|].
        apply IH; [simpl; lia|done|done].
Qed.

(** ** The whole of [wide_path] *)

Lemma wide_starts_with_spec m s : wide_starts_with m s = true <-> exists t, s = m ++ t.
Proof.
  unfold wide_starts_with. rewrite bool_decide_eq_true. split.
  - intros E. exists (drop (length m) s). rewrite <-E at 1. by rewrite take_drop.
  - intros [t ->]. by rewrite take_app_length.
Qed.

Definition separated (u : N) : N := if u =? ALTERNATE_SEPARATOR then SEPARATOR else u.

Lemma separated_spec u :
  separated u <> ALTERNATE_SEPARATOR /\ (u16 u -> u16 (separated u)) /\ (separated u = 0 <-> u = 0).
Proof.
  unfold separated, u16. destruct (N.eqb_spec u ALTERNATE_SEPARATOR) as [->|]; [|done]. by split_and!.
Qed.

(** The three forms, by the prefix of the path. *)
Lemma wide_path_forms p :
  exists prefix rest, wide_path p = prefix ++ map separated rest ++ [0] /\
    Forall u16 rest /\ (0 ∉ encode_wide p -> 0 ∉ rest) /\
    (prefix = [] /\ (exists t, rest = VERBATIM_PREFIX ++ t \/ rest = DEVICE_PREFIX ++ t) \/
     prefix = UNC_PREFIX \/ prefix = VERBATIM_PREFIX).
Proof.
  unfold wide_path. pose proof (encode_wide_u16 p) as Hu. set (path := encode_wide p) in *.
  destruct (wide_starts_with VERBATIM_PREFIX path || wide_starts_with DEVICE_PREFIX path)%bool eqn:E1;
    [|destruct (wide_starts_with [SEPARATOR; SEPARATOR] path)].
  - exists [], path. split_and!; [done..|]. left. split; [done|].
    apply orb_prop in E1 as [[t Ht]%wide_starts_with_spec|[t Ht]%wide_starts_with_spec]; exists t; auto.
  - exists UNC_PREFIX, (drop 2 path). split_and!; [done|by apply Forall_drop| |by right; left].
    intros H Hin. by apply H, (subseteq_drop 2).
  - exists VERBATIM_PREFIX, path. split_and!; [done..|by right; right].
Qed.

(** ** What a path names

    The forms of a Windows path, told apart as the documentation of the naming of
    files does: a share, a device, or a path on a volume.  Only the verbatim forms
    are passed on without being interpreted. *)

Inductive Win32Name :=
| ShareName (rest : list N)
| DeviceName (rest : list N)
| VolumeName (rest : list N).

Definition wide_text (s : bytes) : list N := map byte_val s.

(** [s] after [prefix]. *)
Fixpoint strip (prefix s : list N) : option (list N) :=
  match prefix, s with
  | [], _ => Some s
  | p :: prefix, u :: s => if p =? u then strip prefix s else None
  | _ :: _, [] => None
  end.

Definition named_by (units : list N) : Win32Name :=
  match strip (wide_text (bstr "\\?\UNC\")) units, strip (wide_text (bstr "\\?\")) units,
        strip (wide_text (bstr "\\.\")) units, strip (wide_text (bstr "\\")) units with
  | Some rest, _, _, _ => ShareName rest
  | None, Some rest, _, _ => VolumeName rest
  | None, None, Some rest, _ => DeviceName rest
  | None, None, None, Some rest => ShareName rest
  | None, None, None, None => VolumeName units
  end.

(** The same name with backslashes only. *)
Definition separated_name (n : Win32Name) : Win32Name :=
  match n with
  | ShareName rest => ShareName (map separated rest)
  | DeviceName rest => DeviceName (map separated rest)
  | VolumeName rest => VolumeName (map separated rest)
  end.

(** An absolute path as [std] gives it: with a drive, or with two backslashes in
    front; a verbatim one has no slashes, which would not be separators there. *)
Definition absolute_units (units : list N) : Prop :=
  match strip (wide_text (bstr "\\?\")) units with
  | Some _ => ALTERNATE_SEPARATOR ∉ units
  | None => (exists rest, strip (wide_text (bstr "\\")) units = Some rest) \/ units !! 1%nat = Some 58
  end.

Lemma strip_app prefix s : strip prefix (prefix ++ s) = Some s.
Proof. induction prefix as [|p prefix IH]; [done|]. cbn. by rewrite N.eqb_refl. Qed.

Lemma strip_some prefix s rest : strip prefix s = Some rest -> s = prefix ++ rest.
Proof.
  revert s; induction prefix as [|p prefix IH]; intros s E; [by simplify_eq/=|].
  destruct s as [|u s]; [done|]. cbn in E. destruct (N.eqb_spec p u) as [->|]; [|done].
  by rewrite (IH _ E).
Qed.

Lemma strip_starts prefix s : is_Some (strip prefix s) <-> wide_starts_with prefix s = true.
Proof.
  rewrite wide_starts_with_spec. split.
  - intros [rest E%strip_some]. by exists rest.
  - intros [t ->]. rewrite strip_app. by eexists.
Qed.

Lemma not_strip prefix s : strip prefix s = None <-> wide_starts_with prefix s = false.
Proof.
  pose proof (strip_starts prefix s) as H. destruct (strip prefix s); split; intros E; try done.
  - by rewrite (proj1 H) in E.
  - destruct (wide_starts_with prefix s); [|done]. by destruct (proj2 H eq_refl).
Qed.

Lemma separated_id s : ALTERNATE_SEPARATOR ∉ s -> map separated s = s.
Proof.
  induction s as [|u s IH]; [done|]. intros [Hu Hs]%not_elem_of_cons. cbn. rewrite IH by done.
  unfold separated. by destruct (N.eqb_spec u ALTERNATE_SEPARATOR).
Qed.

Lemma separated_name_id units :
  ALTERNATE_SEPARATOR ∉ units -> separated_name (named_by units) = named_by units.
Proof.
  intros H. unfold named_by.
  destruct (strip _ units) as [rest|] eqn:E1; [|destruct (strip (wide_text (bstr "\\?\")) units) as [rest|] eqn:E2;
    [|destruct (strip (wide_text (bstr "\\.\")) units) as [rest|] eqn:E3;
    [|destruct (strip (wide_text (bstr "\\")) units) as [rest|] eqn:E4]]];
    cbn; f_equal; apply separated_id; try done;
    match goal with E : strip _ _ = Some _ |- _ => apply strip_some in E; subst units end;
    intros Hin; apply H, elem_of_app; by right.
Qed.

Lemma strip_longer prefix more s : strip prefix s = None -> strip (prefix ++ more) s = None.
Proof.
  intros H. destruct (strip (prefix ++ more) s) as [rest|] eqn:E; [|done].
  apply strip_some in E. by rewrite E, <-app_assoc, strip_app in H.
Qed.

(** A path that is not verbatim. *)
Lemma named_by_plain units :
  strip (wide_text (bstr "\\?\")) units = None ->
  named_by units =
    match strip (wide_text (bstr "\\.\")) units, strip (wide_text (bstr "\\")) units with
    | Some rest, _ => DeviceName rest
    | None, Some rest => ShareName rest
    | None, None => VolumeName units
    end.
Proof.
  intros H. unfold named_by. rewrite H.
  change (bstr "\\?\UNC\") with (bstr "\\?\" ++ bstr "UNC\"). unfold wide_text at 1. rewrite map_app.
  by rewrite (strip_longer (wide_text (bstr "\\?\")) _ units H).
Qed.

(** The calls are given another spelling of the same name. *)
Lemma wide_path_names p :
  absolute_units (encode_wide p) ->
  exists units, wide_path p = units ++ [0] /\ named_by units = separated_name (named_by (encode_wide p)).
Proof.
  unfold absolute_units, wide_path. set (path := encode_wide p). clearbody path. fold separated. intros Ha.
  destruct (strip (wide_text (bstr "\\?\")) path) as [rest|] eqn:E2.
  - rewrite (proj1 (strip_starts VERBATIM_PREFIX path)) by by exists rest.
    exists (map separated path). split; [done|]. rewrite separated_id by done. by rewrite separated_name_id.
  - rewrite (proj1 (not_strip VERBATIM_PREFIX path) E2), (named_by_plain path E2). cbn [orb].
    destruct (strip (wide_text (bstr "\\.\")) path) as [rest|] eqn:E3.
    { rewrite (proj1 (strip_starts DEVICE_PREFIX path)) by by exists rest.
      exists (map separated path). split; [done|]. by rewrite (strip_some _ _ _ E3). }
    rewrite (proj1 (not_strip DEVICE_PREFIX path) E3).
    destruct (strip (wide_text (bstr "\\")) path) as [rest|] eqn:E4.
    + rewrite (proj1 (strip_starts [SEPARATOR; SEPARATOR] path)) by by exists rest.
      exists (UNC_PREFIX ++ map separated rest). rewrite (strip_some _ _ _ E4). by rewrite <-app_assoc.
    + rewrite (proj1 (not_strip [SEPARATOR; SEPARATOR] path) E4). destruct Ha as [[rest ?]|Ha]; [done|].
      exists (VERBATIM_PREFIX ++ map separated path). split; [by rewrite <-app_assoc|].
      destruct path as [|u [|v path]]; try done. injection Ha as ->. cbn.
      change (separated 58) with 58. generalize (separated u) (map separated path). intros v rest.
      destruct v as [|v]; [done|]. by do 7 (destruct v as [v|v|]; try done).
Qed.

(** The units of a path in ASCII are its bytes. *)
Lemma encode_wide_text p : forallb is_ascii p = true -> encode_wide p = wide_text p.
Proof.
  induction p as [|b p IH]; [done|]. cbn [forallb encode_wide wide_text map]. intros [Hb Hs]%andb_prop.
  unfold is_ascii in Hb. apply N.leb_le in Hb. rewrite (proj2 (N.ltb_lt _ _)) by lia. by rewrite IH.
Qed.
