(* ===== verification/WindowsLaws.v ===== *)
(** * The documented behaviour of the Windows calls, and names

    [WindowsApiLaws] states what the calls of [windows_sys] do to the entries of
    the filesystem; a store whose paths the calls resolve as they are written is a
    [windows_store].  The names that the store makes are far apart from each
    other. *)
From S2P Require Export Windows MaintenanceSpec.

Local Open Scope N_scope.
Local Open Scope blob_scope.

(** ** The calls *)

(** The entry after its last write was set. *)
Definition retime (p : Path) (t : Z) (fs : FsMap) : FsMap :=
  match fs !! p with
  | Some (Regular content _) => <[p := Regular content (Some t)]> fs
  | _ => fs
  end.

(** A [FILETIME] in nanoseconds since the Unix epoch. *)
Definition file_time_ns (low high : N) : Z :=
  (Z.of_N (low + high * 2 ^ 32) - Z.of_N WINDOWS_EPOCH_OFFSET_100NS) * 100.

(** No write through the handle fails because a name exists. *)
Definition honest_plan (plan : list (option (N * io_error))) : Prop :=
  Forall (fun o => match o with None => True | Some (_, e) => kind e <> AlreadyExists end) plan.

Abbreviation unchanged w := (passes (fun fs => fs = w_fs w) w) (only parsing).

(** The documentation of the calls.  A move and a removal are one step each; a
    call that fails changes nothing, and failures that speak of names are true
    as long as the environment is [honest]. *)
Class WindowsApiLaws {Api : WindowsApi} : Prop := {
  create_new_spec name access share flags w :
    match CreateFileW name access share CREATE_NEW flags w with
    | (Ok h, w') => w_fs w !! file_of name = None /\ h_file h = file_of name /\
        honest_plan (h_plan h) /\
        exists t, w_fs w' = <[file_of name := Regular [] t]> (w_fs w) /\
          passes (fun fs => fs = w_fs w \/ fs = w_fs w') w w'
    | (Err e, w') => unchanged w w' /\
        (honest w -> kind e = AlreadyExists -> w_fs w !! file_of name <> None)
    end;
  open_existing_spec name access share flags w :
    match CreateFileW name access share OPEN_EXISTING flags w with
    | (Ok h, w') => w_fs w !! file_of name <> None /\ h_file h = file_of name /\ unchanged w w'
    | (Err e, w') => unchanged w w' /\
        (honest w -> kind e = NotFound -> w_fs w !! file_of name = None \/
           exists t, w_fs w !! file_of name = Some (Symlink t))
    end;
  flush_spec h w :
    let (r, w') := FlushFileBuffers h w in
    unchanged w w' /\
    match r with
    | Ok _ => synced_last (h_file h) w'
    | Err e => honest w -> honest_error e = true
    end;
  set_file_time_spec h low high w :
    match SetFileTime h low high w with
    | (Ok _, w') =>
        ((forall t, w_fs w !! h_file h <> Some (Symlink t)) ->
         w_fs w' = retime (h_file h) (file_time_ns low high) (w_fs w)) /\
        passes (fun fs => fs = w_fs w \/ fs = w_fs w') w w'
    | (Err e, w') => unchanged w w' /\ (honest w -> honest_error e = true)
    end;
  move_spec source destination flags w :
    match MoveFileExW source destination flags w with
    | (Ok _, w') => exists n, w_fs w !! file_of source = Some n /\
        (N.land flags MOVEFILE_REPLACE_EXISTING = 0 -> w_fs w !! file_of destination = None) /\
        w_fs w' = <[file_of destination := n]> (delete (file_of source) (w_fs w)) /\
        passes (fun fs => fs = w_fs w \/ fs = w_fs w') w w'
    | (Err e, w') => unchanged w w' /\
        (honest w -> kind e = AlreadyExists -> w_fs w !! file_of destination <> None) /\
        (honest w -> kind e = NotFound -> w_fs w !! file_of source = None \/
           w_fs w !! win_parent (file_of destination) = None)
    end;
  delete_spec name w :
    match DeleteFileW name w with
    | (Ok _, w') => w_fs w !! file_of name <> None /\ w_fs w' = delete (file_of name) (w_fs w) /\
        passes (fun fs => fs = w_fs w \/ fs = w_fs w') w w'
    | (Err e, w') => unchanged w w'
    end;
  api_entropy w :
    (forall name access share disposition flags,
       w_entropy_used (snd (CreateFileW name access share disposition flags w)) = w_entropy_used w) /\
    (forall h, w_entropy_used (snd (FlushFileBuffers h w)) = w_entropy_used w) /\
    (forall h low high, w_entropy_used (snd (SetFileTime h low high w)) = w_entropy_used w) /\
    (forall source destination flags,
       w_entropy_used (snd (MoveFileExW source destination flags w)) = w_entropy_used w);
}.

(** [std::path::absolute] looks at the path and the current directory only. *)
Class AbsolutePathLaws {Abs : AbsolutePath} : Prop := {
  path_absolute_unchanged p w : unchanged w (snd (path_absolute p w));
}.

(** [read_dir] misses a name of the directory only when it reports an error. *)
Class DirectoryListingLaws {Lst : DirectoryListing} : Prop := {
  listing_complete ns n : n ∈ ns -> (forall e, Err e ∉ listing ns) -> Ok n ∈ listing ns;
}.

(** ** Names *)

Definition store_byte (b : byte) : bool := suffix_byte b || bool_decide (b = DOT).

Definition store_name (n : bytes) : Prop := n <> [] /\ forallb store_byte n = true.

(** A directory whose path does not end in a separator. *)
Definition plain_win_dir (d : Path) : Prop := exists d' b, d = d' ++ [b] /\ is_win_sep b = false.

(** The calls find the namespace and the names of the store in it. *)
Definition resolves {Api : WindowsApi} (d : Path) : Prop :=
  file_of (wide_path d) = d /\
  forall n, store_name n -> file_of (wide_path (win_join d n)) = win_join d n.

Definition windows_store {Api : WindowsApi} (c : StoreConfig) : Prop :=
  valid_format (format c) /\ plain_win_dir (namespace c) /\ resolves (namespace c).

Definition win_file (c : StoreConfig) (h : bytes) : Path :=
  win_join (namespace c) (h ++ filename_suffix (format c)).

Definition win_staging (c : StoreConfig) (h marker identifier : bytes) : Path :=
  win_join (namespace c) (staging_name h (filename_suffix (format c)) marker identifier).

Definition win_quarantine (c : StoreConfig) (h identifier : bytes) : Path :=
  win_join (namespace c) (quarantine_name h (filename_suffix (format c)) identifier).

Lemma win_join_plain d n : plain_win_dir d -> win_join d n = d ++ BACKSLASH :: n.
Proof.
  intros (d' & b & -> & Hb). unfold win_join. rewrite last_snoc, Hb. by rewrite <-!app_assoc.
Qed.

Lemma win_join_inj d a b : plain_win_dir d -> win_join d a = win_join d b -> a = b.
Proof. intros Hd. rewrite !win_join_plain by done. intros E%app_inv_head. by simplify_eq. Qed.

Lemma win_join_ne d n : plain_win_dir d -> win_join d n <> d.
Proof.
  intros Hd E%(f_equal length). rewrite win_join_plain, length_app in E by done. simpl in E. lia.
Qed.

Lemma store_byte_spec b : store_byte b = true -> is_win_sep b = false /\ is_ascii b = true.
Proof.
  set (P b := negb (store_byte b) || (negb (is_win_sep b) && is_ascii b)).
  assert (H : forall b, P b = true) by (apply byte_forallb; by vm_compute).
  specialize (H b). unfold P in H. intros E. rewrite E in H. simpl in H. by reflect_bools.
Qed.

Lemma hex_store_byte b : is_lower_hex b = true -> store_byte b = true.
Proof.
  set (P b := negb (is_lower_hex b) || store_byte b).
  assert (H : forall b, P b = true) by (apply byte_forallb; by vm_compute).
  specialize (H b). unfold P in H. intros E. by rewrite E in H.
Qed.

Lemma store_bytes_hex h : hex_name h -> forallb store_byte h = true.
Proof.
  intros [_ H]. rewrite forallb_forall in *. intros b Hb. by apply hex_store_byte, H.
Qed.

Lemma store_bytes_suffix s : valid_suffix s = true -> forallb store_byte s = true.
Proof.
  intros (t & -> & Ht & _)%valid_suffix_shape. cbn [forallb]. apply andb_true_intro. split; [done|].
  rewrite forallb_forall in *. intros b Hb. unfold store_byte. by rewrite (Ht b Hb).
Qed.

Lemma hex_name_nonempty h s : hex_name h -> h ++ s <> [].
Proof. intros [Hl _] E%(f_equal length). rewrite length_app in E. simpl in E. lia. Qed.

Lemma win_rsplit_none n : forallb store_byte n = true -> win_rsplit n = None.
Proof.
  induction n as [|b n IH]; [done|]. cbn [forallb win_rsplit]. intros [Hb Hn]%andb_prop.
  rewrite IH by done. by destruct (store_byte_spec b Hb) as [-> _].
Qed.

Lemma win_rsplit_join d n :
  plain_win_dir d -> forallb store_byte n = true -> win_rsplit (win_join d n) = Some (d, n).
Proof.
  intros Hd Hn. rewrite win_join_plain by done. clear Hd.
  induction d as [|b d IH]; cbn [app win_rsplit]; [by rewrite win_rsplit_none|by rewrite IH].
Qed.

Section Stores.
Context {Api : WindowsApi} (c : StoreConfig) (Hc : windows_store c).

Lemma store_suffix : forallb store_byte (filename_suffix (format c)) = true.
Proof. apply store_bytes_suffix, Hc. Qed.

Lemma file_store_name h : hex_name h -> store_name (h ++ filename_suffix (format c)).
Proof.
  intros Hh. split; [by apply hex_name_nonempty|].
  by rewrite forallb_app, store_suffix, store_bytes_hex.
Qed.

Lemma marked_store_name h marker i :
  hex_name h -> hex_name i -> forallb store_byte marker = true ->
  store_name (h ++ filename_suffix (format c) ++ marker ++ i).
Proof.
  intros Hh Hi Hm. split; [by apply hex_name_nonempty|].
  by rewrite !forallb_app, store_suffix, Hm, !store_bytes_hex.
Qed.

Lemma file_resolved h : hex_name h -> file_of (wide_path (win_file c h)) = win_file c h.
Proof. intros Hh. apply Hc. by apply file_store_name. Qed.

Lemma marked_resolved h marker i :
  hex_name h -> hex_name i -> forallb store_byte marker = true ->
  file_of (wide_path (win_staging c h marker i)) = win_staging c h marker i.
Proof. intros. apply Hc. by apply marked_store_name. Qed.

Lemma win_parent_join n : store_name n -> win_parent (win_join (namespace c) n) = namespace c.
Proof. intros [_ Hn]. unfold win_parent. by rewrite win_rsplit_join by (done || apply Hc). Qed.

(** The hash is read back from the canonical path. *)
Lemma win_stem h : hex_name h -> win_file_stem (win_file c h) ≫= to_str = Some h.
Proof.
  intros Hh. destruct (file_store_name h Hh) as [Hne Hb]. destruct Hc as ((_ & Hs & _) & Hd & _).
  unfold win_file_stem, win_file_name, win_file. rewrite win_rsplit_join by done.
  destruct Hh as [Hl Hh].
  assert (Hlen : (length (h ++ filename_suffix (format c)) >= 64)%nat) by (rewrite length_app; lia).
  unfold parse_component. do 3 rewrite decide_False by (intros E; rewrite E in Hlen; simpl in Hlen; lia).
  cbn [mbind option_bind].
  apply valid_suffix_shape in Hs as (t & -> & Ht & _).
  rewrite rsplit_dot_app by by apply (forallb_not_elem suffix_byte).
  destruct h as [|b h]; [done|]. cbn [mbind option_bind]. unfold to_str. rewrite utf8_ascii; [done|].
  rewrite forallb_forall in *. intros x Hx. by apply lower_hex_spec, Hh.
Qed.

Lemma win_file_inj h1 h2 : win_file c h1 = win_file c h2 -> h1 = h2.
Proof. intros E%win_join_inj; [|apply Hc]. by apply app_inv_tail in E. Qed.

Lemma win_file_not_namespace h : win_file c h <> namespace c.
Proof. apply win_join_ne, Hc. Qed.

(** No canonical file has a longer name of the store, and no two of those are
    equal unless their parts are. *)
Lemma win_file_not_marked h h' marker i :
  hex_name h -> hex_name h' -> marker <> [] -> win_file c h <> win_staging c h' marker i.
Proof.
  intros [Hl _] [Hl' _] Hm E%win_join_inj; [|apply Hc]. unfold staging_name in E.
  apply (f_equal length) in E. rewrite !length_app in E. destruct marker; [done|]. simpl in E. lia.
Qed.

Lemma marked_not_namespace h marker i : win_staging c h marker i <> namespace c.
Proof. apply win_join_ne, Hc. Qed.

End Stores.
