(* ===== verification/WindowsSpec.v ===== *)
(** * What the Windows backend guarantees

    Every operation as the sequence of states it can leave behind, relative to
    the filesystem [fs0] it began with. *)
From S2P Require Export WindowsLaws FilesystemSpec.

Local Open Scope N_scope.
Local Open Scope blob_scope.

(** ** Retrying with random names *)

Section Retries.
Context {S R : Type} (world : S -> World) (step : S -> S + R).
Context (Inv : S -> Prop) (Post : R -> Prop) (path : bytes -> Path) (fs0 : FsMap).

(** One more name was drawn from the entropy source, and it was taken. *)
Definition drew_taken_name (s s' : S) : Prop :=
  w_entropy_used (world s') = Datatypes.S (w_entropy_used (world s)) /\
  exists bs, w_entropy (world s) (w_entropy_used (world s)) = Ok bs /\
    fs0 !! path (hex_encode bs) <> None.

(** The name that the source gives [k] turns later is free, or there is none. *)
Definition free_name (k : nat) (s : S) : Prop :=
  match w_entropy (world s) (w_entropy_used (world s) + k)%nat with
  | Err _ => True
  | Ok bs => fs0 !! path (hex_encode bs) = None
  end.

Context (entropy : nat -> result bytes N) (Hent : forall s, Inv s -> w_entropy (world s) = entropy).
Context (Hstep : forall s, Inv s ->
  match step s with inl s' => Inv s' /\ drew_taken_name s s' | inr r => Post r end).

Lemma retry_run fuel s :
  Inv s -> match loop fuel step s with inl s' => Inv s' | inr r => Post r end.
Proof.
  revert s; induction fuel as [|fuel IH]; intros s Hs; [done|]. cbn [loop].
  specialize (Hstep s Hs). destruct (step s); [by apply IH, Hstep|done].
Qed.

(** A loop whose turns only go on when their random name is taken ends with the
    first name that is free, or when the entropy source fails. *)
Lemma retry_ends k fuel s :
  Inv s -> (k < fuel)%nat -> free_name k s -> exists r, loop fuel step s = inr r.
Proof.
  revert k s; induction fuel as [|fuel IH]; intros k s Hs Hk Hn; [lia|]. cbn [loop].
  pose proof (Hstep s Hs) as Ht. destruct (step s) as [s'|r]; [|by eexists].
  destruct Ht as (Hs' & Hu & bs & Ebs & Hbs). unfold free_name in Hn. destruct k as [|k].
  - rewrite Nat.add_0_r, Ebs in Hn. done.
  - apply (IH k); [done|lia|]. unfold free_name. rewrite Hent, Hu by done. rewrite Hent in Hn by done.
    by rewrite Nat.add_succ_comm.
Qed.

Lemma retry_loop fuel s :
  Inv s ->
  match loop fuel step s with inl s' => Inv s' | inr r => Post r end /\
  forall k, (k < fuel)%nat -> free_name k s -> exists r, loop fuel step s = inr r.
Proof. intros Hs. split; [by apply retry_run|]. intros k. by apply retry_ends. Qed.
End Retries.

Lemma passes_from (P Q : FsMap -> Prop) (w0 w1 w2 : World) :
  unchanged w0 w1 -> (forall fs, P fs -> Q fs) -> Q (w_fs w0) -> passes P w1 w2 -> passes Q w0 w2.
Proof.
  intros H1 HPQ HQ H2. eapply passes_trans; [eapply passes_mono, H1; by intros fs ->|].
  by eapply passes_mono, H2.
Qed.

Lemma unchanged_fs (w w' : World) : unchanged w w' -> w_fs w' = w_fs w.
Proof. intros H. apply (passes_last _ _ _ H). Qed.

Lemma unchanged_trans (w0 w1 w2 : World) : unchanged w0 w1 -> unchanged w1 w2 -> unchanged w0 w2.
Proof.
  intros H1 H2. eapply passes_from; [exact H1| |done|exact H2].
  intros fs ->. by apply unchanged_fs.
Qed.

Lemma passes_fills P (w w' : World) : passes P w w' -> entropy_fills w -> entropy_fills w'.
Proof. intros Hp He k bs E. rewrite (passes_entropy _ _ _ Hp) in E. by eapply He. Qed.

Section Backend.
Context {Crc : Crc32c} {CrcL : Crc32cLaws} {Tgt : Target} {Api : WindowsApi} {ApiL : WindowsApiLaws}.

(** ** Staging files *)

(** The staging file [p], which was not there, is the only difference. *)
Definition staged (p : Path) (fs0 fs : FsMap) : Prop :=
  fs0 !! p = None /\ exists content t, fs = <[p := Regular content t]> fs0.

Definition staging_states (p : Path) (fs0 fs : FsMap) : Prop := fs = fs0 \/ staged p fs0 fs.

Lemma written_passes (P : FsMap -> Prop) h f (w : World) :
  (forall content, P (file_shows h content w)) -> passes P w (file_written h f w).
Proof.
  intros HP. split; simpl; try done. exists (writing_states h f w). split; [done|].
  unfold writing_states. apply Forall_fmap, Forall_true. intros n. apply HP.
Qed.

(** A writer of the calls never fails because a name exists. *)
Lemma write_all_plan bs f x f' :
  honest_plan (wr_plan f) -> write_all bs f = (x, f') ->
  honest_plan (wr_plan f') /\ forall e, x = Err e -> kind e <> AlreadyExists.
Proof.
  unfold write_all. destruct (wr_plan f) as [|[[n e]|] plan]; intros Hp E; simplify_eq/=; [done| |].
  - apply Forall_cons in Hp as [He Hp]. split; [done|]. by intros e' [= <-].
  - apply Forall_cons in Hp as [_ Hp]. done.
Qed.

(** An error of a write: neither a taken name nor a failed sync. *)
Definition writing_error (e : AtomicBlobStoreError) : Prop :=
  name_taken e = false /\ forall s, e <> Io SyncNamespaceDirectory s.

Lemma write_section_plan bs f x f' :
  honest_plan (wr_plan f) -> write_section bs f = (x, f') ->
  honest_plan (wr_plan f') /\ forall e, x = Err e -> writing_error e.
Proof.
  unfold write_section, eff_map_err. intros Hp. destruct (write_all bs f) as [y f1] eqn:E.
  intros; simplify_eq. destruct (write_all_plan _ _ _ _ Hp E) as [Hp' He]. split; [done|].
  intros e Ee. destruct y as [[]|e0]; cbn in Ee; simplify_eq. split; [|done].
  by apply bool_decide_eq_false, He.
Qed.

Lemma write_sections_plan ss f e f' :
  honest_plan (wr_plan f) -> write_sections ss f = (Err e, f') -> writing_error e.
Proof.
  revert f; induction ss as [|s ss IH]; intros f Hp E; [done|]. cbn [write_sections] in E.
  unfold bind in E. destruct (write_section s f) as [[[]|e1] f1] eqn:E1;
    destruct (write_section_plan _ _ _ _ Hp E1) as [Hp1 He]; [by eapply IH|].
  injection E as <- <-. by apply He.
Qed.

Lemma write_stream_loop_plan declared msgs checksum written f e f' rest :
  honest_plan (wr_plan f) ->
  write_stream_loop declared msgs checksum written f = (Err e, (f', rest)) -> writing_error e.
Proof.
  revert checksum written f; induction msgs as [|[c|] msgs IH]; intros checksum written f Hp E;
    cbn [write_stream_loop] in E; [by simplify_eq| |].
  - destruct (negb _); [by simplify_eq|].
    destruct (write_section c f) as [[[]|e1] f1] eqn:E1;
      destruct (write_section_plan _ _ _ _ Hp E1) as [Hp1 He]; [by eapply IH|].
    simplify_eq. by apply He.
  - destruct (negb _); [by simplify_eq|].
    destruct (write_section _ f) as [[[]|e1] f1] eqn:E1;
      destruct (write_section_plan _ _ _ _ Hp E1) as [Hp1 He]; simplify_eq. by apply He.
Qed.

Lemma write_stream_envelope_plan config declared f msgs e f' rest :
  honest_plan (wr_plan f) ->
  write_stream_envelope config declared (f, msgs) = (Err e, (f', rest)) -> writing_error e.
Proof.
  intros Hp E. unfold write_stream_envelope in E.
  destruct (envelope_header _ _ _) as [hd|e1] eqn:Eh.
  2:{ unfold envelope_header in Eh. destruct (_ <? _); by simplify_eq. }
  destruct (write_section hd f) as [[[]|e1] f1] eqn:E1;
    destruct (write_section_plan _ _ _ _ Hp E1) as [Hp1 He];
    [by eapply write_stream_loop_plan|]. simplify_eq. by apply He.
Qed.

(** What creating and writing a staging file leaves: the complete file, a partial
    one, or nothing when the name was taken. *)
Definition staging_outcome {A : Type} (p : Path) (content : bytes) (fs0 : FsMap)
    (r : result A AtomicBlobStoreError) (w' : World) : Prop :=
  match r with
  | Ok _ => fs0 !! p = None /\ exists t, w_fs w' = <[p := Regular content t]> fs0
  | Err e => name_taken e = true -> fs0 !! p <> None
  end.

(** Every state of a write through a fresh handle. *)
Lemma written_staging (p : Path) (h : Handle) (f : writer) (fs0 : FsMap) (w1 : World) t :
  fs0 !! p = None -> h_file h = p -> w_fs w1 = <[p := Regular [] t]> fs0 ->
  passes (staging_states p fs0) w1 (file_written h f w1).
Proof.
  intros Hn Hh Hf. apply written_passes. intros content. unfold file_shows.
  rewrite Hh, Hf, insert_insert_eq. right. split; [done|by eexists _, _].
Qed.

(** Writing through a fresh handle and flushing it. *)
Lemma flush_written (p : Path) h f r (w0 w1 w2 : World) t :
  w_fs w0 !! p = None -> h_file h = p -> passes (staging_states p (w_fs w0)) w0 w1 ->
  w_fs w1 = <[p := Regular [] t]> (w_fs w0) -> honest w0 ->
  io_op WriteEnvelope (FlushFileBuffers h) (file_written h f w1) = (r, w2) ->
  passes (staging_states p (w_fs w0)) w0 w2 /\
  w_fs w2 = <[p := Regular (wr_data f) (Some (w_now w1))]> (w_fs w0) /\
  forall e, r = Err e -> writing_error e.
Proof.
  intros Hn Hh Hp Hf Hhon E.
  assert (Ew : w_fs (file_written h f w1) = <[p := Regular (wr_data f) (Some (w_now w1))]> (w_fs w0))
    by (cbn; unfold file_shows; by rewrite Hh, Hf, insert_insert_eq).
  assert (Hp1 : passes (staging_states p (w_fs w0)) w0 (file_written h f w1)).
  { eapply passes_trans; [exact Hp|]. by eapply written_staging. }
  pose proof (flush_spec h (file_written h f w1)) as Hfl. unfold io_op, eff_map_err in E.
  destruct (FlushFileBuffers h _) as [r0 w3] eqn:Ef. destruct Hfl as [Hu Hr]. injection E as <- <-.
  split_and!.
  - eapply passes_trans; [exact Hp1|]. eapply passes_mono, Hu. intros fs ->. apply (passes_last _ _ _ Hp1).
  - by rewrite (unchanged_fs _ _ Hu).
  - intros e Ee. destruct r0 as [[]|e0]; cbn in Ee; simplify_eq. split; [|done]. cbn.
    apply bool_decide_eq_false. apply honest_error_kind, Hr, (passes_honest _ _ _ Hp1), Hhon.
Qed.

(** Opening a staging file. *)
Lemma open_staging p (w : World) r w1 :
  file_of (wide_path p) = p -> honest w ->
  io_op OpenAtomicWriter (CreateFileW (wide_path p) GENERIC_WRITE 0 CREATE_NEW staging_flags) w = (r, w1) ->
  passes (staging_states p (w_fs w)) w w1 /\ w_entropy_used w1 = w_entropy_used w /\
  match r with
  | Ok h => w_fs w !! p = None /\ h_file h = p /\ honest_plan (h_plan h) /\
      exists t, w_fs w1 = <[p := Regular [] t]> (w_fs w)
  | Err e => unchanged w w1 /\ (name_taken e = true -> w_fs w !! p <> None) /\
      forall s, e <> Io SyncNamespaceDirectory s
  end.
Proof.
  intros Hp Hh E. destruct (api_entropy w) as (He & _).
  specialize (He (wide_path p) GENERIC_WRITE 0 CREATE_NEW staging_flags).
  pose proof (create_new_spec (wide_path p) GENERIC_WRITE 0 staging_flags w) as H.
  unfold io_op, eff_map_err in E.
  destruct (CreateFileW _ _ _ _ _ w) as [[h|e] w'] eqn:Ec; injection E as <- <-; cbn [snd] in He;
    rewrite Hp in H.
  - destruct H as (Hn & Hf & Hpl & t & Hw & Hpass). split_and!; [|done|done|done|done|by exists t].
    eapply passes_mono, Hpass. intros fs [->| ->]; [by left|right]. split; [done|].
    exists [], t. by rewrite Hw.
  - destruct H as [Hu Ht]. split_and!; [eapply passes_mono, Hu; intros fs ->; by left|done|done| |done].
    cbn. intros Hk. apply Ht; [done|]. by apply bool_decide_eq_true in Hk.
Qed.

Lemma create_staging_run p header payload checksum (w : World) :
  file_of (wide_path p) = p -> honest w ->
  let (r, w') := create_windows_staging p header payload checksum w in
  passes (staging_states p (w_fs w)) w w' /\
  staging_outcome p (header ++ payload ++ checksum) (w_fs w) r w' /\
  forall e, r = Err e -> (forall s, e <> Io SyncNamespaceDirectory s) /\
    (name_taken e = true -> unchanged w w' /\ w_entropy_used w' = w_entropy_used w).
Proof.
  intros Hp Hh. unfold create_windows_staging, bind.
  destruct (io_op OpenAtomicWriter _ w) as [r1 w1] eqn:Eo.
  apply open_staging in Eo as (Hp1 & Hu & Hr); [|done..]. destruct r1 as [h|e].
  2:{ destruct Hr as (Hsame & Ht & Hs). split_and!; [done|by intros Hk; auto|]. by intros e' [= <-]. }
  destruct Hr as (Hn & Hf & Hpl & t & Hw).
  destruct (write_sections _ _) as [[[]|e] f] eqn:Es.
  - destruct (io_op WriteEnvelope _ _) as [r2 w2] eqn:Efl.
    destruct (flush_written p h f r2 w w1 w2 t Hn Hf Hp1 Hw Hh Efl) as (H1 & H2 & H3).
    apply write_sections_ok in Es. cbn [File_from_raw_handle wr_data concat] in Es.
    rewrite app_nil_l, app_nil_r in Es. rewrite Es in H2.
    split_and!; [done| |].
    + destruct r2; [split; [done|by eexists]|]. intros Hk.
      destruct (H3 _ eq_refl) as [H3' _]. by rewrite H3' in Hk.
    + intros e ->. destruct (H3 _ eq_refl) as [H3' H4]. split; [done|]. by rewrite H3'.
  - destruct (write_sections_plan _ (File_from_raw_handle h) e f Hpl Es) as [Hnt Hns].
    split_and!; [|by intros Hk; rewrite Hnt in Hk|by intros e' [= <-]; rewrite Hnt].
    eapply passes_trans; [exact Hp1|]. by eapply written_staging.
Qed.

(** ** Publishing *)

Lemma sync_windows_run c (w : World) :
  windows_store c ->
  let (r, w') := sync_windows_directory c w in
  unchanged w w' /\ (r = Ok tt -> synced_last (namespace c) w').
Proof.
  intros (_ & _ & Hns & _). unfold sync_windows_directory, bind.
  pose proof (open_existing_spec (wide_path (namespace c)) GENERIC_WRITE
    (N.lor (N.lor FILE_SHARE_READ FILE_SHARE_WRITE) FILE_SHARE_DELETE) FILE_FLAG_BACKUP_SEMANTICS w) as Ho.
  destruct (CreateFileW _ _ _ _ _ w) as [[h|e] w1]; [|by destruct Ho].
  rewrite Hns in Ho. destruct Ho as (_ & Hf & Hu). pose proof (flush_spec h w1) as Hfl.
  destruct (FlushFileBuffers h w1) as [r w2]. destruct Hfl as [Hu2 Hr].
  split; [by eapply unchanged_trans|]. intros ->. by rewrite <-Hf.
Qed.

(** A move of the staged file to [path], which is one step. *)
Lemma move_staged (p path : Path) (n : Node) (fs0 : FsMap) flags (w : World) :
  file_of (wide_path p) = p -> file_of (wide_path path) = path -> p <> path ->
  fs0 !! p = None -> w_fs w = <[p := n]> fs0 ->
  let (r, w') := move_file p path flags w in
  passes (fun fs => fs = w_fs w \/ fs = <[path := n]> fs0) w w' /\
  w_fs w' = match r with Ok _ => <[path := n]> fs0 | Err _ => w_fs w end.
Proof.
  intros Hp Hpath Hne Hn Hw. unfold move_file.
  pose proof (move_spec (wide_path p) (wide_path path) flags w) as H. rewrite Hp, Hpath in H.
  destruct (MoveFileExW _ _ _ w) as [[[]|e] w1].
  - destruct H as (m & Hm & _ & Hf & Hpass). rewrite Hw, lookup_insert_eq in Hm. injection Hm as <-.
    assert (E : w_fs w1 = <[path := n]> fs0) by (by rewrite Hf, Hw, delete_insert_id).
    split; [|done]. eapply passes_mono, Hpass. intros fs [->| ->]; [by left|by right].
  - destruct H as [Hu _]. split; [|by apply unchanged_fs].
    eapply passes_mono, Hu. intros fs ->. by left.
Qed.

Lemma commit_staging_run (c : StoreConfig) (p path : Path) (n : Node) (fs0 : FsMap) (w : World) :
  windows_store c -> file_of (wide_path p) = p -> file_of (wide_path path) = path -> p <> path ->
  fs0 !! p = None -> w_fs w = <[p := n]> fs0 ->
  let (r, w') := commit_staging c p path w in
  passes (fun fs => fs = w_fs w \/ fs = <[path := n]> fs0) w w' /\
  match r with
  | Ok _ => w_fs w' = <[path := n]> fs0 /\ synced_last (namespace c) w'
  | Err (Io SyncNamespaceDirectory _) => w_fs w' = <[path := n]> fs0
  | Err (AtomicCommit _) => w_fs w' = w_fs w
  | Err _ => False
  end.
Proof.
  intros Hc Hp Hpath Hne Hn Hw. unfold commit_staging, bind_result, bind.
  pose proof (move_staged p path n fs0 MOVEFILE_WRITE_THROUGH w Hp Hpath Hne Hn Hw) as H1.
  destruct (move_file p path MOVEFILE_WRITE_THROUGH w) as [initial w1]. destruct H1 as [Hp1 Hf1].
  assert (Hmoved : forall w2, passes (fun fs => fs = w_fs w \/ fs = <[path := n]> fs0) w w2 ->
    w_fs w2 = <[path := n]> fs0 ->
    let (r, w') := io_op SyncNamespaceDirectory (sync_windows_directory c) w2 in
    passes (fun fs => fs = w_fs w \/ fs = <[path := n]> fs0) w w' /\
    match r with
    | Ok _ => w_fs w' = <[path := n]> fs0 /\ synced_last (namespace c) w'
    | Err (Io SyncNamespaceDirectory _) => w_fs w' = <[path := n]> fs0
    | Err (AtomicCommit _) => w_fs w' = w_fs w
    | Err _ => False
    end).
  { intros w2 Hp2 Hf2. unfold io_op, eff_map_err. pose proof (sync_windows_run c w2 Hc) as Hs.
    destruct (sync_windows_directory c w2) as [r w3]. destruct Hs as [Hu Hs].
    split; [eapply passes_trans; [exact Hp2|eapply passes_mono, Hu; intros fs ->; by right]|].
    rewrite (unchanged_fs _ _ Hu). destruct r as [[]|e]; cbn; auto. }
  destruct initial as [[]|error]; [by apply Hmoved|].
  destruct (target_exists error); unfold ret, throw; [|done].
  pose proof (move_staged p path n fs0 (N.lor MOVEFILE_REPLACE_EXISTING MOVEFILE_WRITE_THROUGH) w1
    Hp Hpath Hne Hn ltac:(by rewrite Hf1)) as H2. unfold eff_map_err.
  destruct (move_file p path _ w1) as [[[]|e2] w2]; cbn [map_err]; destruct H2 as [Hp2 Hf2];
    rewrite Hf1 in *.
  - apply Hmoved; [by eapply passes_trans|done].
  - split; [by eapply passes_trans|done].
Qed.

(** ** Saving *)

(** The states of a save of [content] under [h]: nothing happened; a staging file
    with a name that was free; the content is published. *)
Definition save_states (c : StoreConfig) (h content : bytes) (fs0 fs : FsMap) : Prop :=
  fs = fs0 \/
  (exists i, hex_name i /\ staged (win_staging c h SAVE_MARKER i) fs0 fs) \/
  exists t, fs = <[win_file c h := Regular content t]> fs0.

(** At most a staging file differs. *)
Definition unsaved (c : StoreConfig) (h : bytes) (fs0 fs : FsMap) : Prop :=
  fs = fs0 \/ exists i, hex_name i /\ staged (win_staging c h SAVE_MARKER i) fs0 fs.

Definition windows_save_outcome (c : StoreConfig) (h content : bytes) (fs0 : FsMap)
    (r : result unit AtomicBlobStoreError) (w' : World) : Prop :=
  match r with
  | Ok _ => (exists t, w_fs w' = <[win_file c h := Regular content t]> fs0) /\
      synced_last (namespace c) w'
  | Err (Io SyncNamespaceDirectory _) => exists t, w_fs w' = <[win_file c h := Regular content t]> fs0
  | Err _ => unsaved c h fs0 (w_fs w')
  end.

Lemma staging_states_save c h i content fs0 fs :
  hex_name i -> staging_states (win_staging c h SAVE_MARKER i) fs0 fs -> save_states c h content fs0 fs.
Proof. intros Hi [->|Hs]; [by left|right; left]. by exists i. Qed.

Lemma unsaved_outcome c h content fs0 e (w' : World) :
  unsaved c h fs0 (w_fs w') -> (forall s, e <> Io SyncNamespaceDirectory s) ->
  windows_save_outcome c h content fs0 (Err e) w'.
Proof.
  intros H He. cbn. destruct e; try done. destruct operation; try done. by destruct (He source).
Qed.

(** What a turn of the save loop knows. *)
Record retrying (w0 w : World) : Prop := {
  retrying_passes : unchanged w0 w;
  retrying_fills : entropy_fills w0;
  retrying_honest : honest w0;
}.

Lemma retrying_random w0 w r w1 :
  retrying w0 w -> random_identifier w = (r, w1) ->
  retrying w0 w1 /\ w_entropy_used w1 = S (w_entropy_used w) /\
  match r with
  | Ok i => hex_name i /\ exists bs, w_entropy w (w_entropy_used w) = Ok bs /\ i = hex_encode bs
  | Err e => exists code, e = IdentifierGeneration code
  end.
Proof.
  intros [Hp Hf Hh] E. apply random_identifier_inv in E as (Hp1 & Hu & Hr);
    [|by eapply passes_fills]. split_and!.
  - split; [by eapply unchanged_trans|done|done].
  - done.
  - destruct r; [done|]. destruct Hr as (code & _ & ->). by exists code.
Qed.

Lemma retrying_now w0 w : retrying w0 w -> w_fs w = w_fs w0 /\ honest w.
Proof. intros [Hp _ Hh]. split; [by apply unchanged_fs|by apply (passes_honest _ _ _ Hp)]. Qed.

Lemma windows_save_turn c h header payload checksum (w0 w : World) :
  windows_store c -> hex_name h -> retrying w0 w ->
  let content := header ++ payload ++ checksum in
  match windows_save_step c (win_file c h) h header payload checksum w with
  | inl w' => retrying w0 w' /\ drew_taken_name id (win_staging c h SAVE_MARKER) (w_fs w0) w w'
  | inr (r, w') => passes (save_states c h content (w_fs w0)) w0 w' /\
      windows_save_outcome c h content (w_fs w0) r w'
  end.
Proof.
  intros Hc Hh Hr content. unfold windows_save_step, drew_taken_name, id.
  destruct (random_identifier w) as [r1 w1] eqn:Er.
  destruct (retrying_random _ _ _ _ Hr Er) as (Hr1 & Hu1 & Hi). destruct r1 as [i|e].
  2:{ destruct Hi as [code ->]. split.
      - eapply passes_mono, (retrying_passes _ _ Hr1). intros fs ->. by left.
      - apply unsaved_outcome; [left; by apply unchanged_fs, Hr1|done]. }
  destruct Hi as [Hi (bs & Ebs & ->)]. fold (win_staging c h SAVE_MARKER (hex_encode bs)).
  set (p := win_staging c h SAVE_MARKER (hex_encode bs)).
  destruct (retrying_now _ _ Hr1) as [Hf1 Hh1].
  assert (Hp : file_of (wide_path p) = p) by by apply marked_resolved.
  pose proof (create_staging_run p header payload checksum w1 Hp Hh1) as Hs.
  destruct (create_windows_staging p header payload checksum w1) as [r2 w2] eqn:Ec.
  destruct Hs as (Hp2 & Ho & Hu2). rewrite Hf1 in Hp2, Ho.
  assert (Hp02 : passes (staging_states p (w_fs w0)) w0 w2).
  { eapply passes_from; [apply (retrying_passes _ _ Hr1)|done|by left|exact Hp2]. }
  destruct r2 as [[]|e].
  - destruct Ho as (Hn & t & Hf2).
    assert (Hne : p <> win_file c h) by (apply not_eq_sym; by apply win_file_not_marked).
    pose proof (commit_staging_run c p (win_file c h) _ (w_fs w0) w2 Hc Hp
      ltac:(by apply file_resolved) Hne Hn Hf2) as Hcm.
    destruct (commit_staging c p (win_file c h) w2) as [r3 w3]. destruct Hcm as [Hp3 Hr3]. split.
    + eapply passes_trans; [eapply passes_mono, Hp02; intros fs; by apply staging_states_save|].
      eapply passes_mono, Hp3. intros fs [->| ->]; [|right; right; by exists t].
      eapply staging_states_save; [exact Hi|]. right. rewrite Hf2. split; [done|by eexists _, _].
    + assert (Hun : unsaved c h (w_fs w0) (w_fs w2)).
      { right. exists (hex_encode bs). split; [done|]. rewrite Hf2. split; [done|by eexists _, _]. }
      destruct r3 as [[]|e]; cbn in Hr3 |- *; [by destruct Hr3; eauto|].
      destruct e; try done; [destruct operation; try done; by exists t|by rewrite Hr3].
  - destruct (name_taken e) eqn:Ht.
    + destruct (Hu2 e eq_refl) as [_ Hu3]. destruct (Hu3 Ht) as [Hsame Hu]. split_and!; [|congruence|by exists bs; auto].
      destruct Hr1. split; [by eapply unchanged_trans|done|done].
    + split; [eapply passes_mono, Hp02; intros fs; by apply staging_states_save|].
      apply unsaved_outcome; [|by apply Hu2].
      destruct (passes_last _ _ _ Hp02) as [Hsame|Hst]; [by left|right; by exists (hex_encode bs)].
Qed.

(** *** Streams *)

Definition is_staging (c : StoreConfig) (h : bytes) (p : Path) : Prop :=
  exists i, hex_name i /\ p = win_staging c h SAVE_MARKER i.

(** The states of a streaming save: staging names differ at most, or the payload
    of the stream, which has the declared length, is published. *)
Definition stream_published (c : StoreConfig) (h : bytes) (declared : N)
    (msgs : list SaveStreamMessage) (fs0 fs : FsMap) : Prop :=
  exists q t, stream_payload msgs = Some q /\ blen q = declared /\ blen q <= maximum c /\
    fs = <[win_file c h := Regular (envelope (format c) q) t]> fs0.

Definition stream_states (c : StoreConfig) (h : bytes) (declared : N)
    (msgs : list SaveStreamMessage) (fs0 fs : FsMap) : Prop :=
  agree_off (is_staging c h) fs0 fs \/ stream_published c h declared msgs fs0 fs.

Definition windows_stream_outcome (c : StoreConfig) (h : bytes) (declared : N)
    (msgs : list SaveStreamMessage) (fs0 : FsMap) (r : result unit AtomicBlobStoreError)
    (w' : World) : Prop :=
  match r with
  | Ok _ => stream_published c h declared msgs fs0 (w_fs w') /\ synced_last (namespace c) w'
  | Err (Io SyncNamespaceDirectory _) => stream_published c h declared msgs fs0 (w_fs w')
  | Err _ => agree_off (is_staging c h) fs0 (w_fs w')
  end.

Lemma staging_agree c h i fs0 fs :
  hex_name i -> staging_states (win_staging c h SAVE_MARKER i) fs0 fs -> agree_off (is_staging c h) fs0 fs.
Proof.
  intros Hi [->|[_ (content & t & ->)]]; [apply agree_off_refl|].
  apply agree_off_insert. by exists i.
Qed.

Lemma stream_unpublished c h declared msgs fs0 e (w' : World) :
  agree_off (is_staging c h) fs0 (w_fs w') -> (forall s, e <> Io SyncNamespaceDirectory s) ->
  windows_stream_outcome c h declared msgs fs0 (Err e) w'.
Proof.
  intros H He. cbn. destruct e; try done. destruct operation; try done. by destruct (He source).
Qed.

Lemma create_stream_run c p declared msgs (w : World) :
  file_of (wide_path p) = p -> honest w ->
  let '((r, rest), w') := create_windows_streaming_staging c p declared msgs w in
  passes (staging_states p (w_fs w)) w w' /\
  match r with
  | Ok _ => w_fs w !! p = None /\ exists q t, stream_payload msgs = Some q /\ blen q = declared /\
      blen q <= maximum c /\ w_fs w' = <[p := Regular (envelope (format c) q) t]> (w_fs w)
  | Err e => (forall s, e <> Io SyncNamespaceDirectory s) /\
      (name_taken e = true -> rest = msgs /\ unchanged w w' /\
         w_entropy_used w' = w_entropy_used w /\ w_fs w !! p <> None)
  end.
Proof.
  intros Hp Hh. unfold create_windows_streaming_staging.
  destruct (io_op OpenAtomicWriter _ w) as [r1 w1] eqn:Eo.
  apply open_staging in Eo as (Hp1 & Hu & Hr); [|done..]. destruct r1 as [h|e].
  2:{ destruct Hr as (Hsame & Ht & Hs). split_and!; [done..|]. intros Hk. by auto. }
  destruct Hr as (Hn & Hf & Hpl & t & Hw).
  destruct (write_stream_envelope _ _ _) as [[[]|e] [f rest]] eqn:Es.
  - destruct (io_op WriteEnvelope _ _) as [r2 w2] eqn:Efl.
    destruct (flush_written p h f r2 w w1 w2 t Hn Hf Hp1 Hw Hh Efl) as (H1 & H2 & H3).
    split; [done|]. apply write_stream_envelope_ok in Es as (cs & -> & Hl & Hm & Hd).
    destruct r2 as [[]|e].
    + split; [done|]. exists (concat cs). eexists. rewrite stream_payload_chunks.
      split_and!; [done|done|lia|]. by rewrite H2, Hd.
    + destruct (H3 _ eq_refl) as [Hnt Hns]. split; [done|]. by rewrite Hnt.
  - destruct (write_stream_envelope_plan _ _ (File_from_raw_handle h) _ e f rest Hpl Es) as [Hnt Hns].
    split_and!; [|done|by rewrite Hnt].
    eapply passes_trans; [exact Hp1|]. by eapply written_staging.
Qed.

(** Removing a staging name. *)
Lemma delete_agree (X : Path -> Prop) p fs0 (w : World) :
  file_of (wide_path p) = p -> X p -> agree_off X fs0 (w_fs w) ->
  passes (agree_off X fs0) w (snd (delete_file p w)).
Proof.
  intros Hp HX Ha. unfold delete_file. pose proof (delete_spec (wide_path p) w) as H. rewrite Hp in H.
  destruct (DeleteFileW _ w) as [[[]|e] w1]; cbn [snd].
  - destruct H as (_ & Hf & Hpass). eapply passes_mono, Hpass. rewrite Hf. intros fs [->| ->]; [done|].
    eapply agree_off_trans; [exact Ha|]. by apply agree_off_delete.
  - eapply passes_mono, H. by intros fs ->.
Qed.

Lemma windows_stream_turn c h declared msgs (w0 w : World) :
  windows_store c -> hex_name h -> retrying w0 w ->
  match windows_save_stream_step c (win_file c h) h declared (msgs, w) with
  | inl (msgs', w') => (msgs' = msgs /\ retrying w0 w') /\
      drew_taken_name id (win_staging c h SAVE_MARKER) (w_fs w0) w w'
  | inr ((r, _), w') => passes (stream_states c h declared msgs (w_fs w0)) w0 w' /\
      windows_stream_outcome c h declared msgs (w_fs w0) r w'
  end.
Proof.
  intros Hc Hh Hr. unfold windows_save_stream_step, drew_taken_name, id.
  destruct (random_identifier w) as [r1 w1] eqn:Er.
  destruct (retrying_random _ _ _ _ Hr Er) as (Hr1 & Hu1 & Hi). destruct r1 as [i|e].
  2:{ destruct Hi as [code ->]. split.
      - eapply passes_mono, (retrying_passes _ _ Hr1). intros fs ->. left. apply agree_off_refl.
      - apply stream_unpublished; [|done]. rewrite (unchanged_fs _ _ (retrying_passes _ _ Hr1)).
        apply agree_off_refl. }
  destruct Hi as [Hi (bs & Ebs & ->)]. fold (win_staging c h SAVE_MARKER (hex_encode bs)).
  set (p := win_staging c h SAVE_MARKER (hex_encode bs)).
  destruct (retrying_now _ _ Hr1) as [Hf1 Hh1].
  assert (Hp : file_of (wide_path p) = p) by by apply marked_resolved.
  pose proof (create_stream_run c p declared msgs w1 Hp Hh1) as Hs.
  destruct (create_windows_streaming_staging c p declared msgs w1) as [[r2 rest] w2].
  rewrite Hf1 in Hs. destruct Hs as [Hp2 Ho].
  assert (Hp02 : passes (staging_states p (w_fs w0)) w0 w2).
  { eapply passes_from; [apply (retrying_passes _ _ Hr1)|done|by left|exact Hp2]. }
  assert (Hpa : passes (agree_off (is_staging c h) (w_fs w0)) w0 w2).
  { eapply passes_mono, Hp02. intros fs. by apply staging_agree. }
  destruct r2 as [[]|e].
  - destruct Ho as (Hn & q & t & Hq & Hl & Hm & Hf2).
    assert (Hne : p <> win_file c h) by (apply not_eq_sym; by apply win_file_not_marked).
    pose proof (commit_staging_run c p (win_file c h) _ (w_fs w0) w2 Hc Hp
      ltac:(by apply file_resolved) Hne Hn Hf2) as Hcm.
    destruct (commit_staging c p (win_file c h) w2) as [r3 w3]. destruct Hcm as [Hp3 Hr3].
    assert (Hpub : stream_published c h declared msgs (w_fs w0)
      (<[win_file c h := Regular (envelope (format c) q) t]> (w_fs w0))) by by exists q, t.
    split.
    + eapply passes_trans; [eapply passes_mono, Hpa; by left|].
      eapply passes_mono, Hp3. intros fs [->| ->]; [left|by right]. apply (passes_last _ _ _ Hpa).
    + destruct r3 as [[]|e]; cbn in Hr3 |- *; [by destruct Hr3 as [-> ?]|].
      destruct e; try done; [destruct operation; try done; by rewrite Hr3|].
      rewrite Hr3. apply (passes_last _ _ _ Hpa).
  - destruct Ho as [Hns Hnt]. destruct (name_taken e) eqn:Ht.
    + destruct (Hnt eq_refl) as (-> & Hsame & Hu & Htaken). split_and!; [done| |congruence|by exists bs].
      destruct Hr1. split; [by eapply passes_trans|done|done].
    + pose proof (delete_agree (is_staging c h) p (w_fs w0) w2 Hp ltac:(by eexists)
        (passes_last _ _ _ Hpa)) as Hd.
      destruct (delete_file p w2) as [rd w3]. cbn [snd] in Hd. split.
      * eapply passes_mono; [|eapply passes_trans; [exact Hpa|exact Hd]]. by left.
      * apply stream_unpublished; [apply (passes_last _ _ _ Hd)|done].
Qed.

(** ** Moving the file of a key away *)

(** What a move of the canonical file to a random name does. *)
Definition moved (path q : Path) (fs0 fs : FsMap) : Prop :=
  exists n, fs0 !! path = Some n /\ fs0 !! q = None /\ fs = <[q := n]> (delete path fs0).

Lemma move_away c (path q : Path) (w : World) :
  file_of (wide_path path) = path -> file_of (wide_path q) = q -> win_parent q = namespace c ->
  honest w ->
  let (r, w') := move_file path q MOVEFILE_WRITE_THROUGH w in
  w_entropy_used w' = w_entropy_used w /\
  match r with
  | Ok _ => moved path q (w_fs w) (w_fs w') /\ passes (fun fs => fs = w_fs w \/ fs = w_fs w') w w'
  | Err e => unchanged w w' /\ (kind e = AlreadyExists -> w_fs w !! q <> None) /\
      (kind e = NotFound -> w_fs w !! path = None \/ w_fs w !! namespace c = None)
  end.
Proof.
  intros Hpath Hq Hpar Hh. unfold move_file.
  pose proof (move_spec (wide_path path) (wide_path q) MOVEFILE_WRITE_THROUGH w) as H.
  rewrite Hpath, Hq, Hpar in H. destruct (api_entropy w) as (_ & _ & _ & He).
  specialize (He (wide_path path) (wide_path q) MOVEFILE_WRITE_THROUGH).
  destruct (MoveFileExW _ _ _ w) as [[[]|e] w1]; cbn [snd] in He; (split; [done|]).
  - destruct H as (n & Hn & Hfree & Hf & Hp). split; [|done]. exists n. split_and!; [done|by apply Hfree|done].
  - destruct H as (Hu & Ha & Hnf). split_and!; [done|by auto|by auto].
Qed.

Lemma ensure_namespace_unchanged c (w : World) r w' :
  ensure_namespace_available c w = (r, w') -> unchanged w w'.
Proof. intros E. pose proof (ensure_namespace_passes (fun fs => fs = w_fs w) c w eq_refl) as H. by rewrite E in H. Qed.

(** *** Quarantining *)

Definition windows_quarantine_states (c : StoreConfig) (h : bytes) (fs0 fs : FsMap) : Prop :=
  fs = fs0 \/ exists i, hex_name i /\ moved (win_file c h) (win_quarantine c h i) fs0 fs.

Definition windows_quarantine_outcome (c : StoreConfig) (h : bytes) (fs0 : FsMap)
    (r : result QuarantineInfo AtomicBlobStoreError) (w' : World) : Prop :=
  let at_name q := hex_name (identifier q) /\ diagnostic_path q = win_quarantine c h (identifier q) /\
    moved (win_file c h) (diagnostic_path q) fs0 (w_fs w') in
  match r with
  | Ok q => at_name q /\ synced_last (namespace c) w'
  | Err (QuarantineNamespaceSync q _) => at_name q
  | Err _ => w_fs w' = fs0
  end.

Lemma quarantine_resolved c h i :
  windows_store c -> hex_name h -> hex_name i ->
  file_of (wide_path (win_quarantine c h i)) = win_quarantine c h i /\
  win_parent (win_quarantine c h i) = namespace c.
Proof.
  intros Hc Hh Hi. assert (Hn : store_name (quarantine_name h (filename_suffix (format c)) i))
    by by apply marked_store_name.
  split; [by apply Hc|by apply win_parent_join].
Qed.

Lemma windows_quarantine_turn c h (w0 w : World) :
  windows_store c -> hex_name h -> retrying w0 w ->
  match windows_quarantine_step c (win_file c h) h w with
  | inl w' => retrying w0 w' /\ drew_taken_name id (win_quarantine c h) (w_fs w0) w w'
  | inr (r, w') => passes (windows_quarantine_states c h (w_fs w0)) w0 w' /\
      windows_quarantine_outcome c h (w_fs w0) r w'
  end.
Proof.
  intros Hc Hh Hr. unfold windows_quarantine_step, drew_taken_name, id.
  destruct (random_identifier w) as [r1 w1] eqn:Er.
  destruct (retrying_random _ _ _ _ Hr Er) as (Hr1 & Hu1 & Hi).
  destruct (retrying_now _ _ Hr1) as [Hf1 Hh1]. pose proof (retrying_passes _ _ Hr1) as Hp01.
  assert (Hsame : forall w', unchanged w0 w' -> passes (windows_quarantine_states c h (w_fs w0)) w0 w')
    by (intros w'; apply passes_mono; intros fs ->; by left).
  destruct r1 as [i|e].
  2:{ destruct Hi as [code ->]. split; [by apply Hsame|done]. }
  destruct Hi as [Hi (bs & Ebs & ->)]. fold (win_quarantine c h (hex_encode bs)).
  set (q := win_quarantine c h (hex_encode bs)).
  destruct (quarantine_resolved c h (hex_encode bs) Hc Hh Hi) as [Hq Hpar].
  pose proof (move_away c (win_file c h) q w1 ltac:(by apply file_resolved) Hq Hpar Hh1) as Hm.
  destruct (move_file (win_file c h) q MOVEFILE_WRITE_THROUGH w1) as [[[]|e] w2]; destruct Hm as [Hu2 Hm];
    rewrite Hf1 in Hm.
  - destruct Hm as [Hmv Hp2].
    assert (Hp02 : passes (windows_quarantine_states c h (w_fs w0)) w0 w2).
    { eapply passes_from; [exact Hp01| |by left|exact Hp2].
      intros fs [->| ->]; [by left|right; by exists (hex_encode bs)]. }
    unfold bind, eff_map_err. pose proof (sync_windows_run c w2 Hc) as Hs.
    destruct (sync_windows_directory c w2) as [r3 w3]. destruct Hs as [Hu3 Hs].
    assert (Hp03 : passes (windows_quarantine_states c h (w_fs w0)) w0 w3).
    { eapply passes_trans; [exact Hp02|]. eapply passes_mono, Hu3. intros fs ->. apply (passes_last _ _ _ Hp02). }
    pose proof (unchanged_fs _ _ Hu3) as Hf3.
    destruct r3 as [[]|e]; cbn [map_err]; unfold ret; (split; [done|]); cbn; rewrite Hf3; auto.
  - destruct Hm as (Hu & Hex & Hnf). assert (Hp02 : unchanged w0 w2) by by eapply passes_trans.
    case_decide as Hk; [|case_decide as Hk2].
    + unfold bind, throw. destruct (ensure_namespace_available c w2) as [[[]|e3] w3] eqn:Ee.
      all: pose proof (unchanged_trans _ _ _ Hp02 (ensure_namespace_unchanged _ _ _ _ Ee)) as Hp03.
      all: split; [by apply Hsame|].
      * by apply unchanged_fs.
      * apply ensure_namespace_errors in Ee as [->|[s ->]]; by apply unchanged_fs.
    + split_and!; [by destruct Hr1; split|congruence|]. exists bs. split; [done|]. by apply Hex.
    + split; [by apply Hsame|]. by apply unchanged_fs.
Qed.

(** *** Clearing *)

Definition windows_clear_states (c : StoreConfig) (h : bytes) (fs0 fs : FsMap) : Prop :=
  fs = fs0 \/ (exists i, hex_name i /\ moved (win_file c h) (win_staging c h CLEAR_MARKER i) fs0 fs) \/
  fs = delete (win_file c h) fs0.

(** The namespace was synced when the file was gone. *)
Definition synced_without (path dir : Path) (w : World) : Prop :=
  exists later fs earlier, w_log w = later ++ (SysSync dir, fs) :: earlier /\ fs !! path = None.

Definition windows_clear_outcome (c : StoreConfig) (h : bytes) (fs0 : FsMap)
    (r : result unit AtomicBlobStoreError) (w' : World) : Prop :=
  match r with
  | Ok _ => w_fs w' = delete (win_file c h) fs0 /\
      (fs0 !! win_file c h <> None -> synced_without (win_file c h) (namespace c) w')
  | Err (Io SyncNamespaceDirectory _) | Err (Io RemoveTemporaryFile _) =>
      exists i, hex_name i /\ moved (win_file c h) (win_staging c h CLEAR_MARKER i) fs0 (w_fs w')
  | Err (Io OpenNamespaceDirectory _) => False
  | Err _ => w_fs w' = fs0
  end.

Lemma moved_gone c h q fs0 fs :
  q <> win_file c h -> moved (win_file c h) q fs0 fs -> fs !! win_file c h = None.
Proof. intros Hne (n & _ & _ & ->). rewrite lookup_insert_ne by done. apply lookup_delete_eq. Qed.

Lemma delete_moved path q fs0 fs : moved path q fs0 fs -> delete q fs = delete path fs0.
Proof.
  intros (n & _ & Hq & ->). rewrite delete_insert_eq, delete_id; [done|].
  rewrite lookup_delete_None. by right.
Qed.

(** Syncing the namespace and removing the staged file. *)
Lemma clear_staged_run c h i fs0 (w : World) :
  windows_store c -> hex_name h -> hex_name i ->
  moved (win_file c h) (win_staging c h CLEAR_MARKER i) fs0 (w_fs w) ->
  let (r, w') := (do? _ <- io_op SyncNamespaceDirectory (sync_windows_directory c);
                  io_op RemoveTemporaryFile (delete_file (win_staging c h CLEAR_MARKER i))) w in
  passes (windows_clear_states c h fs0) w w' /\ windows_clear_outcome c h fs0 r w'.
Proof.
  intros Hc Hh Hi Hmv. set (q := win_staging c h CLEAR_MARKER i) in *.
  assert (Hq : file_of (wide_path q) = q) by by apply marked_resolved.
  assert (Hst : windows_clear_states c h fs0 (w_fs w)) by (right; left; by exists i).
  assert (Hgone : w_fs w !! win_file c h = None).
  { eapply moved_gone, Hmv. apply not_eq_sym. by apply win_file_not_marked. }
  unfold bind, io_op, eff_map_err. pose proof (sync_windows_run c w Hc) as Hs.
  destruct (sync_windows_directory c w) as [[[]|e] w1]; destruct Hs as [Hu Hs]; cbn [map_err].
  all: assert (Hp1 : passes (windows_clear_states c h fs0) w w1)
    by (eapply passes_mono, Hu; by intros fs ->).
  2:{ split; [done|]. cbn. rewrite (unchanged_fs _ _ Hu). by exists i. }
  destruct (Hs eq_refl) as [log Hlog]. pose proof (unchanged_fs _ _ Hu) as Hf1.
  unfold delete_file. pose proof (delete_spec (wide_path q) w1) as Hd. rewrite Hq, Hf1 in Hd.
  destruct (DeleteFileW _ w1) as [[[]|e] w2]; cbn [map_err].
  - destruct Hd as (_ & Hf2 & Hp2). rewrite (delete_moved _ _ _ _ Hmv) in Hf2. split.
    + eapply passes_trans; [exact Hp1|]. eapply passes_mono, Hp2. rewrite Hf2.
      intros fs [->| ->]; [done|by right; right].
    + split; [done|]. intros _. destruct (passes_log _ _ _ Hp2) as (new & El & _).
      exists new, (w_fs w1), log. by rewrite El, Hlog, Hf1.
  - split; [eapply passes_trans; [exact Hp1|]; eapply passes_mono, Hd; by intros fs ->|].
    cbn. rewrite (passes_last _ _ _ Hd). by exists i.
Qed.

Lemma windows_clear_turn c h (w0 w : World) :
  windows_store c -> hex_name h -> retrying w0 w ->
  match windows_clear_step c (win_file c h) h w with
  | inl w' => retrying w0 w' /\ drew_taken_name id (win_staging c h CLEAR_MARKER) (w_fs w0) w w'
  | inr (r, w') => passes (windows_clear_states c h (w_fs w0)) w0 w' /\
      windows_clear_outcome c h (w_fs w0) r w'
  end.
Proof.
  intros Hc Hh Hr. unfold windows_clear_step, drew_taken_name, id.
  destruct (random_identifier w) as [r1 w1] eqn:Er.
  destruct (retrying_random _ _ _ _ Hr Er) as (Hr1 & Hu1 & Hi).
  destruct (retrying_now _ _ Hr1) as [Hf1 Hh1]. pose proof (retrying_passes _ _ Hr1) as Hp01.
  assert (Hsame : forall w', unchanged w0 w' -> passes (windows_clear_states c h (w_fs w0)) w0 w')
    by (intros w'; apply passes_mono; intros fs ->; by left).
  destruct r1 as [i|e].
  2:{ destruct Hi as [code ->]. split; [by apply Hsame|done]. }
  destruct Hi as [Hi (bs & Ebs & ->)]. fold (win_staging c h CLEAR_MARKER (hex_encode bs)).
  set (q := win_staging c h CLEAR_MARKER (hex_encode bs)).
  assert (Hpar : win_parent q = namespace c) by (apply win_parent_join; [done|by apply marked_store_name]).
  pose proof (move_away c (win_file c h) q w1 ltac:(by apply file_resolved) ltac:(by apply marked_resolved)
    Hpar Hh1) as Hm.
  destruct (move_file (win_file c h) q MOVEFILE_WRITE_THROUGH w1) as [[[]|e] w2]; destruct Hm as [Hu2 Hm];
    rewrite Hf1 in Hm.
  - destruct Hm as [Hmv Hp2].
    assert (Hp02 : passes (windows_clear_states c h (w_fs w0)) w0 w2).
    { eapply passes_from; [exact Hp01| |by left|exact Hp2].
      intros fs [->| ->]; [by left|right; left; by exists (hex_encode bs)]. }
    pose proof (clear_staged_run c h (hex_encode bs) (w_fs w0) w2 Hc Hh Hi Hmv) as Hcl.
    fold q in Hcl. destruct (bind _ _ w2) as [r3 w3]. destruct Hcl as [Hp3 Ho].
    split; [by eapply passes_trans|done].
  - destruct Hm as (Hu & Hex & Hnf). assert (Hp02 : unchanged w0 w2) by by eapply passes_trans.
    case_decide as Hk; [|case_decide as Hk2].
    + destruct (ensure_namespace_available c w2) as [r3 w3] eqn:Ee.
      pose proof (unchanged_trans _ _ _ Hp02 (ensure_namespace_unchanged _ _ _ _ Ee)) as Hp03.
      split; [by apply Hsame|]. destruct r3 as [[]|e3].
      * apply ensure_namespace_ok in Ee. rewrite (unchanged_fs _ _ Hp02) in Ee.
        assert (Hn : w_fs w0 !! win_file c h = None)
          by (destruct (Hnf Hk) as [?|Hx]; [done|by rewrite resolve_absent in Ee]).
        split; [|done]. by rewrite (unchanged_fs _ _ Hp03), delete_id.
      * apply ensure_namespace_errors in Ee as [->|[s ->]]; by apply unchanged_fs.
    + split_and!; [by destruct Hr1; split|congruence|]. exists bs. split; [done|]. by apply Hex.
    + split; [by apply Hsame|]. by apply unchanged_fs.
Qed.

End Backend.
