(* ===== verification/WindowsRuns.v ===== *)
(** * The runs of the Windows backend

    The age of a cleared file, and each operation as a whole: what it leaves,
    and that its loop ends. *)
From S2P Require Export WindowsSpec.

Local Open Scope N_scope.
Local Open Scope blob_scope.

(** ** File times *)

Lemma le_bytes_S n v : le_bytes (S n) v = byte_of v :: le_bytes n (v / 256).
Proof. unfold le_bytes. simpl. by rewrite rev_app_distr. Qed.

Lemma from_le_le_bytes n v : from_le (le_bytes n v) = v mod 256 ^ N.of_nat n.
Proof. unfold from_le, le_bytes. by rewrite rev_involutive, from_be_be_bytes_mod. Qed.

Lemma file_time_halves ticks :
  file_time ticks = (ticks mod 2 ^ 32, (ticks / 2 ^ 32) mod 2 ^ 32).
Proof.
  unfold file_time.
  assert (E : le_bytes 8 ticks = le_bytes 4 ticks ++ le_bytes 4 (ticks / 2 ^ 32))
    by (rewrite !le_bytes_S, !N.Div0.div_div; done).
  rewrite E, take_app_length', drop_app_length' by by rewrite !le_bytes_S.
  by rewrite !from_le_le_bytes.
Qed.

(** The two halves of a 64-bit count determine it. *)
Lemma file_time_total ticks low high :
  ticks <= U64_MAX -> file_time ticks = (low, high) ->
  low < 2 ^ 32 /\ high < 2 ^ 32 /\ low + high * 2 ^ 32 = ticks.
Proof.
  intros Ht. rewrite file_time_halves. intros [= <- <-].
  assert (ticks / 2 ^ 32 < 2 ^ 32) by (apply N.Div0.div_lt_upper_bound; unfold U64_MAX in Ht; lia).
  rewrite (N.mod_small (ticks / _)) by done. pose proof (N.mod_lt ticks (2 ^ 32)).
  pose proof (N.div_mod ticks (2 ^ 32)). lia.
Qed.

(** The clock in steps of 100 nanoseconds. *)
Lemma ticks_of_elapsed n : n / 1000000000 * 10000000 + n mod 1000000000 / 100 = n / 100.
Proof.
  replace 1000000000 with (100 * 10000000) by done.
  rewrite <-N.Div0.div_div, N.Div0.mod_mul_r, (N.mul_comm 100 (_ mod _)), N.div_add by done.
  rewrite (N.div_small (_ mod 100)) by (by apply N.mod_lt). rewrite N.add_0_l, N.mul_comm.
  symmetry. by apply N.div_mod.
Qed.

Lemma file_time_ticks_spec now :
  file_time_ticks now =
    if ((0 <=? now)%Z && (Z.to_N now / 100 + WINDOWS_EPOCH_OFFSET_100NS <=? U64_MAX))%bool
    then Ok (Z.to_N now / 100 + WINDOWS_EPOCH_OFFSET_100NS) else Err io_other.
Proof.
  unfold file_time_ticks. destruct (Z.ltb_spec now 0) as [H|H]; destruct (Z.leb_spec 0 now); try lia; [done|].
  pose proof (ticks_of_elapsed (Z.to_N now)) as E. cbn [andb bind_ok].
  unfold checked_mul, checked_add, HUNDRED_NS_PER_SECOND, WINDOWS_EPOCH_OFFSET_100NS in *.
  set (a := Z.to_N now / 1000000000 * 10000000) in *. set (b := Z.to_N now mod 1000000000 / 100) in *.
  repeat (match goal with |- context [?x <=? U64_MAX] => destruct (N.leb_spec x U64_MAX) end;
    cbn [mbind option_bind ok_or]); try lia; try done. by rewrite E.
Qed.

(** The time that [refresh_windows_clear_age] sets. *)
Definition refreshed_time (now : Z) : Z := now / 100 * 100.

Lemma file_time_ns_now now ticks low high :
  file_time_ticks now = Ok ticks -> file_time ticks = (low, high) ->
  file_time_ns low high = refreshed_time now.
Proof.
  rewrite file_time_ticks_spec. destruct (_ && _)%bool eqn:E; [|done]. intros [= <-] Hf.
  reflect_bools. apply file_time_total in Hf as (_ & _ & Hf); [|done].
  unfold file_time_ns, refreshed_time. rewrite Hf.
  replace (Z.of_N (Z.to_N now / 100 + WINDOWS_EPOCH_OFFSET_100NS) -
    Z.of_N WINDOWS_EPOCH_OFFSET_100NS)%Z with (Z.of_N (Z.to_N now / 100)) by lia.
  rewrite N2Z.inj_div, Z2N.id by lia. reflexivity.
Qed.

Section Backend.
Context {Crc : Crc32c} {CrcL : Crc32cLaws} {Tgt : Target} {Api : WindowsApi} {ApiL : WindowsApiLaws}.

(** ** Saving *)

Lemma retrying_start (w : World) : entropy_fills w -> honest w -> retrying w w.
Proof. intros. split; [by apply passes_refl|done|done]. Qed.

Lemma retrying_entropy (w0 w : World) : retrying w0 w -> w_entropy w = w_entropy w0.
Proof. intros [H _ _]. apply H. Qed.

Lemma windows_save_run fuel c h payload (w : World) :
  windows_store c -> hex_name h -> entropy_fills w -> honest w ->
  match windows_save_blob fuel c (win_file c h) payload w with
  | inl w' => unchanged w w'
  | inr (r, w') => passes (save_states c h (envelope (format c) payload) (w_fs w)) w w' /\
      windows_save_outcome c h (envelope (format c) payload) (w_fs w) r w' /\
      (r = Ok tt -> blen payload <= maximum c)
  end /\
  forall k, (k < fuel)%nat -> free_name id (win_staging c h SAVE_MARKER) (w_fs w) k w ->
    exists r, windows_save_blob fuel c (win_file c h) payload w = inr r.
Proof.
  intros Hc Hh He Hhon. unfold windows_save_blob.
  destruct (envelope_parts _ _ _) as [[header checksum]|e] eqn:Ep.
  2:{ split; [|by intros; eexists]. split_and!; [apply passes_refl; by left| |done].
      apply unsaved_outcome; [by left|].
      unfold envelope_parts in Ep. destruct (u64_try_from _); cbn in Ep; [|by simplify_eq].
      unfold envelope_header in Ep. destruct (_ <? _); by simplify_eq. }
  assert (Hen : encode_envelope (format c) payload (maximum c) = Ok (header ++ payload ++ checksum))
    by (unfold encode_envelope; by rewrite Ep).
  apply encode_envelope_ok in Hen as (<- & Hmax & _). rewrite win_stem by done.
  destruct (retry_loop id (windows_save_step c (win_file c h) h header payload checksum) (retrying w)
    (fun '(r, w') => passes (save_states c h (header ++ payload ++ checksum) (w_fs w)) w w' /\
       windows_save_outcome c h (header ++ payload ++ checksum) (w_fs w) r w')
    (win_staging c h SAVE_MARKER) (w_fs w) (w_entropy w) (retrying_entropy w)) with (fuel := fuel) (s := w)
    as [H1 H2].
  - intros w1 Hr. pose proof (windows_save_turn c h header payload checksum w w1 Hc Hh Hr) as Ht.
    by destruct (windows_save_step _ _ _ _ _ _ w1) as [|[]].
  - by apply retrying_start.
  - split; [|done]. destruct (loop _ _ w) as [w'|[r w']]; [by apply retrying_passes|].
    by destruct H1.
Qed.

Lemma windows_stream_run fuel c h declared msgs (w : World) :
  windows_store c -> hex_name h -> entropy_fills w -> honest w ->
  match windows_save_blob_from_receiver fuel c (win_file c h) declared msgs w with
  | inl (msgs', w') => msgs' = msgs /\ unchanged w w'
  | inr ((r, _), w') => passes (stream_states c h declared msgs (w_fs w)) w w' /\
      windows_stream_outcome c h declared msgs (w_fs w) r w'
  end /\
  forall k, (k < fuel)%nat -> free_name id (win_staging c h SAVE_MARKER) (w_fs w) k w ->
    exists r, windows_save_blob_from_receiver fuel c (win_file c h) declared msgs w = inr r.
Proof.
  intros Hc Hh He Hhon. unfold windows_save_blob_from_receiver.
  destruct (envelope_header _ _ _) as [hd|e] eqn:Eh.
  2:{ split; [|by intros; eexists]. split; [apply passes_refl; left; apply agree_off_refl|].
      apply stream_unpublished; [apply agree_off_refl|]. unfold envelope_header in Eh.
      destruct (_ <? _); by simplify_eq. }
  rewrite win_stem by done.
  destruct (retry_loop snd (windows_save_stream_step c (win_file c h) h declared)
    (fun s => fst s = msgs /\ retrying w (snd s))
    (fun '((r, _), w') => passes (stream_states c h declared msgs (w_fs w)) w w' /\
       windows_stream_outcome c h declared msgs (w_fs w) r w')
    (win_staging c h SAVE_MARKER) (w_fs w) (w_entropy w)) with (fuel := fuel) (s := (msgs, w))
    as [H1 H2].
  - intros [m w1] [_ Hr]. by apply retrying_entropy.
  - intros [m w1] [E Hr]. cbn in E, Hr. subst m.
    pose proof (windows_stream_turn c h declared msgs w w1 Hc Hh Hr) as Ht.
    by destruct (windows_save_stream_step _ _ _ _ _) as [[]|[[]]].
  - split; [done|by apply retrying_start].
  - split; [|done]. destruct (loop _ _ (msgs, w)) as [[m w']|[[r rest] w']]; [|done].
    destruct H1 as [H1 Hr]. split; [done|]. by apply retrying_passes.
Qed.

(** A load of what was published. *)
Lemma windows_loaded c h q t fs (w : World) :
  windows_store c -> fits_usize (maximum c) -> blen q <= maximum c -> calm w ->
  w_fs w = <[win_file c h := Regular (envelope (format c) q) t]> fs ->
  fst (load_blob c (win_file c h) w) = Ok (Some q).
Proof.
  intros Hc Hm Hq Hw Hf. rewrite load_blob_calm by done. unfold load_answer. rewrite Hf.
  rewrite (resolve_plain _ _ (Regular (envelope (format c) q) t)); [|apply lookup_insert_eq|done].
  cbn. rewrite drop_0, decode_spec_envelope; [done|apply Hc|done|]. pose proof (fits_u64 _ Hm). lia.
Qed.

(** ** Quarantining *)

Lemma windows_quarantine_run fuel c h (w : World) :
  windows_store c -> hex_name h -> entropy_fills w -> honest w ->
  match windows_quarantine_blob fuel c (win_file c h) w with
  | inl w' => unchanged w w'
  | inr (r, w') => passes (windows_quarantine_states c h (w_fs w)) w w' /\
      windows_quarantine_outcome c h (w_fs w) r w'
  end /\
  forall k, (k < fuel)%nat -> free_name id (win_quarantine c h) (w_fs w) k w ->
    exists r, windows_quarantine_blob fuel c (win_file c h) w = inr r.
Proof.
  intros Hc Hh He Hhon. unfold windows_quarantine_blob. rewrite win_stem by done.
  destruct (retry_loop id (windows_quarantine_step c (win_file c h) h) (retrying w)
    (fun '(r, w') => passes (windows_quarantine_states c h (w_fs w)) w w' /\
       windows_quarantine_outcome c h (w_fs w) r w')
    (win_quarantine c h) (w_fs w) (w_entropy w) (retrying_entropy w)) with (fuel := fuel) (s := w)
    as [H1 H2].
  - intros w1 Hr. pose proof (windows_quarantine_turn c h w w1 Hc Hh Hr) as Ht.
    by destruct (windows_quarantine_step _ _ _ w1) as [|[]].
  - by apply retrying_start.
  - split; [|done]. destruct (loop _ _ w) as [w'|[r w']]; [by apply retrying_passes|done].
Qed.

(** ** Clearing *)

(** At most the last write of the file was set. *)
Definition refreshed (c : StoreConfig) (h : bytes) (now : Z) (fs0 fs : FsMap) : Prop :=
  fs = fs0 \/ fs = retime (win_file c h) (refreshed_time now) fs0.

Lemma retime_none p q t fs : retime p t fs !! q = None <-> fs !! q = None.
Proof.
  unfold retime. destruct (fs !! p) as [[]|] eqn:E; [|done..].
  destruct (decide (q = p)) as [->|Hne]; [by rewrite lookup_insert_eq, E|by rewrite lookup_insert_ne].
Qed.

Lemma refresh_run c h (w : World) :
  windows_store c -> hex_name h -> honest w ->
  (forall t, w_fs w !! win_file c h <> Some (Symlink t)) ->
  let (r, w') := refresh_windows_clear_age (win_file c h) w in
  passes (refreshed c h (w_now w) (w_fs w)) w w' /\ w_entropy_used w' = w_entropy_used w /\
  match r with
  | Ok _ => w_fs w' = retime (win_file c h) (refreshed_time (w_now w)) (w_fs w) /\
      w_fs w !! win_file c h <> None
  | Err e => kind e = NotFound -> w_fs w !! win_file c h = None /\ unchanged w w'
  end.
Proof.
  intros Hc Hh Hhon Hl. unfold refresh_windows_clear_age.
  assert (Hid : passes (refreshed c h (w_now w) (w_fs w)) w w) by (apply passes_refl; by left).
  assert (Hsame : forall w', unchanged w w' -> passes (refreshed c h (w_now w) (w_fs w)) w w')
    by (intros w'; apply passes_mono; intros fs ->; by left).
  destruct (file_time_ticks (w_now w)) as [ticks|e] eqn:Et.
  2:{ split_and!; [done|done|]. rewrite file_time_ticks_spec in Et.
      destruct (_ && _)%bool; [done|]. by injection Et as <-. }
  destruct (file_time ticks) as [low high] eqn:Ef. pose proof (file_time_ns_now _ _ _ _ Et Ef) as Hns.
  unfold bind. set (access := N.lor GENERIC_WRITE FILE_WRITE_ATTRIBUTES).
  pose proof (open_existing_spec (wide_path (win_file c h)) access 0 staging_flags w) as Ho.
  rewrite file_resolved in Ho by done. destruct (api_entropy w) as (He & _).
  specialize (He (wide_path (win_file c h)) access 0 OPEN_EXISTING staging_flags).
  destruct (CreateFileW _ access 0 OPEN_EXISTING _ w) as [[hd|e] w1]; cbn [snd] in He.
  2:{ destruct Ho as [Hu Hn]. split_and!; [by apply Hsame|done|]. intros Hk. split; [|done].
      destruct (Hn Hhon Hk) as [?|[t Ht]]; [done|]. by destruct (Hl t). }
  destruct Ho as (Hex & Hf & Hu1). pose proof (unchanged_fs _ _ Hu1) as Hf1.
  pose proof (set_file_time_spec hd low high w1) as Hs. rewrite Hf, Hf1, Hns in Hs.
  destruct (api_entropy w1) as (_ & _ & He1 & _). specialize (He1 hd low high).
  pose proof (passes_honest _ _ _ Hu1 Hhon) as Hh1.
  destruct (SetFileTime hd low high w1) as [[[]|e] w2]; cbn [snd] in He1.
  2:{ destruct Hs as [Hu2 Hk]. split_and!; [apply Hsame; by eapply passes_trans|congruence|].
      intros Hn. by destruct (honest_error_kind e (Hk Hh1)). }
  destruct Hs as [Hf2 Hp2]. specialize (Hf2 Hl).
  assert (Hp02 : passes (refreshed c h (w_now w) (w_fs w)) w w2).
  { eapply passes_trans; [by apply Hsame|]. eapply passes_mono, Hp2.
    intros fs [->| ->]; [by left|by right]. }
  pose proof (flush_spec hd w2) as Hfl. destruct (api_entropy w2) as (_ & He2 & _). specialize (He2 hd).
  destruct (FlushFileBuffers hd w2) as [r w3]; cbn [snd] in He2. destruct Hfl as [Hu3 Hk].
  split_and!; [|congruence|].
  - eapply passes_trans; [exact Hp02|]. eapply passes_mono, Hu3. intros fs ->. apply (passes_last _ _ _ Hp02).
  - destruct r as [[]|e]; [by rewrite (unchanged_fs _ _ Hu3)|]. intros Hn.
    by destruct (honest_error_kind e (Hk (passes_honest _ _ _ Hp02 Hhon))).
Qed.

(** A state of a clear: of the moves and the removal, on top of the new time. *)
Definition clearing (c : StoreConfig) (h : bytes) (now : Z) (fs0 fs : FsMap) : Prop :=
  exists fs1, refreshed c h now fs0 fs1 /\ windows_clear_states c h fs1 fs.

Definition cleared (c : StoreConfig) (h : bytes) (now : Z) (fs0 : FsMap)
    (r : result unit AtomicBlobStoreError) (w' : World) : Prop :=
  exists fs1, refreshed c h now fs0 fs1 /\ windows_clear_outcome c h fs1 r w'.

Lemma refreshed_trans c h now fs0 fs1 fs :
  refreshed c h now fs0 fs1 -> fs = fs1 -> clearing c h now fs0 fs.
Proof. intros H ->. exists fs1. split; [done|by left]. Qed.

Lemma delete_refreshed c h now fs0 fs1 :
  refreshed c h now fs0 fs1 -> delete (win_file c h) fs1 = delete (win_file c h) fs0.
Proof.
  intros [->| ->]; [done|]. unfold retime.
  destruct (fs0 !! win_file c h) as [[]|]; [|done..]. apply delete_insert_eq.
Qed.

Lemma windows_clear_run fuel c h (w : World) :
  windows_store c -> hex_name h -> entropy_fills w -> honest w ->
  (forall t, w_fs w !! win_file c h <> Some (Symlink t)) ->
  match windows_clear_blob fuel c (win_file c h) w with
  | inl w' => passes (refreshed c h (w_now w) (w_fs w)) w w'
  | inr (r, w') => passes (clearing c h (w_now w) (w_fs w)) w w' /\
      cleared c h (w_now w) (w_fs w) r w'
  end /\
  forall k, (k < fuel)%nat -> free_name id (win_staging c h CLEAR_MARKER) (w_fs w) k w ->
    exists r, windows_clear_blob fuel c (win_file c h) w = inr r.
Proof.
  intros Hc Hh He Hhon Hl. unfold windows_clear_blob. rewrite win_stem by done.
  pose proof (refresh_run c h w Hc Hh Hhon Hl) as Hr.
  destruct (refresh_windows_clear_age _ w) as [[[]|e] w1]; destruct Hr as (Hp1 & Hu1 & Hr).
  all: assert (Hcl : forall w2, passes (refreshed c h (w_now w) (w_fs w)) w w2 ->
    passes (clearing c h (w_now w) (w_fs w)) w w2)
    by (intros w2; apply passes_mono; intros fs Hfs; exists fs; split; [done|by left]).
  2:{ split; [|by intros; case_decide; eexists]. case_decide as Hk.
      - destruct (Hr Hk) as [Hn Hu]. destruct (ensure_namespace_available c w1) as [r2 w2] eqn:Ee.
        assert (Hu2 : unchanged w w2) by (eapply unchanged_trans; [exact Hu|by eapply ensure_namespace_unchanged]).
        split; [eapply passes_mono, Hu2; intros fs Hfs; by eapply refreshed_trans; [left|]|].
        exists (w_fs w). split; [by left|]. pose proof (unchanged_fs _ _ Hu2) as Hf.
        destruct r2 as [[]|e2]; [split; [by rewrite delete_id|done]|].
        by apply ensure_namespace_errors in Ee as [->|[s ->]].
      - split; [by apply Hcl|]. exists (w_fs w1). split; [apply (passes_last _ _ _ Hp1)|done]. }
  destruct Hr as [Hf1 Hex]. pose proof (passes_last _ _ _ Hp1) as Href.
  destruct (retry_loop id (windows_clear_step c (win_file c h) h) (retrying w1)
    (fun '(r, w') => passes (windows_clear_states c h (w_fs w1)) w1 w' /\
       windows_clear_outcome c h (w_fs w1) r w')
    (win_staging c h CLEAR_MARKER) (w_fs w1) (w_entropy w1) (retrying_entropy w1))
    with (fuel := fuel) (s := w1) as [H1 H2].
  - intros w2 Hr. pose proof (windows_clear_turn c h w1 w2 Hc Hh Hr) as Ht.
    by destruct (windows_clear_step _ _ _ w2) as [|[]].
  - apply retrying_start; [by eapply passes_fills|by apply (passes_honest _ _ _ Hp1)].
  - split.
    + destruct (loop _ _ w1) as [w'|[r w']].
      * eapply passes_trans; [exact Hp1|]. eapply passes_mono, retrying_passes, H1. by intros fs ->.
      * destruct H1 as [H1 H1']. split; [|by exists (w_fs w1)].
        eapply passes_trans; [by apply Hcl|]. eapply passes_mono, H1. intros fs Hfs. by exists (w_fs w1).
    + intros k Hk Hfree. apply (H2 k Hk). unfold free_name, id in *.
      rewrite (passes_entropy _ _ _ Hp1), Hu1. destruct (w_entropy w _); [|done].
      by rewrite Hf1, retime_none.
Qed.

End Backend.
