(* ===== verification/WindowsCleanup.v ===== *)
(** * The cleanup of staging files

    Which names belong to the store, and what a cleanup removes and reports. *)
From S2P Require Export WindowsRuns.

Local Open Scope N_scope.
Local Open Scope blob_scope.

(** ** Splitting *)

Lemma starts_with_spec m s : starts_with m s = true <-> exists t, s = m ++ t.
Proof.
  unfold starts_with. rewrite bool_decide_eq_true. split.
  - intros E. exists (drop (length m) s). rewrite <-E at 1. by rewrite take_drop.
  - intros [t ->]. by rewrite take_app_length.
Qed.

Lemma split_once_some m s a b : split_once m s = Some (a, b) -> s = a ++ m ++ b.
Proof.
  revert a; induction s as [|x s IH]; intros a; cbn [split_once];
    destruct (starts_with m _) eqn:E; intros H; simplify_eq/=.
  - apply starts_with_spec in E as [t ->]. by rewrite drop_app_length.
  - apply starts_with_spec in E as [t ->]. by rewrite drop_app_length.
  - destruct (split_once m s) as [[a' b']|]; simplify_eq/=. by rewrite (IH a').
Qed.

(** The first occurrence, when the first byte of the marker is nowhere before. *)
Lemma split_once_app x m a b :
  x ∉ a -> split_once (x :: m) (a ++ (x :: m) ++ b) = Some (a, b).
Proof.
  intros Hx. induction a as [|y a IH].
  - assert (E : starts_with (x :: m) ((x :: m) ++ b) = true) by (apply starts_with_spec; by exists b).
    change ([] ++ (x :: m) ++ b) with (x :: (m ++ b)) in *. cbn [split_once].
    change (x :: m ++ b) with ((x :: m) ++ b). rewrite E. by rewrite drop_app_length.
  - apply not_elem_of_cons in Hx as [Hy Ha]. cbn [app split_once].
    destruct (starts_with _ (y :: _)) eqn:E; [|cbn [app] in IH; by rewrite IH].
    apply starts_with_spec in E as [t Et]. by simplify_eq/=.
Qed.

(** ** The names *)

Lemma owned_hex_spec s : owned_hex s = true <-> hex_name s.
Proof.
  unfold owned_hex, hex_name, blen. change (fun byte => _) with is_lower_hex.
  rewrite andb_true_iff, N.eqb_eq. split; intros [H1 H2]; (split; [lia|done]).
Qed.

Definition staging_marker (marker : bytes) : Prop := marker = SAVE_MARKER \/ marker = CLEAR_MARKER.

Lemma hex_no_dot h : hex_name h -> DOT ∉ h.
Proof.
  intros [_ Hh] Hin%list_elem_of_In. rewrite forallb_forall in Hh.
  by destruct (lower_hex_spec DOT (Hh _ Hin)).
Qed.

(** The owned names are the names that saves and clears give. *)
Lemma owned_name_spec suffix name :
  valid_suffix suffix = true ->
  is_owned_temporary_filename name suffix = true <->
  exists h marker i, hex_name h /\ hex_name i /\ staging_marker marker /\
    name = staging_name h suffix marker i.
Proof.
  intros Hs. unfold is_owned_temporary_filename, staging_name.
  apply valid_suffix_shape in Hs as (t & -> & _). split.
  - destruct (split_once _ name) as [[h rest]|] eqn:E; [|done]. apply split_once_some in E as ->.
    destruct (owned_hex h) eqn:Hh; [|done]. cbn [negb]. apply owned_hex_spec in Hh.
    destruct (split_once (bstr ".") rest) as [[kind i]|] eqn:E; [|done].
    apply split_once_some in E as ->. intros [Hk Hi%owned_hex_spec]%andb_prop.
    apply orb_prop in Hk as [Hk|Hk]; apply bool_decide_eq_true in Hk as ->.
    + exists h, SAVE_MARKER, i. split_and!; [done|done|by left|by rewrite <-!app_assoc].
    + exists h, CLEAR_MARKER, i. split_and!; [done|done|by right|by rewrite <-!app_assoc].
  - intros (h & marker & i & Hh & Hi & Hm & ->).
    assert (E : exists kind, (kind = bstr "save" \/ kind = bstr "clear") /\
      marker = bstr ".tmp-v1." ++ kind ++ bstr "." /\ DOT ∉ kind).
    { destruct Hm as [-> | ->]; [exists (bstr "save")|exists (bstr "clear")];
        (split_and!; [by auto|done|decided]). }
    destruct E as (kind & Hk & -> & Hd).
    assert (E1 : forall m r, m = DOT :: (t ++ bstr ".tmp-v1.") -> r = h ++ m ++ (kind ++ bstr "." ++ i) ->
      split_once m r = Some (h, kind ++ bstr "." ++ i))
      by (intros m r -> ->; apply split_once_app; by apply hex_no_dot).
    rewrite E1; [|done|simpl; by rewrite <-!app_assoc].
    rewrite (proj2 (owned_hex_spec h) Hh). cbn [negb].
    assert (E2 : split_once (bstr ".") (kind ++ bstr "." ++ i) = Some (kind, i))
      by by apply (split_once_app DOT []).
    rewrite E2.
    rewrite (proj2 (owned_hex_spec i) Hi), andb_true_r. apply orb_true_iff.
    destruct Hk as [-> | ->]; [by left|by right].
Qed.

(** A name without lone surrogates is its lossy rendering. *)
Lemma lossy_ascii s : forallb is_ascii (to_string_lossy s) = true -> to_string_lossy s = s.
Proof.
  induction s as [|b0 s1 IH]; [done|]. cbn [to_string_lossy].
  destruct s1 as [|b1 [|b2 s3]]; cbn [forallb].
  - intros [_ H]%andb_prop. by rewrite IH.
  - intros [_ H]%andb_prop. by rewrite IH.
  - destruct (_ && _)%bool; [done|]. cbn [forallb]. intros [_ H]%andb_prop. by rewrite IH.
Qed.

Lemma ascii_lossy s : forallb is_ascii s = true -> to_string_lossy s = s.
Proof.
  induction s as [|b0 s1 IH]; [done|]. cbn [forallb]. intros [Hb Hs]%andb_prop. cbn [to_string_lossy].
  unfold is_ascii in Hb. destruct s1 as [|b1 [|b2 s3]]; [done|by rewrite IH|].
  replace (byte_val b0 =? 237) with false; [cbn [andb]; by rewrite IH|].
  symmetry. apply N.eqb_neq. apply N.leb_le in Hb. lia.
Qed.

Lemma marker_bytes marker : staging_marker marker -> forallb store_byte marker = true.
Proof. by intros [-> | ->]. Qed.

Lemma store_name_ascii n : forallb store_byte n = true -> forallb is_ascii n = true.
Proof. rewrite !forallb_forall. intros H b Hb. by apply store_byte_spec, H. Qed.

(** ** Listing *)

Lemma child_name_join d n :
  plain_win_dir d -> n <> [] -> forallb store_byte n = true -> child_name d (win_join d n) = Some n.
Proof.
  intros Hd Hne Hb. unfold child_name. rewrite !win_join_plain by done.
  replace (d ++ BACKSLASH :: n) with ((d ++ [BACKSLASH]) ++ n) by by rewrite <-app_assoc.
  rewrite (proj2 (starts_with_spec _ _)) by by eexists. rewrite drop_app_length.
  rewrite bool_decide_eq_false_2 by done. replace (existsb is_win_sep n) with false; [done|].
  symmetry. apply not_true_is_false. intros (b & Hin & Hsep)%existsb_exists.
  rewrite forallb_forall in Hb. destruct (store_byte_spec b (Hb b Hin)) as [E _]. congruence.
Qed.

(** ** Removing *)

Section Cleanup.
Context {Tgt : Target} {Api : WindowsApi} {ApiL : WindowsApiLaws} {Lst : DirectoryListing}.
Context (c : StoreConfig) (minimum_age : Duration) (now : Z) (fs0 : FsMap).
Context (Hc : windows_store c).

Lemma owned_resolved n :
  is_owned_temporary_filename n (filename_suffix (format c)) = true ->
  store_name n /\ file_of (wide_path (win_join (namespace c) n)) = win_join (namespace c) n.
Proof.
  intros H. apply owned_name_spec in H as (h & marker & i & Hh & Hi & Hm & ->); [|apply Hc].
  assert (Hn : store_name (staging_name h (filename_suffix (format c)) marker i))
    by (apply marked_store_name; auto using marker_bytes).
  split; [done|by apply Hc].
Qed.

(** An owned regular file, last written [minimum_age] ago or earlier. *)
Definition stale_name (n : bytes) : Prop :=
  is_owned_temporary_filename n (filename_suffix (format c)) = true /\
  exists content t, fs0 !! win_join (namespace c) n = Some (Regular content (Some t)) /\
    (Z.of_N minimum_age <= now - t)%Z.

(** Stale files are gone, and nothing else is different. *)
Definition cleaned (fs : FsMap) : Prop :=
  forall p, fs !! p = fs0 !! p \/
    fs !! p = None /\ exists n, stale_name n /\ p = win_join (namespace c) n.

Lemma old_enough_spec modified :
  old_enough now modified minimum_age = true <->
  exists t, modified = Some t /\ (Z.of_N minimum_age <= now - t)%Z.
Proof.
  unfold old_enough. destruct modified as [t|]; [|split; [done|by intros (? & ? & _)]].
  rewrite andb_true_iff, Z.leb_le, N.leb_le. split.
  - intros [H1 H2]. exists t. split; [done|lia].
  - intros (? & [= <-] & H). lia.
Qed.

(** What a report may say when the files are as in [fs]. *)
Record report_true (report : CleanupReport) (fs : FsMap) : Prop := {
  removed_true n : n ∈ removed report ->
    stale_name n /\ fs !! win_join (namespace c) n = None;
  skipped_true n : n ∈ skipped report ->
    is_owned_temporary_filename n (filename_suffix (format c)) = true /\
    exists content modified, fs0 !! win_join (namespace c) n = Some (Regular content modified) /\
      old_enough now modified minimum_age = false;
}.

(** The name under which an entry is accounted for. *)
Definition accounted (entry : result bytes io_error) : option bytes :=
  match entry with
  | Err _ => Some (bstr "<directory-entry>")
  | Ok n =>
      if is_owned_temporary_filename (to_string_lossy n) (filename_suffix (format c))
      then Some (to_string_lossy n) else None
  end.

Definition report_names (report : CleanupReport) : list bytes :=
  removed report ++ skipped report ++ map failure_identifier (failures report).

Lemma cleaned_known p n :
  cleaned p -> p !! win_join (namespace c) n <> None ->
  p !! win_join (namespace c) n = fs0 !! win_join (namespace c) n.
Proof. intros H Hn. by destruct (H (win_join (namespace c) n)) as [?|[? _]]. Qed.

Lemma report_step report fs fs' :
  report_true report fs -> (forall p, fs !! p = None -> fs' !! p = None) -> report_true report fs'.
Proof.
  intros [H1 H2] Hs. split; [|done]. intros n Hn. destruct (H1 n Hn) as [? ?]. auto.
Qed.

Lemma lossy_owned n :
  is_owned_temporary_filename (to_string_lossy n) (filename_suffix (format c)) = true ->
  to_string_lossy n = n.
Proof.
  intros H. apply lossy_ascii, store_name_ascii. by destruct (owned_resolved _ H) as [[_ ?] _].
Qed.

Lemma metadata_run p (w : World) :
  let (r, w') := fs_symlink_metadata p w in
  unchanged w w' /\ forall n, r = Ok n -> w_fs w !! p = Some n.
Proof.
  pose proof (symlink_metadata_passes (fun fs => fs = w_fs w) w eq_refl p) as H.
  destruct (fs_symlink_metadata p w) as [r w'] eqn:E. split; [done|]. intros n ->.
  apply syscall_ok in E as [E _]. cbn in E. by destruct (w_fs w !! p); simplify_eq/=.
Qed.

Lemma cleanup_entry_run entry report (w : World) :
  cleaned (w_fs w) -> report_true report (w_fs w) ->
  let (report', w') := cleanup_entry c minimum_age now entry report w in
  passes cleaned w w' /\ report_true report' (w_fs w') /\
  report_names report' ≡ₚ report_names report ++ option_list (accounted entry).
Proof.
  intros Hcl Hrep. assert (Hid : passes cleaned w w) by by apply passes_refl.
  destruct entry as [n|source]; cbn [cleanup_entry accounted option_list].
  2:{ split_and!; [done|by destruct Hrep|]. unfold report_names. simpl. rewrite map_app. solve_Permutation. }
  destruct (is_owned_temporary_filename (to_string_lossy n) _) eqn:Ho; cbn [negb option_list].
  2:{ split_and!; [done..|]. by rewrite app_nil_r. }
  pose proof (lossy_owned n Ho) as El. rewrite El in *. destruct (owned_resolved n Ho) as [_ Hp].
  set (p := win_join (namespace c) n) in *. pose proof (metadata_run p w) as Hm.
  destruct (fs_symlink_metadata p w) as [r w1]. destruct Hm as [Hu Hm].
  pose proof (unchanged_fs _ _ Hu) as Hf1.
  assert (Hp1 : passes cleaned w w1) by (eapply passes_mono, Hu; by intros fs ->).
  assert (Hfail : forall e w2, passes cleaned w w2 -> w_fs w2 = w_fs w ->
    passes cleaned w w2 /\ report_true (add_failure n e report) (w_fs w2) /\
    report_names (add_failure n e report) ≡ₚ report_names report ++ [n]).
  { intros e w2 H2 Hf2. split_and!; [done|rewrite Hf2; by destruct Hrep|].
    unfold report_names. simpl. rewrite map_app. solve_Permutation. }
  destruct r as [[content modified| | |]|e]; try by apply Hfail.
  specialize (Hm _ eq_refl). assert (Hk : fs0 !! p = Some (Regular content modified))
    by (rewrite <-Hm; symmetry; apply (cleaned_known (w_fs w) n Hcl); fold p; by rewrite Hm).
  destruct (old_enough now modified minimum_age) eqn:Hold; cbn [negb].
  2:{ split_and!; [done| |unfold report_names; simpl; solve_Permutation].
      rewrite Hf1. destruct Hrep as [H1 H2]. split; [done|]. cbn. intros m [Hm'| ->%list_elem_of_singleton]%elem_of_app;
        [by apply H2|]. split; [done|]. by exists content, modified. }
  apply old_enough_spec in Hold as (t & -> & Ht). assert (Hst : stale_name n) by (split; [done|by exists content, t]).
  unfold delete_file. pose proof (delete_spec (wide_path p) w1) as Hd. rewrite Hp, Hf1 in Hd.
  destruct (DeleteFileW _ w1) as [[[]|e] w2].
  2:{ assert (Hu2 : unchanged w w2) by by eapply passes_trans.
      apply Hfail; [eapply passes_mono, Hu2; by intros fs ->|by apply unchanged_fs]. }
  destruct Hd as (_ & Hf2 & Hp2).
  assert (Hcl2 : cleaned (delete p (w_fs w))).
  { intros q. destruct (decide (q = p)) as [->|Hne]; [right; rewrite lookup_delete_eq; split; [done|by exists n]|].
    rewrite lookup_delete_ne by done. apply Hcl. }
  split_and!; [|rewrite Hf2|unfold report_names; simpl; solve_Permutation].
  - eapply passes_trans; [exact Hp1|]. eapply passes_mono, Hp2. rewrite Hf2. by intros fs [->| ->].
  - apply (report_step _ _ (delete p (w_fs w))) in Hrep as [H1 H2];
      [|intros q Hq; apply lookup_delete_None; by right].
    split; [|done]. cbn. intros m [Hm'| ->%list_elem_of_singleton]%elem_of_app; [by apply H1|].
    split; [done|apply lookup_delete_eq].
Qed.

Lemma cleanup_entries_run entries report (w : World) :
  cleaned (w_fs w) -> report_true report (w_fs w) ->
  let (report', w') := cleanup_entries c minimum_age now entries report w in
  passes cleaned w w' /\ report_true report' (w_fs w') /\
  report_names report' ≡ₚ report_names report ++ omap accounted entries.
Proof.
  revert report w; induction entries as [|entry entries IH]; intros report w Hcl Hrep; cbn [cleanup_entries].
  - split_and!; [by apply passes_refl|done|]. by rewrite app_nil_r.
  - pose proof (cleanup_entry_run entry report w Hcl Hrep) as H1.
    destruct (cleanup_entry _ _ _ _ _ _) as [report1 w1]. destruct H1 as (Hp1 & Hr1 & Hn1).
    specialize (IH report1 w1 (passes_last _ _ _ Hp1) Hr1).
    destruct (cleanup_entries _ _ _ _ _ _) as [report2 w2]. destruct IH as (Hp2 & Hr2 & Hn2).
    split_and!; [by eapply passes_trans|done|]. rewrite Hn2, Hn1, <-app_assoc.
    change (omap accounted (entry :: entries)) with
      (match accounted entry with Some y => y :: omap accounted entries | None => omap accounted entries end).
    by destruct (accounted entry).
Qed.

Lemma cleanup_run (w : World) :
  w_fs w = fs0 -> w_now w = now ->
  let (r, w') := windows_cleanup_stale_files c minimum_age w in
  passes cleaned w w' /\
  match r with
  | Ok report => report_true report (w_fs w') /\
      report_names report ≡ₚ omap accounted (listing (directory_names fs0 (namespace c)))
  | Err e => unchanged w w' /\ exists source, e = Io EnumerateTemporaryFiles source
  end.
Proof.
  intros Hfs Hnow. unfold windows_cleanup_stale_files, io_op, eff_map_err, fs_read_dir.
  set (op := fun fs : FsMap => _). assert (Hop : forall fs, snd (op fs) = fs)
    by (intros fs; unfold op; by destruct (resolve _ fs _) as [[]|]).
  pose proof (syscall_passes (SysReadDir (namespace c)) op w (fun fs => fs = w_fs w) eq_refl (Hop _)) as Hu.
  assert (Hid : cleaned fs0) by (intros p; by left).
  assert (Hp1 : passes cleaned w (snd (syscall (SysReadDir (namespace c)) op w)))
    by (eapply passes_mono, Hu; by intros fs ->; rewrite Hfs).
  destruct (syscall _ op w) as [[entries|e] w1] eqn:E; cbn [map_err snd] in *.
  2:{ split_and!; [done|done|by eexists]. }
  apply syscall_ok in E as [E _]. rewrite Hfs in E.
  assert (He : entries = listing (directory_names fs0 (namespace c)))
    by (unfold op in E; by destruct (resolve _ fs0 _) as [[]|]; simplify_eq/=).
  assert (Hr0 : report_true CleanupReport_default (w_fs w1)) by (split; simpl; by intros n ?%elem_of_nil).
  pose proof (cleanup_entries_run entries CleanupReport_default w1 (passes_last _ _ _ Hp1) Hr0) as H.
  rewrite Hnow. destruct (cleanup_entries _ _ _ _ _ _) as [report w2]. destruct H as (Hp2 & Hr & Hn).
  split_and!; [by eapply passes_trans|done|]. by rewrite <-He.
Qed.

(** A report without failures missed no file. *)
Lemma cleanup_complete {LstL : DirectoryListingLaws} (w : World) report n :
  w_fs w = fs0 -> w_now w = now ->
  fst (windows_cleanup_stale_files c minimum_age w) = Ok report -> failures report = [] ->
  is_owned_temporary_filename n (filename_suffix (format c)) = true ->
  fs0 !! win_join (namespace c) n <> None ->
  n ∈ removed report \/ n ∈ skipped report.
Proof.
  intros Hfs Hnow Hr Hno Ho Hex. pose proof (cleanup_run w Hfs Hnow) as H.
  destruct (windows_cleanup_stale_files c minimum_age w) as [r w']. cbn in Hr. subst r.
  destruct H as (_ & Hr & Hn). unfold report_names in Hn. rewrite Hno, app_nil_r in Hn.
  assert (Hdir : n ∈ directory_names fs0 (namespace c)).
  { destruct (owned_resolved n Ho) as [[Hne Hb] _]. destruct (fs0 !! _) as [nd|] eqn:E; [|done].
    apply list_elem_of_omap. exists (win_join (namespace c) n, nd). split; [by apply elem_of_map_to_list|].
    apply child_name_join; [apply Hc|done|done]. }
  assert (Hnoerr : forall e, Err e ∉ listing (directory_names fs0 (namespace c))).
  { intros e He. assert (Hin : bstr "<directory-entry>" ∈ removed report ++ skipped report).
    { rewrite Hn. apply list_elem_of_omap. by exists (Err e). }
    assert (Howned : is_owned_temporary_filename (bstr "<directory-entry>") (filename_suffix (format c)) = true)
      by (apply elem_of_app in Hin as [Hin|Hin]; [by destruct (removed_true _ _ Hr _ Hin) as [[? _] _]
        |by destruct (skipped_true _ _ Hr _ Hin)]).
    apply owned_resolved in Howned as [[_ Hb] _]. by vm_compute in Hb. }
  apply elem_of_app. rewrite Hn. apply list_elem_of_omap. exists (Ok n).
  split; [by apply (listing_complete (DirectoryListingLaws := LstL))|]. cbn [accounted].
  assert (El : to_string_lossy n = n)
    by (apply ascii_lossy, store_name_ascii; by destruct (owned_resolved n Ho) as [[_ ?] _]).
  by rewrite El, Ho.
Qed.

End Cleanup.
