(* ===== verification/ReferenceWindows.v ===== *)
(** * A concrete instance of the Windows calls

    The calls over the model of the filesystem, with the errors of Windows, and a
    directory listing without failures.  They satisfy the laws that the theorems
    assume, and the witnesses run on them. *)
From S2P Require Export WindowsPaths WindowsCleanup BackendTheorems.

Local Open Scope N_scope.
Local Open Scope blob_scope.

Definition ERROR_PATH_NOT_FOUND : io_error := IoError NotFound (Some 3%Z).
Definition ERROR_FILE_NOT_FOUND : io_error := IoError NotFound (Some 2%Z).
Definition ERROR_ACCESS_DENIED : io_error := IoError PermissionDenied (Some 5%Z).
Definition EXISTS (code : Z) : io_error := IoError AlreadyExists (Some code).

(** The entry behind [\\?\] and a NUL-terminated name. *)
Definition reference_file_of (name : list N) : Path := map byte_of (removelast (drop 4 name)).

Definition reference_create (name : list N) (access share disposition flags : N)
    : eff World io_error Handle := fun w =>
  let p := reference_file_of name in
  syscall (SysOpen p) (fun fs =>
    match fs !! p with
    | Some _ => if (disposition =? CREATE_NEW) then (Err (EXISTS 80), fs)
                else (Ok {| h_file := p; h_plan := [] |}, fs)
    | None =>
        if (disposition =? CREATE_NEW) then
          match fs !! win_parent p with
          | Some Directory => (Ok {| h_file := p; h_plan := [] |}, <[p := Regular [] (Some (w_now w))]> fs)
          | _ => (Err ERROR_PATH_NOT_FOUND, fs)
          end
        else (Err ERROR_FILE_NOT_FOUND, fs)
    end) w.

Definition reference_move (source destination : list N) (flags : N) : eff World io_error unit :=
  let src := reference_file_of source in
  let dst := reference_file_of destination in
  syscall (SysRename src dst) (fun fs =>
    match fs !! src, fs !! dst with
    | None, _ => (Err ERROR_FILE_NOT_FOUND, fs)
    | Some n, Some _ =>
        if (N.land flags MOVEFILE_REPLACE_EXISTING =? 0) then (Err (EXISTS 183), fs)
        else (Ok tt, <[dst := n]> (delete src fs))
    | Some n, None =>
        match fs !! win_parent dst with
        | None => (Err ERROR_PATH_NOT_FOUND, fs)
        | Some _ => (Ok tt, <[dst := n]> (delete src fs))
        end
    end).

Definition reference_delete (name : list N) : eff World io_error unit :=
  let p := reference_file_of name in
  syscall (SysRemoveFile p) (fun fs =>
    match fs !! p with
    | None => (Err ERROR_FILE_NOT_FOUND, fs)
    | Some Directory => (Err ERROR_ACCESS_DENIED, fs)
    | Some _ => (Ok tt, delete p fs)
    end).

#[export] Instance reference_windows : WindowsApi := {
  file_of := reference_file_of;
  CreateFileW := reference_create;
  FlushFileBuffers h := syscall (SysSync (h_file h)) (fun fs => (Ok tt, fs));
  SetFileTime h low high :=
    syscall (SysSetTimes (h_file h)) (fun fs => (Ok tt, retime (h_file h) (file_time_ns low high) fs));
  MoveFileExW := reference_move;
  DeleteFileW := reference_delete;
}.

#[export] Instance reference_listing : DirectoryListing := { listing := map Ok }.

#[export] Instance reference_absolute : AbsolutePath := { path_absolute p w := (Ok p, w) }.

(** A call whose failures change nothing. *)
Lemma syscall_case {A : Type} (c : Syscall) (op : FsMap -> result A io_error * FsMap) (w : World) :
  (forall e, fst (op (w_fs w)) = Err e -> snd (op (w_fs w)) = w_fs w) ->
  w_entropy_used (snd (syscall c op w)) = w_entropy_used w /\
  match syscall c op w with
  | (Ok a, w') => fst (op (w_fs w)) = Ok a /\ w_fs w' = snd (op (w_fs w)) /\
      w_log w' = (c, w_fs w') :: w_log w /\ passes (fun fs => fs = w_fs w \/ fs = w_fs w') w w'
  | (Err e, w') => unchanged w w' /\ (honest w -> honest_error e = true \/ fst (op (w_fs w)) = Err e)
  end.
Proof.
  intros Hop. split.
  { unfold syscall. destruct (w_faults w) as [|[]]; [|done|]; by destruct (op _). }
  pose proof (syscall_passes c op w (fun fs => fs = w_fs w \/ fs = snd (op (w_fs w)))
    (or_introl eq_refl) (or_intror eq_refl)) as Hp.
  destruct (syscall c op w) as [[a|e] w'] eqn:E.
  - apply syscall_ok in E as (E & Hf & Hl). rewrite Hf. rewrite Hf in Hl. done.
  - split; [|intros Hh; by apply (syscall_err c op w e w')].
    assert (E' : w' = snd (syscall c (fun fs => (Err e : result A io_error, fs)) w)).
    { unfold syscall in *. destruct (w_faults w) as [|[]]; simplify_eq/=; try done.
      all: specialize (Hop e); destruct (op (w_fs w)); simplify_eq/=; by rewrite Hop. }
    rewrite E'. by apply syscall_passes.
Qed.

Lemma reference_create_case name access share disposition flags (w : World) :
  let p := reference_file_of name in
  w_entropy_used (snd (reference_create name access share disposition flags w)) = w_entropy_used w /\
  match reference_create name access share disposition flags w with
  | (Ok h, w') => h = {| h_file := p; h_plan := [] |} /\
      if (disposition =? CREATE_NEW)
      then w_fs w !! p = None /\ w_fs w' = <[p := Regular [] (Some (w_now w))]> (w_fs w) /\
           passes (fun fs => fs = w_fs w \/ fs = w_fs w') w w'
      else w_fs w !! p <> None /\ unchanged w w'
  | (Err e, w') => unchanged w w' /\
      (honest w -> kind e = AlreadyExists -> w_fs w !! p <> None) /\
      (honest w -> kind e = NotFound -> (disposition =? CREATE_NEW) = false -> w_fs w !! p = None)
  end.
Proof.
  cbv zeta. unfold reference_create. set (p := reference_file_of name).
  set (op := fun fs : FsMap => _).
  destruct (syscall_case (SysOpen p) op w) as [He H].
  { intros e. unfold op. destruct (w_fs w !! p), (disposition =? CREATE_NEW); try done.
    by destruct (w_fs w !! win_parent p) as [[]|]. }
  split; [exact He|]. destruct (syscall (SysOpen p) op w) as [[h|e] w'].
  - destruct H as (Hr & Hf & _ & Hp). unfold op in Hr, Hf.
    destruct (w_fs w !! p) eqn:Ep, (disposition =? CREATE_NEW); try done;
      [|destruct (w_fs w !! win_parent p) as [[]|]; try done]; simplify_eq/=; (split; [done|]).
    + split; [done|]. eapply passes_mono, Hp. rewrite Hf. by intros fs [|].
    + done.
  - destruct H as [Hu Hh]. split_and!; [done| |].
    all: intros Hhon Hk; destruct (Hh Hhon) as [Hx|Hx]; [by destruct (honest_error_kind e Hx)|].
    all: unfold op in Hx; destruct (w_fs w !! p), (disposition =? CREATE_NEW); try done; simplify_eq/=; try done.
    by destruct (w_fs w !! win_parent p) as [[]|]; simplify_eq/=.
Qed.

Lemma reference_move_case src dst flags (w : World) :
  w_entropy_used (snd (reference_move src dst flags w)) = w_entropy_used w /\
  match reference_move src dst flags w with
  | (Ok _, w') => exists n, w_fs w !! reference_file_of src = Some n /\
      (N.land flags MOVEFILE_REPLACE_EXISTING = 0 -> w_fs w !! reference_file_of dst = None) /\
      w_fs w' = <[reference_file_of dst := n]> (delete (reference_file_of src) (w_fs w)) /\
      passes (fun fs => fs = w_fs w \/ fs = w_fs w') w w'
  | (Err e, w') => unchanged w w' /\
      (honest w -> kind e = AlreadyExists -> w_fs w !! reference_file_of dst <> None) /\
      (honest w -> kind e = NotFound -> w_fs w !! reference_file_of src = None \/
         w_fs w !! win_parent (reference_file_of dst) = None)
  end.
Proof.
  unfold reference_move. set (s := reference_file_of src). set (d := reference_file_of dst).
  set (op := fun fs : FsMap => _).
  destruct (syscall_case (SysRename s d) op w) as [He H].
  { intros e. unfold op. destruct (w_fs w !! s), (w_fs w !! d), (w_fs w !! win_parent d); try done;
      by destruct (_ =? 0). }
  split; [exact He|]. destruct (syscall _ op w) as [[[]|e] w'].
  - destruct H as (Hr & Hf & _ & Hp). unfold op in Hr, Hf.
    destruct (w_fs w !! s) as [n|] eqn:Es; [|done]. exists n. split; [done|].
    destruct (w_fs w !! d) eqn:Ed; [destruct (N.eqb_spec (N.land flags MOVEFILE_REPLACE_EXISTING) 0); by split|].
    by destruct (w_fs w !! win_parent d).
  - destruct H as [Hu Hh]. split_and!; [done| |].
    all: intros Hhon Hk; destruct (Hh Hhon) as [Hx|Hx]; [by destruct (honest_error_kind e Hx)|].
    all: unfold op in Hx; destruct (w_fs w !! s), (w_fs w !! d), (w_fs w !! win_parent d); try done;
      try destruct (_ =? 0); simplify_eq/=; auto.
Qed.

Lemma reference_delete_case name (w : World) :
  match reference_delete name w with
  | (Ok _, w') => w_fs w !! reference_file_of name <> None /\
      w_fs w' = delete (reference_file_of name) (w_fs w) /\
      passes (fun fs => fs = w_fs w \/ fs = w_fs w') w w'
  | (Err e, w') => unchanged w w'
  end.
Proof.
  unfold reference_delete. set (p := reference_file_of name). set (op := fun fs : FsMap => _).
  destruct (syscall_case (SysRemoveFile p) op w) as [_ H].
  { intros e. unfold op. by destruct (w_fs w !! p) as [[]|]. }
  destruct (syscall _ op w) as [[[]|e] w']; [|apply H]. destruct H as (Hr & Hf & _ & Hp).
  unfold op in Hr, Hf. by destruct (w_fs w !! p) as [[]|].
Qed.

#[export] Instance reference_windows_laws : WindowsApiLaws.
Proof.
  split; cbn [file_of CreateFileW FlushFileBuffers SetFileTime MoveFileExW DeleteFileW reference_windows].
  - intros name access share flags w.
    destruct (reference_create_case name access share CREATE_NEW flags w) as [_ H].
    destruct (reference_create _ _ _ _ _ w) as [[h|e] w'].
    + destruct H as (-> & Hn & Hf & Hp). split_and!; [done|done|by apply Forall_nil|]. by eexists.
    + destruct H as (Hu & H & _). by split.
  - intros name access share flags w.
    destruct (reference_create_case name access share OPEN_EXISTING flags w) as [_ H].
    destruct (reference_create _ _ _ _ _ w) as [[h|e] w'].
    + by destruct H as (-> & Hn & Hu).
    + destruct H as (Hu & _ & H). split; [done|]. intros. left. by apply H.
  - intros h w. destruct (syscall_case (SysSync (h_file h)) (fun fs => (Ok tt, fs)) w) as [_ H]; [done|].
    destruct (syscall _ _ w) as [[[]|e] w'].
    + destruct H as (_ & Hf & Hl & Hp). cbn in Hf. split; [|by exists (w_log w)].
      eapply passes_mono, Hp. rewrite Hf. by intros fs [|].
    + destruct H as [Hu Hh]. split; [done|]. intros Hhon. by destruct (Hh Hhon).
  - intros h low high w.
    destruct (syscall_case (SysSetTimes (h_file h))
      (fun fs => (Ok tt, retime (h_file h) (file_time_ns low high) fs)) w) as [_ H]; [done|].
    destruct (syscall _ _ w) as [[[]|e] w'].
    + destruct H as (_ & Hf & _ & Hp). by split.
    + destruct H as [Hu Hh]. split; [done|]. intros Hhon. by destruct (Hh Hhon).
  - intros. apply reference_move_case.
  - intros. apply reference_delete_case.
  - intros w. split_and!; intros.
    + apply reference_create_case.
    + by apply syscall_case.
    + by apply syscall_case.
    + apply reference_move_case.
Qed.

#[export] Instance reference_absolute_laws : AbsolutePathLaws.
Proof. split. intros p w. by apply passes_refl. Qed.

#[export] Instance reference_listing_laws : DirectoryListingLaws.
Proof. split. intros ns n Hn _. by apply list_elem_of_fmap_2. Qed.

(** ** A store on the reference *)

Definition windows_config : StoreConfig :=
  {| namespace := bstr "C:\srv\cache"; format := fixture_format; maximum := 1024;
     config_max_concurrent_operations := 4 |}.

(** A path of a drive without slashes comes back from its wide form. *)
Lemma reference_resolves b d :
  forallb (fun x => is_ascii x && negb (bool_decide (x = SLASH))) (b :: d) = true -> b <> BACKSLASH ->
  reference_file_of (wide_path (b :: d)) = b :: d.
Proof.
  intros Hd Hb. unfold wide_path. rewrite encode_wide_text; unfold wide_text.
  2:{ rewrite !forallb_forall in *. intros x Hx. by destruct (andb_prop _ _ (Hd x Hx)). }
  assert (Hv : byte_val b <> SEPARATOR).
  { intros E. apply Hb. apply (f_equal byte_of) in E. rewrite byte_of_val in E. by rewrite E. }
  unfold wide_starts_with. cbn [map VERBATIM_PREFIX DEVICE_PREFIX length take].
  do 3 rewrite bool_decide_eq_false_2 by (intros [= E]; by apply Hv). cbn [orb].
  unfold reference_file_of. rewrite drop_app_length' by done. rewrite removelast_last.
  change (byte_val b :: map byte_val d) with (map byte_val (b :: d)). rewrite !map_map.
  rewrite <-(map_id (b :: d)) at 2. apply map_ext_in. intros x Hx. rewrite forallb_forall in Hd.
  destruct (andb_prop _ _ (Hd x Hx)) as [_ Hs]. reflect_bools.
  replace (byte_val x =? ALTERNATE_SEPARATOR) with false; [apply byte_of_val|].
  symmetry. apply N.eqb_neq. intros E. apply Hs. apply (f_equal byte_of) in E. by rewrite byte_of_val in E.
Qed.

Lemma windows_config_store : windows_store windows_config.
Proof.
  split_and!; [decided|by exists (bstr "C:\srv\cach"), Byte.x65|]. split.
  - apply reference_resolves; [done|done].
  - intros n [_ Hn]. change (win_join _ n) with (bstr "C:\srv\cache\" ++ n).
    apply (reference_resolves Byte.x43 (bstr ":\srv\cache\" ++ n)); [|done].
    change (Byte.x43 :: (bstr ":\srv\cache\" ++ n)) with (bstr "C:\srv\cache\" ++ n).
    rewrite forallb_app. apply andb_true_intro. split; [by vm_compute|].
    rewrite forallb_forall in *. intros x Hx. destruct (store_byte_spec x (Hn x Hx)) as [Hs ->].
    unfold is_win_sep in Hs. by apply orb_false_elim in Hs as [_ ->].
Qed.
