(* ===== verification/WindowsTheorems.v ===== *)
(** * The theorems on the Windows backend

    Each one with a witness that runs the backend on a concrete world. *)
From S2P Require Export ReferenceWindows WindowsPaths.

Local Open Scope N_scope.
Local Open Scope blob_scope.

Section Backend.
Context {Crc : Crc32c} {CrcL : Crc32cLaws} {Tgt : Target} {Api : WindowsApi} {ApiL : WindowsApiLaws}.

(** C20: a save on Windows is safe against a crash at every system call.  The
    filesystem is the old one, has one more file under a staging name that was
    free, or has the complete envelope as the file of the key and no staging file;
    [Ok] means that the last one holds and that the namespace was synced, and a
    load of the key then gives the payload; only a failed sync of the namespace
    reports an error for a published file. *)
Theorem windows_save_is_crash_safe fuel c h payload (w : World) :
  windows_store c -> hex_name h -> entropy_fills w -> honest w ->
  match windows_save_blob fuel c (win_file c h) payload w with
  | inl w' => unchanged w w'
  | inr (r, w') =>
      passes (save_states c h (envelope (format c) payload) (w_fs w)) w w' /\
      windows_save_outcome c h (envelope (format c) payload) (w_fs w) r w' /\
      (r = Ok tt -> forall w2, w_fs w2 = w_fs w' -> calm w2 -> fits_usize (maximum c) ->
         fst (load_blob c (win_file c h) w2) = Ok (Some payload))
  end.
Proof.
  intros Hc Hh He Hhon. destruct (windows_save_run fuel c h payload w Hc Hh He Hhon) as [H _].
  destruct (windows_save_blob _ _ _ _ _) as [w'|[r w']]; [done|]. destruct H as (H1 & H2 & H3).
  split_and!; [done..|]. intros -> w2 Hf Hw Hm. destruct H2 as [[t Ht] _].
  eapply windows_loaded; [done|done|by apply H3|done|by rewrite Hf].
Qed.

(** A streaming save on Windows publishes the stream or nothing.  At every
    system call the filesystem differs in staging names of the key at most, or
    the file of the key is the envelope of the announced bytes; whatever a failed
    run leaves, every other entry is as before. *)
Theorem windows_stream_save_is_crash_safe fuel c h declared msgs (w : World) :
  windows_store c -> hex_name h -> entropy_fills w -> honest w ->
  match windows_save_blob_from_receiver fuel c (win_file c h) declared msgs w with
  | inl (rest, w') => rest = msgs /\ unchanged w w'
  | inr ((r, _), w') =>
      passes (stream_states c h declared msgs (w_fs w)) w w' /\
      windows_stream_outcome c h declared msgs (w_fs w) r w'
  end.
Proof. intros Hc Hh He Hhon. by destruct (windows_stream_run fuel c h declared msgs w Hc Hh He Hhon). Qed.

(** C36: a clear on Windows is durable and can be stopped anywhere.  Apart from the
    last write of the file, the filesystem is the old one, has the file moved to
    a staging name that was free, or lacks it; [Ok] means that the file is gone
    and that the namespace was synced after it was, and an error tells which of
    the states is left. *)
Theorem windows_clear_is_durable fuel c h (w : World) :
  windows_store c -> hex_name h -> entropy_fills w -> honest w ->
  (forall t, w_fs w !! win_file c h <> Some (Symlink t)) ->
  match windows_clear_blob fuel c (win_file c h) w with
  | inl w' => passes (refreshed c h (w_now w) (w_fs w)) w w'
  | inr (r, w') =>
      passes (clearing c h (w_now w) (w_fs w)) w w' /\
      cleared c h (w_now w) (w_fs w) r w' /\
      (r = Ok tt -> w_fs w' = delete (win_file c h) (w_fs w))
  end.
Proof.
  intros Hc Hh He Hhon Hl. destruct (windows_clear_run fuel c h w Hc Hh He Hhon Hl) as [H _].
  destruct (windows_clear_blob _ _ _ _) as [w'|[r w']]; [done|]. destruct H as [H1 H2].
  split_and!; [done..|]. intros ->. destruct H2 as (fs1 & Hr & Hd & _). rewrite Hd. by eapply delete_refreshed.
Qed.

(** C37: a quarantine on Windows is one move to a fresh name.  At every system call
    the filesystem is the old one or has the file of the key under a name that
    was free; the result names the place whenever the file was moved, also when
    the namespace could not be synced, and any other error means that nothing
    changed. *)
Theorem windows_quarantine_is_atomic fuel c h (w : World) :
  windows_store c -> hex_name h -> entropy_fills w -> honest w ->
  match windows_quarantine_blob fuel c (win_file c h) w with
  | inl w' => unchanged w w'
  | inr (r, w') =>
      passes (windows_quarantine_states c h (w_fs w)) w w' /\
      windows_quarantine_outcome c h (w_fs w) r w'
  end.
Proof. intros Hc Hh He Hhon. by destruct (windows_quarantine_run fuel c h w Hc Hh He Hhon). Qed.

(** C38: the retries with random names end.  When the [k]-th name that the entropy
    source gives is free, or the source fails there, a save, a streaming save, a
    clear and a quarantine return after [k + 1] turns at most. *)
Theorem windows_retries_terminate k fuel c h (w : World) :
  windows_store c -> hex_name h -> entropy_fills w -> honest w -> (k < fuel)%nat ->
  (free_name id (win_staging c h SAVE_MARKER) (w_fs w) k w ->
     (forall payload, exists r, windows_save_blob fuel c (win_file c h) payload w = inr r) /\
     (forall declared msgs, exists r,
        windows_save_blob_from_receiver fuel c (win_file c h) declared msgs w = inr r)) /\
  (free_name id (win_staging c h CLEAR_MARKER) (w_fs w) k w ->
     (forall t, w_fs w !! win_file c h <> Some (Symlink t)) ->
     exists r, windows_clear_blob fuel c (win_file c h) w = inr r) /\
  (free_name id (win_quarantine c h) (w_fs w) k w ->
     exists r, windows_quarantine_blob fuel c (win_file c h) w = inr r).
Proof.
  intros Hc Hh He Hhon Hk. split_and!.
  - intros Hfree. split; intros.
    + by eapply windows_save_run.
    + by eapply windows_stream_run.
  - intros Hfree Hl. by eapply windows_clear_run.
  - intros Hfree. by eapply windows_quarantine_run.
Qed.

(** C35: a cleanup removes stale staging files and accounts for every one.  At
    every system call the missing entries are owned regular files, last written
    the minimal age ago or earlier, and nothing else differs; the report lists
    every owned name of the directory listing and every failed entry exactly
    once, what it calls removed is gone, what it calls skipped is too young, and
    without a failure no owned name is missing; an error means that nothing
    changed. *)
Theorem windows_cleanup_removes_stale_files {Lst : DirectoryListing} {LstL : DirectoryListingLaws}
    c minimum_age (w : World) :
  windows_store c ->
  let (r, w') := windows_cleanup_stale_files c minimum_age w in
  passes (cleaned c minimum_age (w_now w) (w_fs w)) w w' /\
  match r with
  | Ok report =>
      report_true c minimum_age (w_now w) (w_fs w) report (w_fs w') /\
      report_names report ≡ₚ omap (accounted c) (listing (directory_names (w_fs w) (namespace c))) /\
      (failures report = [] -> forall n,
         is_owned_temporary_filename n (filename_suffix (format c)) = true ->
         w_fs w !! win_join (namespace c) n <> None -> n ∈ removed report \/ n ∈ skipped report)
  | Err e => unchanged w w' /\ exists source, e = Io EnumerateTemporaryFiles source
  end.
Proof.
  intros Hc. pose proof (cleanup_run c minimum_age (w_now w) (w_fs w) Hc w eq_refl eq_refl) as H.
  pose proof (cleanup_complete c minimum_age (w_now w) (w_fs w) Hc w) as Hall.
  destruct (windows_cleanup_stale_files c minimum_age w) as [[report|e] w']; [|done].
  destruct H as (H1 & H2 & H3). split_and!; [done..|]. intros Hno n Ho Hex. by apply Hall.
Qed.

Lemma win_create_dir_run p (w : World) :
  match win_create_dir p w with
  | (Ok _, w') => w_fs w !! p = None /\ w_fs w' = <[p := Directory]> (w_fs w) /\
      passes (fun fs => fs = w_fs w \/ fs = w_fs w') w w'
  | (Err _, w') => unchanged w w'
  end.
Proof.
  unfold win_create_dir. set (op := fun fs : FsMap => _).
  destruct (syscall_case (SysCreateDir p) op w) as [_ H].
  { intros e. unfold op. destruct (w_fs w !! p); [done|]. by destruct (resolve _ _ _) as [[]|]. }
  destruct (syscall _ op w) as [[[]|e] w']; [|apply H]. destruct H as (Hr & Hf & _ & Hp).
  unfold op in Hr, Hf. destruct (w_fs w !! p); [done|]. by destruct (resolve _ _ _) as [[]|].
Qed.

Lemma metadata_ok p (w : World) n w' :
  fs_metadata p w = (Ok n, w') -> resolve SYMLINK_MAX (w_fs w) p = Ok n.
Proof. intros E. by apply syscall_ok in E as [E _]. Qed.

(** Opening on Windows.  An opened store has its namespace, a directory, directly
    below the absolute root, which is one as well; the only change ever made is
    that directory, when there was nothing. *)
Theorem windows_opened_store {Abs : AbsolutePath} {AbsL : AbsolutePathLaws}
    root component f max n (w : World) r w' :
  windows_initialize_platform root component f max n w = (r, w') ->
  passes (fun fs => fs = w_fs w \/ exists root', fst (path_absolute root w) = Ok root' /\
    w_fs w !! win_join root' component = None /\
    fs = <[win_join root' component := Directory]> (w_fs w)) w w' /\
  forall c, r = Ok c ->
    format c = f /\ maximum c = max /\ config_max_concurrent_operations c = n /\
    resolve SYMLINK_MAX (w_fs w') (namespace c) = Ok Directory /\
    exists root', fst (path_absolute root w) = Ok root' /\ namespace c = win_join root' component /\
      resolve SYMLINK_MAX (w_fs w) root' = Ok Directory.
Proof.
  set (P := fun fs : FsMap => _). intros E. unfold windows_initialize_platform, bind, io_op, eff_map_err in E.
  pose proof (path_absolute_unchanged root w) as Hu.
  destruct (path_absolute root w) as [[root'|e] w1] eqn:Ea; cbn [map_err fst snd] in *.
  2:{ injection E as <- <-. split; [|done]. eapply passes_mono, Hu. intros fs ->. by left. }
  pose proof (metadata_passes (fun fs => fs = w_fs w) w1 (passes_last _ _ _ Hu) root') as Hu2.
  apply (passes_trans _ _ _ _ Hu) in Hu2. unfold bind_result in E.
  assert (Hsame : forall w3, passes (fun fs => fs = w_fs w) w w3 -> passes P w w3)
    by (intros w3; apply passes_mono; intros fs ->; by left).
  destruct (fs_metadata root' w1) as [[m|e] w2] eqn:Em; cbn [snd] in Hu2.
  2:{ destruct (decide (kind e = NotFound)); injection E as <- <-; split; try done; by apply Hsame. }
  apply metadata_ok in Em. rewrite (passes_last _ _ _ Hu) in Em.
  destruct m; try (injection E as <- <-; split; [by apply Hsame|done]).
  cbn [is_dir negb] in E. pose proof (passes_last _ _ _ Hu2) as Hf2. cbn beta in Hf2.
  pose proof (win_create_dir_run (win_join root' component) w2) as Hc.
  destruct (win_create_dir _ w2) as [[[]|e] w3]; cbn in E.
  - injection E as <- <-. destruct Hc as (Hn & Hf3 & Hp3). rewrite Hf2 in Hn, Hf3, Hp3. split.
    + eapply passes_trans; [by apply Hsame|]. eapply passes_mono, Hp3. rewrite Hf3.
      intros fs [->| ->]; [by left|right; by exists root'].
    + intros c [= <-]. cbn. split_and!; try done; [|by exists root'].
      rewrite Hf3. apply resolve_plain; [apply lookup_insert_eq|done].
  - rewrite Hf2 in Hc. apply (passes_trans _ _ _ _ Hu2) in Hc.
    destruct (decide (kind e = AlreadyExists)); [|injection E as <- <-; split; [by apply Hsame|done]].
    pose proof (metadata_passes (fun fs => fs = w_fs w) w3 (passes_last _ _ _ Hc) (win_join root' component)) as Hu4.
    apply (passes_trans _ _ _ _ Hc) in Hu4.
    destruct (fs_metadata (win_join root' component) w3) as [[m|e2] w4] eqn:Em4; cbn in E, Hu4.
    2:{ injection E as <- <-. split; [by apply Hsame|done]. }
    apply metadata_ok in Em4. rewrite (passes_last _ _ _ Hc) in Em4.
    destruct m; injection E as <- <-; (split; [by apply Hsame|]); try done.
    intros c [= <-]. cbn. split_and!; try done; [|by exists root']. by rewrite (passes_last _ _ _ Hu4).
Qed.

End Backend.

(** The names that a cleanup takes for its own are exactly the names under
    which saves and clears stage their files, in the format of the store; the
    canonical files and the quarantined files of any key are not among them. *)
Theorem owned_names_are_staging_names (f : BlobFormatIdentity) name :
  valid_format f ->
  (is_owned_temporary_filename name (filename_suffix f) = true <->
     exists h marker i, hex_name h /\ hex_name i /\ (marker = SAVE_MARKER \/ marker = CLEAR_MARKER) /\
       name = staging_name h (filename_suffix f) marker i) /\
  (forall h i, hex_name h -> hex_name i ->
     is_owned_temporary_filename (h ++ filename_suffix f) (filename_suffix f) = false /\
     is_owned_temporary_filename (quarantine_name h (filename_suffix f) i) (filename_suffix f) = false).
Proof.
  intros (_ & Hs & _). split; [by apply owned_name_spec|]. intros h i [Hh _] [Hi _].
  split; apply not_true_is_false; intros E;
    apply owned_name_spec in E as (h' & marker & i' & [Hh' _] & [Hi' _] & Hm & E); try done;
    apply (f_equal length) in E; unfold staging_name, quarantine_name in E;
    rewrite !length_app in E; destruct Hm as [-> | ->]; simpl in E; lia.
Qed.

(** C39: the time of a refreshed file fits its eight bytes.  The ticks since 1601
    are computed without overflow; exactly a clock before 1970 or past the last
    representable tick is an error; the two halves of the [FILETIME] are 32-bit
    numbers and stand for the time of the clock, rounded down to 100 ns. *)
Theorem file_time_fits now :
  match file_time_ticks now with
  | Ok ticks =>
      (0 <= now)%Z /\ ticks = Z.to_N now / 100 + WINDOWS_EPOCH_OFFSET_100NS /\ ticks <= U64_MAX /\
      let (low, high) := file_time ticks in
      low <= U32_MAX /\ high <= U32_MAX /\ (file_time_ns low high <= now < file_time_ns low high + 100)%Z
  | Err e => e = io_other /\
      ((now < 0)%Z \/ U64_MAX < Z.to_N now / 100 + WINDOWS_EPOCH_OFFSET_100NS)
  end.
Proof.
  pose proof (file_time_ticks_spec now) as E. destruct (file_time_ticks now) as [ticks|e] eqn:Et.
  - destruct (_ && _)%bool eqn:Eb; [|done]. injection E as E. apply andb_prop in Eb as [Hn Hm].
    apply Z.leb_le in Hn. apply N.leb_le in Hm. rewrite <-E in Hm. split_and!; [done..|].
    destruct (file_time ticks) as [low high] eqn:Ef. pose proof (file_time_ns_now _ _ _ _ Et Ef) as Hns.
    apply file_time_total in Ef as (Hl & Hh & _); [|done]. unfold U32_MAX. rewrite Hns. unfold refreshed_time.
    pose proof (Z.div_mod now 100 ltac:(done)). pose proof (Z.mod_pos_bound now 100 ltac:(done)). lia.
  - destruct (_ && _)%bool eqn:Eb; [done|]. injection E as ->. split; [done|].
    apply andb_false_iff in Eb as [Eb|Eb]; [left; by apply Z.leb_gt|right; by apply N.leb_gt].
Qed.

(** C40: [wide_path] spells the name of the path in the form that Windows takes
    literally.  The units it passes to the calls are 16-bit, end in a NUL, have no
    slash and, for a path in UTF-8 without NUL, no other NUL; they begin with the
    prefix of a verbatim or device path; and for an absolute path they name what
    the path names: the same share, the same device or the same path on a volume,
    in the UTF-16 units of the path, which for ASCII are its bytes. *)
Theorem wide_path_is_verbatim p :
  exists units, wide_path p = units ++ [0] /\ Forall u16 units /\ (ALTERNATE_SEPARATOR ∉ units) /\
    (utf8_valid p = true -> Byte.x00 ∉ p -> 0 ∉ units) /\
    (exists t, units = VERBATIM_PREFIX ++ t \/ units = DEVICE_PREFIX ++ t) /\
    (absolute_units (encode_wide p) -> named_by units = separated_name (named_by (encode_wide p))) /\
    (forallb is_ascii p = true -> encode_wide p = wide_text p).
Proof.
  destruct (wide_path_forms p) as (prefix & rest & Ew & Hu & Hz & Hp).
  exists (prefix ++ map separated rest). rewrite Ew, <-app_assoc. split; [done|].
  assert (Hpre : Forall u16 prefix /\ (ALTERNATE_SEPARATOR ∉ prefix) /\ 0 ∉ prefix).
  { destruct Hp as [[-> _]|[-> | ->]]; by (split_and!; [repeat constructor|decided|decided]). }
  destruct Hpre as (P1 & P2 & P3). split_and!; [..|by apply encode_wide_text].
  - apply Forall_app. split; [done|]. apply Forall_map. eapply Forall_impl; [exact Hu|].
    intros u. apply separated_spec.
  - rewrite elem_of_app. intros [?|(u & E & _)%list_elem_of_fmap]; [done|].
    by destruct (separated_spec u) as [? _].
  - intros Hutf Hn. specialize (Hz (encode_wide_no_nul p Hutf Hn)).
    rewrite elem_of_app. intros [?|(u & E & Hin)%list_elem_of_fmap]; [done|].
    destruct (separated_spec u) as (_ & _ & Hu0). symmetry in E. apply Hu0 in E. by subst u.
  - destruct Hp as [[-> [t [-> | ->]]]|[-> | ->]].
    + exists (map separated t). left. by rewrite map_app.
    + exists (map separated t). right. by rewrite map_app.
    + exists ([85; 78; 67; SEPARATOR] ++ map separated rest). by left.
    + exists (map separated rest). by left.
  - intros Ha. destruct (wide_path_names p Ha) as (units & E & Hn). rewrite Ew in E.
    rewrite app_assoc in E. by apply app_inj_2 in E as [-> _].
Qed.

(** ** Witnesses *)

Definition windows_world (fs : FsMap) (faults : list (option io_error)) : World :=
  mkWorld fs faults [] (fun k => Ok (repeat (byte_of (N.of_nat k)) 32)) 0 1000 (Ok (bstr "C:\srv")) [] [].

Definition windows_files : FsMap :=
  <[win_file windows_config zero_hex := Regular fixture_envelope None]>
    {[ bstr "C:\srv" := Directory; bstr "C:\srv\cache" := Directory ]}.

(** The first random name is taken. *)
Definition taken_files : FsMap :=
  <[win_staging windows_config zero_hex SAVE_MARKER zero_hex := Regular [] (Some 950%Z)]>
  (<[win_quarantine windows_config zero_hex zero_hex := Regular [] None]> windows_files).

Lemma windows_entropy fs faults : entropy_fills (windows_world fs faults).
Proof. intros k bs [= <-]. done. Defined.

Definition answer_of {S A : Type} (x : S + (A * World)) : option A :=
  match x with inr (a, _) => Some a | inl _ => None end.

(** The target exists, so the second move replaces it. *)
Lemma windows_save_is_crash_safe_witness :
  match windows_save_blob 2 windows_config (win_file windows_config zero_hex) (bstr "new")
          (windows_world taken_files []) with
  | inl _ => False
  | inr (r, w') => r = Ok tt /\ synced_last (bstr "C:\srv\cache") w' /\
      fst (load_blob windows_config (win_file windows_config zero_hex) w') = Ok (Some (bstr "new"))
  end.
Proof.
  pose proof (windows_save_is_crash_safe 2 windows_config zero_hex (bstr "new")
    (windows_world taken_files []) windows_config_store zero_hex_name (windows_entropy _ _) eq_refl) as H.
  assert (Hr : answer_of (windows_save_blob 2 windows_config (win_file windows_config zero_hex)
    (bstr "new") (windows_world taken_files [])) = Some (Ok tt)) by by vm_compute.
  destruct (windows_save_blob _ _ _ _ _) as [w'|[r w']]; [done|]. injection Hr as ->.
  destruct H as (Hp & [_ Hs] & Hl). split; [done|]. split; [exact Hs|].
  apply Hl; [done|done|by apply (passes_calm _ _ _ Hp)|by vm_compute].
Defined.

(** A stream that ends early leaves the stored blob, and no staging file. *)
Lemma windows_stream_save_is_crash_safe_witness :
  match windows_save_blob_from_receiver 2 windows_config (win_file windows_config zero_hex) 3
          [Chunk (bstr "ab"); Complete] (windows_world taken_files []) with
  | inl _ => False
  | inr ((r, rest), w') => r = Err (InputEndedEarly 3 2) /\
      w_fs w' !! win_file windows_config zero_hex = Some (Regular fixture_envelope None)
  end.
Proof.
  pose proof (windows_stream_save_is_crash_safe 2 windows_config zero_hex 3 [Chunk (bstr "ab"); Complete]
    (windows_world taken_files []) windows_config_store zero_hex_name (windows_entropy _ _) eq_refl) as H.
  assert (Hr : option_map fst (answer_of (windows_save_blob_from_receiver 2 windows_config
    (win_file windows_config zero_hex) 3 [Chunk (bstr "ab"); Complete] (windows_world taken_files [])))
    = Some (Err (InputEndedEarly 3 2))) by by vm_compute.
  destruct (windows_save_blob_from_receiver _ _ _ _ _ _) as [w'|[[r rest] w']]; [done|].
  injection Hr as ->. destruct H as [_ Ho]. split; [done|]. cbn in Ho. rewrite Ho; [by vm_compute|].
  intros (i & Hi & E). revert E. apply win_file_not_marked; [apply windows_config_store|
    apply zero_hex_name|apply zero_hex_name|done].
Defined.

Lemma windows_clear_is_durable_witness :
  match windows_clear_blob 1 windows_config (win_file windows_config zero_hex)
          (windows_world windows_files []) with
  | inl _ => False
  | inr (r, w') => r = Ok tt /\ w_fs w' = delete (win_file windows_config zero_hex) windows_files
  end.
Proof.
  pose proof (windows_clear_is_durable 1 windows_config zero_hex (windows_world windows_files [])
    windows_config_store zero_hex_name (windows_entropy _ _) eq_refl) as H.
  assert (Hr : answer_of (windows_clear_blob 1 windows_config (win_file windows_config zero_hex)
    (windows_world windows_files [])) = Some (Ok tt)) by by vm_compute.
  destruct (windows_clear_blob _ _ _ _) as [w'|[r w']]; [done|]. injection Hr as ->.
  destruct H as (_ & _ & H); [by intros t|]. split; [done|]. by apply H.
Defined.

Lemma windows_quarantine_is_atomic_witness :
  match windows_quarantine_blob 2 windows_config (win_file windows_config zero_hex)
          (windows_world taken_files []) with
  | inl _ => False
  | inr (r, w') => r = Ok {| identifier := one_hex;
                             diagnostic_path := win_quarantine windows_config zero_hex one_hex |} /\
      moved (win_file windows_config zero_hex) (win_quarantine windows_config zero_hex one_hex)
        taken_files (w_fs w')
  end.
Proof.
  pose proof (windows_quarantine_is_atomic 2 windows_config zero_hex (windows_world taken_files [])
    windows_config_store zero_hex_name (windows_entropy _ _) eq_refl) as H.
  assert (Hr : answer_of (windows_quarantine_blob 2 windows_config (win_file windows_config zero_hex)
    (windows_world taken_files [])) = Some (Ok {| identifier := one_hex;
      diagnostic_path := win_quarantine windows_config zero_hex one_hex |})) by by vm_compute.
  destruct (windows_quarantine_blob _ _ _ _) as [w'|[r w']]; [done|]. injection Hr as ->.
  destruct H as (_ & (_ & _ & Hm) & _). by split.
Defined.

Lemma windows_retries_terminate_witness :
  exists r, windows_save_blob 2 windows_config (win_file windows_config zero_hex) (bstr "new")
    (windows_world taken_files []) = inr r.
Proof.
  apply (windows_retries_terminate 1 2); [apply windows_config_store|apply zero_hex_name
    |apply windows_entropy|done|lia|by vm_compute].
Defined.

(** One staging file is old, one is young, and one file is not the store's. *)
Definition stale_files : FsMap :=
  <[win_staging windows_config zero_hex CLEAR_MARKER one_hex := Regular [] (Some 400%Z)]>
  (<[bstr "C:\srv\cache\notes.txt" := Regular [] (Some 0%Z)]> taken_files).

Lemma windows_cleanup_removes_stale_files_witness :
  let old := staging_name zero_hex (bstr ".blob") CLEAR_MARKER one_hex in
  let young := staging_name zero_hex (bstr ".blob") SAVE_MARKER zero_hex in
  let (r, w') := windows_cleanup_stale_files windows_config 100 (windows_world stale_files []) in
  r = Ok {| removed := [old]; skipped := [young]; failures := [] |} /\
  w_fs w' !! win_join (bstr "C:\srv\cache") old = None /\
  old ∈ [old].
Proof.
  cbv zeta. pose proof (windows_cleanup_removes_stale_files windows_config 100
    (windows_world stale_files []) windows_config_store) as H.
  destruct (windows_cleanup_stale_files _ _ _) as [r w'] eqn:E.
  assert (Hr : r = Ok {| removed := [staging_name zero_hex (bstr ".blob") CLEAR_MARKER one_hex];
    skipped := [staging_name zero_hex (bstr ".blob") SAVE_MARKER zero_hex]; failures := [] |})
    by (apply (f_equal fst) in E; by vm_compute in E).
  subst r. destruct H as (_ & [Hrem _] & _). split; [done|].
  split; [apply Hrem; by left|by left].
Defined.

Lemma owned_names_are_staging_names_witness :
  is_owned_temporary_filename (staging_name zero_hex (bstr ".blob") SAVE_MARKER one_hex) (bstr ".blob") = true /\
  is_owned_temporary_filename (zero_hex ++ bstr ".blob") (bstr ".blob") = false.
Proof.
  destruct (owned_names_are_staging_names fixture_format
    (staging_name zero_hex (bstr ".blob") SAVE_MARKER one_hex)) as [H1 H2]; [decided|]. split.
  - apply H1. exists zero_hex, SAVE_MARKER, one_hex. split_and!; [decided|decided|by left|done].
  - apply (H2 zero_hex one_hex); decided.
Defined.

(** The paths of the repository's test: slashes, lone surrogates, a share. *)
Example wide_path_drive :
  wide_path (bstr "C:/" ++ [Byte.xed; Byte.xa0; Byte.x80] ++ bstr "/f") =
    [92; 92; 63; 92; 67; 58; 92; 55296; 92; 102; 0].
Proof. by vm_compute. Qed.

Example wide_path_share :
  wide_path (bstr "\\s" ++ [Byte.xed; Byte.xbf; Byte.xbf]) =
    [92; 92; 63; 92; 85; 78; 67; 92; 115; 57343; 0].
Proof. by vm_compute. Qed.

Lemma wide_path_is_verbatim_witness :
  exists units, wide_path (bstr "\\srv\a/b") = units ++ [0] /\ (0 ∉ units) /\
    named_by units = ShareName (wide_text (bstr "srv\a\b")).
Proof.
  destruct (wide_path_is_verbatim (bstr "\\srv\a/b")) as (units & E & _ & _ & Hz & _ & Hn & Ha).
  exists units. split; [done|]. split; [apply Hz; decided|].
  rewrite Hn, Ha; [by vm_compute|done|]. left. eexists. by vm_compute.
Defined.
