(* ===== verification/WindowsRefinement.v ===== *)
(** * The Windows backend keeps its promise

    [BackendLaws] for [windows_backend], from what [WindowsRuns] and
    [WindowsCleanup] show of each operation: the engine over the Windows backend
    refines the map from keys to entries as well. *)
From S2P Require Export WindowsTheorems Refinement.

Local Open Scope N_scope.
Local Open Scope blob_scope.

Section Windows.
Context {Crc : Crc32c} {CrcL : Crc32cLaws} {Tgt : Target} {Api : WindowsApi} {ApiL : WindowsApiLaws}
  {Abs : AbsolutePath} {AbsL : AbsolutePathLaws} {Lst : DirectoryListing}.

(** The generic notions on Windows. *)
Lemma windows_key_file c h : key_file (SP := windows_path) c h = win_file c h.
Proof. done. Qed.

Abbreviation plain := (plain_keys (SP := windows_path)).
Abbreviation local := (local_change (SP := windows_path)).

Section OneKey.
Context (c : StoreConfig) (h : bytes) (Hc : windows_store c) (Hh : hex_name h).

Abbreviation path := (win_file c h).

(** The names that the store makes for [h], apart from its file. *)
Definition marked (p : Path) : Prop :=
  exists marker i, marker <> [] /\ p = win_staging c h marker i.

Lemma marked_far p : marked p -> p <> namespace c /\ forall h', hex_name h' -> p <> win_file c h'.
Proof.
  intros (marker & i & Hm & ->). split; [by apply marked_not_namespace|].
  intros h' Hh'. apply not_eq_sym. by apply win_file_not_marked.
Qed.

(** A change of the own names and the file of [h]. *)
Lemma own_local fs fs' :
  plain c fs -> agree_off (fun p => p = path \/ marked p) fs fs' ->
  is_symlink (fs' !! path) = false -> local c h fs fs'.
Proof.
  intros Hp Ha Hl. apply agree_local; [done| |done|].
  - apply Ha. intros [E|Hm]; [by apply (win_file_not_namespace c Hc h)|].
    by destruct (marked_far _ Hm) as [? _].
  - intros h' Hh' Hne. apply Ha. intros [E|Hm]; [by apply Hne, (win_file_inj c Hc)|].
    by destruct (marked_far _ Hm) as [_ Hf]; apply (Hf h').
Qed.

Lemma agree_entry fs fs' : agree_off marked fs fs' -> fs' !! path = fs !! path.
Proof. intros Ha. apply Ha. intros Hm. by destruct (marked_far _ Hm) as [_ Hf]; apply (Hf h). Qed.

Lemma marked_local fs fs' : plain c fs -> agree_off marked fs fs' -> local c h fs fs'.
Proof.
  intros Hp Ha. apply own_local; [done|eapply agree_off_mono, Ha; by right|].
  rewrite (agree_entry _ _ Ha). by apply Hp.
Qed.

Lemma windows_published_local fs content t : plain c fs -> local c h fs (<[path := Regular content t]> fs).
Proof.
  intros Hp. apply own_local; [done|apply agree_off_insert; by left|by rewrite lookup_insert_eq].
Qed.

Lemma staging_marked i marker : marker <> [] -> marked (win_staging c h marker i).
Proof. intros Hm. by exists marker, i. Qed.

Lemma unsaved_agree fs fs' : unsaved c h fs fs' -> agree_off marked fs fs'.
Proof.
  intros [->|(i & _ & _ & content & t & ->)]; [apply agree_off_refl|].
  by apply agree_off_insert, staging_marked.
Qed.

Lemma stream_agree fs fs' : agree_off (is_staging c h) fs fs' -> agree_off marked fs fs'.
Proof. apply agree_off_mono. intros p (i & _ & ->). by apply staging_marked. Qed.

(** *** Saving *)

Lemma windows_save_refines fuel p s w r w' :
  sound_world (SP := windows_path) c w -> windows_save_blob fuel c path p w = inr (r, w') ->
  refines (SP := windows_path) c h (Save p s) w (finished (Save p s) (RSave r)) w'.
Proof.
  intros Hw E. destruct (windows_save_run fuel c h p w Hc Hh (sound_entropy _ _ Hw) (sound_honest _ _ Hw))
    as [H _]. rewrite E in H. destruct H as (Hr & Ho & Hm). pose proof (sound_plain _ _ Hw) as Hp.
  eapply refines_passes; [done|done| |].
  - destruct (passes_last _ _ _ Hr) as [->|[(i & Hi & Hs)|[t ->]]].
    + by apply same_fs_local.
    + apply marked_local; [done|]. apply unsaved_agree. right. by exists i.
    + by apply windows_published_local.
  - intros o' r' [= _ <-]. rewrite windows_key_file.
    assert (Hpub : forall t, w_fs w' = <[path := Regular (envelope (format c) p) t]> (w_fs w) ->
      stores c (w_fs w' !! path) p) by (intros t ->; exists t; apply lookup_insert_eq).
    destruct r as [[]|e]; cbn in Ho |- *.
    + destruct Ho as [[t Ht] _]. split; [by apply (Hpub t)|by apply Hm].
    + destruct e; try (by apply agree_entry, unsaved_agree).
      * destruct operation; try (by apply agree_entry, unsaved_agree).
        destruct Ho as [t Ht]. right. by apply (Hpub t).
      * left. by apply agree_entry, unsaved_agree.
Qed.

Lemma windows_stream_refines fuel n chunks s w r rest w' :
  sound_world (SP := windows_path) c w ->
  windows_save_blob_from_receiver fuel c path n chunks w = inr ((r, rest), w') ->
  refines (SP := windows_path) c h (SaveStream n chunks s) w
    (finished (SaveStream n rest s) (RSaveStream r)) w'.
Proof.
  intros Hw E. destruct (windows_stream_run fuel c h n chunks w Hc Hh (sound_entropy _ _ Hw)
    (sound_honest _ _ Hw)) as [H _]. rewrite E in H. destruct H as (Hr & Ho).
  pose proof (sound_plain _ _ Hw) as Hp.
  assert (Hpub : stream_published c h n chunks (w_fs w) (w_fs w') ->
    exists p, stream_payload chunks = Some p /\ blen p = n /\ stores c (w_fs w' !! path) p /\ n <= maximum c).
  { intros (q & t & Hq & Hl & Hm & ->). exists q. split_and!; [done|done| |lia].
    exists t. apply lookup_insert_eq. }
  eapply refines_passes; [done|done| |].
  - destruct (passes_last _ _ _ Hr) as [Ha|(q & t & _ & _ & _ & ->)]; [|by apply windows_published_local].
    by apply marked_local, stream_agree.
  - intros o' r' [= _ <-]. rewrite windows_key_file. destruct r as [[]|e]; cbn in Ho |- *.
    + destruct (Hpub (proj1 Ho)) as (q & H1 & H2 & H3 & H4). by exists q.
    + destruct e; try (by apply agree_entry, stream_agree).
      * destruct operation; try (by apply agree_entry, stream_agree).
        destruct (Hpub Ho) as (q & H1 & H2 & H3 & H4). right. by exists q.
      * left. by apply agree_entry, stream_agree.
Qed.

(** *** Moving away *)

Lemma moved_local fs fs' q : plain c fs -> marked q -> moved path q fs fs' ->
  local c h fs fs' /\ fs !! path <> None /\ fs' !! path = None.
Proof.
  intros Hp Hq (n & Hn & Hfree & ->). destruct (marked_far _ Hq) as [_ Hf]. specialize (Hf h Hh).
  assert (E : <[q := n]> (delete path fs) !! path = None)
    by (rewrite lookup_insert_ne by done; apply lookup_delete_eq).
  split_and!; [|by rewrite Hn|done]. apply own_local; [done| |by rewrite E].
  eapply agree_off_trans; [apply agree_off_delete; by left|apply agree_off_insert; by right].
Qed.

Lemma windows_deleted_local fs : plain c fs -> local c h fs (delete path fs).
Proof.
  intros Hp. apply own_local; [done|apply agree_off_delete; by left|by rewrite lookup_delete_eq].
Qed.

Lemma quarantine_marked i : marked (win_quarantine c h i).
Proof. by exists (bstr ".quarantine-v1."), i. Qed.

Lemma windows_quarantine_refines fuel s w r w' :
  sound_world (SP := windows_path) c w -> windows_quarantine_blob fuel c path w = inr (r, w') ->
  refines (SP := windows_path) c h (Quarantine s) w (finished (Quarantine s) (RQuarantine r)) w'.
Proof.
  intros Hw E. destruct (windows_quarantine_run fuel c h w Hc Hh (sound_entropy _ _ Hw)
    (sound_honest _ _ Hw)) as [H _]. rewrite E in H. destruct H as (Hr & Ho).
  pose proof (sound_plain _ _ Hw) as Hp.
  assert (Hq : forall q, diagnostic_path q = win_quarantine c h (identifier q) ->
    moved path (diagnostic_path q) (w_fs w) (w_fs w') -> w_fs w !! path <> None /\ w_fs w' !! path = None).
  { intros q -> Hm. by eapply moved_local; [|apply quarantine_marked|]. }
  eapply refines_passes; [done|done| |].
  - destruct (passes_last _ _ _ Hr) as [->|(i & _ & Hm)]; [by apply same_fs_local|].
    by eapply moved_local; [|apply quarantine_marked|].
  - intros o' r' [= _ <-]. rewrite windows_key_file. destruct r as [q|e]; cbn in Ho |- *.
    + destruct Ho as [(_ & Hd & Hm) _]. by eapply Hq.
    + destruct e; try (by rewrite Ho). destruct Ho as (_ & Hd & Hm). by eapply Hq.
Qed.

(** *** Clearing *)

Lemma refreshed_local now fs fs1 :
  plain c fs -> refreshed c h now fs fs1 -> local c h fs fs1 /\ same_content (fs !! path) (fs1 !! path).
Proof.
  intros Hp [->| ->]; [split; [by apply same_fs_local|by left]|]. unfold retime.
  destruct (fs !! path) as [[content t| | |]|] eqn:E; try (split; [by apply same_fs_local|left; by rewrite E]).
  split; [by apply windows_published_local|]. right. rewrite lookup_insert_eq. by eexists _, _, _.
Qed.

Lemma local_trans fs fs1 fs2 : local c h fs fs1 -> local c h fs1 fs2 -> local c h fs fs2.
Proof. intros [_ H1] [Hp H2]. split; [done|]. intros h' Hh' Hne. by rewrite H2, H1. Qed.

Lemma windows_clear_refines fuel s w r w' :
  sound_world (SP := windows_path) c w -> windows_clear_blob fuel c path w = inr (r, w') ->
  refines (SP := windows_path) c h (Clear s) w (finished (Clear s) (RClear r)) w'.
Proof.
  intros Hw E. pose proof (sound_plain _ _ Hw) as Hp.
  assert (Hl : forall t, w_fs w !! path <> Some (Symlink t)).
  { intros t Et. destruct Hp as [_ Hp]. specialize (Hp h Hh). rewrite windows_key_file, Et in Hp. done. }
  destruct (windows_clear_run fuel c h w Hc Hh (sound_entropy _ _ Hw) (sound_honest _ _ Hw) Hl) as [H _].
  rewrite E in H. destruct H as (Hr & fs1 & Href & Ho).
  destruct (refreshed_local _ _ _ Hp Href) as [Hloc Hsame].
  assert (Hp1 : plain c fs1) by apply Hloc.
  assert (Hout : local c h fs1 (w_fs w') /\ abstract_step c (Clear s) (RClear r) (w_fs w !! path) (w_fs w' !! path)).
  { destruct r as [[]|e]; cbn in Ho |- *.
    - destruct Ho as [-> _]. split; [by apply windows_deleted_local|apply lookup_delete_eq].
    - assert (Hkeep : w_fs w' = fs1 -> local c h fs1 (w_fs w') /\ same_content (w_fs w !! path) (w_fs w' !! path))
        by (intros ->; split; [by apply same_fs_local|done]).
      assert (Hmoved : (exists i, hex_name i /\ moved path (win_staging c h CLEAR_MARKER i) fs1 (w_fs w')) ->
        local c h fs1 (w_fs w') /\ w_fs w' !! path = None).
      { intros (i & _ & Hm). by destruct (moved_local _ _ _ Hp1 (staging_marked i CLEAR_MARKER ltac:(done)) Hm)
          as (? & _ & ?). }
      destruct e; try (by apply Hkeep). by destruct operation; try (by apply Hkeep); try (by apply Hmoved). }
  eapply refines_passes; [done|done|by eapply local_trans; [|apply Hout]|].
  intros o' r' [= _ <-]. apply Hout.
Qed.

End OneKey.

(** *** Cleaning up *)

Lemma windows_cleanup_keeps c age (w : World) r w' :
  windows_store c -> sound_world (SP := windows_path) c w ->
  windows_cleanup_stale_files c age w = (r, w') ->
  passes (same_entries (SP := windows_path) c (w_fs w)) w w'.
Proof.
  intros Hc Hw E. pose proof (cleanup_run c age (w_now w) (w_fs w) Hc w eq_refl eq_refl) as H.
  rewrite E in H. destruct H as [Hr _]. eapply passes_mono, Hr. intros fs Hcl.
  pose proof (sound_plain _ _ Hw) as [Hn Hp].
  assert (Hkeep : forall p, (forall h, hex_name h -> ~ marked c h p) -> fs !! p = w_fs w !! p).
  { intros p Hp'. destruct (Hcl p) as [?|(_ & n & [Ho _] & ->)]; [done|].
    apply owned_name_spec in Ho as (h & marker & i & Hh & _ & Hm & ->); [|apply Hc].
    destruct (Hp' h Hh). exists marker, i. split; [by destruct Hm as [-> | ->]|done]. }
  assert (Hfile : forall h, hex_name h -> fs !! win_file c h = w_fs w !! win_file c h).
  { intros h Hh. apply Hkeep. intros h' Hh' Hm. by destruct (marked_far c h' Hc Hh' _ Hm) as [_ Hf]; apply (Hf h). }
  split; [split|].
  - rewrite Hkeep; [done|]. intros h Hh Hm. by destruct (marked_far c h Hc Hh _ Hm).
  - intros h Hh. rewrite windows_key_file, Hfile by done. by apply Hp.
  - intros h Hh. by rewrite windows_key_file, Hfile.
Qed.

(** The namespace is there, so that opening does not create it. *)
Lemma windows_initialize_keeps root component f max n c (w w' : World) :
  sound_world (SP := windows_path) c w -> windows_initialize_platform root component f max n w = (Ok c, w') ->
  passes (fun fs => fs = w_fs w) w w'.
Proof.
  intros [_ [Hns _] _] E. destruct (windows_opened_store _ _ _ _ _ _ _ _ E) as [Hp Hc].
  destruct (Hc c eq_refl) as (_ & _ & _ & _ & root' & Ha & En & _). eapply passes_mono, Hp.
  intros fs [->|(root2 & Ha2 & Hno & _)]; [done|]. rewrite Ha in Ha2. injection Ha2 as <-.
  by rewrite <-En, Hns in Hno.
Qed.

#[export] Instance windows_backend_laws : BackendLaws (Bk := windows_backend).
Proof.
  refine {| backend_fit := windows_store |}.
  - by intros c [? _].
  - intros fuel c h p s w r w' Hc Hh Hw E. exact (windows_save_refines c h Hc Hh fuel p s w r w' Hw E).
  - intros fuel c h n chunks s w r rest w' Hc Hh Hw E.
    exact (windows_stream_refines c h Hc Hh fuel n chunks s w r rest w' Hw E).
  - intros fuel c h s w r w' Hc Hh Hw E. exact (windows_clear_refines c h Hc Hh fuel s w r w' Hw E).
  - intros fuel c h s w r w' Hc Hh Hw E. exact (windows_quarantine_refines c h Hc Hh fuel s w r w' Hw E).
  - intros c age w r w' Hc Hw E. exact (windows_cleanup_keeps c age w r w' Hc Hw E).
  - intros root component f max n c w w' Hw E. exact (windows_initialize_keeps _ _ _ _ _ c w w' Hw E).
Defined.

End Windows.
