(* ===== verification/WindowsInterference.v ===== *)
(** * The Windows backend among other operations

    [BackendInterference] for [windows_backend].  The file of a key and the
    staging and quarantine names that begin with its hash belong to it; no call of
    an operation on another key touches them. *)
From S2P Require Export Interference WindowsRefinement.

Local Open Scope N_scope.
Local Open Scope blob_scope.

Section Windows.
Context {Crc : Crc32c} {CrcL : Crc32cLaws} {Tgt : Target} {Api : WindowsApi} {ApiL : WindowsApiLaws}
  {Abs : AbsolutePath} {AbsL : AbsolutePathLaws} {Lst : DirectoryListing}.

Definition windows_own (c : StoreConfig) (h : bytes) (p : Path) : Prop :=
  p = win_file c h \/ marked c h p.

Section OneKey.
Context (c : StoreConfig) (h : bytes) (Hc : windows_store c) (Hh : hex_name h).

Abbreviation path := (win_file c h).
Abbreviation own := (windows_own c).
Abbreviation others := (others_act (SP := windows_path) c own h).
Abbreviation keeps := (keeps_to_itself (SP := windows_path) c own h).
Abbreviation shows := (shows (SP := windows_path) c h).
Abbreviation ends_in_step := (ends_in_step (Bk := windows_backend) c h).

Lemma own_path : own h path.
Proof. by left. Qed.

Lemma marked_disjoint h' p : hex_name h' -> h' <> h -> marked c h p -> ~ marked c h' p.
Proof.
  intros [Hl' _] Hne (m & i & _ & ->) (m' & i' & _ & E). apply win_join_inj in E; [|apply Hc].
  unfold staging_name in E. destruct Hh as [Hl _]. apply app_inj_1 in E as [E _]; [by apply Hne|lia].
Qed.

(** Nothing that belongs to another key belongs to this one. *)
Lemma own_disjoint h' p : hex_name h' -> h' <> h -> own h' p -> ~ own h p.
Proof.
  intros Hh' Hne [->|Hm'] [E|Hm].
  - by apply Hne, (win_file_inj c Hc).
  - by destruct (marked_far c h Hc Hh _ Hm) as [_ Hf]; apply (Hf h').
  - destruct (marked_far c h' Hc Hh' _ Hm') as [_ Hf]. by apply (Hf h).
  - by apply (marked_disjoint h' p).
Qed.

(** A change of what belongs to the key. *)
Lemma own_agree fs fs' :
  plain_keys (SP := windows_path) c fs -> agree_off (own h) fs fs' -> is_symlink (fs' !! path) = false ->
  own_change (SP := windows_path) c own h fs fs'.
Proof.
  intros Hp Ha Hl. split; [by apply (own_local c h Hc Hh fs fs')|].
  intros h' p Hh' Hne Hp'. apply Ha. by apply (own_disjoint h').
Qed.

(** A call that keeps to what belongs to the key, and to the entries it may show. *)
Lemma agree_keeps o a0 (w1 w2 : World) :
  sound_world (SP := windows_path) c w1 ->
  passes (fun fs => agree_off (own h) (w_fs w1) fs /\
    is_symlink (fs !! path) = false /\ moment c o a0 (fs !! path)) w1 w2 ->
  keeps o a0 w1 w2.
Proof.
  intros Hw. apply passes_mono. intros fs (Ha & Hl & Hm). split; [|done]. by apply own_agree; [apply Hw|..].
Qed.

Lemma plain_path (w : World) : sound_world (SP := windows_path) c w -> is_symlink (w_fs w !! path) = false.
Proof. intros Hw. by apply Hw. Qed.

(** *** Calls *)

Lemma shows_path a w w1 : shows a w -> others w w1 -> shows a w1.
Proof. apply shows_others, own_path. Qed.

Lemma same_path (w w1 : World) : others w w1 -> w_fs w1 !! path = w_fs w !! path.
Proof. apply (others_act_entry (SP := windows_path)), own_path. Qed.

Lemma ends_shown o a0 r w a :
  w_fs w !! path = a -> abstract_step c o r a0 a -> ends_in_step o a0 r w.
Proof. by intros <-. Qed.

Lemma safe_still {A} (call : World -> A * World) o a0 (Q : A -> World -> Prop) w :
  moment c o a0 (w_fs w !! path) ->
  (forall w1, passes (fun fs => fs = w_fs w1) w1 (snd (call w1))) ->
  (forall w1 a w2, others w w1 -> call w1 = (a, w2) -> others w w2 -> Q a w2) ->
  safe others (keeps o a0) (do_call call) Q w.
Proof. intros Hm Hp HQ. by apply safe_quiet; [apply own_path|..]. Qed.

Lemma open_existing_quiet name access share flags (w : World) :
  unchanged w (snd (CreateFileW name access share OPEN_EXISTING flags w)).
Proof.
  pose proof (open_existing_spec name access share flags w) as H.
  destruct (CreateFileW _ _ _ _ _ w) as [[]]; apply H.
Qed.

Lemma flush_quiet handle (w : World) : unchanged w (snd (FlushFileBuffers handle w)).
Proof. pose proof (flush_spec handle w) as H. destruct (FlushFileBuffers handle w). apply H. Qed.

Lemma safe_draw o a0 (Q : _ -> World -> Prop) w :
  moment c o a0 (w_fs w !! path) ->
  (forall i w2, hex_name i -> others w w2 -> Q (Ok i) w2) ->
  (forall code w2, others w w2 -> Q (Err (IdentifierGeneration code)) w2) ->
  safe others (keeps o a0) (do_call random_identifier) Q w.
Proof.
  intros Hm Hok Herr. apply safe_still; [done|apply random_identifier_quiet|].
  intros w1 r w2 [Hw1 _] E Hw2. apply random_identifier_inv in E as (_ & _ & Hr); [|apply Hw1].
  destruct r as [i|e]; [by apply Hok; [apply Hr|]|]. destruct Hr as (code & _ & ->). by apply Herr.
Qed.

Lemma safe_sync o a0 (Q : _ -> World -> Prop) w :
  moment c o a0 (w_fs w !! path) -> (forall r w2, others w w2 -> Q r w2) ->
  safe others (keeps o a0) (sync_windows_directory_steps c) Q w.
Proof.
  intros Hm HQ. apply safe_try, safe_still; [done|intros; apply open_existing_quiet|].
  intros w1 [handle|e] w2 _ _ Hw2; [|by apply HQ].
  apply safe_still; [|apply flush_quiet|].
  - by rewrite (same_path _ _ Hw2).
  - intros w3 r w4 _ _ Hw4. apply HQ. by eapply others_act_trans.
Qed.

Lemma safe_available o a0 (Q : _ -> World -> Prop) w :
  moment c o a0 (w_fs w !! path) ->
  (forall w2, others w w2 -> Q (Ok tt) w2) ->
  (forall e w2, others w w2 -> e = NamespacePathIsNotDirectory \/ (exists s, e = Io InspectNamespace s) ->
     Q (Err e) w2) ->
  safe others (keeps o a0) (do_call (ensure_namespace_available c)) Q w.
Proof.
  intros Hm Hok Herr. apply safe_still; [done|apply ensure_namespace_quiet|].
  intros w1 [[]|e] w2 _ E Hw2; [by apply Hok|]. apply Herr; [done|]. by eapply ensure_namespace_errors.
Qed.

(** *** Staging *)

Lemma shows_moment o a w : shows a w -> moment c o a (w_fs w !! path).
Proof. intros [_ Ha]. change (w_fs w !! path = a) in Ha. rewrite Ha. apply moment_refl. Qed.

Definition staged_at (p : Path) (content : bytes) (w : World) : Prop :=
  exists t, w_fs w !! p = Some (Regular content t).

Lemma staged_others p content w w1 :
  marked c h p -> staged_at p content w -> others w w1 -> staged_at p content w1.
Proof. intros Hm [t Ht] [_ Ho]. exists t. rewrite Ho; [done|by right]. Qed.

(** A change of a name that is not the file of the key. *)
Lemma marked_keeps o a (w1 w2 : World) :
  shows a w1 -> passes (agree_off (marked c h) (w_fs w1)) w1 w2 -> keeps o a w1 w2 /\ w_fs w2 !! path = a.
Proof.
  intros [Hw1 Ha] Hp.
  assert (He : forall fs, agree_off (marked c h) (w_fs w1) fs -> fs !! path = a).
  { intros fs Hag. rewrite (agree_entry c h Hc Hh _ _ Hag). exact Ha. }
  split; [|apply He, (passes_last _ _ _ Hp)].
  apply agree_keeps; [done|]. eapply passes_mono, Hp. intros fs Hag. rewrite (He _ Hag). split_and!.
  - eapply agree_off_mono, Hag. by right.
  - rewrite <-Ha. by apply plain_path.
  - apply moment_refl.
Qed.

Section Staging.
Context (p : Path) (Hp : file_of (wide_path p) = p) (Hm : marked c h p) (o : Operation) (a : entry).

Lemma safe_create (Q : _ -> World -> Prop) w :
  shows a w ->
  (forall handle w2, shows a w2 -> h_file handle = p -> honest_plan (h_plan handle) -> Q (Ok handle) w2) ->
  (forall e w2, shows a w2 -> Q (Err (Io OpenAtomicWriter e)) w2) ->
  safe others (keeps o a)
    (do_call (io_op OpenAtomicWriter (CreateFileW (wide_path p) GENERIC_WRITE 0 CREATE_NEW staging_flags)))
    Q w.
Proof.
  intros Hs Hok Herr. apply safe_map_err. eapply safe_change; [apply own_path|exact Hs|].
  intros w1 Hs1. pose proof (create_new_spec (wide_path p) GENERIC_WRITE 0 staging_flags w1) as H.
  destruct (CreateFileW _ _ _ _ _ w1) as [[handle|e] w2]; rewrite Hp in H.
  - destruct H as (_ & Hf & Hplan & t & Ef & Hpass).
    assert (Hpm : passes (agree_off (marked c h) (w_fs w1)) w1 w2).
    { eapply passes_mono, Hpass. rewrite Ef. intros fs [->| ->];
        [apply agree_off_refl|by apply agree_off_insert]. }
    destruct (marked_keeps o a w1 w2 Hs1 Hpm) as [Hk Ha]. split; [done|]. intros Hw2. by apply Hok.
  - destruct H as [Hu _].
    assert (Hpm : passes (agree_off (marked c h) (w_fs w1)) w1 w2).
    { eapply passes_mono, Hu. intros fs ->. apply agree_off_refl. }
    destruct (marked_keeps o a w1 w2 Hs1 Hpm) as [Hk Ha]. split; [done|]. intros Hw2. by apply Herr.
Qed.

Lemma safe_written {B} (r : B) handle f (Q : B -> World -> Prop) w :
  shows a w -> h_file handle = p ->
  (forall w2, shows a w2 -> staged_at p (wr_data f) w2 -> Q r w2) ->
  safe others (keeps o a) (do_call (fun w => (r, file_written handle f w))) Q w.
Proof.
  intros Hs Hh' HQ. eapply safe_change; [apply own_path|exact Hs|]. intros w1 Hs1.
  assert (Hpm : passes (agree_off (marked c h) (w_fs w1)) w1 (file_written handle f w1)).
  { apply written_passes. intros content. unfold file_shows. rewrite Hh'. by apply agree_off_insert. }
  destruct (marked_keeps o a w1 _ Hs1 Hpm) as [Hk Ha]. split; [done|]. intros Hw2.
  apply HQ; [done|]. exists (Some (w_now w1)). cbn. unfold file_shows. rewrite Hh'. apply lookup_insert_eq.
Qed.

Lemma safe_flush handle content (Q : _ -> World -> Prop) w :
  shows a w -> staged_at p content w ->
  (forall w2, shows a w2 -> staged_at p content w2 -> Q (Ok tt) w2) ->
  (forall e w2, shows a w2 -> name_taken e = false -> Q (Err e) w2) ->
  safe others (keeps o a) (do_call (io_op WriteEnvelope (FlushFileBuffers handle))) Q w.
Proof.
  intros Hs Hst Hok Herr. apply safe_map_err, safe_still; [by apply shows_moment|apply flush_quiet|].
  intros w1 r w2 [Hw1 _] E Hw2. pose proof (shows_path _ _ _ Hs Hw2) as Hs2.
  destruct r as [[]|e]; [by apply Hok; [|eapply staged_others]|]. apply Herr; [done|]. cbn.
  pose proof (flush_spec handle w1) as H. rewrite E in H. destruct H as [_ H].
  apply bool_decide_eq_false, honest_error_kind, H, Hw1.
Qed.

Lemma safe_staging header payload checksum (Q : _ -> World -> Prop) w :
  shows a w ->
  (forall w2, shows a w2 -> staged_at p (header ++ payload ++ checksum) w2 -> Q (Ok tt) w2) ->
  (forall e w2, shows a w2 -> Q (Err e) w2) ->
  safe others (keeps o a) (create_windows_staging_steps p header payload checksum) Q w.
Proof.
  intros Hs Hok Herr. apply safe_try, safe_create; [done| |by auto]. intros handle w1 Hs1 Hf _.
  destruct (write_sections _ _) as [[[]|e] f] eqn:Ew; [|apply safe_written; by auto].
  apply write_sections_ok in Ew. cbn [File_from_raw_handle wr_data concat] in Ew.
  rewrite app_nil_l, app_nil_r in Ew.
  apply safe_bind, safe_written; [done..|]. intros w2 Hs2 Hst. rewrite Ew in Hst.
  eapply safe_flush; [done..|by auto|by auto].
Qed.

Lemma safe_stream_staging n chunks (Q : _ -> World -> Prop) w :
  shows a w ->
  (forall q rest w2, shows a w2 -> stream_payload chunks = Some q -> blen q = n -> n <= maximum c ->
     staged_at p (envelope (format c) q) w2 -> Q (Ok tt, rest) w2) ->
  (forall e rest w2, shows a w2 -> (name_taken e = true -> rest = chunks) -> Q (Err e, rest) w2) ->
  safe others (keeps o a) (create_windows_streaming_staging_steps c p n chunks) Q w.
Proof.
  intros Hs Hok Herr. apply safe_bind, safe_create; [done| |by intros; apply Herr]. intros handle w1 Hs1 Hf Hplan.
  destruct (write_stream_envelope _ _ _) as [[[]|e] [f rest]] eqn:Ew.
  2:{ apply safe_written; [done..|]. intros w2 Hs2 _. apply Herr; [done|]. intros Hn.
      by apply (write_stream_envelope_plan c n (File_from_raw_handle handle)) in Ew as [Hw _]; [rewrite Hw in Hn|]. }
  apply write_stream_envelope_ok in Ew as (cs & Ecs & Hl & Hmax & Hd).
  cbn [File_from_raw_handle wr_data] in Hd. rewrite app_nil_l in Hd.
  assert (Hpay : stream_payload chunks = Some (concat cs)) by (rewrite Ecs; apply stream_payload_chunks).
  apply safe_bind, safe_written; [done..|]. intros w2 Hs2 Hst. rewrite Hd in Hst.
  apply safe_bind. eapply safe_flush; [done..| |].
  - intros w3 Hs3 Hst3. by apply (Hok (concat cs)).
  - intros e w3 Hs3 Hn. apply Herr; [done|]. by rewrite Hn.
Qed.

End Staging.

(** *** Publishing *)

Section Publishing.
Context (p : Path) (Hp : file_of (wide_path p) = p) (Hm : marked c h p).
Context (o : Operation) (a : entry) (payload : bytes).
Context (Hstored : forall a', stores c a' payload -> moment c o a a').

Lemma safe_move_staged flags (Q : _ -> World -> Prop) w :
  shows a w -> staged_at p (envelope (format c) payload) w ->
  (forall w2, stores c (w_fs w2 !! path) payload -> Q (Ok tt) w2) ->
  (forall e w2, shows a w2 -> staged_at p (envelope (format c) payload) w2 -> Q (Err e) w2) ->
  safe others (keeps o a) (do_call (move_file p path flags)) Q w.
Proof.
  intros Hs Hst Hok Herr. apply safe_call. intros w1 Hw1.
  pose proof (shows_path _ _ _ Hs Hw1) as [Hsw Ha1]. change (w_fs w1 !! path = a) in Ha1.
  destruct (staged_others _ _ _ _ Hm Hst Hw1) as [t Ht]. unfold move_file.
  pose proof (move_spec (wide_path p) (wide_path path) flags w1) as H.
  rewrite Hp, (file_resolved c Hc h Hh) in H.
  destruct (MoveFileExW _ _ _ w1) as [[[]|e] w2].
  - destruct H as (n & Hn & _ & Ef & Hpass). rewrite Ht in Hn. injection Hn as <-.
    assert (He : stores c (w_fs w2 !! path) payload) by (exists t; by rewrite Ef, lookup_insert_eq).
    split; [|by apply Hok]. apply agree_keeps; [done|]. eapply passes_mono, Hpass. intros fs [->| ->].
    + split_and!; [apply agree_off_refl|by apply plain_path|]. rewrite Ha1. apply moment_refl.
    + split_and!; [|by rewrite Ef, lookup_insert_eq|by apply Hstored].
      rewrite Ef. eapply agree_off_trans; [by apply agree_off_delete; right|].
      apply agree_off_insert, own_path.
  - destruct H as [Hu _]. split.
    + apply agree_keeps; [done|]. eapply passes_mono, Hu. intros fs ->.
      split_and!; [apply agree_off_refl|by apply plain_path|]. rewrite Ha1. apply moment_refl.
    + apply Herr; [by eapply shows_unchanged; [split|]|]. exists t. by rewrite (unchanged_fs _ _ Hu).
Qed.

(** What a commit leaves. *)
Definition committed (r : result unit AtomicBlobStoreError) (a' : entry) : Prop :=
  match r with
  | Ok _ => stores c a' payload
  | Err (AtomicCommit _) => a' = a
  | Err (Io SyncNamespaceDirectory _) => stores c a' payload
  | Err _ => False
  end.

Lemma safe_commit_staging (Q : _ -> World -> Prop) w :
  shows a w -> staged_at p (envelope (format c) payload) w ->
  (forall r w2, committed r (w_fs w2 !! path) -> Q r w2) ->
  safe others (keeps o a) (commit_staging_steps c p path) Q w.
Proof.
  intros Hs Hst HQ.
  assert (Hsync : forall w1, stores c (w_fs w1 !! path) payload ->
    safe others (keeps o a) (prog_map (map_err (Io SyncNamespaceDirectory)) (sync_windows_directory_steps c)) Q w1).
  { intros w1 H1. apply safe_bind, safe_sync; [by apply Hstored|]. intros r w2 Hw2. apply HQ.
    rewrite (same_path _ _ Hw2). by destruct r. }
  apply safe_bind, safe_move_staged; [done..| |].
  - intros w1 H1. by apply safe_try, Hsync.
  - intros e w1 Hs1 Hst1. apply safe_try. destruct (target_exists e).
    + apply safe_map_err, safe_move_staged; [done..|apply Hsync|]. intros e2 w2 [_ H2] _. by apply HQ.
    + apply HQ. by destruct Hs1.
Qed.

End Publishing.

(** *** Saving *)

Lemma windows_save_turn_safe p s a header checksum w :
  header ++ p ++ checksum = envelope (format c) p -> blen p <= maximum c -> shows a w ->
  safe others (keeps (Save p s) a) (windows_save_turn_steps c path h header p checksum)
    (fun x w => match x with inl _ => shows a w | inr r => ends_in_step (Save p s) a (RSave r) w end) w.
Proof.
  intros He Hmax Hs.
  apply safe_bind, safe_draw; [by apply shows_moment| |intros code w1 Hw1; by apply save_failed, (shows_path _ _ _ Hs)].
  intros i w1 Hi Hw1. pose proof (shows_path _ _ _ Hs Hw1) as Hs1.
  fold (win_staging c h SAVE_MARKER i). set (q := win_staging c h SAVE_MARKER i).
  assert (Hq : file_of (wide_path q) = q) by by apply marked_resolved.
  assert (Hm : marked c h q) by by apply staging_marked.
  apply safe_bind, safe_staging; [done..| |].
  - intros w2 Hs2 Hst. rewrite He in Hst. apply safe_bind.
    apply (safe_commit_staging q Hq Hm (Save p s) a p); [by right|done..|].
    intros r w3 Hr. unfold Interference.ends_in_step. change (key_file c h) with path.
    destruct r as [[]|e]; cbn in Hr |- *; [by split|].
    destruct e; try done; [destruct operation; try done; by right|by left].
  - intros e w2 Hs2. cbn. destruct (name_taken e); [done|]. by apply save_failed, Hs2.
Qed.

Lemma windows_save_safe fuel p s w :
  sound_world (SP := windows_path) c w ->
  let a0 := w_fs w !! path in
  safe others (keeps (Save p s) a0) (windows_save_blob_steps fuel c path p)
    (fun x w => forall r, x = inr r -> ends_in_step (Save p s) a0 (RSave r) w) w.
Proof.
  intros Hw a0. unfold windows_save_blob_steps.
  destruct (envelope_parts _ _ _) as [[header checksum]|e] eqn:Ep; [|intros r [= <-]; by apply save_failed].
  rewrite win_stem by done.
  assert (He : encode_envelope (format c) p (maximum c) = Ok (header ++ p ++ checksum))
    by (unfold encode_envelope; by rewrite Ep).
  apply encode_envelope_ok in He as (He & Hmax & _).
  apply (safe_loop _ _ (fun _ => shows a0)); [done| |done]. intros _ w1 Hs.
  eapply safe_mono, windows_save_turn_safe, Hs; [|done..]. by intros [[]|r] w2 H; [|intros r' [= <-]].
Qed.

Lemma windows_stream_turn_safe n chunks s a w :
  let o := SaveStream n chunks s in
  shows a w ->
  safe others (keeps o a) (windows_save_stream_turn_steps c path h n chunks)
    (fun x w => match x with
                | inl rest => rest = chunks /\ shows a w
                | inr (r, _) => ends_in_step o a (RSaveStream r) w
                end) w.
Proof.
  intros o Hs.
  apply safe_bind, safe_draw; [by apply shows_moment|
    |intros code w1 Hw1; by apply save_stream_failed, (shows_path _ _ _ Hs)].
  intros i w1 Hi Hw1. pose proof (shows_path _ _ _ Hs Hw1) as Hs1.
  fold (win_staging c h SAVE_MARKER i). set (q := win_staging c h SAVE_MARKER i).
  assert (Hq : file_of (wide_path q) = q) by by apply marked_resolved.
  assert (Hm : marked c h q) by by apply staging_marked.
  apply safe_bind, safe_stream_staging; [done..| |].
  - intros p rest w2 Hs2 Hpay Hlen Hmax Hst. apply safe_bind.
    apply (safe_commit_staging q Hq Hm o a p); [by right; exists p|done..|].
    intros r w3 Hr. unfold Interference.ends_in_step. change (key_file c h) with path.
    destruct r as [[]|e]; cbn in Hr |- *; [by exists p|].
    destruct e; try done; [destruct operation; try done; right; by exists p|by left].
  - intros e rest w2 Hs2 Hrest. cbv beta iota. destruct (name_taken e); [by split; [apply Hrest|]|].
    apply safe_bind, safe_call. intros w3 Hw3. pose proof (shows_path _ _ _ Hs2 Hw3) as Hs3.
    assert (Hd : passes (agree_off (marked c h) (w_fs w3)) w3 (snd (delete_file q w3))).
    { apply delete_agree; [done|done|apply agree_off_refl]. }
    destruct (delete_file q w3) as [rd w4]. cbn [snd] in Hd.
    destruct (marked_keeps o a w3 w4 Hs3 Hd) as [Hk Ha]. split; [done|]. by apply save_stream_failed.
Qed.

Lemma windows_stream_safe fuel n chunks s w :
  sound_world (SP := windows_path) c w ->
  let a0 := w_fs w !! path in
  let o := SaveStream n chunks s in
  safe others (keeps o a0) (windows_save_blob_from_receiver_steps fuel c path n chunks)
    (fun x w => forall r rest, x = inr (r, rest) -> ends_in_step o a0 (RSaveStream r) w) w.
Proof.
  intros Hw a0 o. unfold windows_save_blob_from_receiver_steps.
  destruct (envelope_header _ _ _) as [header|e]; [|intros r rest [= <- _]; by apply save_stream_failed].
  rewrite win_stem by done.
  apply (safe_loop _ _ (fun rest w => rest = chunks /\ shows a0 w)); [done| |done].
  intros ? w1 [-> Hs]. eapply safe_mono, windows_stream_turn_safe, Hs.
  by intros [rest|[r rest]] w2 H; [|intros r' rest' [= <- _]].
Qed.

(** *** Moving the file away *)

Section MovingAway.
Context (q : Path) (Hq : file_of (wide_path q) = q) (Hm : marked c h q) (Hpar : win_parent q = namespace c).
Context (o : Operation) (a0 a : entry) (Ho : moment c o a0 a) (Hgone : moment c o a0 None).

Lemma safe_move_away (Q : _ -> World -> Prop) w :
  shows a w ->
  (forall w2, a <> None -> shows None w2 -> Q (Ok tt) w2) ->
  (forall e w2, shows a w2 -> (kind e = NotFound -> a = None) -> Q (Err e) w2) ->
  safe others (keeps o a0) (do_call (move_file path q MOVEFILE_WRITE_THROUGH)) Q w.
Proof.
  intros Hs Hok Herr. apply safe_call. intros w1 Hw1.
  pose proof (shows_path _ _ _ Hs Hw1) as [Hsw Ha1]. change (w_fs w1 !! path = a) in Ha1.
  assert (Hne : q <> path) by by destruct (marked_far c h Hc Hh _ Hm) as [_ Hf]; apply Hf.
  pose proof (move_away c path q w1 ltac:(by apply file_resolved) Hq Hpar (sound_honest _ _ Hsw)) as H.
  destruct (move_file path q MOVEFILE_WRITE_THROUGH w1) as [[[]|e] w2]; destruct H as [_ H].
  - destruct H as [Hmv Hp]. pose proof (moved_gone c h q _ _ Hne Hmv) as Hnone.
    assert (Hk : keeps o a0 w1 w2).
    { apply agree_keeps; [done|]. eapply passes_mono, Hp. intros fs [->| ->].
      - split_and!; [apply agree_off_refl|by apply plain_path|by rewrite Ha1].
      - rewrite Hnone. split_and!; [|done..]. destruct Hmv as (n & _ & _ & ->).
        eapply agree_off_trans; [apply agree_off_delete, own_path|]. apply agree_off_insert. by right. }
    split; [done|]. apply Hok; [|by split; [eapply keeps_sound|]].
    destruct Hmv as (n & Hn & _). by rewrite <-Ha1, Hn.
  - destruct H as (Hu & _ & Hnf). split.
    + apply agree_keeps; [done|]. eapply passes_mono, Hu. intros fs ->.
      split_and!; [apply agree_off_refl|by apply plain_path|by rewrite Ha1].
    + apply Herr; [by eapply shows_unchanged; [split|]|]. intros Hk. destruct (Hnf Hk) as [Hn|Hn].
      * by rewrite <-Ha1.
      * destruct (sound_plain _ _ Hsw) as [Hd _]. by rewrite Hd in Hn.
Qed.

End MovingAway.

(** *** Quarantining *)

Lemma windows_quarantine_turn_safe s a w :
  shows a w ->
  safe others (keeps (Quarantine s) a) (windows_quarantine_turn_steps c path h)
    (fun x w => match x with
                | inl _ => shows a w
                | inr r => ends_in_step (Quarantine s) a (RQuarantine r) w
                end) w.
Proof.
  intros Hs. apply safe_bind, safe_draw; [by apply shows_moment|
    |intros code w1 Hw1; by apply quarantine_failed; [apply (shows_path _ _ _ Hs)|]].
  intros i w1 Hi Hw1. pose proof (shows_path _ _ _ Hs Hw1) as Hs1.
  fold (win_quarantine c h i). destruct (quarantine_resolved c h i Hc Hh Hi) as [Hq Hpar].
  apply safe_bind, (safe_move_away _ Hq (quarantine_marked c h i) Hpar _ a a); [by left|by right|done| |].
  - intros w2 Hne Hs2. apply safe_bind, safe_try, safe_bind, safe_sync.
    { destruct Hs2 as [_ H2]. by right. }
    intros r w3 Hw3. destruct (shows_path _ _ _ Hs2 Hw3) as [_ H3]. by destruct r as [[]|e].
  - intros e w2 Hs2 Hk. case_decide; [|case_decide; [done|by apply quarantine_failed; [apply Hs2|]]].
    apply safe_bind, safe_try, safe_available; [by apply shows_moment| |].
    + intros w3 Hw3. by apply quarantine_failed; [apply (shows_path _ _ _ Hs2)|].
    + intros e3 w3 Hw3 He3. apply quarantine_failed; [by apply (shows_path _ _ _ Hs2)|].
      by destruct He3 as [->|[src ->]].
Qed.

Lemma windows_quarantine_safe fuel s w :
  sound_world (SP := windows_path) c w ->
  let a0 := w_fs w !! path in
  safe others (keeps (Quarantine s) a0) (windows_quarantine_blob_steps fuel c path)
    (fun x w => forall r, x = inr r -> ends_in_step (Quarantine s) a0 (RQuarantine r) w) w.
Proof.
  intros Hw a0. unfold windows_quarantine_blob_steps. rewrite win_stem by done.
  apply (safe_loop _ _ (fun _ => shows a0)); [done| |done]. intros _ w1 Hs.
  eapply safe_mono, windows_quarantine_turn_safe, Hs. by intros [[]|r] w2 H; [|intros r' [= <-]].
Qed.

(** *** Clearing *)

Lemma clear_failed s e a0 a :
  same_content a0 a ->
  (forall src, e <> Io OpenNamespaceDirectory src /\ e <> Io SyncNamespaceDirectory src /\
     e <> Io RemoveTemporaryFile src) ->
  abstract_step c (Clear s) (RClear (Err e)) a0 a.
Proof.
  intros Ha He. destruct e; try done. by destruct operation; try done; destruct (He source) as (? & ? & ?).
Qed.

Lemma windows_clear_turn_safe s a0 a w :
  same_content a0 a -> shows a w ->
  safe others (keeps (Clear s) a0) (windows_clear_turn_steps c path h)
    (fun x w => match x with
                | inl _ => shows a w
                | inr r => ends_in_step (Clear s) a0 (RClear r) w
                end) w.
Proof.
  intros Ha Hs. assert (Hmom : forall w1, shows a w1 -> moment c (Clear s) a0 (w_fs w1 !! path)).
  { intros w1 [_ H1]. change (w_fs w1 !! path = a) in H1. rewrite H1. by left. }
  assert (Hfail : forall e w1, shows a w1 ->
    (forall src, e <> Io OpenNamespaceDirectory src /\ e <> Io SyncNamespaceDirectory src /\
       e <> Io RemoveTemporaryFile src) -> ends_in_step (Clear s) a0 (RClear (Err e)) w1).
  { intros e w1 [_ H1] He. apply (ends_shown _ _ _ _ a); [exact H1|]. by apply clear_failed. }
  apply safe_bind, safe_draw; [by apply Hmom| |intros code w1 Hw1; by apply Hfail; [eapply shows_path|]].
  intros i w1 Hi Hw1. pose proof (shows_path _ _ _ Hs Hw1) as Hs1.
  fold (win_staging c h CLEAR_MARKER i). set (q := win_staging c h CLEAR_MARKER i).
  assert (Hq : file_of (wide_path q) = q) by by apply marked_resolved.
  assert (Hm : marked c h q) by by apply staging_marked.
  assert (Hpar : win_parent q = namespace c) by (apply win_parent_join; [done|by apply marked_store_name]).
  apply safe_bind, (safe_move_away q Hq Hm Hpar _ a0 a); [by left|by right|done| |].
  - intros w2 Hne Hs2. apply safe_bind, safe_try, safe_bind, safe_sync.
    { destruct Hs2 as [_ H2]. by right. }
    intros r w3 Hw3. pose proof (shows_path _ _ _ Hs2 Hw3) as Hs3.
    destruct r as [[]|e]; [|by destruct Hs3]. apply safe_map_err, safe_call. intros w4 Hw4.
    pose proof (shows_path _ _ _ Hs3 Hw4) as Hs4.
    assert (Hd : passes (agree_off (marked c h) (w_fs w4)) w4 (snd (delete_file q w4))).
    { apply delete_agree; [done|done|apply agree_off_refl]. }
    destruct (delete_file q w4) as [rd w5]. cbn [snd] in Hd.
    assert (Hnone : forall fs, agree_off (marked c h) (w_fs w4) fs -> fs !! path = None).
    { intros fs Hag. rewrite (agree_entry c h Hc Hh _ _ Hag). apply Hs4. }
    split.
    + apply agree_keeps; [apply Hs4|]. eapply passes_mono, Hd. intros fs Hag. rewrite (Hnone _ Hag).
      split_and!; [eapply agree_off_mono, Hag; by right|done|by right].
    + pose proof (Hnone _ (passes_last _ _ _ Hd)) as H5. by destruct rd as [[]|e].
  - intros e w2 Hs2 Hk. case_decide as Hd; [|case_decide; [done|by apply Hfail]].
    apply safe_bind, safe_available; [by apply Hmom| |].
    + intros w3 Hw3. destruct (shows_path _ _ _ Hs2 Hw3) as [_ H3].
      apply (ends_shown _ _ _ _ a); [exact H3|]. by apply Hk.
    + intros e3 w3 Hw3 He3. apply Hfail; [by eapply shows_path|]. by destruct He3 as [->|[src ->]].
Qed.

(** The age of the file may be refreshed, its content is kept. *)
Definition shows_content (a0 : entry) (w : World) : Prop := exists a, same_content a0 a /\ shows a w.

Lemma same_content_retimed a0 content t t' :
  same_content a0 (Some (Regular content t)) -> same_content a0 (Some (Regular content t')).
Proof.
  intros [E|(content' & t1 & t2 & -> & E)]; [|simplify_eq; right; by eexists _, _, _].
  right. rewrite <-E. by eexists _, _, _.
Qed.

Lemma shows_content_moment s a0 w : shows_content a0 w -> moment c (Clear s) a0 (w_fs w !! path).
Proof. intros (a & Ha & _ & E). change (w_fs w !! path = a) in E. rewrite E. by left. Qed.

Lemma shows_content_others a0 w w1 : shows_content a0 w -> others w w1 -> shows_content a0 w1.
Proof. intros (a & Ha & Hs) Hw1. exists a. split; [done|]. by eapply shows_path. Qed.

(** Setting the time of the file is one step. *)
Lemma retime_keeps s a0 low high (w1 w2 : World) handle :
  shows_content a0 w1 -> h_file handle = path -> SetFileTime handle low high w1 = (Ok tt, w2) ->
  keeps (Clear s) a0 w1 w2 /\ shows_content a0 w2.
Proof.
  intros (a & Ha & Hw1 & Ha1) Hf E. change (w_fs w1 !! path = a) in Ha1.
  pose proof (set_file_time_spec handle low high w1) as H. rewrite E, Hf in H.
  assert (Hns : forall t, w_fs w1 !! path <> Some (Symlink t)).
  { intros t Et. pose proof (plain_path _ Hw1) as Hl. by rewrite Et in Hl. }
  destruct H as [Hret Hp]. specialize (Hret Hns).
  assert (He : exists a', w_fs w2 !! path = a' /\ same_content a0 a' /\ is_symlink a' = false).
  { rewrite Hret. unfold retime. pose proof (plain_path _ Hw1) as Hl.
    destruct (w_fs w1 !! path) as [[content t| | |]|] eqn:E1; try (by exists a; rewrite ?E1 in *; simplify_eq).
    eexists. split; [apply lookup_insert_eq|]. split; [|done].
    eapply same_content_retimed. by rewrite Ha1. }
  destruct He as (a' & E2 & Ha' & Hl'). assert (Hk : keeps (Clear s) a0 w1 w2).
  { apply agree_keeps; [done|]. eapply passes_mono, Hp. intros fs [->| ->].
    - split_and!; [apply agree_off_refl|by apply plain_path|]. rewrite Ha1. by left.
    - rewrite E2. split_and!; [|done|by left]. rewrite Hret. unfold retime.
      destruct (w_fs w1 !! path) as [[]|]; try apply agree_off_refl. apply agree_off_insert, own_path. }
  split; [done|]. exists a'. split; [done|]. split; [by eapply keeps_sound|done].
Qed.

Lemma windows_refresh_safe s a0 w :
  shows_content a0 w ->
  safe others (keeps (Clear s) a0) (refresh_windows_clear_age_steps path)
    (fun r w => shows_content a0 w /\ forall e, r = Err e -> kind e = NotFound -> a0 = None) w.
Proof.
  intros Hs. assert (Hsame : forall w1, shows_content a0 w1 -> w_fs w1 !! path = None -> a0 = None).
  { intros w1 (a & Ha & _ & E) Hn. change (w_fs w1 !! path = a) in E. rewrite Hn in E. subst a.
    by destruct Ha as [|(? & ? & ? & _ & ?)]. }
  apply safe_try, safe_still; [by apply shows_content_moment|intros; by apply passes_refl|].
  intros w1 [ticks|e] w2 Hw1 E Hw2; pose proof (shows_content_others _ _ _ Hs Hw2) as Hs2.
  2:{ split; [done|]. intros e' [= <-] Hk. injection E as E _. exfalso. revert E Hk.
      unfold file_time_ticks. destruct (w_now w1 <? 0)%Z; [by intros [= <-]|].
      destruct (mbind _ _); [done|]. by intros [= <-]. }
  destruct (file_time ticks) as [low high].
  apply safe_try, safe_still; [by apply shows_content_moment|intros; apply open_existing_quiet|].
  intros w3 r w4 Hw3 E3 Hw4. pose proof (shows_content_others _ _ _ Hs2 Hw3) as Hs3.
  pose proof (shows_content_others _ _ _ Hs2 Hw4) as Hs4.
  pose proof (open_existing_spec (wide_path path) (N.lor GENERIC_WRITE FILE_WRITE_ATTRIBUTES) 0 staging_flags w3) as H.
  rewrite E3, (file_resolved c Hc h Hh) in H. destruct r as [handle|e].
  2:{ split; [done|]. intros e' [= <-] Hk. destruct H as [_ H]. apply (Hsame w3 Hs3).
      destruct (H (sound_honest _ _ (proj1 Hw3)) Hk) as [?|[t Et]]; [done|].
      pose proof (plain_path _ (proj1 Hw3)) as Hl. by rewrite Et in Hl. }
  destruct H as (_ & Hf & _). apply safe_try, safe_call. intros w5 Hw5.
  pose proof (shows_content_others _ _ _ Hs4 Hw5) as Hs5.
  destruct (SetFileTime handle low high w5) as [[[]|e] w6] eqn:E5.
  - destruct (retime_keeps s a0 low high w5 w6 handle Hs5 Hf E5) as [Hk Hs6]. split; [done|].
    apply safe_still; [by apply shows_content_moment|apply flush_quiet|].
    intros w7 r w8 Hw7 E7 Hw8. split; [by eapply shows_content_others|]. intros e -> Hkind.
    pose proof (flush_spec handle w7) as H. rewrite E7 in H. destruct H as [_ H].
    by destruct (honest_error_kind _ (H (sound_honest _ _ (proj1 Hw7)))).
  - pose proof (set_file_time_spec handle low high w5) as H. rewrite E5 in H. destruct H as [Hu H].
    split.
    + apply unchanged_keeps; [apply Hw5|by apply shows_content_moment|done].
    + split; [|intros e' [= <-] Hkind; by destruct (honest_error_kind _ (H (sound_honest _ _ (proj1 Hw5))))].
      destruct Hs5 as (a & Ha & Hsa). exists a. split; [done|]. by eapply shows_unchanged.
Qed.

Lemma windows_clear_safe fuel s w :
  sound_world (SP := windows_path) c w ->
  let a0 := w_fs w !! path in
  safe others (keeps (Clear s) a0) (windows_clear_blob_steps fuel c path)
    (fun x w => forall r, x = inr r -> ends_in_step (Clear s) a0 (RClear r) w) w.
Proof.
  intros Hw a0. unfold windows_clear_blob_steps. rewrite win_stem by done.
  apply safe_bind. eapply safe_mono, (windows_refresh_safe s a0).
  2:{ exists a0. split; [by left|done]. }
  intros [[]|e] w1 [Hs1 He].
  - apply (safe_loop _ _ (fun _ => shows_content a0)); [done| |done]. intros _ w2 (a & Ha & Hs2).
    eapply safe_mono, windows_clear_turn_safe; [|exact Ha|exact Hs2].
    intros [[]|r] w3 H; [by exists a|by intros r' [= <-]].
  - assert (Hfail : forall (e : AtomicBlobStoreError) w2, shows_content a0 w2 ->
      (forall src, e <> Io OpenNamespaceDirectory src /\ e <> Io SyncNamespaceDirectory src /\
         e <> Io RemoveTemporaryFile src) -> ends_in_step (Clear s) a0 (RClear (Err e)) w2).
    { intros e2 w2 (a & Ha & _ & E2) He2. apply (ends_shown _ _ _ _ a); [exact E2|]. by apply clear_failed. }
    case_decide as Hk; [|by intros r [= <-]; apply Hfail].
    apply safe_bind, safe_available; [by apply shows_content_moment| |].
    + intros w2 Hw2 r [= <-]. destruct Hs1 as (a & Ha & Hs1).
      destruct (shows_path _ _ _ Hs1 Hw2) as [_ E2]. apply (ends_shown _ _ _ _ a); [exact E2|].
      specialize (He e eq_refl Hk). subst a0. rewrite He in Ha.
      by destruct Ha as [->|(? & ? & ? & ? & _)].
    + intros e2 w2 Hw2 He2 r [= <-]. apply Hfail; [by eapply shows_content_others|].
      by destruct He2 as [->|[src ->]].
Qed.

End OneKey.

#[export] Instance windows_interference : BackendInterference (Bk := windows_backend).
Proof.
  refine {| own := windows_own |}; [by left|..]; intros; cbn [save_steps save_from_receiver_steps
    clear_steps quarantine_steps windows_steps].
  - by apply windows_save_safe.
  - by apply windows_stream_safe.
  - by apply windows_clear_safe.
  - by apply windows_quarantine_safe.
Defined.

End Windows.
