(* ===== verification/WindowsSystem.v ===== *)
(** * The whole store on Windows

    The theorems of [SystemRefinement] and [Recovery] for the Windows backend: its saves are
    staged next to the file of the key, its removals are moves to a clearing name,
    and threads of other keys act between any two of these calls. *)
From S2P Require Export WindowsInterference Recovery.

Local Open Scope N_scope.
Local Open Scope blob_scope.

Section Windows.
Context {Crc : Crc32c} {CrcL : Crc32cLaws} {Tgt : Target}
  {Api : WindowsApi} {ApiL : WindowsApiLaws} {Abs : AbsolutePath} {AbsL : AbsolutePathLaws}
  {Lst : DirectoryListing} {LstL : DirectoryListingLaws}.

(** C5: the store refines the map on Windows too.  For every interleaving of the
    system calls of the workers: the operations that ended are a history of the
    abstract map, every key at rest has the entry that this history left, and a
    key with an operation in flight has one that this operation may show,
    although the Windows backend stages its files in the namespace. *)
Theorem windows_system_refines_the_map {B3 : Blake3} {B3L : Blake3Laws} {Order : HashMapOrder}
    {OrderL : HashMapOrderLaws} (config : StoreConfig) (w0 : World) (sys : System) :
  0 < config_max_concurrent_operations config -> windows_store config -> fits_usize (maximum config) ->
  sound_world (SP := windows_path) config w0 ->
  sys_reachable (Bk := windows_backend) config w0 sys ->
  exists a, refines_the_map (Bk := windows_backend) config w0 a sys.
Proof.
  intros Hmax Hc Hf Hw Hr. by apply (sys_refines config (BkL := windows_backend_laws)).
Qed.

(** C6: no crash tears the map on Windows.  At every moment of every step of the
    store, inside the calls that stage, move and delete files and during a cleanup:
    each key has the entry that the ended operations left, or one that the
    operation in flight on it may show. *)
Theorem windows_no_crash_tears_the_map {B3 : Blake3} {B3L : Blake3Laws} {Order : HashMapOrder}
    {OrderL : HashMapOrderLaws} (config : StoreConfig) (w0 : World) (sys sys' : System) :
  0 < config_max_concurrent_operations config -> windows_store config -> fits_usize (maximum config) ->
  sound_world (SP := windows_path) config w0 ->
  sys_reachable (Bk := windows_backend) config w0 sys -> sys_work (Bk := windows_backend) sys sys' ->
  exists a, abstract_runs config (view (Bk := windows_backend) config w0) (sys_history sys) a /\
    passes (crash_image (Bk := windows_backend) config a (sys_threads sys)) (sys_world sys) (sys_world sys').
Proof. intros Hmax Hc Hf Hw. by apply (sys_crashes config (BkL := windows_backend_laws)). Qed.

(** C8: acknowledged saves survive crashes on Windows.  A payload whose save ended
    with [Ok] is in the file of the key when the store is opened again after a kill
    at any moment of any step, and after any number of further kills during which
    the key was only read; no load answers anything else, though one may fail. *)
Theorem windows_saves_survive_a_crash {B3 : Blake3} {B3L : Blake3Laws} {Order : HashMapOrder}
    {OrderL : HashMapOrderLaws} (config : StoreConfig) (w0 : World) sys w2 w3 key payload :
  0 < config_max_concurrent_operations config -> windows_store config -> fits_usize (maximum config) ->
  let n := blake3_to_hex (key_hash key) in
  sound_world (SP := windows_path) config w0 ->
  sys_reachable (Bk := windows_backend) config w0 sys -> acknowledged n payload sys ->
  killed (Bk := windows_backend) config sys w2 ->
  rtc (read_only_life (Bk := windows_backend) config n) w2 w3 ->
  stores config (view (Bk := windows_backend) config w3 n) payload /\
  forall sys3, sys_reachable (Bk := windows_backend) config w3 sys3 -> only_reads n sys3 ->
    stores config (view (Bk := windows_backend) config (sys_world sys3) n) payload /\
    Forall (fun run => run.1.1 = n -> forall o r, fin_outcome run.2 = Some (o, r) -> answers_with config payload r)
      (sys_history sys3).
Proof.
  intros Hmax Hc Hf.
  exact (acknowledged_survives config (BkL := windows_backend_laws) Hc Hf Hmax w0 sys w2 w3 key payload).
Qed.

End Windows.

(** ** Witnesses *)

Section Witnesses.

Abbreviation start := (windows_world windows_files []).
Abbreviation reachable_on_windows := (sys_reachable (Bk := windows_backend)).

Definition windows_start : State :=
  started_with {| eng_config := windows_config; eng_scheduler := Scheduler_new windows_config [];
                  eng_alive := true; eng_coordinator := CoordinatorJoin_new false; eng_next := 0;
                  eng_accepted := [] |}.

Definition windows_after (l : list Action) : State := default windows_start (acts l windows_start).

Lemma windows_files_sound : sound_world (SP := windows_path) windows_config start.
Proof.
  split; [done| |apply windows_entropy]. split; [by vm_compute|]. intros h _.
  eapply lookup_only; [|done]. decided.
Defined.

(** The first save draws its identifier; the second does all of its work
    meanwhile, and ends. *)
Definition windows_between : list Thread * World :=
  interleave (0 :: replicate 20 1)%nat
    [begun (Bk := windows_backend) windows_config (key_hash key_a) save_a;
     begun (Bk := windows_backend) windows_config (key_hash key_b) save_b] start.

Lemma windows_between_reachable :
  exists st t call fin,
    reachable_on_windows windows_config start
      (Build_System st windows_between.2 [t] [(blake3_to_hex (key_hash key_b), save_b, fin)]) /\
    fin_outcome fin = Some (save_b, RSave (Ok tt)) /\ windows_between.1 !! 0%nat = Some t /\
    th_key t = key_hash key_a /\ th_operation t = save_a /\ th_program t = Step call.
Proof.
  apply (overtaking (Bk := windows_backend) windows_config start (0 :: replicate 20 1)%nat
    (windows_after both_calls) (key_hash key_a) save_a
    (key_hash key_b) save_b (save_b, RSave (Ok tt))); [|by vm_compute..].
  apply (acts_system (Bk := windows_backend) _ _ both_calls windows_start);
    [done|exact (sys_open _ _ [] _ eq_refl)|by vm_compute].
Qed.

Lemma windows_system_refines_the_map_witness :
  exists a w fin, fin_outcome fin = Some (save_b, RSave (Ok tt)) /\
    abstract_runs windows_config (view (Bk := windows_backend) windows_config start)
      [(blake3_to_hex (key_hash key_b), save_b, fin)] a /\
    moment windows_config save_a (a (blake3_to_hex (key_hash key_a)))
      (view (Bk := windows_backend) windows_config w (blake3_to_hex (key_hash key_a))).
Proof.
  destruct windows_between_reachable as (st & t & call & fin & Hr & Hf & _ & Hk & Ho & _).
  revert Hr. generalize windows_between.2. intros w Hr.
  destruct (windows_system_refines_the_map windows_config start _ ltac:(done) windows_config_store
    ltac:(by vm_compute) windows_files_sound Hr) as (a & _ & Ha & _ & _ & _ & Hm).
  exists a, w, fin. split; [done|]. split; [exact Ha|].
  specialize (Hm t ltac:(by left)). unfold th_name in Hm. by rewrite Hk, Ho in Hm.
Defined.

Lemma windows_no_crash_tears_the_map_witness :
  exists a t w w' fin, fin_outcome fin = Some (save_b, RSave (Ok tt)) /\ th_operation t = save_a /\
    abstract_runs windows_config (view (Bk := windows_backend) windows_config start)
      [(blake3_to_hex (key_hash key_b), save_b, fin)] a /\
    passes (crash_image (Bk := windows_backend) windows_config a [t]) w w'.
Proof.
  destruct windows_between_reachable as (st & t & call & fin & Hr & Hf & _ & Hk & Ho & Ep).
  revert Hr. generalize windows_between.2. intros w Hr. destruct (call w) as [p w'] eqn:Ec.
  destruct (windows_no_crash_tears_the_map windows_config start _ _ ltac:(done) windows_config_store
    ltac:(by vm_compute) windows_files_sound Hr
    (sys_call (Bk := windows_backend) st w [t] _ 0 t call p w' eq_refl Ep Ec)) as (a & Ha & Hp).
  by exists a, t, w, w', fin.
Defined.

(** The process is killed when the save of [a] has made its next call. *)
Definition windows_crash_files : FsMap :=
  w_fs (after_call (windows_between.1 !! 0%nat) windows_between.2).

Lemma windows_crash_reopens :
  exists w2, reopens (Bk := windows_backend) windows_config (windows_world windows_crash_files []) w2.
Proof.
  assert (He : (windows_initialize_platform (bstr "C:\srv") (bstr "cache") fixture_format 1024 4
    (windows_world windows_crash_files [])).1 = Ok windows_config) by by vm_compute.
  destruct (windows_initialize_platform _ _ _ _ _ _) as [r w2] eqn:E. cbn [fst] in He. subst r.
  exists w2. split; [done|]. split; [apply windows_entropy|]. by exists (bstr "C:\srv"), (bstr "cache").
Qed.

Lemma windows_saves_survive_a_crash_witness :
  exists w2, reopens (Bk := windows_backend) windows_config (windows_world windows_crash_files []) w2 /\
    stores windows_config (view (Bk := windows_backend) windows_config w2 (blake3_to_hex (key_hash key_b)))
      (bstr "pq").
Proof.
  destruct windows_crash_reopens as [w2 Hre]. exists w2. split; [exact Hre|].
  destruct windows_between_reachable as (st & t & call & fin & Hr & Hf & Ht & Hk & Ho & Ep).
  revert Hre. unfold windows_crash_files, after_call. rewrite Ht. cbn [fmap option_fmap option_map]. rewrite Ep.
  revert Hr. generalize windows_between.2. intros w Hr Hre.
  destruct (call w) as [p w'] eqn:Ec. cbn [snd] in Hre.
  set (sys := Build_System st w [t] [(blake3_to_hex (key_hash key_b), save_b, fin)]) in *.
  assert (Hack : acknowledged (blake3_to_hex (key_hash key_b)) (bstr "pq") sys).
  { apply just_saved; [done|]. unfold th_name. rewrite Hk. intros H. by vm_compute in H. }
  assert (Hkill : killed (Bk := windows_backend) windows_config sys w2).
  { apply (killed_during (Bk := windows_backend) _ _ _ _ (windows_world (w_fs w') [])
      (sys_call (Bk := windows_backend) st w [t] _ 0 t call p w' eq_refl Ep Ec)); [by left|done]. }
  by apply (windows_saves_survive_a_crash windows_config start sys w2 w2 key_b (bstr "pq")
    ltac:(done) windows_config_store ltac:(by vm_compute) windows_files_sound Hr Hack Hkill (rtc_refl _ w2)).
Defined.

End Witnesses.
